(* ===== verification/_CoqProject ===== *)
-Q . S2P
Prelude.v
Interfaces.v
Double.v
CoreTypes.v
Seqlock.v
SeqlockThreads.v
SeqlockWeak.v
FlatMap.v
MatchingEngine.v
BookSpec.v
EngineRefinement.v
EngineSpec.v
EngineInvariant.v
EngineIndex.v
Concrete.v
EngineTheorems.v
MidPrice.v
Router.v
User.v
Accounting.v
Instruments.v
Registry.v
Settlement.v
Decimal.v
Rounding.v
Grid.v
MoneyError.v
PnlError.v
PnlBalance.v
SnapshotText.v
Bytes.v
Wire.v
Feed.v
Queues.v
Listener.v
Os.v
Gateway.v
GatewayTheorems.v
GatewayLifecycle.v
GatewayReplay.v
Publisher.v
Pipeline.v
PipelineInvariant.v
EndToEnd.v
PipelineTheorems.v
Crash.v
Provenance.v
ListenerSync.v
ListenerView.v
ListenerTheorems.v
Startup.v
Generator.v
Shutdown.v
Fairness.v
ShutdownFair.v
Exchange.v
SnapshotFile.v
WireToFile.v
RepoTests.v
