(* ===== verification/Prelude.v ===== *)
(** * ToyExchange: a verified model of the exchange

    ToyExchange is a single-process exchange.  Clients send fixed-size binary frames
    over TCP to the gateway (common/net/gateway.cpp), which decodes them
    (common/net/wire.hpp) and pushes commands on a bounded queue.  The matching engine
    thread (common/workers/matching_engine_thread.cpp) routes each command to the
    engine of its instrument (common/engine/matching_engine_router.hpp,
    matching_engine.hpp/.cpp), pushes market data and trades on two further queues and
    publishes mid prices through a seqlock (common/core/seqlock.hpp).  The inventory
    thread (common/workers/inventory_thread.cpp) settles trades into the accounts
    (common/engine/user.hpp, user_registry.hpp); the publisher
    (common/net/market_data_publisher.cpp) sends the market data; main
    (exchange/main.cpp) starts the threads and shuts them down in order.  Two client
    tools go with it: a listener that rebuilds the books from the market data
    (tools/orderbook_listener.py) and a load generator (tools/dummy_order_generator.py);
    both use the codec of tools/wire.py.

    ** How the code is modelled

    Pure code is functions; code that mutates is explicit state passing; everything
    that can fail returns an [Outcome]: a value, an exception, undefined behaviour, or
    a loop out of fuel.  std::int64_t is [Z] with checked arithmetic: a result out of
    range is [Undefined].  std::uint64_t wraps.  double is the class [DoubleOps], with
    the IEEE 754 instance [binary64] that the program runs on and exact rationals to
    state what the money code approximates.  Code that is not in the repository is an
    interface, a class of operations and a class of documented laws: static_string, the
    hash map and the lock-free queue in Interfaces.v, the system calls in Os.v; each
    has an instance that satisfies its laws, on which the examples run.  Fuel: the loops
    of Match get the number of levels and of orders at a level plus one, ReadFrom the
    number of pending bytes plus one, AcceptConnections the backlog plus one, MidPrice
    one; the theorems show that these always suffice.  The event loop of the gateway runs
    until another thread stops it: how many rounds that takes is a parameter of Run, and
    the theorems hold for every number.  What the load generator draws at random is an
    argument of its turns.

    ** Files

    - Prelude.v: outcomes, machine integers, bytes, sums, tactics, hint databases.
    - Interfaces.v: the third-party components and their laws.  Double.v: double.
    - CoreTypes.v: strong_type.hpp, types.hpp, messages.hpp, inbound_command.hpp.
    - Seqlock.v: the seqlock as its owner sees it; SeqlockThreads.v: a writer and a
      reader interleaved word by word; SeqlockWeak.v: the same accesses out of order.
    - FlatMap.v: the sorted flat map of the books.  MatchingEngine.v: the engine, one
      definition per member function.
    - BookSpec.v: the specification, a book as one list in priority order with [fill],
      [rest_at] and [remove_at].  EngineRefinement.v, EngineSpec.v: the engine refines
      it.  EngineInvariant.v, EngineIndex.v: invariants of books and index.
    - Concrete.v: executable instances and sample orders.
    - EngineTheorems.v, MidPrice.v: the theorems about one engine.
    - Router.v: the router and the independence of instruments.
    - User.v: holdings and users.  Accounting.v: the ledger they implement.
      Instruments.v: class Instrument, whose profit is that of a holding.
      Registry.v: the registry, one settlement, the snapshot.  Settlement.v: runs of
      settlements.  Decimal.v: numbers as text, the way a stream writes them.
      SnapshotText.v: the snapshot file.  Rounding.v: the rounding errors of double;
      Grid.v: those of sums and differences.  MoneyError.v: those of prices and average
      costs.  PnlError.v: those of the P&L of a user.  PnlBalance.v: those of all together.
    - Bytes.v: memory of packed structs.  Wire.v: wire.hpp.  Feed.v: the codec of the
      client tools (tools/wire.py) and the round trips.
    - Os.v: the system calls, what they promise, and a simulated system.
    - Gateway.v: set-up, connections, framing, the epoll loop, shutdown, destruction.
      GatewayTheorems.v: what it dispatches.  GatewayLifecycle.v: what it opens and
      closes.  GatewayReplay.v: a whole run, as a reader of its system calls tells it.
    - Publisher.v: the construction and destruction of the publisher.
    - Queues.v: the queues of queues.hpp.
    - Pipeline.v: the threads, queues and flags as a step function, one atomic action of
      one thread at a time.  PipelineInvariant.v: the invariants of every interleaving.
      EndToEnd.v: matched trades can always be settled.  PipelineTheorems.v, Shutdown.v:
      the theorems about the running process.  Fairness.v: termination of fair runs, for
      any step function; ShutdownFair.v: the shutdown is one.  Crash.v: what one command
      does, and when it brings the engine thread down.  Provenance.v: every trade comes
      from two orders.  Startup.v: the logger and the signal handlers, before the threads.
      Exchange.v: main from start to exit.  SnapshotFile.v: the file it leaves behind.
      WireToFile.v: everything together, from the clients' frames to feed and file.
    - Listener.v: the order book listener.  ListenerSync.v: its book is that of the
      engines.  ListenerView.v: so is the snapshot it prints.  ListenerTheorems.v: the
      theorems about it.  Generator.v: the load generator.
    - RepoTests.v: the test functions of the repository, run on the model.

    ** What is shown

    - Matching: an incoming order executes against the book exactly as price-time
      priority says, fills as much as its limit allows, conserves volume; books stay
      sorted and uncrossed, the order index lists exactly the resting orders, a cancel
      removes its order and nothing else (unless its id was used twice), and only for the
      owner.  These hold at any prices, for every call that returns.
    - Mid price: it is the middle of the best bid and ask; it is the only part of an
      add or a cancel that can be undefined, which is exactly when the best bid plus the
      best ask does not fit in 64 bits; prices come unchecked off the wire, so two orders
      near the integer limits bring the engine thread down.  With prices within
      [-2^62, 2^62) it never happens; theorems that need a run without it (no thread
      fails, the shutdown completes, the listener and the file are right) say so.
    - Accounts: a holding is a ledger of its fills; the average cost is a mean of the
      prices; settlement moves volume between two accounts, positions and P&L of all
      participants add up to zero, at every moment of the running process.  A settlement
      overflows exactly when one of its two positions leaves the 64-bit range.  These hold in
      exact arithmetic; in double, prices survive the conversion to dollars and back, the
      average cost of a position is right to 2^-49 per fill, the P&L to 2^-49 per fill of
      the money that moved, and so the P&L of all participants adds up to almost zero.
    - Wire: commands and events survive encoding and decoding between the exchange and
      the client tools; every frame decodes, but for tickers without a NUL.
    - Gateway: the commands dispatched depend on the bytes received and not on how they
      were split, and each connection is first-in first-out whatever the others send;
      descriptors and table agree; whatever fails, what was opened is closed.
    - Process: under every interleaving the pipeline computes what the sequential
      exchange computes; stages stop in order; well-formed input crashes nothing; once
      requested, a shutdown completes under every fair schedule, and it is complete if it
      leaves no queue behind, but a worker can miss work pushed just before its producer
      ends.  A signal during the start is fatal or remembered.  Every trade, wherever it
      is, comes from two orders that were sent, on their terms, and no order id trades more
      than was ordered under it.  When main is done, nothing changes the accounts any more, the
      file it writes can be read back and balances (amounts to six significant digits),
      and the descriptors are as before the start.  After a clean shutdown the feed and the
      positions in the file are those the sequential exchange computes from the frames the
      clients sent.
    - Listener: if participants follow the rules (new ids, positive volumes, cancels by
      the owner), it shows exactly the books of the engines; a cancel by a stranger or an
      order without volume misleads it.
    - Load generator: every session it can produce is understood, follows those rules and
      brings nothing down, its prices computed in double, wherever it is cut off; a second session reuses the ids of the first.
    - Seqlock: a load never returns a torn value if accesses take effect in program order
      or in the order of x86; the memory orders in the code alone do not exclude it.

    Theorems whose comment carries a number (C1, C2, ...) are the properties of the
    manifest; the lemma with the same name and the suffix [_witness] applies each to a
    concrete input.

    ** What is not modelled

    The log lines (of the logger only its set-up is); std::hash and the arena the books
    are allocated from; the lines the client tools print, and how they open their
    sockets, pause and parse arguments.  Outside SeqlockWeak.v the interleavings are
    sequentially consistent: the queues and flags are used as their documented
    acquire/release operations. *)

From Stdlib Require Export ZArith Lia.
From Stdlib Require Import Strings.Byte.
From stdpp Require Export base numbers decidable option sets list.

Local Open Scope Z_scope.

(** ** Hint databases and tactics *)

Create HintDb exchange discriminated.
#[export] Hint Constants Opaque : exchange.
#[export] Hint Variables Opaque : exchange.

(** Splits every boolean comparison on [Z] found in the goal or the context. *)
Ltac zbool :=
  repeat match goal with
  | H : context [Z.ltb ?a ?b] |- _ => destruct (Z.ltb_spec a b)
  | H : context [Z.leb ?a ?b] |- _ => destruct (Z.leb_spec a b)
  | H : context [Z.eqb ?a ?b] |- _ => destruct (Z.eqb_spec a b)
  | |- context [Z.ltb ?a ?b] => destruct (Z.ltb_spec a b)
  | |- context [Z.leb ?a ?b] => destruct (Z.leb_spec a b)
  | |- context [Z.eqb ?a ?b] => destruct (Z.eqb_spec a b)
  end.

(** ** Outcomes of C++ code *)

(** The exceptions the sources can raise. *)
Inductive exn :=
  | out_of_range      (* std::vector::at *)
  | length_error      (* boost::static_string constructor *)
  | runtime_error     (* thrown by the sources themselves *)
  | value_error       (* ValueError of the Python tools, UnicodeError included *)
  | struct_error      (* struct.error of the Python tools *)
  | lookup_error.     (* LookupError of the Python tools: IndexError, KeyError *)

(** What running a C++ expression can lead to: a value, an exception, undefined
    behaviour, or a loop whose fuel ran out. *)
Inductive Outcome (A : Type) :=
  | Ok (a : A)
  | Throw (e : exn)
  | Undefined
  | OutOfFuel.
Arguments Ok {A} a.
Arguments Throw {A} e.
Arguments Undefined {A}.
Arguments OutOfFuel {A}.

#[export] Instance exn_eq_dec : EqDecision exn.
Proof. solve_decision. Defined.

#[export] Instance Outcome_eq_dec {A} `{EqDecision A} : EqDecision (Outcome A).
Proof. solve_decision. Defined.

#[export] Instance Outcome_ret : MRet Outcome := @Ok.
#[export] Instance Outcome_bind : MBind Outcome := λ A B f m,
  match m with
  | Ok a => f a
  | Throw e => Throw e
  | Undefined => Undefined
  | OutOfFuel => OutOfFuel
  end.

Definition is_ok {A} (m : Outcome A) : bool :=
  match m with Ok _ => true | _ => false end.

Section OutcomeFacts.
Context {A B C : Type}.

Lemma bind_Ok (m : Outcome A) (f : A → Outcome B) b :
  m ≫= f = Ok b ↔ ∃ a, m = Ok a ∧ f a = Ok b.
Proof. destruct m; simpl; naive_solver. Qed.

Lemma bind_assoc (m : Outcome A) (f : A → Outcome B) (g : B → Outcome C) :
  (m ≫= f) ≫= g = m ≫= (λ a, f a ≫= g).
Proof. by destruct m. Qed.

Lemma bind_ret_r (m : Outcome A) : m ≫= Ok = m.
Proof. by destruct m. Qed.

Lemma bind_ext (m : Outcome A) (f g : A → Outcome B) :
  (∀ a, m = Ok a → f a = g a) → m ≫= f = m ≫= g.
Proof. destruct m; simpl; auto. Qed.

End OutcomeFacts.

(** Turns every hypothesis [_ ≫= _ = Ok _] into the successful runs of its parts. *)
Ltac inv_ok :=
  repeat match goal with
  | H : _ ≫= _ = Ok _ |- _ =>
      let a := fresh "a" in let E := fresh "E" in
      apply bind_Ok in H as (a & E & H)
  | H : Ok _ = Ok _ |- _ => injection H as H; try subst
  | H : mret _ = Ok _ |- _ => change (Ok _ = Ok _) in H
  | H : Throw _ = Ok _ |- _ => discriminate H
  | H : Undefined = Ok _ |- _ => discriminate H
  | H : OutOfFuel = Ok _ |- _ => discriminate H
  end.

(** Runs an effectful callback over a list, from left to right: how a callback that
    is invoked once per event behaves over a whole run. *)
Fixpoint foldM {A S : Type} (f : A → S → Outcome S) (l : list A) (s : S) : Outcome S :=
  match l with
  | [] => Ok s
  | a :: l' => s' ← f a s; foldM f l' s'
  end.

Lemma foldM_app {A S} (f : A → S → Outcome S) l1 l2 s :
  foldM f (l1 ++ l2) s = foldM f l1 s ≫= foldM f l2.
Proof.
  revert s; induction l1 as [|a l1 IH]; intros s; simpl; [done|].
  rewrite bind_assoc. apply bind_ext; auto.
Qed.

(** The callback that appends each event to a list never fails. *)
Definition collect {A} (a : A) (acc : list A) : Outcome (list A) := Ok (acc ++ [a]).

Lemma foldM_collect {A} (l acc : list A) : foldM collect l acc = Ok (acc ++ l).
Proof.
  revert acc; induction l as [|a l IH]; intros acc; simpl; [by rewrite app_nil_r|].
  by rewrite IH, <-(assoc_L (++)).
Qed.

(** ** Machine integers *)

Definition i64_min : Z := - 2 ^ 63.
Definition i64_max : Z := 2 ^ 63 - 1.

(** [z] is a value of std::int64_t. *)
Definition i64b (z : Z) : bool := (i64_min <=? z) && (z <=? i64_max).
Definition is_i64 (z : Z) : Prop := i64_min ≤ z ≤ i64_max.

Lemma i64b_spec z : i64b z = true ↔ is_i64 z.
Proof. unfold i64b, is_i64. rewrite andb_true_iff, !Z.leb_le. done. Qed.

#[export] Instance is_i64_dec z : Decision (is_i64 z).
Proof. unfold is_i64. apply _. Defined.

(** Signed arithmetic: a result that does not fit is undefined behaviour. *)
Definition i64_result (z : Z) : Outcome Z := if i64b z then Ok z else Undefined.
Definition i64_add (a b : Z) : Outcome Z := i64_result (a + b).
Definition i64_sub (a b : Z) : Outcome Z := i64_result (a - b).
Definition i64_neg (a : Z) : Outcome Z := i64_result (- a).
(** std::abs on std::int64_t: undefined for the minimum. *)
Definition i64_abs (a : Z) : Outcome Z := i64_result (Z.abs a).
(** Division truncates towards zero; only [i64_min / -1] does not fit. *)
Definition i64_div (a b : Z) : Outcome Z :=
  if b =? 0 then Undefined else i64_result (Z.quot a b).

(** std::uint64_t wraps around. *)
Definition u64_wrap (z : Z) : Z := z mod 2 ^ 64.

Declare Scope cpp_scope.
Delimit Scope cpp_scope with cpp.
Notation "a ⊞ b" := (i64_add a b) (at level 50, left associativity) : cpp_scope.
Notation "a ⊟ b" := (i64_sub a b) (at level 50, left associativity) : cpp_scope.
Open Scope cpp_scope.

Lemma i64_result_Ok z : is_i64 z → i64_result z = Ok z.
Proof. intros H%i64b_spec. unfold i64_result. by rewrite H. Qed.

Lemma i64_result_Undefined z : ¬ is_i64 z → i64_result z = Undefined.
Proof. unfold i64_result. destruct (i64b z) eqn:E; [by apply i64b_spec in E|done]. Qed.

Lemma i64_result_inv z r : i64_result z = Ok r ↔ r = z ∧ is_i64 z.
Proof.
  unfold i64_result. destruct (i64b z) eqn:E.
  - apply i64b_spec in E. naive_solver.
  - split; [done|]. intros [-> H%i64b_spec]. congruence.
Qed.

Lemma i64_result_fuel z : i64_result z ≠ OutOfFuel.
Proof. unfold i64_result. by destruct (i64b z). Qed.

#[export] Hint Resolve i64_result_Ok i64_result_fuel : exchange.

(** Unfolds the machine bounds for [lia]. *)
Ltac i64 := unfold is_i64, i64_min, i64_max in *; lia.

(** ** Bytes *)

Definition byte_to_Z (b : byte) : Z := Z.of_N (Byte.to_N b).
Definition byte_of_Z (z : Z) : byte :=
  match Byte.of_N (Z.to_N (z mod 256)) with Some b => b | None => x00 end.

Lemma byte_to_Z_range b : 0 ≤ byte_to_Z b < 256.
Proof.
  unfold byte_to_Z. pose proof (Byte.to_N_bounded b). lia.
Qed.

Lemma byte_to_of_Z z : byte_to_Z (byte_of_Z z) = z mod 256.
Proof.
  unfold byte_to_Z, byte_of_Z.
  pose proof (Z.mod_pos_bound z 256 ltac:(lia)) as Hb.
  destruct (Byte.of_N _) as [b|] eqn:E.
  - apply Byte.to_of_N in E. rewrite E. lia.
  - apply Byte.of_N_None_iff in E. lia.
Qed.

Lemma byte_of_to_Z b : byte_of_Z (byte_to_Z b) = b.
Proof.
  unfold byte_of_Z. rewrite Z.mod_small by apply byte_to_Z_range.
  unfold byte_to_Z. by rewrite N2Z.id, Byte.of_to_N.
Qed.

#[export] Instance byte_eq_dec : EqDecision byte := Byte.byte_eq_dec.

(** ** Sums over lists *)

Definition sumZ {A} (f : A → Z) (l : list A) : Z := foldr (λ a s, f a + s) 0 l.

Section SumZ.
Context {A : Type}.
Implicit Types (f g : A → Z) (l : list A).

Lemma sumZ_cons f a l : sumZ f (a :: l) = f a + sumZ f l.
Proof. done. Qed.

Lemma sumZ_app f l1 l2 : sumZ f (l1 ++ l2) = sumZ f l1 + sumZ f l2.
Proof. induction l1; simpl; lia. Qed.

Lemma sumZ_ext f g l : (∀ a, a ∈ l → f a = g a) → sumZ f l = sumZ g l.
Proof.
  induction l as [|a l IH]; intros H; simpl; [done|].
  rewrite (H a) by (by left). rewrite IH; [done|]. intros; apply H; by right.
Qed.

Lemma sumZ_nonneg f l : Forall (λ a, 0 ≤ f a) l → 0 ≤ sumZ f l.
Proof. induction 1; simpl; lia. Qed.

Lemma sumZ_Permutation f l1 l2 : l1 ≡ₚ l2 → sumZ f l1 = sumZ f l2.
Proof. induction 1; simpl; lia. Qed.

Lemma sumZ_fmap {B} (h : B → A) f (l : list B) : sumZ f (h <$> l) = sumZ (λ b, f (h b)) l.
Proof. induction l as [|b l IH]; [done|]. by rewrite fmap_cons, !sumZ_cons, IH. Qed.

End SumZ.

(** ** Filters *)

Section Filters.
Context {A : Type} (P : A → Prop) `{∀ x, Decision (P x)}.

Lemma filter_keep_all l : Forall P l → filter P l = l.
Proof.
  induction 1 as [|x l Hx _ IH]; [done|]. by rewrite filter_cons_True, IH.
Qed.

Lemma Forall_filter_sub (Q : A → Prop) l : Forall Q l → Forall Q (filter P l).
Proof.
  rewrite !Forall_forall. intros HQ x [_ Hx]%list_elem_of_filter. auto.
Qed.
End Filters.

Lemma filter_fmap {A B} (f : A → B) (P : B → Prop) `{!∀ y, Decision (P y)} (l : list A) :
  filter P (f <$> l) = f <$> filter (λ x, P (f x)) l.
Proof.
  induction l as [|x l IH]; [done|]. rewrite fmap_cons, !filter_cons, IH. by case_decide.
Qed.

(** Elements of a list whose images are distinct are determined by their image. *)
Lemma NoDup_fmap_inj {A B} (f : A → B) l x y :
  NoDup (f <$> l) → x ∈ l → y ∈ l → f x = f y → x = y.
Proof.
  intros Hnd [i Hi]%list_elem_of_lookup [j Hj]%list_elem_of_lookup E.
  assert (i = j) as ->; [|congruence].
  eapply NoDup_lookup; [exact Hnd| |]; rewrite list_lookup_fmap.
  - by rewrite Hi.
  - by rewrite Hj, E.
Qed.
