(* ===== verification/Interfaces.v ===== *)
(** * The third-party components the exchange is built on

    boost::static_string, ankerl::unordered_dense::map and
    boost::lockfree::spsc_queue are not part of the repository.  Each is an
    interface here: a class of operations, and a class of the documented laws the
    sources rely on.  The components of the exchange are defined over the
    operations and their theorems assume the laws; the instances at the end show
    that the laws can hold and let the examples run. *)

From S2P Require Import Prelude.
From stdpp Require Import gmap.
From Stdlib Require Import Strings.Byte.

(** ** boost::static_string<cap> *)

Class StaticString (cap : nat) (S : Type) := {
  (** The constructor from a pointer and a count. *)
  ss_make : list byte → Outcome S;
  (** data() and size(): the characters held. *)
  ss_data : S → list byte;
  (** operator== *)
  #[global] ss_eq_dec :: EqDecision S;
}.
Arguments ss_make {cap S _} _.
Arguments ss_data {cap S _} _.

Class StaticStringLaws (cap : nat) (S : Type) `{!StaticString cap S} : Prop := {
  ss_make_fits l : length l ≤ cap → ∃ s, ss_make l = Ok s ∧ ss_data s = l;
  ss_make_overflow l : cap < length l → ss_make l = Throw length_error;
  ss_data_length (s : S) : length (ss_data s) ≤ cap;
  ss_data_inj (s1 s2 : S) : ss_data s1 = ss_data s2 → s1 = s2;
}.

(** ** ankerl::unordered_dense::map<K, V> *)

Class UMap (K V M : Type) := {
  um_empty : M;
  (** find(k): the mapped value, or end(). *)
  um_find : K → M → option V;
  (** m[k] = v *)
  um_set : K → V → M → M;
  (** erase(k); a no-op when k is absent. *)
  um_erase : K → M → M;
  (** Iteration, in an unspecified order. *)
  um_entries : M → list (K * V);
}.

Class UMapLaws (K V M : Type) `{!UMap K V M} : Prop := {
  um_find_empty k : um_find k um_empty = None;
  um_find_set_eq k v m : um_find k (um_set k v m) = Some v;
  um_find_set_ne k k' v m : k ≠ k' → um_find k' (um_set k v m) = um_find k' m;
  um_find_erase_eq k m : um_find k (um_erase k m) = None;
  um_find_erase_ne k k' m : k ≠ k' → um_find k' (um_erase k m) = um_find k' m;
  um_entries_find k v m : (k, v) ∈ um_entries m ↔ um_find k m = Some v;
  um_entries_NoDup m : NoDup (um_entries m).*1;
}.

#[export] Hint Rewrite @um_find_empty @um_find_set_eq @um_find_erase_eq using (typeclasses eauto) : umap.
#[export] Hint Rewrite @um_find_set_ne @um_find_erase_ne using (first [typeclasses eauto | congruence]) : umap.

Section UMapFacts.
Context {K V M : Type} `{!EqDecision K} `{!UMap K V M} `{!UMapLaws K V M}.

Lemma um_find_set k k' v (m : M) :
  um_find k' (um_set k v m) = if decide (k = k') then Some v else um_find k' m.
Proof. case_decide; subst; [apply um_find_set_eq | by apply um_find_set_ne]. Qed.

Lemma um_find_erase k k' (m : M) :
  um_find k' (um_erase k m) = if decide (k = k') then None else um_find k' m.
Proof. case_decide; subst; [apply um_find_erase_eq | by apply um_find_erase_ne]. Qed.

End UMapFacts.

(** ** boost::lockfree::spsc_queue<A, capacity<cap>> *)

Class SpscQueue (A Q : Type) := {
  q_empty : Q;
  (** push: [None] when it returns false (the queue is full). *)
  q_push : A → Q → option Q;
  (** pop: [None] when it returns false (the queue is empty). *)
  q_pop : Q → option (A * Q);
  (** The elements in the order they will be popped (specification only). *)
  q_contents : Q → list A;
}.

Class SpscQueueLaws (cap : nat) (A Q : Type) `{!SpscQueue A Q} : Prop := {
  q_contents_empty : q_contents q_empty = [];
  q_contents_bound q : length (q_contents q) ≤ cap;
  q_push_full a q : length (q_contents q) = cap → q_push a q = None;
  q_push_room a q : length (q_contents q) < cap →
    ∃ q', q_push a q = Some q' ∧ q_contents q' = q_contents q ++ [a];
  q_pop_empty q : q_contents q = [] → q_pop q = None;
  q_pop_head a l q : q_contents q = a :: l →
    ∃ q', q_pop q = Some (a, q') ∧ q_contents q' = l;
}.

Section SpscFacts.
Context {cap : nat} {A Q : Type} `{!SpscQueue A Q} `{!SpscQueueLaws cap A Q}.

Lemma q_push_Some a q q' :
  q_push a q = Some q' → q_contents q' = q_contents q ++ [a].
Proof.
  intros H. pose proof (q_contents_bound q) as Hb.
  destruct (decide (length (q_contents q) = cap)) as [Hf|Hf].
  - rewrite q_push_full in H by done. done.
  - destruct (q_push_room a q) as (q'' & E & Hc); [lia|]. congruence.
Qed.

Lemma q_pop_Some a q q' :
  q_pop q = Some (a, q') → q_contents q = a :: q_contents q'.
Proof.
  intros H. destruct (q_contents q) as [|b l] eqn:E.
  - by rewrite q_pop_empty in H.
  - destruct (q_pop_head b l q E) as (q'' & E' & <-). congruence.
Qed.

End SpscFacts.

(** ** Instances *)

(** A bounded string: its characters and the bound on their number. *)
Record static_str (cap : nat) := StaticStr {
  str_chars : list byte;
  str_fits : bool_decide (length str_chars ≤ cap) = true;
}.
Arguments StaticStr {cap} _ _.
Arguments str_chars {cap} _.
Arguments str_fits {cap} _.

Lemma static_str_eq {cap} (s1 s2 : static_str cap) :
  str_chars s1 = str_chars s2 → s1 = s2.
Proof.
  destruct s1 as [l1 H1], s2 as [l2 H2]; simpl; intros ->. f_equal.
  apply (proof_irrel H1 H2).
Qed.

#[export] Instance static_str_eq_dec cap : EqDecision (static_str cap).
Proof.
  intros s1 s2. destruct (decide (str_chars s1 = str_chars s2)) as [E|E].
  - left. by apply static_str_eq.
  - right. intros ->. done.
Defined.

Definition str_make {cap} (l : list byte) : Outcome (static_str cap) :=
  match decide (bool_decide (length l ≤ cap) = true) with
  | left H => Ok (StaticStr l H)
  | right _ => Throw length_error
  end.

#[export] Instance static_str_ops cap : StaticString cap (static_str cap) :=
  {| ss_make := str_make; ss_data := str_chars; ss_eq_dec := static_str_eq_dec cap |}.

#[export] Instance static_str_laws cap : StaticStringLaws cap (static_str cap).
Proof.
  split; simpl.
  - intros l H. unfold str_make. destruct (decide _) as [H'|H']; [eauto|].
    destruct H'. by apply bool_decide_eq_true.
  - intros l H. unfold str_make. destruct (decide _) as [H'|H']; [|done].
    exfalso; apply bool_decide_eq_true_1 in H'. lia.
  - intros s. exact (bool_decide_eq_true_1 _ (str_fits s)).
  - apply static_str_eq.
Qed.

#[export] Instance gmap_umap {K V} `{Countable K} : UMap K V (gmap K V) :=
  {| um_empty := ∅; um_find k m := m !! k; um_set k v m := <[k:=v]> m;
     um_erase k m := delete k m; um_entries := map_to_list |}.

#[export] Instance gmap_umap_laws {K V} `{Countable K} : UMapLaws K V (gmap K V).
Proof.
  split; simpl; intros.
  - apply lookup_empty.
  - apply lookup_insert_eq.
  - by apply lookup_insert_ne.
  - apply lookup_delete_eq.
  - by apply lookup_delete_ne.
  - apply elem_of_map_to_list.
  - apply NoDup_fst_map_to_list.
Qed.

(** A bounded FIFO list. *)
Record fifo (cap : nat) (A : Type) := Fifo {
  fifo_list : list A;
  fifo_fits : bool_decide (length fifo_list ≤ cap) = true;
}.
Arguments Fifo {cap A} _ _.
Arguments fifo_list {cap A} _.
Arguments fifo_fits {cap A} _.

Definition fifo_of {cap A} (l : list A) : option (fifo cap A) :=
  match decide (bool_decide (length l ≤ cap) = true) with
  | left H => Some (Fifo l H)
  | right _ => None
  end.

Definition fifo_pop {cap A} (q : fifo cap A) : option (A * fifo cap A) :=
  match fifo_list q with
  | [] => None
  | a :: l => q' ← fifo_of l; Some (a, q')
  end.

#[export] Instance fifo_ops cap A : SpscQueue A (fifo cap A) :=
  {| q_empty := Fifo [] eq_refl; q_push a q := fifo_of (fifo_list q ++ [a]);
     q_pop := fifo_pop; q_contents := fifo_list |}.

Lemma fifo_of_fits {cap A} (l : list A) :
  length l ≤ cap → ∃ q : fifo cap A, fifo_of l = Some q ∧ fifo_list q = l.
Proof.
  intros H. unfold fifo_of. destruct (decide _) as [H'|H']; [eauto|].
  destruct H'. by apply bool_decide_eq_true.
Qed.

Lemma fifo_bound {cap A} (q : fifo cap A) : length (fifo_list q) ≤ cap.
Proof. exact (bool_decide_eq_true_1 _ (fifo_fits q)). Qed.

#[export] Instance fifo_laws cap A : SpscQueueLaws cap A (fifo cap A).
Proof.
  split; simpl.
  - done.
  - apply fifo_bound.
  - intros a q H. unfold fifo_of. destruct (decide _) as [H'|H']; [|done].
    exfalso; apply bool_decide_eq_true_1 in H'. rewrite length_app in H'. simpl in H'. lia.
  - intros a q H. apply fifo_of_fits. rewrite length_app. simpl. lia.
  - intros q H. unfold fifo_pop. by rewrite H.
  - intros a l q H. unfold fifo_pop. rewrite H.
    pose proof (fifo_bound q) as Hb. rewrite H in Hb. simpl in Hb.
    destruct (fifo_of_fits (cap:=cap) l) as (q' & E & Hl); [lia|]. rewrite E. simpl. eauto.
Qed.
