(* ===== verification/Double.v ===== *)
(** * The arithmetic of C++ double

    The money code computes in double.  [DoubleOps] is the arithmetic it uses;
    [binary64] is IEEE 754 double precision with round-to-nearest-even, on the
    standard library's executable specification of floating point, and is what the
    program runs on.  [exact] is the same interface over the rationals: the
    arithmetic the money code approximates, used to state what it is meant to
    compute. *)

From S2P Require Import Prelude.
From Corelib Require Import SpecFloat.
From Stdlib Require Import QArith Qround Qabs.

Local Open Scope Z_scope.

Class DoubleOps (D : Type) := {
  d_of_Z : Z → D;            (* static_cast<double>(std::int64_t) *)
  d_add : D → D → D;
  d_sub : D → D → D;
  d_mul : D → D → D;
  d_div : D → D → D;
  d_opp : D → D;
  d_cmp : D → D → option comparison;
  d_llround : D → Outcome Z; (* std::llround *)
}.

(** ** binary64 *)

Definition binary64 : Type := spec_float.
Definition prec64 : Z := 53.
Definition emax64 : Z := 1024.

(** The nearest integer to [m / 2^k], halfway cases away from zero. *)
Definition div_pow2_away (m k : Z) : Z := (m + 2 ^ (k - 1)) / 2 ^ k.

(** std::llround; a value that does not fit long long (or is not a number) has no
    specified result. *)
Definition b64_llround (x : binary64) : Outcome Z :=
  match x with
  | S754_zero _ => Ok 0
  | S754_finite s m e =>
      let n := if 0 <=? e then Z.pos m * 2 ^ e else div_pow2_away (Z.pos m) (- e) in
      i64_result (if s then - n else n)
  | _ => Undefined
  end.

#[export] Instance binary64_ops : DoubleOps binary64 := {|
  d_of_Z z := binary_normalize prec64 emax64 z 0 false;
  d_add := SFadd prec64 emax64;
  d_sub := SFsub prec64 emax64;
  d_mul := SFmul prec64 emax64;
  d_div := SFdiv prec64 emax64;
  d_opp := SFopp;
  d_cmp := SFcompare;
  d_llround := b64_llround;
|}.

(** ** Exact arithmetic *)

(** The nearest integer to a rational, halfway cases away from zero. *)
Definition Qround_away (q : Q) : Z :=
  if Qle_bool 0 q then Qfloor (q + (1 # 2)) else - Qfloor (- q + (1 # 2)).

#[export] Instance exact_ops : DoubleOps Q := {|
  d_of_Z z := inject_Z z;
  d_add := Qplus;
  d_sub := Qminus;
  d_mul := Qmult;
  d_div := Qdiv;
  d_opp := Qopp;
  d_cmp a b := Some (Qcompare a b);
  d_llround q := i64_result (Qround_away q);
|}.
