(* ===== verification/CoreTypes.v ===== *)
(** * The basic data model (common/core)

    [StrongType] (strong_type.hpp), the quantities, tickers, sides, orders and
    trades of types.hpp, and the inbound requests of messages.hpp and
    inbound_command.hpp. *)

From Stdlib Require Import Strings.String.
From S2P Require Import Prelude Interfaces Double.

Local Open Scope Z_scope.

(** ** StrongType<T, Tag> *)

(** What the wrapper needs of the raw type: the arithmetic and comparison of T. *)
Class RawArith (T : Type) := {
  raw_add : T → T → Outcome T;
  raw_sub : T → T → Outcome T;
  raw_neg : T → Outcome T;
  raw_cmp : T → T → option comparison;
}.

(** std::int64_t *)
#[export] Instance raw_i64 : RawArith Z :=
  {| raw_add := i64_add; raw_sub := i64_sub; raw_neg := i64_neg;
     raw_cmp a b := Some (a ?= b) |}.

(** double *)
#[export] Instance raw_double {D} `{DoubleOps D} : RawArith D | 10 :=
  {| raw_add a b := Ok (d_add a b); raw_sub a b := Ok (d_sub a b);
     raw_neg a := Ok (d_opp a); raw_cmp := d_cmp |}.

Record StrongType (T Tag : Type) := Strong { value : T }.
Arguments Strong {T Tag} value.
Arguments value {T Tag} _.

Section StrongTypeOps.
Context {T Tag : Type} `{!RawArith T}.
Implicit Types a b lhs rhs : StrongType T Tag.

Definition st_cmp a b : option comparison := raw_cmp (value a) (value b).
Definition st_ltb a b : bool := match st_cmp a b with Some Lt => true | _ => false end.
Definition st_gtb a b : bool := match st_cmp a b with Some Gt => true | _ => false end.
Definition st_leb a b : bool := match st_cmp a b with Some (Lt | Eq) => true | _ => false end.
Definition st_geb a b : bool := match st_cmp a b with Some (Gt | Eq) => true | _ => false end.
Definition st_eqb a b : bool := match st_cmp a b with Some Eq => true | _ => false end.
Definition st_add a b : Outcome (StrongType T Tag) :=
  v ← raw_add (value a) (value b); Ok (Strong v).
Definition st_sub a b : Outcome (StrongType T Tag) :=
  v ← raw_sub (value a) (value b); Ok (Strong v).
Definition st_neg a : Outcome (StrongType T Tag) :=
  v ← raw_neg (value a); Ok (Strong v).
(** operator+= and operator-=: the new value of the left operand. *)
Definition st_add_assign lhs rhs : Outcome (StrongType T Tag) :=
  v ← raw_add (value lhs) (value rhs); Ok (Strong v).
Definition st_sub_assign lhs rhs : Outcome (StrongType T Tag) :=
  v ← raw_sub (value lhs) (value rhs); Ok (Strong v).
(** std::min: the second argument only when it is smaller. *)
Definition st_min a b : StrongType T Tag := if st_ltb b a then b else a.
End StrongTypeOps.

#[export] Instance StrongType_eq_dec {T Tag} `{EqDecision T} : EqDecision (StrongType T Tag).
Proof. solve_decision. Defined.

Section StrongInt.
Context {Tag : Type}.
Implicit Types a b : StrongType Z Tag.

Lemma strong_eq a b : value a = value b → a = b.
Proof. destruct a, b; simpl; congruence. Qed.

Lemma strong_ne a b : a ≠ b → value a ≠ value b.
Proof. intros H E. by apply H, strong_eq. Qed.

Ltac st_cmp_solve :=
  unfold st_ltb, st_gtb, st_leb, st_geb, st_eqb, st_cmp; simpl;
  match goal with |- context [?x ?= ?y] => destruct (Z.compare_spec x y) end; zbool; lia.

Lemma st_ltb_Z a b : st_ltb a b = (value a <? value b).
Proof. st_cmp_solve. Qed.
Lemma st_gtb_Z a b : st_gtb a b = (value b <? value a).
Proof. st_cmp_solve. Qed.
Lemma st_leb_Z a b : st_leb a b = (value a <=? value b).
Proof. st_cmp_solve. Qed.
Lemma st_geb_Z a b : st_geb a b = (value b <=? value a).
Proof. st_cmp_solve. Qed.
Lemma st_eqb_Z a b : st_eqb a b = (value a =? value b).
Proof. st_cmp_solve. Qed.
Lemma st_min_Z a b : value (st_min a b) = Z.min (value a) (value b).
Proof. unfold st_min. rewrite st_ltb_Z. zbool; lia. Qed.

Lemma st_sub_assign_Z a b :
  is_i64 (value a - value b) → st_sub_assign a b = Ok (Strong (value a - value b)).
Proof.
  intros H. unfold st_sub_assign. simpl. unfold i64_sub. by rewrite i64_result_Ok.
Qed.

Lemma st_sub_assign_inv a b c :
  st_sub_assign a b = Ok c → value c = value a - value b ∧ is_i64 (value c).
Proof.
  unfold st_sub_assign. simpl. unfold i64_sub. intros H. inv_ok.
  apply i64_result_inv in E as [-> ?]. done.
Qed.

Lemma st_sub_assign_fuel a b : st_sub_assign a b ≠ OutOfFuel.
Proof.
  unfold st_sub_assign. simpl. unfold i64_sub, i64_result. by destruct (i64b _).
Qed.
End StrongInt.

#[export] Hint Resolve st_sub_assign_fuel : exchange.
#[export] Hint Rewrite @st_ltb_Z @st_gtb_Z @st_leb_Z @st_geb_Z @st_eqb_Z @st_min_Z : strong.

(** Replaces the comparisons of wrapped integers by those of their values. *)
Ltac strong := autorewrite with strong in *.

(** ** Quantities (types.hpp) *)

Inductive PriceTag : Set := mkPriceTag.
Inductive VolumeTag : Set := mkVolumeTag.
Inductive UserIdTag : Set := mkUserIdTag.
Inductive OrderIdTag : Set := mkOrderIdTag.
Inductive UsdTag : Set := mkUsdTag.

Definition Price : Type := StrongType Z PriceTag.
Definition Volume : Type := StrongType Z VolumeTag.
Definition UserId : Type := StrongType Z UserIdTag.
Definition OrderId : Type := StrongType Z OrderIdTag.
Definition USD (D : Type) : Type := StrongType D UsdTag.

#[export] Typeclasses Transparent Price Volume UserId OrderId USD.

Definition PRICE_MULTIPLIER : Z := 1000000.

Section Money.
Context {D : Type} `{!DoubleOps D}.

Definition ToUsd (price : Price) : USD D :=
  Strong (d_div (d_of_Z (value price)) (d_of_Z PRICE_MULTIPLIER)).

Definition ToPrice (usd : USD D) : Outcome Price :=
  n ← d_llround (d_mul (value usd) (d_of_Z PRICE_MULTIPLIER)); Ok (Strong n).
End Money.

(** ** Tickers *)

Definition MAX_TICKER_LENGTH : nat := 15.

(** [Ticker] is boost::static_string<MAX_TICKER_LENGTH>: a type [T] with that
    interface. *)
Notation TickerType := (StaticString MAX_TICKER_LENGTH).
Notation TickerLaws := (StaticStringLaws MAX_TICKER_LENGTH).

Inductive Side := Buy | Sell.

#[export] Instance Side_eq_dec : EqDecision Side.
Proof. solve_decision. Defined.

Definition opposite (s : Side) : Side := match s with Buy => Sell | Sell => Buy end.

Section Messages.
Context {Ticker : Type} `{!TickerType Ticker}.

(** The constructor from a literal, as a list: a literal that is too long would be
    rejected at compile time. *)
Definition ticker_literal (s : string) : list Ticker :=
  match ss_make (list_byte_of_string s) with Ok t => [t] | _ => [] end.

Definition INSTRUMENTS : list Ticker :=
  ticker_literal "AAPL" ++ ticker_literal "GOOG" ++
  ticker_literal "MSFT" ++ ticker_literal "AMZN".

End Messages.

Section Records.
Context {Ticker : Type}.

Record Order := mkOrder {
  or_userId_ : UserId;
  or_orderId_ : OrderId;
  or_price_ : Price;
  or_volume_ : Volume;
}.

Record Trade := mkTrade {
  tr_makerId_ : UserId;
  tr_takerId_ : UserId;
  tr_makerOrderId_ : OrderId;
  tr_takerOrderId_ : OrderId;
  tr_ticker_ : Ticker;
  tr_takerSide_ : Side;
  tr_executionPrice_ : Price;
  tr_volume_ : Volume;
}.

Record OrderAdd := mkOrderAdd {
  oa_orderId_ : OrderId;
  oa_userId_ : UserId;
  oa_ticker_ : Ticker;
  oa_side_ : Side;
  oa_price_ : Price;
  oa_volume_ : Volume;
}.

Record OrderCancel := mkOrderCancel {
  oc_orderId_ : OrderId;
  oc_userId_ : UserId;
  oc_ticker_ : Ticker;
}.

(** std::variant<OrderAdd, OrderCancel> *)
Inductive InboundCommand :=
  | CmdAdd (o : OrderAdd)
  | CmdCancel (c : OrderCancel).

(** The fields of a request hold values of their C++ types. *)
Definition order_in_range (o : OrderAdd) : Prop :=
  is_i64 (value (oa_orderId_ o)) ∧ is_i64 (value (oa_userId_ o)) ∧
  is_i64 (value (oa_price_ o)) ∧ is_i64 (value (oa_volume_ o)).

#[export] Instance order_in_range_dec o : Decision (order_in_range o).
Proof. unfold order_in_range. apply _. Defined.

#[export] Instance Trade_eq_dec `{EqDecision Ticker} : EqDecision Trade.
Proof. solve_decision. Defined.

#[export] Instance OrderAdd_eq_dec `{EqDecision Ticker} : EqDecision OrderAdd.
Proof. solve_decision. Defined.

#[export] Instance OrderCancel_eq_dec `{EqDecision Ticker} : EqDecision OrderCancel.
Proof. solve_decision. Defined.

#[export] Instance InboundCommand_eq_dec `{EqDecision Ticker} : EqDecision InboundCommand.
Proof. solve_decision. Defined.

End Records.
Arguments Trade Ticker : clear implicits.
Arguments OrderAdd Ticker : clear implicits.
Arguments OrderCancel Ticker : clear implicits.
Arguments InboundCommand Ticker : clear implicits.

(** ** Facts about tickers *)

Lemma length_list_byte_of_string s : length (list_byte_of_string s) = String.length s.
Proof.
  unfold list_byte_of_string. rewrite length_map.
  induction s as [|c s IH]; simpl; congruence.
Qed.

Section TickerFacts.
Context {Ticker : Type} `{!TickerType Ticker} `{!TickerLaws Ticker}.

Lemma ticker_literal_data s :
  (String.length s ≤ MAX_TICKER_LENGTH)%nat →
  ∃ t : Ticker, ticker_literal s = [t] ∧ ss_data t = list_byte_of_string s.
Proof.
  intros H. unfold ticker_literal.
  destruct (ss_make_fits (S:=Ticker) (list_byte_of_string s)) as (t & -> & Ht); [|eauto].
  by rewrite length_list_byte_of_string.
Qed.

(** The listed instruments: four distinct tickers with these names, in this order. *)
Lemma INSTRUMENTS_data :
  map ss_data (INSTRUMENTS : list Ticker) =
  map list_byte_of_string ["AAPL"; "GOOG"; "MSFT"; "AMZN"]%string.
Proof.
  unfold INSTRUMENTS.
  destruct (ticker_literal_data "AAPL") as (t1 & -> & E1); [vm_compute; lia|].
  destruct (ticker_literal_data "GOOG") as (t2 & -> & E2); [vm_compute; lia|].
  destruct (ticker_literal_data "MSFT") as (t3 & -> & E3); [vm_compute; lia|].
  destruct (ticker_literal_data "AMZN") as (t4 & -> & E4); [vm_compute; lia|].
  simpl. by rewrite E1, E2, E3, E4.
Qed.

Lemma INSTRUMENTS_length : length (INSTRUMENTS : list Ticker) = 4%nat.
Proof. rewrite <-(length_map ss_data), INSTRUMENTS_data. done. Qed.

Lemma INSTRUMENTS_NoDup : NoDup (INSTRUMENTS : list Ticker).
Proof.
  apply (NoDup_fmap_1 ss_data). change (NoDup (map ss_data (INSTRUMENTS : list Ticker))).
  rewrite INSTRUMENTS_data. by apply (bool_decide_unpack _).
Qed.
End TickerFacts.
