(* ===== verification/Seqlock.v ===== *)
(** * Seqlock<T> (common/core/seqlock.hpp)

    The lock as its owner thread sees it: the sequence counter wraps at 64 bits, a
    store bumps it around the write, a load retries while it sees an odd or a
    changed counter. *)

From S2P Require Import Prelude.

Local Open Scope Z_scope.

Record Seqlock (T : Type) := mkSeqlock {
  sequence_ : Z;
  value_ : T;
}.
Arguments mkSeqlock {T} _ _.
Arguments sequence_ {T} _.
Arguments value_ {T} _.

Section Sequential.
Context {T : Type}.

(** A lock as constructed: [T value_{}] is the value-initialised [T]. *)
Definition seqlock_init (v0 : T) : Seqlock T := mkSeqlock 0 v0.

Definition Store (v : T) (s : Seqlock T) : Seqlock T :=
  let seq := sequence_ s in
  let s := mkSeqlock (u64_wrap (seq + 1)) (value_ s) in
  let s := mkSeqlock (sequence_ s) v in
  mkSeqlock (u64_wrap (seq + 2)) (value_ s).

(** The do-while loop, with no store in between its reads. *)
Fixpoint Load (fuel : nat) (s : Seqlock T) : Outcome T :=
  match fuel with
  | O => OutOfFuel
  | S fuel' =>
      let before := sequence_ s in
      let result := value_ s in
      let after := sequence_ s in
      if negb (before =? after) || negb (Z.land before 1 =? 0) then Load fuel' s
      else Ok result
  end.

(** The counter is even and a std::uint64_t: no store is in progress. *)
Definition settled (s : Seqlock T) : Prop :=
  0 ≤ sequence_ s < 2 ^ 64 ∧ Z.even (sequence_ s) = true.

Lemma u64_wrap_even z : Z.even (u64_wrap z) = Z.even z.
Proof.
  unfold u64_wrap. rewrite Z.mod_eq by lia.
  rewrite Z.even_sub, Z.even_mul. simpl. by destruct (Z.even z).
Qed.

Lemma land_1_even z : Z.land z 1 = 0 ↔ Z.even z = true.
Proof.
  change 1 with (Z.ones 1). rewrite Z.land_ones, Z.pow_1_r by lia.
  rewrite Zmod_even. destruct (Z.even z); split; congruence || lia.
Qed.

Lemma settled_init v : settled (seqlock_init v).
Proof. split; simpl; [lia|done]. Qed.

Lemma Store_settled v s : settled s → settled (Store v s).
Proof.
  intros [H1 H2]. split; simpl.
  - apply Z.mod_pos_bound. lia.
  - rewrite u64_wrap_even, Z.even_add, H2. done.
Qed.

Lemma Load_settled fuel s : settled s → Load (S fuel) s = Ok (value_ s).
Proof.
  intros [_ H]. simpl. rewrite Z.eqb_refl. simpl.
  apply land_1_even in H. by rewrite H.
Qed.
End Sequential.

#[export] Hint Resolve settled_init Store_settled : exchange.
