(* ===== verification/SeqlockThreads.v ===== *)
(** * The seqlock between two threads (common/core/seqlock.hpp)

    A writer and a reader interleaved at the level of single loads and stores: the
    counter is one word, the value is copied word by word.  The memory is sequentially
    consistent; SeqlockWeak.v has the accesses out of order. *)

From S2P Require Import Prelude Seqlock.

Local Open Scope Z_scope.

Section Threads.
Context {W : Type}.

(** Inside Store: the counter was loaded; [i] words of the value are written. *)
Inductive WriterPC :=
  | WIdle
  | WLoaded (seq : Z) (v : list W)
  | WWriting (seq : Z) (v : list W) (i : nat).

(** Inside Load: about to start an iteration, copying, or comparing.  [since] is the
    number of stores that were complete when Load was called (for the statement
    only). *)
Inductive ReaderPC :=
  | RIdle
  | RBefore (since : nat)
  | RCopying (since : nat) (before : Z) (result : list W)
  | RAfter (since : nat) (before : Z) (result : list W) (after : Z)
  | RReturned (since : nat) (result : list W).

Record SeqlockState := mkSL {
  sl_sequence_ : Z;
  sl_value_ : list W;
  sl_writer : WriterPC;
  sl_reader : ReaderPC;
  sl_history : list (list W);       (* the values stored so far, the initial one first *)
}.

Inductive SLMove :=
  | CallStore (v : list W)
  | WriterStep
  | CallLoad
  | ReaderStep.

Definition writer_step (s : SeqlockState) : option SeqlockState :=
  let '(mkSL q m w r h) := s in
  match w with
  | WIdle => None
  | WLoaded seq v => Some (mkSL (u64_wrap (seq + 1)) m (WWriting seq v 0) r h)
  | WWriting seq v i =>
      match v !! i with
      | Some x => Some (mkSL q (<[i := x]> m) (WWriting seq v (S i)) r h)
      | None => Some (mkSL (u64_wrap (seq + 2)) m WIdle r (h ++ [v]))
      end
  end.

Definition reader_step (s : SeqlockState) : option SeqlockState :=
  let '(mkSL q m w r h) := s in
  match r with
  | RIdle | RReturned _ _ => None
  | RBefore since => Some (mkSL q m w (RCopying since q []) h)
  | RCopying since before result =>
      match m !! length result with
      | Some x => Some (mkSL q m w (RCopying since before (result ++ [x])) h)
      | None => Some (mkSL q m w (RAfter since before result q) h)
      end
  | RAfter since before result after =>
      if negb (before =? after) || negb (Z.land before 1 =? 0)
      then Some (mkSL q m w (RBefore since) h)
      else Some (mkSL q m w (RReturned since result) h)
  end.

(** One writer calls Store (with a value of the right size), one reader calls Load. *)
Definition sl_step (mv : SLMove) (s : SeqlockState) : option SeqlockState :=
  let '(mkSL q m w r h) := s in
  match mv with
  | CallStore v =>
      match w with
      | WIdle => if (length v =? length m)%nat then Some (mkSL q m (WLoaded q v) r h) else None
      | _ => None
      end
  | WriterStep => writer_step s
  | CallLoad =>
      match r with
      | RIdle | RReturned _ _ => Some (mkSL q m w (RBefore (pred (length h))) h)
      | _ => None
      end
  | ReaderStep => reader_step s
  end.

Definition sl_init (v0 : list W) : SeqlockState := mkSL 0 v0 WIdle RIdle [v0].

Inductive sl_reachable (v0 : list W) : SeqlockState → Prop :=
  | sl_reachable_init : sl_reachable v0 (sl_init v0)
  | sl_reachable_step s mv s' : sl_reachable v0 s → sl_step mv s = Some s' → sl_reachable v0 s'.

(** ** The invariant *)

(** The version of the settled value: the number of completed stores. *)
Definition version (s : SeqlockState) : Z := Z.of_nat (length (sl_history s)) - 1.

Definition memory_inv (s : SeqlockState) : Prop :=
  ∃ cur, last (sl_history s) = Some cur ∧ length cur = length (sl_value_ s) ∧
  match sl_writer s with
  | WIdle => sl_sequence_ s = 2 * version s ∧ sl_value_ s = cur
  | WLoaded seq v => sl_sequence_ s = 2 * version s ∧ seq = 2 * version s ∧
      sl_value_ s = cur ∧ length v = length cur
  | WWriting seq v i => sl_sequence_ s = 2 * version s + 1 ∧ seq = 2 * version s ∧
      length v = length cur ∧ take i (sl_value_ s) = take i v
  end.

(** What the reader has copied is part of a stored value, unless the counter has moved
    or was odd. *)
Definition copy_ok (since : nat) (before : Z) (result : list W) (s : SeqlockState) : Prop :=
  before ≤ sl_sequence_ s ∧ 2 * Z.of_nat since ≤ before ∧
  (Z.even before = true → before = sl_sequence_ s →
    result = take (length result) (sl_value_ s)).

(** A value read in an iteration that passed the comparison. *)
Definition read_value (since : nat) (result : list W) (s : SeqlockState) : Prop :=
  ∃ k, (since ≤ k)%nat ∧ sl_history s !! k = Some result.

Definition reader_inv (s : SeqlockState) : Prop :=
  match sl_reader s with
  | RIdle => True
  | RBefore since => 2 * Z.of_nat since ≤ sl_sequence_ s
  | RCopying since before result => copy_ok since before result s
  | RAfter since before result after =>
      2 * Z.of_nat since ≤ before ∧ before ≤ sl_sequence_ s ∧
      (Z.even before = true → before = after → read_value since result s)
  | RReturned since result => read_value since result s
  end.

(** Few enough stores for the 64-bit counter. *)
Definition not_wrapped (s : SeqlockState) : Prop := Z.of_nat (length (sl_history s)) ≤ 2 ^ 62.

Lemma history_grows mv s s' : sl_step mv s = Some s' →
  (length (sl_history s) ≤ length (sl_history s'))%nat.
Proof.
  destruct s as [q m w r h]. destruct mv as [v| | |]; cbn.
  - destruct w; [|done..]. case_match; [|done]. by intros [= <-].
  - destruct w as [|seq v|seq v i]; [done|by intros [= <-]|].
    destruct (v !! i); intros [= <-]; cbn; [done|]. rewrite length_app. lia.
  - destruct r; intros [= <-]; done.
  - destruct r as [|since|since b res|since b res a|since res]; try done; try by intros [= <-].
    + destruct (m !! length res); by intros [= <-].
    + destruct (negb _ || _); by intros [= <-].
Qed.

Lemma read_value_app since result q m w r h v q' m' w' r' :
  read_value since result (mkSL q m w r h) → read_value since result (mkSL q' m' w' r' (h ++ [v])).
Proof.
  intros (k & Hk & Hl). exists k. split; [done|]. cbn in *. by apply lookup_app_l_Some.
Qed.

Lemma u64_wrap_small z : 0 ≤ z < 2 ^ 64 → u64_wrap z = z.
Proof. apply Z.mod_small. Qed.

Lemma even_odd_absurd z b : Z.even b = true → b = 2 * z + 1 → False.
Proof. intros He ->. rewrite Z.even_add, Z.even_mul in He. done. Qed.

(** What the reader knows survives a step of the writer that moves the counter
    forward, or happens while it is odd. *)
Lemma reader_inv_moved r q m w h q' m' w' h' : reader_inv (mkSL q m w r h) →
  q ≤ q' → (q < q' ∨ Z.even q = false) →
  (h' = h ∨ ∃ v, h' = h ++ [v]) → reader_inv (mkSL q' m' w' r h').
Proof.
  intros Hr Hq Hmove Hh.
  assert (∀ since res, read_value since res (mkSL q m w r h) →
    read_value since res (mkSL q' m' w' r h')) as Hkeep.
  { intros since res. destruct Hh as [->|[v ->]]; [done|apply read_value_app]. }
  revert Hr. unfold reader_inv, copy_ok.
  destruct r as [|since|since b res|since b res a|since res]; cbn; [done|lia|..|apply Hkeep].
  - intros (H1 & H2 & _). split_and!; [lia..|]. intros He ->. exfalso.
    destruct Hmove; [lia|]. assert (q' = q) by lia. congruence.
  - intros (H1 & H2 & H3). split_and!; [lia..|]. auto.
Qed.

Lemma writer_step_inv s s' : not_wrapped s' → memory_inv s → reader_inv s →
  writer_step s = Some s' → memory_inv s' ∧ reader_inv s'.
Proof.
  destruct s as [q m w r h]. unfold not_wrapped, memory_inv, version.
  intros Hw (cur & Hcur & Hlen & Hm) Hr Hstep. cbn in *.
  assert (0 < Z.of_nat (length h)) as Hpos by (destruct h; [done|cbn; lia]).
  destruct w as [|seq v|seq v i]; cbn in *; [done| |].
  - destruct Hm as (Hq & Hs & Hmem & Hv). injection Hstep as <-. cbn in *.
    rewrite u64_wrap_small by lia. split; [exists cur; split_and!; (done || lia)|].
    eapply reader_inv_moved; [exact Hr|lia|left; lia|by left].
  - destruct Hm as (Hq & Hs & Hv & Ht).
    assert (Z.even q = false) as Hodd.
    { destruct (Z.even q) eqn:E; [|done]. exfalso. by eapply even_odd_absurd. }
    destruct (v !! i) as [x|] eqn:Ex; injection Hstep as <-; cbn in *.
    + rewrite length_insert. assert (i < length m)%nat
        by (apply lookup_lt_Some in Ex; lia). split.
      * exists cur. split_and!; try (done || lia).
        rewrite (take_S_r v i x), (take_S_r (<[i:=x]> m) i x), take_insert_ge by
          (done || lia || by apply list_lookup_insert_eq). by rewrite Ht.
      * eapply reader_inv_moved; [exact Hr|lia|by right|by left].
    + rewrite length_app in *. cbn in *. rewrite u64_wrap_small by lia.
      apply lookup_ge_None_1 in Ex. split.
      * exists v. rewrite last_snoc. split_and!; [done|lia|lia|].
        rewrite !take_ge in Ht by lia. done.
      * eapply reader_inv_moved; [exact Hr|lia|left; lia|right; by exists v].
Qed.

Lemma reader_step_inv s s' : memory_inv s → reader_inv s →
  reader_step s = Some s' → memory_inv s' ∧ reader_inv s'.
Proof.
  destruct s as [q m w r h]. unfold reader_inv, copy_ok. intros Hm Hr Hstep. cbn in *.
  destruct r as [|since|since b res|since b res a|since res]; cbn in *; try done.
  - injection Hstep as <-. split; [done|]. cbn. done.
  - destruct Hr as (H1 & H2 & H3). destruct (m !! length res) as [x|] eqn:Ex;
      injection Hstep as <-; (split; [done|]); cbn.
    + split_and!; [done..|]. intros He Hb. rewrite length_app, Nat.add_1_r.
      rewrite (take_S_r m _ x) by done. by rewrite <-(H3 He Hb).
    + split_and!; [done..|]. intros He Hb. apply lookup_ge_None_1 in Ex.
      destruct Hm as (cur & Hcur & Hlen & Hw). cbn in *.
      assert (res = m) as -> by (rewrite (H3 He Hb); by apply take_ge).
      unfold version in Hw. cbn in Hw. exists (pred (length h)).
      rewrite last_lookup in Hcur. destruct w as [|seq v|seq v i]; cbn in *.
      * destruct Hw as [Hq ->]. split; [lia|done].
      * destruct Hw as (Hq & _ & -> & _). split; [lia|done].
      * exfalso. destruct Hw as (Hq & _). subst. by eapply even_odd_absurd.
  - destruct Hr as (H1 & H2 & H3).
    destruct (negb (b =? a) || negb (Z.land b 1 =? 0)) eqn:E; injection Hstep as <-;
      (split; [done|]); cbn; [lia|].
    apply orb_false_elim in E as [E1 E2]. apply negb_false_iff in E1, E2.
    apply H3; [apply land_1_even|]; by apply Z.eqb_eq.
Qed.

Lemma sl_inv v0 s : sl_reachable v0 s → not_wrapped s → memory_inv s ∧ reader_inv s.
Proof.
  induction 1 as [|s mv s' _ IH Hstep]; intros Hw.
  { split; [|done]. exists v0. cbn. unfold version. cbn. split_and!; done. }
  destruct IH as [Hm Hr].
  { pose proof (history_grows mv s s' Hstep). unfold not_wrapped in *. lia. }
  destruct s as [q m w r h]. destruct mv as [v| | |]; cbn [sl_step] in Hstep.
  - destruct w; [|done..]. destruct (Nat.eqb_spec (length v) (length m)); [|done].
    injection Hstep as <-. destruct Hm as (cur & Hcur & Hlen & Hq & Hv). split; [|done].
    exists cur. unfold version in *. cbn in *. split_and!; (done || lia).
  - by eapply writer_step_inv.
  - destruct r; try done; injection Hstep as <-; (split; [done|]); cbn;
      destruct Hm as (cur & Hc & _ & Hm); unfold version in Hm; cbn in Hm, Hc;
      (assert (0 < length h)%nat by (destruct h; [done|cbn; lia])); destruct w; lia.
  - by eapply reader_step_inv.
Qed.
End Threads.
Arguments WriterPC W : clear implicits.
Arguments ReaderPC W : clear implicits.
Arguments SeqlockState W : clear implicits.
Arguments SLMove W : clear implicits.

(** C12: No torn reads.  With a store and a load interleaved word by word in any way
    (and fewer stores than the 64-bit counter can tell apart), a Load that returns
    gives one of the values that were stored, whole, and not one that was already
    overwritten when Load was called. *)
Theorem load_is_never_torn {W} (v0 : list W) (s : SeqlockState W) since result :
  sl_reachable v0 s → not_wrapped s → sl_reader s = RReturned since result →
  ∃ k, (since ≤ k)%nat ∧ sl_history s !! k = Some result.
Proof.
  intros Hs Hw Hr. destruct (sl_inv v0 s Hs Hw) as [_ H]. unfold reader_inv in H.
  by rewrite Hr in H.
Qed.

(** A reader that starts between the two words of a store and has to retry. *)
Definition torn_moves : list (SLMove Z) :=
  [CallStore [7; 8]; CallLoad; ReaderStep; ReaderStep; WriterStep; WriterStep; WriterStep;
   ReaderStep; ReaderStep; ReaderStep; WriterStep; ReaderStep; ReaderStep; ReaderStep;
   ReaderStep; ReaderStep].

Fixpoint sl_run {W} (mvs : list (SLMove W)) (s : SeqlockState W) : option (SeqlockState W) :=
  match mvs with
  | [] => Some s
  | mv :: mvs' => s' ← sl_step mv s; sl_run mvs' s'
  end.

Lemma sl_run_reachable {W} (v0 : list W) mvs s s' :
  sl_reachable v0 s → sl_run mvs s = Some s' → sl_reachable v0 s'.
Proof.
  revert s. induction mvs as [|mv mvs IH]; intros s Hs; cbn; [congruence|].
  intros (s1 & H1 & H)%bind_Some. eapply IH; [|done]. by eapply sl_reachable_step.
Qed.

Definition torn_end : SeqlockState Z :=
  mkSL 2 [7; 8] WIdle (RReturned 0 [7; 8]) [[0; 0]; [7; 8]].

Lemma load_is_never_torn_witness :
  sl_reachable [0; 0] torn_end ∧
  ∃ k, (0 ≤ k)%nat ∧ sl_history torn_end !! k = Some [7; 8].
Proof.
  assert (sl_reachable [0; 0] torn_end) as H.
  { apply (sl_run_reachable [0; 0] torn_moves (sl_init [0; 0])); [constructor|].
    vm_compute. reflexivity. }
  split; [exact H|]. apply (load_is_never_torn [0; 0] torn_end 0%nat [7; 8] H);
    [vm_compute; discriminate|reflexivity].
Defined.
