(* ===== verification/SeqlockWeak.v ===== *)
(** * The seqlock and the order of memory accesses (common/core/seqlock.hpp)

    SeqlockThreads.v interleaves the accesses of Store and Load in program order.  Here
    the order in which they take effect is a parameter: a rule says which access may
    overtake an earlier one.  Under the rule of total store order (x86) nothing in Store
    or Load can be overtaken, so loads are never torn.  Under the rule of the C++ memory
    orders the code asks for (and of architectures that implement no more than that,
    such as ARM), the words of the value may be written before the counter is odd, and
    read after the counter is compared; either is enough to return a torn value. *)

From stdpp Require Import gmap.
From S2P Require Import Prelude Seqlock SeqlockThreads.

Local Open Scope Z_scope.

Inductive MemoryOrder := plain | acquire | release.

Section Accesses.
Context {W : Type}.

(** The accesses of one Store and of one iteration of Load.  (Store's own load of the
    counter reads what the same thread stored last.) *)
Inductive Access :=
  | StoreSequence (seq : Z)
  | StoreWord (i : nat) (x : W)
  | LoadBefore
  | LoadWord (i : nat)
  | LoadAfter.

Definition store_program (seq : Z) (v : list W) : list Access :=
  StoreSequence (u64_wrap (seq + 1)) :: imap StoreWord v ++ [StoreSequence (u64_wrap (seq + 2))].

Definition load_program (n : nat) : list Access :=
  LoadBefore :: (LoadWord <$> seq 0 n) ++ [LoadAfter].

(** The location, [None] for the counter. *)
Definition location (a : Access) : option nat :=
  match a with StoreWord i _ | LoadWord i => Some i | _ => None end.

Definition is_store (a : Access) : bool :=
  match a with StoreSequence _ | StoreWord _ _ => true | _ => false end.

Definition order_of (a : Access) : MemoryOrder :=
  match a with
  | StoreSequence _ => release
  | LoadBefore | LoadAfter => acquire
  | StoreWord _ _ | LoadWord _ => plain
  end.

(** Whether [b], later in program order, may take effect before [a]. *)
Definition Rule := Access → Access → bool.

(** Total store order: only a load may overtake a store. *)
Definition tso_rule : Rule := λ a b,
  bool_decide (location a ≠ location b) && is_store a && negb (is_store b).

(** C++: nothing overtakes an acquire load, and a release store overtakes nothing. *)
Definition cxx_rule : Rule := λ a b,
  bool_decide (location a ≠ location b) &&
  match order_of a with acquire => false | _ => true end &&
  match order_of b with release => false | _ => true end.

Inductive reorders (rule : Rule) : list Access → list Access → Prop :=
  | reorders_refl p : reorders rule p p
  | reorders_swap p1 a b p2 p : rule a b = true →
      reorders rule (p1 ++ b :: a :: p2) p → reorders rule (p1 ++ a :: b :: p2) p.

(** ** Executions *)

Record Memory := mkMemory { mem_sequence : Z; mem_words : list W }.

(** before, result and after *)
Record Registers := mkRegisters { reg_before : Z; reg_result : gmap nat W; reg_after : Z }.

(** A store changes the memory, a load the reader's registers. *)
Definition access (a : Access) (m : Memory) (g : Registers) : Memory * Registers :=
  match a with
  | StoreSequence z => (mkMemory z (mem_words m), g)
  | StoreWord i x => (mkMemory (mem_sequence m) (<[i := x]> (mem_words m)), g)
  | LoadBefore => (m, mkRegisters (mem_sequence m) (reg_result g) (reg_after g))
  | LoadWord i =>
      (m, mkRegisters (reg_before g) (partial_alter (λ _, mem_words m !! i) i (reg_result g)) (reg_after g))
  | LoadAfter => (m, mkRegisters (reg_before g) (reg_result g) (mem_sequence m))
  end.

(** A writer and a reader that take turns, in the order of their programs. *)
Inductive interleaves : list Access → list Access → Memory → Registers → Registers → Prop :=
  | interleaves_done m g : interleaves [] [] m g g
  | interleaves_writer a w r m g g' :
      interleaves w r (access a m g).1 (access a m g).2 g' → interleaves (a :: w) r m g g'
  | interleaves_reader a w r m g g' :
      interleaves w r (access a m g).1 (access a m g).2 g' → interleaves w (a :: r) m g g'.

(** The loop of Load ends with this result. *)
Definition load_accepts (n : nat) (g : Registers) (result : list W) : Prop :=
  (negb (reg_before g =? reg_after g) || negb (Z.land (reg_before g) 1 =? 0)) = false ∧
  ∀ i, (i < n)%nat → reg_result g !! i = result !! i.
End Accesses.
Arguments Access W : clear implicits.
Arguments Memory W : clear implicits.
Arguments Registers W : clear implicits.
Arguments Rule W : clear implicits.

(** ** Program order *)

Section ProgramOrder.
Context {W : Type}.
Implicit Types (v old : list W) (w r p : list (Access W)) (m : Memory W) (g : Registers W).

(** What remains of the programs, and where the threads of SeqlockThreads.v are. *)
Inductive writer_at (q : Z) v : list (Access W) → WriterPC W → Prop :=
  | writer_at_start : writer_at q v (store_program q v) (WLoaded q v)
  | writer_at_word i : (i ≤ length v)%nat →
      writer_at q v (drop i (imap StoreWord v) ++ [StoreSequence (u64_wrap (q + 2))]) (WWriting q v i)
  | writer_at_end : writer_at q v [] WIdle.

Definition copied g (res : list W) : Prop :=
  ∀ i, (i < length res)%nat → reg_result g !! i = res !! i.

Inductive reader_at (n : nat) g : list (Access W) → ReaderPC W → Prop :=
  | reader_at_start : reader_at n g (load_program n) (RBefore 0)
  | reader_at_word res : (length res ≤ n)%nat → copied g res →
      reader_at n g ((LoadWord <$> seq (length res) (n - length res)) ++ [LoadAfter])
        (RCopying 0 (reg_before g) res)
  | reader_at_end res : length res = n → copied g res →
      reader_at n g [] (RAfter 0 (reg_before g) res (reg_after g)).

(** An access of the writer is a step of the writer. *)
Lemma writer_sim q v a w pc m g rd h : writer_at q v (a :: w) pc →
  ∃ pc' h', writer_step (mkSL (mem_sequence m) (mem_words m) pc rd h) =
    Some (mkSL (mem_sequence (access a m g).1) (mem_words (access a m g).1) pc' rd h') ∧
  writer_at q v w pc' ∧ (access a m g).2 = g ∧ (h' = h ∨ h' = h ++ [v]).
Proof.
  inversion 1 as [E|i Hi E|]; subst; cbn.
  - eexists _, h. split_and!; [done| |done|by left]. apply (writer_at_word q v 0). lia.
  - destruct (v !! i) as [x|] eqn:Ex.
    + rewrite (drop_S (imap StoreWord v) (StoreWord i x) i) in E by (by rewrite list_lookup_imap, Ex).
      injection E as <- <-. apply lookup_lt_Some in Ex as Hlt. cbn.
      eexists _, h. split_and!; [done| |done|by left]. apply (writer_at_word q v (S i)). lia.
    + apply lookup_ge_None_1 in Ex. rewrite drop_ge in E by (by rewrite length_imap).
      injection E as <- <-. eexists _, _. split_and!; [done|constructor|done|by right].
Qed.

(** An access of the reader is a step of the reader. *)
Lemma reader_sim n a r pc m g wr h : length (mem_words m) = n → reader_at n g (a :: r) pc →
  ∃ pc', reader_step (mkSL (mem_sequence m) (mem_words m) wr pc h) =
    Some (mkSL (mem_sequence m) (mem_words m) wr pc' h) ∧
  reader_at n (access a m g).2 r pc' ∧ (access a m g).1 = m.
Proof.
  intros Hn. inversion 1 as [E|res Hl Hc E|]; subst n; cbn.
  - eexists. split_and!; [done| |done]. set (g' := mkRegisters _ _ _).
    assert (reg_before g' = mem_sequence m) as <- by done.
    pose proof (reader_at_word (length (mem_words m)) g' [] ltac:(cbn; lia)) as HR. cbn in HR.
    rewrite Nat.sub_0_r in HR. apply HR. intros i Hi. cbn in Hi. lia.
  - destruct (mem_words m !! length res) as [x|] eqn:Ex.
    + apply lookup_lt_Some in Ex as Hlt.
      replace (length (mem_words m) - length res)%nat
        with (S (length (mem_words m) - S (length res)))%nat in E by lia.
      injection E as <- <-. cbn. eexists. split_and!; [done| |done].
      set (g' := mkRegisters _ _ _). assert (reg_before g' = reg_before g) as <- by done.
      replace (S (length res)) with (length (res ++ [x])) by (rewrite length_app; cbn; lia).
      apply reader_at_word; [rewrite length_app; cbn; lia|].
      intros i Hi. rewrite length_app in Hi. cbn in Hi. cbn [reg_result g'].
      destruct (decide (i = length res)) as [->|Hne].
      * rewrite lookup_partial_alter_eq, Ex, lookup_app_r by lia. by rewrite Nat.sub_diag.
      * rewrite lookup_partial_alter_ne by done. rewrite lookup_app_l by lia. apply Hc. lia.
    + apply lookup_ge_None_1 in Ex.
      replace (length (mem_words m) - length res)%nat with 0%nat in E by lia.
      injection E as <- <-. cbn. eexists. split_and!; [done| |done].
      set (g' := mkRegisters _ _ _). assert (reg_before g' = reg_before g) as <- by done.
      assert (reg_after g' = mem_sequence m) as <- by done. apply reader_at_end; [lia|done].
Qed.

Lemma access_length a m g : length (mem_words (access a m g).1) = length (mem_words m).
Proof. destruct a; cbn; [done|apply length_insert|done..]. Qed.

(** What an accepted iteration returns is in the history. *)
Lemma accepted_in_history n g g' r w m pcw pcr h q v result :
  interleaves w r m g g' → length (mem_words m) = n →
  writer_at q v w pcw → reader_at n g r pcr →
  Z.of_nat (length h) + Z.of_nat (length w) ≤ 2 ^ 62 →
  let s := mkSL (mem_sequence m) (mem_words m) pcw pcr h in
  memory_inv s → reader_inv s → load_accepts n g' result → length result = n →
  result ∈ h ∨ result = v.
Proof.
  intros Hi. revert pcw pcr h.
  induction Hi as [m g|a w r m g g' _ IH|a w r m g g' _ IH]; intros pcw pcr h Hn Hw Hr Hh s Hm Hv Ha Hl.
  - inversion Hr as [| |res Hres Hc E1 E2]; [by destruct (seq _ _)|]. clear Hr.
    destruct Ha as [Ht Hres']. apply orb_false_elim in Ht as [H1 H2].
    apply negb_false_iff, Z.eqb_eq in H1, H2. apply land_1_even in H2.
    unfold reader_inv in Hv. subst s pcr. cbn [sl_reader] in Hv.
    destruct Hv as (_ & _ & Hv). destruct (Hv H2 H1) as (k & _ & Hk). cbn in Hk.
    assert (result = res) as ->; [|left; by eapply list_elem_of_lookup_2].
    apply list_eq_same_length with n; [done..|]. intros i x y Hi Hx Hy.
    specialize (Hc i ltac:(lia)). specialize (Hres' i Hi). congruence.
  - destruct (writer_sim q v a w pcw m g pcr h Hw) as (pcw' & h' & Hs & Hw' & Hg & Hh').
    cbn [length] in Hh. assert (Z.of_nat (length h') + Z.of_nat (length w) ≤ 2 ^ 62) as Hb
      by (destruct Hh' as [-> | ->]; rewrite ?length_app; cbn [length]; lia).
    apply writer_step_inv in Hs as [Hm' Hv']; [|unfold not_wrapped; cbn [sl_history]; lia|done|done].
    rewrite Hg in IH. destruct (IH pcw' pcr h') as [Hin| ->]; try done; [by rewrite access_length| |by right].
    destruct Hh' as [-> | ->]; [by left|]. apply elem_of_app in Hin as [?|?%list_elem_of_singleton]; auto.
  - destruct (reader_sim n a r pcr m g pcw h Hn Hr) as (pcr' & Hs & Hr' & Hm1).
    destruct (reader_step_inv s _ Hm Hv Hs) as [Hm' Hv']. rewrite Hm1 in IH.
    by apply (IH pcw pcr' h).
Qed.

(** A rule that lets nothing in a program be overtaken keeps its order. *)
Lemma reorders_none (rule : Rule W) p p' : (∀ a b, a ∈ p → b ∈ p → rule a b = false) →
  reorders rule p p' → p' = p.
Proof.
  intros Hno Hr. destruct Hr as [|p1 a b p2 p Hab _]; [done|].
  rewrite Hno in Hab; [done|set_solver..].
Qed.

Lemma tso_store_order q v p : reorders tso_rule (store_program q v) p → p = store_program q v.
Proof.
  apply reorders_none. intros a b _ Hb. unfold tso_rule. assert (is_store b = true) as ->.
  { unfold store_program in Hb. apply elem_of_cons in Hb as [-> |Hb]; [done|].
    apply elem_of_app in Hb as [Hb| ->%list_elem_of_singleton]; [|done].
    apply elem_of_lookup_imap_1 in Hb as (i & x & -> & _). done. }
  apply andb_false_r.
Qed.

Lemma tso_load_order n p : reorders tso_rule (load_program n) p → p = load_program n.
Proof.
  apply reorders_none. intros a b Ha _. unfold tso_rule. assert (is_store a = false) as ->.
  { unfold load_program in Ha. apply elem_of_cons in Ha as [->|Ha]; [done|].
    apply elem_of_app in Ha as [Ha| ->%list_elem_of_singleton]; [|done].
    apply list_elem_of_fmap in Ha as (i & -> & _). done. }
  by rewrite andb_false_r.
Qed.
End ProgramOrder.

(** ** Properties *)

(** C35: On a machine with total store order no load is torn.  One Store of [v] over [old]
    and one iteration of Load, the accesses of both reordered in any way total store
    order allows and interleaved in any way: if the iteration accepts what it read, that
    is [old] or [v], whole.  The sequence counter is even when the store begins and, with
    the words of the value, at most 2^62, far from where it wraps. *)
Theorem tso_load_is_never_torn {W} (q : Z) (old v : list W) w r g g' result :
  0 ≤ q → Z.even q = true → q + Z.of_nat (length v) + 4 ≤ 2 ^ 62 → length old = length v →
  reorders tso_rule (store_program q v) w → reorders tso_rule (load_program (length v)) r →
  interleaves w r (mkMemory q old) g g' → load_accepts (length v) g' result →
  length result = length v → result = old ∨ result = v.
Proof.
  intros Hq He Hb Hlen ->%tso_store_order ->%tso_load_order Hi Ha Hr.
  apply Z.even_spec in He as [k ->].
  assert (result ∈ replicate (S (Z.to_nat k)) old ∨ result = v) as [[-> _]%elem_of_replicate|];
    [|by left|by right].
  eapply (accepted_in_history (length v)); [exact Hi|done|apply writer_at_start|apply reader_at_start|..];
    [| | |done..].
  - unfold store_program. rewrite length_replicate. cbn [length].
    rewrite length_app, length_imap. cbn [length]. lia.
  - exists old. unfold version. cbn [sl_history sl_value_ sl_writer sl_sequence_ mem_sequence mem_words].
    rewrite length_replicate, replicate_S_end, last_snoc. split_and!; (done || lia).
  - cbn. lia.
Qed.

(** A store of two words and a load, in program order. *)
Lemma tso_load_is_never_torn_witness :
  let g0 : Registers Z := mkRegisters 0 ∅ 0 in
  let g1 : Registers Z := mkRegisters 8 {[0%nat := 5; 1%nat := 6]} 8 in
  load_accepts 2 g1 [5; 6] ∧ ([5; 6] = [3; 4] ∨ [5; 6] = [5; 6]).
Proof.
  intros g0 g1. assert (load_accepts 2 g1 [5; 6]) as Ha.
  { split; [reflexivity|]. intros [|[|i]] Hi; [reflexivity..|lia]. }
  split; [exact Ha|].
  apply (tso_load_is_never_torn 6 [3; 4] [5; 6] (store_program 6 [5; 6]) (load_program 2) g0 g1);
    [lia|reflexivity|cbn; lia|reflexivity|constructor|constructor| |exact Ha|reflexivity].
  do 4 apply interleaves_writer. do 4 apply interleaves_reader. cbn. constructor.
Defined.

(** C36: The memory orders the code asks for do not prevent torn loads.  For any two values
    of two words and an even counter, (1) reordering only the accesses of Store, and (2)
    reordering only those of Load, as the C++ orders allow, there is an interleaving in
    which an iteration of Load accepts the first word of the new value with the second
    word of the old one. *)
Theorem cxx_orders_allow_torn_load {W} (q : Z) (x0 x1 y0 y1 : W) (g : Registers W) :
  Z.even q = true →
  let old := mkMemory q [x0; x1] in
  (∃ w g', reorders cxx_rule (store_program q [y0; y1]) w ∧
    interleaves w (load_program 2) old g g' ∧ load_accepts 2 g' [y0; x1]) ∧
  (∃ r g', reorders cxx_rule (load_program 2) r ∧
    interleaves (store_program q [y0; y1]) r old g g' ∧ load_accepts 2 g' [y0; x1]).
Proof.
  intros He old.
  assert (∀ res : gmap nat W, res !! 0%nat = Some y0 → res !! 1%nat = Some x1 →
    ∀ z, Z.even z = true → load_accepts 2 (mkRegisters z res z) [y0; x1]) as Hacc.
  { intros res H0 H1 z Hz. split; cbn.
    - rewrite Z.eqb_refl. cbn. apply land_1_even in Hz. by rewrite Hz.
    - intros [|[|i]] Hi; [done..|lia]. }
  split.
  - set (s1 := StoreSequence (u64_wrap (q + 1)) : Access W).
    set (s2 := StoreSequence (u64_wrap (q + 2)) : Access W).
    exists [StoreWord 0 y0; s1; StoreWord 1 y1; s2]. eexists. split; [|split].
    + apply (reorders_swap cxx_rule [] s1 (StoreWord 0 y0) [StoreWord 1 y1; s2]); [done|constructor].
    + apply interleaves_writer. do 4 apply interleaves_reader. do 3 apply interleaves_writer. constructor.
    + cbn. apply Hacc; [by rewrite lookup_partial_alter_ne, lookup_partial_alter_eq by done| |done].
      by rewrite lookup_partial_alter_eq.
  - exists [LoadBefore; LoadAfter; LoadWord 0; LoadWord 1]. eexists. split; [|split].
    + apply (reorders_swap cxx_rule [LoadBefore; LoadWord 0] (LoadWord 1) LoadAfter []); [done|].
      apply (reorders_swap cxx_rule [LoadBefore] (LoadWord 0) LoadAfter [LoadWord 1]); [done|constructor].
    + do 2 apply interleaves_reader. do 2 apply interleaves_writer. do 2 apply interleaves_reader.
      do 2 apply interleaves_writer. constructor.
    + cbn. apply Hacc; [by rewrite lookup_partial_alter_ne, lookup_partial_alter_eq by done| |done].
      by rewrite lookup_partial_alter_eq.
Qed.

(** The mid price goes from none to 101: a load that returns a price of 0. *)
Lemma cxx_orders_allow_torn_load_witness :
  let old : Memory Z := mkMemory 0 [0; 0] in
  let g : Registers Z := mkRegisters 0 ∅ 0 in
  (∃ w g', reorders cxx_rule (store_program 0 [1; 101]) w ∧
    interleaves w (load_program 2) old g g' ∧ load_accepts 2 g' [1; 0]) ∧
  (∃ r g', reorders cxx_rule (load_program 2) r ∧
    interleaves (store_program 0 [1; 101]) r old g g' ∧ load_accepts 2 g' [1; 0]).
Proof.
  intros old g. apply (cxx_orders_allow_torn_load 0 0 0 1 101 g). reflexivity.
Defined.
