(* ===== verification/FlatMap.v ===== *)
(** * std::flat_map<Price, V, Compare>

    A flat map is a vector of keys sorted by its comparator beside the vector of
    their values: an association list here.  Lookup finds the lower bound of the
    key, insertion keeps the order. *)

From S2P Require Import Prelude CoreTypes.

Local Open Scope Z_scope.

Notation flat_map V := (list (Price * V)).

Section FlatMap.
Context {V : Type} (comp : Price → Price → bool).
Implicit Types (m : flat_map V) (k : Price).

(** find: the value at the lower bound of [k] if its key is not after [k]. *)
Fixpoint fm_find k m : option V :=
  match m with
  | [] => None
  | (k', v) :: m' =>
      if comp k' k then fm_find k m' else if comp k k' then None else Some v
  end.

(** [f] applied to the reference operator[] returns: the value of [k], or [d]
    inserted at its place in the order. *)
Fixpoint fm_subscript (d : V) k (f : V → V) m : flat_map V :=
  match m with
  | [] => [(k, f d)]
  | (k', v) :: m' =>
      if comp k' k then (k', v) :: fm_subscript d k f m'
      else if comp k k' then (k, f d) :: (k', v) :: m'
      else (k', f v) :: m'
  end.

(** A write through the reference found at [k]. *)
Fixpoint fm_update k (f : V → V) m : flat_map V :=
  match m with
  | [] => []
  | (k', v) :: m' =>
      if comp k' k then (k', v) :: fm_update k f m'
      else if comp k k' then (k', v) :: m'
      else (k', f v) :: m'
  end.

(** erase of the iterator found at [k]. *)
Fixpoint fm_erase k m : flat_map V :=
  match m with
  | [] => []
  | (k', v) :: m' =>
      if comp k' k then (k', v) :: fm_erase k m'
      else if comp k k' then (k', v) :: m'
      else m'
  end.

(** [k] sorts before every key of [m]. *)
Definition fm_before k m : Prop := Forall (λ kv, comp k kv.1 = true) m.

(** The keys are strictly sorted by the comparator. *)
Fixpoint fm_sorted m : Prop :=
  match m with
  | [] => True
  | (k, _) :: m' => fm_before k m' ∧ fm_sorted m'
  end.

#[export] Instance fm_sorted_dec m : Decision (fm_sorted m).
Proof.
  induction m as [|[k v] m IH]; simpl; [apply _|].
  unfold fm_before. apply _.
Defined.
End FlatMap.

(** A comparator is a strict total order on prices: std::less and std::greater. *)
Class PriceOrder (comp : Price → Price → bool) : Prop := {
  po_irrefl k : comp k k = false;
  po_trans k1 k2 k3 : comp k1 k2 = true → comp k2 k3 = true → comp k1 k3 = true;
  po_total k1 k2 : comp k1 k2 = false → comp k2 k1 = false → k1 = k2;
}.

#[export] Instance less_order : PriceOrder st_ltb.
Proof.
  split; intros; strong; zbool; try lia; try done. apply strong_eq; lia.
Qed.

#[export] Instance greater_order : PriceOrder st_gtb.
Proof.
  split; intros; strong; zbool; try lia; try done. apply strong_eq; lia.
Qed.

Section FlatMapFacts.
Context {V : Type} (comp : Price → Price → bool) `{!PriceOrder comp}.
Implicit Types (m : flat_map V) (k : Price).
Local Notation find := (fm_find comp).
Local Notation sorted := (fm_sorted comp).

Lemma po_asym k1 k2 : comp k1 k2 = true → comp k2 k1 = false.
Proof.
  intros H. destruct (comp k2 k1) eqn:E; [|done].
  pose proof (po_trans _ _ _ H E) as F. by rewrite po_irrefl in F.
Qed.

Lemma fm_before_mono k k' m : comp k k' = true → fm_before comp k' m → fm_before comp k m.
Proof. intros H Hb. eapply Forall_impl; [exact Hb|]. intros kv. by apply po_trans. Qed.

(** In a sorted map lookup and membership agree. *)
Lemma fm_find_elem k v m : sorted m → find k m = Some v ↔ (k, v) ∈ m.
Proof.
  induction m as [|[k' v'] m IH]; simpl; [set_solver|]. intros [Hb Hs].
  unfold fm_before in Hb. rewrite Forall_forall in Hb.
  rewrite elem_of_cons. destruct (comp k' k) eqn:E1; [|destruct (comp k k') eqn:E2].
  - rewrite IH by done. split; [auto|]. intros [[= -> ->]|]; [|done].
    by rewrite po_irrefl in E1.
  - split; [done|]. intros [[= -> ->]|H]; [by rewrite po_irrefl in E2|].
    specialize (Hb _ H). simpl in Hb. congruence.
  - assert (k' = k) as -> by eauto using po_total. split; [intros [= ->]; auto|].
    intros [[= ->]|H]; [done|].
    specialize (Hb _ H). simpl in Hb. by rewrite po_irrefl in Hb.
Qed.

Lemma fm_subscript_before d k k' f m :
  comp k' k = true → fm_before comp k' m → fm_before comp k' (fm_subscript comp d k f m).
Proof.
  intros H. induction m as [|[k1 v1] m IH]; simpl; intros Hb; [by repeat constructor|].
  apply Forall_cons in Hb as [Hk Hb]. simpl in Hk.
  destruct (comp k1 k); [|destruct (comp k k1)]; repeat constructor; try done.
  by apply IH.
Qed.

Lemma fm_subscript_sorted d k f m : sorted m → sorted (fm_subscript comp d k f m).
Proof.
  induction m as [|[k' v] m IH]; simpl; [repeat constructor|]. intros [Hb Hs].
  destruct (comp k' k) eqn:E1; [|destruct (comp k k') eqn:E2]; simpl.
  - split; [by apply fm_subscript_before | auto].
  - repeat split; try done. constructor; [done|]. by eapply fm_before_mono.
  - done.
Qed.

Lemma fm_erase_subset k m kv : kv ∈ fm_erase comp k m → kv ∈ m.
Proof.
  induction m as [|[k' v] m IH]; simpl; [done|].
  destruct (comp k' k); [|destruct (comp k k')]; set_solver.
Qed.

Lemma fm_erase_sorted k m : sorted m → sorted (fm_erase comp k m).
Proof.
  induction m as [|[k' v] m IH]; simpl; [done|]. intros [Hb Hs].
  destruct (comp k' k); [|destruct (comp k k')]; simpl; try done.
  split; [|auto]. unfold fm_before in *. rewrite Forall_forall in *.
  eauto using fm_erase_subset.
Qed.

Lemma fm_update_keys k f m : (fm_update comp k f m).*1 = m.*1.
Proof.
  induction m as [|[k' v] m IH]; simpl; [done|].
  destruct (comp k' k); [|destruct (comp k k')]; csimpl; [by rewrite IH|done..].
Qed.

Lemma fm_update_sorted k f m : sorted m → sorted (fm_update comp k f m).
Proof.
  induction m as [|[k' v] m IH]; simpl; [done|]. intros [Hb Hs].
  destruct (comp k' k); [|destruct (comp k k')]; simpl; try done.
  split; [|auto]. unfold fm_before in *.
  rewrite <-(Forall_fmap fst (λ k1, comp k' k1 = true)) in *.
  by rewrite fm_update_keys.
Qed.
(** Where a found key sits, and what writing or erasing there does. *)
Lemma fm_find_split k v m : sorted m → find k m = Some v →
  ∃ pre post, m = pre ++ (k, v) :: post ∧ Forall (λ kv, kv.1 ≠ k) (pre ++ post) ∧
    fm_erase comp k m = pre ++ post ∧
    ∀ f, fm_update comp k f m = pre ++ (k, f v) :: post.
Proof.
  induction m as [|[k' v'] m IH]; simpl; [done|]. intros [Hb Hs].
  destruct (comp k' k) eqn:E1; [|destruct (comp k k') eqn:E2; [done|]].
  - intros (pre & post & -> & Hne & He & Hu)%IH; [|done].
    exists ((k', v') :: pre), post. repeat split.
    + simpl. constructor; [|done]. simpl. intros ->. by rewrite po_irrefl in E1.
    + by rewrite He.
    + intros f. by rewrite Hu.
  - intros [= ->]. assert (k' = k) as -> by eauto using po_total.
    exists [], m. repeat split. simpl. eapply Forall_impl; [exact Hb|].
    intros [k1 v1] H E. simpl in *. subst. by rewrite po_irrefl in H.
Qed.

End FlatMapFacts.

#[export] Hint Resolve fm_subscript_sorted fm_erase_sorted fm_update_sorted : exchange.
