(* ===== verification/MatchingEngine.v ===== *)
(** * MatchingEngine (common/engine/matching_engine.hpp, matching_engine.cpp)

    One instrument's order book: its state and its operations, as the sources
    write them.  The trade handler is a callback on a state of the caller's
    choice; it may fail, and then the operation fails the same way.  The arena
    that backs the containers is memory management and has no counterpart. *)

From S2P Require Import Prelude Interfaces CoreTypes Seqlock FlatMap.

Local Open Scope Z_scope.

Record RestingOrder := mkResting {
  ro_orderId_ : OrderId;
  ro_userId_ : UserId;
  ro_volume_ : Volume;
}.

Record OrderLocation := mkLocation {
  ol_side_ : Side;
  ol_price_ : Price;
  ol_userId_ : UserId;
}.

#[export] Instance RestingOrder_eq_dec : EqDecision RestingOrder.
Proof. solve_decision. Defined.
#[export] Instance OrderLocation_eq_dec : EqDecision OrderLocation.
Proof. solve_decision. Defined.

(** std::deque, front = oldest. *)
Notation PriceLevel := (list RestingOrder).
Notation Book := (flat_map PriceLevel).

(** The orderings of the two books: best (highest) bid first, best (lowest) ask
    first. *)
Definition bids_comp : Price → Price → bool := st_gtb.
Definition asks_comp : Price → Price → bool := st_ltb.

(** orderIndex_ is an unordered_dense::map<OrderId, OrderLocation>. *)
Notation OrderIndexType := (UMap OrderId OrderLocation).
Notation OrderIndexLaws := (UMapLaws OrderId OrderLocation).

Record MatchingEngine (Index : Type) := mkEngine {
  bids_ : Book;
  asks_ : Book;
  orderIndex_ : Index;
  midPrice_ : Seqlock (option Price);
}.
Arguments mkEngine {Index} _ _ _ _.
Arguments bids_ {Index} _.
Arguments asks_ {Index} _.
Arguments orderIndex_ {Index} _.
Arguments midPrice_ {Index} _.

Section Engine.
Context {Ticker : Type} {Index : Type} `{!OrderIndexType Index}.

Definition engine_init : MatchingEngine Index :=
  mkEngine [] [] um_empty (seqlock_init None).

(** ** Match *)

Section Matching.
Context {H : Type} (onTrade : Trade Ticker → H → Outcome H).

(** The trade one step of the inner loop reports. *)
Definition fill_trade (incoming : OrderAdd Ticker) (levelPrice : Price)
    (resting : RestingOrder) (traded : Volume) : Trade Ticker :=
  {| tr_makerId_ := ro_userId_ resting;
     tr_takerId_ := oa_userId_ incoming;
     tr_makerOrderId_ := ro_orderId_ resting;
     tr_takerOrderId_ := oa_orderId_ incoming;
     tr_ticker_ := oa_ticker_ incoming;
     tr_takerSide_ := oa_side_ incoming;
     tr_executionPrice_ := levelPrice;
     tr_volume_ := traded |}.

(** The inner loop: fills [incoming] against one price level, oldest order first. *)
Fixpoint MatchLevel (fuel : nat) (incoming : OrderAdd Ticker) (levelPrice : Price)
    (level : PriceLevel) (index : Index) (remaining : Volume) (h : H)
    : Outcome (PriceLevel * Index * Volume * H) :=
  match fuel with
  | O => OutOfFuel
  | S fuel' =>
      match level with
      | resting :: rest =>
          if st_gtb remaining (Strong 0) then
            let traded := st_min remaining (ro_volume_ resting) in
            h ← onTrade (fill_trade incoming levelPrice resting traded) h;
            remaining ← st_sub_assign remaining traded;
            volume ← st_sub_assign (ro_volume_ resting) traded;
            if st_eqb volume (Strong 0) then
              MatchLevel fuel' incoming levelPrice rest
                (um_erase (ro_orderId_ resting) index) remaining h
            else
              MatchLevel fuel' incoming levelPrice
                (mkResting (ro_orderId_ resting) (ro_userId_ resting) volume :: rest)
                index remaining h
          else Ok (level, index, remaining, h)
      | [] => Ok (level, index, remaining, h)
      end
  end.

(** The outer loop: walks the book best price first while the prices cross. *)
Fixpoint MatchBook (fuel : nat) (priceCrosses : Price → Price → bool)
    (incoming : OrderAdd Ticker) (book : Book) (index : Index) (remaining : Volume) (h : H)
    : Outcome (Book * Index * Volume * H) :=
  match fuel with
  | O => OutOfFuel
  | S fuel' =>
      match book with
      | (levelPrice, level) :: book' =>
          if st_gtb remaining (Strong 0) then
            if negb (priceCrosses (oa_price_ incoming) levelPrice) then
              Ok (book, index, remaining, h)
            else
              '(level, index, remaining, h) ←
                MatchLevel (S (length level)) incoming levelPrice level index remaining h;
              match level with
              | [] => MatchBook fuel' priceCrosses incoming book' index remaining h
              | _ => MatchBook fuel' priceCrosses incoming ((levelPrice, level) :: book')
                       index remaining h
              end
          else Ok (book, index, remaining, h)
      | [] => Ok (book, index, remaining, h)
      end
  end.

Definition Match (priceCrosses : Price → Price → bool) (book : Book)
    (incoming : OrderAdd Ticker) (index : Index) (remaining : Volume) (h : H)
    : Outcome (Book * Index * Volume * H) :=
  MatchBook (S (length book)) priceCrosses incoming book index remaining h.

End Matching.

(** ** Rest, EraseFromBook, UpdateMidPrice *)

Definition Rest (order : OrderAdd Ticker) (remaining : Volume)
    (e : MatchingEngine Index) : MatchingEngine Index :=
  let push_back (level : PriceLevel) : PriceLevel :=
    level ++ [mkResting (oa_orderId_ order) (oa_userId_ order) remaining] in
  let location := mkLocation (oa_side_ order) (oa_price_ order) (oa_userId_ order) in
  let index := um_set (oa_orderId_ order) location (orderIndex_ e) in
  match oa_side_ order with
  | Buy => mkEngine (fm_subscript bids_comp [] (oa_price_ order) push_back (bids_ e))
             (asks_ e) index (midPrice_ e)
  | Sell => mkEngine (bids_ e)
             (fm_subscript asks_comp [] (oa_price_ order) push_back (asks_ e))
             index (midPrice_ e)
  end.

Definition EraseFromBook (comp : Price → Price → bool) (book : Book)
    (price : Price) (orderId : OrderId) : Book :=
  match fm_find comp price book with
  | None => book
  | Some level =>
      let level := filter (λ o, ro_orderId_ o ≠ orderId) level in
      match level with
      | [] => fm_erase comp price book
      | _ => fm_update comp price (λ _, level) book
      end
  end.

Definition UpdateMidPrice (e : MatchingEngine Index) : Outcome (MatchingEngine Index) :=
  let publish mid := mkEngine (bids_ e) (asks_ e) (orderIndex_ e)
                       (Store (Some mid) (midPrice_ e)) in
  match bids_ e, asks_ e with
  | (bid, _) :: _, (ask, _) :: _ =>
      sum ← value bid ⊞ value ask;
      mid ← i64_div sum 2;
      Ok (publish (Strong mid))
  | (bid, _) :: _, [] => Ok (publish bid)
  | [], (ask, _) :: _ => Ok (publish ask)
  | [], [] => Ok e
  end.

(** midPrice_.Load() from the thread that owns the engine. *)
Definition MidPrice (e : MatchingEngine Index) : Outcome (option Price) :=
  Load 1 (midPrice_ e).

(** ** The handlers *)

Definition OnOrderAdd {H} (onTrade : Trade Ticker → H → Outcome H)
    (order : OrderAdd Ticker) (e : MatchingEngine Index) (h : H)
    : Outcome (MatchingEngine Index * H) :=
  let remaining := oa_volume_ order in
  '(e, remaining, h) ←
    match oa_side_ order with
    | Buy =>
        '(asks, index, remaining, h) ←
          Match onTrade (λ buyPrice askPrice, st_geb buyPrice askPrice)
            (asks_ e) order (orderIndex_ e) remaining h;
        Ok (mkEngine (bids_ e) asks index (midPrice_ e), remaining, h)
    | Sell =>
        '(bids, index, remaining, h) ←
          Match onTrade (λ sellPrice bidPrice, st_leb sellPrice bidPrice)
            (bids_ e) order (orderIndex_ e) remaining h;
        Ok (mkEngine bids (asks_ e) index (midPrice_ e), remaining, h)
    end;
  let e := if st_gtb remaining (Strong 0) then Rest order remaining e else e in
  e ← UpdateMidPrice e;
  Ok (e, h).

Definition OnOrderCancel (cancel : OrderCancel Ticker) (e : MatchingEngine Index)
    : Outcome (MatchingEngine Index) :=
  match um_find (oc_orderId_ cancel) (orderIndex_ e) with
  | None => Ok e
  | Some location =>
      if negb (st_eqb (ol_userId_ location) (oc_userId_ cancel)) then Ok e
      else
        let '(bids, asks) :=
          match ol_side_ location with
          | Buy => (EraseFromBook bids_comp (bids_ e) (ol_price_ location)
                      (oc_orderId_ cancel), asks_ e)
          | Sell => (bids_ e, EraseFromBook asks_comp (asks_ e) (ol_price_ location)
                      (oc_orderId_ cancel))
          end in
        let index := um_erase (oc_orderId_ cancel) (orderIndex_ e) in
        UpdateMidPrice (mkEngine bids asks index (midPrice_ e))
  end.

End Engine.
