(* ===== verification/BookSpec.v ===== *)
(** * The abstract order book

    One side of the book as a single list of resting orders in priority order:
    better prices first, and within a price the older order first.  [fill] is the
    reference matching algorithm on that list, [rest_at] and [remove_at] the
    reference insertion and removal.  [flatten] abstracts a [Book] to its list. *)

From S2P Require Import Prelude CoreTypes FlatMap MatchingEngine.

Local Open Scope Z_scope.

Notation Entry := (Price * RestingOrder)%type.

Definition level_entries (kl : Price * PriceLevel) : list Entry := pair kl.1 <$> kl.2.
Definition flatten (book : Book) : list Entry := mjoin (level_entries <$> book).

Definition entry_volume (x : Entry) : Z := value (ro_volume_ x.2).
Definition entry_id (x : Entry) : OrderId := ro_orderId_ x.2.
Definition total_volume (l : list Entry) : Z := sumZ entry_volume l.

(** A fill: how much of which resting order traded. *)
Record Fill := mkFill {
  fill_entry : Entry;
  fill_volume : Z;
}.

Record FillResult := mkFillResult {
  fr_fills : list Fill;        (* in the order they happen *)
  fr_filled : list OrderId;    (* orders filled completely *)
  fr_left : list Entry;        (* what still rests *)
  fr_remaining : Z;            (* what is left of the incoming order *)
}.

Definition shrink (x : Entry) (n : Z) : Entry :=
  (x.1, mkResting (ro_orderId_ x.2) (ro_userId_ x.2) (Strong (entry_volume x - n))).

(** Price-time priority: the incoming order takes from the front of the list as
    long as it has volume left and the front order's price is acceptable. *)
Fixpoint fill (crosses : Price → bool) (l : list Entry) (remaining : Z) : FillResult :=
  match l with
  | [] => mkFillResult [] [] [] remaining
  | x :: l' =>
      if (0 <? remaining) && crosses x.1 then
        if entry_volume x <=? remaining then
          let r := fill crosses l' (remaining - entry_volume x) in
          mkFillResult (mkFill x (entry_volume x) :: fr_fills r)
            (entry_id x :: fr_filled r) (fr_left r) (fr_remaining r)
        else mkFillResult [mkFill x remaining] [] (shrink x remaining :: l') 0
      else mkFillResult [] [] l remaining
  end.

(** A new order goes behind every order whose price is at least as good. *)
Fixpoint rest_at (comp : Price → Price → bool) (x : Entry) (l : list Entry) : list Entry :=
  match l with
  | [] => [x]
  | y :: l' => if comp x.1 y.1 then x :: l else y :: rest_at comp x l'
  end.

Definition remove_at (price : Price) (id : OrderId) (l : list Entry) : list Entry :=
  filter (λ x, ¬ (x.1 = price ∧ entry_id x = id)) l.

Section FlattenFacts.
Implicit Types (book : Book) (l : list Entry).

Lemma flatten_cons p level book :
  flatten ((p, level) :: book) = (pair p <$> level) ++ flatten book.
Proof. done. Qed.

Lemma elem_of_flatten p r book :
  (p, r) ∈ flatten book ↔ ∃ level, (p, level) ∈ book ∧ r ∈ level.
Proof.
  induction book as [|[p' level] book IH]; [set_solver|].
  rewrite flatten_cons, elem_of_app, IH, list_elem_of_fmap. set_solver.
Qed.

Lemma Forall_flatten (P : Entry → Prop) book :
  Forall P (flatten book) ↔ Forall (λ kl, Forall (λ r, P (kl.1, r)) kl.2) book.
Proof.
  induction book as [|[p level] book IH]; [by split; constructor|].
  by rewrite flatten_cons, Forall_app, IH, Forall_cons, Forall_fmap.
Qed.
End FlattenFacts.

Section FillFacts.
Context (crosses : Price → bool).
Implicit Types (l : list Entry).

(** Filling against two lists in a row. *)
Lemma fill_app l1 l2 remaining :
  fill crosses (l1 ++ l2) remaining =
  let r1 := fill crosses l1 remaining in
  match fr_left r1 with
  | [] => let r2 := fill crosses l2 (fr_remaining r1) in
          mkFillResult (fr_fills r1 ++ fr_fills r2) (fr_filled r1 ++ fr_filled r2)
            (fr_left r2) (fr_remaining r2)
  | _ => mkFillResult (fr_fills r1) (fr_filled r1) (fr_left r1 ++ l2) (fr_remaining r1)
  end.
Proof.
  revert remaining. induction l1 as [|x l1 IH]; intros remaining; simpl.
  { by destruct (fill crosses l2 remaining). }
  destruct ((0 <? remaining) && crosses x.1); [|done].
  destruct (entry_volume x <=? remaining); [|done].
  rewrite IH. simpl. by destruct (fr_left _).
Qed.

Lemma fill_stop l remaining : remaining ≤ 0 →
  fill crosses l remaining = mkFillResult [] [] l remaining.
Proof. intros H. destruct l as [|x l]; simpl; [done|]. destruct (Z.ltb_spec 0 remaining); [lia|done]. Qed.

Lemma fill_no_fills l remaining : fr_fills (fill crosses l remaining) = [] →
  fill crosses l remaining = mkFillResult [] [] l remaining.
Proof.
  destruct l as [|x l]; cbn; [done|]. destruct ((0 <? remaining) && crosses x.1); [|done].
  by destruct (entry_volume x <=? remaining).
Qed.

(** What is taken from the book is what the incoming order gets. *)
Lemma fill_conserves l remaining :
  let r := fill crosses l remaining in
  sumZ fill_volume (fr_fills r) = remaining - fr_remaining r ∧
  total_volume (fr_left r) = total_volume l - (remaining - fr_remaining r).
Proof.
  revert remaining; induction l as [|x l IH]; intros remaining; simpl; [lia|].
  destruct ((0 <? remaining) && crosses x.1); simpl; [|lia].
  destruct (entry_volume x <=? remaining); simpl.
  - destruct (IH (remaining - entry_volume x)) as [H1 H2]. unfold total_volume in *. lia.
  - unfold total_volume, shrink, entry_volume. simpl. lia.
Qed.

Lemma fill_remaining_bounds l remaining :
  Forall (λ x, 0 < entry_volume x) l → 0 ≤ remaining →
  0 ≤ fr_remaining (fill crosses l remaining) ≤ remaining.
Proof.
  intros Hl. revert remaining; induction Hl as [|x l Hx Hl IH]; intros remaining Hr; simpl; [lia|].
  destruct ((0 <? remaining) && crosses x.1); simpl; [|lia].
  destruct (Z.leb_spec (entry_volume x) remaining); simpl; [|lia].
  specialize (IH (remaining - entry_volume x)). lia.
Qed.

(** Every fill is of an order of the list, acceptable, positive, and bounded by the
    resting and by the incoming order. *)
Lemma fill_bounds l remaining f :
  Forall (λ x, 0 < entry_volume x) l → f ∈ fr_fills (fill crosses l remaining) →
  fill_entry f ∈ l ∧ 0 < fill_volume f ≤ entry_volume (fill_entry f) ∧
  crosses (fill_entry f).1 = true ∧ fill_volume f ≤ remaining.
Proof.
  intros Hl. revert remaining; induction Hl as [|x l Hx Hl IH]; intros remaining;
    cbn; [by intros ?%elem_of_nil|].
  destruct (Z.ltb_spec 0 remaining), (crosses x.1) eqn:Hc; cbn; try by intros ?%elem_of_nil.
  destruct (Z.leb_spec (entry_volume x) remaining); cbn.
  - intros [->|Hf]%elem_of_cons; cbn; [split_and!; [by left|lia|lia|done|lia]|].
    destruct (IH _ Hf) as (? & ? & ? & ?). split_and!; [by right|lia|lia|done|lia].
  - intros ->%list_elem_of_singleton. cbn. split_and!; [by left|lia|lia|done|lia].
Qed.

(** Priority: the fills take the front of the list in order; every order but the
    last one touched is filled completely, and what is behind is untouched. *)
Lemma fill_priority l remaining :
  let r := fill crosses l remaining in
  ∃ done_ rest, l = done_ ++ rest ∧ fr_filled r = entry_id <$> done_ ∧
    ((fr_fills r = (λ x, mkFill x (entry_volume x)) <$> done_ ∧ fr_left r = rest) ∨
     (∃ x rest' n, rest = x :: rest' ∧ 0 < n < entry_volume x ∧ fr_remaining r = 0 ∧
        fr_fills r = ((λ x, mkFill x (entry_volume x)) <$> done_) ++ [mkFill x n] ∧
        fr_left r = shrink x n :: rest')).
Proof.
  revert remaining; induction l as [|x l IH]; intros remaining; simpl.
  { exists [], []. naive_solver. }
  destruct (Z.ltb_spec 0 remaining), (crosses x.1); simpl;
    try (exists [], (x :: l); simpl; naive_solver).
  destruct (Z.leb_spec (entry_volume x) remaining); simpl.
  - destruct (IH (remaining - entry_volume x)) as (d & rest & -> & -> & Hr).
    exists (x :: d), rest. do 2 (split; [done|]).
    destruct Hr as [[-> ->]|(y & rest' & n & -> & ? & ? & -> & ->)]; [by left|].
    right. exists y, rest', n. done.
  - exists [], (x :: l). do 2 (split; [done|]). right. exists x, l, remaining. done.
Qed.

(** Matching goes as far as it can: volume is left only if no acceptable order is
    at the front. *)
Lemma fill_maximal l remaining :
  let r := fill crosses l remaining in
  0 < fr_remaining r → ∀ x l', fr_left r = x :: l' → crosses x.1 = false.
Proof.
  revert remaining; induction l as [|x l IH]; intros remaining; simpl; [done|].
  destruct (Z.ltb_spec 0 remaining), (crosses x.1) eqn:Hc; simpl; try naive_solver lia.
  destruct (Z.leb_spec (entry_volume x) remaining); simpl; [|naive_solver lia].
  apply IH.
Qed.

Lemma fill_left_elem l remaining x :
  x ∈ fr_left (fill crosses l remaining) →
  ∃ y, y ∈ l ∧ x.1 = y.1 ∧ entry_id x = entry_id y ∧ ro_userId_ x.2 = ro_userId_ y.2.
Proof.
  revert remaining; induction l as [|y l IH]; intros remaining; simpl; [set_solver|].
  destruct ((0 <? remaining) && crosses y.1); simpl; [|set_solver].
  destruct (entry_volume y <=? remaining); simpl; intros Hx.
  - destruct (IH _ Hx) as (z & ? & ?). exists z. set_solver.
  - apply elem_of_cons in Hx as [->|Hx]; [exists y; set_solver|]. exists x. set_solver.
Qed.

Lemma fill_ids l remaining :
  let r := fill crosses l remaining in
  entry_id <$> l = fr_filled r ++ (entry_id <$> fr_left r).
Proof.
  revert remaining; induction l as [|y l IH]; intros remaining; simpl; [done|].
  destruct ((0 <? remaining) && crosses y.1); simpl; [|done].
  destruct (entry_volume y <=? remaining); simpl; [|done].
  f_equal. apply IH.
Qed.
End FillFacts.

Section RestFacts.
Context (comp : Price → Price → bool) `{!PriceOrder comp}.

Lemma rest_at_Permutation x l : rest_at comp x l ≡ₚ x :: l.
Proof.
  induction l as [|y l IH]; simpl; [done|].
  destruct (comp x.1 y.1); [done|]. rewrite IH. apply Permutation_swap.
Qed.

Lemma elem_of_rest_at x y l : y ∈ rest_at comp x l ↔ y = x ∨ y ∈ l.
Proof. by rewrite rest_at_Permutation, elem_of_cons. Qed.
End RestFacts.
