(* ===== verification/EngineRefinement.v ===== *)
(** * The matching engine implements the abstract order book

    Well-formed books, and the refinement of [Match], [Rest], [EraseFromBook] and
    the two handlers to the reference algorithms on priority lists.  Every
    statement about matching holds for every trade handler: the handler sees
    exactly the reference trades, in order, and cannot influence the match. *)

From S2P Require Import Prelude Interfaces CoreTypes Seqlock FlatMap MatchingEngine BookSpec.

Local Open Scope Z_scope.

(** ** Well-formed books *)

Definition ro_ok (r : RestingOrder) : Prop := 0 < value (ro_volume_ r) ≤ i64_max.

Definition level_ok (kl : Price * PriceLevel) : Prop :=
  is_i64 (value kl.1) ∧ kl.2 ≠ [] ∧ Forall ro_ok kl.2.

Definition book_ok (comp : Price → Price → bool) (book : Book) : Prop :=
  fm_sorted comp book ∧ Forall level_ok book.

Lemma book_ok_cons comp p level book :
  book_ok comp ((p, level) :: book) ↔
  fm_before comp p book ∧ level_ok (p, level) ∧ book_ok comp book.
Proof. unfold book_ok. simpl. rewrite Forall_cons. tauto. Qed.

Lemma book_ok_volumes comp book :
  book_ok comp book → Forall (λ x, 0 < entry_volume x) (flatten book).
Proof.
  intros [_ H]. apply Forall_flatten. eapply Forall_impl; [exact H|].
  intros [p level] (_ & _ & Hl). eapply Forall_impl; [exact Hl|].
  intros r [? _]. done.
Qed.

Section FillExtra.

Lemma fill_ext c1 c2 l remaining :
  (∀ x, x ∈ l → c1 x.1 = c2 x.1) → fill c1 l remaining = fill c2 l remaining.
Proof.
  revert remaining; induction l as [|x l IH]; intros remaining H; simpl; [done|].
  rewrite (H x) by (by left). rewrite IH; [done|]. intros y Hy. apply H. by right.
Qed.

Lemma fill_remaining_i64 c l remaining :
  Forall (λ x, 0 < entry_volume x) l → is_i64 remaining →
  is_i64 (fr_remaining (fill c l remaining)).
Proof.
  intros Hl Hr. destruct (Z.leb_spec remaining 0).
  - by rewrite fill_stop.
  - pose proof (fill_remaining_bounds c l remaining Hl ltac:(lia)). i64.
Qed.

Lemma fill_level_price c p level remaining :
  (pair p) <$> (snd <$> fr_left (fill c (pair p <$> level) remaining)) =
  fr_left (fill c (pair p <$> level) remaining).
Proof.
  assert (∀ l : list Entry, Forall (λ x, x.1 = p) l → (pair p) <$> (snd <$> l) = l) as Hl.
  { induction 1 as [|[q r] l E _ IH]; csimpl; [done|]. simpl in E. by rewrite IH, E. }
  apply Hl, Forall_forall. intros x (y & Hy & -> & _)%fill_left_elem.
  apply list_elem_of_fmap in Hy as (r & -> & _). done.
Qed.

Lemma fill_left_ok c l remaining :
  Forall (λ x, ro_ok x.2) l → Forall (λ x, ro_ok x.2) (fr_left (fill c l remaining)).
Proof.
  intros Hl. revert remaining; induction Hl as [|x l Hx Hl IH]; intros remaining; simpl; [done|].
  destruct (Z.ltb_spec 0 remaining), (c x.1); simpl; try by constructor.
  destruct (Z.leb_spec (entry_volume x) remaining); simpl; [done|].
  constructor; [|done]. unfold ro_ok, shrink, entry_volume in *. cbn in *. lia.
Qed.

End FillExtra.

(** ** Match *)

Section MatchRefinement.
Context {Ticker Index H : Type} `{!OrderIndexType Index}.
Context (onTrade : Trade Ticker → H → Outcome H).
Implicit Types (incoming : OrderAdd Ticker) (index : Index) (level : PriceLevel) (book : Book).

(** The trade a fill stands for. *)
Definition trade_of incoming (f : Fill) : Trade Ticker :=
  fill_trade incoming (fill_entry f).1 (fill_entry f).2 (Strong (fill_volume f)).

Lemma trade_of_value incoming p x (v : Volume) :
  trade_of incoming (mkFill (p, x) (value v)) = fill_trade incoming p x v.
Proof. by destruct v. Qed.

(** The index after the orders [ids] are erased, in order. *)
Definition erase_all (index : Index) (ids : list OrderId) : Index :=
  foldl (λ i id, um_erase id i) index ids.

Lemma erase_all_app index ids1 ids2 :
  erase_all index (ids1 ++ ids2) = erase_all (erase_all index ids1) ids2.
Proof. apply foldl_app. Qed.

Lemma MatchLevel_stop fuel incoming p level index remaining h :
  value remaining ≤ 0 →
  MatchLevel onTrade (S fuel) incoming p level index remaining h =
  Ok (level, index, remaining, h).
Proof.
  intros Hr. simpl. destruct level as [|r level]; [done|].
  strong. simpl. destruct (Z.ltb_spec 0 (value remaining)); [lia|done].
Qed.

Lemma MatchLevel_refines fuel incoming p level index remaining h :
  Forall ro_ok level → is_i64 (value remaining) → (length level < fuel)%nat →
  let r := fill (λ _, true) (pair p <$> level) (value remaining) in
  MatchLevel onTrade fuel incoming p level index remaining h =
  (h' ← foldM onTrade (trade_of incoming <$> fr_fills r) h;
   Ok (snd <$> fr_left r, erase_all index (fr_filled r), Strong (fr_remaining r), h')).
Proof.
  intros Hl. revert fuel index remaining h.
  induction Hl as [|x level Hx Hl IH]; intros fuel index remaining h Hr Hf;
    (destruct fuel as [|fuel]; [simpl in Hf; lia|]).
  { simpl. by destruct remaining. }
  destruct (Z.ltb_spec 0 (value remaining)) as [Hpos|Hpos]; cycle 1.
  { rewrite MatchLevel_stop, fill_stop by lia. csimpl.
    rewrite <-list_fmap_compose. simpl. rewrite list_fmap_id. by destruct remaining. }
  simpl. strong. simpl. destruct (Z.ltb_spec 0 (value remaining)); [|lia]. simpl.
  unfold ro_ok in Hx. unfold entry_volume. simpl.
  destruct (Z.leb_spec (value (ro_volume_ x)) (value remaining)) as [Hle|Hlt].
  - replace (st_min remaining (ro_volume_ x)) with (ro_volume_ x)
      by (apply strong_eq; strong; lia).
    csimpl. rewrite trade_of_value, bind_assoc. apply bind_ext. intros h' _.
    rewrite !st_sub_assign_Z by i64. csimpl. strong. simpl. rewrite Z.sub_diag. simpl.
    rewrite IH by (simpl in *; i64 || lia). done.
  - replace (st_min remaining (ro_volume_ x)) with remaining
      by (apply strong_eq; strong; lia).
    csimpl. rewrite trade_of_value, bind_assoc. apply bind_ext. intros h' _.
    rewrite !st_sub_assign_Z by i64. csimpl. strong. simpl. rewrite Z.sub_diag.
    destruct (Z.eqb_spec (value (ro_volume_ x) - value remaining) 0); [lia|].
    destruct fuel as [|fuel]; [simpl in Hf; lia|].
    rewrite MatchLevel_stop by (simpl; lia).
    unfold entry_volume. simpl. rewrite <-list_fmap_compose. simpl. by rewrite list_fmap_id.
Qed.

Lemma MatchBook_stop fuel priceCrosses incoming book index remaining h :
  value remaining ≤ 0 →
  MatchBook onTrade (S fuel) priceCrosses incoming book index remaining h =
  Ok (book, index, remaining, h).
Proof.
  intros Hr. simpl. destruct book as [|[p level] book]; [done|].
  strong. simpl. destruct (Z.ltb_spec 0 (value remaining)); [lia|done].
Qed.

(** One round of the outer loop on a level that crosses. *)
Lemma MatchBook_level fuel priceCrosses incoming p level book index remaining h :
  priceCrosses (oa_price_ incoming) p = true → Forall ro_ok level →
  0 < value remaining ≤ i64_max →
  let r := fill (λ _, true) (pair p <$> level) (value remaining) in
  MatchBook onTrade (S fuel) priceCrosses incoming ((p, level) :: book) index remaining h =
  (h' ← foldM onTrade (trade_of incoming <$> fr_fills r) h;
   match snd <$> fr_left r with
   | [] => MatchBook onTrade fuel priceCrosses incoming book
             (erase_all index (fr_filled r)) (Strong (fr_remaining r)) h'
   | level' => MatchBook onTrade fuel priceCrosses incoming ((p, level') :: book)
             (erase_all index (fr_filled r)) (Strong (fr_remaining r)) h'
   end).
Proof.
  intros Hc Hlv Hr r. cbn [MatchBook]. strong. cbn [value].
  destruct (Z.ltb_spec 0 (value remaining)); [|lia]. rewrite Hc. cbn [negb].
  rewrite MatchLevel_refines by (done || lia || i64). fold r. rewrite bind_assoc.
  apply bind_ext. intros h' _. cbn. by destruct (snd <$> fr_left r).
Qed.

(** What [MatchBook] computes, given the reference result [r]. *)
Definition match_result (comp : Price → Price → bool) fuel priceCrosses incoming book
    (remaining : Volume) (r : FillResult) book' : Prop :=
  book_ok comp book' ∧ flatten book' = fr_left r ∧
  (∀ kl, kl ∈ book' → ∃ kl0, kl0 ∈ book ∧ kl.1 = kl0.1) ∧
  ∀ index h,
    MatchBook onTrade fuel priceCrosses incoming book index remaining h =
    (h' ← foldM onTrade (trade_of incoming <$> fr_fills r) h;
     Ok (book', erase_all index (fr_filled r), Strong (fr_remaining r), h')).

Lemma match_result_unchanged comp fuel priceCrosses incoming book remaining :
  book_ok comp book →
  (∀ index h, MatchBook onTrade fuel priceCrosses incoming book index remaining h =
              Ok (book, index, remaining, h)) →
  match_result comp fuel priceCrosses incoming book remaining
    (mkFillResult [] [] (flatten book) (value remaining)) book.
Proof.
  intros Hok HM. split; [done|]. split; [done|]. split; [eauto|].
  intros index h. rewrite HM. by destruct remaining.
Qed.

(** A level is used up: matching goes on in the rest of the book. *)
Lemma match_result_next comp fuel priceCrosses incoming p level book book' remaining r1 r2 :
  priceCrosses (oa_price_ incoming) p = true → Forall ro_ok level →
  0 < value remaining ≤ i64_max →
  r1 = fill (λ _, true) (pair p <$> level) (value remaining) → fr_left r1 = [] →
  match_result comp fuel priceCrosses incoming book (Strong (fr_remaining r1)) r2 book' →
  match_result comp (S fuel) priceCrosses incoming ((p, level) :: book) remaining
    (mkFillResult (fr_fills r1 ++ fr_fills r2) (fr_filled r1 ++ fr_filled r2)
       (fr_left r2) (fr_remaining r2)) book'.
Proof.
  intros Hc Hlv Hr -> Hleft (Hok & Hfl & Hsub & HM). split; [done|]. split; [done|]. split.
  { intros kl (kl0 & ? & ?)%Hsub. exists kl0. split; [by right|done]. }
  intros index h. rewrite MatchBook_level, Hleft by done. cbn.
  rewrite fmap_app, foldM_app, bind_assoc. apply bind_ext. intros h' _.
  by rewrite HM, erase_all_app.
Qed.

(** A level outlasts the incoming order: matching ends there. *)
Lemma match_result_partial comp fuel priceCrosses incoming p level book remaining r1 :
  priceCrosses (oa_price_ incoming) p = true →
  book_ok comp ((p, level) :: book) → 0 < value remaining ≤ i64_max →
  r1 = fill (λ _, true) (pair p <$> level) (value remaining) → fr_left r1 ≠ [] →
  match_result comp (S (S fuel)) priceCrosses incoming ((p, level) :: book) remaining
    (mkFillResult (fr_fills r1) (fr_filled r1) (fr_left r1 ++ flatten book) (fr_remaining r1))
    ((p, snd <$> fr_left r1) :: book).
Proof.
  intros Hc (Hb & (Hp & Hne & Hlv) & Hbook)%book_ok_cons Hr -> Hleft.
  assert (Forall (λ x : Entry, ro_ok x.2) (pair p <$> level)) as Hro by (by apply Forall_fmap).
  assert (fr_remaining (fill (λ _, true) (pair p <$> level) (value remaining)) ≤ 0) as Hle.
  { apply Z.nlt_ge. intros Hlt.
    destruct (fr_left _) as [|y l] eqn:E in Hleft; [done|].
    by pose proof (fill_maximal _ _ _ Hlt y l E). }
  split; [|split; [|split]].
  - apply book_ok_cons. split; [done|]. split; [|done].
    split; [done|]. split; [by destruct (fr_left _)|]. cbn.
    apply Forall_fmap. by apply fill_left_ok.
  - rewrite flatten_cons. by rewrite fill_level_price.
  - intros kl [->|Hkl]%elem_of_cons; [exists (p, level)|exists kl]; set_solver.
  - intros index h. rewrite MatchBook_level by done. apply bind_ext. intros h' _.
    destruct (snd <$> fr_left _) eqn:E; [by destruct (fr_left _)|].
    by rewrite MatchBook_stop.
Qed.

(** The book, index, remainder and trades of [Match] are those of the reference
    algorithm on the flattened book, whatever the handler does with the trades. *)
Lemma MatchBook_refines comp fuel priceCrosses incoming book remaining :
  book_ok comp book → is_i64 (value remaining) → (length book < fuel)%nat →
  ∃ book', match_result comp fuel priceCrosses incoming book remaining
    (fill (priceCrosses (oa_price_ incoming)) (flatten book) (value remaining)) book'.
Proof.
  revert fuel remaining. induction book as [|[p level] book IH];
    intros fuel remaining Hok Hr Hf; (destruct fuel as [|fuel]; [simpl in Hf; lia|]).
  { exists []. by apply match_result_unchanged. }
  destruct (Z.leb_spec (value remaining) 0) as [Hz|Hpos].
  { rewrite fill_stop by done. exists ((p, level) :: book).
    apply match_result_unchanged; [done|]. intros. by apply MatchBook_stop. }
  pose proof (book_ok_volumes _ _ Hok) as Hvol.
  pose proof Hok as (Hbefore & (Hp & Hne & Hlv) & Hbook)%book_ok_cons.
  rewrite flatten_cons in *. apply Forall_app in Hvol as [Hvol1 Hvol2]. cbn in Hne, Hlv.
  destruct (priceCrosses (oa_price_ incoming) p) eqn:Hc; cycle 1.
  { assert (∀ l, fill (priceCrosses (oa_price_ incoming)) ((pair p <$> level) ++ l)
       (value remaining) = mkFillResult [] [] ((pair p <$> level) ++ l) (value remaining)) as ->.
    { intros l. destruct level as [|x level]; [done|]. cbn. by rewrite Hc, andb_false_r. }
    exists ((p, level) :: book). apply match_result_unchanged; [done|]. intros.
    cbn [MatchBook]. rewrite Hc. by destruct (st_gtb remaining _). }
  rewrite fill_app. rewrite (fill_ext _ (λ _, true) (pair p <$> level))
    by (intros y (r & -> & _)%list_elem_of_fmap; done). cbn zeta.
  destruct (decide (fr_left (fill (λ _, true) (pair p <$> level) (value remaining)) = []))
    as [Hleft|Hleft].
  - destruct (IH fuel (Strong (fr_remaining
      (fill (λ _, true) (pair p <$> level) (value remaining))))) as (book' & HM);
      [done|by apply fill_remaining_i64|simpl in *; lia|].
    exists book'. rewrite Hleft.
    exact (match_result_next comp fuel priceCrosses incoming p level book book' remaining _ _
      Hc Hlv ltac:(i64) eq_refl Hleft HM).
  - destruct fuel as [|fuel]; [simpl in Hf; lia|].
    pose proof (match_result_partial comp fuel priceCrosses incoming p level book remaining _
      Hc Hok ltac:(i64) eq_refl Hleft) as HM.
    exists ((p, snd <$> fr_left (fill (λ _, true) (pair p <$> level) (value remaining))) :: book).
    revert HM Hleft. by destruct (fr_left (fill _ (pair p <$> level) _)).
Qed.

(** ** Termination *)

(** Neither loop runs out of the fuel [Match] gives it, whatever volumes the book
    holds: each round uses up an order or a level, or the incoming order. *)
Lemma MatchLevel_terminates fuel incoming p level index remaining h :
  (∀ t h, onTrade t h ≠ OutOfFuel) → (length level < fuel)%nat →
  match MatchLevel onTrade fuel incoming p level index remaining h with
  | OutOfFuel => False
  | Ok (level', _, remaining', _) => level' = [] ∨ value remaining' ≤ 0
  | _ => True
  end.
Proof.
  intros HT. revert fuel index remaining h.
  induction level as [|x level IH]; intros fuel index remaining h Hf;
    (destruct fuel as [|fuel]; [simpl in Hf; lia|]); cbn [MatchLevel]; [by left|].
  strong. cbn [value]. destruct (Z.ltb_spec 0 (value remaining)) as [Hpos|]; [|by right].
  destruct (onTrade _ h) as [h'| | |] eqn:Et; cbn [mbind Outcome_bind]; try done; [|by apply HT in Et].
  destruct (st_sub_assign remaining _) as [rem'| | |] eqn:E1; cbn [mbind Outcome_bind]; try done; [|by apply st_sub_assign_fuel in E1].
  destruct (st_sub_assign (ro_volume_ x) _) as [v'| | |] eqn:E2; cbn [mbind Outcome_bind]; try done; [|by apply st_sub_assign_fuel in E2].
  apply st_sub_assign_inv in E1 as [E1 _]. apply st_sub_assign_inv in E2 as [E2 _]. strong. cbn [value].
  destruct (Z.eqb_spec (value v') 0) as [Hv|Hv]; [apply IH; simpl in *; lia|].
  destruct fuel as [|fuel]; [simpl in Hf; lia|]. rewrite MatchLevel_stop by lia.
  right. lia.
Qed.

Lemma MatchBook_terminates fuel priceCrosses incoming book index remaining h :
  (∀ t h, onTrade t h ≠ OutOfFuel) → (length book < fuel)%nat →
  MatchBook onTrade fuel priceCrosses incoming book index remaining h ≠ OutOfFuel.
Proof.
  intros HT. revert fuel index remaining h.
  induction book as [|[p level] book IH]; intros fuel index remaining h Hf;
    (destruct fuel as [|fuel]; [simpl in Hf; lia|]); [done|]. cbn [MatchBook].
  destruct (st_gtb remaining (Strong 0)); [|done].
  destruct (priceCrosses _ p); [|done]. cbn [negb].
  pose proof (MatchLevel_terminates (S (length level)) incoming p level index remaining h HT
    ltac:(lia)) as Hl.
  destruct (MatchLevel _ _ _ _ _ _ _ _) as [[[[level' index'] rem'] h']| | |];
    cbn [mbind Outcome_bind]; try done.
  destruct level' as [|y level']; [apply IH; simpl in *; lia|].
  destruct Hl as [?|Hl]; [done|]. destruct fuel as [|fuel]; [simpl in Hf; lia|].
  by rewrite MatchBook_stop.
Qed.
End MatchRefinement.
