(* ===== verification/EngineSpec.v ===== *)
(** * The engine's contract: two priority lists

    The abstract state of an engine is its two priority lists.  [spec_add] and
    [spec_remove] are what an order and a cancel do to it.  The handlers of
    [MatchingEngine] refine them: the book they leave is the abstract one, and
    the trade handler is run on the abstract trades, in order. *)

From S2P Require Import Prelude Interfaces CoreTypes Seqlock FlatMap MatchingEngine BookSpec EngineRefinement.

Local Open Scope Z_scope.

Record AbstractBook := mkAbstract {
  ab_bids : list Entry;
  ab_asks : list Entry;
}.

Definition abs {Index} (e : MatchingEngine Index) : AbstractBook :=
  mkAbstract (flatten (bids_ e)) (flatten (asks_ e)).

(** Whether an incoming order on [side] with limit [limit] accepts [p]. *)
Definition accepts (side : Side) (limit p : Price) : bool :=
  match side with Buy => st_geb limit p | Sell => st_leb limit p end.

Definition rest_remainder {Ticker} (comp : Price → Price → bool) (o : OrderAdd Ticker)
    (remaining : Z) (l : list Entry) : list Entry :=
  if 0 <? remaining
  then rest_at comp (oa_price_ o,
         mkResting (oa_orderId_ o) (oa_userId_ o) (Strong remaining)) l
  else l.

(** The side of the book an incoming order trades with, and the reference match. *)
Definition opposite_side (side : Side) (b : AbstractBook) : list Entry :=
  match side with Buy => ab_asks b | Sell => ab_bids b end.

Definition spec_match {Ticker} (o : OrderAdd Ticker) (b : AbstractBook) : FillResult :=
  fill (accepts (oa_side_ o) (oa_price_ o)) (opposite_side (oa_side_ o) b)
    (value (oa_volume_ o)).

Definition spec_add {Ticker} (o : OrderAdd Ticker) (b : AbstractBook) : AbstractBook :=
  let r := spec_match o b in
  match oa_side_ o with
  | Buy => mkAbstract (rest_remainder bids_comp o (fr_remaining r) (ab_bids b)) (fr_left r)
  | Sell => mkAbstract (fr_left r) (rest_remainder asks_comp o (fr_remaining r) (ab_asks b))
  end.

Definition spec_trades {Ticker} (o : OrderAdd Ticker) (b : AbstractBook) : list (Trade Ticker) :=
  trade_of o <$> fr_fills (spec_match o b).

Definition spec_remove (loc : OrderLocation) (id : OrderId) (b : AbstractBook) : AbstractBook :=
  match ol_side_ loc with
  | Buy => mkAbstract (remove_at (ol_price_ loc) id (ab_bids b)) (ab_asks b)
  | Sell => mkAbstract (ab_bids b) (remove_at (ol_price_ loc) id (ab_asks b))
  end.

(** ** Rest and EraseFromBook *)

Section BookOps.
Context (comp : Price → Price → bool) `{!PriceOrder comp}.
Implicit Types (book : Book).

Lemma rest_at_skip x l1 l2 :
  Forall (λ y : Entry, comp x.1 y.1 = false) l1 →
  rest_at comp x (l1 ++ l2) = l1 ++ rest_at comp x l2.
Proof. induction 1 as [|y l1 Hy _ IH]; simpl; [done|]. by rewrite Hy, IH. Qed.

Lemma rest_at_front x l :
  Forall (λ y : Entry, comp x.1 y.1 = true) l → rest_at comp x l = x :: l.
Proof. destruct 1 as [|y l Hy _]; simpl; [done|]. by rewrite Hy. Qed.

Lemma fm_before_flatten p book :
  fm_before comp p book → Forall (λ y : Entry, comp p y.1 = true) (flatten book).
Proof.
  intros H. apply Forall_flatten. eapply Forall_impl; [exact H|].
  intros [p' level] Hp. simpl in *. by apply Forall_forall.
Qed.

Lemma flatten_rest p x book : book_ok comp book →
  flatten (fm_subscript comp [] p (λ level, level ++ [x]) book) =
  rest_at comp (p, x) (flatten book).
Proof.
  induction book as [|[p' level] book IH]; [done|].
  intros (Hb & (_ & Hne & _) & Hok)%book_ok_cons. cbn [fm_subscript].
  destruct (comp p' p) eqn:E1; [|destruct (comp p p') eqn:E2]; rewrite !flatten_cons.
  - rewrite rest_at_skip, IH; [done..|]. apply Forall_fmap, Forall_forall.
    intros r _. simpl. by apply po_asym.
  - rewrite rest_at_front; [done|]. rewrite <-flatten_cons. apply fm_before_flatten.
    constructor; [done|]. by eapply fm_before_mono.
  - assert (p' = p) as -> by eauto using po_total.
    rewrite rest_at_skip, rest_at_front, fmap_app, <-(assoc_L (++)); [done| |].
    + by apply fm_before_flatten.
    + apply Forall_fmap, Forall_forall. intros r _. done.
Qed.

Lemma rest_book_ok p x book : book_ok comp book → is_i64 (value p) → ro_ok x →
  book_ok comp (fm_subscript comp [] p (λ level, level ++ [x]) book).
Proof.
  intros [Hs Hok] Hp Hx. split; [by apply fm_subscript_sorted|]. clear Hs.
  induction Hok as [|[p' level] book Hl Hok IH]; simpl.
  { constructor; [|done]. split_and!; [done|done|by apply Forall_singleton]. }
  destruct (comp p' p); [by constructor|]. destruct (comp p p').
  - constructor; [|by constructor]. split_and!; [done|done|by apply Forall_singleton].
  - constructor; [|done]. destruct Hl as (? & ? & ?). cbn in *. split_and!; cbn; [done| |].
    + by destruct level.
    + apply Forall_app. split; [done|by apply Forall_singleton].
Qed.

Lemma flatten_app book1 book2 : flatten (book1 ++ book2) = flatten book1 ++ flatten book2.
Proof. unfold flatten. by rewrite fmap_app, join_app. Qed.

Lemma remove_at_other p id book :
  Forall (λ kl : Price * PriceLevel, kl.1 ≠ p) book → remove_at p id (flatten book) = flatten book.
Proof.
  intros H. apply filter_keep_all, Forall_forall. intros [q r] Hx [E _]. cbn in E. subst q. apply elem_of_flatten in Hx as (level & Hin & _).
  rewrite Forall_forall in H. by apply (H _ Hin).
Qed.

Lemma remove_at_level p id level :
  remove_at p id (pair p <$> level) = pair p <$> filter (λ o, ro_orderId_ o ≠ id) level.
Proof.
  unfold remove_at. induction level as [|r level IH]; [done|]. csimpl.
  destruct (decide (ro_orderId_ r = id)) as [E|E].
  - rewrite !filter_cons_False by (cbn; tauto). apply IH.
  - rewrite !filter_cons_True by (cbn; unfold entry_id; cbn; tauto). csimpl. by rewrite IH.
Qed.

Lemma flatten_erase p id book : fm_sorted comp book →
  flatten (EraseFromBook comp book p id) = remove_at p id (flatten book).
Proof.
  intros Hs. unfold EraseFromBook. destruct (fm_find comp p book) as [level|] eqn:E.
  - destruct (fm_find_split comp p level book Hs E) as (pre & post & -> & Hne & He & Hu).
    apply Forall_app in Hne as [Hn1 Hn2].
    transitivity (flatten pre ++ remove_at p id (pair p <$> level) ++ flatten post).
    { rewrite remove_at_level. destruct (filter _ level) as [|r l] eqn:Ef.
      - by rewrite He, flatten_app.
      - by rewrite Hu, flatten_app, flatten_cons. }
    rewrite flatten_app, flatten_cons. unfold remove_at. rewrite !filter_app.
    fold (remove_at p id (flatten pre)) (remove_at p id (flatten post)).
    by rewrite !remove_at_other.
  - symmetry. apply remove_at_other. apply Forall_forall. intros [q level] Hin <-.
    simpl in *. apply (fm_find_elem comp) in Hin; [congruence|done].
Qed.

Lemma erase_book_ok p id book : book_ok comp book → book_ok comp (EraseFromBook comp book p id).
Proof.
  intros [Hs Hok]. unfold EraseFromBook.
  destruct (fm_find comp p book) as [level|] eqn:E; [|done].
  destruct (fm_find_split comp p level book Hs E) as (pre & post & Hm & _ & He & Hu).
  assert (Forall ro_ok (filter (λ o, ro_orderId_ o ≠ id) level)) as Hf.
  { subst book. apply Forall_app in Hok as [_ [(_ & _ & Hl) _]%Forall_cons].
    by apply Forall_filter_sub. }
  destruct (filter _ level) as [|r l].
  - split; [by apply fm_erase_sorted|]. rewrite He. subst book.
    apply Forall_app in Hok as [? [_ ?]%Forall_cons]. by apply Forall_app.
  - split; [by apply fm_update_sorted|]. rewrite Hu. subst book.
    apply Forall_app in Hok as [? [(Hp & _ & _) ?]%Forall_cons].
    apply Forall_app. split; [done|]. constructor; [|done]. by split_and!.
Qed.
End BookOps.

#[export] Instance bids_order : PriceOrder bids_comp := greater_order.
#[export] Instance asks_order : PriceOrder asks_comp := less_order.

(** ** The handlers *)

Section Handlers.
Context {Ticker Index : Type} `{!OrderIndexType Index}.
Implicit Types (e : MatchingEngine Index) (o : OrderAdd Ticker) (c : OrderCancel Ticker).

Definition books_ok e : Prop := book_ok bids_comp (bids_ e) ∧ book_ok asks_comp (asks_ e).

(** The index after an order went through the match [r]. *)
Definition add_index o (r : FillResult) (index : Index) : Index :=
  let index := erase_all index (fr_filled r) in
  if 0 <? fr_remaining r
  then um_set (oa_orderId_ o) (mkLocation (oa_side_ o) (oa_price_ o) (oa_userId_ o)) index
  else index.

(** The engine between the match and the mid price update: the remainder, if any,
    rests. *)
Definition settle_remainder o (remaining : Z) e : MatchingEngine Index :=
  if 0 <? remaining then Rest o (Strong remaining) e else e.

Lemma settle_remainder_ok o remaining e :
  books_ok e → is_i64 (value (oa_price_ o)) → is_i64 remaining →
  books_ok (settle_remainder o remaining e).
Proof.
  intros [Hb Ha] Hp Hr. unfold settle_remainder.
  destruct (Z.ltb_spec 0 remaining); [|by split].
  unfold Rest. destruct (oa_side_ o); split; simpl; try done;
    apply rest_book_ok; try done; unfold ro_ok; cbn [value ro_volume_]; first [apply _ | i64].
Qed.

Lemma settle_remainder_abs o remaining e : books_ok e →
  abs (settle_remainder o remaining e) =
  match oa_side_ o with
  | Buy => mkAbstract (rest_remainder bids_comp o remaining (flatten (bids_ e))) (flatten (asks_ e))
  | Sell => mkAbstract (flatten (bids_ e)) (rest_remainder asks_comp o remaining (flatten (asks_ e)))
  end.
Proof.
  intros [Hb Ha]. unfold settle_remainder, rest_remainder.
  destruct (0 <? remaining); [|by destruct (oa_side_ o)].
  unfold Rest, abs. destruct (oa_side_ o); cbn [bids_ asks_].
  - by rewrite (flatten_rest bids_comp).
  - by rewrite (flatten_rest asks_comp).
Qed.

Lemma settle_remainder_index o r index bids asks mid :
  orderIndex_ (settle_remainder o (fr_remaining r) (mkEngine bids asks
    (erase_all index (fr_filled r)) mid)) = add_index o r index.
Proof.
  unfold settle_remainder, add_index. destruct (0 <? fr_remaining r); [|done].
  unfold Rest. by destruct (oa_side_ o).
Qed.

Lemma settle_remainder_mid o remaining e :
  midPrice_ (settle_remainder o remaining e) = midPrice_ e.
Proof.
  unfold settle_remainder. destruct (0 <? remaining); [|done].
  unfold Rest. by destruct (oa_side_ o).
Qed.

(** The engine after the match: the opposite side is what the reference match
    leaves, its filled orders are gone from the index. *)
Definition after_match o e (left : Book) : MatchingEngine Index :=
  let index := erase_all (orderIndex_ e) (fr_filled (spec_match o (abs e))) in
  match oa_side_ o with
  | Buy => mkEngine (bids_ e) left index (midPrice_ e)
  | Sell => mkEngine left (asks_ e) index (midPrice_ e)
  end.

Lemma OnOrderAdd_match {H} (onTrade : Trade Ticker → H → Outcome H) o e :
  books_ok e → order_in_range o →
  ∃ left, books_ok (after_match o e left) ∧ flatten left = fr_left (spec_match o (abs e)) ∧
    ∀ h, OnOrderAdd onTrade o e h =
      (h' ← foldM onTrade (spec_trades o (abs e)) h;
       e2 ← UpdateMidPrice (settle_remainder o (fr_remaining (spec_match o (abs e)))
              (after_match o e left)); Ok (e2, h')).
Proof.
  intros [Hb Ha] (_ & _ & Hp & Hv).
  unfold OnOrderAdd, Match, settle_remainder, after_match, spec_trades, spec_match.
  destruct (oa_side_ o) eqn:Es; cbn [opposite_side abs ab_asks ab_bids accepts].
  - destruct (MatchBook_refines onTrade asks_comp (S (length (asks_ e)))
      (λ buyPrice askPrice, st_geb buyPrice askPrice) o (asks_ e) (oa_volume_ o))
      as (asks' & Hok' & Hfl & _ & HM); [done..|lia|].
    exists asks'. split_and!; try done. intros h. rewrite HM, !bind_assoc.
    apply bind_ext. intros h' _. cbn [mbind Outcome_bind]. by strong.
  - destruct (MatchBook_refines onTrade bids_comp (S (length (bids_ e)))
      (λ sellPrice bidPrice, st_leb sellPrice bidPrice) o (bids_ e) (oa_volume_ o))
      as (bids' & Hok' & Hfl & _ & HM); [done..|lia|].
    exists bids'. split_and!; try done. intros h. rewrite HM, !bind_assoc.
    apply bind_ext. intros h' _. cbn [mbind Outcome_bind]. by strong.
Qed.

Lemma spec_match_remaining o e :
  books_ok e → order_in_range o → is_i64 (fr_remaining (spec_match o (abs e))).
Proof.
  intros [Hb Ha] (_ & _ & _ & Hv). apply fill_remaining_i64; [|done].
  destruct (oa_side_ o); eapply book_ok_volumes; done.
Qed.

(** [OnOrderAdd], up to the mid price update, is [spec_add]: some engine [e1] with
    the abstract book of [spec_add] and the index of [add_index] is what the mid
    price is computed on, and the handler runs on [spec_trades]. *)
Lemma OnOrderAdd_refines {H} (onTrade : Trade Ticker → H → Outcome H) o e :
  books_ok e → order_in_range o →
  ∃ e1, books_ok e1 ∧ abs e1 = spec_add o (abs e) ∧
    orderIndex_ e1 = add_index o (spec_match o (abs e)) (orderIndex_ e) ∧
    midPrice_ e1 = midPrice_ e ∧
    ∀ h, OnOrderAdd onTrade o e h =
      (h' ← foldM onTrade (spec_trades o (abs e)) h; e2 ← UpdateMidPrice e1; Ok (e2, h')).
Proof.
  intros Hok Ho. destruct (OnOrderAdd_match onTrade o e Hok Ho) as (left & Hok' & Hfl & Hrun).
  exists (settle_remainder o (fr_remaining (spec_match o (abs e))) (after_match o e left)).
  split_and!; [| | | |done].
  - apply settle_remainder_ok; [done|apply Ho|by apply spec_match_remaining].
  - rewrite settle_remainder_abs by done. unfold spec_add, after_match.
    destruct (oa_side_ o); cbn [bids_ asks_ abs ab_bids ab_asks]; by rewrite Hfl.
  - unfold after_match. destruct (oa_side_ o); apply settle_remainder_index.
  - rewrite settle_remainder_mid. unfold after_match. by destruct (oa_side_ o).
Qed.

(** ** UpdateMidPrice *)

(** The reference mid price of the top of the book. *)
Definition top_mid e : option Z :=
  match bids_ e, asks_ e with
  | (bid, _) :: _, (ask, _) :: _ => Some (Z.quot (value bid + value ask) 2)
  | (bid, _) :: _, [] => Some (value bid)
  | [], (ask, _) :: _ => Some (value ask)
  | [], [] => None
  end.

(** The sum of the best prices fits: computing their mid is defined. *)
Definition mid_defined e : Prop :=
  match bids_ e, asks_ e with
  | (bid, _) :: _, (ask, _) :: _ => is_i64 (value bid + value ask)
  | _, _ => True
  end.

#[export] Instance mid_defined_dec e : Decision (mid_defined e).
Proof. unfold mid_defined. repeat case_match; apply _. Defined.

Lemma UpdateMidPrice_Ok e : mid_defined e →
  UpdateMidPrice e = Ok (match top_mid e with
    | Some m => mkEngine (bids_ e) (asks_ e) (orderIndex_ e) (Store (Some (Strong m)) (midPrice_ e))
    | None => e
    end).
Proof.
  unfold UpdateMidPrice, mid_defined, top_mid.
  destruct (bids_ e) as [|[bid ?] ?], (asks_ e) as [|[ask ?] ?]; intros Hm; try done.
  - by destruct ask.
  - by destruct bid.
  - unfold i64_add, i64_div. rewrite i64_result_Ok by done. cbn [mbind Outcome_bind Z.eqb].
    rewrite i64_result_Ok; [done|]. revert Hm. generalize (value bid + value ask). intros z Hz.
    pose proof (Z.quot_rem' z 2). pose proof (Z.rem_bound_abs z 2 ltac:(lia)). i64.
Qed.

Lemma UpdateMidPrice_Undefined e : ¬ mid_defined e → UpdateMidPrice e = Undefined.
Proof.
  unfold UpdateMidPrice, mid_defined.
  destruct (bids_ e) as [|[bid ?] ?], (asks_ e) as [|[ask ?] ?]; intros Hm; try by destruct Hm.
  unfold i64_add, i64_result. destruct (i64b _) eqn:E; [|done]. by apply i64b_spec in E.
Qed.

(** [OnOrderCancel], when the order is known and the cancel is its owner's, is
    [spec_remove] at the order's location. *)
Lemma OnOrderCancel_refines c e loc :
  books_ok e → um_find (oc_orderId_ c) (orderIndex_ e) = Some loc →
  ol_userId_ loc = oc_userId_ c →
  ∃ e1, books_ok e1 ∧ abs e1 = spec_remove loc (oc_orderId_ c) (abs e) ∧
    orderIndex_ e1 = um_erase (oc_orderId_ c) (orderIndex_ e) ∧
    midPrice_ e1 = midPrice_ e ∧ OnOrderCancel c e = UpdateMidPrice e1.
Proof.
  intros [Hb Ha] Hfind Huser. unfold OnOrderCancel, spec_remove. rewrite Hfind.
  rewrite Huser. strong. rewrite Z.eqb_refl. cbn [negb].
  destruct (ol_side_ loc); eexists; (split_and!; [| | | |reflexivity]); try done.
  - split; [|done]. by apply (erase_book_ok bids_comp).
  - unfold abs. cbn [bids_ asks_ ab_bids ab_asks]. by rewrite (flatten_erase bids_comp) by apply Hb.
  - split; [done|]. by apply (erase_book_ok asks_comp).
  - unfold abs. cbn [bids_ asks_ ab_bids ab_asks]. by rewrite (flatten_erase asks_comp) by apply Ha.
Qed.
End Handlers.
