(* ===== verification/EngineInvariant.v ===== *)
(** * Invariants of the matching engine

    [engine_ok] holds of every engine whatever the clients send: both books are
    well-formed, they do not cross, and the published mid price is settled.
    [index_ok] is the agreement of the books and the order index; it needs the
    ids of the orders that rest to be distinct. *)

From Stdlib Require Import Sorting.Sorted.
From S2P Require Import Prelude Interfaces CoreTypes Seqlock FlatMap MatchingEngine BookSpec EngineRefinement EngineSpec.

Local Open Scope Z_scope.

(** ** Priority order and crossing *)

(** Best price first. *)
Definition prio (comp : Price → Price → bool) (x y : Entry) : Prop := comp y.1 x.1 = false.

Lemma flatten_sorted comp `{!PriceOrder comp} book :
  fm_sorted comp book → StronglySorted (prio comp) (flatten book).
Proof.
  induction book as [|[p level] book IH]; [constructor|]. intros [Hb Hs].
  rewrite flatten_cons. specialize (IH Hs).
  apply (fm_before_flatten comp) in Hb. clear Hs.
  induction level as [|r level IHl]; csimpl; [done|]. constructor; [done|].
  apply Forall_app. split.
  - apply Forall_fmap, Forall_forall. intros r' _. unfold prio. cbn. apply po_irrefl.
  - eapply Forall_impl; [exact Hb|]. intros y Hy. unfold prio. by apply po_asym.
Qed.

(** Once matching stops with volume left, nothing that remains is acceptable. *)
Lemma fill_rejects_rest crosses l remaining :
  StronglySorted (λ x y : Entry, crosses y.1 = true → crosses x.1 = true) l →
  0 < fr_remaining (fill crosses l remaining) →
  Forall (λ x : Entry, crosses x.1 = false) (fr_left (fill crosses l remaining)).
Proof.
  intros Hs. revert remaining. induction Hs as [|x l Hs IH Hx]; intros remaining; cbn; [done|].
  destruct (Z.ltb_spec 0 remaining), (crosses x.1) eqn:E; cbn; try lia.
  - destruct (entry_volume x <=? remaining); cbn; [apply IH|lia].
  - intros _. constructor; [done|]. eapply Forall_impl; [exact Hx|].
    intros y Hy. cbn in Hy. destruct (crosses y.1); [|done]. by specialize (Hy eq_refl).
Qed.

Lemma accepts_prio side limit x y :
  prio (match side with Buy => asks_comp | Sell => bids_comp end) x y →
  accepts side limit y.1 = true → accepts side limit x.1 = true.
Proof.
  unfold prio, accepts, asks_comp, bids_comp. destruct side; strong; zbool; done || lia.
Qed.

Lemma StronglySorted_weaken {A} (R S : A → A → Prop) l :
  (∀ x y, R x y → S x y) → StronglySorted R l → StronglySorted S l.
Proof.
  intros HRS. induction 1 as [|x l _ IH Hx]; constructor; [done|].
  eapply Forall_impl; [exact Hx|]. auto.
Qed.

Definition side_list (side : Side) (b : AbstractBook) : list Entry :=
  match side with Buy => ab_bids b | Sell => ab_asks b end.

(** Every bid is below every ask. *)
Definition uncrossed (b : AbstractBook) : Prop :=
  ∀ x y : Entry, x ∈ ab_bids b → y ∈ ab_asks b → value x.1 < value y.1.

Definition book_sorted (b : AbstractBook) : Prop :=
  StronglySorted (prio bids_comp) (ab_bids b) ∧ StronglySorted (prio asks_comp) (ab_asks b).

Section AbstractAdd.
Context {Ticker : Type}.
Implicit Types (o : OrderAdd Ticker) (b : AbstractBook).

Lemma spec_match_rejects o b : book_sorted b → 0 < fr_remaining (spec_match o b) →
  Forall (λ x : Entry, accepts (oa_side_ o) (oa_price_ o) x.1 = false) (fr_left (spec_match o b)).
Proof.
  intros [Hb Ha]. apply fill_rejects_rest.
  eapply StronglySorted_weaken; [apply accepts_prio|]. by destruct (oa_side_ o).
Qed.

Lemma elem_of_rest_remainder comp o remaining l x :
  x ∈ rest_remainder comp o remaining l →
  x ∈ l ∨ (x.1 = oa_price_ o ∧ 0 < remaining).
Proof.
  unfold rest_remainder. destruct (Z.ltb_spec 0 remaining); [|by left].
  intros [->|?]%elem_of_rest_at; [by right|by left].
Qed.

Lemma spec_add_uncrossed o b : book_sorted b → uncrossed b → uncrossed (spec_add o b).
Proof.
  intros Hs Hu x y. pose proof (spec_match_rejects o b Hs) as Hrej.
  unfold spec_add, spec_match, accepts in *. destruct (oa_side_ o);
    cbn [ab_bids ab_asks opposite_side] in *.
  - intros [Hx|[-> Hr]]%elem_of_rest_remainder Hy.
    + apply fill_left_elem in Hy as (z & ? & E & _). rewrite E. by apply Hu.
    + specialize (Hrej Hr). rewrite Forall_forall in Hrej. specialize (Hrej y Hy).
      cbv beta in Hrej. strong. zbool; [done|lia].
  - intros Hx [Hy|[-> Hr]]%elem_of_rest_remainder.
    + apply fill_left_elem in Hx as (z & ? & -> & _). by apply Hu.
    + specialize (Hrej Hr). rewrite Forall_forall in Hrej. specialize (Hrej x Hx).
      cbv beta in Hrej. strong. zbool; [done|lia].
Qed.

Lemma remove_at_subset p id l x : x ∈ remove_at p id l → x ∈ l.
Proof. by intros [_ ?]%list_elem_of_filter. Qed.

Lemma spec_remove_uncrossed loc id b : uncrossed b → uncrossed (spec_remove loc id b).
Proof.
  intros Hu x y. unfold spec_remove. destruct (ol_side_ loc); cbn; intros Hx Hy;
    apply Hu; eauto using remove_at_subset.
Qed.

(** ** When the mid price is defined *)

(** The best bid and the best ask, if there are both, have a sum of 64 bits. *)
Definition mid_fits b : Prop :=
  match ab_bids b, ab_asks b with
  | (bid, _) :: _, (ask, _) :: _ => is_i64 (value bid + value ask)
  | _, _ => True
  end.

#[export] Instance mid_fits_dec b : Decision (mid_fits b).
Proof. unfold mid_fits. repeat case_match; apply _. Defined.

(** Prices below 2^62 in size, with which it always is. *)
Definition price_small (p : Price) : Prop := - 2 ^ 62 ≤ value p < 2 ^ 62.

#[export] Instance price_small_dec p : Decision (price_small p).
Proof. unfold price_small. apply _. Defined.

Definition prices_small b : Prop :=
  Forall (λ x : Entry, price_small x.1) (ab_bids b ++ ab_asks b).

Lemma spec_add_small o b :
  prices_small b → price_small (oa_price_ o) → prices_small (spec_add o b).
Proof.
  unfold prices_small. rewrite !Forall_forall. intros Hs Ho x.
  unfold spec_add, spec_match. destruct (oa_side_ o);
    cbn [ab_bids ab_asks opposite_side]; rewrite elem_of_app.
  - intros [[?|[-> _]]%elem_of_rest_remainder|(z & ? & -> & _)%fill_left_elem];
      [apply Hs, elem_of_app; by left|done|apply Hs, elem_of_app; by right].
  - intros [(z & ? & -> & _)%fill_left_elem|[?|[-> _]]%elem_of_rest_remainder];
      [apply Hs, elem_of_app; by left|apply Hs, elem_of_app; by right|done].
Qed.

Lemma prices_small_mid_fits b : prices_small b → mid_fits b.
Proof.
  unfold prices_small, mid_fits. destruct (ab_bids b) as [|[p r] bids]; [done|].
  destruct (ab_asks b) as [|[q r'] asks]; [done|].
  intros [[Hp _]%Forall_cons [Hq _]%Forall_cons]%Forall_app. unfold price_small in *.
  cbn in *. i64.
Qed.

Lemma spec_remove_small loc id b : prices_small b → prices_small (spec_remove loc id b).
Proof.
  unfold prices_small. rewrite !Forall_forall. intros Hs x.
  unfold spec_remove. destruct (ol_side_ loc); cbn [ab_bids ab_asks]; rewrite elem_of_app;
    intros [Hx|Hx]; apply Hs, elem_of_app; eauto using remove_at_subset.
Qed.
End AbstractAdd.

(** ** The engine invariant *)

Section EngineOk.
Context {Ticker Index : Type} `{!OrderIndexType Index}.
Implicit Types (e : MatchingEngine Index) (o : OrderAdd Ticker) (c : OrderCancel Ticker).

Definition engine_ok e : Prop :=
  books_ok e ∧ uncrossed (abs e) ∧ settled (midPrice_ e).

Lemma books_ok_sorted e : books_ok e → book_sorted (abs e).
Proof.
  intros [[Hb _] [Ha _]]. split; cbn; [apply (flatten_sorted bids_comp)|apply (flatten_sorted asks_comp)]; done.
Qed.

Lemma engine_init_ok : engine_ok engine_init.
Proof.
  split_and!; [by repeat constructor| |apply settled_init]. intros x y H. by apply elem_of_nil in H.
Qed.

(** The first order of a well-formed book is in its list. *)
Lemma head_in_flatten comp p level book :
  book_ok comp ((p, level) :: book) → ∃ r, (p, r) ∈ flatten ((p, level) :: book).
Proof.
  intros (_ & (_ & Hne & _) & _)%book_ok_cons. destruct level as [|r level]; [done|].
  exists r. rewrite flatten_cons. set_solver.
Qed.

(** The top of the books is the front of the two lists. *)
Lemma mid_defined_fits e : books_ok e → mid_defined e ↔ mid_fits (abs e).
Proof.
  intros [Hb Ha]. unfold mid_defined, mid_fits, abs. cbn [ab_bids ab_asks].
  destruct (bids_ e) as [|[p [|r lp]] bids]; [done| |];
    apply book_ok_cons in Hb as (_ & (_ & Hne & _) & _); [done|].
  destruct (asks_ e) as [|[q [|r' lq]] asks]; [done| |];
    apply book_ok_cons in Ha as (_ & (_ & Hne' & _) & _); done.
Qed.

Lemma UpdateMidPrice_ok e : engine_ok e → mid_defined e →
  ∃ e', UpdateMidPrice e = Ok e' ∧ engine_ok e' ∧ abs e' = abs e ∧
    orderIndex_ e' = orderIndex_ e.
Proof.
  intros (Hb & Hu & Hm) Hd. eexists. split; [by apply UpdateMidPrice_Ok|].
  destruct (top_mid e); [|done]. split; [|done]. split_and!; [done..|].
  by apply Store_settled.
Qed.

(** The last step of both handlers, on an engine that is well-formed but for the mid. *)
Lemma UpdateMidPrice_total e b : engine_ok e → abs e = b →
  ∃ e', engine_ok e' ∧ abs e' = b ∧ orderIndex_ e' = orderIndex_ e ∧
    UpdateMidPrice e = if decide (mid_fits b) then Ok e' else Undefined.
Proof.
  intros Hok <-. pose proof (mid_defined_fits e (proj1 Hok)) as Hd.
  case_decide as Hf.
  - destruct (UpdateMidPrice_ok e Hok) as (e' & ? & ? & ? & ?); [by apply Hd|]. eauto.
  - exists e. split_and!; try done; [apply Hok..|]. apply UpdateMidPrice_Undefined. by rewrite Hd.
Qed.

(** The whole of [OnOrderAdd]: the handler is run on the trades of [spec_trades],
    the books become those of [spec_add], and the mid price is computed, which is
    undefined exactly if the best prices of the new books have too large a sum. *)
Lemma OnOrderAdd_total {H} (onTrade : Trade Ticker → H → Outcome H) o e :
  engine_ok e → order_in_range o →
  ∃ e', engine_ok e' ∧ abs e' = spec_add o (abs e) ∧
    orderIndex_ e' = add_index o (spec_match o (abs e)) (orderIndex_ e) ∧
    ∀ h, OnOrderAdd onTrade o e h =
      (h' ← foldM onTrade (spec_trades o (abs e)) h;
       if decide (mid_fits (spec_add o (abs e))) then Ok (e', h') else Undefined).
Proof.
  intros (Hb & Hu & Hm) Ho.
  destruct (OnOrderAdd_refines onTrade o e Hb Ho) as (e1 & Hb1 & Habs & Hidx & Hmid & Hrun).
  assert (engine_ok e1) as Hok1.
  { split_and!; [done| |by rewrite Hmid]. rewrite Habs.
    apply spec_add_uncrossed; [by apply books_ok_sorted|done]. }
  destruct (UpdateMidPrice_total e1 _ Hok1 Habs) as (e' & Hok' & Habs' & Hidx' & HU).
  exists e'. rewrite Hidx'. split_and!; [done..|].
  intros h. rewrite Hrun, HU. destruct (foldM _ _ h); try done. by case_decide.
Qed.

(** With prices that keep the mid defined it succeeds whenever the handler does. *)
Lemma OnOrderAdd_ok {H} (onTrade : Trade Ticker → H → Outcome H) o e :
  engine_ok e → prices_small (abs e) → order_in_range o → price_small (oa_price_ o) →
  ∃ e', engine_ok e' ∧ prices_small (abs e') ∧ abs e' = spec_add o (abs e) ∧
    orderIndex_ e' = add_index o (spec_match o (abs e)) (orderIndex_ e) ∧
    ∀ h, OnOrderAdd onTrade o e h =
      (h' ← foldM onTrade (spec_trades o (abs e)) h; Ok (e', h')).
Proof.
  intros Hok Hs Ho Hp. pose proof (spec_add_small o (abs e) Hs Hp) as Hs1.
  destruct (OnOrderAdd_total onTrade o e Hok Ho) as (e' & ? & Ha & ? & HR).
  exists e'. rewrite Ha. split_and!; [done..|].
  intros h. rewrite HR. destruct (foldM _ _ h); try done. cbn [mbind Outcome_bind].
  by rewrite decide_True by by apply prices_small_mid_fits.
Qed.

(** A cancel of a resting order by its owner. *)
Lemma OnOrderCancel_accepted c e loc :
  engine_ok e → um_find (oc_orderId_ c) (orderIndex_ e) = Some loc →
  ol_userId_ loc = oc_userId_ c →
  ∃ e', engine_ok e' ∧ abs e' = spec_remove loc (oc_orderId_ c) (abs e) ∧
    orderIndex_ e' = um_erase (oc_orderId_ c) (orderIndex_ e) ∧
    OnOrderCancel c e =
      if decide (mid_fits (spec_remove loc (oc_orderId_ c) (abs e))) then Ok e' else Undefined.
Proof.
  intros (Hb & Hu & Hm) Ef Eu.
  destruct (OnOrderCancel_refines c e loc Hb Ef Eu) as (e1 & Hb1 & Habs & Hidx & Hmid & Hrun).
  assert (engine_ok e1) as Hok1.
  { split_and!; [done| |by rewrite Hmid]. rewrite Habs. by apply spec_remove_uncrossed. }
  destruct (UpdateMidPrice_total e1 _ Hok1 Habs) as (e' & Hok' & Habs' & Hidx' & HU).
  exists e'. by rewrite Hrun, Hidx', Hidx.
Qed.

(** Every cancel: it is ignored, or it is of a resting order by its owner. *)
Lemma OnOrderCancel_total c e : engine_ok e →
  OnOrderCancel c e = Ok e ∨
  ∃ loc e', um_find (oc_orderId_ c) (orderIndex_ e) = Some loc ∧
    ol_userId_ loc = oc_userId_ c ∧ engine_ok e' ∧
    abs e' = spec_remove loc (oc_orderId_ c) (abs e) ∧
    orderIndex_ e' = um_erase (oc_orderId_ c) (orderIndex_ e) ∧
    OnOrderCancel c e =
      if decide (mid_fits (spec_remove loc (oc_orderId_ c) (abs e))) then Ok e' else Undefined.
Proof.
  intros Hok. destruct (um_find (oc_orderId_ c) (orderIndex_ e)) as [loc|] eqn:Ef; cycle 1.
  { left. unfold OnOrderCancel. by rewrite Ef. }
  destruct (decide (ol_userId_ loc = oc_userId_ c)) as [Eu|Eu]; cycle 1.
  { left. unfold OnOrderCancel. rewrite Ef. strong.
    apply strong_ne, Z.eqb_neq in Eu. by rewrite Eu. }
  right. destruct (OnOrderCancel_accepted c e loc Hok Ef Eu) as (e' & ?).
  exists loc, e'. tauto.
Qed.

Lemma OnOrderCancel_ok c e :
  engine_ok e → prices_small (abs e) →
  ∃ e', OnOrderCancel c e = Ok e' ∧ engine_ok e' ∧ prices_small (abs e') ∧
    (e' = e ∨ ∃ loc, um_find (oc_orderId_ c) (orderIndex_ e) = Some loc ∧
      ol_userId_ loc = oc_userId_ c ∧ abs e' = spec_remove loc (oc_orderId_ c) (abs e) ∧
      orderIndex_ e' = um_erase (oc_orderId_ c) (orderIndex_ e)).
Proof.
  intros Hok Hs.
  destruct (OnOrderCancel_total c e Hok) as [?|(loc & e' & ? & ? & ? & Ha & ? & HR)]; [by exists e; auto|].
  pose proof (spec_remove_small loc (oc_orderId_ c) (abs e) Hs) as Hs1.
  rewrite decide_True in HR by by apply prices_small_mid_fits.
  exists e'. rewrite Ha. split_and!; [done..|]. right. by exists loc.
Qed.
End EngineOk.
