(* ===== verification/EngineIndex.v ===== *)
(** * The order index

    [index_ok]: the resting orders have distinct ids, and the index knows exactly
    them, each at its side, price and owner.  Orders with a fresh id preserve it,
    and so does every cancel. *)

From S2P Require Import Prelude Interfaces CoreTypes Seqlock FlatMap MatchingEngine BookSpec EngineRefinement EngineSpec EngineInvariant.

Local Open Scope Z_scope.

(** What identifies a resting order, apart from its volume. *)
Definition ekey (x : Entry) : OrderId * (Price * UserId) := (entry_id x, (x.1, ro_userId_ x.2)).

Definition keys (side : Side) (b : AbstractBook) : list (OrderId * (Price * UserId)) :=
  ekey <$> side_list side b.

Definition resting_ids (b : AbstractBook) : list OrderId :=
  (entry_id <$> ab_bids b) ++ (entry_id <$> ab_asks b).

(** Order [id] rests at [loc]. *)
Definition located (b : AbstractBook) (id : OrderId) (loc : OrderLocation) : Prop :=
  (id, (ol_price_ loc, ol_userId_ loc)) ∈ keys (ol_side_ loc) b.

Lemma keys_ids side b : (keys side b).*1 = entry_id <$> side_list side b.
Proof. unfold keys. rewrite <-list_fmap_compose. done. Qed.

Lemma located_id b id loc : located b id loc → id ∈ entry_id <$> side_list (ol_side_ loc) b.
Proof.
  unfold located. rewrite <-keys_ids. intros H. apply (list_elem_of_fmap_2 fst) in H.
  by cbn in H.
Qed.

Lemma located_resting b id loc : located b id loc → id ∈ resting_ids b.
Proof.
  intros H%located_id. unfold resting_ids. destruct (ol_side_ loc); set_solver.
Qed.

(** The keys that a match leaves. *)
Lemma fill_keys crosses l remaining :
  ∃ d, ekey <$> l = d ++ (ekey <$> fr_left (fill crosses l remaining)) ∧
       d.*1 = fr_filled (fill crosses l remaining).
Proof.
  destruct (fill_priority crosses l remaining) as (d & rest & -> & -> & Hr).
  exists (ekey <$> d). split; [|by rewrite <-list_fmap_compose].
  rewrite fmap_app. f_equal.
  destruct Hr as [[_ ->]|(x & rest' & n & -> & _ & _ & _ & ->)]; done.
Qed.

Lemma NoDup_app_disjoint {A} (l1 l2 : list A) x : NoDup (l1 ++ l2) → x ∈ l1 → x ∈ l2 → False.
Proof. intros (_ & H & _)%NoDup_app H1 H2. by apply (H x). Qed.

Lemma fill_keys_elem crosses l remaining k :
  NoDup (entry_id <$> l) →
  k ∈ ekey <$> fr_left (fill crosses l remaining) ↔
  k ∈ ekey <$> l ∧ k.1 ∉ fr_filled (fill crosses l remaining).
Proof.
  intros Hnd. destruct (fill_keys crosses l remaining) as (d & Hk & Hd).
  assert (entry_id <$> l = (ekey <$> l).*1) as Hl by (by rewrite <-list_fmap_compose).
  rewrite Hl, Hk, fmap_app in Hnd. rewrite Hk, <-Hd, elem_of_app. split.
  - intros Hin. split; [by right|]. intros Hf.
    eapply NoDup_app_disjoint; [exact Hnd|exact Hf|]. by apply (list_elem_of_fmap_2 fst).
  - intros [[Hin|Hin] Hf]; [|done]. destruct Hf. by apply (list_elem_of_fmap_2 fst).
Qed.

Section Index.
Context {Ticker Index : Type} `{!OrderIndexType Index} `{!OrderIndexLaws Index}.
Implicit Types (e : MatchingEngine Index) (o : OrderAdd Ticker) (c : OrderCancel Ticker)
  (index : Index) (b : AbstractBook).

(** The index knows exactly the resting orders of [b]. *)
Definition indexes index b : Prop :=
  NoDup (resting_ids b) ∧ ∀ id loc, um_find id index = Some loc ↔ located b id loc.

Definition index_ok e : Prop := indexes (orderIndex_ e) (abs e).

Lemma um_find_erase_all id index ids :
  um_find id (erase_all index ids) = if decide (id ∈ ids) then None else um_find id index.
Proof.
  revert index; induction ids as [|id' ids IH]; intros index.
  { cbn. case_decide as H; [by apply elem_of_nil in H|done]. }
  change (erase_all index (id' :: ids)) with (erase_all (um_erase id' index) ids).
  rewrite IH, um_find_erase. repeat case_decide; set_solver.
Qed.

Lemma um_find_add_index id o r index :
  um_find id (add_index o r index) =
  if decide (0 < fr_remaining r ∧ oa_orderId_ o = id)
  then Some (mkLocation (oa_side_ o) (oa_price_ o) (oa_userId_ o))
  else if decide (id ∈ fr_filled r) then None else um_find id index.
Proof.
  unfold add_index. destruct (Z.ltb_spec 0 (fr_remaining r)).
  - rewrite um_find_set, um_find_erase_all. repeat case_decide; tauto || done.
  - rewrite um_find_erase_all. repeat case_decide; lia || done.
Qed.

(** The keys on either side after an order. *)
Lemma spec_add_keys_own o b k :
  k ∈ keys (oa_side_ o) (spec_add o b) ↔
  k ∈ keys (oa_side_ o) b ∨
  (0 < fr_remaining (spec_match o b) ∧ k = (oa_orderId_ o, (oa_price_ o, oa_userId_ o))).
Proof.
  unfold keys, spec_add. destruct (oa_side_ o); cbn [side_list ab_bids ab_asks];
    unfold rest_remainder; destruct (Z.ltb_spec 0 (fr_remaining (spec_match o b)));
    rewrite ?rest_at_Permutation; csimpl; rewrite ?elem_of_cons; intuition lia.
Qed.

Lemma spec_add_keys_opposite o b k : NoDup (resting_ids b) →
  k ∈ keys (opposite (oa_side_ o)) (spec_add o b) ↔
  k ∈ keys (opposite (oa_side_ o)) b ∧ k.1 ∉ fr_filled (spec_match o b).
Proof.
  intros (Hb & _ & Ha)%NoDup_app. unfold keys, spec_add, spec_match.
  destruct (oa_side_ o); cbn [side_list opposite opposite_side ab_bids ab_asks];
    by apply fill_keys_elem.
Qed.

Lemma spec_match_filled o b id : id ∈ fr_filled (spec_match o b) →
  id ∈ entry_id <$> side_list (opposite (oa_side_ o)) b.
Proof.
  intros H. unfold spec_match in *.
  pose proof (fill_ids (accepts (oa_side_ o) (oa_price_ o)) (opposite_side (oa_side_ o) b)
    (value (oa_volume_ o))) as Hi. cbn zeta in Hi.
  destruct (oa_side_ o); cbn [side_list opposite opposite_side] in *; rewrite Hi; set_solver.
Qed.

Lemma spec_add_NoDup o b : NoDup (resting_ids b) → oa_orderId_ o ∉ resting_ids b →
  NoDup (resting_ids (spec_add o b)).
Proof.
  intros Hnd Hf. unfold resting_ids, spec_add, spec_match in *.
  destruct (oa_side_ o); cbn [ab_bids ab_asks opposite_side accepts].
  - set (r := fill _ _ _). pose proof (fill_ids (st_geb (oa_price_ o)) (ab_asks b)
      (value (oa_volume_ o)) : _ = fr_filled r ++ _) as Hi.
    rewrite Hi in Hnd, Hf. unfold rest_remainder. destruct (0 <? _).
    + rewrite rest_at_Permutation. csimpl. constructor; [set_solver|].
      rewrite (assoc_L (++)), (comm (++) (entry_id <$> ab_bids b)) in Hnd.
      rewrite <-(assoc_L (++)) in Hnd. by apply NoDup_app in Hnd as (_ & _ & ?).
    + rewrite (assoc_L (++)), (comm (++) (entry_id <$> ab_bids b)) in Hnd.
      rewrite <-(assoc_L (++)) in Hnd. by apply NoDup_app in Hnd as (_ & _ & ?).
  - set (r := fill _ _ _). pose proof (fill_ids (st_leb (oa_price_ o)) (ab_bids b)
      (value (oa_volume_ o)) : _ = fr_filled r ++ _) as Hi.
    rewrite Hi in Hnd, Hf. rewrite <-(assoc_L (++)) in Hnd.
    apply NoDup_app in Hnd as (_ & _ & Hnd).
    unfold rest_remainder. destruct (0 <? _); [|done].
    rewrite rest_at_Permutation. csimpl. rewrite <-Permutation_middle.
    constructor; [set_solver|done].
Qed.

Lemma resting_ids_disjoint side b id : NoDup (resting_ids b) →
  id ∈ entry_id <$> side_list side b → id ∈ entry_id <$> side_list (opposite side) b → False.
Proof.
  intros Hnd H1 H2. destruct side; cbn in *; eapply NoDup_app_disjoint; eauto.
Qed.

(** An order with a fresh id keeps the index in agreement with the books. *)
Lemma add_index_indexes o b index :
  indexes index b → oa_orderId_ o ∉ resting_ids b →
  indexes (add_index o (spec_match o b) index) (spec_add o b).
Proof.
  intros [Hnd Hix] Hfresh. split; [by apply spec_add_NoDup|]. intros id loc.
  rewrite um_find_add_index. unfold located.
  assert (∀ s p u, (oa_orderId_ o, (p, u)) ∉ keys s b) as Hnew.
  { intros s p u Hin. by apply Hfresh, (located_resting b _ (mkLocation s p u)). }
  assert (ol_side_ loc = oa_side_ o ∨ ol_side_ loc = opposite (oa_side_ o)) as Hside
    by (destruct (ol_side_ loc), (oa_side_ o); auto).
  case_decide as Hn; [destruct Hn as [Hr <-]|].
  { destruct Hside as [Es|Es]; rewrite Es.
    - rewrite spec_add_keys_own. destruct loc as [s p u]; cbn in *. subst s.
      split; [intros [= <- <-]; by right|].
      intros [?|[_ [= -> ->]]]; [by destruct (Hnew (oa_side_ o) p u)|done].
    - rewrite spec_add_keys_opposite by done. destruct loc as [s p u]; cbn in *. subst s.
      split; [intros [= E _ _]; by destruct (oa_side_ o)|].
      intros [? _]. by destruct (Hnew (opposite (oa_side_ o)) p u). }
  destruct Hside as [Es|Es]; rewrite Es.
  - rewrite spec_add_keys_own. case_decide as Hf.
    + split; [done|]. intros [Hin|[? [= -> _ _]]]; [|by destruct Hn].
      exfalso. eapply (resting_ids_disjoint (oa_side_ o) b id); [done| |by apply spec_match_filled].
      rewrite <-Es. apply located_id. unfold located. by rewrite Es.
    + rewrite Hix. unfold located. rewrite Es. split; [by left|].
      intros [?|[? [= -> _ _]]]; [done|by destruct Hn].
  - rewrite spec_add_keys_opposite by done. cbn [fst]. case_decide as Hf; [naive_solver|].
    rewrite Hix. unfold located. rewrite Es. naive_solver.
Qed.

(** A cancel removes exactly the cancelled order. *)
Lemma remove_at_keys p id l k :
  k ∈ ekey <$> remove_at p id l ↔ k ∈ ekey <$> l ∧ ¬ (k.2.1 = p ∧ k.1 = id).
Proof.
  unfold remove_at. rewrite !list_elem_of_fmap. split.
  - intros (x & -> & [Hx Hin]%list_elem_of_filter). eauto.
  - intros [(x & -> & Hin) Hx]. exists x. by rewrite list_elem_of_filter.
Qed.

Lemma remove_at_ids p id l : entry_id <$> remove_at p id l `sublist_of` entry_id <$> l.
Proof.
  unfold remove_at. induction l as [|x l IH]; [constructor|].
  rewrite filter_cons. case_decide; csimpl; by constructor.
Qed.

Lemma located_unique b id loc loc' : NoDup (resting_ids b) →
  located b id loc → located b id loc' → loc = loc'.
Proof.
  intros Hnd H1 H2. destruct (decide (ol_side_ loc = ol_side_ loc')) as [E|E]; cycle 1.
  { exfalso. eapply (resting_ids_disjoint (ol_side_ loc)); [done|by apply located_id|].
    apply located_id in H2. by destruct (ol_side_ loc), (ol_side_ loc'). }
  unfold located in *. rewrite <-E in H2.
  assert (NoDup (keys (ol_side_ loc) b).*1) as Hk.
  { rewrite keys_ids. unfold resting_ids in Hnd.
    destruct (ol_side_ loc); by apply NoDup_app in Hnd as (? & _ & ?). }
  pose proof (NoDup_fmap_inj fst _ _ _ Hk H1 H2 eq_refl) as Heq.
  destruct loc, loc'; cbn in *. congruence.
Qed.

Lemma spec_remove_keys loc id b side k :
  k ∈ keys side (spec_remove loc id b) ↔
  k ∈ keys side b ∧ ¬ (side = ol_side_ loc ∧ k.2.1 = ol_price_ loc ∧ k.1 = id).
Proof.
  unfold keys, spec_remove. destruct side, (ol_side_ loc); cbn [side_list ab_bids ab_asks];
    rewrite ?remove_at_keys; naive_solver.
Qed.

Lemma spec_remove_located loc id b id' loc' :
  NoDup (resting_ids b) → located b id loc →
  located (spec_remove loc id b) id' loc' ↔ located b id' loc' ∧ id' ≠ id.
Proof.
  intros Hnd Hloc. unfold located at 1 2. rewrite spec_remove_keys. cbn [fst snd]. split.
  - intros [Hin Hne]. split; [done|]. intros ->. apply Hne.
    by rewrite (located_unique b id loc' loc Hnd Hin Hloc).
  - intros [Hin Hne]. split; [done|]. by intros (_ & _ & ?).
Qed.

Lemma spec_remove_indexes loc id b index :
  indexes index b → um_find id index = Some loc →
  indexes (um_erase id index) (spec_remove loc id b).
Proof.
  intros [Hnd Hix] Hloc%Hix. split.
  { eapply sublist_NoDup; [exact Hnd|]. unfold resting_ids, spec_remove.
    destruct (ol_side_ loc); cbn [ab_bids ab_asks]; apply sublist_app; auto using remove_at_ids. }
  intros id' loc'. rewrite um_find_erase, spec_remove_located, <-Hix by done.
  case_decide; naive_solver.
Qed.

Lemma engine_init_index : index_ok (engine_init (Index:=Index)).
Proof.
  split; [constructor|]. intros id loc. cbn. rewrite um_find_empty.
  unfold located, keys. destruct (ol_side_ loc); cbn; set_solver.
Qed.
End Index.
