(* ===== verification/Concrete.v ===== *)
(** * A concrete instance

    The third-party interfaces instantiated with executable types, and sample
    orders: what the witnesses of the theorems run on. *)

From Stdlib Require Import Strings.String.
From stdpp Require Import gmap.
From S2P Require Import Prelude Interfaces CoreTypes Seqlock FlatMap MatchingEngine.

Local Open Scope Z_scope.

#[export] Instance StrongType_countable {Tag} : Countable (StrongType Z Tag) :=
  inj_countable' value Strong (λ x, match x with Strong v => eq_refl end).

#[export] Instance OrderId_countable : Countable OrderId := StrongType_countable.

#[export] Instance byte_countable : Countable Byte.byte :=
  inj_countable Byte.to_N Byte.of_N Byte.of_to_N.

#[export] Instance static_str_countable cap : Countable (static_str cap).
Proof.
  refine (inj_countable str_chars
    (λ l, match str_make l with Ok s => Some s | _ => None end) _).
  intros s. unfold str_make. case_decide as H; [f_equal; by apply static_str_eq|].
  by destruct H, s.
Defined.

(** Tickers, index and engine of the examples. *)
Notation CTicker := (static_str MAX_TICKER_LENGTH).
Notation CIndex := (gmap OrderId OrderLocation).
Notation CEngine := (MatchingEngine CIndex).

Definition lit (s : string) : CTicker :=
  match decide (bool_decide (length (list_byte_of_string s) ≤ MAX_TICKER_LENGTH)%nat = true) with
  | left H => StaticStr (list_byte_of_string s) H
  | right _ => StaticStr [] eq_refl
  end.

Definition AAPL : CTicker := lit "AAPL".
Definition GOOG : CTicker := lit "GOOG".
(** Not listed. *)
Definition ZZZZ : CTicker := lit "ZZZZ".

Definition add (id user : Z) (t : CTicker) (side : Side) (price volume : Z) : OrderAdd CTicker :=
  mkOrderAdd (Strong id) (Strong user) t side (Strong price) (Strong volume).
Definition cancel (id user : Z) (t : CTicker) : OrderCancel CTicker :=
  mkOrderCancel (Strong id) (Strong user) t.

(** An engine after a list of orders, all trades dropped. *)
Definition engine_after (orders : list (OrderAdd CTicker)) : Outcome CEngine :=
  foldM (λ o e, '(e', _) ← OnOrderAdd collect o e []; Ok e') orders engine_init.

Definition ok_or {A} (d : A) (m : Outcome A) : A := match m with Ok a => a | _ => d end.

(** Two asks at 100 and one at 101, a bid at 99. *)
Definition sample_engine : CEngine :=
  Eval vm_compute in ok_or engine_init (engine_after
    [add 1 1 AAPL Sell 100 5; add 2 2 AAPL Sell 100 5; add 3 3 AAPL Sell 101 7;
     add 4 4 AAPL Buy 99 10]).
