(* ===== verification/EngineTheorems.v ===== *)
(** * What the matching engine guarantees

    The properties of one instrument's engine, each with a run on the concrete
    instance that meets its hypotheses. *)

From S2P Require Import Prelude Interfaces CoreTypes Seqlock FlatMap MatchingEngine BookSpec EngineRefinement EngineSpec EngineInvariant EngineIndex Concrete.

Local Open Scope Z_scope.

(** ** Runs of the engine *)

(** The engines reached from the initial one by orders that [admits] lets in and by
    arbitrary cancels, for any trade handlers, as long as every call returns.  An
    order's fields are 64-bit values, which is what its type says; nothing is asked
    of its price, volume, id or owner.  A call that does not return ends the run: the
    handler failed, or the mid price overflowed (see [OnOrderAdd_total]). *)
Inductive engine_reach {Ticker Index} `{!OrderIndexType Index}
    (admits : OrderAdd Ticker → AbstractBook → Prop) : MatchingEngine Index → Prop :=
  | reach_init : engine_reach admits engine_init
  | reach_add H (onTrade : Trade Ticker → H → Outcome H) h h' o e e' :
      engine_reach admits e → order_in_range o →
      admits o (abs e) → OnOrderAdd onTrade o e h = Ok (e', h') → engine_reach admits e'
  | reach_cancel (c : OrderCancel Ticker) e e' :
      engine_reach admits e → OnOrderCancel c e = Ok e' → engine_reach admits e'.

(** Every order is let in. *)
Definition any_order {Ticker} (o : OrderAdd Ticker) (b : AbstractBook) : Prop := True.
(** Only orders whose id does not rest already. *)
Definition fresh_id {Ticker} (o : OrderAdd Ticker) (b : AbstractBook) : Prop :=
  oa_orderId_ o ∉ resting_ids b.

#[export] Instance fresh_id_dec {Ticker} (o : OrderAdd Ticker) b : Decision (fresh_id o b).
Proof. unfold fresh_id. apply _. Defined.

Section Runs.
Context {Ticker Index : Type} `{!OrderIndexType Index}.
Implicit Types (e : MatchingEngine Index) (o : OrderAdd Ticker) (c : OrderCancel Ticker).

Lemma add_preserves {H} (onTrade : Trade Ticker → H → Outcome H) h h' o e e' :
  engine_ok e → order_in_range o → OnOrderAdd onTrade o e h = Ok (e', h') →
  engine_ok e' ∧ abs e' = spec_add o (abs e) ∧
  orderIndex_ e' = add_index o (spec_match o (abs e)) (orderIndex_ e) ∧
  foldM onTrade (spec_trades o (abs e)) h = Ok h' ∧ mid_fits (spec_add o (abs e)).
Proof.
  intros Hok Ho Hrun. destruct (OnOrderAdd_total onTrade o e Hok Ho) as (e1 & ? & ? & ? & HR).
  rewrite HR in Hrun. inv_ok. case_decide; by simplify_eq.
Qed.

Lemma cancel_preserves c e e' :
  engine_ok e → OnOrderCancel c e = Ok e' →
  engine_ok e' ∧
  (e' = e ∨ ∃ loc, um_find (oc_orderId_ c) (orderIndex_ e) = Some loc ∧
    ol_userId_ loc = oc_userId_ c ∧ abs e' = spec_remove loc (oc_orderId_ c) (abs e) ∧
    orderIndex_ e' = um_erase (oc_orderId_ c) (orderIndex_ e)).
Proof.
  intros Hok Hrun. destruct (OnOrderCancel_total c e Hok)
    as [HR|(loc & e1 & ? & ? & ? & ? & ? & HR)]; rewrite HR in Hrun; [simplify_eq; eauto|].
  case_decide; simplify_eq. split; [done|]. right. by exists loc.
Qed.

Lemma engine_reach_ok admits e : engine_reach (Ticker:=Ticker) admits e → engine_ok e.
Proof.
  induction 1 as [|H onTrade h h' o e e' _ IH Ho _ Hrun|c e e' _ IH Hrun].
  - apply engine_init_ok.
  - by apply (add_preserves onTrade h h' o e e') in Hrun as [? _].
  - by apply (cancel_preserves c e e') in Hrun as [? _].
Qed.

Context `{!OrderIndexLaws Index}.

Lemma add_preserves_index {H} (onTrade : Trade Ticker → H → Outcome H) h h' o e e' :
  engine_ok e → order_in_range o → index_ok e → fresh_id o (abs e) →
  OnOrderAdd onTrade o e h = Ok (e', h') → index_ok e'.
Proof.
  intros Hok Ho Hidx Hf Hrun.
  destruct (add_preserves onTrade h h' o e e' Hok Ho Hrun) as (_ & Ha & Hi & _).
  unfold index_ok. rewrite Ha, Hi. by apply add_index_indexes.
Qed.

Lemma engine_reach_index e :
  engine_reach (Ticker:=Ticker) fresh_id e → index_ok e.
Proof.
  induction 1 as [|H onTrade h h' o e e' Hr%engine_reach_ok IH Ho Hf Hrun
                  |c e e' Hr%engine_reach_ok IH Hrun].
  - apply engine_init_index.
  - by eapply add_preserves_index.
  - destruct (cancel_preserves c e e' Hr Hrun) as (_ & [->|(loc & Hf & _ & Ha & Hi)]); [done|].
    unfold index_ok. rewrite Ha, Hi. by apply spec_remove_indexes.
Qed.
End Runs.

(** One order of a concrete run, its side conditions checked by evaluation. *)
Lemma reach_add_checked (o : OrderAdd CTicker) (e e' : CEngine) ts :
  engine_reach (Ticker:=CTicker) fresh_id e →
  bool_decide (order_in_range o ∧ fresh_id o (abs e)) = true →
  OnOrderAdd collect o e [] = Ok (e', ts) → engine_reach (Ticker:=CTicker) fresh_id e'.
Proof.
  intros Hr (Ho & Hf)%bool_decide_eq_true Hrun. by eapply (reach_add _ _ collect).
Qed.

Lemma sample_reach : engine_reach (Ticker:=CTicker) fresh_id sample_engine.
Proof.
  eapply (reach_add_checked (add 4 4 AAPL Buy 99 10) (ok_or engine_init (engine_after
    [add 1 1 AAPL Sell 100 5; add 2 2 AAPL Sell 100 5; add 3 3 AAPL Sell 101 7])));
    [|vm_compute; reflexivity|vm_compute; reflexivity].
  eapply (reach_add_checked (add 3 3 AAPL Sell 101 7) (ok_or engine_init (engine_after
    [add 1 1 AAPL Sell 100 5; add 2 2 AAPL Sell 100 5])));
    [|vm_compute; reflexivity|vm_compute; reflexivity].
  eapply (reach_add_checked (add 2 2 AAPL Sell 100 5) (ok_or engine_init (engine_after
    [add 1 1 AAPL Sell 100 5])));
    [|vm_compute; reflexivity|vm_compute; reflexivity].
  eapply (reach_add_checked (add 1 1 AAPL Sell 100 5) engine_init);
    [apply reach_init|vm_compute; reflexivity|vm_compute; reflexivity].
Qed.

Lemma sample_ok : engine_ok sample_engine.
Proof. exact (engine_reach_ok _ _ sample_reach). Qed.

Lemma sample_prices : prices_small (abs sample_engine).
Proof. unfold prices_small. by apply (bool_decide_unpack _). Qed.

Lemma sample_index : index_ok sample_engine.
Proof. exact (engine_reach_index _ sample_reach). Qed.

(** An incoming buy that takes both asks at 100 and part of the one at 101. *)
Definition sample_order : OrderAdd CTicker := add 9 9 AAPL Buy 101 12.

Lemma sample_order_ok : order_in_range sample_order.
Proof. by apply (bool_decide_unpack _). Qed.

(** ** Matching *)

(** C1: OnOrderAdd implements price-time-priority matching.  On a well-formed,
    uncrossed engine and for any order with 64-bit fields, at any prices, it runs the
    trade handler, whatever it is, on exactly the trades of the reference algorithm
    in their order, and leaves a well-formed engine whose book is the reference
    result.  It fails in two cases only: the handler fails on one of these trades, or
    the handler returns from all of them and the best bid plus the best ask of the
    resulting book does not fit in 64 bits, when the mid price that is computed last
    is undefined behaviour. *)
Theorem add_implements_priority_matching {Ticker Index H} `{!OrderIndexType Index}
    (onTrade : Trade Ticker → H → Outcome H) o (e : MatchingEngine Index) h :
  engine_ok e → order_in_range o →
  ∃ e', abs e' = spec_add o (abs e) ∧ engine_ok e' ∧
    OnOrderAdd onTrade o e h =
      (h' ← foldM onTrade (spec_trades o (abs e)) h;
       if decide (mid_fits (spec_add o (abs e))) then Ok (e', h') else Undefined).
Proof.
  intros Hok Ho. destruct (OnOrderAdd_total onTrade o e Hok Ho) as (e' & ? & ? & _ & HR). eauto.
Qed.

Lemma add_implements_priority_matching_witness :
  mid_fits (spec_add sample_order (abs sample_engine)) ∧
  ∃ e', abs e' = spec_add sample_order (abs sample_engine) ∧ engine_ok e' ∧
    OnOrderAdd collect sample_order sample_engine [] =
      (h' ← foldM collect (spec_trades sample_order (abs sample_engine)) [];
       if decide (mid_fits (spec_add sample_order (abs sample_engine)))
       then Ok (e', h') else Undefined).
Proof.
  split; [by apply (bool_decide_unpack _)|].
  apply (add_implements_priority_matching collect sample_order sample_engine []);
    apply sample_ok || apply sample_order_ok.
Defined.

(** The trade of a resting order filled completely. *)
Definition full_trade {Ticker} (o : OrderAdd Ticker) (x : Entry) : Trade Ticker :=
  fill_trade o x.1 x.2 (ro_volume_ x.2).

Lemma trade_of_full {Ticker} (o : OrderAdd Ticker) (l : list Entry) :
  trade_of o <$> ((λ x, mkFill x (entry_volume x)) <$> l) = full_trade o <$> l.
Proof.
  rewrite <-list_fmap_compose. apply list_fmap_ext. intros i [p [id u [v]]] _. done.
Qed.

Lemma spec_add_opposite {Ticker} (o : OrderAdd Ticker) b :
  opposite_side (oa_side_ o) (spec_add o b) = fr_left (spec_match o b).
Proof. unfold spec_add. by destruct (oa_side_ o). Qed.

Lemma add_trades {Ticker Index} `{!OrderIndexType Index} o (e e' : MatchingEngine Index) ts :
  engine_ok e → order_in_range o → OnOrderAdd collect o e [] = Ok (e', ts) →
  ts = spec_trades (Ticker:=Ticker) o (abs e) ∧ abs e' = spec_add o (abs e).
Proof.
  intros Hok Ho Hrun.
  destruct (add_preserves collect [] ts o e e' Hok Ho Hrun) as (_ & Ha & _ & Hf & _).
  rewrite foldM_collect in Hf. by simplify_eq/=.
Qed.

(** C7: Price-time priority.  The opposite side is consumed from the front of its
    priority list (best price first, oldest first at a price): a prefix is filled
    completely and in order, at most one further order is filled in part, and
    everything behind is untouched.  Stated for every call that returns, at any
    prices. *)
Theorem trades_follow_price_time_priority {Ticker Index} `{!OrderIndexType Index}
    (o : OrderAdd Ticker) (e e' : MatchingEngine Index) ts :
  engine_ok e → order_in_range o → OnOrderAdd collect o e [] = Ok (e', ts) →
  ∃ filled rest,
    opposite_side (oa_side_ o) (abs e) = filled ++ rest ∧
    ((ts = full_trade o <$> filled ∧ opposite_side (oa_side_ o) (abs e') = rest) ∨
     ∃ x rest' n, rest = x :: rest' ∧ 0 < n < entry_volume x ∧
       ts = (full_trade o <$> filled) ++ [fill_trade o x.1 x.2 (Strong n)] ∧
       opposite_side (oa_side_ o) (abs e') = shrink x n :: rest').
Proof.
  intros Hok Ho Hrun. destruct (add_trades o e e' ts Hok Ho Hrun) as [-> ->].
  rewrite spec_add_opposite. unfold spec_trades.
  destruct (fill_priority (accepts (oa_side_ o) (oa_price_ o)) (opposite_side (oa_side_ o) (abs e))
    (value (oa_volume_ o))) as (d & rest & Hl & _ & Hr). fold (spec_match o (abs e)) in Hr.
  exists d, rest. split; [done|]. rewrite <-trade_of_full.
  destruct Hr as [[-> ->]|(x & rest' & n & -> & Hn & _ & -> & ->)]; [by left|].
  right. exists x, rest', n. rewrite fmap_app. done.
Qed.

Definition sample_result : CEngine * list (Trade CTicker) :=
  Eval vm_compute in ok_or (engine_init, []) (OnOrderAdd collect sample_order sample_engine []).

Lemma sample_run : OnOrderAdd collect sample_order sample_engine [] =
  Ok (sample_result.1, sample_result.2).
Proof. vm_compute. reflexivity. Qed.

Lemma trades_follow_price_time_priority_witness :
  length sample_result.2 = 3%nat ∧
  ∃ filled rest, opposite_side Buy (abs sample_engine) = filled ++ rest ∧
    ((sample_result.2 = full_trade sample_order <$> filled ∧
      opposite_side Buy (abs sample_result.1) = rest) ∨
     ∃ x rest' n, rest = x :: rest' ∧ 0 < n < entry_volume x ∧
       sample_result.2 = (full_trade sample_order <$> filled) ++
         [fill_trade sample_order x.1 x.2 (Strong n)] ∧
       opposite_side Buy (abs sample_result.1) = shrink x n :: rest').
Proof.
  split; [reflexivity|].
  apply (trades_follow_price_time_priority sample_order sample_engine);
    apply sample_ok || apply sample_order_ok || apply sample_run.
Defined.

(** Every trade is within the taker's limit, prints at the price of the resting
    order it is with, names both parties, and has a positive volume that neither
    the resting nor the incoming order exceeds. *)
Theorem trades_within_limit {Ticker Index} `{!OrderIndexType Index}
    (o : OrderAdd Ticker) (e e' : MatchingEngine Index) ts t :
  engine_ok e → order_in_range o → OnOrderAdd collect o e [] = Ok (e', ts) → t ∈ ts →
  accepts (oa_side_ o) (oa_price_ o) (tr_executionPrice_ t) = true ∧
  (∃ x, x ∈ opposite_side (oa_side_ o) (abs e) ∧
     t = fill_trade o x.1 x.2 (tr_volume_ t) ∧ 0 < value (tr_volume_ t) ≤ entry_volume x) ∧
  value (tr_volume_ t) ≤ value (oa_volume_ o).
Proof.
  intros Hok Ho Hrun. destruct (add_trades o e e' ts Hok Ho Hrun) as [-> _].
  intros (f & -> & Hf)%list_elem_of_fmap. destruct Hok as [Hb _].
  destruct (fill_bounds (accepts (oa_side_ o) (oa_price_ o)) (opposite_side (oa_side_ o) (abs e))
    (value (oa_volume_ o)) f) as (Hin & Hv & Hc & Hle); [|done|].
  { destruct Hb. by destruct (oa_side_ o); eapply book_ok_volumes. }
  split_and!; [done| |done]. exists (fill_entry f). done.
Qed.

Definition sample_first_trade : Trade CTicker :=
  fill_trade sample_order (Strong 100) (mkResting (Strong 1) (Strong 1) (Strong 5)) (Strong 5).

Lemma trades_within_limit_witness :
  let t := sample_first_trade in
  t ∈ sample_result.2 ∧ accepts Buy (Strong 101) (tr_executionPrice_ t) = true ∧
    (∃ x, x ∈ opposite_side Buy (abs sample_engine) ∧
       t = fill_trade sample_order x.1 x.2 (tr_volume_ t) ∧
       0 < value (tr_volume_ t) ≤ entry_volume x) ∧
    value (tr_volume_ t) ≤ 12.
Proof.
  intros t. assert (t ∈ sample_result.2) as Hin by (vm_compute; left). split; [exact Hin|].
  exact (trades_within_limit sample_order sample_engine _ _ t
    sample_ok sample_order_ok sample_run Hin).
Defined.

Definition trade_volume {Ticker} (t : Trade Ticker) : Z := value (tr_volume_ t).

Lemma sumZ_trades {Ticker} (o : OrderAdd Ticker) (fs : list Fill) :
  sumZ trade_volume (trade_of o <$> fs) = sumZ fill_volume fs.
Proof. induction fs as [|f fs IH]; csimpl; [done|]. by rewrite IH. Qed.

Lemma total_rest_remainder {Ticker} comp (o : OrderAdd Ticker) remaining l :
  total_volume (rest_remainder comp o remaining l) = total_volume l + Z.max 0 remaining.
Proof.
  unfold rest_remainder, total_volume. destruct (Z.ltb_spec 0 remaining); [|lia].
  rewrite (sumZ_Permutation _ _ _ (rest_at_Permutation comp _ _)), sumZ_cons.
  change (entry_volume _) with remaining. lia.
Qed.

(** C9: Volume is conserved.  What the trades of an order add up to is taken from
    the opposite side, and the rest of the order's volume is what its own side
    gains: nothing is created or lost.  Stated for every call that returns, at any
    prices and for any volume (an order without a positive volume adds nothing). *)
Theorem volume_conserved {Ticker Index} `{!OrderIndexType Index}
    (o : OrderAdd Ticker) (e e' : MatchingEngine Index) ts :
  engine_ok e → order_in_range o → OnOrderAdd collect o e [] = Ok (e', ts) →
  total_volume (opposite_side (oa_side_ o) (abs e')) =
    total_volume (opposite_side (oa_side_ o) (abs e)) - sumZ trade_volume ts ∧
  total_volume (side_list (oa_side_ o) (abs e')) =
    total_volume (side_list (oa_side_ o) (abs e)) +
    (Z.max 0 (value (oa_volume_ o)) - sumZ trade_volume ts).
Proof.
  intros Hok Ho Hrun. destruct (add_trades o e e' ts Hok Ho Hrun) as [-> ->].
  rewrite spec_add_opposite. unfold spec_trades. rewrite sumZ_trades.
  destruct (fill_conserves (accepts (oa_side_ o) (oa_price_ o))
    (opposite_side (oa_side_ o) (abs e)) (value (oa_volume_ o))) as [H1 H2].
  fold (spec_match o (abs e)) in H1, H2. split; [lia|].
  assert (total_volume (side_list (oa_side_ o) (spec_add o (abs e))) =
    total_volume (side_list (oa_side_ o) (abs e)) + Z.max 0 (fr_remaining (spec_match o (abs e)))) as ->.
  { unfold spec_add. destruct (oa_side_ o); cbn [side_list ab_bids ab_asks];
      apply total_rest_remainder. }
  destruct (Z.leb_spec (value (oa_volume_ o)) 0) as [Hz|Hz].
  - assert (fr_remaining (spec_match o (abs e)) = value (oa_volume_ o)) as Hr
      by (unfold spec_match; by rewrite fill_stop).
    lia.
  - pose proof (fill_remaining_bounds (accepts (oa_side_ o) (oa_price_ o))
      (opposite_side (oa_side_ o) (abs e)) (value (oa_volume_ o))) as Hrb.
    fold (spec_match o (abs e)) in Hrb. destruct Hok as [[Hb Ha] _].
    specialize (Hrb ltac:(destruct (oa_side_ o); by eapply book_ok_volumes) ltac:(lia)). lia.
Qed.

Lemma volume_conserved_witness :
  sumZ trade_volume sample_result.2 = 12 ∧
  total_volume (opposite_side Buy (abs sample_result.1)) =
    total_volume (opposite_side Buy (abs sample_engine)) - sumZ trade_volume sample_result.2 ∧
  total_volume (side_list Buy (abs sample_result.1)) =
    total_volume (side_list Buy (abs sample_engine)) +
    (Z.max 0 12 - sumZ trade_volume sample_result.2).
Proof.
  split; [reflexivity|].
  apply (volume_conserved sample_order sample_engine);
    apply sample_ok || apply sample_order_ok || apply sample_run.
Defined.

(** An order is filled as far as the book allows: if its trades do not use up
    its volume, no order left on the opposite side is at an acceptable price. *)
Theorem unfilled_only_if_nothing_acceptable {Ticker Index} `{!OrderIndexType Index}
    (o : OrderAdd Ticker) (e e' : MatchingEngine Index) ts :
  engine_ok e → order_in_range o → OnOrderAdd collect o e [] = Ok (e', ts) →
  sumZ trade_volume ts < value (oa_volume_ o) →
  Forall (λ x : Entry, accepts (oa_side_ o) (oa_price_ o) x.1 = false)
    (opposite_side (oa_side_ o) (abs e')).
Proof.
  intros Hok Ho Hrun. destruct (add_trades o e e' ts Hok Ho Hrun) as [-> ->].
  rewrite spec_add_opposite. unfold spec_trades. rewrite sumZ_trades. intros Hlt.
  destruct (fill_conserves (accepts (oa_side_ o) (oa_price_ o))
    (opposite_side (oa_side_ o) (abs e)) (value (oa_volume_ o))) as [H1 _].
  fold (spec_match o (abs e)) in H1.
  apply spec_match_rejects; [apply books_ok_sorted, Hok|lia].
Qed.

Lemma unfilled_only_if_nothing_acceptable_witness :
  Forall (λ x : Entry, accepts Buy (Strong 100) x.1 = false)
    (opposite_side Buy (abs (ok_or (engine_init, [])
      (OnOrderAdd collect (add 9 9 AAPL Buy 100 50) sample_engine [])).1)).
Proof.
  apply (unfilled_only_if_nothing_acceptable (add 9 9 AAPL Buy 100 50) sample_engine _
    (ok_or (engine_init, []) (OnOrderAdd collect (add 9 9 AAPL Buy 100 50) sample_engine [])).2);
    try apply sample_ok; try (by apply (bool_decide_unpack _)); vm_compute; reflexivity.
Defined.

(** C22: Whatever orders and cancels the clients send, with whatever ids, owners,
    prices and volumes, after every call that returns the books are sorted with only
    positive volumes, no level is empty, the best bid is below the best ask, and the
    published mid price is settled.  A call that does not return, because the trade
    handler failed or the mid price overflowed, is where the run ends; the state
    after it is not described. *)
Theorem engine_invariant {Ticker Index} `{!OrderIndexType Index} (e : MatchingEngine Index) :
  engine_reach (Ticker:=Ticker) any_order e → engine_ok e.
Proof. intros H. apply (engine_reach_ok _ _ H). Qed.

Lemma engine_reach_weaken {Ticker Index} `{!OrderIndexType Index}
    (P Q : OrderAdd Ticker → AbstractBook → Prop) (e : MatchingEngine Index) :
  (∀ o b, P o b → Q o b) → engine_reach P e → engine_reach Q e.
Proof.
  intros HPQ. induction 1; [apply reach_init|eapply (reach_add _ _ onTrade); eauto|
    by eapply reach_cancel].
Qed.

Lemma engine_invariant_witness : engine_ok sample_engine.
Proof.
  apply (engine_invariant (Ticker:=CTicker)).
  exact (engine_reach_weaken _ _ _ (λ _ _ _, I) sample_reach).
Defined.

(** C26: The matching loops terminate: on any book, with any volumes and any index,
    the fuel given to them (one more than the levels, and per level one more than
    its orders) is never used up. *)
Theorem match_terminates {Ticker Index H} `{!OrderIndexType Index}
    (onTrade : Trade Ticker → H → Outcome H) crosses book o (index : Index) remaining h :
  (∀ t h, onTrade t h ≠ OutOfFuel) →
  Match onTrade crosses book o index remaining h ≠ OutOfFuel.
Proof. intros HT. apply MatchBook_terminates; [done|lia]. Qed.

Lemma match_terminates_witness :
  Match (Ticker:=CTicker) (Index:=CIndex) collect st_geb
    [(Strong 100, [mkResting (Strong 1) (Strong 1) (Strong (-3)); mkResting (Strong 2) (Strong 1) (Strong 0)])]
    sample_order um_empty (Strong 12) [] ≠ OutOfFuel.
Proof. apply match_terminates. done. Defined.

(** ** The index and cancels *)

(** C8: As long as no order reuses the id of a resting order, the order index and
    the books agree: the resting orders have distinct ids, and an id is indexed at
    a side, price and owner exactly when such an order rests there.  This holds
    after every call that returns, for orders at any price and of any volume. *)
Theorem index_matches_books {Ticker Index} `{!OrderIndexType Index} `{!OrderIndexLaws Index}
    (e : MatchingEngine Index) :
  engine_reach (Ticker:=Ticker) fresh_id e →
  NoDup (resting_ids (abs e)) ∧
  ∀ id loc, um_find id (orderIndex_ e) = Some loc ↔ located (abs e) id loc.
Proof. intros H. exact (engine_reach_index e H). Qed.

Lemma index_matches_books_witness :
  NoDup (resting_ids (abs sample_engine)) ∧
  ∀ id loc, um_find id (orderIndex_ sample_engine) = Some loc ↔
            located (abs sample_engine) id loc.
Proof. exact (index_matches_books (Ticker:=CTicker) sample_engine sample_reach). Defined.

(** C24: A cancel by the owner of a resting order removes that order from the book and
    from the index, and nothing else, on an engine whose index and books agree (which
    is so as long as no order reuses the id of a resting one).  It returns unless the
    best bid plus the best ask of the remaining book does not fit in 64 bits, when the
    mid price that is computed last is undefined behaviour. *)
Theorem cancel_removes_exactly_its_order {Ticker Index} `{!OrderIndexType Index}
    `{!OrderIndexLaws Index} (c : OrderCancel Ticker) (e : MatchingEngine Index) loc :
  engine_ok e → index_ok e →
  located (abs e) (oc_orderId_ c) loc → ol_userId_ loc = oc_userId_ c →
  ∃ e', engine_ok e' ∧ index_ok e' ∧
    abs e' = spec_remove loc (oc_orderId_ c) (abs e) ∧
    (∀ id' loc', located (abs e') id' loc' ↔ located (abs e) id' loc' ∧ id' ≠ oc_orderId_ c) ∧
    OnOrderCancel c e = if decide (mid_fits (abs e')) then Ok e' else Undefined.
Proof.
  intros Hok [Hnd Hix] Hloc Hu. pose proof Hloc as Hf%Hix.
  destruct (OnOrderCancel_accepted c e loc Hok Hf Hu) as (e' & Hok' & Ha & Hi & HR).
  exists e'. unfold index_ok. rewrite Ha, Hi.
  split_and!; [done|by apply spec_remove_indexes|done| |done].
  intros id' loc'. by apply spec_remove_located.
Qed.

Lemma cancel_removes_exactly_its_order_witness :
  ∃ e', engine_ok e' ∧ index_ok e' ∧
    abs e' = spec_remove (mkLocation Sell (Strong 100) (Strong 2)) (Strong 2) (abs sample_engine) ∧
    (∀ id' loc', located (abs e') id' loc' ↔
      located (abs sample_engine) id' loc' ∧ id' ≠ Strong 2) ∧
    OnOrderCancel (cancel 2 2 AAPL) sample_engine =
      if decide (mid_fits (abs e')) then Ok e' else Undefined.
Proof.
  apply (cancel_removes_exactly_its_order (cancel 2 2 AAPL) sample_engine
    (mkLocation Sell (Strong 100) (Strong 2)));
    try apply sample_ok; try apply sample_index; [|reflexivity].
  unfold located. by apply (bool_decide_unpack _).
Defined.



Lemma remove_at_fresh p id l : id ∉ entry_id <$> l → remove_at p id l = l.
Proof.
  intros H. apply filter_keep_all, Forall_forall. intros x Hx [_ E]. apply H.
  rewrite <-E. by apply list_elem_of_fmap_2.
Qed.

Lemma remove_rest_at comp p id u v l : id ∉ entry_id <$> l →
  remove_at p id (rest_at comp (p, mkResting id u v) l) = l.
Proof.
  intros H. induction l as [|y l IH]; cbn [rest_at].
  { unfold remove_at. rewrite filter_cons_False by (cbn; tauto). done. }
  pose proof H as [Hy Hl]%not_elem_of_cons. destruct (comp _ _).
  - unfold remove_at. rewrite filter_cons_False by (cbn; tauto).
    exact (remove_at_fresh p id (y :: l) H).
  - unfold remove_at. rewrite filter_cons_True by (intros [_ E]; by apply Hy). f_equal. by apply IH.
Qed.

(** Adding and cancelling are inverse on the book: an order with a fresh id that
    does not trade rests, and its owner's cancel brings the book back to what it
    was. *)
Theorem add_then_cancel_restores_book {Ticker Index} `{!OrderIndexType Index}
    `{!OrderIndexLaws Index} (o : OrderAdd Ticker) (e : MatchingEngine Index) :
  engine_ok e → prices_small (abs e) → index_ok e → fresh_id o (abs e) →
  order_in_range o → price_small (oa_price_ o) → 0 < value (oa_volume_ o) →
  spec_trades o (abs e) = [] →
  ∃ e1 e2, OnOrderAdd collect o e [] = Ok (e1, []) ∧
    OnOrderCancel (mkOrderCancel (oa_orderId_ o) (oa_userId_ o) (oa_ticker_ o)) e1 = Ok e2 ∧
    abs e1 ≠ abs e ∧ abs e2 = abs e.
Proof.
  intros Hok Hs Hidx Hf Ho Hp Hv Ht.
  destruct (OnOrderAdd_ok collect o e Hok Hs Ho Hp) as (e1 & Hok1 & Hs1 & Ha1 & Hi1 & HR).
  specialize (HR []). rewrite foldM_collect, Ht in HR. cbn in HR.
  assert (spec_match o (abs e) =
    mkFillResult [] [] (opposite_side (oa_side_ o) (abs e)) (value (oa_volume_ o))) as Hm.
  { unfold spec_trades in Ht. apply fmap_nil_inv in Ht. by apply fill_no_fills. }
  pose proof (add_index_indexes o (abs e) (orderIndex_ e) Hidx Hf) as Hidx1.
  destruct (OnOrderCancel_accepted (mkOrderCancel (oa_orderId_ o) (oa_userId_ o) (oa_ticker_ o)) e1
    (mkLocation (oa_side_ o) (oa_price_ o) (oa_userId_ o)) Hok1) as (e2 & _ & Ha & _ & HC).
  { rewrite Hi1, um_find_add_index, Hm. cbn. by rewrite decide_True. }
  { done. }
  rewrite decide_True in HC by by apply prices_small_mid_fits, spec_remove_small.
  exists e1, e2. rewrite HC. split_and!; [done|done| |].
  - rewrite Ha1. intros E. apply (f_equal (λ b, total_volume (side_list (oa_side_ o) b))) in E.
    revert E. unfold spec_add. rewrite Hm. destruct (oa_side_ o);
      cbn [side_list ab_bids ab_asks fr_remaining]; rewrite total_rest_remainder; lia.
  - rewrite Ha, Ha1. unfold spec_remove, spec_add, fresh_id, resting_ids in *. rewrite Hm.
    apply not_elem_of_app in Hf as [Hf1 Hf2]. cbn [oc_orderId_ ol_side_ ol_price_ fr_remaining fr_left].
    unfold rest_remainder. destruct (Z.ltb_spec 0 (value (oa_volume_ o))); [|lia].
    destruct (oa_side_ o); cbn [ab_bids ab_asks opposite_side]; by rewrite remove_rest_at.
Qed.

Lemma add_then_cancel_restores_book_witness :
  ∃ e1 e2, OnOrderAdd collect (add 9 9 AAPL Buy 98 5) sample_engine [] = Ok (e1, []) ∧
    OnOrderCancel (cancel 9 9 AAPL) e1 = Ok e2 ∧
    abs e1 ≠ abs sample_engine ∧ abs e2 = abs sample_engine.
Proof.
  apply (add_then_cancel_restores_book (add 9 9 AAPL Buy 98 5) sample_engine);
    try apply sample_ok; try apply sample_prices; try apply sample_index;
    try (by apply (bool_decide_unpack _)); reflexivity.
Defined.
