(* ===== verification/MidPrice.v ===== *)
(** * The published mid price, and the engine's corner cases

    What [MidPrice] returns over the life of an engine, when computing it is
    undefined behaviour, and what a reused order id does. *)

From Stdlib Require Import Sorting.Sorted.
From S2P Require Import Prelude Interfaces CoreTypes Seqlock FlatMap MatchingEngine BookSpec EngineRefinement EngineSpec EngineInvariant EngineIndex Concrete EngineTheorems.

Local Open Scope Z_scope.

Section MidPriceFacts.
Context {Ticker Index : Type} `{!OrderIndexType Index}.
Implicit Types (e : MatchingEngine Index) (o : OrderAdd Ticker) (c : OrderCancel Ticker).

(** The published value is that of the top of the book whenever there is one. *)
Definition mid_current e : Prop :=
  ∀ m, top_mid e = Some m → value_ (midPrice_ e) = Some (Strong m).

Lemma UpdateMidPrice_mid e e' : UpdateMidPrice e = Ok e' →
  mid_current e' ∧ (top_mid e' = None → midPrice_ e' = midPrice_ e).
Proof.
  intros H. destruct (decide (mid_defined e)) as [Hm|Hm].
  - rewrite UpdateMidPrice_Ok in H by done. destruct (top_mid e) as [m|] eqn:E; simplify_eq.
    + assert (∀ (i : Index) s, top_mid (mkEngine (bids_ e) (asks_ e) i s) = top_mid e) as Ht by done.
      split; [|by rewrite Ht, E]. intros m'. rewrite Ht, E. by intros [= ->].
    + split; [|done]. intros m' E'. congruence.
  - by rewrite UpdateMidPrice_Undefined in H.
Qed.

Lemma OnOrderAdd_mid {H} (onTrade : Trade Ticker → H → Outcome H) o e e' h h' :
  OnOrderAdd onTrade o e h = Ok (e', h') →
  mid_current e' ∧ (top_mid e' = None → midPrice_ e' = midPrice_ e).
Proof.
  unfold OnOrderAdd. intros Hrun. inv_ok. destruct a as [[e1 rem] h1]. inv_ok. simplify_eq.
  assert (midPrice_ e1 = midPrice_ e) as <-.
  { destruct (oa_side_ o); inv_ok; destruct a as [[[? ?] ?] ?]; by inv_ok; simplify_eq. }
  apply UpdateMidPrice_mid in E0 as [? Hn]. split; [done|]. intros Ht. rewrite (Hn Ht).
  destruct (st_gtb rem _); [|done]. unfold Rest. by destruct (oa_side_ o).
Qed.

Lemma OnOrderCancel_mid c e e' : mid_current e → OnOrderCancel c e = Ok e' →
  mid_current e' ∧ (top_mid e' = None → midPrice_ e' = midPrice_ e).
Proof.
  intros Hm. unfold OnOrderCancel. destruct (um_find _ _) as [loc|]; [|by intros [= <-]].
  destruct (negb _); [by intros [= <-]|].
  by destruct (ol_side_ loc); intros H%UpdateMidPrice_mid.
Qed.

Lemma engine_reach_mid admits e : engine_reach (Ticker:=Ticker) admits e → mid_current e.
Proof.
  induction 1 as [|H onTrade h h' o e e' _ _ _ _ Hrun|c e e' _ IH Hrun]; [done| |].
  - by apply OnOrderAdd_mid in Hrun as [? _].
  - by apply OnOrderCancel_mid in Hrun as [? _].
Qed.

Lemma MidPrice_settled e : settled (midPrice_ e) → MidPrice e = Ok (value_ (midPrice_ e)).
Proof. apply Load_settled. Qed.

(** The mid of two prices lies between them, although it truncates. *)
Lemma quot_mid_between a b : a ≤ b → a ≤ Z.quot (a + b) 2 ≤ b.
Proof.
  intros H. pose proof (Z.quot_rem' (a + b) 2).
  destruct (Z.leb_spec 0 (a + b)).
  - pose proof (Z.rem_bound_pos (a + b) 2 ltac:(lia) ltac:(lia)). lia.
  - pose proof (Z.rem_bound_pos_neg (a + b) 2 ltac:(lia) ltac:(lia)). lia.
Qed.

Lemma top_uncrossed e p lp bids q lq asks :
  engine_ok e → bids_ e = (p, lp) :: bids → asks_ e = (q, lq) :: asks → value p < value q.
Proof.
  intros ([Hb Ha] & Hu & _) Eb Ea. rewrite Eb in Hb. rewrite Ea in Ha.
  apply head_in_flatten in Hb as [r Hr]. apply head_in_flatten in Ha as [s Hs].
  apply (Hu (p, r) (q, s)); cbn; by rewrite ?Eb, ?Ea.
Qed.
End MidPriceFacts.

(** C27: After any orders and cancels, at any prices, of which each call returned,
    MidPrice is readable, and while either side has orders it is that of the current
    top of the book: the truncated average of the best bid and ask, which lies
    between them, or the best price of the only side.  A call in which best bid plus
    best ask overflows 64 bits does not return and ends the run. *)
Theorem mid_price_tracks_top {Ticker Index} `{!OrderIndexType Index} (e : MatchingEngine Index) :
  engine_reach (Ticker:=Ticker) any_order e →
  match bids_ e, asks_ e with
  | (bid, _) :: _, (ask, _) :: _ =>
      ∃ m, MidPrice e = Ok (Some (Strong m)) ∧ m = Z.quot (value bid + value ask) 2 ∧
           value bid ≤ m ≤ value ask
  | (bid, _) :: _, [] => MidPrice e = Ok (Some bid)
  | [], (ask, _) :: _ => MidPrice e = Ok (Some ask)
  | [], [] => ∃ last, MidPrice e = Ok last
  end.
Proof.
  intros Hr. pose proof (engine_reach_mid _ _ Hr) as Hm.
  pose proof (engine_reach_ok _ _ Hr) as Hok.
  rewrite MidPrice_settled by apply Hok. unfold mid_current, top_mid in Hm.
  destruct (bids_ e) as [|[bid lb] bids] eqn:Eb, (asks_ e) as [|[ask la] asks] eqn:Ea.
  - eauto.
  - rewrite (Hm _ eq_refl). by destruct ask.
  - rewrite (Hm _ eq_refl). by destruct bid.
  - eexists. rewrite (Hm _ eq_refl). split_and!; [done|done|..];
      apply quot_mid_between; pose proof (top_uncrossed e _ _ _ _ _ _ Hok Eb Ea); lia.
Qed.

Lemma mid_price_tracks_top_witness :
  ∃ m, MidPrice sample_engine = Ok (Some (Strong m)) ∧ m = Z.quot (99 + 100) 2 ∧ 99 ≤ m ≤ 100.
Proof.
  exact (mid_price_tracks_top (Ticker:=CTicker) sample_engine
    (engine_reach_weaken _ _ _ (λ _ _ _, I) sample_reach)).
Defined.

(** When the last order leaves both sides, the mid price keeps its last value:
    an order or a cancel that empties the book does not touch it. *)
Theorem mid_price_holds_when_book_empties {Ticker Index} `{!OrderIndexType Index}
    (e e' : MatchingEngine Index) :
  engine_reach (Ticker:=Ticker) any_order e →
  ((∃ o ts, OnOrderAdd (Ticker:=Ticker) collect o e [] = Ok (e', ts)) ∨
   (∃ c : OrderCancel Ticker, OnOrderCancel c e = Ok e')) →
  bids_ e' = [] → asks_ e' = [] → MidPrice e' = MidPrice e.
Proof.
  intros Hr Hrun Hb Ha.
  assert (midPrice_ e' = midPrice_ e) as E; [|unfold MidPrice; by rewrite E].
  assert (top_mid e' = None) as Ht by (unfold top_mid; by rewrite Hb, Ha).
  destruct Hrun as [(o & ts & Hrun)|(c & Hrun)].
  - by apply OnOrderAdd_mid in Hrun as [_ ->].
  - apply OnOrderCancel_mid in Hrun as [_ ->]; [done..|]. by eapply engine_reach_mid.
Qed.

(** A bid of 10 at 100, and the sell that takes it. *)
Definition one_bid : CEngine :=
  Eval vm_compute in ok_or engine_init (engine_after [add 1 1 AAPL Buy 100 10]).
Definition one_bid_sold : CEngine :=
  Eval vm_compute in
    (ok_or (engine_init, []) (OnOrderAdd collect (add 2 2 AAPL Sell 100 10) one_bid [])).1.

Lemma one_bid_reach : engine_reach (Ticker:=CTicker) any_order one_bid.
Proof.
  apply (engine_reach_weaken fresh_id any_order); [done|].
  eapply (reach_add_checked (add 1 1 AAPL Buy 100 10) engine_init);
    [apply reach_init|vm_compute; reflexivity|vm_compute; reflexivity].
Qed.

Lemma mid_price_holds_when_book_empties_witness :
  MidPrice one_bid_sold = MidPrice one_bid ∧ MidPrice one_bid = Ok (Some (Strong 100)).
Proof.
  split; [|reflexivity].
  apply (mid_price_holds_when_book_empties (Ticker:=CTicker)); [apply one_bid_reach| |reflexivity..].
  left. eexists (add 2 2 AAPL Sell 100 10), _. vm_compute. reflexivity.
Defined.

(** ** Undefined behaviour *)



(** ** Reused order ids *)

Section Reuse.
Context {Ticker Index : Type} `{!OrderIndexType Index} `{!OrderIndexLaws Index}.
Implicit Types (e : MatchingEngine Index) (o : OrderAdd Ticker) (b : AbstractBook).

(** An order at a price where its own side already has one does not trade, *)
Lemma joining_order_does_not_trade o b x :
  uncrossed b → x ∈ side_list (oa_side_ o) b → x.1 = oa_price_ o →
  spec_match o b = mkFillResult [] [] (opposite_side (oa_side_ o) b) (value (oa_volume_ o)).
Proof.
  intros Hu Hx Hp. apply fill_no_fills.
  destruct (opposite_side (oa_side_ o) b) as [|y l] eqn:E; [done|]. cbn.
  assert (accepts (oa_side_ o) (oa_price_ o) y.1 = false) as ->; [|by rewrite andb_false_r].
  rewrite <-Hp. unfold side_list, opposite_side in *. unfold accepts.
  destruct (oa_side_ o); strong; apply Z.leb_gt; apply Hu; rewrite ?E; set_solver.
Qed.

(** and it goes behind the front order, so the top of the book stays. *)
Lemma rest_at_head comp y l r x : StronglySorted (prio comp) (y :: l) →
  x ∈ y :: l → (∀ p, comp p p = false) → ∃ l', rest_at comp (x.1, r) (y :: l) = y :: l'.
Proof.
  intros Hs Hx Hc. cbn [rest_at fst]. assert (comp x.1 y.1 = false) as ->; [|eauto].
  apply elem_of_cons in Hx as [->|Hx]; [done|].
  apply StronglySorted_inv in Hs as [_ Hs]. rewrite Forall_forall in Hs. by apply Hs.
Qed.

Lemma joining_order_keeps_mid o b x :
  book_sorted b → uncrossed b → x ∈ side_list (oa_side_ o) b → x.1 = oa_price_ o →
  mid_fits b → mid_fits (spec_add o b).
Proof.
  intros [Hb Ha] Hu Hx Hp. unfold spec_add, rest_remainder.
  rewrite (joining_order_does_not_trade o b x) by done. cbn [fr_left fr_remaining].
  rewrite <-Hp. destruct (oa_side_ o), (0 <? value (oa_volume_ o)); try done;
    cbn [side_list opposite_side] in *.
  - destruct (ab_bids b) as [|y l] eqn:E; [by apply elem_of_nil in Hx|].
    edestruct (rest_at_head bids_comp y l) as [l' ->]; [done..| |by unfold mid_fits; rewrite E].
    intros p. unfold bids_comp. strong. apply Z.ltb_irrefl.
  - destruct (ab_asks b) as [|y l] eqn:E; [by apply elem_of_nil in Hx|].
    edestruct (rest_at_head asks_comp y l) as [l' ->]; [done..| |by unfold mid_fits; rewrite E].
    intros p. unfold asks_comp. strong. apply Z.ltb_irrefl.
Qed.
End Reuse.

(** C39: Ownership is not enforced when an order id is reused.  Take any order x that
    rests in a well-formed engine with a defined mid price, and let any user send an
    order with x's id, side and price and a positive volume.  It is accepted without
    a trade and rests beside x; from then on the cancel of the second user removes
    every order with that id at that price, x included, whoever owns it (and returns
    unless the mid price of what is left overflows). *)
Theorem reused_id_cancels_foreign_order {Ticker Index} `{!OrderIndexType Index}
    `{!OrderIndexLaws Index} (o : OrderAdd Ticker) (e : MatchingEngine Index) x :
  engine_ok e → mid_fits (abs e) → order_in_range o → 0 < value (oa_volume_ o) →
  x ∈ side_list (oa_side_ o) (abs e) → entry_id x = oa_orderId_ o → x.1 = oa_price_ o →
  let mine := (oa_price_ o, mkResting (oa_orderId_ o) (oa_userId_ o) (oa_volume_ o)) in
  let c := mkOrderCancel (oa_orderId_ o) (oa_userId_ o) (oa_ticker_ o) in
  ∃ e1 e2, OnOrderAdd collect o e [] = Ok (e1, []) ∧
    x ∈ side_list (oa_side_ o) (abs e1) ∧ mine ∈ side_list (oa_side_ o) (abs e1) ∧
    OnOrderCancel c e1 = (if decide (mid_fits (abs e2)) then Ok e2 else Undefined) ∧
    side_list (oa_side_ o) (abs e2) =
      remove_at (oa_price_ o) (oa_orderId_ o) (side_list (oa_side_ o) (abs e1)) ∧
    x ∉ side_list (oa_side_ o) (abs e2) ∧ mine ∉ side_list (oa_side_ o) (abs e2).
Proof.
  intros Hok Hmid Ho Hv Hx Hid Hp mine c.
  pose proof (joining_order_does_not_trade o (abs e) x (proj1 (proj2 Hok)) Hx Hp) as Hm.
  destruct (OnOrderAdd_total collect o e Hok Ho) as (e1 & Hok1 & Ha & Hi & HR).
  specialize (HR []). rewrite foldM_collect in HR. cbn [mbind Outcome_bind] in HR.
  rewrite decide_True in HR
    by (eapply joining_order_keeps_mid; eauto; [apply books_ok_sorted, Hok|apply Hok]).
  unfold spec_trades in HR. rewrite Hm in HR.
  destruct (OnOrderCancel_accepted c e1 (mkLocation (oa_side_ o) (oa_price_ o) (oa_userId_ o)) Hok1)
    as (e2 & _ & Ha2 & _ & HC); [|done|].
  { rewrite Hi, um_find_add_index, Hm. by rewrite decide_True. }
  assert (∀ y, y ∈ side_list (oa_side_ o) (abs e1) ↔ y = mine ∨ y ∈ side_list (oa_side_ o) (abs e))
    as Hel.
  { intros y. rewrite Ha. unfold spec_add, rest_remainder. rewrite Hm. cbn [fr_left fr_remaining].
    destruct (Z.ltb_spec 0 (value (oa_volume_ o))); [|lia].
    destruct (oa_side_ o); cbn [side_list ab_bids ab_asks];
      rewrite elem_of_rest_at; unfold mine; by destruct (oa_volume_ o). }
  assert (side_list (oa_side_ o) (abs e2) =
      remove_at (oa_price_ o) (oa_orderId_ o) (side_list (oa_side_ o) (abs e1))) as Hl.
  { rewrite Ha2. unfold spec_remove. cbn. by destruct (oa_side_ o). }
  exists e1, e2. rewrite Hl, !Hel. rewrite <-Ha2 in HC.
  split_and!; [done|by right|by left|done|done|..]; by intros [[] _]%list_elem_of_filter.
Qed.

(** The engine of the sample run: user 7 reuses order id 2 of user 2, resting at 100. *)
Lemma reused_id_cancels_foreign_order_witness :
  let o := add 2 7 AAPL Sell 100 6 in
  let x := (Strong 100, mkResting (Strong 2) (Strong 2) (Strong 5)) in
  let mine := (Strong 100, mkResting (Strong 2) (Strong 7) (Strong 6)) in
  ∃ e1 e2, OnOrderAdd collect o sample_engine [] = Ok (e1, []) ∧
    x ∈ ab_asks (abs e1) ∧ mine ∈ ab_asks (abs e1) ∧
    OnOrderCancel (cancel 2 7 AAPL) e1 = (if decide (mid_fits (abs e2)) then Ok e2 else Undefined) ∧
    ab_asks (abs e2) = remove_at (Strong 100) (Strong 2) (ab_asks (abs e1)) ∧
    x ∉ ab_asks (abs e2) ∧ mine ∉ ab_asks (abs e2).
Proof.
  intros o x mine. apply (reused_id_cancels_foreign_order o sample_engine x);
    try reflexivity; try apply sample_ok; by apply (bool_decide_unpack _).
Defined.

(** A reused id can also leave an order that nobody can cancel.  User 1's order 7
    rests at 100 and a second order 7 rests at 101; filling the first erases the
    index entry of the id, so the owner's cancel of the second is ignored and the
    order keeps resting. *)
Theorem reused_id_blocks_cancel :
  ∃ e : CEngine,
    engine_after [add 7 1 AAPL Sell 100 5; add 7 1 AAPL Sell 101 6; add 8 2 AAPL Buy 100 5] = Ok e ∧
    ab_asks (abs e) = [(Strong 101, mkResting (Strong 7) (Strong 1) (Strong 6))] ∧
    OnOrderCancel (cancel 7 1 AAPL) e = Ok e.
Proof.
  exists (ok_or engine_init (engine_after
    [add 7 1 AAPL Sell 100 5; add 7 1 AAPL Sell 101 6; add 8 2 AAPL Buy 100 5])).
  split_and!; vm_compute; reflexivity.
Qed.
