(* ===== verification/Router.v ===== *)
(** * MatchingEngineRouter (common/engine/matching_engine_router.hpp)

    One engine per listed instrument, dispatched by ticker. *)

From S2P Require Import Prelude Interfaces CoreTypes Seqlock FlatMap MatchingEngine BookSpec EngineRefinement EngineSpec EngineInvariant EngineIndex Concrete EngineTheorems.

Local Open Scope Z_scope.

Record MatchingEngineRouter (Index : Type) := mkRouter {
  engines_ : list (MatchingEngine Index);
}.
Arguments mkRouter {Index} _.
Arguments engines_ {Index} _.

Section Router.
Context {Ticker : Type} `{!TickerType Ticker} {Index : Type} `{!OrderIndexType Index}.
Implicit Types (r : MatchingEngineRouter Index) (t : Ticker).

(** std::ranges::find as a distance from the beginning: the length if absent. *)
Fixpoint find_index (l : list Ticker) t : nat :=
  match l with
  | [] => O
  | t' :: l' => if decide (t' = t) then O else S (find_index l' t)
  end.

Definition TickerIndex t : nat := find_index INSTRUMENTS t.

(** std::array<MatchingEngine, INSTRUMENTS.size()> *)
Definition router_init : MatchingEngineRouter Index :=
  mkRouter (replicate (length (INSTRUMENTS (Ticker:=Ticker))) engine_init).

(** engines_[index]; an index that is out of bounds is undefined behaviour. *)
Definition engine_at r (index : nat) : Outcome (MatchingEngine Index) :=
  match engines_ r !! index with Some e => Ok e | None => Undefined end.

Definition router_OnOrderAdd {H} (onTrade : Trade Ticker → H → Outcome H)
    (order : OrderAdd Ticker) r (h : H) : Outcome (MatchingEngineRouter Index * H) :=
  let index := TickerIndex (oa_ticker_ order) in
  if (index <? length (engines_ r))%nat then
    e ← engine_at r index;
    '(e, h) ← OnOrderAdd onTrade order e h;
    Ok (mkRouter (<[index := e]> (engines_ r)), h)
  else Ok (r, h).

Definition router_OnOrderCancel (cancel : OrderCancel Ticker) r
    : Outcome (MatchingEngineRouter Index) :=
  let index := TickerIndex (oc_ticker_ cancel) in
  if (index <? length (engines_ r))%nat then
    e ← engine_at r index;
    e ← OnOrderCancel cancel e;
    Ok (mkRouter (<[index := e]> (engines_ r)))
  else Ok r.

Definition router_MidPrice r t : Outcome (option Price) :=
  let index := TickerIndex t in
  if (index <? length (engines_ r))%nat then e ← engine_at r index; MidPrice e
  else Ok None.

(** ** Facts *)

(** The engine of a listed ticker. *)
Definition engine_for r t : option (MatchingEngine Index) := engines_ r !! TickerIndex t.

(** The array has one engine per instrument. *)
Definition router_sized r : Prop := length (engines_ r) = length (INSTRUMENTS (Ticker:=Ticker)).

Lemma find_index_lt (l : list Ticker) t : (find_index l t < length l)%nat ↔ t ∈ l.
Proof.
  induction l as [|t' l IH]; cbn; [split; [lia|by intros ?%elem_of_nil]|].
  rewrite elem_of_cons. case_decide; subst; [split; [by left|lia]|].
  rewrite <-Nat.succ_lt_mono, IH. naive_solver.
Qed.

Lemma find_index_inj (l : list Ticker) t1 t2 :
  t1 ∈ l → find_index l t1 = find_index l t2 → t1 = t2.
Proof.
  induction l as [|t l IH]; [by intros ?%elem_of_nil|]. cbn.
  intros Hin. repeat case_decide; subst; try done.
  intros [= E]. apply IH; [|done]. apply elem_of_cons in Hin as [->|?]; done.
Qed.

Lemma TickerIndex_listed r t : router_sized r →
  (TickerIndex t <? length (engines_ r))%nat = bool_decide (t ∈ (INSTRUMENTS : list Ticker)).
Proof.
  intros ->. apply Bool.eq_iff_eq_true.
  rewrite Nat.ltb_lt, bool_decide_eq_true. apply find_index_lt.
Qed.

Lemma engine_for_listed r t : router_sized r → t ∈ (INSTRUMENTS : list Ticker) →
  ∃ e, engine_for r t = Some e.
Proof.
  intros Hs Ht. apply lookup_lt_is_Some_2. rewrite Hs. by apply find_index_lt.
Qed.

(** The routed operations, on a listed and on an unlisted ticker. *)
Lemma router_OnOrderAdd_listed {H} (onTrade : Trade Ticker → H → Outcome H) o r h e :
  engine_for r (oa_ticker_ o) = Some e →
  router_OnOrderAdd onTrade o r h =
  ('(e', h') ← OnOrderAdd onTrade o e h;
   Ok (mkRouter (<[TickerIndex (oa_ticker_ o) := e']> (engines_ r)), h')).
Proof.
  intros He. unfold router_OnOrderAdd, engine_at. unfold engine_for in He. rewrite He.
  apply lookup_lt_Some, Nat.ltb_lt in He. by rewrite He.
Qed.

Lemma router_OnOrderCancel_listed c r e :
  engine_for r (oc_ticker_ c) = Some e →
  router_OnOrderCancel c r =
  (e' ← OnOrderCancel c e; Ok (mkRouter (<[TickerIndex (oc_ticker_ c) := e']> (engines_ r)))).
Proof.
  intros He. unfold router_OnOrderCancel, engine_at. unfold engine_for in He. rewrite He.
  apply lookup_lt_Some, Nat.ltb_lt in He. by rewrite He.
Qed.

Lemma engine_for_insert r t e t' : t ∈ (INSTRUMENTS : list Ticker) → router_sized r →
  engine_for (mkRouter (<[TickerIndex t := e]> (engines_ r))) t' =
  if decide (t = t') then Some e else engine_for r t'.
Proof.
  intros Ht Hs. unfold engine_for. cbn. case_decide as E; subst.
  - apply list_lookup_insert_eq. rewrite Hs. by apply find_index_lt.
  - apply list_lookup_insert_ne. intros Hi. apply E. by apply (find_index_inj INSTRUMENTS).
Qed.

Lemma router_sized_insert r i e :
  router_sized r → router_sized (mkRouter (<[i := e]> (engines_ r))).
Proof. unfold router_sized. cbn. by rewrite length_insert. Qed.

Lemma router_sized_init : router_sized router_init.
Proof. unfold router_sized. cbn. by rewrite length_replicate. Qed.

End Router.

(** ** Independence of the instruments *)

Section RouterRuns.
Context {Ticker : Type} `{!TickerType Ticker} {Index : Type} `{!OrderIndexType Index}.
Implicit Types (r : MatchingEngineRouter Index) (e : MatchingEngine Index)
  (cmd : InboundCommand Ticker) (ts : list (Trade Ticker)) (t : Ticker).

Definition cmd_ticker cmd : Ticker :=
  match cmd with CmdAdd o => oa_ticker_ o | CmdCancel c => oc_ticker_ c end.

(** A command run on a single engine, its trades collected. *)
Definition engine_exec cmd (s : MatchingEngine Index * list (Trade Ticker))
    : Outcome (MatchingEngine Index * list (Trade Ticker)) :=
  match cmd with
  | CmdAdd o => OnOrderAdd collect o s.1 s.2
  | CmdCancel c => e ← OnOrderCancel c s.1; Ok (e, s.2)
  end.

(** A command run through the router, its trades collected. *)
Definition router_exec cmd (s : MatchingEngineRouter Index * list (Trade Ticker))
    : Outcome (MatchingEngineRouter Index * list (Trade Ticker)) :=
  match cmd with
  | CmdAdd o => router_OnOrderAdd collect o s.1 s.2
  | CmdCancel c => r ← router_OnOrderCancel c s.1; Ok (r, s.2)
  end.

(** The fields of a command are 64-bit values, as its type says. *)
Definition cmd_fields cmd : Prop :=
  match cmd with CmdAdd o => order_in_range o | CmdCancel _ => True end.

#[export] Instance cmd_fields_dec cmd : Decision (cmd_fields cmd).
Proof. unfold cmd_fields. case_match; apply _. Defined.

(** Commands with prices within 2^62, which keep every mid price defined.  Nothing in
    the program enforces this. *)
Definition cmd_ok cmd : Prop :=
  match cmd with
  | CmdAdd o => order_in_range o ∧ price_small (oa_price_ o)
  | CmdCancel _ => True
  end.

#[export] Instance cmd_ok_dec cmd : Decision (cmd_ok cmd).
Proof. unfold cmd_ok. case_match; apply _. Defined.

Definition engine_good e : Prop := engine_ok e ∧ prices_small (abs e).

Lemma cmd_ok_fields cmd : cmd_ok cmd → cmd_fields cmd.
Proof. by destruct cmd; [intros [? _]|]. Qed.

(** One well-formed engine per instrument. *)
Definition router_wf r : Prop :=
  router_sized (Ticker:=Ticker) r ∧ Forall engine_ok (engines_ r).

(** And with prices within 2^62. *)
Definition router_ok r : Prop :=
  router_sized (Ticker:=Ticker) r ∧ Forall engine_good (engines_ r).

Lemma router_ok_wf r : router_ok r → router_wf r.
Proof. intros [? H]. split; [done|]. eapply Forall_impl; [exact H|]. by intros e [? _]. Qed.

Lemma router_init_ok : router_ok (router_init (Ticker:=Ticker)).
Proof.
  split; [apply router_sized_init|]. apply Forall_replicate.
  split; [apply engine_init_ok|constructor].
Qed.

(** The trades of one instrument. *)
Definition trades_of t ts : list (Trade Ticker) := filter (λ tr, tr_ticker_ tr = t) ts.

Lemma trades_of_spec t o b :
  trades_of t (spec_trades o b) = if decide (oa_ticker_ o = t) then spec_trades o b else [].
Proof.
  unfold spec_trades. induction (fr_fills _) as [|f fs IH]; csimpl; [by case_decide|].
  unfold trades_of in *. rewrite filter_cons, IH. cbn. by repeat case_decide.
Qed.

(** A command on an engine, whatever was collected before: it returns with the same
    engine and the same new trades, all of the command's instrument, or it is
    undefined, which takes a price of 2^62 or more in size. *)
Lemma engine_exec_total cmd e : engine_ok e → cmd_fields cmd →
  (∃ e' new, engine_ok e' ∧ (∀ ts, engine_exec cmd (e, ts) = Ok (e', ts ++ new)) ∧
     (prices_small (abs e) → cmd_ok cmd → prices_small (abs e')) ∧
     ∀ t, trades_of t new = if decide (cmd_ticker cmd = t) then new else []) ∨
  ((∀ ts, engine_exec cmd (e, ts) = Undefined) ∧ (prices_small (abs e) → ¬ cmd_ok cmd)).
Proof.
  intros Hok. destruct cmd as [o|c]; cbn [cmd_fields cmd_ok cmd_ticker engine_exec fst snd].
  - intros Ho. destruct (OnOrderAdd_total collect o e Hok Ho) as (e' & Hok' & Ha & _ & HR).
    case_decide as Hf; [left; exists e', (spec_trades o (abs e)); rewrite Ha|right]; split_and!.
    + done.
    + intros ts. by rewrite HR, foldM_collect.
    + intros Hs [_ Hp]. by apply spec_add_small.
    + intros t. apply trades_of_spec.
    + intros ts. by rewrite HR, foldM_collect.
    + intros Hs [_ Hp]. by apply Hf, prices_small_mid_fits, spec_add_small.
  - intros _. destruct (OnOrderCancel_total c e Hok)
      as [HR|(loc & e' & _ & _ & Hok' & Ha & _ & HR)]; rewrite HR.
    { left. exists e, []. split_and!; [done| |done|by intros t; case_decide].
      intros ts. cbn. by rewrite app_nil_r. }
    case_decide as Hf; [left; exists e', []; rewrite Ha|right]; split_and!; try done.
    + intros ts. cbn. by rewrite app_nil_r.
    + intros Hs _. by apply spec_remove_small.
    + intros t. by case_decide.
    + intros Hs _. by apply Hf, prices_small_mid_fits, spec_remove_small.
Qed.

(** A command for an unlisted ticker does nothing. *)
Lemma router_exec_unlisted cmd r ts : router_sized (Ticker:=Ticker) r →
  cmd_ticker cmd ∉ (INSTRUMENTS : list Ticker) → router_exec cmd (r, ts) = Ok (r, ts).
Proof.
  intros Hs Hno. destruct cmd as [o|c]; cbn in *;
    unfold router_OnOrderAdd, router_OnOrderCancel;
    by rewrite TickerIndex_listed, bool_decide_eq_false_2.
Qed.

Lemma router_exec_listed cmd r ts e : engine_for r (cmd_ticker cmd) = Some e →
  router_exec cmd (r, ts) =
  ('(e', ts') ← engine_exec cmd (e, ts);
   Ok (mkRouter (<[TickerIndex (cmd_ticker cmd) := e']> (engines_ r)), ts')).
Proof.
  intros He. destruct cmd as [o|c]; cbn in *.
  - by apply router_OnOrderAdd_listed.
  - rewrite (router_OnOrderCancel_listed c r e) by done. by destruct (OnOrderCancel c e).
Qed.

(** One command: it acts on its own instrument as on a lone engine, the undefined
    mid price included, and leaves every other instrument and its trades alone. *)
Lemma router_exec_total cmd r ts : router_wf r → cmd_fields cmd →
  (∃ r' ts', router_exec cmd (r, ts) = Ok (r', ts') ∧ router_wf r' ∧
     (router_ok r → cmd_ok cmd → router_ok r') ∧
     ∀ t e, engine_for r t = Some e →
       ∃ e', engine_for r' t = Some e' ∧
         if decide (cmd_ticker cmd = t)
         then engine_exec cmd (e, trades_of t ts) = Ok (e', trades_of t ts')
         else e' = e ∧ trades_of t ts' = trades_of t ts) ∨
  (router_exec cmd (r, ts) = Undefined ∧ (router_ok r → ¬ cmd_ok cmd) ∧
   ∃ e, engine_for r (cmd_ticker cmd) = Some e ∧ ∀ ts', engine_exec cmd (e, ts') = Undefined).
Proof.
  intros [Hsz Hall] Hc.
  destruct (decide (cmd_ticker cmd ∈ (INSTRUMENTS : list Ticker))) as [Hin|Hno]; cycle 1.
  { left. exists r, ts. split; [by apply router_exec_unlisted|]. split_and!; [done..|].
    intros t e He. exists e. split; [done|]. case_decide as E; [|done]. subst t.
    apply lookup_lt_Some in He. rewrite Hsz in He. by apply find_index_lt in He. }
  destruct (engine_for_listed r _ Hsz Hin) as [e He].
  assert (engine_ok e) as Hok by (by eapply Forall_lookup_1 in He).
  assert (router_ok r → prices_small (abs e)) as Hsm.
  { intros [_ Hg]. eapply Forall_lookup_1 in Hg; [|exact He]. apply Hg. }
  destruct (engine_exec_total cmd e Hok Hc) as [(e' & new & Hok' & Hany & Hs & Hnew)|[HU Hs]]; cycle 1.
  { right. rewrite (router_exec_listed cmd r ts e He), HU. split_and!; [done|auto|eauto]. }
  left. eexists _, _. split; [by rewrite (router_exec_listed cmd r ts e He), Hany|].
  split; [split; [by apply router_sized_insert|by apply Forall_insert]|]. split.
  { intros Hr Hcok. split; [by apply router_sized_insert|].
    apply Forall_insert; [apply Hr|]. split; [done|]. by apply Hs; [apply Hsm|]. }
  intros t e1 He1. rewrite engine_for_insert by done.
  unfold trades_of in *. rewrite filter_app, Hnew. case_decide as E.
  - subst t. exists e'. split; [done|]. assert (e1 = e) as -> by congruence. apply Hany.
  - exists e1. by rewrite app_nil_r.
Qed.

(** The run of the router described by the runs of lone engines. *)
Definition independent_run (cmds : list (InboundCommand Ticker)) r ts : Prop :=
  match foldM router_exec cmds (r, ts) with
  | Ok (r', ts') => ∀ t e, engine_for r t = Some e →
      ∃ e', engine_for r' t = Some e' ∧
        foldM engine_exec (filter (λ cmd, cmd_ticker cmd = t) cmds) (e, trades_of t ts) =
        Ok (e', trades_of t ts')
  | Undefined => ∃ t e, engine_for r t = Some e ∧
        foldM engine_exec (filter (λ cmd, cmd_ticker cmd = t) cmds) (e, trades_of t ts) = Undefined
  | _ => False
  end.

(** A command that returns, then a run. *)
Lemma independent_run_cons cmd cmds r ts r1 ts1 :
  router_exec cmd (r, ts) = Ok (r1, ts1) →
  router_sized (Ticker:=Ticker) r → router_sized (Ticker:=Ticker) r1 →
  (∀ t e, engine_for r t = Some e →
    ∃ e', engine_for r1 t = Some e' ∧
      if decide (cmd_ticker cmd = t)
      then engine_exec cmd (e, trades_of t ts) = Ok (e', trades_of t ts1)
      else e' = e ∧ trades_of t ts1 = trades_of t ts) →
  independent_run cmds r1 ts1 → independent_run (cmd :: cmds) r ts.
Proof.
  intros HR1 Hs Hs1 H1. unfold independent_run. cbn [foldM]. rewrite HR1. cbn [mbind Outcome_bind].
  assert (∀ t e, engine_for r t = Some e → ∃ e1, engine_for r1 t = Some e1 ∧
    foldM engine_exec (filter (λ cmd, cmd_ticker cmd = t) (cmd :: cmds)) (e, trades_of t ts) =
    foldM engine_exec (filter (λ cmd, cmd_ticker cmd = t) cmds) (e1, trades_of t ts1)) as Hstep.
  { intros t e He. destruct (H1 t e He) as (e1 & He1 & Hstep). exists e1. split; [done|].
    rewrite filter_cons. case_decide; [cbn [foldM]; by rewrite Hstep|]. by destruct Hstep as [-> ->]. }
  destruct (foldM router_exec cmds (r1, ts1)) as [[r' ts']|ex| |]; try done.
  - intros H2 t e He. destruct (Hstep t e He) as (e1 & He1 & ->). by apply H2.
  - intros (t & e1 & He1 & HU). destruct (engine_for r t) as [e|] eqn:He; cycle 1.
    { apply lookup_ge_None_1 in He. apply lookup_lt_Some in He1.
      unfold router_sized in Hs, Hs1. lia. }
    exists t, e. split; [done|]. destruct (Hstep t e He) as (e1' & He1' & ->). congruence.
Qed.

Lemma router_runs_independent cmds r ts : router_wf r → Forall cmd_fields cmds →
  independent_run cmds r ts.
Proof.
  intros Hr Hc. revert r ts Hr. induction Hc as [|cmd cmds Hcmd Hc IH]; intros r ts Hr.
  { intros t e He. by exists e. }
  destruct (router_exec_total cmd r ts Hr Hcmd)
    as [(r1 & ts1 & HR & Hr1 & _ & H1)|(HR & _ & e & He & HU)].
  { eapply independent_run_cons; eauto; [apply Hr|apply Hr1]. }
  unfold independent_run. cbn [foldM]. rewrite HR. exists (cmd_ticker cmd), e. split; [done|].
  rewrite filter_cons_True by done. cbn [foldM]. by rewrite HU.
Qed.

Lemma small_prices_run_to_the_end cmds r ts : router_ok r → Forall cmd_ok cmds →
  is_ok (foldM router_exec cmds (r, ts)) = true.
Proof.
  intros Hr Hc. revert r ts Hr. induction Hc as [|cmd cmds Hcmd Hc IH]; intros r ts Hr; [done|].
  destruct (router_exec_total cmd r ts (router_ok_wf r Hr) (cmd_ok_fields cmd Hcmd))
    as [(r1 & ts1 & HR & _ & Hr1 & _)|(_ & Hno & _)]; [|by destruct (Hno Hr)].
  cbn [foldM]. rewrite HR. by apply IH, Hr1.
Qed.
End RouterRuns.

(** C14: Instruments are independent.  Run any commands with 64-bit fields through a
    router with a well-formed engine per instrument.  If the run reaches the end,
    each listed instrument's engine, and the trades of that instrument, are exactly
    what a lone engine gives on the commands for that ticker alone: orders for
    different instruments never cross.  If it does not, it ended in undefined
    behaviour, and so does the lone engine of some instrument on its own commands
    (its mid price overflows).  With all prices within [-2^62, 2^62) the run does
    reach the end. *)
Theorem instruments_are_independent {Ticker Index} `{!TickerType Ticker} `{!OrderIndexType Index}
    (cmds : list (InboundCommand Ticker)) (r : MatchingEngineRouter Index) ts :
  router_wf (Ticker:=Ticker) r → Forall cmd_fields cmds →
  match foldM router_exec cmds (r, ts) with
  | Ok (r', ts') => ∀ t e, engine_for r t = Some e →
      ∃ e', engine_for r' t = Some e' ∧
        foldM engine_exec (filter (λ cmd, cmd_ticker cmd = t) cmds) (e, trades_of t ts) =
        Ok (e', trades_of t ts')
  | Undefined => ∃ t e, engine_for r t = Some e ∧
        foldM engine_exec (filter (λ cmd, cmd_ticker cmd = t) cmds) (e, trades_of t ts) = Undefined
  | _ => False
  end ∧
  (router_ok (Ticker:=Ticker) r → Forall cmd_ok cmds →
   is_ok (foldM router_exec cmds (r, ts)) = true).
Proof.
  intros Hr Hc. split; [exact (router_runs_independent cmds r ts Hr Hc)|].
  apply small_prices_run_to_the_end.
Qed.

Definition sample_cmds : list (InboundCommand CTicker) :=
  [CmdAdd (add 1 1 AAPL Sell 100 10); CmdAdd (add 2 2 GOOG Buy 100 10);
   CmdAdd (add 3 3 AAPL Buy 100 4); CmdCancel (cancel 1 1 GOOG)].

Lemma instruments_are_independent_witness :
  let r := router_init (Ticker:=CTicker) (Index:=CIndex) in
  match foldM router_exec sample_cmds (r, []) with
  | Ok (r', ts') => ∀ t e, engine_for r t = Some e →
      ∃ e', engine_for r' t = Some e' ∧
        foldM engine_exec (filter (λ cmd, cmd_ticker cmd = t) sample_cmds) (e, trades_of t []) =
        Ok (e', trades_of t ts')
  | Undefined => ∃ t e, engine_for r t = Some e ∧
        foldM engine_exec (filter (λ cmd, cmd_ticker cmd = t) sample_cmds) (e, trades_of t []) =
        Undefined
  | _ => False
  end ∧ is_ok (foldM router_exec sample_cmds (r, [])) = true.
Proof.
  assert (Forall cmd_ok sample_cmds) as Hc by (by apply (bool_decide_unpack _)).
  destruct (instruments_are_independent (TickerType0:=static_str_ops MAX_TICKER_LENGTH)
    (Index:=CIndex) sample_cmds (router_init (Ticker:=CTicker)) []) as [H1 H2];
    [apply router_ok_wf, router_init_ok|by apply (bool_decide_unpack _)|].
  split; [exact H1|exact (H2 router_init_ok Hc)].
Defined.

(** A request for a ticker that is not listed is dropped: the order is not
    matched and its handler not called, the cancel does nothing, and the ticker has
    no mid price. *)
Theorem unlisted_ticker_ignored {Ticker Index H} `{!TickerType Ticker} `{!OrderIndexType Index}
    (onTrade : Trade Ticker → H → Outcome H) (o : OrderAdd Ticker) (c : OrderCancel Ticker)
    (r : MatchingEngineRouter Index) h :
  router_sized (Ticker:=Ticker) r →
  oa_ticker_ o ∉ INSTRUMENTS → oc_ticker_ c ∉ INSTRUMENTS →
  router_OnOrderAdd onTrade o r h = Ok (r, h) ∧ router_OnOrderCancel c r = Ok r ∧
  router_MidPrice r (oa_ticker_ o) = Ok None.
Proof.
  intros Hs Ho Hc. unfold router_OnOrderAdd, router_OnOrderCancel, router_MidPrice.
  by rewrite !TickerIndex_listed, !bool_decide_eq_false_2.
Qed.

Lemma unlisted_ticker_ignored_witness :
  router_OnOrderAdd collect (add 1 1 ZZZZ Buy 100 10) (router_init (Index:=CIndex)) [] =
    Ok (router_init, []) ∧
  router_OnOrderCancel (cancel 1 1 ZZZZ) (router_init (Index:=CIndex)) = Ok router_init ∧
  router_MidPrice (router_init (Index:=CIndex)) ZZZZ = Ok None.
Proof.
  apply (unlisted_ticker_ignored collect (add 1 1 ZZZZ Buy 100 10) (cancel 1 1 ZZZZ)
    (router_init (Ticker:=CTicker)) []);
    [apply router_sized_init|by apply (bool_decide_unpack _)..].
Defined.

(** Every listed ticker has an engine of its own: the index of the array is in
    bounds and different tickers have different indices, so the router never reads
    outside the array of engines. *)
Theorem listed_tickers_have_engines {Ticker Index} `{!TickerType Ticker} `{!TickerLaws Ticker}
    `{!OrderIndexType Index} :
  length (engines_ (router_init (Ticker:=Ticker) (Index:=Index))) = 4%nat ∧
  (∀ t : Ticker, t ∈ INSTRUMENTS ↔ (TickerIndex t < 4)%nat) ∧
  (∀ t1 t2 : Ticker, t1 ∈ INSTRUMENTS → TickerIndex t1 = TickerIndex t2 → t1 = t2).
Proof.
  split_and!.
  - cbn. by rewrite length_replicate, INSTRUMENTS_length.
  - intros t. unfold TickerIndex. by rewrite <-find_index_lt, INSTRUMENTS_length.
  - apply find_index_inj.
Qed.

Lemma listed_tickers_have_engines_witness :
  length (engines_ (router_init (Ticker:=CTicker) (Index:=CIndex))) = 4%nat ∧
  (∀ t : CTicker, t ∈ INSTRUMENTS ↔ (TickerIndex t < 4)%nat) ∧
  (∀ t1 t2 : CTicker, t1 ∈ INSTRUMENTS → TickerIndex t1 = TickerIndex t2 → t1 = t2).
Proof. apply listed_tickers_have_engines. Defined.
