(* ===== verification/User.v ===== *)
(** * Users and their holdings (common/engine/user.hpp)

    Position, average cost and P&L of one user per ticker, over any arithmetic of
    doubles; the inventory is any map with the interface of the hash map the code
    uses. *)

From S2P Require Import Prelude Interfaces Double CoreTypes.

Local Open Scope Z_scope.

Record Holding (D : Type) := mkHolding {
  hd_volume_ : Volume;
  hd_avgCost_ : USD D;
  hd_realizedPnl_ : USD D;
  hd_unrealizedPnl_ : USD D;
}.
Arguments mkHolding {D} _ _ _ _.
Arguments hd_volume_ {D} _.
Arguments hd_avgCost_ {D} _.
Arguments hd_realizedPnl_ {D} _.
Arguments hd_unrealizedPnl_ {D} _.

Record User (Inv : Type) := mkUser {
  us_id_ : UserId;
  us_inventory_ : Inv;
}.
Arguments mkUser {Inv} _ _.
Arguments us_id_ {Inv} _.
Arguments us_inventory_ {Inv} _.

Notation InventoryMap Ticker D := (UMap Ticker (Holding D)).
Notation InventoryLaws Ticker D := (UMapLaws Ticker (Holding D)).

Section HoldingOps.
Context {D : Type} `{!DoubleOps D}.
Implicit Types (h : Holding D).

Definition holding_init : Holding D :=
  mkHolding (Strong 0) (Strong (d_of_Z 0)) (Strong (d_of_Z 0)) (Strong (d_of_Z 0)).

(** (side == Side::Buy) ? tradeVolume.value() : -tradeVolume.value() *)
Definition signed_delta (side : Side) (tradeVolume : Volume) : Outcome Z :=
  match side with
  | Buy => Ok (value tradeVolume)
  | Sell => i64_neg (value tradeVolume)
  end.

(** The body of ApplyFill on the holding of the ticker. *)
Definition fill_holding (side : Side) (execPrice : Price) (tradeVolume : Volume) h
    : Outcome (Holding D) :=
  signedDelta ← signed_delta side tradeVolume;
  let oldVolume := value (hd_volume_ h) in
  let execUsd := value (ToUsd (D:=D) execPrice) in
  let avgCost := value (hd_avgCost_ h) in
  let sameDirection :=
    (oldVolume =? 0) || Bool.eqb (0 <? oldVolume) (0 <? signedDelta) in
  h ← (if sameDirection then
         oldA ← i64_abs oldVolume;
         addA ← i64_abs signedDelta;
         let oldAbs := d_of_Z oldA in
         let addAbs := d_of_Z addA in
         Ok (mkHolding (hd_volume_ h)
               (Strong (d_div (d_add (d_mul avgCost oldAbs) (d_mul execUsd addAbs))
                              (d_add oldAbs addAbs)))
               (hd_realizedPnl_ h) (hd_unrealizedPnl_ h))
       else
         oldA ← i64_abs oldVolume;
         addA ← i64_abs signedDelta;
         let closedAmount := Z.min oldA addA in
         let pnlPerUnit := if 0 <? oldVolume then d_sub execUsd avgCost
                           else d_sub avgCost execUsd in
         Ok (mkHolding (hd_volume_ h) (hd_avgCost_ h)
               (Strong (d_add (value (hd_realizedPnl_ h))
                              (d_mul pnlPerUnit (d_of_Z closedAmount))))
               (hd_unrealizedPnl_ h)));
  newVolume ← oldVolume ⊞ signedDelta;
  let flippedSign := ((0 <? oldVolume) && (newVolume <? 0)) ||
                     ((oldVolume <? 0) && (0 <? newVolume)) in
  let avgCost := if negb sameDirection && flippedSign then Strong execUsd
                 else if newVolume =? 0 then Strong (d_of_Z 0)
                 else hd_avgCost_ h in
  Ok (mkHolding (Strong newVolume) avgCost (hd_realizedPnl_ h) (hd_unrealizedPnl_ h)).

(** The body of RefreshUnrealizedPnl on the holding of the ticker. *)
Definition mark_holding (midPrice : Price) h : Holding D :=
  let mid := value (ToUsd (D:=D) midPrice) in
  mkHolding (hd_volume_ h) (hd_avgCost_ h) (hd_realizedPnl_ h)
    (Strong (d_mul (d_of_Z (value (hd_volume_ h))) (d_sub mid (value (hd_avgCost_ h))))).
End HoldingOps.

Section UserOps.
Context {D : Type} `{!DoubleOps D} {Ticker : Type} `{!TickerType Ticker}.
Context {Inv : Type} `{!InventoryMap Ticker D Inv}.
Implicit Types (u : User Inv) (t : Ticker).

Definition user_new (id : UserId) : User Inv := mkUser id um_empty.

Definition Id u : UserId := us_id_ u.

Definition Position u t : Volume :=
  match um_find t (us_inventory_ u) with None => Strong 0 | Some h => hd_volume_ h end.

Definition RealizedPnl u t : USD D :=
  match um_find t (us_inventory_ u) with
  | None => Strong (d_of_Z 0)
  | Some h => hd_realizedPnl_ h
  end.

Definition UnrealizedPnl u t : USD D :=
  match um_find t (us_inventory_ u) with
  | None => Strong (d_of_Z 0)
  | Some h => hd_unrealizedPnl_ h
  end.

Definition Inventory u : Inv := us_inventory_ u.

(** inventory_[ticker]: a reference to the holding, created when absent. *)
Definition holding_of u t : Holding D :=
  match um_find t (us_inventory_ u) with None => holding_init | Some h => h end.

Definition ApplyFill t (side : Side) (execPrice : Price) (tradeVolume : Volume) u
    : Outcome (User Inv) :=
  h ← fill_holding side execPrice tradeVolume (holding_of u t);
  Ok (mkUser (us_id_ u) (um_set t h (us_inventory_ u))).

Definition RefreshUnrealizedPnl t (midPrice : Price) u : User Inv :=
  match um_find t (us_inventory_ u) with
  | None => u
  | Some h => mkUser (us_id_ u) (um_set t (mark_holding midPrice h) (us_inventory_ u))
  end.
End UserOps.

(** ** Facts about a holding *)

(** The change of position a fill makes. *)
Definition delta (side : Side) (volume : Volume) : Z :=
  match side with Buy => value volume | Sell => - value volume end.

Section HoldingFacts.
Context {D : Type} `{!DoubleOps D}.
Implicit Types (h : Holding D).

(** A holding whose cost basis is zero when it is flat. *)
Definition holding_ok h : Prop :=
  value (hd_volume_ h) = 0 → hd_avgCost_ h = Strong (d_of_Z 0).

(** The values a fill needs to be representable. *)
Definition fill_fits side volume h : Prop :=
  0 < value volume ∧ is_i64 (value volume) ∧
  is_i64 (Z.abs (value (hd_volume_ h))) ∧ is_i64 (value (hd_volume_ h) + delta side volume).

Lemma signed_delta_Ok side (v : Volume) :
  0 < value v → is_i64 (value v) → signed_delta side v = Ok (delta side v).
Proof.
  intros. destruct side; [done|]. cbn. apply i64_result_Ok. i64.
Qed.

(** A fill in the direction of the position never closes it; one against it has the
    opposite sign. *)
Lemma same_direction (old d : Z) : d ≠ 0 →
  if (old =? 0) || Bool.eqb (0 <? old) (0 <? d) then old + d ≠ 0
  else (0 < old ∧ d < 0) ∨ (old < 0 ∧ 0 < d).
Proof. intros. zbool; cbn; lia. Qed.

(** Every branch of the fill at once. *)
Lemma fill_holding_Ok side p v h : fill_fits side v h →
  let old := value (hd_volume_ h) in
  let d := delta side v in
  let avg := value (hd_avgCost_ h) in
  let exec := value (ToUsd (D:=D) p) in
  let same := (old =? 0) || Bool.eqb (0 <? old) (0 <? d) in
  fill_holding side p v h = Ok (mkHolding (Strong (old + d))
    (if same then
       Strong (d_div (d_add (d_mul avg (d_of_Z (Z.abs old))) (d_mul exec (d_of_Z (Z.abs d))))
                     (d_add (d_of_Z (Z.abs old)) (d_of_Z (Z.abs d))))
     else if decide (Z.abs d < Z.abs old) then hd_avgCost_ h
     else if decide (Z.abs d = Z.abs old) then Strong (d_of_Z 0)
     else Strong exec)
    (if same then hd_realizedPnl_ h
     else Strong (d_add (value (hd_realizedPnl_ h))
       (d_mul (if 0 <? old then d_sub exec avg else d_sub avg exec)
              (d_of_Z (Z.min (Z.abs old) (Z.abs d))))))
    (hd_unrealizedPnl_ h)).
Proof.
  intros (Hv & Hv' & Ho & Hn) old d avg exec same.
  unfold fill_holding. rewrite signed_delta_Ok by done.
  fold old d avg exec. cbn [mbind Outcome_bind].
  assert (is_i64 (Z.abs d)) by (destruct side; cbn in *; i64).
  assert (d ≠ 0) by (destruct side; cbn in *; lia).
  unfold i64_abs, i64_add. rewrite !i64_result_Ok by done.
  pose proof (same_direction old d H0) as Hs. subst same. clearbody old d.
  destruct ((old =? 0) || Bool.eqb (0 <? old) (0 <? d)); cbn [mbind Outcome_bind negb andb orb
    hd_volume_ hd_avgCost_ hd_realizedPnl_ hd_unrealizedPnl_].
  - destruct (Z.eqb_spec (old + d) 0); [lia|done].
  - do 2 f_equal. zbool; cbn [andb orb]; repeat case_decide; try done; lia.
Qed.

(** And when it does not fit, it is undefined: one of the four operations of the
    code overflows. *)
Lemma fill_holding_Undefined side p v h : 0 < value v → is_i64 (value v) →
  ¬ fill_fits side v h → fill_holding side p v h = Undefined.
Proof.
  intros Hv Hv' Hno. unfold fill_holding. rewrite signed_delta_Ok by done. cbn [mbind Outcome_bind].
  assert (is_i64 (Z.abs (delta side v))) as Hd by (destruct side; cbn in *; i64).
  unfold i64_abs, i64_add. rewrite (i64_result_Ok (Z.abs (delta side v))) by done.
  destruct (decide (is_i64 (Z.abs (value (hd_volume_ h))))) as [Ha|Ha]; cycle 1.
  { rewrite (i64_result_Undefined (Z.abs _)) by done. by destruct (_ || Bool.eqb _ _). }
  rewrite (i64_result_Ok (Z.abs _)) by done.
  rewrite (i64_result_Undefined (_ + _)) by (intros ?; by apply Hno). by destruct (_ || Bool.eqb _ _).
Qed.

Lemma fill_holding_volume side p v h h' : fill_fits side v h →
  fill_holding side p v h = Ok h' → value (hd_volume_ h') = value (hd_volume_ h) + delta side v.
Proof. intros Hf. rewrite fill_holding_Ok by done. intros E. by inv_ok. Qed.

Lemma fill_holding_ok side p v h h' :
  fill_fits side v h → fill_holding side p v h = Ok h' → holding_ok h'.
Proof.
  intros Hf. rewrite fill_holding_Ok by done. intros E. inv_ok. unfold holding_ok.
  destruct Hf as (Hv & _). cbn [hd_volume_ hd_avgCost_ value]. intros Hz.
  assert (delta side v ≠ 0) as Hd by (destruct side; cbn in *; lia).
  pose proof (same_direction (value (hd_volume_ h)) _ Hd) as Hs.
  destruct (_ || _); [lia|]. repeat case_decide; (done || lia).
Qed.
End HoldingFacts.

#[export] Hint Resolve fill_holding_ok : exchange.

(** ** Facts about a user *)

Section UserFacts.
Context {D : Type} `{!DoubleOps D} {Ticker : Type} `{!TickerType Ticker}.
Context {Inv : Type} `{!InventoryMap Ticker D Inv} `{!InventoryLaws Ticker D Inv}.
Implicit Types (u : User Inv) (t : Ticker).

Lemma Position_holding u t : Position u t = hd_volume_ (holding_of u t).
Proof. unfold Position, holding_of. by case_match. Qed.

Lemma RealizedPnl_holding u t : RealizedPnl u t = hd_realizedPnl_ (holding_of u t).
Proof. unfold RealizedPnl, holding_of. by case_match. Qed.

Lemma UnrealizedPnl_holding u t : UnrealizedPnl u t = hd_unrealizedPnl_ (holding_of u t).
Proof. unfold UnrealizedPnl, holding_of. by case_match. Qed.

Lemma holding_of_new id t : holding_of (user_new (Inv:=Inv) id) t = holding_init.
Proof. unfold holding_of. cbn. by rewrite um_find_empty. Qed.

Lemma holding_of_set id (m : Inv) t h t' :
  holding_of (mkUser id (um_set t h m)) t' =
  if decide (t = t') then h else holding_of (mkUser id m) t'.
Proof. unfold holding_of. cbn. rewrite um_find_set. by case_decide. Qed.

(** A fill that fits always succeeds and touches one ticker only. *)
Lemma ApplyFill_Ok t side p v u : fill_fits side v (holding_of u t) →
  ∃ h u', fill_holding side p v (holding_of u t) = Ok h ∧ ApplyFill t side p v u = Ok u' ∧
    us_id_ u' = us_id_ u ∧
    ∀ t', holding_of u' t' = if decide (t = t') then h else holding_of u t'.
Proof.
  intros Hf. unfold ApplyFill. rewrite (fill_holding_Ok _ p) by done.
  eexists _, _. split_and!; [done..|]. intros t'. by rewrite holding_of_set.
Qed.

(** Marking to market changes the unrealised P&L of that ticker only. *)
Lemma Refresh_holding t mid u t' :
  holding_of (RefreshUnrealizedPnl t mid u) t' =
  match um_find t (us_inventory_ u) with
  | Some h => if decide (t = t') then mark_holding mid h else holding_of u t'
  | None => holding_of u t'
  end.
Proof.
  unfold RefreshUnrealizedPnl. destruct (um_find t _) eqn:E; [|done].
  by rewrite holding_of_set.
Qed.

End UserFacts.
