(* ===== verification/Accounting.v ===== *)
(** * What the holdings of a user mean

    Against a ledger that only records the signed volume and the cash of every fill:
    the average-cost bookkeeping of user.hpp, in exact arithmetic, is an
    implementation of it. *)

From Stdlib Require Import QArith Qabs Lqa.
From stdpp Require Import gmap.
From S2P Require Import Prelude Interfaces Double CoreTypes Seqlock FlatMap MatchingEngine Concrete User.

Local Open Scope Z_scope.

(** One fill of a user. *)
Record UserFill (Ticker : Type) := mkUserFill {
  uf_ticker : Ticker;
  uf_side : Side;
  uf_price : Price;
  uf_volume : Volume;
}.
Arguments mkUserFill {Ticker} _ _ _ _.
Arguments uf_ticker {Ticker} _.
Arguments uf_side {Ticker} _.
Arguments uf_price {Ticker} _.
Arguments uf_volume {Ticker} _.

(** ** The ledger *)

Section Ledger.
Context {Ticker : Type} `{!EqDecision Ticker}.
Implicit Types (t : Ticker) (f : UserFill Ticker) (fs : list (UserFill Ticker)).

(** A price in dollars, exactly. *)
Definition usd (p : Price) : Q := (inject_Z (value p) / inject_Z PRICE_MULTIPLIER)%Q.

Definition uf_delta f : Z := delta (uf_side f) (uf_volume f).

Definition ledger_position t fs : Z :=
  sumZ uf_delta (filter (λ f, uf_ticker f = t) fs).

(** Dollars received less dollars paid. *)
Fixpoint ledger_cash t fs : Q :=
  match fs with
  | [] => 0%Q
  | f :: fs' =>
      ((if decide (uf_ticker f = t) then - (inject_Z (uf_delta f) * usd (uf_price f)) else 0)
       + ledger_cash t fs')%Q
  end.

(** Volume traded in either direction. *)
Definition turnover fs : Z := sumZ (λ f, value (uf_volume f)) fs.

Definition fills_ok fs : Prop :=
  Forall (λ f, 0 < value (uf_volume f)) fs ∧ turnover fs ≤ i64_max.

#[export] Instance fills_ok_dec fs : Decision (fills_ok fs).
Proof. unfold fills_ok. apply _. Defined.

Lemma turnover_nonneg fs : Forall (λ f, 0 < value (uf_volume f)) fs → 0 ≤ turnover fs.
Proof. intros H. apply sumZ_nonneg. eapply Forall_impl; [exact H|]. cbn. lia. Qed.
End Ledger.

(** ** One holding, in exact arithmetic *)

Section Exact.
Implicit Types (h : Holding Q).

(** What was received on balance to get to this holding. *)
Definition net_cash h : Q :=
  (value (hd_realizedPnl_ h) - inject_Z (value (hd_volume_ h)) * value (hd_avgCost_ h))%Q.

(** Realised and unrealised P&L at a mid price. *)
Definition equity h (mid : Price) : Q :=
  (value (hd_realizedPnl_ h) +
   inject_Z (value (hd_volume_ h)) * (usd mid - value (hd_avgCost_ h)))%Q.

Lemma equity_net_cash h mid :
  (equity h mid == net_cash h + inject_Z (value (hd_volume_ h)) * usd mid)%Q.
Proof. unfold equity, net_cash. ring. Qed.

(** The weighted mean, cleared of its denominator. *)
Lemma mean_cleared (avg p : Q) (old d : Z) : d ≠ 0 →
  (old = 0 ∨ (0 < old ↔ 0 < d)) →
  (inject_Z (old + d) *
   ((avg * inject_Z (Z.abs old) + p * inject_Z (Z.abs d)) /
    (inject_Z (Z.abs old) + inject_Z (Z.abs d))) ==
   inject_Z old * avg + inject_Z d * p)%Q.
Proof.
  intros Hd Hs. rewrite <-inject_Z_plus.
  assert (¬ inject_Z (Z.abs old + Z.abs d) == 0)%Q as Hn.
  { intros E. apply (proj1 (inject_Z_injective _ 0)) in E. lia. }
  assert (∃ s, old = s * Z.abs old ∧ d = s * Z.abs d) as (s & Eo & Ed).
  { destruct (decide (0 < d)); [exists 1|exists (-1)]; lia. }
  rewrite Eo at 1. rewrite Ed at 1.
  rewrite <-Z.mul_add_distr_l, inject_Z_mult.
  set (n := inject_Z (Z.abs old + Z.abs d)) in *.
  rewrite Eo at 2. rewrite Ed at 2. rewrite !inject_Z_mult. field. done.
Qed.

(** The P&L realised on [b] closed shares, signed like the position. *)
Lemma close_pnl (a b old : Z) (q avg : Q) : b = (if decide (0 < old) then a else - a) →
  ((if 0 <? old then q - avg else avg - q) * inject_Z a == inject_Z b * (q - avg))%Q.
Proof.
  intros ->. zbool; case_decide; try lia; [ring|]. rewrite inject_Z_opp. ring.
Qed.

(** A fill moves the net cash by exactly what it pays or receives. *)
Lemma fill_net_cash side p v h h' : fill_fits side v h →
  fill_holding side p v h = Ok h' →
  value (hd_volume_ h') = value (hd_volume_ h) + delta side v ∧
  (net_cash h' == net_cash h - inject_Z (delta side v) * usd p)%Q.
Proof.
  intros Hf. rewrite fill_holding_Ok by done. intros E. inv_ok. split; [done|].
  destruct Hf as (Hv & _).
  assert (delta side v ≠ 0) as Hd by (destruct side; cbn in *; lia).
  unfold net_cash. cbn [hd_volume_ hd_avgCost_ hd_realizedPnl_ value].
  change (inject_Z (value p) / inject_Z PRICE_MULTIPLIER)%Q with (usd p).
  generalize (usd p). intros q.
  set (old := value (hd_volume_ h)). set (d := delta side v) in *.
  cbn [d_add d_sub d_mul d_div d_of_Z exact_ops].
  pose proof (same_direction old d Hd) as Hs.
  destruct ((old =? 0) || Bool.eqb (0 <? old) (0 <? d)) eqn:Es; cbn [value].
  - rewrite mean_cleared; [ring|done|].
    revert Es. zbool; cbn; intros; try done; (by left) || (right; lia).
  - rewrite (close_pnl _ (if decide (Z.abs d < Z.abs old) then - d else old))
      by (repeat case_decide; lia).
    repeat case_decide; cbn [value].
    + rewrite inject_Z_plus, inject_Z_opp. ring.
    + replace (old + d) with 0 by lia. replace d with (- old) by lia.
      rewrite !inject_Z_opp. ring.
    + rewrite inject_Z_plus. ring.
Qed.
End Exact.

(** ** A user's fills *)

Section UserFills.
Context {Ticker : Type} `{!TickerType Ticker} `{!EqDecision Ticker}.
Context {D : Type} `{!DoubleOps D}.
Context {Inv : Type} `{!InventoryMap Ticker D Inv}.

Definition apply_fill (f : UserFill Ticker) (u : User Inv) : Outcome (User Inv) :=
  ApplyFill (uf_ticker f) (uf_side f) (uf_price f) (uf_volume f) u.
End UserFills.

Section LedgerFacts.
Context {Ticker : Type} `{!TickerType Ticker}.
Implicit Types (t : Ticker) (f : UserFill Ticker) (fs : list (UserFill Ticker)).

Lemma ledger_position_snoc t fs f :
  ledger_position t (fs ++ [f]) =
  ledger_position t fs + if decide (uf_ticker f = t) then uf_delta f else 0.
Proof.
  unfold ledger_position. rewrite filter_app, sumZ_app, filter_cons.
  case_decide; cbn; lia.
Qed.

Lemma ledger_cash_snoc t fs f :
  (ledger_cash t (fs ++ [f]) == ledger_cash t fs +
   (if decide (uf_ticker f = t) then - (inject_Z (uf_delta f) * usd (uf_price f)) else 0))%Q.
Proof.
  induction fs as [|f' fs IH]; cbn [app ledger_cash]; [case_decide; ring|].
  rewrite IH. repeat case_decide; ring.
Qed.

Lemma uf_delta_abs f : 0 < value (uf_volume f) → Z.abs (uf_delta f) = value (uf_volume f).
Proof. unfold uf_delta. destruct (uf_side f); cbn; lia. Qed.

Lemma ledger_position_bound t fs : Forall (λ f, 0 < value (uf_volume f)) fs →
  Z.abs (ledger_position t fs) ≤ turnover fs.
Proof.
  unfold ledger_position, turnover. induction 1 as [|f fs Hf _ IH]; [done|].
  rewrite filter_cons. pose proof (uf_delta_abs f Hf).
  case_decide; rewrite ?sumZ_cons; lia.
Qed.

Lemma fills_ok_snoc fs f : fills_ok (fs ++ [f]) →
  fills_ok fs ∧ 0 < value (uf_volume f) ∧ turnover fs + value (uf_volume f) ≤ i64_max.
Proof.
  unfold fills_ok, turnover. rewrite sumZ_app, Forall_app, Forall_singleton. cbn.
  intros [[H1 H2] H3]. split_and!; [done|lia..].
Qed.

Context {D : Type} `{!DoubleOps D}.
Context {Inv : Type} `{!InventoryMap Ticker D Inv} `{!InventoryLaws Ticker D Inv}.
Implicit Types (u : User Inv).

(** A position that is the sum of past fills has room for the next. *)
Lemma ledger_fits fs f (h : Holding D) : fills_ok (fs ++ [f]) →
  value (hd_volume_ h) = ledger_position (uf_ticker f) fs →
  fill_fits (uf_side f) (uf_volume f) h.
Proof.
  intros (Hok & Hv & Ht)%fills_ok_snoc Hp.
  pose proof (ledger_position_bound (uf_ticker f) fs (proj1 Hok)).
  pose proof (turnover_nonneg fs (proj1 Hok)).
  pose proof (uf_delta_abs f Hv). unfold uf_delta in *. repeat split; try i64.
Qed.

(** Fills within range never fail, and the positions are those of the ledger,
    whatever the arithmetic of doubles. *)
Lemma fills_positions id fs : fills_ok fs →
  ∃ u, foldM apply_fill fs (user_new id) = Ok u ∧ us_id_ u = id ∧
    ∀ t, value (hd_volume_ (holding_of u t)) = ledger_position t fs ∧
         holding_ok (holding_of u t).
Proof.
  induction fs as [|f fs IH] using rev_ind.
  - intros _. exists (user_new id). split_and!; [done..|]. intros t.
    by rewrite holding_of_new.
  - intros Hok. destruct IH as (u & HR & Hid & Hu); [by apply (fills_ok_snoc fs f)|].
    assert (fill_fits (uf_side f) (uf_volume f) (holding_of u (uf_ticker f))) as Hf
      by (eapply ledger_fits; [done|apply Hu]).
    destruct (ApplyFill_Ok _ _ (uf_price f) _ u Hf) as (h & u' & Hh & HA & Hid' & Hu').
    exists u'. rewrite foldM_app, HR. cbn. unfold apply_fill at 1. rewrite HA.
    split_and!; [done|congruence|]. intros t.
    rewrite Hu', ledger_position_snoc. case_decide; subst; [|rewrite Z.add_0_r; apply Hu].
    split; [|eauto with exchange]. destruct (Hu (uf_ticker f)) as [<- _].
    by eapply fill_holding_volume.
Qed.
End LedgerFacts.

(** In exact arithmetic the books of a user are those of the ledger. *)
Lemma fills_cash {Ticker Inv} `{!TickerType Ticker} `{!InventoryMap Ticker Q Inv}
    `{!InventoryLaws Ticker Q Inv} id (fs : list (UserFill Ticker)) : fills_ok fs →
  ∃ u : User Inv, foldM apply_fill fs (user_new id) = Ok u ∧ us_id_ u = id ∧
    (∀ t, (net_cash (holding_of u t) == ledger_cash t fs)%Q) ∧
    ∀ t, value (hd_volume_ (holding_of u t)) = ledger_position t fs.
Proof.
  induction fs as [|f fs IH] using rev_ind; intros Hok.
  - exists (user_new id). split_and!; [done..| |]; intros t; by rewrite holding_of_new.
  - destruct IH as (u & HR & Hid & Hc & Hp); [by apply (fills_ok_snoc fs f)|].
    pose proof (ledger_fits fs f _ Hok (Hp _)) as Hf.
    destruct (ApplyFill_Ok _ _ (uf_price f) _ u Hf) as (h & u' & Hh & HA & Hid' & Hu').
    destruct (fill_net_cash _ _ _ _ _ Hf Hh) as [Hv Hn].
    exists u'. rewrite foldM_app, HR. cbn [mbind Outcome_bind foldM].
    unfold apply_fill at 1. rewrite HA.
    split_and!; [done|congruence| |]; intros t; rewrite Hu'.
    + rewrite ledger_cash_snoc. case_decide; subst; [rewrite Hn, Hc|rewrite Hc];
        unfold uf_delta; ring.
    + rewrite ledger_position_snoc. case_decide; subst; [|by rewrite Z.add_0_r].
      by rewrite Hv, Hp.
Qed.

(** ** The average cost *)

Section AverageCost.
Implicit Types (h : Holding Q) (lo hi : Q).

(** The cost basis of an open position lies within the bounds. *)
Definition avg_within lo hi h : Prop :=
  value (hd_volume_ h) ≠ 0 → (lo <= value (hd_avgCost_ h) <= hi)%Q.

Lemma mean_within lo hi (a p x y : Q) : (0 <= x)%Q → (0 < y)%Q →
  (¬ x == 0 → lo <= a <= hi)%Q → (lo <= p <= hi)%Q →
  (lo <= (a * x + p * y) / (x + y) <= hi)%Q.
Proof.
  intros Hx Hy Ha [Hl Hh]. assert (0 < x + y)%Q by lra.
  assert (lo * x <= a * x ∧ a * x <= hi * x)%Q as [H1 H2].
  { destruct (Qeq_dec x 0) as [E|E]; [rewrite E; split; lra|].
    destruct (Ha E) as [? ?]. split; by apply Qmult_le_compat_r. }
  assert (lo * y <= p * y ∧ p * y <= hi * y)%Q as [H3 H4].
  { split; apply Qmult_le_compat_r; lra. }
  split; [apply Qle_shift_div_l|apply Qle_shift_div_r]; lra.
Qed.

Lemma fill_avg_within lo hi side p v h h' : fill_fits side v h →
  fill_holding side p v h = Ok h' → avg_within lo hi h → (lo <= usd p <= hi)%Q →
  avg_within lo hi h'.
Proof.
  intros Hf. rewrite fill_holding_Ok by done. intros E. inv_ok.
  destruct Hf as (Hv & _). unfold avg_within.
  assert (delta side v ≠ 0) as Hd by (destruct side; cbn in *; lia).
  cbn [hd_volume_ hd_avgCost_ value].
  change (inject_Z (value p) / inject_Z PRICE_MULTIPLIER)%Q with (usd p).
  generalize (usd p). intros q Ha Hq Hnz.
  pose proof (same_direction (value (hd_volume_ h)) _ Hd) as Hs.
  destruct (_ || _); cbn [value]; cycle 1.
  { repeat case_decide; cbn [value]; [|lia|done]. apply Ha. lia. }
  apply mean_within; [| | |done].
  - change 0%Q with (inject_Z 0). rewrite <-Zle_Qle. lia.
  - change 0%Q with (inject_Z 0). rewrite <-Zlt_Qlt. lia.
  - intros Hne. apply Ha. intros E. apply Hne. by rewrite E.
Qed.
End AverageCost.

(** ** Properties *)

(** C20: A user's book is a ledger.  Starting from a new user, any fills of positive
    volume whose total fits in 64 bits are applied without failure; afterwards, for
    every ticker and in exact arithmetic, the position is the sum of the signed
    fills, and marking it at any mid price gives realised plus unrealised P&L equal
    to the cash received less the cash paid plus the position valued at the mid. *)
Theorem user_is_a_ledger {Ticker Inv} `{!TickerType Ticker} `{!InventoryMap Ticker Q Inv}
    `{!InventoryLaws Ticker Q Inv} (id : UserId) (fs : list (UserFill Ticker)) :
  fills_ok fs →
  ∃ u : User Inv, foldM apply_fill fs (user_new id) = Ok u ∧ Id u = id ∧
    ∀ t mid, value (Position u t) = ledger_position t fs ∧
      let u' := RefreshUnrealizedPnl t mid u in
      (value (RealizedPnl u' t) + value (UnrealizedPnl u' t) ==
       ledger_cash t fs + inject_Z (ledger_position t fs) * usd mid)%Q.
Proof.
  intros Hok. destruct (fills_cash (Inv:=Inv) id fs Hok) as (u & HR & Hid & Hc & Hp).
  exists u. split_and!; [done..|]. intros t mid. split; [by rewrite Position_holding|].
  intros u'. rewrite <-Hc, <-Hp, <-equity_net_cash.
  rewrite RealizedPnl_holding, UnrealizedPnl_holding. subst u'.
  rewrite Refresh_holding. destruct (um_find t (us_inventory_ u)) as [h|] eqn:E.
  - rewrite decide_True by done. unfold holding_of, equity. by rewrite E.
  - unfold holding_of, equity. rewrite E. cbn. ring.
Qed.

Definition sample_fills : list (UserFill CTicker) :=
  [mkUserFill AAPL Buy (Strong 100000000) (Strong 10); mkUserFill GOOG Sell (Strong 50000000) (Strong 3);
   mkUserFill AAPL Sell (Strong 110000000) (Strong 15); mkUserFill AAPL Buy (Strong 90000000) (Strong 2)].

Lemma user_is_a_ledger_witness :
  fills_ok sample_fills ∧
  ∃ u : User (gmap CTicker (Holding Q)),
    foldM apply_fill sample_fills (user_new (Strong 7)) = Ok u ∧ Id u = Strong 7 ∧
    ∀ t mid, value (Position u t) = ledger_position t sample_fills ∧
      let u' := RefreshUnrealizedPnl t mid u in
      (value (RealizedPnl u' t) + value (UnrealizedPnl u' t) ==
       ledger_cash t sample_fills + inject_Z (ledger_position t sample_fills) * usd mid)%Q.
Proof.
  assert (fills_ok sample_fills) as H by by apply (bool_decide_unpack _).
  split; [exact H|]. exact (user_is_a_ledger (TickerType0:=static_str_ops MAX_TICKER_LENGTH)
    (Inv:=gmap CTicker (Holding Q)) (Strong 7) sample_fills H).
Defined.

(** C30: The average cost is a mean of prices paid: in exact arithmetic, whenever a
    user's position in a ticker is open, after any fills of positive volumes with a
    total that fits in 64 bits, its cost basis lies between any bounds that
    hold for the execution prices of the user's fills in that ticker; when the
    position is flat the basis is zero. *)
Theorem average_cost_between_prices {Ticker Inv} `{!TickerType Ticker}
    `{!InventoryMap Ticker Q Inv} `{!InventoryLaws Ticker Q Inv}
    (id : UserId) (fs : list (UserFill Ticker)) (t : Ticker) (lo hi : Q) :
  fills_ok fs →
  Forall (λ f, uf_ticker f = t → (lo <= usd (uf_price f) <= hi)%Q) fs →
  ∃ u : User Inv, foldM apply_fill fs (user_new id) = Ok u ∧
    (value (Position u t) = 0 → hd_avgCost_ (holding_of u t) = Strong 0%Q) ∧
    (value (Position u t) ≠ 0 → (lo <= value (hd_avgCost_ (holding_of u t)) <= hi)%Q).
Proof.
  intros Hok Hall. destruct (fills_positions (Inv:=Inv) id fs Hok) as (u & HR & _ & Hu).
  exists u. split; [done|]. rewrite Position_holding.
  split; [apply (proj2 (Hu t))|]. change (avg_within lo hi (holding_of u t)). clear Hu.
  revert u HR. induction fs as [|f fs IH] using rev_ind; intros u HR.
  { cbn in HR. inv_ok. rewrite holding_of_new. unfold avg_within. by cbn. }
  apply Forall_app in Hall as [Hall Hf]. rewrite Forall_singleton in Hf.
  pose proof (proj1 (fills_ok_snoc fs f Hok)) as Hok'.
  destruct (fills_positions (Inv:=Inv) id fs Hok') as (u1 & HR1 & _ & Hu1).
  specialize (IH Hok' Hall u1 HR1). rewrite foldM_app, HR1 in HR.
  cbn [mbind Outcome_bind foldM] in HR. unfold apply_fill in HR. inv_ok.
  pose proof (ledger_fits fs f _ Hok (proj1 (Hu1 _))) as Hfit.
  destruct (ApplyFill_Ok _ _ (uf_price f) _ u1 Hfit) as (h & u' & Hh & HA & _ & Hu').
  assert (u' = u) as -> by congruence. rewrite Hu'. case_decide; [subst t|done].
  eapply fill_avg_within; [exact Hfit|exact Hh|done|auto].
Qed.

Lemma average_cost_between_prices_witness :
  fills_ok sample_fills ∧
  ∃ u : User (gmap CTicker (Holding Q)),
    foldM apply_fill sample_fills (user_new (Strong 7)) = Ok u ∧
    (value (Position u AAPL) = 0 → hd_avgCost_ (holding_of u AAPL) = Strong 0%Q) ∧
    (value (Position u AAPL) ≠ 0 → (90 <= value (hd_avgCost_ (holding_of u AAPL)) <= 110)%Q).
Proof.
  assert (fills_ok sample_fills) as H by by apply (bool_decide_unpack _).
  split; [exact H|].
  refine (average_cost_between_prices (TickerType0:=static_str_ops MAX_TICKER_LENGTH)
    (Inv:=gmap CTicker (Holding Q)) (Strong 7) sample_fills AAPL 90%Q 110%Q H _).
  repeat constructor; cbn; try (intros E; discriminate E); vm_compute; discriminate.
Defined.
