(* ===== verification/Instruments.v ===== *)
(** * Instruments (common/engine/instruments.hpp)

    An instrument bought at a price, and its profit at another; the exchange itself does
    not use the class. *)

From Stdlib Require Import Strings.Byte Strings.String QArith.
From stdpp Require Import pretty.
From S2P Require Import Prelude Interfaces Double CoreTypes User Accounting Concrete.

Local Open Scope Z_scope.

Record Instrument (Ticker : Type) := mkInstrument {
  it_price_ : Price;
  it_ticker_ : Ticker;
}.
Arguments mkInstrument {Ticker} _ _.
Arguments it_price_ {Ticker} _.
Arguments it_ticker_ {Ticker} _.

(** operator<< of a StrongType over std::int64_t: the number in decimal. *)
Definition st_print {Tag} (t : StrongType Z Tag) : list byte :=
  list_byte_of_string (pretty (value t)).

Section InstrumentOps.
Context {Ticker : Type} `{!TickerType Ticker}.
Implicit Types (i : Instrument Ticker).

Definition Instrument_new (ticker : Ticker) (price : Price) : Instrument Ticker :=
  mkInstrument price ticker.

(** operator<< *)
Definition print_instrument i : list byte :=
  ss_data (it_ticker_ i) ++ [x09] ++ st_print (it_price_ i).

Definition CalcPnl (spot : Price) i : Outcome Price := st_sub spot (it_price_ i).
End InstrumentOps.

Section InstrumentFacts.
Context {Ticker : Type} `{!TickerType Ticker} `{!TickerLaws Ticker}.
Implicit Types (i : Instrument Ticker).

(** The profit is the difference of the prices, unless that overflows. *)
Lemma CalcPnl_spec spot i :
  CalcPnl spot i = (if i64b (value spot - value (it_price_ i))
                    then Ok (Strong (value spot - value (it_price_ i))) else Undefined).
Proof. unfold CalcPnl, st_sub. cbn. unfold i64_sub, i64_result. by destruct (i64b _). Qed.

(** What is gained in one direction is lost in the other. *)
Lemma CalcPnl_opposite (t : Ticker) p q pnl : CalcPnl q (Instrument_new t p) = Ok pnl → value pnl ≠ i64_min →
  ∃ loss, CalcPnl p (Instrument_new t q) = Ok loss ∧ st_neg pnl = Ok loss.
Proof.
  rewrite !CalcPnl_spec. cbn [it_price_ Instrument_new]. unfold st_neg. cbn.
  unfold i64_neg, i64_result. destruct (i64b (value q - value p)) eqn:E1; [|done].
  intros [= <-]. cbn [value]. intros Hm. apply i64b_spec in E1.
  assert (- (value q - value p) = value p - value q) as -> by lia.
  assert (i64b (value p - value q) = true) as ->
    by (apply i64b_spec; unfold is_i64, i64_min, i64_max in *; lia). eauto.
Qed.

(** Two instruments print alike only if they are the same, as long as tickers hold no
    tab. *)
Lemma list_byte_of_string_inj s1 s2 : list_byte_of_string s1 = list_byte_of_string s2 → s1 = s2.
Proof.
  intros E. by rewrite <-(string_of_list_byte_of_string s1), E, string_of_list_byte_of_string.
Qed.

Lemma app_sep_inj {A} (c : A) (l1 l2 r1 r2 : list A) : c ∉ l1 → c ∉ l2 →
  l1 ++ [c] ++ r1 = l2 ++ [c] ++ r2 → l1 = l2 ∧ r1 = r2.
Proof.
  revert l2. induction l1 as [|x l1 IH]; intros [|y l2]; cbn; intros H1 H2 E; simplify_eq.
  - done.
  - by destruct H2; left.
  - by destruct H1; left.
  - rewrite not_elem_of_cons in H1, H2. destruct H1 as [_ H1], H2 as [_ H2].
    by destruct (IH l2 H1 H2 ltac:(done)) as [-> ->].
Qed.

Lemma print_instrument_inj i1 i2 : x09 ∉ ss_data (it_ticker_ i1) → x09 ∉ ss_data (it_ticker_ i2) →
  print_instrument i1 = print_instrument i2 → i1 = i2.
Proof.
  destruct i1 as [[p1] t1], i2 as [[p2] t2]. cbn. intros H1 H2 [E1 E2]%app_sep_inj; [|done..].
  apply ss_data_inj in E1. apply list_byte_of_string_inj in E2. apply (inj pretty) in E2. cbn in E1, E2.
  by subst.
Qed.

(** Buying at the instrument's price and selling at the spot realises its profit on
    every unit, in exact arithmetic. *)
Lemma CalcPnl_is_realized spot i pnl v : 0 < value v → is_i64 (value v) → CalcPnl spot i = Ok pnl →
  ∃ h1 h2 : Holding Q, fill_holding Buy (it_price_ i) v holding_init = Ok h1 ∧
    fill_holding Sell spot v h1 = Ok h2 ∧ value (hd_volume_ h2) = 0 ∧
    (value (hd_realizedPnl_ h2) == inject_Z (value v) * usd pnl)%Q.
Proof.
  rewrite CalcPnl_spec. destruct (i64b _); [|done]. intros Hv Hi [= <-].
  assert (fill_fits Buy v (holding_init (D:=Q))) as H1 by (split_and!; cbn; (done || i64)).
  pose proof (fill_holding_Ok Buy (it_price_ i) v (holding_init (D:=Q)) H1) as E1. cbn zeta in E1.
  match type of E1 with _ = Ok ?h => remember h as h1 eqn:Eh1; clear Eh1 end.
  destruct (fill_net_cash _ _ _ _ _ H1 E1) as [V1 N1].
  change (value (hd_volume_ h1) = 0 + value v) in V1.
  assert (fill_fits Sell v h1) as H2
    by (unfold fill_fits; rewrite V1; cbn [delta]; clear -Hv Hi; split_and!; (done || i64)).
  pose proof (fill_holding_Ok Sell spot v h1 H2) as E2. cbn zeta in E2.
  match type of E2 with _ = Ok ?h => remember h as h2 eqn:Eh2; clear Eh2 end.
  destruct (fill_net_cash _ _ _ _ _ H2 E2) as [V2 N2]. cbn [delta] in V2.
  exists h1, h2. split; [exact E1|]. split; [exact E2|]. assert (value (hd_volume_ h2) = 0) as V by lia.
  split; [done|].
  assert (value (hd_realizedPnl_ h2) == net_cash h2)%Q as HN
    by (unfold net_cash; rewrite V; ring).
  rewrite HN, N2, N1. unfold net_cash.
  cbn [delta holding_init hd_realizedPnl_ hd_volume_ hd_avgCost_ value d_of_Z exact_ops].
  unfold usd. cbn. unfold Qdiv, Zminus. rewrite inject_Z_plus, !inject_Z_opp. ring.
Qed.
End InstrumentFacts.

(** The example of tests/instruments_test.cpp, in double precision. *)
Example equity_pnl :
  let price (usd : Z) := ok_or (Strong 0) (ToPrice (Strong (d_of_Z usd : binary64))) in
  CalcPnl (price 105) (Instrument_new AAPL (price 100)) = Ok (price 5) ∧
  string_of_list_byte (st_print (price 5)) = "5000000"%string.
Proof. vm_compute. split; reflexivity. Qed.
