(* ===== verification/Registry.v ===== *)
(** * The user registry and settlement
    (common/engine/user_registry.hpp, common/workers/inventory_thread.cpp)

    The registry is the store all users live in; a [User&] is an index into it, so
    a trade of a user with itself updates one user twice. *)

From Stdlib Require Import QArith Lqa.
From stdpp Require Import gmap.
From S2P Require Import Prelude Interfaces Double CoreTypes Seqlock FlatMap MatchingEngine BookSpec EngineRefinement EngineSpec EngineInvariant EngineIndex Concrete EngineTheorems MidPrice Router User Accounting.

Local Open Scope Z_scope.

Definition MARKET_PARTICIPANT_COUNT : Z := 100.

Record UserRegistry (Inv : Type) := mkRegistry { users_ : list (User Inv) }.
Arguments mkRegistry {Inv} _.
Arguments users_ {Inv} _.

Section Registry.
Context {D : Type} `{!DoubleOps D} {Ticker : Type} `{!TickerType Ticker}.
Context {Inv : Type} `{!InventoryMap Ticker D Inv} {Index : Type}.
Implicit Types (r : UserRegistry Inv).

(** The constructor: one user per id. *)
Definition registry_init : UserRegistry Inv :=
  mkRegistry ((λ i, user_new (Strong (Z.of_nat i))) <$>
              seq 0 (Z.to_nat MARKET_PARTICIPANT_COUNT)).

(** users_.at(static_cast<std::size_t>(id.value())), as a reference: a negative id
    wraps to a large index. *)
Definition Get (id : UserId) r : Outcome nat :=
  let index := u64_wrap (value id) in
  if index <? Z.of_nat (length (users_ r)) then Ok (Z.to_nat index) else Throw out_of_range.

(** A call of a member function through a reference into the registry. *)
Definition on_user (user : nat) (f : User Inv → Outcome (User Inv)) r
    : Outcome (UserRegistry Inv) :=
  match users_ r !! user with
  | Some u => u ← f u; Ok (mkRegistry (<[user := u]> (users_ r)))
  | None => Undefined
  end.

(** One trade of RunInventoryThread; [router] is what the thread sees of the engines
    when it reads the mid price. *)
Definition settle_trade (router : MatchingEngineRouter Index) (trade : Trade Ticker) r
    : Outcome (UserRegistry Inv) :=
  let makerSide := match tr_takerSide_ trade with Buy => Sell | Sell => Buy end in
  maker ← Get (tr_makerId_ trade) r;
  taker ← Get (tr_takerId_ trade) r;
  r ← on_user maker (ApplyFill (tr_ticker_ trade) makerSide
                       (tr_executionPrice_ trade) (tr_volume_ trade)) r;
  r ← on_user taker (ApplyFill (tr_ticker_ trade) (tr_takerSide_ trade)
                       (tr_executionPrice_ trade) (tr_volume_ trade)) r;
  mid ← router_MidPrice router (tr_ticker_ trade);
  match mid with
  | Some mid =>
      r ← on_user maker (λ u, Ok (RefreshUnrealizedPnl (tr_ticker_ trade) mid u)) r;
      on_user taker (λ u, Ok (RefreshUnrealizedPnl (tr_ticker_ trade) mid u)) r
  | None => Ok r
  end.

(** One row of the snapshot file. *)
Record SnapshotRow := mkRow {
  row_userId : UserId;
  row_ticker : Ticker;
  row_holding : Holding D;
}.

(** WriteSnapshot: the rows below the header line; [opens] says whether the file
    could be opened. *)
Definition WriteSnapshot (opens : bool) r : Outcome (list SnapshotRow) :=
  if negb opens then Throw runtime_error
  else Ok (mbind (λ u, (λ '(t, h), mkRow (Id u) t h) <$> um_entries (Inventory u))
             (users_ r)).
End Registry.
Arguments SnapshotRow D Ticker : clear implicits.

(** ** Facts about the registry *)

Section RegistryFacts.
Context {D : Type} `{!DoubleOps D} {Ticker : Type} `{!TickerType Ticker}.
Context {Inv : Type} `{!InventoryMap Ticker D Inv} `{!InventoryLaws Ticker D Inv}.
Implicit Types (r : UserRegistry Inv) (t : Ticker) (i : nat).

(** The id of a participant. *)
Definition participant (id : UserId) : Prop := 0 ≤ value id < MARKET_PARTICIPANT_COUNT.

#[export] Instance participant_dec id : Decision (participant id).
Proof. unfold participant. apply _. Defined.

Definition registry_sized r : Prop :=
  length (users_ r) = Z.to_nat MARKET_PARTICIPANT_COUNT.

(** The ids of the users, in order. *)
Definition user_ids r : list UserId := us_id_ <$> users_ r.

(** The holding of the user at an index. *)
Definition hold r i t : Holding D :=
  match users_ r !! i with Some u => holding_of u t | None => holding_init end.

(** What a fill changes of a holding: everything but the unrealised P&L. *)
Definition basis (h : Holding D) : Volume * USD D * USD D :=
  (hd_volume_ h, hd_avgCost_ h, hd_realizedPnl_ h).

Lemma registry_init_sized : registry_sized registry_init.
Proof. unfold registry_sized. cbn. by rewrite length_fmap, length_seq. Qed.

Lemma registry_init_hold i t : hold registry_init i t = holding_init.
Proof.
  unfold hold. cbn. rewrite list_lookup_fmap. destruct (seq _ _ !! i); cbn; [|done].
  apply holding_of_new.
Qed.

Lemma Get_participant id r : registry_sized r → participant id →
  Get id r = Ok (Z.to_nat (value id)) ∧ (Z.to_nat (value id) < length (users_ r))%nat.
Proof.
  unfold registry_sized, participant, Get, u64_wrap. intros -> Hp.
  rewrite Z.mod_small, Z2Nat.id by (unfold MARKET_PARTICIPANT_COUNT in *; lia).
  split; [|lia]. by destruct (Z.ltb_spec (value id) MARKET_PARTICIPANT_COUNT); [|lia].
Qed.

Lemma Get_stranger id r : registry_sized r → is_i64 (value id) → ¬ participant id →
  Get id r = Throw out_of_range.
Proof.
  unfold registry_sized, participant, Get, u64_wrap. intros -> Hi Hp.
  unfold MARKET_PARTICIPANT_COUNT in *. destruct (Z.ltb_spec (value id `mod` 2 ^ 64)
    (Z.of_nat (Z.to_nat 100))) as [H|H]; [|done]. exfalso. revert H.
  destruct (decide (0 ≤ value id)).
  - rewrite Z.mod_small by i64. lia.
  - rewrite <-(Z.mod_add _ 1), Z.mod_small by i64. i64.
Qed.

Lemma hold_insert r i u j t : (i < length (users_ r))%nat →
  hold (mkRegistry (<[i := u]> (users_ r))) j t =
  if decide (i = j) then holding_of u t else hold r j t.
Proof.
  intros Hi. unfold hold. cbn. case_decide; subst.
  - by rewrite list_lookup_insert_eq.
  - by rewrite list_lookup_insert_ne.
Qed.

(** A fill through a reference: one holding of one user changes. *)
Lemma on_user_fill i t side p v r : (i < length (users_ r))%nat →
  fill_fits side v (hold r i t) →
  ∃ h u u', users_ r !! i = Some u ∧
    fill_holding side p v (hold r i t) = Ok h ∧ ApplyFill t side p v u = Ok u' ∧
    on_user i (ApplyFill t side p v) r = Ok (mkRegistry (<[i := u']> (users_ r))) ∧
    us_id_ u' = us_id_ u ∧
    ∀ j t', hold (mkRegistry (<[i := u']> (users_ r))) j t' =
      if decide (i = j ∧ t = t') then h else hold r j t'.
Proof.
  intros Hi Hf. destruct (lookup_lt_is_Some_2 _ _ Hi) as [u Hu].
  assert (∀ t', hold r i t' = holding_of u t') as Eu by (intros; unfold hold; by rewrite Hu).
  rewrite Eu in Hf. destruct (ApplyFill_Ok t side p v u Hf) as (h & u' & Hh & HA & Hid & Hu').
  exists h, u, u'. unfold on_user. rewrite Eu, Hu, HA. split_and!; [done..|].
  intros j t'. rewrite hold_insert, Hu' by done.
  repeat case_decide; destruct_and?; subst; try done; naive_solver.
Qed.

Lemma on_user_overflow i t side p (v : Volume) r : (i < length (users_ r))%nat →
  0 < value v → is_i64 (value v) → ¬ fill_fits side v (hold r i t) →
  on_user i (ApplyFill t side p v) r = Undefined.
Proof.
  intros Hi Hv Hv' Hno. destruct (lookup_lt_is_Some_2 _ _ Hi) as [u Hu].
  unfold on_user, hold in *. rewrite Hu in *. unfold ApplyFill.
  by rewrite fill_holding_Undefined.
Qed.

(** Marking through a reference changes no basis. *)
Lemma on_user_refresh i t mid r : (i < length (users_ r))%nat →
  ∃ u, users_ r !! i = Some u ∧
    let u' := RefreshUnrealizedPnl t mid u in
    on_user i (λ u, Ok (RefreshUnrealizedPnl t mid u)) r =
      Ok (mkRegistry (<[i := u']> (users_ r))) ∧
    us_id_ u' = us_id_ u ∧ ∀ t', basis (holding_of u' t') = basis (holding_of u t').
Proof.
  intros Hi. destruct (lookup_lt_is_Some_2 _ _ Hi) as [u Hu]. exists u.
  unfold on_user. rewrite Hu. split_and!; [done..| |].
  - unfold RefreshUnrealizedPnl. by case_match.
  - intros t'. rewrite Refresh_holding. destruct (um_find t _) as [h|] eqn:E; [|done].
    case_decide; [|done]. subst. unfold holding_of. by rewrite E.
Qed.

Lemma user_ids_insert r i u u' : users_ r !! i = Some u → us_id_ u' = us_id_ u →
  user_ids (mkRegistry (<[i := u']> (users_ r))) = user_ids r.
Proof.
  intros Hu Hid. unfold user_ids. cbn. rewrite list_fmap_insert. apply list_insert_id.
  by rewrite list_lookup_fmap, Hu, Hid.
Qed.

Lemma registry_sized_insert r i u :
  registry_sized r → registry_sized (mkRegistry (<[i := u]> (users_ r))).
Proof. unfold registry_sized. cbn. by rewrite length_insert. Qed.
End RegistryFacts.

(** ** Facts about settlement *)

Section SettleFacts.
Context {D : Type} `{!DoubleOps D} {Ticker : Type} `{!TickerType Ticker}.
Context {Inv : Type} `{!InventoryMap Ticker D Inv} `{!InventoryLaws Ticker D Inv}.
Context {Index : Type} `{!OrderIndexType Index}.
Implicit Types (r : UserRegistry Inv) (t : Ticker) (i : nat)
  (trade : Trade Ticker) (router : MatchingEngineRouter Index).

Definition user_index (id : UserId) : nat := Z.to_nat (value id).

Definition volume_at r i t : Z := value (hd_volume_ (hold r i t)).

(** The mid price of a ticker can be read. *)
Definition mid_readable router t : Prop := is_ok (router_MidPrice router t) = true.

(** A trade that settlement accepts: both sides are participants, and the volume is
    positive. *)
Definition trade_ok trade : Prop :=
  participant (tr_makerId_ trade) ∧ participant (tr_takerId_ trade) ∧
  0 < value (tr_volume_ trade).

#[export] Instance trade_ok_dec trade : Decision (trade_ok trade).
Proof. unfold trade_ok. apply _. Defined.

Lemma fits_of_bound side (v : Volume) (h : Holding D) : 0 < value v →
  Z.abs (value (hd_volume_ h)) + value v ≤ i64_max → fill_fits side v h.
Proof. intros. destruct side; repeat split; cbn; try i64. Qed.

(** The other side of a trade with oneself fits too. *)
Lemma fits_back side p (v : Volume) (h h' : Holding D) : 0 < value v →
  Z.abs (value (hd_volume_ h)) + value v ≤ i64_max →
  fill_holding (opposite side) p v h = Ok h' → fill_fits side v h'.
Proof.
  intros Hv Hb. rewrite fill_holding_Ok by (by apply fits_of_bound). intros E. inv_ok.
  destruct side; repeat split; cbn [value hd_volume_ delta opposite]; i64.
Qed.

(** Marking both users to market: always possible, and changes no basis. *)
Lemma settle_refresh i j t (mid : option Price) r :
  registry_sized r → (i < length (users_ r))%nat → (j < length (users_ r))%nat →
  ∃ r', match mid with
    | Some mid => r1 ← on_user i (λ u, Ok (RefreshUnrealizedPnl t mid u)) r;
                  on_user j (λ u, Ok (RefreshUnrealizedPnl t mid u)) r1
    | None => Ok r
    end = Ok r' ∧ registry_sized r' ∧ user_ids r' = user_ids r ∧
    ∀ k t', basis (hold r' k t') = basis (hold r k t').
Proof.
  intros Hs Hi Hj. destruct mid as [mid|]; [|by exists r].
  destruct (on_user_refresh i t mid r Hi) as (u & Hu & HR & Hid & Hb).
  set (r1 := mkRegistry _) in HR. rewrite HR. cbn [mbind Outcome_bind].
  assert (j < length (users_ r1))%nat as Hj1 by (cbn; by rewrite length_insert).
  destruct (on_user_refresh j t mid r1 Hj1) as (u1 & Hu1 & HR1 & Hid1 & Hb1).
  rewrite HR1. eexists. split; [done|]. split; [by do 2 apply registry_sized_insert|].
  split; [by rewrite (user_ids_insert r1 j u1); unfold r1; rewrite ?(user_ids_insert r i u)|].
  intros k t'. rewrite hold_insert by done. case_decide as Ek.
  - subst k. rewrite Hb1. transitivity (basis (hold r1 j t')).
    + unfold hold. by rewrite Hu1.
    + unfold r1. rewrite hold_insert by done. case_decide; [|done]. subst.
      rewrite Hb. unfold hold. by rewrite Hu.
  - unfold r1. rewrite hold_insert by done. case_decide; [|done]. subst.
    rewrite Hb. unfold hold. by rewrite Hu.
Qed.

(** One settled trade whose two fills fit: which holdings change, and into what. *)
Lemma settle_trade_fits router trade r :
  let m := user_index (tr_makerId_ trade) in
  let k := user_index (tr_takerId_ trade) in
  let t := tr_ticker_ trade in
  let v := tr_volume_ trade in
  let fill1 := fill_holding (opposite (tr_takerSide_ trade)) (tr_executionPrice_ trade) v
    (hold r m t) in
  registry_sized r → trade_ok trade → mid_readable router t →
  fill_fits (opposite (tr_takerSide_ trade)) v (hold r m t) →
  (∀ h1, fill1 = Ok h1 →
     fill_fits (tr_takerSide_ trade) v (if decide (m = k) then h1 else hold r k t)) →
  ∃ r' h1 h2, settle_trade router trade r = Ok r' ∧
    registry_sized r' ∧ user_ids r' = user_ids r ∧ fill1 = Ok h1 ∧
    fill_holding (tr_takerSide_ trade) (tr_executionPrice_ trade) v
      (if decide (m = k) then h1 else hold r k t) = Ok h2 ∧
    ∀ j t', basis (hold r' j t') = basis (
      if decide (t' = t) then
        if decide (j = k) then h2 else if decide (j = m) then h1 else hold r j t'
      else hold r j t').
Proof.
  intros m k t v fill1 Hs (Hm & Hk & Hv) Hmid F1 F2. subst fill1.
  destruct (Get_participant _ _ Hs Hm) as [Gm Lm], (Get_participant _ _ Hs Hk) as [Gk Lk].
  unfold settle_trade. rewrite Gm, Gk. cbn [mbind Outcome_bind].
  change (Z.to_nat (value (tr_makerId_ trade))) with m in *.
  change (Z.to_nat (value (tr_takerId_ trade))) with k in *.
  change (match tr_takerSide_ trade with Buy => Sell | Sell => Buy end)
    with (opposite (tr_takerSide_ trade)). fold t v.
  set (p := tr_executionPrice_ trade) in *. set (s := tr_takerSide_ trade) in *.
  destruct (on_user_fill m t (opposite s) p v r Lm F1)
    as (h1 & u1 & u1' & Hu1 & Hh1 & _ & HR1 & Hid1 & Hhold1).
  rewrite HR1. cbn [mbind Outcome_bind]. set (r1 := mkRegistry _) in *.
  assert (hold r1 k t = if decide (m = k) then h1 else hold r k t) as Ek.
  { rewrite Hhold1. repeat case_decide; naive_solver. }
  specialize (F2 h1 Hh1). rewrite <-Ek in F2.
  assert (k < length (users_ r1))%nat as Lk1 by (cbn; by rewrite length_insert).
  destruct (on_user_fill k t s p v r1 Lk1 F2)
    as (h2 & u2 & u2' & Hu2 & Hh2 & _ & HR2 & Hid2 & Hhold2).
  rewrite HR2. cbn [mbind Outcome_bind]. set (r2 := mkRegistry (<[k := u2']> (users_ r1))) in *.
  unfold mid_readable in Hmid.
  destruct (router_MidPrice router t) as [mid| | |] eqn:Emid; try discriminate Hmid.
  cbn [mbind Outcome_bind].
  destruct (settle_refresh m k t mid r2) as (r' & HR & Hs' & Hids & Hb);
    [by do 2 apply registry_sized_insert|cbn; by rewrite !length_insert..|].
  exists r', h1, h2. split; [done|]. split; [done|]. rewrite <-Ek.
  split; [by rewrite Hids; unfold r2; rewrite (user_ids_insert r1 k u2);
    unfold r1; rewrite ?(user_ids_insert r m u1)|].
  split_and!; [done..|]. intros j t'. rewrite Hb, Hhold2, Hhold1.
  repeat case_decide; naive_solver.
Qed.

(** With room for the volume in every position, both fills fit. *)
Lemma settle_trade_spec router trade r :
  let m := user_index (tr_makerId_ trade) in
  let k := user_index (tr_takerId_ trade) in
  let t := tr_ticker_ trade in
  let v := tr_volume_ trade in
  registry_sized r → trade_ok trade → mid_readable router t →
  (∀ i, Z.abs (volume_at r i t) + value v ≤ i64_max) →
  ∃ r' h1 h2, settle_trade router trade r = Ok r' ∧
    registry_sized r' ∧ user_ids r' = user_ids r ∧
    fill_fits (opposite (tr_takerSide_ trade)) v (hold r m t) ∧
    fill_holding (opposite (tr_takerSide_ trade)) (tr_executionPrice_ trade) v (hold r m t) = Ok h1 ∧
    fill_fits (tr_takerSide_ trade) v (if decide (m = k) then h1 else hold r k t) ∧
    fill_holding (tr_takerSide_ trade) (tr_executionPrice_ trade) v
      (if decide (m = k) then h1 else hold r k t) = Ok h2 ∧
    ∀ j t', basis (hold r' j t') = basis (
      if decide (t' = t) then
        if decide (j = k) then h2 else if decide (j = m) then h1 else hold r j t'
      else hold r j t').
Proof.
  intros m k t v Hs Hok Hmid Hfit. pose proof (proj2 (proj2 Hok)) as Hv.
  assert (fill_fits (opposite (tr_takerSide_ trade)) v (hold r m t)) as F1
    by (by apply fits_of_bound, Hfit).
  assert (∀ h1, fill_holding (opposite (tr_takerSide_ trade)) (tr_executionPrice_ trade) v
      (hold r m t) = Ok h1 →
    fill_fits (tr_takerSide_ trade) v (if decide (m = k) then h1 else hold r k t)) as F2.
  { intros h1 H1. case_decide; [|by apply fits_of_bound, Hfit].
    eapply fits_back; [exact Hv|apply Hfit|exact H1]. }
  destruct (settle_trade_fits router trade r Hs Hok Hmid F1 F2)
    as (r' & h1 & h2 & ? & ? & ? & H1 & ? & ?).
  exists r', h1, h2. split_and!; try done; by apply F1 || by apply F2.
Qed.
End SettleFacts.
