(* ===== verification/Settlement.v ===== *)
(** * Settlement is double entry

    What a run of the inventory thread does to the accounts: nothing is created or
    lost, in shares or (in exact arithmetic) in dollars. *)

From Stdlib Require Import QArith Lqa.
From stdpp Require Import gmap.
From S2P Require Import Prelude Interfaces Double CoreTypes Seqlock FlatMap MatchingEngine BookSpec EngineRefinement EngineSpec EngineInvariant EngineIndex Concrete EngineTheorems MidPrice Router User Accounting Registry.

Local Open Scope Z_scope.

(** ** Sums over the participants *)

Definition sumQ {A} (f : A → Q) (l : list A) : Q := foldr (λ a s, f a + s)%Q 0%Q l.

Section Sums.
Context {A : Type}.

Lemma sumQ_cons (f : A → Q) a l : sumQ f (a :: l) = (f a + sumQ f l)%Q.
Proof. done. Qed.

Lemma sumQ_ext (f g : A → Q) l : (∀ a, f a == g a)%Q → (sumQ f l == sumQ g l)%Q.
Proof. intros H. induction l as [|a l IH]; [done|]. rewrite !sumQ_cons. by rewrite H, IH. Qed.

Lemma sumQ_plus (f g : A → Q) l :
  (sumQ (λ a, f a + g a)%Q l == sumQ f l + sumQ g l)%Q.
Proof. induction l as [|a l IH]; [done|]. rewrite !sumQ_cons, IH. ring. Qed.

Lemma sumQ_scale (f : A → Z) (c : Q) l :
  (sumQ (λ a, inject_Z (f a) * c)%Q l == inject_Z (sumZ f l) * c)%Q.
Proof.
  induction l as [|a l IH]; [change (0 == 0 * c)%Q; ring|].
  rewrite sumQ_cons, sumZ_cons, IH, inject_Z_plus. ring.
Qed.

Lemma sumZ_plus (f g : A → Z) l : sumZ (λ a, f a + g a) l = sumZ f l + sumZ g l.
Proof. induction l as [|a l IH]; [done|]. rewrite !sumZ_cons. lia. Qed.

Lemma inject_Z_sub (a b : Z) : (inject_Z (a - b) == inject_Z a - inject_Z b)%Q.
Proof. unfold Z.sub. rewrite inject_Z_plus, inject_Z_opp. ring. Qed.

(** A change at one element moves the sum by that much. *)
Lemma sumZ_bump (f g : A → Z) k d l : NoDup l → k ∈ l →
  g k = f k + d → (∀ a, a ≠ k → g a = f a) → sumZ g l = sumZ f l + d.
Proof.
  intros Hnd Hin Hk Hne. induction Hnd as [|a l Ha Hnd IH]; [by apply elem_of_nil in Hin|].
  rewrite !sumZ_cons. apply elem_of_cons in Hin as [<-|Hin].
  - rewrite (sumZ_ext g f), Hk; [lia|]. intros b Hb. apply Hne. congruence.
  - rewrite (Hne a), IH by (done || congruence). lia.
Qed.

End Sums.

(** ** Totals *)

Section Totals.
Context {Ticker : Type} `{!TickerType Ticker} {Index : Type} `{!OrderIndexType Index}.

Definition participants : list nat := seq 0 (Z.to_nat MARKET_PARTICIPANT_COUNT).

Lemma participants_NoDup : NoDup participants.
Proof. apply NoDup_seq. Qed.

Lemma participant_index id : participant id → user_index id ∈ participants.
Proof. intros [? ?]. apply elem_of_seq. unfold user_index. lia. Qed.

(** The signed volume of the taker. *)
Definition taker_delta (trade : Trade Ticker) : Z :=
  delta (tr_takerSide_ trade) (tr_volume_ trade).

Lemma delta_opposite side v : delta (opposite side) v = - delta side v.
Proof. destruct side; cbn; lia. Qed.

Section Positions.
Context {D : Type} `{!DoubleOps D}.
Context {Inv : Type} `{!InventoryMap Ticker D Inv} `{!InventoryLaws Ticker D Inv}.
Implicit Types (r : UserRegistry Inv) (t : Ticker) (trade : Trade Ticker)
  (router : MatchingEngineRouter Index).

Definition total_position r t : Z := sumZ (λ i, volume_at r i t) participants.

(** There is room for the volume of a trade in every position. *)
Definition room_for trade r : Prop :=
  ∀ i, Z.abs (volume_at r i (tr_ticker_ trade)) + value (tr_volume_ trade) ≤ i64_max.

(** The change of one position by one trade. *)
Definition position_change trade (i : nat) t : Z :=
  if decide (t = tr_ticker_ trade) then
    (if decide (i = user_index (tr_takerId_ trade)) then taker_delta trade else 0) -
    (if decide (i = user_index (tr_makerId_ trade)) then taker_delta trade else 0)
  else 0.

(** The positions after the two fills of a trade, from the holdings they leave. *)
Lemma settled_positions trade r r' (h1 h2 : Holding D) :
  let m := user_index (tr_makerId_ trade) in
  let k := user_index (tr_takerId_ trade) in
  value (hd_volume_ h1) = volume_at r m (tr_ticker_ trade) - taker_delta trade →
  value (hd_volume_ h2) =
    value (hd_volume_ (if decide (m = k) then h1 else hold r k (tr_ticker_ trade))) +
    taker_delta trade →
  (∀ j t, basis (hold r' j t) = basis (
     if decide (t = tr_ticker_ trade) then
       if decide (j = k) then h2 else if decide (j = m) then h1 else hold r j t
     else hold r j t)) →
  ∀ i t, volume_at r' i t = volume_at r i t + position_change trade i t.
Proof.
  intros m k H1 H2 Hb i t. unfold volume_at, position_change in *. specialize (Hb i t).
  apply (f_equal (λ x, value x.1.1)) in Hb. cbn in Hb. rewrite Hb. clear Hb.
  destruct (decide (t = tr_ticker_ trade)) as [->|]; [|lia].
  fold m k. set (t := tr_ticker_ trade) in *. clearbody m k t.
  repeat case_decide; subst; try congruence; lia.
Qed.

Lemma settle_positions router trade r : registry_sized r → trade_ok trade →
  mid_readable router (tr_ticker_ trade) → room_for trade r →
  ∃ r', settle_trade router trade r = Ok r' ∧ registry_sized r' ∧ user_ids r' = user_ids r ∧
    ∀ i t, volume_at r' i t = volume_at r i t + position_change trade i t.
Proof.
  intros Hs Hok Hmid Hroom.
  destruct (settle_trade_spec router trade r Hs Hok Hmid Hroom)
    as (r' & h1 & h2 & HR & Hs' & Hids & F1 & H1 & F2 & H2 & Hb).
  exists r'. split_and!; [done..|].
  apply fill_holding_volume in H1, H2; [|done..]. rewrite delta_opposite in H1.
  by apply (settled_positions trade r r' h1 h2).
Qed.

(** Runs of settlements, each with the engines as seen when it reads the mid. *)
Definition settle_step (s : MatchingEngineRouter Index * Trade Ticker) r
    : Outcome (UserRegistry Inv) := settle_trade s.1 s.2 r.

Definition step_volume (s : MatchingEngineRouter Index * Trade Ticker) : Z :=
  value (tr_volume_ s.2).

Definition settlements_ok (ss : list (MatchingEngineRouter Index * Trade Ticker)) : Prop :=
  Forall (λ s, trade_ok s.2 ∧ mid_readable s.1 (tr_ticker_ s.2)) ss ∧
  sumZ step_volume ss ≤ i64_max.

#[export] Instance settlements_ok_dec ss : Decision (settlements_ok ss).
Proof. unfold settlements_ok, mid_readable. apply _. Defined.

Lemma position_change_bound trade i t : 0 < value (tr_volume_ trade) →
  Z.abs (position_change trade i t) ≤ value (tr_volume_ trade).
Proof.
  intros. unfold position_change, taker_delta.
  repeat case_decide; destruct (tr_takerSide_ trade); cbn; lia.
Qed.

Lemma settlements_ok_snoc ss s : settlements_ok (ss ++ [s]) →
  settlements_ok ss ∧ trade_ok s.2 ∧ mid_readable s.1 (tr_ticker_ s.2) ∧
  sumZ step_volume ss + step_volume s ≤ i64_max.
Proof.
  unfold settlements_ok. rewrite sumZ_app, Forall_app, Forall_singleton. cbn.
  intros [[Hss [Hs Hm]] Hv]. pose proof (proj2 (proj2 Hs)). unfold step_volume in *.
  split_and!; [done|lia|done|done|lia].
Qed.

Lemma changes_bound ss i t : Forall (λ s, trade_ok s.2 ∧ mid_readable s.1 (tr_ticker_ s.2)) ss →
  Z.abs (sumZ (λ s, position_change s.2 i t) ss) ≤ sumZ step_volume ss.
Proof.
  induction 1 as [|s ss [(_ & _ & Hv) _] _ IH]; [done|].
  pose proof (position_change_bound s.2 i t Hv). rewrite !sumZ_cons.
  unfold step_volume at 1. lia.
Qed.

(** After a run there is room for one more trade. *)
Lemma run_room ss s r : settlements_ok ss → sumZ step_volume ss + step_volume s ≤ i64_max →
  (∀ i t, volume_at r i t = sumZ (λ s, position_change s.2 i t) ss) → room_for s.2 r.
Proof.
  intros Hss Hv Hp i. rewrite Hp.
  pose proof (changes_bound ss i (tr_ticker_ s.2) (proj1 Hss)).
  change (step_volume s) with (value (tr_volume_ s.2)) in Hv. lia.
Qed.

Lemma settlement_run ss : settlements_ok ss →
  ∃ r, foldM settle_step ss registry_init = Ok r ∧ registry_sized r ∧
    user_ids r = user_ids (registry_init (Inv:=Inv)) ∧
    ∀ i t, volume_at r i t = sumZ (λ s, position_change s.2 i t) ss.
Proof.
  induction ss as [|s ss IH] using rev_ind.
  { intros _. exists registry_init. split_and!; [done|apply registry_init_sized|done|].
    intros i t. unfold volume_at. by rewrite registry_init_hold. }
  intros (Hss & Hok & Hmid & Hv)%settlements_ok_snoc.
  destruct (IH Hss) as (r & HR & Hs & Hids & Hp).
  destruct (settle_positions s.1 s.2 r Hs Hok Hmid) as (r' & HR' & Hs' & Hids' & Hp').
  { by eapply run_room. }
  exists r'. rewrite foldM_app, HR. cbn [mbind Outcome_bind foldM].
  unfold settle_step at 1. rewrite HR'. split_and!; [done..|congruence|].
  intros i t. rewrite Hp', Hp, sumZ_app. cbn. lia.
Qed.

Lemma position_change_total trade t : trade_ok trade →
  sumZ (λ i, position_change trade i t) participants = 0.
Proof.
  intros (Hm & Hk & _). unfold position_change.
  assert (sumZ (λ _ : nat, 0) participants = 0) as H0 by (by induction participants).
  destruct (decide (t = tr_ticker_ trade)); [|done].
  set (d := taker_delta trade). set (k := user_index (tr_takerId_ trade)).
  set (m := user_index (tr_makerId_ trade)).
  rewrite (sumZ_bump (λ i, - if decide (i = m) then d else 0) _ k d);
    [|apply participants_NoDup|by apply participant_index|rewrite (decide_True (P:=k = k)) by done; lia|].
  - rewrite (sumZ_bump (λ _, 0) _ m (- d));
      [lia|apply participants_NoDup|by apply participant_index|rewrite decide_True by done; lia|].
    intros a Ha. by rewrite decide_False.
  - intros a Ha. rewrite (decide_False (P:=a = k)) by done. lia.
Qed.

Lemma total_of_changes ss r t : settlements_ok ss →
  (∀ i t, volume_at r i t = sumZ (λ s, position_change s.2 i t) ss) →
  total_position r t = 0.
Proof.
  intros [Hok _] Hp. unfold total_position.
  rewrite (sumZ_ext _ (λ i, sumZ (λ s, position_change s.2 i t) ss)) by (intros; apply Hp).
  clear Hp. induction Hok as [|s ss [Hs _] _ IH]; [by induction participants|].
  rewrite (sumZ_ext _ (λ i, position_change s.2 i t +
    sumZ (λ s, position_change s.2 i t) ss)) by done.
  by rewrite sumZ_plus, IH, position_change_total.
Qed.
End Positions.
End Totals.

(** ** Cash *)

Section Cash.
Context {Ticker : Type} `{!TickerType Ticker} {Index : Type} `{!OrderIndexType Index}.
Context {Inv : Type} `{!InventoryMap Ticker Q Inv} `{!InventoryLaws Ticker Q Inv}.
Implicit Types (r : UserRegistry Inv) (t : Ticker) (trade : Trade Ticker)
  (router : MatchingEngineRouter Index).

Lemma net_cash_basis (h h' : Holding Q) : basis h = basis h' → net_cash h = net_cash h'.
Proof. unfold basis, net_cash. congruence. Qed.

Lemma settle_cash router trade r r' : registry_sized r → trade_ok trade →
  mid_readable router (tr_ticker_ trade) → room_for trade r →
  settle_trade router trade r = Ok r' →
  ∀ i t, (net_cash (hold r' i t) == net_cash (hold r i t) -
    inject_Z (position_change trade i t) * usd (tr_executionPrice_ trade))%Q.
Proof.
  intros Hs Hok Hmid Hroom HR i t.
  destruct (settle_trade_spec router trade r Hs Hok Hmid Hroom)
    as (r1 & h1 & h2 & HR1 & _ & _ & F1 & H1 & F2 & H2 & Hb).
  assert (r1 = r') as -> by congruence. specialize (Hb i t).
  apply fill_net_cash in H1 as [_ H1], H2 as [_ H2]; [|done..].
  rewrite delta_opposite, inject_Z_opp in H1.
  apply net_cash_basis in Hb. rewrite Hb. clear Hb F1 F2.
  unfold position_change, taker_delta.
  destruct (decide (t = tr_ticker_ trade)) as [->|]; [|cbn; ring].
  set (m := user_index _) in *. set (k := user_index _) in *.
  set (t := tr_ticker_ trade) in *. clearbody m k t.
  rewrite inject_Z_sub.
  repeat case_decide; subst; try congruence; rewrite ?H2, ?H1; ring.
Qed.

(** The cash of all participants together never moves. *)
Lemma settlement_run_cash (ss : list (MatchingEngineRouter Index * Trade Ticker)) r : settlements_ok ss →
  foldM settle_step ss registry_init = Ok r →
  ∀ t, (sumQ (λ i, net_cash (hold r i t)) participants == 0)%Q.
Proof.
  revert r. induction ss as [|s ss IH] using rev_ind; intros r Hok HR t.
  { cbn in HR. inv_ok. rewrite (sumQ_ext _ (λ i, inject_Z 0 * 0)%Q).
    - rewrite sumQ_scale. ring.
    - intros i. rewrite registry_init_hold. done. }
  destruct (settlements_ok_snoc _ _ Hok) as (Hss & Hs & Hmid & Hv).
  destruct (settlement_run ss Hss) as (r1 & HR1 & Hsz & _ & Hp).
  rewrite foldM_app, HR1 in HR. cbn [mbind Outcome_bind foldM] in HR.
  unfold settle_step at 1 in HR. inv_ok.
  pose proof (run_room ss s r1 Hss Hv Hp) as Hroom.
  rewrite (sumQ_ext _ _ _ (λ i, settle_cash _ _ _ _ Hsz Hs Hmid Hroom E i t)).
  unfold Qminus. rewrite sumQ_plus, (IH r1 Hss HR1 t).
  rewrite (sumQ_ext _ (λ i, inject_Z (position_change s.2 i t) *
    (- usd (tr_executionPrice_ s.2)))%Q) by (intros i; ring).
  rewrite sumQ_scale, position_change_total by done. ring.
Qed.

(** Nor does what they own. *)
Lemma equity_total (ss : list (MatchingEngineRouter Index * Trade Ticker)) r t mid : settlements_ok ss →
  foldM settle_step ss registry_init = Ok r →
  (sumQ (λ i, equity (hold r i t) mid) participants == 0)%Q.
Proof.
  intros Hok HR. destruct (settlement_run (Inv:=Inv) ss Hok) as (r1 & HR1 & _ & _ & Hp).
  assert (r1 = r) as -> by congruence.
  rewrite (sumQ_ext _ _ _ (λ i, equity_net_cash (hold r i t) mid)).
  rewrite sumQ_plus, (settlement_run_cash ss r Hok HR t), sumQ_scale.
  change (sumZ _ participants) with (total_position r t).
  rewrite (total_of_changes ss r t Hok Hp). ring.
Qed.
End Cash.

(** ** Properties *)

(** A settled trade moves its volume from one account to the other.  With both
    sides participants, a positive volume and room in the positions, settling
    succeeds; the taker's position in the traded ticker moves by the signed volume,
    the maker's by its opposite (a trade with oneself moves nothing), every other
    position and every user id is unchanged, whatever the arithmetic of doubles. *)
Theorem settlement_moves_volume {D Ticker Inv Index} `{!DoubleOps D} `{!TickerType Ticker}
    `{!InventoryMap Ticker D Inv} `{!InventoryLaws Ticker D Inv} `{!OrderIndexType Index}
    (router : MatchingEngineRouter Index) (trade : Trade Ticker) (r : UserRegistry Inv) :
  registry_sized r → trade_ok trade → mid_readable router (tr_ticker_ trade) →
  room_for trade r →
  ∃ r', settle_trade router trade r = Ok r' ∧ user_ids r' = user_ids r ∧
    ∀ i t, volume_at r' i t = volume_at r i t +
      if decide (t = tr_ticker_ trade) then
        (if decide (i = user_index (tr_takerId_ trade)) then taker_delta trade else 0) -
        (if decide (i = user_index (tr_makerId_ trade)) then taker_delta trade else 0)
      else 0.
Proof.
  intros Hs Hok Hmid Hroom.
  destruct (settle_positions router trade r Hs Hok Hmid Hroom) as (r' & HR & _ & Hids & Hp).
  eauto.
Qed.

(** Registries of the examples, in exact and in floating-point arithmetic. *)
Notation QReg := (UserRegistry (gmap CTicker (Holding Q))).
Notation FReg := (UserRegistry (gmap CTicker (Holding binary64))).

Definition sample_trade (maker taker : Z) (side : Side) (price volume : Z) : Trade CTicker :=
  mkTrade (Strong maker) (Strong taker) (Strong 1) (Strong 2) AAPL side
    (Strong price) (Strong volume).

Lemma settlement_moves_volume_witness :
  let trade := sample_trade 3 4 Buy 100 10 in
  ∃ r', settle_trade (router_init (Ticker:=CTicker) (Index:=CIndex)) trade
      (registry_init : FReg) = Ok r' ∧
    user_ids r' = user_ids (registry_init : FReg) ∧
    ∀ i t, volume_at r' i t = volume_at (registry_init : FReg) i t +
      if decide (t = tr_ticker_ trade) then
        (if decide (i = user_index (tr_takerId_ trade)) then taker_delta trade else 0) -
        (if decide (i = user_index (tr_makerId_ trade)) then taker_delta trade else 0)
      else 0.
Proof.
  intros trade. refine (settlement_moves_volume (TickerType0:=static_str_ops MAX_TICKER_LENGTH)
    (router_init (Ticker:=CTicker) (Index:=CIndex)) trade (registry_init : FReg) _ _ _ _).
  - apply registry_init_sized.
  - by apply (bool_decide_unpack _).
  - vm_compute. reflexivity.
  - intros i. unfold volume_at. rewrite registry_init_hold. vm_compute. discriminate.
Defined.

(** Positions are conserved.  Settling any trades between participants, of
    positive volumes with a total that fits in 64 bits, succeeds from the initial
    registry; every position is then the sum of the user's signed fills, and for
    every ticker the positions of all participants add up to zero. *)
Theorem positions_sum_to_zero {D Ticker Inv Index} `{!DoubleOps D} `{!TickerType Ticker}
    `{!InventoryMap Ticker D Inv} `{!InventoryLaws Ticker D Inv} `{!OrderIndexType Index}
    (ss : list (MatchingEngineRouter Index * Trade Ticker)) :
  settlements_ok ss →
  ∃ r : UserRegistry Inv, foldM settle_step ss registry_init = Ok r ∧
    (∀ i t, volume_at r i t = sumZ (λ s, position_change s.2 i t) ss) ∧
    ∀ t, total_position r t = 0.
Proof.
  intros Hok. destruct (settlement_run (Inv:=Inv) ss Hok) as (r & HR & _ & _ & Hp).
  exists r. split_and!; [done..|]. intros t. by eapply total_of_changes.
Qed.

Definition sample_settlements : list (MatchingEngineRouter CIndex * Trade CTicker) :=
  (λ tr, (router_init (Ticker:=CTicker), tr)) <$>
  [sample_trade 3 4 Buy 100 10; sample_trade 4 5 Buy 110 25; sample_trade 5 5 Sell 90 3].

Lemma positions_sum_to_zero_witness :
  ∃ r : FReg, foldM settle_step sample_settlements registry_init = Ok r ∧
    (∀ i t, volume_at r i t = sumZ (λ s, position_change s.2 i t) sample_settlements) ∧
    ∀ t, total_position r t = 0.
Proof.
  refine (positions_sum_to_zero (TickerType0:=static_str_ops MAX_TICKER_LENGTH)
    sample_settlements _). by apply (bool_decide_unpack _).
Defined.

(** Trading creates no money.  In exact arithmetic, after settling any trades
    between participants, the realised P&L plus the open position marked at a mid
    price, summed over all participants, is zero for every ticker and every mid. *)
Theorem pnl_is_zero_sum {Ticker Inv Index} `{!TickerType Ticker}
    `{!InventoryMap Ticker Q Inv} `{!InventoryLaws Ticker Q Inv} `{!OrderIndexType Index}
    (ss : list (MatchingEngineRouter Index * Trade Ticker)) :
  settlements_ok ss →
  ∃ r : UserRegistry Inv, foldM settle_step ss registry_init = Ok r ∧
    ∀ t mid, (sumQ (λ i, equity (hold r i t) mid) participants == 0)%Q.
Proof.
  intros Hok. destruct (settlement_run (Inv:=Inv) ss Hok) as (r & HR & _).
  exists r. split; [done|]. intros t mid. by apply (equity_total ss).
Qed.

Lemma pnl_is_zero_sum_witness :
  ∃ r : QReg, foldM settle_step sample_settlements registry_init = Ok r ∧
    ∀ t mid, (sumQ (λ i, equity (hold r i t) mid) participants == 0)%Q.
Proof.
  refine (pnl_is_zero_sum (TickerType0:=static_str_ops MAX_TICKER_LENGTH)
    sample_settlements _). by apply (bool_decide_unpack _).
Defined.

(** C32: A trade with an unknown side is refused.  If the maker's or the taker's id
    is not the id of a participant, settling raises std::out_of_range, from the
    lookups that come before any account is touched; for the worker this means the
    exception leaves the thread. *)
Theorem settlement_rejects_strangers {D Ticker Inv Index} `{!DoubleOps D} `{!TickerType Ticker}
    `{!InventoryMap Ticker D Inv} (router : MatchingEngineRouter Index)
    (trade : Trade Ticker) (r : UserRegistry Inv) :
  registry_sized r → is_i64 (value (tr_makerId_ trade)) → is_i64 (value (tr_takerId_ trade)) →
  ¬ (participant (tr_makerId_ trade) ∧ participant (tr_takerId_ trade)) →
  settle_trade router trade r = Throw out_of_range.
Proof.
  intros Hs Hm Hk Hno. unfold settle_trade.
  destruct (decide (participant (tr_makerId_ trade))) as [Pm|Pm].
  - destruct (Get_participant _ r Hs Pm) as [-> _].
    rewrite (Get_stranger (tr_takerId_ trade)); [done..|naive_solver].
  - by rewrite (Get_stranger (tr_makerId_ trade)).
Qed.

Lemma settlement_rejects_strangers_witness :
  settle_trade (router_init (Ticker:=CTicker) (Index:=CIndex)) (sample_trade 3 (-1) Buy 100 10)
    (registry_init : FReg) = Throw out_of_range.
Proof.
  apply (settlement_rejects_strangers _ (sample_trade 3 (-1) Buy 100 10));
    [apply registry_init_sized|by apply (bool_decide_unpack _)..].
Defined.

Section Overflow.
Context {D : Type} `{!DoubleOps D} {Ticker : Type} `{!TickerType Ticker}.
Context {Inv : Type} `{!InventoryMap Ticker D Inv} `{!InventoryLaws Ticker D Inv}.
Context {Index : Type} `{!OrderIndexType Index}.
Implicit Types (r : UserRegistry Inv) (trade : Trade Ticker).

(** A position can be moved: its absolute value, which ApplyFill takes, and the new
    position are 64-bit values. *)
Definition position_fits (position change : Z) : Prop :=
  is_i64 (Z.abs position) ∧ is_i64 (position + change).

(** The two positions a trade moves: the maker's, then the taker's (which in a trade
    with oneself is what the first fill left). *)
Definition positions_fit trade r : Prop :=
  let m := user_index (tr_makerId_ trade) in
  let k := user_index (tr_takerId_ trade) in
  let d := taker_delta trade in
  position_fits (volume_at r m (tr_ticker_ trade)) (- d) ∧
  position_fits (volume_at r k (tr_ticker_ trade) - if decide (m = k) then d else 0) d.

#[export] Instance positions_fit_dec trade r : Decision (positions_fit trade r).
Proof. unfold positions_fit, position_fits. apply _. Defined.

Lemma fill_fits_position side (v : Volume) (h : Holding D) : 0 < value v → is_i64 (value v) →
  fill_fits side v h ↔ position_fits (value (hd_volume_ h)) (delta side v).
Proof. intros. unfold fill_fits, position_fits. tauto. Qed.

Lemma settle_positions_overflow (router : MatchingEngineRouter Index) trade r :
  registry_sized r → trade_ok trade → is_i64 (value (tr_volume_ trade)) →
  ¬ positions_fit trade r → settle_trade router trade r = Undefined.
Proof.
  intros Hs (Hm & Hk & Hv) Hi Hno. unfold settle_trade.
  destruct (Get_participant _ _ Hs Hm) as [-> Lm], (Get_participant _ _ Hs Hk) as [-> Lk].
  cbn [mbind Outcome_bind]. fold (user_index (tr_makerId_ trade)) (user_index (tr_takerId_ trade)) in *.
  change (match tr_takerSide_ trade with Buy => Sell | Sell => Buy end)
    with (opposite (tr_takerSide_ trade)).
  set (m := user_index (tr_makerId_ trade)) in *. set (k := user_index (tr_takerId_ trade)) in *.
  set (t := tr_ticker_ trade) in *.
  destruct (decide (position_fits (volume_at r m t) (- taker_delta trade))) as [F1|F1]; cycle 1.
  { rewrite on_user_overflow; [done..|].
    rewrite fill_fits_position, delta_opposite by done. exact F1. }
  assert (fill_fits (opposite (tr_takerSide_ trade)) (tr_volume_ trade) (hold r m t)) as F1'.
  { rewrite fill_fits_position, delta_opposite by done. exact F1. }
  destruct (on_user_fill m t _ (tr_executionPrice_ trade) _ r Lm F1')
    as (h1 & u1 & u1' & Hu1 & Hh1 & _ & HR1 & Hid1 & Hhold1).
  rewrite HR1. cbn [mbind Outcome_bind].
  rewrite on_user_overflow; [done|cbn; by rewrite length_insert|done..|].
  rewrite fill_fits_position, Hhold1 by done. intros F2. apply Hno. split; [done|].
  fold m k t. apply fill_holding_volume in Hh1; [|done].
  rewrite delta_opposite in Hh1. fold (volume_at r m t) (taker_delta trade) in *.
  destruct (decide (m = k)) as [E|E].
  - rewrite decide_True in F2 by done. rewrite Hh1 in F2. by rewrite <-E.
  - rewrite decide_False in F2 by naive_solver. by rewrite Z.sub_0_r.
Qed.
End Overflow.

(** C40: Exactly when settling overflows.  For a trade between participants of a
    positive 64-bit volume, on any registry of the participants, while the mid price of
    its ticker can be read: if both positions, moved by the volume
    one after the other, stay 64-bit values (and neither is the one value without an
    absolute value), the trade settles and moves just these two; otherwise ApplyFill
    overflows and the behaviour is undefined.  Nothing in the program bounds the
    volume a user accumulates, so two large fills reach this. *)
Theorem position_overflow_is_undefined {D Ticker Inv Index} `{!DoubleOps D} `{!TickerType Ticker}
    `{!InventoryMap Ticker D Inv} `{!InventoryLaws Ticker D Inv} `{!OrderIndexType Index}
    (router : MatchingEngineRouter Index) (trade : Trade Ticker) (r : UserRegistry Inv) :
  registry_sized r → trade_ok trade → is_i64 (value (tr_volume_ trade)) →
  mid_readable router (tr_ticker_ trade) →
  if decide (positions_fit trade r)
  then ∃ r', settle_trade router trade r = Ok r' ∧
         ∀ i t, volume_at r' i t = volume_at r i t + position_change trade i t
  else settle_trade router trade r = Undefined.
Proof.
  intros Hs Hok Hi Hmid. pose proof (proj2 (proj2 Hok)) as Hv.
  case_decide as Hf; [|by apply settle_positions_overflow]. destruct Hf as [F1 F2].
  assert (fill_fits (opposite (tr_takerSide_ trade)) (tr_volume_ trade)
    (hold r (user_index (tr_makerId_ trade)) (tr_ticker_ trade))) as F1'.
  { rewrite fill_fits_position, delta_opposite by done. exact F1. }
  assert (∀ h1, fill_holding (opposite (tr_takerSide_ trade)) (tr_executionPrice_ trade)
      (tr_volume_ trade) (hold r (user_index (tr_makerId_ trade)) (tr_ticker_ trade)) = Ok h1 →
    fill_fits (tr_takerSide_ trade) (tr_volume_ trade)
      (if decide (user_index (tr_makerId_ trade) = user_index (tr_takerId_ trade)) then h1
       else hold r (user_index (tr_takerId_ trade)) (tr_ticker_ trade))) as F2'.
  { intros h1 H1. rewrite fill_fits_position by done.
    apply fill_holding_volume in H1; [|done]. rewrite delta_opposite in H1.
    fold (taker_delta trade). case_decide as E; [|by rewrite Z.sub_0_r in F2].
    rewrite H1, <-E in *. exact F2. }
  destruct (settle_trade_fits router trade r Hs Hok Hmid F1' F2')
    as (r' & h1 & h2 & HR & _ & _ & H1 & H2 & Hb).
  exists r'. split; [done|]. apply fill_holding_volume in H2; [|by apply F2'].
  apply fill_holding_volume in H1; [|done]. rewrite delta_opposite in H1.
  by apply (settled_positions trade r r' h1 h2).
Qed.

(** The registry after user 4 has bought all that a position holds, and a fill more. *)
Definition full_position : FReg :=
  Eval vm_compute in ok_or registry_init (settle_trade
    (router_init (Ticker:=CTicker) (Index:=CIndex)) (sample_trade 3 4 Buy 100 i64_max) registry_init).

Lemma position_overflow_is_undefined_witness :
  ¬ positions_fit (sample_trade 5 4 Buy 100 1) full_position ∧
  if decide (positions_fit (sample_trade 5 4 Buy 100 1) full_position)
  then ∃ r', settle_trade (router_init (Ticker:=CTicker) (Index:=CIndex))
           (sample_trade 5 4 Buy 100 1) full_position = Ok r' ∧
         ∀ i t, volume_at r' i t =
           volume_at full_position i t + position_change (sample_trade 5 4 Buy 100 1) i t
  else settle_trade (router_init (Ticker:=CTicker) (Index:=CIndex))
         (sample_trade 5 4 Buy 100 1) full_position = Undefined.
Proof.
  split; [intros [_ [_ H]]; vm_compute in H; by destruct H|].
  apply (position_overflow_is_undefined (TickerType0:=static_str_ops MAX_TICKER_LENGTH)
    (router_init (Ticker:=CTicker) (Index:=CIndex)) (sample_trade 5 4 Buy 100 1) full_position);
    [reflexivity|by apply (bool_decide_unpack _)..|reflexivity].
Defined.

(** ** The snapshot *)

Section Snapshot.
Context {D : Type} `{!DoubleOps D} {Ticker : Type} `{!TickerType Ticker}.
Context {Inv : Type} `{!InventoryMap Ticker D Inv} `{!InventoryLaws Ticker D Inv}.
Implicit Types (us : list (User Inv)).

Definition rows_of (u : User Inv) : list (SnapshotRow D Ticker) :=
  (λ '(t, h), mkRow (Id u) t h) <$> um_entries (Inventory u).

Definition row_key (row : SnapshotRow D Ticker) : UserId * Ticker :=
  (row_userId row, row_ticker row).

Lemma elem_of_rows_of u row : row ∈ rows_of u ↔
  row_userId row = Id u ∧
  um_find (row_ticker row) (Inventory u) = Some (row_holding row).
Proof.
  unfold rows_of. rewrite list_elem_of_fmap. split.
  - intros ([t h] & -> & H). by apply um_entries_find in H.
  - intros [Hid H]. exists (row_ticker row, row_holding row).
    split; [destruct row; cbn in *; congruence|]. by apply um_entries_find.
Qed.

Lemma rows_of_NoDup u : NoDup (row_key <$> rows_of u).
Proof.
  unfold rows_of. rewrite <-list_fmap_compose.
  pose proof (um_entries_NoDup (Inventory u)) as H. revert H.
  induction (um_entries (Inventory u)) as [|[t h] l IH]; cbn; [constructor|].
  intros [Ht Hl]%NoDup_cons. apply NoDup_cons. split; [|by apply IH].
  intros ([t' h'] & E & Hin)%list_elem_of_fmap. cbn in E. injection E as ->.
  apply Ht, list_elem_of_fmap. by exists (t', h').
Qed.

Lemma snapshot_NoDup us : NoDup (Id <$> us) → NoDup (row_key <$> (us ≫= rows_of)).
Proof.
  induction us as [|u us IH]; [constructor|]. rewrite fmap_cons, NoDup_cons.
  intros [Hu Hus]. rewrite bind_cons, fmap_app. apply NoDup_app. split_and!.
  - apply rows_of_NoDup.
  - intros k (row & -> & Hrow)%list_elem_of_fmap (row' & E & Hrow')%list_elem_of_fmap.
    apply list_elem_of_bind in Hrow' as (u' & Hrow' & Hu').
    apply elem_of_rows_of in Hrow as [H1 _], Hrow' as [H2 _].
    injection E as E _. apply Hu, list_elem_of_fmap. exists u'. split; congruence.
  - by apply IH.
Qed.

Lemma registry_init_ids : NoDup (user_ids (registry_init (Inv:=Inv))).
Proof.
  unfold user_ids, registry_init. cbn [users_]. rewrite <-list_fmap_compose.
  apply NoDup_fmap_2; [|apply NoDup_seq]. intros i j E. cbn in E. injection E. lia.
Qed.
End Snapshot.

(** The snapshot lists every account once.  When the file opens, there is exactly
    one row per user and ticker that was ever touched, it carries that holding, and
    nothing else is listed; when it does not open, std::runtime_error is raised. *)
Theorem snapshot_lists_every_holding {D Ticker Inv} `{!DoubleOps D} `{!TickerType Ticker}
    `{!InventoryMap Ticker D Inv} `{!InventoryLaws Ticker D Inv} (r : UserRegistry Inv) :
  user_ids r = user_ids (registry_init (Inv:=Inv)) →
  WriteSnapshot false r = Throw runtime_error ∧
  ∃ rows, WriteSnapshot true r = Ok rows ∧ NoDup (row_key <$> rows) ∧
    ∀ row, row ∈ rows ↔ ∃ u, u ∈ users_ r ∧ row_userId row = Id u ∧
      um_find (row_ticker row) (us_inventory_ u) = Some (row_holding row).
Proof.
  intros Hids. split; [done|]. eexists. split; [done|]. split.
  - apply snapshot_NoDup. unfold user_ids in Hids. change (NoDup (us_id_ <$> users_ r)).
    rewrite Hids. apply registry_init_ids.
  - intros row. rewrite list_elem_of_bind. setoid_rewrite elem_of_rows_of. naive_solver.
Qed.

Definition settled_sample : FReg :=
  Eval vm_compute in ok_or registry_init (foldM settle_step sample_settlements registry_init).

Lemma snapshot_lists_every_holding_witness :
  WriteSnapshot false settled_sample = Throw runtime_error ∧
  ∃ rows, WriteSnapshot true settled_sample = Ok rows ∧ NoDup (row_key <$> rows) ∧
    ∀ row, row ∈ rows ↔ ∃ u, u ∈ users_ settled_sample ∧ row_userId row = Id u ∧
      um_find (row_ticker row) (us_inventory_ u) = Some (row_holding row).
Proof. apply (snapshot_lists_every_holding settled_sample). vm_compute. reflexivity. Defined.
