(* ===== verification/Decimal.v ===== *)
(** * Numbers as text

    What [out << n] writes for a std::int64_t and a double on a stream with the default
    format: decimal digits, and for a double at most six significant ones (%g of printf).
    A reader for such text, and what it gets back: integers exactly, amounts to within
    five millionths of their value. *)

From Stdlib Require Import Strings.Byte Strings.String.
From Corelib Require Import SpecFloat.
From Stdlib Require Import QArith Qround Qabs Qpower Lqa.
From stdpp Require Import base list.
From S2P Require Import Prelude Double.

Local Open Scope Z_scope.

(** ** Digits *)

Fixpoint digits_fuel (fuel : nat) (n : Z) : list Z :=
  match fuel with
  | O => []
  | S fuel' => if n <? 10 then [n] else digits_fuel fuel' (n / 10) ++ [n mod 10]
  end.

(** The decimal digits of a number that is not negative, the highest first. *)
Definition digits (n : Z) : list Z := digits_fuel (S (Z.to_nat (Z.log2 n))) n.

(** The number some digits stand for. *)
Definition eval (ds : list Z) : Z := foldl (λ a d, 10 * a + d) 0 ds.

Definition is_digit (d : Z) : Prop := 0 ≤ d < 10.

(** '0' + d *)
Definition digit_char (d : Z) : byte :=
  match Byte.of_N (Z.to_N (48 + d)) with Some b => b | None => x30 end.
Definition char_digit (b : byte) : option Z :=
  let d := Z.of_N (Byte.to_N b) - 48 in
  if (0 <=? d) && (d <? 10) then Some d else None.

Lemma eval_snoc ds d : eval (ds ++ [d]) = 10 * eval ds + d.
Proof. unfold eval. by rewrite foldl_app. Qed.

Lemma digits_fuel_spec fuel n : 0 ≤ n < 2 ^ Z.of_nat fuel → (0 < fuel)%nat →
  eval (digits_fuel fuel n) = n ∧ Forall is_digit (digits_fuel fuel n) ∧ digits_fuel fuel n ≠ [].
Proof.
  revert n. induction fuel as [|fuel IH]; intros n Hn Hf; [lia|]. cbn [digits_fuel].
  destruct (Z.ltb_spec n 10).
  { split_and!; [done| |done]. constructor; [by destruct Hn|done]. }
  rewrite Nat2Z.inj_succ, Z.pow_succ_r in Hn by lia.
  pose proof (Z.div_mod n 10 ltac:(lia)) as Hdm. pose proof (Z.mod_pos_bound n 10 ltac:(lia)).
  assert (0 < fuel)%nat by (destruct fuel; [cbn in Hn|]; lia).
  destruct (IH (n / 10)) as (E & Hd & _); [lia|done|]. split_and!.
  - rewrite eval_snoc, E. lia.
  - apply Forall_app. split; [done|]. by constructor.
  - by destruct (digits_fuel fuel (n / 10)).
Qed.

Lemma digits_spec n : 0 ≤ n → eval (digits n) = n ∧ Forall is_digit (digits n) ∧ digits n ≠ [].
Proof.
  intros Hn. apply digits_fuel_spec; [|lia]. split; [done|].
  rewrite Nat2Z.inj_succ, Z2Nat.id by apply Z.log2_nonneg.
  destruct (Z.eq_dec n 0) as [->|]; [done|]. apply Z.log2_spec. lia.
Qed.

(** ** How many digits *)

Lemma eval_app ds1 ds2 : eval (ds1 ++ ds2) = eval ds1 * 10 ^ Z.of_nat (length ds2) + eval ds2.
Proof.
  induction ds2 as [|d ds2 IH] using rev_ind; cbn; [rewrite app_nil_r; lia|].
  rewrite (assoc_L (++)), !eval_snoc, IH, length_app. cbn [length].
  rewrite Nat.add_1_r, Nat2Z.inj_succ, Z.pow_succ_r by lia. lia.
Qed.

Lemma eval_zeros k : eval (replicate k 0) = 0.
Proof. induction k as [|k IH]; [done|]. by rewrite replicate_S_end, eval_snoc, IH. Qed.

Lemma eval_bound ds : Forall is_digit ds → 0 ≤ eval ds < 10 ^ Z.of_nat (length ds).
Proof.
  induction ds as [|d ds IH] using rev_ind; intros Hd; [done|].
  apply Forall_app in Hd as [H1 H2]. inversion H2 as [|? ? [? ?]]; subst. specialize (IH H1).
  rewrite eval_snoc, length_app. cbn [length]. rewrite Nat.add_1_r, Nat2Z.inj_succ, Z.pow_succ_r by lia. lia.
Qed.

(** A number has as many digits as it needs. *)
Lemma digits_fuel_lower fuel n : 0 < n < 2 ^ Z.of_nat fuel → (0 < fuel)%nat →
  10 ^ (Z.of_nat (length (digits_fuel fuel n)) - 1) ≤ n.
Proof.
  revert n. induction fuel as [|fuel IH]; intros n Hn Hf; [lia|]. cbn [digits_fuel].
  destruct (Z.ltb_spec n 10); [cbn; lia|].
  rewrite Nat2Z.inj_succ, Z.pow_succ_r in Hn by lia.
  pose proof (Z.div_mod n 10 ltac:(lia)) as Hdm. pose proof (Z.mod_pos_bound n 10 ltac:(lia)).
  assert (0 < fuel)%nat by (destruct fuel; [cbn in Hn|]; lia).
  specialize (IH (n / 10) ltac:(lia) ltac:(done)). rewrite length_app. cbn [length].
  destruct (digits_fuel_spec fuel (n / 10)) as (_ & _ & Hne); [lia|done|].
  assert (0 < length (digits_fuel fuel (n / 10)))%nat by (destruct (digits_fuel _ _); [done|cbn; lia]).
  set (len := length (digits_fuel fuel (n / 10))) in *.
  replace (Z.of_nat (len + 1) - 1) with (Z.succ (Z.of_nat len - 1)) by lia.
  rewrite Z.pow_succ_r by lia. lia.
Qed.

Definition digit_count (n : Z) : Z := Z.of_nat (length (digits n)).

Lemma digit_count_spec n : 0 < n → 10 ^ (digit_count n - 1) ≤ n < 10 ^ digit_count n ∧ 0 < digit_count n.
Proof.
  intros Hn. destruct (digits_spec n) as (E & Hd & Hne); [lia|]. unfold digit_count. split_and!.
  - apply digits_fuel_lower; [|lia]. split; [done|].
    rewrite Nat2Z.inj_succ, Z2Nat.id by apply Z.log2_nonneg. by apply Z.log2_spec.
  - rewrite <-E at 1. by apply eval_bound.
  - destruct (digits n); [done|cbn; lia].
Qed.

Lemma digit_count_eq n k : 0 < k → 10 ^ (k - 1) ≤ n < 10 ^ k → digit_count n = k.
Proof.
  intros Hk [H1 H2]. assert (0 < n) by (pose proof (Z.pow_pos_nonneg 10 (k - 1)); lia).
  destruct (digit_count_spec n) as [[H3 H4] H5]; [done|].
  assert (k - 1 < digit_count n) by (apply (Z.pow_lt_mono_r_iff 10); lia).
  assert (digit_count n - 1 < k) by (apply (Z.pow_lt_mono_r_iff 10); lia). lia.
Qed.

(** ** Integers *)

(** [out << n] for a std::int64_t. *)
Definition print_Z (n : Z) : list byte :=
  if n <? 0 then x2d :: (digit_char <$> digits (- n)) else digit_char <$> digits n.

(** A reader of digits, and one of integers. *)
Definition read_digits (l : list byte) : option (list Z) :=
  match l with [] => None | _ => mapM char_digit l end.
Definition read_Z (l : list byte) : option Z :=
  match l with
  | x2d :: l' => ds ← read_digits l'; Some (- eval ds)
  | _ => ds ← read_digits l; Some (eval ds)
  end.

Lemma is_digit_cases d : is_digit d →
  d = 0 ∨ d = 1 ∨ d = 2 ∨ d = 3 ∨ d = 4 ∨ d = 5 ∨ d = 6 ∨ d = 7 ∨ d = 8 ∨ d = 9.
Proof. unfold is_digit. lia. Qed.

Lemma char_digit_char d : is_digit d → char_digit (digit_char d) = Some d.
Proof. intros Hd%is_digit_cases. by destruct_or! Hd; subst. Qed.

Lemma read_digit_chars ds : Forall is_digit ds → ds ≠ [] → read_digits (digit_char <$> ds) = Some ds.
Proof.
  intros Hd Hne. assert (mapM char_digit (digit_char <$> ds) = Some ds) as E.
  { apply mapM_Some. apply Forall2_fmap_l. induction Hd; constructor; [by apply char_digit_char|].
    destruct l; [constructor|by apply IHHd]. }
  by destruct ds.
Qed.

(** The characters a number is made of. *)
Definition number_char (b : byte) : Prop :=
  is_Some (char_digit b) ∨ b = x2d ∨ b = x2b ∨ b = x2e ∨ b ∈ list_byte_of_string "einfa".

Lemma digit_number_char d : is_digit d → number_char (digit_char d).
Proof. intros Hd. left. rewrite char_digit_char by done. by eexists. Qed.

Lemma digits_number_chars ds : Forall is_digit ds → Forall number_char (digit_char <$> ds).
Proof. intros Hd. apply Forall_fmap. by eapply Forall_impl; [|apply digit_number_char]. Qed.

Lemma digit_char_no_sign d : is_digit d → digit_char d ≠ x2d.
Proof. intros Hd%is_digit_cases. by destruct_or! Hd; subst. Qed.

Lemma print_Z_chars n : Forall number_char (print_Z n).
Proof.
  unfold print_Z. destruct (Z.ltb_spec n 0).
  - constructor; [by right; left|]. apply digits_number_chars, digits_spec. lia.
  - apply digits_number_chars, digits_spec. lia.
Qed.

(** Integers are written exactly. *)
Lemma read_print_Z n : read_Z (print_Z n) = Some n.
Proof.
  unfold print_Z. destruct (Z.ltb_spec n 0).
  - destruct (digits_spec (- n)) as (E & Hd & Hne); [lia|]. cbn [read_Z].
    rewrite read_digit_chars by done. cbn [mbind option_bind]. f_equal. lia.
  - destruct (digits_spec n) as (E & Hd & Hne); [lia|].
    assert (read_Z (digit_char <$> digits n) = (ds ← read_digits (digit_char <$> digits n); Some (eval ds))) as ->.
    { destruct (digits n) as [|d ds]; [done|]. inversion Hd; subst. cbn [fmap list_fmap read_Z].
      pose proof (digit_char_no_sign d ltac:(done)). by destruct (digit_char d). }
    rewrite read_digit_chars by done. cbn [mbind option_bind]. by rewrite E.
Qed.

(** ** Six significant digits *)

Local Open Scope Q_scope.

Definition ten : Q := 10 # 1.

(** floor(log10 q) for a positive q: the numbers of digits differ by that or one more. *)
Definition exponent10 (q : Q) : Z :=
  let k := (digit_count (Qnum q) - digit_count (Zpos (Qden q)))%Z in
  if Qle_bool (ten ^ k) q then k else (k - 1)%Z.

(** The nearest integer, halfway cases to the even one. *)
Definition Qround_even (q : Q) : Z :=
  let f := Qfloor q in
  match Qcompare (q - inject_Z f) (1 # 2) with
  | Lt => f
  | Gt => (f + 1)%Z
  | Eq => if Z.even f then f else (f + 1)%Z
  end.

(** Six digits and the exponent of the first one. *)
Definition six_digits (q : Q) : Z * Z :=
  let X := exponent10 q in
  let M := Qround_even (q * ten ^ (5 - X)) in
  if (M =? 1000000)%Z then (100000%Z, (X + 1)%Z) else (M, X).

Lemma ten_pos k : 0 < ten ^ k.
Proof. by apply Qpower_0_lt. Qed.

Lemma ten_plus a b : ten ^ (a + b) == ten ^ a * ten ^ b.
Proof. by apply Qpower_plus. Qed.

Lemma ten_Z k : (0 <= k)%Z → ten ^ k == inject_Z (10 ^ k).
Proof. intros Hk. by rewrite Zpower_Qpower. Qed.

Lemma exponent10_spec q : 0 < q → ten ^ exponent10 q <= q < ten ^ (exponent10 q + 1).
Proof.
  destruct q as [n d]. intros Hq. assert (0 < n)%Z as Hn by (unfold Qlt in Hq; cbn in Hq; lia).
  unfold exponent10. cbn [Qnum Qden].
  destruct (digit_count_spec n Hn) as [[Ha1 Ha2] Ha]. 
  destruct (digit_count_spec (Zpos d)) as [[Hb1 Hb2] Hb]; [lia|].
  set (a := digit_count n) in *. set (b := digit_count (Zpos d)) in *.
  assert (n # d == inject_Z n / inject_Z (Zpos d)) as Hq' by apply Qmake_Qdiv.
  assert (0 < inject_Z (Zpos d)) as Hd by done.
  assert (ten ^ (a - b - 1) <= n # d) as Hlo.
  { rewrite Hq'. apply Qle_shift_div_l; [done|].
    apply Qle_trans with (ten ^ (a - b - 1) * ten ^ b).
    - apply Qmult_le_l; [apply ten_pos|]. rewrite ten_Z by lia. rewrite <-Zle_Qle. lia.
    - rewrite <-ten_plus. replace (a - b - 1 + b)%Z with (a - 1)%Z by lia.
      rewrite ten_Z by lia. by rewrite <-Zle_Qle. }
  assert (n # d < ten ^ (a - b + 1)) as Hhi.
  { rewrite Hq'. apply Qlt_shift_div_r; [done|].
    apply Qlt_le_trans with (ten ^ (a - b + 1) * ten ^ (b - 1)).
    - rewrite <-ten_plus. replace (a - b + 1 + (b - 1))%Z with a by lia.
      rewrite ten_Z by lia. by rewrite <-Zlt_Qlt.
    - apply Qmult_le_l; [apply ten_pos|]. rewrite ten_Z by lia. by rewrite <-Zle_Qle. }
  destruct (Qle_bool (ten ^ (a - b)) (n # d)) eqn:E.
  - by apply Qle_bool_iff in E.
  - split; [done|]. replace (a - b - 1 + 1)%Z with (a - b)%Z by lia.
    apply Qnot_le_lt. intros Hle%Qle_bool_iff. congruence.
Qed.

Lemma Qround_even_near q : - (1 # 2) <= q - inject_Z (Qround_even q) <= 1 # 2.
Proof.
  unfold Qround_even. pose proof (Qfloor_le q) as H1. pose proof (Qlt_floor q) as H2.
  rewrite inject_Z_plus in H2. change (inject_Z 1) with 1 in H2.
  destruct (Qcompare_spec (q - inject_Z (Qfloor q)) (1 # 2)); [destruct (Z.even _)|..];
    rewrite ?inject_Z_plus; change (inject_Z 1) with 1; lra.
Qed.

(** Rounding stays within bounds that are integers. *)
Lemma Qround_even_bounds a b q : inject_Z a <= q → q < inject_Z b → (a <= Qround_even q <= b)%Z.
Proof.
  intros Ha Hb. pose proof (Qround_even_near q) as [H1 H2].
  split; apply Z.lt_succ_r; rewrite Zlt_Qlt; unfold Z.succ; rewrite inject_Z_plus; change (inject_Z 1) with 1; lra.
Qed.

(** The number that six digits and an exponent stand for. *)
Definition shown (M X : Z) : Q := inject_Z M * ten ^ (X - 5).

(** Close to [q]: off by at most five millionths of it. *)
Definition close_to (q p : Q) : Prop := Qabs (q - p) <= (1 # 200000) * Qabs q.

#[export] Instance close_to_proper : Proper (Qeq ==> Qeq ==> iff) close_to.
Proof. intros q q' Hq p p' Hp. unfold close_to. by rewrite Hq, Hp. Qed.

Lemma six_digits_spec q : 0 < q →
  let (M, X) := six_digits q in (100000 <= M < 1000000)%Z ∧ close_to q (shown M X).
Proof.
  intros Hq. destruct (exponent10_spec q Hq) as [H1 H2]. unfold six_digits, shown.
  set (X := exponent10 q) in *. set (p := q * ten ^ (5 - X)). set (u := ten ^ (X - 5)).
  assert (0 < u) as Hu by apply ten_pos.
  assert (ten ^ (5 - X) * u == 1) as Hinv
    by (unfold u; rewrite <-ten_plus; by replace (5 - X + (X - 5))%Z with 0%Z by lia).
  assert (q == p * u) as Hpu by (unfold p; rewrite <-Qmult_assoc, Hinv; ring).
  assert (100000 <= p) as Hp1.
  { apply Qle_trans with (ten ^ X * ten ^ (5 - X)); [|by apply Qmult_le_r; [apply ten_pos|]].
    rewrite <-ten_plus. by replace (X + (5 - X))%Z with 5%Z by lia. }
  assert (p < 1000000) as Hp2.
  { apply Qlt_le_trans with (ten ^ (X + 1) * ten ^ (5 - X)); [by apply Qmult_lt_r; [apply ten_pos|]|].
    rewrite <-ten_plus. by replace (X + 1 + (5 - X))%Z with 6%Z by lia. }
  pose proof (Qround_even_bounds 100000 1000000 p Hp1 Hp2) as HM.
  pose proof (Qround_even_near p) as [Hn1 Hn2]. set (M := Qround_even p) in *.
  assert (close_to q (inject_Z M * u)) as Hc.
  { unfold close_to. rewrite Hpu, Qabs_Qmult, (Qabs_pos u), (Qabs_pos p) by lra.
    setoid_replace (p * u - inject_Z M * u) with ((p - inject_Z M) * u) using relation Qeq by ring.
    rewrite Qabs_Qmult, (Qabs_pos u), Qmult_assoc by lra. apply Qmult_le_r; [done|].
    apply Qabs_Qle_condition. lra. }
  destruct (Z.eqb_spec M 1000000) as [E|E].
  - split; [lia|]. rewrite E in Hc. replace (X + 1 - 5)%Z with (1 + (X - 5))%Z by lia.
    rewrite ten_plus. fold u. setoid_replace (inject_Z 100000 * (ten ^ 1 * u)) with (inject_Z 1000000 * u)
      using relation Qeq; [done|].
    change (inject_Z 1000000) with (inject_Z 100000 * ten ^ 1). ring.
  - split; [lia|done].
Qed.

(** ** Laying out six digits *)

Local Open Scope Z_scope.

(** Trailing zeros are not written. *)
Fixpoint strip_zeros (ds : list Z) : list Z :=
  match ds with
  | [] => []
  | d :: ds' =>
      match strip_zeros ds' with
      | [] => if d =? 0 then [] else [d]
      | kept => d :: kept
      end
  end.

(** The digits before the point, those behind it, and the exponent if one is written. *)
Record Layout := mkLayout {
  ly_whole : list Z;
  ly_fraction : list Z;
  ly_exponent : option Z;
}.

(** %g: the scientific form for exponents below -4 and from 6 on. *)
Definition layout (M X : Z) : Layout :=
  let ds := digits M in
  if (-4 <=? X) && (X <? 6) then
    if 0 <=? X then mkLayout (take (Z.to_nat (X + 1)) ds) (strip_zeros (drop (Z.to_nat (X + 1)) ds)) None
    else mkLayout [0] (strip_zeros (replicate (Z.to_nat (- X - 1)) 0 ++ ds)) None
  else mkLayout (take 1 ds) (strip_zeros (drop 1 ds)) (Some X).

(** An exponent has a sign and at least two digits. *)
Definition print_exponent (X : Z) : list byte :=
  (if X <? 0 then x2d else x2b) ::
  (digit_char <$> (if Z.abs X <? 10 then 0 :: digits (Z.abs X) else digits (Z.abs X))).

Definition render (l : Layout) : list byte :=
  (digit_char <$> ly_whole l) ++
  match ly_fraction l with [] => [] | ds => x2e :: (digit_char <$> ds) end ++
  match ly_exponent l with None => [] | Some X => x65 :: print_exponent X end.

(** The magnitude of a finite binary64. *)
Definition magnitude (m : positive) (e : Z) : Q := (inject_Z (Zpos m) * (2 # 1) ^ e)%Q.

(** [out << x] for a double; [nan_sign] is the sign bit of a NaN, which binary64 does not
    keep. *)
Definition print_double (nan_sign : bool) (x : binary64) : list byte :=
  let sign (s : bool) := if s then [x2d] else [] in
  match x with
  | S754_zero s => sign s ++ [x30]
  | S754_infinity s => sign s ++ list_byte_of_string "inf"
  | S754_nan => sign nan_sign ++ list_byte_of_string "nan"
  | S754_finite s m e => let (M, X) := six_digits (magnitude m e) in sign s ++ render (layout M X)
  end.

(** The number a layout stands for. *)
Definition layout_value (l : Layout) : Q :=
  (inject_Z (eval (ly_whole l ++ ly_fraction l)) *
   ten ^ (default 0%Z (ly_exponent l) - Z.of_nat (length (ly_fraction l))))%Q.

Lemma strip_zeros_spec ds : ∃ k, ds = strip_zeros ds ++ replicate k 0.
Proof.
  induction ds as [|d ds [k IH]]; [by exists 0%nat|]. cbn [strip_zeros].
  destruct (strip_zeros ds) as [|d' kept].
  - destruct (Z.eqb_spec d 0) as [->|]; [exists (S k)|exists k]; cbn in *; by rewrite <-IH.
  - exists k. cbn in *. by rewrite <-IH.
Qed.

(** Dropping zeros behind the point does not change the number. *)
Lemma layout_value_strip whole rest ex M X : eval (whole ++ rest) = M →
  default 0 ex - Z.of_nat (length rest) = X - 5 →
  (layout_value (mkLayout whole (strip_zeros rest) ex) == shown M X)%Q.
Proof.
  intros HM HX. unfold layout_value, shown. cbn [ly_whole ly_fraction ly_exponent].
  destruct (strip_zeros_spec rest) as [k Hk]. set (kept := strip_zeros rest) in *.
  assert (eval (whole ++ kept) * 10 ^ Z.of_nat k = M) as <-.
  { rewrite <-HM, Hk, (assoc_L (++)), (eval_app _ (replicate k 0)), eval_zeros, length_replicate. lia. }
  apply (f_equal length) in Hk. rewrite length_app, length_replicate in Hk.
  replace (default 0 ex - Z.of_nat (length kept)) with (Z.of_nat k + (X - 5)) by lia.
  rewrite ten_plus, inject_Z_mult, ten_Z by lia. ring.
Qed.

Lemma six_length M : 100000 ≤ M < 1000000 → length (digits M) = 6%nat.
Proof. intros HM. apply Nat2Z.inj. apply (digit_count_eq M 6); [lia|done]. Qed.

(** The layout shows the six digits. *)
Lemma layout_shows M X : 100000 ≤ M < 1000000 → (layout_value (layout M X) == shown M X)%Q.
Proof.
  intros HM. destruct (digits_spec M) as (E & _); [lia|]. pose proof (six_length M HM) as Hl.
  unfold layout. destruct ((-4 <=? X) && (X <? 6)) eqn:HX.
  - apply andb_true_iff in HX as [H1%Z.leb_le H2%Z.ltb_lt]. destruct (Z.leb_spec 0 X).
    + apply layout_value_strip; [by rewrite take_drop|]. cbn [from_option id].
      rewrite length_drop, Hl. lia.
    + apply layout_value_strip.
      * rewrite (assoc_L (++)), eval_app. change ([0] ++ replicate _ 0) with (replicate (S (Z.to_nat (- X - 1))) 0).
        rewrite eval_zeros. lia.
      * cbn [from_option id]. rewrite length_app, length_replicate, Hl. lia.
  - apply layout_value_strip; [by rewrite take_drop|]. cbn [from_option id]. rewrite length_drop, Hl. lia.
Qed.

(** ** Reading an amount *)

(** The text up to the first [sep], and what follows it. *)
Fixpoint cut_at (sep : byte) (l : list byte) : list byte * option (list byte) :=
  match l with
  | [] => ([], None)
  | b :: l' =>
      if decide (b = sep) then ([], Some l')
      else let (before, after) := cut_at sep l' in (b :: before, after)
  end.

Definition read_exponent (l : list byte) : option Z :=
  match l with
  | x2d :: l' => ds ← read_digits l'; Some (- eval ds)
  | x2b :: l' => ds ← read_digits l'; Some (eval ds)
  | _ => None
  end.

Definition read_magnitude (l : list byte) : option Q :=
  let (mantissa, exponent) := cut_at x65 l in
  let (whole, fraction) := cut_at x2e mantissa in
  whole ← read_digits whole;
  fraction ← match fraction with None => Some [] | Some l' => read_digits l' end;
  exponent ← match exponent with None => Some None | Some l' => X ← read_exponent l'; Some (Some X) end;
  Some (layout_value (mkLayout whole fraction exponent)).

Definition read_double (l : list byte) : option Q :=
  match l with
  | x2d :: l' => q ← read_magnitude l'; Some (- q)%Q
  | _ => read_magnitude l
  end.

Lemma cut_at_none sep l : sep ∉ l → cut_at sep l = (l, None).
Proof.
  induction l as [|b l IH]; intros Hn; [done|]. cbn [cut_at].
  rewrite decide_False by set_solver. by rewrite IH by set_solver.
Qed.

Lemma cut_at_some sep l1 l2 : sep ∉ l1 → cut_at sep (l1 ++ sep :: l2) = (l1, Some l2).
Proof.
  induction l1 as [|b l1 IH]; intros Hn; cbn [cut_at app]; [by rewrite decide_True|].
  rewrite decide_False by set_solver. by rewrite IH by set_solver.
Qed.

Lemma not_a_digit b ds : Forall is_digit ds → char_digit b = None → b ∉ digit_char <$> ds.
Proof.
  intros Hd Hb (d & -> & Hin)%list_elem_of_fmap. rewrite Forall_forall in Hd.
  by rewrite char_digit_char in Hb by by apply Hd.
Qed.

(** A layout that is digits. *)
Definition layout_ok (l : Layout) : Prop :=
  ly_whole l ≠ [] ∧ Forall is_digit (ly_whole l) ∧ Forall is_digit (ly_fraction l).

Lemma strip_zeros_digits ds : Forall is_digit ds → Forall is_digit (strip_zeros ds).
Proof. intros Hd. destruct (strip_zeros_spec ds) as [k Hk]. rewrite Hk in Hd. by apply Forall_app in Hd as [? _]. Qed.

Lemma layout_is_ok M X : 100000 ≤ M < 1000000 → layout_ok (layout M X).
Proof.
  intros HM. destruct (digits_spec M) as (E & Hd & Hne); [lia|]. unfold layout, layout_ok.
  assert (∀ n, (0 < n)%nat → take n (digits M) ≠ []) as Ht.
  { intros n Hn. destruct (digits M); [done|]. by destruct n; [lia|]. }
  destruct (_ && _); [destruct (Z.leb_spec 0 X)|]; cbn [ly_whole ly_fraction];
    (split_and!; [first [done|apply Ht; lia]| |apply strip_zeros_digits]);
    try (by apply Forall_take || by apply Forall_drop); [by repeat constructor|].
  apply Forall_app. split; [by apply Forall_replicate|done].
Qed.

Lemma read_print_exponent X : read_exponent (print_exponent X) = Some X.
Proof.
  unfold print_exponent. destruct (digits_spec (Z.abs X)) as (E & Hd & Hne); [lia|].
  set (ds := if Z.abs X <? 10 then 0 :: digits (Z.abs X) else digits (Z.abs X)).
  assert (Forall is_digit ds ∧ ds ≠ [] ∧ eval ds = Z.abs X) as (H1 & H2 & H3).
  { subst ds. destruct (_ <? _); [|done]. split_and!; [by constructor|done|].
    transitivity (eval ([0] ++ digits (Z.abs X))); [done|]. by rewrite eval_app, E. }
  destruct (Z.ltb_spec X 0); cbn [read_exponent]; rewrite read_digit_chars by done;
    cbn [mbind option_bind]; f_equal; lia.
Qed.

(** A layout reads back as the number it stands for. *)
Lemma read_render l : layout_ok l → read_magnitude (render l) = Some (layout_value l).
Proof.
  destruct l as [whole fraction exponent]. intros (Hne & Hw & Hf). cbn [ly_whole ly_fraction] in *.
  unfold render, read_magnitude. cbn [ly_whole ly_fraction ly_exponent]. rewrite (assoc_L (++)).
  set (mant := (digit_char <$> whole) ++ _).
  assert (x65 ∉ mant) as Hmant.
  { subst mant. rewrite elem_of_app. intros [H|H]; [by eapply not_a_digit in H|].
    destruct fraction as [|d ds]; [set_solver|]. apply elem_of_cons in H as [H|H]; [done|].
    by eapply (not_a_digit x65) in H. }
  assert (cut_at x65 (mant ++ match exponent with None => [] | Some X => x65 :: print_exponent X end)
    = (mant, print_exponent <$> exponent)) as ->.
  { destruct exponent; cbn; [by apply cut_at_some|]. rewrite app_nil_r. by apply cut_at_none. }
  assert (cut_at x2e mant = (digit_char <$> whole,
    match fraction with [] => None | _ => Some (digit_char <$> fraction) end)) as ->.
  { subst mant. assert (x2e ∉ digit_char <$> whole) by by apply not_a_digit.
    destruct fraction; [rewrite app_nil_r; by apply cut_at_none|by apply cut_at_some]. }
  rewrite read_digit_chars by done. cbn [mbind option_bind].
  assert ((match match fraction with [] => None | _ => Some (digit_char <$> fraction) end with
    None => Some [] | Some l' => read_digits l' end) = Some fraction) as ->.
  { destruct fraction; [done|]. by apply read_digit_chars. }
  cbn [mbind option_bind]. destruct exponent as [X|]; cbn [fmap option_fmap option_map]; [|done].
  by rewrite read_print_exponent.
Qed.

(** ** Doubles *)

(** The number a finite binary64 is. *)
Definition b64_value (x : binary64) : option Q :=
  match x with
  | S754_zero _ => Some 0%Q
  | S754_finite s m e => Some (if s then - magnitude m e else magnitude m e)%Q
  | _ => None
  end.

(** What a reader may learn of [x]: its value to within five millionths, or that it is not
    a number. *)
Definition amount_shown (x : binary64) (got : option Q) : Prop :=
  match b64_value x, got with
  | Some q, Some p => close_to q p
  | None, None => True
  | _, _ => False
  end.

Lemma magnitude_pos m e : (0 < magnitude m e)%Q.
Proof. apply Qmult_lt_0_compat; [done|by apply Qpower_0_lt]. Qed.

Lemma close_to_opp q p : close_to q p → close_to (- q) (- p).
Proof.
  unfold close_to. rewrite Qabs_opp. intros H.
  setoid_replace (- q - - p)%Q with (- (q - p))%Q using relation Qeq by ring. by rewrite Qabs_opp.
Qed.

Lemma render_no_sign l : layout_ok l → ∃ b rest, render l = b :: rest ∧ b ≠ x2d.
Proof.
  intros (Hne & Hw & _). unfold render. destruct (ly_whole l) as [|d ds]; [done|].
  inversion Hw; subst. eexists _, _. split; [done|]. by apply digit_char_no_sign.
Qed.

Lemma read_double_unsigned l b rest : l = b :: rest → b ≠ x2d → read_double l = read_magnitude l.
Proof. intros -> Hb. unfold read_double. by destruct b. Qed.

(** An amount reads back to six digits. *)
Lemma read_print_double nan_sign x : amount_shown x (read_double (print_double nan_sign x)).
Proof.
  destruct x as [s|s| |s m e]; unfold amount_shown.
  - assert (read_double (print_double nan_sign (S754_zero s)) = Some (if s then - 0 * 1 else 0 * 1)%Q) as ->
      by by destruct s. cbn. by destruct s.
  - by destruct s.
  - by destruct nan_sign.
  - cbn [b64_value print_double]. pose proof (six_digits_spec _ (magnitude_pos m e)) as HS.
    destruct (six_digits (magnitude m e)) as [M X]. destruct HS as [HM Hc].
    pose proof (layout_is_ok M X HM) as Hok. rewrite <-(layout_shows M X HM) in Hc.
    destruct s; cbn [app].
    + cbn [read_double]. rewrite read_render by done. by apply close_to_opp.
    + destruct (render_no_sign _ Hok) as (b & rest & E & Hb).
      by rewrite (read_double_unsigned _ _ _ E Hb), read_render.
Qed.

(** ** The characters of an amount *)

Lemma number_letter b : bool_decide (b ∈ list_byte_of_string "einfa") = true → number_char b.
Proof. intros H%bool_decide_eq_true. by do 4 right. Qed.

Lemma render_chars l : layout_ok l → Forall number_char (render l).
Proof.
  intros (_ & Hw & Hf). unfold render. rewrite !Forall_app. split_and!.
  - by apply digits_number_chars.
  - destruct (ly_fraction l); [constructor|]. constructor; [by right; right; right; left|].
    by apply digits_number_chars.
  - destruct (ly_exponent l) as [X|]; [|constructor]. constructor; [by apply number_letter|].
    unfold print_exponent. destruct (digits_spec (Z.abs X)) as (_ & Hd & _); [lia|].
    constructor; [destruct (X <? 0); [by right; left|by right; right; left]|].
    apply digits_number_chars. destruct (_ <? _); [by constructor|done].
Qed.

Lemma print_double_chars nan_sign x : Forall number_char (print_double nan_sign x).
Proof.
  assert (∀ s : bool, Forall number_char (if s then [x2d] else [])) as Hs.
  { intros []; [|done]. apply Forall_cons. split; [by right; left|done]. }
  destruct x as [s|s| |s m e]; cbn [print_double].
  - apply Forall_app. split; [apply Hs|].
    apply Forall_cons. split; [left; by eexists|done].
  - apply Forall_app. split; [apply Hs|].
    by repeat (apply Forall_cons; split; [by apply number_letter|]).
  - apply Forall_app. split; [apply Hs|].
    by repeat (apply Forall_cons; split; [by apply number_letter|]).
  - pose proof (six_digits_spec _ (magnitude_pos m e)) as HS.
    destruct (six_digits (magnitude m e)) as [M X]. destruct HS as [HM _].
    apply Forall_app. split; [apply Hs|]. by apply render_chars, layout_is_ok.
Qed.
