(* ===== verification/Rounding.v ===== *)
(** * How accurate binary64 is

    The arithmetic of Double.v rounds every result to the nearest number with 53
    significant bits.  Here this is proved of its executable definition: each operation
    returns the exact result with a relative error of at most 2^-53, as long as that
    result is in the normal range, and integers of up to 53 bits are represented
    exactly. *)

From Corelib Require Import SpecFloat.
From Stdlib Require Import QArith Qround Qabs Qpower Lqa.
From stdpp Require Import base.
From S2P Require Import Prelude Double Decimal.

Local Open Scope Q_scope.

(** ** Powers of two *)

Definition two : Q := 2 # 1.

Lemma two_pos k : 0 < two ^ k.
Proof. by apply Qpower_0_lt. Qed.

Lemma two_plus a b : two ^ (a + b) == two ^ a * two ^ b.
Proof. by apply Qpower_plus. Qed.

Lemma two_Z k : (0 <= k)%Z → two ^ k == inject_Z (2 ^ k).
Proof. intros Hk. by rewrite Zpower_Qpower. Qed.

Lemma two_succ k : two ^ (k + 1) == 2 * two ^ k.
Proof. rewrite two_plus. change (two ^ 1) with two. unfold two. ring. Qed.

Lemma two_le a b : (a <= b)%Z → two ^ a <= two ^ b.
Proof. intros. by apply Qpower_le_compat_l. Qed.

Lemma two_lt a b : (a < b)%Z → two ^ a < two ^ b.
Proof. intros. by apply Qpower_lt_compat_l. Qed.

Lemma two_lt_inv a b : two ^ a < two ^ b → (a < b)%Z.
Proof. intros H. by apply (Qpower_lt_compat_l_inv two). Qed.

Lemma digits2_bounds p : (2 ^ (Zpos (digits2_pos p) - 1) <= Zpos p < 2 ^ Zpos (digits2_pos p))%Z.
Proof.
  induction p as [p IH|p IH|]; cbn [digits2_pos]; [| |done];
    rewrite Pos2Z.inj_succ; (replace (Z.succ (Zpos (digits2_pos p)) - 1)%Z
      with (Z.succ (Zpos (digits2_pos p) - 1)) by lia);
    rewrite !Z.pow_succ_r by lia; lia.
Qed.

(** ** Where a number lies between two mantissas *)

(** [x] has the integer part [shr_m], and the two bits tell where it is above it. *)
Definition lies_at (x : Q) (mrs : shr_record) : Prop :=
  let m := inject_Z (shr_m mrs) in
  match shr_r mrs, shr_s mrs with
  | false, false => x == m
  | false, true => m < x < m + (1 # 2)
  | true, false => x == m + (1 # 2)
  | true, true => m + (1 # 2) < x < m + 1
  end.

#[export] Instance located_proper : Proper (Qeq ==> eq ==> iff) lies_at.
Proof. intros x y Hxy mrs _ <-. unfold lies_at. destruct (shr_r mrs), (shr_s mrs); by rewrite Hxy. Qed.

Lemma located_floor x mrs : lies_at x mrs → inject_Z (shr_m mrs) <= x < inject_Z (shr_m mrs) + 1.
Proof. unfold lies_at. destruct (shr_r mrs), (shr_s mrs); lra. Qed.

(** Halving. *)
Lemma shr_1_located x mrs : (0 <= shr_m mrs)%Z → lies_at x mrs → lies_at (x * (1 # 2)) (shr_1 mrs).
Proof.
  destruct mrs as [m r s]. cbn [shr_m]. intros Hm.
  destruct m as [|[p|p|]|p]; [| | | |lia]; unfold lies_at; cbn [shr_1 shr_m shr_r shr_s].
  - change (inject_Z 0) with 0. destruct r, s; cbn; lra.
  - change (Zpos p~1) with (2 * Zpos p + 1)%Z. rewrite inject_Z_plus, inject_Z_mult.
    change (inject_Z 2) with 2. change (inject_Z 1) with 1. destruct r, s; cbn [orb]; lra.
  - change (Zpos p~0) with (2 * Zpos p)%Z. rewrite inject_Z_mult. change (inject_Z 2) with 2.
    destruct r, s; cbn [orb]; lra.
  - change (inject_Z 1) with 1. change (inject_Z 0) with 0. destruct r, s; cbn [orb]; lra.
Qed.

Lemma shr_1_nonneg mrs : (0 <= shr_m mrs)%Z → (0 <= shr_m (shr_1 mrs))%Z.
Proof. destruct mrs as [[|[p|p|]|p] r s]; cbn; lia. Qed.

Lemma iter_shr_located p x mrs : (0 <= shr_m mrs)%Z → lies_at x mrs →
  (0 <= shr_m (SpecFloat.iter_pos shr_1 p mrs))%Z ∧ lies_at (x * (1 # 2) ^ Zpos p) (SpecFloat.iter_pos shr_1 p mrs).
Proof.
  revert x mrs. induction p as [p IH|p IH|]; intros x mrs Hm Hx; cbn [SpecFloat.iter_pos].
  - destruct (IH _ _ (shr_1_nonneg _ Hm) (shr_1_located _ _ Hm Hx)) as [H1 H2].
    destruct (IH _ _ H1 H2) as [H3 H4]. split; [done|].
    replace (Zpos p~1) with (Zpos p + Zpos p + 1)%Z by lia. rewrite !Qpower_plus by done.
    change ((1 # 2) ^ 1) with (1 # 2). eapply located_proper; [|done|exact H4]. ring.
  - destruct (IH _ _ Hm Hx) as [H1 H2]. destruct (IH _ _ H1 H2) as [H3 H4]. split; [done|].
    replace (Zpos p~0) with (Zpos p + Zpos p)%Z by lia. rewrite !Qpower_plus by done.
    eapply located_proper; [|done|exact H4]. ring.
  - split; [by apply shr_1_nonneg|]. by apply shr_1_located.
Qed.

(** Shifting right divides by a power of two. *)
Lemma shr_located x mrs e n : (0 <= n)%Z → (0 <= shr_m mrs)%Z → lies_at x mrs →
  let (mrs', e') := shr mrs e n in
  e' = (e + n)%Z ∧ (0 <= shr_m mrs')%Z ∧ lies_at (x * two ^ (- n)) mrs'.
Proof.
  intros Hn Hm Hx. destruct n as [|p|p]; [| |lia]; cbn [shr].
  - split_and!; [lia|done|]. change (two ^ (- 0)) with 1. by rewrite Qmult_1_r.
  - destruct (iter_shr_located p x mrs Hm Hx) as [H1 H2]. split_and!; [done..|].
    eapply located_proper; [|done|exact H2].
    rewrite Qpower_opp. change (1 # 2) with (/ two). by rewrite <-Qinv_power.
Qed.

Lemma round_near x mrs : lies_at x mrs →
  - (1 # 2) <= x - inject_Z (round_nearest_even (shr_m mrs) (loc_of_shr_record mrs)) <= 1 # 2.
Proof.
  destruct mrs as [m r s]. unfold lies_at. cbn [shr_m shr_r shr_s].
  destruct r, s; cbn; intros H; [| destruct (Z.even m)| |];
    rewrite ?inject_Z_plus; change (inject_Z 1) with 1; lra.
Qed.

(** ** Rounding to 53 bits *)

Notation dig p := (Zpos (digits2_pos p)).

Lemma digits2_eq p k : (0 < k)%Z → (2 ^ (k - 1) <= Zpos p < 2 ^ k)%Z → dig p = k.
Proof.
  intros Hk [H1 H2]. destruct (digits2_bounds p) as [H3 H4].
  assert (k - 1 < dig p)%Z by (apply (Z.pow_lt_mono_r_iff 2); lia).
  assert (dig p - 1 < k)%Z by (apply (Z.pow_lt_mono_r_iff 2); lia). lia.
Qed.

(** The normal range, a little less than all of it. *)
Definition in_range (v : Q) : Prop := two ^ (-1000) <= v <= two ^ 1000.

(** Half a unit in the last of 53 places. *)
Definition unit_roundoff : Q := two ^ (-53).

(** The magnitude of a float with 53 bits that is [v] but for one rounding: the error is at
    most half a unit in the last place, and small relative to [v]. *)
Record rounds_to (v : Q) (m : positive) (e : Z) : Prop := {
  rt_normal : dig m = 53%Z;
  rt_relative : Qabs (magnitude m e - v) <= unit_roundoff * v;
  rt_ulp : Qabs (magnitude m e - v) <= (1 # 2) * two ^ e;
}.

Lemma fexp_normal d e : (-1074 <= d + e - 53)%Z → fexp prec64 emax64 (d + e) = (d + e - 53)%Z.
Proof. intros H. unfold fexp, emin, prec64, emax64. lia. Qed.

(** What the first shift leaves: 53 bits. *)
Lemma shr_fexp_located p e l v : (53 <= dig p)%Z →
  lies_at (v * two ^ (- e)) (shr_record_of_loc (Zpos p) l) → two ^ (-1022) <= v →
  let (mrs, e') := shr_fexp prec64 emax64 (Zpos p) e l in
  e' = (e + (dig p - 53))%Z ∧ (-1074 <= e')%Z ∧ (2 ^ 52 <= shr_m mrs < 2 ^ 53)%Z ∧
  lies_at (v * two ^ (- e')) mrs.
Proof.
  intros Hd Hx Hv. set (d := dig p) in *. destruct (digits2_bounds p) as [Hp1 Hp2]. fold d in Hp1, Hp2.
  assert (shr_m (shr_record_of_loc (Zpos p) l) = Zpos p) as Hm by by destruct l as [|[]].
  pose proof (located_floor _ _ Hx) as [Hf1 Hf2]. rewrite Hm in Hf1, Hf2.
  assert (v * two ^ (- e) < two ^ d) as Hup.
  { apply Qlt_le_trans with (inject_Z (Zpos p) + 1); [done|]. rewrite two_Z by lia.
    change 1 with (inject_Z 1). rewrite <-inject_Z_plus, <-Zle_Qle. lia. }
  assert (two ^ (d - 1) <= v * two ^ (- e)) as Hlow.
  { apply Qle_trans with (inject_Z (Zpos p)); [|done]. rewrite two_Z by lia. by rewrite <-Zle_Qle. }
  assert (v < two ^ (d + e)) as Hve.
  { rewrite two_plus. apply (Qmult_lt_r _ _ (two ^ (- e))); [apply two_pos|].
    rewrite <-Qmult_assoc, <-two_plus, Z.add_opp_diag_r. by rewrite Qmult_1_r. }
  assert (-1022 < d + e)%Z as Hde by (apply two_lt_inv; by eapply Qle_lt_trans).
  unfold shr_fexp. change (Zdigits2 (Zpos p)) with d. rewrite fexp_normal by lia.
  replace (d + e - 53 - e)%Z with (d - 53)%Z by lia.
  pose proof (shr_located _ _ e (d - 53) ltac:(lia) ltac:(rewrite Hm; lia) Hx) as Hs.
  destruct (shr _ e (d - 53)) as [mrs e']. destruct Hs as (-> & Hm0 & Hloc).
  assert (v * two ^ (- e) * two ^ (- (d - 53)) == v * two ^ (- (e + (d - 53)))) as Hshift.
  { rewrite <-Qmult_assoc, <-two_plus. by replace (- e + - (d - 53))%Z with (- (e + (d - 53)))%Z by lia. }
  rewrite Hshift in Hloc. split; [done|]. split; [lia|]. split; [|done].
  pose proof (located_floor _ _ Hloc) as [Hg1 Hg2]. rewrite <-Hshift in Hg1, Hg2.
  assert (two ^ 52 <= v * two ^ (- e) * two ^ (- (d - 53))) as H52.
  { replace 52%Z with (d - 1 + - (d - 53))%Z by lia. rewrite two_plus.
    by apply Qmult_le_r; [apply two_pos|]. }
  assert (v * two ^ (- e) * two ^ (- (d - 53)) < two ^ 53) as H53.
  { replace 53%Z with (d + - (d - 53))%Z at 2 by lia. rewrite two_plus.
    by apply Qmult_lt_r; [apply two_pos|]. }
  rewrite (two_Z 52) in H52 by lia. rewrite (two_Z 53) in H53 by lia. split.
  - apply Z.lt_succ_r. rewrite Zlt_Qlt. unfold Z.succ. rewrite inject_Z_plus.
    change (inject_Z 1) with 1. by eapply Qle_lt_trans.
  - rewrite Zlt_Qlt. by eapply Qle_lt_trans.
Qed.

(** What the second shift leaves: the same number, in 53 bits again. *)
Lemma shr_fexp_carry p e : (2 ^ 52 <= Zpos p <= 2 ^ 53)%Z → (-1074 <= e <= 970)%Z →
  let (mrs, e') := shr_fexp prec64 emax64 (Zpos p) e loc_Exact in
  ∃ m, shr_m mrs = Zpos m ∧ dig m = 53%Z ∧ magnitude m e' == magnitude p e ∧ (e <= e' <= 971)%Z.
Proof.
  intros Hp He. destruct (Z.eq_dec (Zpos p) (2 ^ 53)%Z) as [Heq|Hne].
  - assert (p = 9007199254740992%positive) as -> by (change (2 ^ 53)%Z with 9007199254740992%Z in Heq; congruence).
    unfold shr_fexp. change (Zdigits2 _) with 54%Z.
    rewrite fexp_normal by lia. replace (54 + e - 53 - e)%Z with 1%Z by lia. cbn [shr SpecFloat.iter_pos].
    eexists. split; [done|]. split; [done|]. split; [|lia]. unfold magnitude.
    rewrite (two_succ e). fold two. generalize (two ^ e). intros t.
    unfold two, inject_Z. lra.
  - assert (dig p = 53%Z) as Hd by (apply digits2_eq; lia). unfold shr_fexp.
    change (Zdigits2 (Zpos p)) with (dig p). rewrite Hd, fexp_normal by lia.
    replace (53 + e - 53 - e)%Z with 0%Z by lia. cbn [shr]. exists p. split_and!; [done..|lia].
Qed.

Lemma two_shift v e : v * two ^ (- e) * two ^ e == v.
Proof. rewrite <-Qmult_assoc, <-two_plus, Z.add_opp_diag_l. apply Qmult_1_r. Qed.

(** The rounding of every operation. *)
Lemma round_aux_spec s p e l v : (53 <= dig p)%Z →
  lies_at (v * two ^ (- e)) (shr_record_of_loc (Zpos p) l) → in_range v →
  ∃ m' e', binary_round_aux prec64 emax64 s (Zpos p) e l = S754_finite s m' e' ∧ rounds_to v m' e' ∧
    (l = loc_Exact → dig p = 53%Z → magnitude m' e' == v).
Proof.
  intros Hd Hx [Hv1 Hv2].
  pose proof (shr_fexp_located p e l v Hd Hx ltac:(eapply Qle_trans; [|exact Hv1]; by apply two_le)) as HS.
  unfold binary_round_aux. destruct (shr_fexp prec64 emax64 (Zpos p) e l) as [mrs e1] eqn:E1.
  destruct HS as (He1 & Hemin & Hm & Hloc). pose proof (round_near _ _ Hloc) as Hnear.
  set (m2 := round_nearest_even (shr_m mrs) (loc_of_shr_record mrs)) in *.
  assert (2 ^ 52 <= m2 <= 2 ^ 53)%Z as Hm2.
  { subst m2. destruct (loc_of_shr_record mrs) as [|[]]; cbn; [lia|destruct (Z.even _); lia|lia..]. }
  destruct m2 as [|p2|p2] eqn:Ep2; [lia| |lia].
  assert (inject_Z (shr_m mrs) * two ^ e1 <= v) as Hle.
  { rewrite <-(two_shift v e1). apply Qmult_le_r; [apply two_pos|]. by apply located_floor. }
  assert (e1 <= 970)%Z as He970.
  { assert (two ^ 52 * two ^ e1 <= two ^ 1000) as H.
    { apply Qle_trans with (inject_Z (shr_m mrs) * two ^ e1); [|by eapply Qle_trans].
      apply Qmult_le_r; [apply two_pos|]. rewrite two_Z by lia. rewrite <-Zle_Qle. lia. }
    rewrite <-two_plus in H. apply Qpower_le_compat_l_inv in H; [lia|done]. }
  pose proof (shr_fexp_carry p2 e1 Hm2 ltac:(lia)) as HC.
  destruct (shr_fexp prec64 emax64 (Zpos p2) e1 loc_Exact) as [mrs2 e2].
  destruct HC as (m' & -> & Hdm & Hmag & He2). unfold prec64, emax64.
  rewrite (proj2 (Z.leb_le e2 (1024 - 53)) ltac:(lia)).
  assert (Qabs (magnitude m' e2 - v) <= (1 # 2) * two ^ e1) as Hulp.
  { rewrite Hmag. unfold magnitude. fold two. rewrite <-(two_shift v e1) at 1.
    setoid_replace (inject_Z (Zpos p2) * two ^ e1 - v * two ^ (- e1) * two ^ e1)
      with ((inject_Z (Zpos p2) - v * two ^ (- e1)) * two ^ e1) using relation Qeq by ring.
    rewrite Qabs_Qmult, (Qabs_pos (two ^ e1)) by (apply Qlt_le_weak, two_pos).
    apply Qmult_le_r; [apply two_pos|]. apply Qabs_Qle_condition. lra. }
  exists m', e2. split; [done|]. split; [split; [done|..]|].
  - apply Qle_trans with ((1 # 2) * two ^ e1); [done|].
    apply Qle_trans with (unit_roundoff * (inject_Z (shr_m mrs) * two ^ e1)).
    + rewrite Qmult_assoc. apply Qmult_le_r; [apply two_pos|].
      apply Qle_trans with (unit_roundoff * inject_Z (2 ^ 52)); [done|].
      apply Qmult_le_l; [apply two_pos|]. rewrite <-Zle_Qle. lia.
    + apply Qmult_le_l; [apply two_pos|done].
  - eapply Qle_trans; [exact Hulp|]. apply Qmult_le_l; [done|]. apply two_le, He2.
  - intros -> Hd53. unfold shr_fexp in E1. change (Zdigits2 (Zpos p)) with (dig p) in E1.
    rewrite Hd53 in E1, He1. rewrite fexp_normal in E1 by lia.
    replace (53 + e - 53 - e)%Z with 0%Z in E1 by lia. cbn [shr] in E1. injection E1 as <- <-.
    subst m2. cbn in Ep2. injection Ep2 as ->. rewrite Hmag. unfold magnitude. fold two.
    unfold lies_at in Hx. cbn in Hx. by rewrite <-Hx, two_shift.
Qed.

(** ** From mantissas to numbers *)

Lemma iter_xO p k : Zpos (Pos.iter xO p k) = (Zpos p * 2 ^ Zpos k)%Z ∧
  dig (Pos.iter xO p k) = (dig p + Zpos k)%Z.
Proof.
  induction k as [|k [IH1 IH2]] using Pos.peano_ind.
  - cbn [Pos.iter digits2_pos]. rewrite Pos2Z.inj_succ. split; [|lia].
    change (2 ^ 1)%Z with 2%Z. lia.
  - rewrite Pos.iter_succ. cbn [digits2_pos]. rewrite !Pos2Z.inj_succ, Z.pow_succ_r, IH2 by lia.
    split; [|lia]. rewrite (Pos2Z.inj_xO (Pos.iter xO p k)), IH1. lia.
Qed.

(** Aligning to a smaller exponent. *)
Lemma shl_align_spec p e e' : (e' <= e)%Z →
  magnitude (shl_align p e e').1 e' == magnitude p e ∧
  dig (shl_align p e e').1 = (dig p + (e - e'))%Z ∧ (shl_align p e e').2 = e'.
Proof.
  intros He. unfold shl_align. destruct (e' - e)%Z as [|d|d] eqn:E; [|lia|]; cbn [fst snd].
  - assert (e = e') as -> by lia. split_and!; [done|lia|done].
  - destruct (iter_xO p d) as [H1 H2]. split_and!; [|lia|done]. unfold magnitude.
    rewrite H1, inject_Z_mult, Zpower_Qpower by lia. change (inject_Z 2) with two. fold two.
    assert (e = Zpos d + e')%Z as -> by lia. rewrite two_plus. ring.
Qed.

Lemma shl_align_same p e e' : (e <= e')%Z → shl_align p e e' = (p, e).
Proof. intros He. unfold shl_align. destruct (e' - e)%Z eqn:E; [done..|lia]. Qed.

Lemma located_exact p e : lies_at (magnitude p e * two ^ (- e)) (shr_record_of_loc (Zpos p) loc_Exact).
Proof.
  unfold lies_at, magnitude. cbn. fold two.
  rewrite <-Qmult_assoc, <-two_plus, Z.add_opp_diag_r. apply Qmult_1_r.
Qed.

Lemma magnitude_below p e : magnitude p e < two ^ (dig p + e).
Proof.
  unfold magnitude. fold two. rewrite two_plus. apply Qmult_lt_r; [apply two_pos|].
  rewrite two_Z by lia. rewrite <-Zlt_Qlt. apply digits2_bounds.
Qed.

Lemma magnitude_above p e : two ^ (dig p - 1 + e) <= magnitude p e.
Proof.
  unfold magnitude. fold two. rewrite two_plus. apply Qmult_le_r; [apply two_pos|].
  rewrite two_Z by lia. rewrite <-Zle_Qle. apply digits2_bounds.
Qed.

(** A number given exactly, with any number of bits. *)
Lemma binary_round_spec s p e : in_range (magnitude p e) →
  ∃ m' e', binary_round prec64 emax64 s p e = S754_finite s m' e' ∧ rounds_to (magnitude p e) m' e' ∧
    ((dig p <= 53)%Z → magnitude m' e' == magnitude p e).
Proof.
  intros Hr. unfold binary_round.
  assert (-1000 < dig p + e)%Z as Hde.
  { apply two_lt_inv. eapply Qle_lt_trans; [apply Hr|apply magnitude_below]. }
  rewrite fexp_normal by lia. destruct (Z.le_gt_cases (dig p) 53).
  - destruct (shl_align_spec p e (dig p + e - 53)) as (H1 & H2 & H3); [lia|].
    destruct (shl_align p e _) as [p' e1]. cbn [fst snd] in *. subst e1.
    destruct (round_aux_spec s p' (dig p + e - 53) loc_Exact (magnitude p e)) as (m' & e' & E & HR & Hex);
      [lia|rewrite <-H1; apply located_exact|done|].
    exists m', e'. split; [done|]. split; [done|]. intros _. apply Hex; [done|lia].
  - rewrite shl_align_same by lia.
    destruct (round_aux_spec s p e loc_Exact (magnitude p e)) as (m' & e' & E & HR & _);
      [lia|apply located_exact|done|].
    exists m', e'. split; [done|]. split; [done|lia].
Qed.

(** ** The operations *)

(** The number a double is (and 0 for what is none). *)
Definition F (x : binary64) : Q := default 0 (b64_value x).

(** A double that is a number: neither an infinity nor a NaN. *)
Definition finite (x : binary64) : Prop := is_Some (b64_value x).

(** A double with all of its 53 bits. *)
Definition normal (x : binary64) : Prop :=
  match x with S754_finite _ m _ => dig m = 53%Z | _ => False end.

(** A unit in the last place of a double. *)
Definition ulp (x : binary64) : Q := match x with S754_finite _ _ e => two ^ e | _ => 0 end.

(** [x] is [v] up to one rounding. *)
Record approx (v : Q) (x : binary64) : Prop := {
  ap_normal : normal x;
  ap_relative : Qabs (F x - v) <= unit_roundoff * Qabs v;
  ap_ulp : Qabs (F x - v) <= (1 # 2) * ulp x;
}.

#[export] Instance approx_proper : Proper (Qeq ==> eq ==> iff) approx.
Proof.
  assert (∀ v w x, v == w → approx v x → approx w x) as H.
  { intros v w x E [Hn Hr Hu]. split; [done|by rewrite <-E..]. }
  intros v w Hv x _ <-. split; by apply H.
Qed.

Lemma unit_roundoff_pos : 0 < unit_roundoff.
Proof. apply two_pos. Qed.

Lemma F_sign (s : bool) m e : F (S754_finite s m e) == if s then - magnitude m e else magnitude m e.
Proof. by destruct s. Qed.

(** Putting the sign back. *)
Lemma rounds_signed (s : bool) v w m e : 0 < w → rounds_to w m e → v == (if s then - w else w) →
  approx v (S754_finite s m e).
Proof.
  intros Hw [Hd Hr Hu] Hv.
  assert (Qabs w == w) as Hwa by (apply Qabs_pos; lra).
  assert (Qabs v == w) as Hva by (rewrite Hv; destruct s; by rewrite ?Qabs_opp).
  assert (Qabs (F (S754_finite s m e) - v) == Qabs (magnitude m e - w)) as Herr.
  { rewrite Hv, F_sign. destruct s; [|done].
    setoid_replace (- magnitude m e - - w) with (- (magnitude m e - w)) using relation Qeq by ring.
    by rewrite Qabs_opp. }
  split; [done|by rewrite Herr, ?Hva..].
Qed.

Lemma in_range_pos v : in_range v → 0 < v.
Proof. intros [H _]. eapply Qlt_le_trans; [apply (two_pos (-1000))|done]. Qed.

#[export] Instance in_range_proper : Proper (Qeq ==> iff) in_range.
Proof. intros v w Hv. unfold in_range. by rewrite Hv. Qed.

Lemma F_abs (s : bool) m e : Qabs (F (S754_finite s m e)) == magnitude m e.
Proof.
  unfold F. cbn. destruct s; rewrite ?Qabs_opp; apply Qabs_pos, Qlt_le_weak, magnitude_pos.
Qed.

Lemma dig_big p : (2 ^ 52 <= Zpos p)%Z → (53 <= dig p)%Z.
Proof.
  intros Hp. destruct (digits2_bounds p) as [_ H].
  assert (52 < dig p)%Z; [|lia]. apply (Z.pow_lt_mono_r_iff 2); lia.
Qed.

Lemma dig_53 p : dig p = 53%Z → (2 ^ 52 <= Zpos p < 2 ^ 53)%Z.
Proof. intros Hd. pose proof (digits2_bounds p) as H. by rewrite Hd in H. Qed.

Lemma in_range_nonzero e : ¬ in_range (Qabs (inject_Z 0 * two ^ e)).
Proof. intros Hr%in_range_pos. change (inject_Z 0) with 0 in Hr. by rewrite Qmult_0_l in Hr. Qed.

Lemma normalize_spec n e sz : in_range (Qabs (inject_Z n * two ^ e)) →
  approx (inject_Z n * two ^ e) (binary_normalize prec64 emax64 n e sz) ∧
  ((Z.abs n < 2 ^ 53)%Z → F (binary_normalize prec64 emax64 n e sz) == inject_Z n * two ^ e).
Proof.
  intros Hr. assert (∀ p, (Zpos p < 2 ^ 53)%Z → (dig p <= 53)%Z) as Hsmall.
  { intros p Hp. destruct (digits2_bounds p) as [H _].
    assert (dig p - 1 < 53)%Z; [|lia]. apply (Z.pow_lt_mono_r_iff 2); lia. }
  assert (∀ p, Qabs (inject_Z (Zpos p) * two ^ e) == magnitude p e) as Habs
    by (intros p; apply Qabs_pos, Qlt_le_weak, magnitude_pos).
  destruct n as [|p|p]; [by apply in_range_nonzero in Hr| |]; cbn [binary_normalize].
  - rewrite Habs in Hr. destruct (binary_round_spec false p e Hr) as (m' & e' & -> & HR & Hex).
    split; [by apply (rounds_signed false _ (magnitude p e)); [apply magnitude_pos|..]|].
    intros Hp. rewrite F_sign. by apply Hex, Hsmall.
  - assert (inject_Z (Zneg p) * two ^ e == - (magnitude p e)) as Hneg.
    { change (Zneg p) with (- Zpos p)%Z. rewrite inject_Z_opp. unfold magnitude. fold two. ring. }
    rewrite Hneg, Qabs_opp, (Qabs_pos (magnitude p e)) in Hr by apply Qlt_le_weak, magnitude_pos.
    destruct (binary_round_spec true p e Hr) as (m' & e' & -> & HR & Hex).
    split; [by apply (rounds_signed true _ (magnitude p e)); [apply magnitude_pos|..]|].
    intros Hp. rewrite F_sign, Hneg, Hex; [done|by apply Hsmall].
Qed.

(** Integers: a relative error, and none below 2^53. *)
Lemma of_Z_spec n : n ≠ 0%Z → (Z.abs n <= 2 ^ 64)%Z →
  approx (inject_Z n) (d_of_Z n) ∧ ((Z.abs n < 2 ^ 53)%Z → F (d_of_Z n) == inject_Z n).
Proof.
  intros Hn Hb. assert (inject_Z n * two ^ 0 == inject_Z n) as E by apply Qmult_1_r.
  assert (in_range (Qabs (inject_Z n * two ^ 0))) as Hr.
  { rewrite E. change (Qabs (inject_Z n)) with (inject_Z (Z.abs n)). split.
    - apply Qle_trans with (two ^ 0); [by apply two_le|]. change (two ^ 0) with (inject_Z 1). rewrite <-Zle_Qle. lia.
    - apply Qle_trans with (two ^ 64); [|by apply two_le]. rewrite two_Z by lia. by rewrite <-Zle_Qle. }
  destruct (normalize_spec n 0 false Hr) as [H1 H2]. rewrite E in H1, H2. by split.
Qed.

Lemma mul_spec x y : normal x → normal y → in_range (Qabs (F x * F y)) → approx (F x * F y) (d_mul x y).
Proof.
  destruct x as [| | |sx mx ex], y as [| | |sy my ey]; try done. cbn [normal]. intros Hx Hy Hr.
  rewrite Qabs_Qmult, !F_abs in Hr. apply dig_53 in Hx, Hy.
  assert (magnitude (mx * my) (ex + ey) == magnitude mx ex * magnitude my ey) as E.
  { unfold magnitude. fold two. rewrite Pos2Z.inj_mul, inject_Z_mult, two_plus. ring. }
  destruct (round_aux_spec (xorb sx sy) (mx * my) (ex + ey) loc_Exact (magnitude mx ex * magnitude my ey))
    as (m' & e' & EQ & HR & _); [apply dig_big; nia|rewrite <-E; apply located_exact|done|].
  cbn [d_mul binary64_ops SFmul]. rewrite EQ.
  apply (rounds_signed _ _ (magnitude mx ex * magnitude my ey)); [by apply in_range_pos|done|].
  rewrite !F_sign. destruct sx, sy; cbn; ring.
Qed.

Lemma aligned_F (s : bool) m e ez : (ez <= e)%Z →
  F (S754_finite s m e) == inject_Z (cond_Zopp s (Zpos (shl_align m e ez).1)) * two ^ ez.
Proof.
  intros He. destruct (shl_align_spec m e ez He) as (H & _). rewrite F_sign.
  destruct s; cbn [cond_Zopp]; rewrite <-H; unfold magnitude; fold two; rewrite ?inject_Z_opp; ring.
Qed.

Lemma add_spec x y : normal x → normal y → in_range (Qabs (F x + F y)) → approx (F x + F y) (d_add x y).
Proof.
  destruct x as [| | |sx mx ex], y as [| | |sy my ey]; try done. intros _ _ Hr.
  cbn [d_add binary64_ops SFadd]. set (ez := Z.min ex ey).
  rewrite (aligned_F sx mx ex ez), (aligned_F sy my ey ez) in Hr |- * by lia.
  rewrite <-Qmult_plus_distr_l, <-inject_Z_plus in Hr |- *. by apply normalize_spec.
Qed.

Lemma sub_spec x y : normal x → normal y → in_range (Qabs (F x - F y)) → approx (F x - F y) (d_sub x y).
Proof.
  destruct x as [| | |sx mx ex], y as [| | |sy my ey]; try done. intros _ _ Hr.
  cbn [d_sub binary64_ops SFsub]. set (ez := Z.min ex ey).
  rewrite (aligned_F sx mx ex ez), (aligned_F sy my ey ez) in Hr |- * by lia.
  set (a := cond_Zopp sx _) in *. set (b := cond_Zopp sy _) in *.
  assert (inject_Z a * two ^ ez - inject_Z b * two ^ ez == inject_Z (a - b) * two ^ ez) as E.
  { unfold Z.sub. rewrite inject_Z_plus, inject_Z_opp. ring. }
  rewrite E in Hr |- *. by apply normalize_spec.
Qed.

(** Division: the location is that of the remainder. *)
Lemma new_location_located q r b : (0 <= r < b)%Z →
  lies_at (inject_Z q + inject_Z r / inject_Z b) (shr_record_of_loc q (new_location b r)).
Proof.
  intros Hr. assert (0 < inject_Z b) as Hb by (change 0 with (inject_Z 0); rewrite <-Zlt_Qlt; lia).
  assert (∀ c, (c * inject_Z b < inject_Z r → c < inject_Z r / inject_Z b) ∧
    (inject_Z r < c * inject_Z b → inject_Z r / inject_Z b < c)) as Hdiv
    by (intros c; split; [by apply Qlt_shift_div_l|by apply Qlt_shift_div_r]).
  assert (r = 0%Z → inject_Z r / inject_Z b == 0) as H0 by (intros ->; unfold Qdiv; apply Qmult_0_l).
  assert ((2 * r < b)%Z → inject_Z r / inject_Z b < 1 # 2) as Hlt.
  { intros H. apply Hdiv. rewrite Zlt_Qlt, inject_Z_mult in H. change (inject_Z 2) with 2 in H. lra. }
  assert ((b < 2 * r)%Z → 1 # 2 < inject_Z r / inject_Z b) as Hgt.
  { intros H. apply Hdiv. rewrite Zlt_Qlt, inject_Z_mult in H. change (inject_Z 2) with 2 in H. lra. }
  assert ((2 * r = b)%Z → inject_Z r / inject_Z b == 1 # 2) as Heq.
  { intros <-. rewrite inject_Z_mult. change (inject_Z 2) with 2. field. 
    intros E. rewrite inject_Z_mult, E in Hb. by rewrite Qmult_0_r in Hb. }
  assert (r ≠ 0%Z → 0 < inject_Z r / inject_Z b) as Hpos.
  { intros H. apply Hdiv. rewrite Qmult_0_l. change 0 with (inject_Z 0). rewrite <-Zlt_Qlt. lia. }
  assert (inject_Z r / inject_Z b < 1) as H1.
  { apply Hdiv. rewrite Qmult_1_l, <-Zlt_Qlt. lia. }
  clear Hdiv. set (t := inject_Z r / inject_Z b) in *. clearbody t.
  unfold new_location, new_location_even, new_location_odd, lies_at.
  destruct (Z.even b) eqn:Eb; cbv beta; (destruct (Z.eqb_spec r 0) as [E|E];
    [specialize (H0 E); cbn [shr_record_of_loc shr_m shr_r shr_s]; lra|specialize (Hpos E)]).
  - destruct (Z.compare_spec (2 * r) b); cbn [shr_record_of_loc shr_m shr_r shr_s];
      [specialize (Heq ltac:(done)); lra|specialize (Hlt ltac:(done)); lra|specialize (Hgt ltac:(done)); lra].
  - assert (2 * r ≠ b)%Z as Hodd by (intros <-; by rewrite Z.even_mul in Eb).
    destruct (Z.compare_spec (2 * r + 1) b); cbn [shr_record_of_loc shr_m shr_r shr_s];
      [specialize (Hlt ltac:(lia)); lra..|specialize (Hgt ltac:(lia)); lra].
Qed.

(** The quotient of two numbers with 53 bits. *)
Lemma quotient_located mx ex my ey :
  magnitude mx ex / magnitude my ey * two ^ (- (ex - ey - 53)) ==
  inject_Z (Zpos mx * 2 ^ 53) / inject_Z (Zpos my).
Proof.
  unfold magnitude. fold two. rewrite inject_Z_mult, Zpower_Qpower by lia. change (inject_Z 2) with two.
  replace (- (ex - ey - 53))%Z with (53 + - ex + ey)%Z by lia. rewrite !two_plus, Qpower_opp.
  pose proof (two_pos ex). pose proof (two_pos ey).
  assert (0 < inject_Z (Zpos my)) by done. field. split_and!; lra.
Qed.

Lemma quotient_exponent mx ex my ey : dig mx = 53%Z → dig my = 53%Z →
  in_range (magnitude mx ex / magnitude my ey) → (-1000 <= ex - ey)%Z.
Proof.
  intros Hx Hy [Hr _]. assert (-1000 < ex - ey + 1)%Z; [|lia]. apply two_lt_inv.
  eapply Qle_lt_trans; [exact Hr|]. apply Qlt_shift_div_r; [apply magnitude_pos|].
  pose proof (magnitude_below mx ex) as H1. pose proof (magnitude_above my ey) as H2. rewrite Hx in H1. rewrite Hy in H2.
  eapply Qlt_le_trans; [exact H1|].
  replace (53 + ex)%Z with (ex - ey + 1 + (53 - 1 + ey))%Z by lia. rewrite two_plus.
  apply Qmult_le_l; [apply two_pos|done].
Qed.

Lemma div_magnitude s mx ex my ey : dig mx = 53%Z → dig my = 53%Z →
  in_range (magnitude mx ex / magnitude my ey) →
  ∃ m' e', (let '(mz, ez, lz) := SFdiv_core_binary prec64 emax64 (Zpos mx) ex (Zpos my) ey in
      binary_round_aux prec64 emax64 s mz ez lz) = S754_finite s m' e' ∧
    rounds_to (magnitude mx ex / magnitude my ey) m' e'.
Proof.
  intros Hx Hy Hr. pose proof (quotient_exponent mx ex my ey Hx Hy Hr) as Hexp.
  unfold SFdiv_core_binary.
  change (Zdigits2 (Zpos mx)) with (dig mx). change (Zdigits2 (Zpos my)) with (dig my). rewrite Hx, Hy.
  assert (fexp prec64 emax64 (53 + ex - (53 + ey)) = ex - ey - 53)%Z as ->
    by (unfold fexp, emin, prec64, emax64; lia).
  replace (Z.min (ex - ey - 53) (ex - ey)) with (ex - ey - 53)%Z by lia.
  replace (ex - ey - (ex - ey - 53))%Z with 53%Z by lia. rewrite Z.shiftl_mul_pow2 by lia.
  apply dig_53 in Hx, Hy. pose proof (Z_div_mod (Zpos mx * 2 ^ 53) (Zpos my) ltac:(lia)) as HD.
  destruct (Z.div_eucl (Zpos mx * 2 ^ 53) (Zpos my)) as [q r]. destruct HD as [HD Hrem].
  assert (2 ^ 52 <= q)%Z as Hq by nia. destruct q as [|p|p]; [lia| |lia].
  destruct (round_aux_spec s p (ex - ey - 53) (new_location (Zpos my) r)
    (magnitude mx ex / magnitude my ey)) as (m' & e' & E & HR & _); [by apply dig_big| |done|by exists m', e'].
  rewrite quotient_located, HD.
  assert (inject_Z (Zpos my * Zpos p + r) / inject_Z (Zpos my) ==
    inject_Z (Zpos p) + inject_Z r / inject_Z (Zpos my)) as ->.
  { rewrite inject_Z_plus, inject_Z_mult. field. done. }
  by apply new_location_located.
Qed.

Lemma div_spec x y : normal x → normal y → in_range (Qabs (F x / F y)) → approx (F x / F y) (d_div x y).
Proof.
  destruct x as [| | |sx mx ex], y as [| | |sy my ey]; try done. cbn [normal]. intros Hx Hy Hr.
  pose proof (magnitude_pos mx ex) as Px. pose proof (magnitude_pos my ey) as Py.
  set (v := magnitude mx ex / magnitude my ey).
  assert (0 < v) as Hv by (apply Qlt_shift_div_l; [done|]; by rewrite Qmult_0_l).
  assert (F (S754_finite sx mx ex) / F (S754_finite sy my ey) == if xorb sx sy then - v else v) as EF.
  { rewrite !F_sign. unfold v. destruct sx, sy; cbn [xorb]; field; lra. }
  assert (in_range v) as Hrv.
  { rewrite EF in Hr. rewrite <-(Qabs_pos v) by lra. destruct (xorb sx sy); by rewrite ?Qabs_opp in Hr. }
  destruct (div_magnitude (xorb sx sy) mx ex my ey Hx Hy Hrv) as (m' & e' & E & HR).
  cbn [d_div binary64_ops SFdiv]. rewrite E. by apply (rounds_signed _ _ v).
Qed.
