(* ===== verification/Grid.v ===== *)
(** * Sums and differences of doubles

    A difference of doubles can be far smaller than its operands, but not arbitrarily
    small: if both are multiples of some power of two, so is the difference, and rounding
    does not leave that grid.  So on a grid additions, subtractions and multiplications by
    integers never underflow: the result is exactly zero where it should be, and has a
    relative error of at most 2^-53 otherwise. *)

From Corelib Require Import SpecFloat.
From Stdlib Require Import QArith Qabs Qpower Lqa.
From stdpp Require Import base.
From S2P Require Import Prelude Double Decimal Rounding.

Local Open Scope Q_scope.

(** ** The grid *)

Definition on_grid (g : Z) (v : Q) : Prop := ∃ k, v == inject_Z k * two ^ g.

#[export] Instance on_grid_proper : Proper (eq ==> Qeq ==> iff) on_grid.
Proof. intros g _ <- v w E. unfold on_grid. by setoid_rewrite E. Qed.

Lemma on_grid_0 g : on_grid g 0.
Proof. exists 0%Z. change (inject_Z 0) with 0. ring. Qed.

Lemma on_grid_opp g v : on_grid g v → on_grid g (- v).
Proof. intros [k E]. exists (- k)%Z. rewrite E, inject_Z_opp. ring. Qed.

Lemma on_grid_plus g v w : on_grid g v → on_grid g w → on_grid g (v + w).
Proof. intros [k E] [j E']. exists (k + j)%Z. rewrite E, E', inject_Z_plus. ring. Qed.

Lemma on_grid_minus g v w : on_grid g v → on_grid g w → on_grid g (v - w).
Proof. intros Hv Hw. apply on_grid_plus; [done|by apply on_grid_opp]. Qed.

Lemma on_grid_scale g v n : on_grid g v → on_grid g (v * inject_Z n).
Proof. intros [k E]. exists (k * n)%Z. rewrite E, inject_Z_mult. ring. Qed.

Lemma on_grid_finer g g' v : (g <= g')%Z → on_grid g' v → on_grid g v.
Proof.
  intros Hg [k E]. exists (k * 2 ^ (g' - g))%Z. rewrite E, inject_Z_mult, Zpower_Qpower by lia.
  change (inject_Z 2) with two. rewrite <-Qmult_assoc, <-two_plus. by replace (g' - g + g)%Z with g' by lia.
Qed.

(** A number on the grid is zero or at least one step away from it. *)
Lemma on_grid_step g v : on_grid g v → v == 0 ∨ two ^ g <= Qabs v.
Proof.
  intros [k E]. pose proof (two_pos g). destruct (Z.eq_dec k 0%Z) as [->|Hk]; [left; rewrite E; apply Qmult_0_l|].
  right. rewrite E, Qabs_Qmult, (Qabs_pos (two ^ g)) by lra.
  change (Qabs (inject_Z k)) with (inject_Z (Z.abs k)).
  assert (1 <= inject_Z (Z.abs k)) by (change 1 with (inject_Z 1); rewrite <-Zle_Qle; lia). nra.
Qed.

Lemma F_on_grid s m e : on_grid e (F (S754_finite s m e)).
Proof.
  rewrite F_sign. assert (on_grid e (magnitude m e)) by (by exists (Zpos m)).
  destruct s; [by apply on_grid_opp|done].
Qed.

(** Rounding to the nearest stays on the grid: it moves by less than a unit in the last
    place, and where that is finer than the grid there is nothing to round. *)
Lemma approx_on_grid g v x : approx v x → on_grid g v → on_grid g (F x).
Proof.
  intros [Hn _ Hu] Hv. destruct x as [| | |s m e]; try done. pose proof (F_on_grid s m e) as HF.
  destruct (Z.le_gt_cases g e) as [Hge|Hlt]; [by apply (on_grid_finer _ e)|].
  destruct (on_grid_step e (F (S754_finite s m e) - v)) as [E|Hstep].
  - apply on_grid_minus; [done|]. apply (on_grid_finer _ g); [lia|done].
  - assert (F (S754_finite s m e) == v) as ->; [lra|done].
  - cbn [ulp] in Hu. pose proof (two_pos e). lra.
Qed.

(** ** Doubles on the grid *)

(** Multiples of 2^-100. *)
Definition GRID : Z := -100.

Record gridded (x : binary64) : Prop := {
  gd_sound : match x with S754_zero _ => True | _ => normal x end;
  gd_grid : on_grid GRID (F x);
}.

Lemma gridded_finite x : gridded x → finite x.
Proof. intros [H _]. unfold finite. destruct x; done || eauto. Qed.

(** [x] is on the grid, and [w] up to one rounding. *)
Record rounded (w : Q) (x : binary64) : Prop := {
  rd_gridded : gridded x;
  rd_error : Qabs (F x - w) <= unit_roundoff * Qabs w;
}.

#[export] Instance rounded_proper : Proper (Qeq ==> eq ==> iff) rounded.
Proof.
  assert (∀ v w x, v == w → rounded v x → rounded w x) as H.
  { intros v w x E [Hg He]. split; [done|by rewrite <-E]. }
  intros v w Hv x _ <-. split; by apply H.
Qed.

Lemma gridded_zero s : gridded (S754_zero s).
Proof. split; [done|apply on_grid_0]. Qed.

Lemma rounded_exact w x : gridded x → F x == w → rounded w x.
Proof.
  intros Hg E. split; [done|]. rewrite E. setoid_replace (w - w) with 0 using relation Qeq by ring.
  apply Qmult_le_0_compat; [apply Qlt_le_weak, unit_roundoff_pos|apply Qabs_nonneg].
Qed.

(** A double with all bits that is not too small is on the grid. *)
Lemma normal_gridded x : normal x → two ^ (-40) <= Qabs (F x) → gridded x.
Proof.
  intros Hn Hb. destruct x as [| | |s m e]; try done. split; [done|].
  apply (on_grid_finer _ e); [|apply F_on_grid].
  rewrite F_abs in Hb. pose proof (magnitude_below m e) as Hm. cbn [normal] in Hn. rewrite Hn in Hm.
  assert (-40 < 53 + e)%Z by (apply two_lt_inv; by eapply Qle_lt_trans). unfold GRID. lia.
Qed.

(** What an operation has to show: it is exact for a result of zero, and rounds the others. *)
Lemma rounded_intro w x : on_grid GRID w → Qabs w <= two ^ 1000 →
  (w == 0 → ∃ s, x = S754_zero s) → (in_range (Qabs w) → approx w x) → rounded w x.
Proof.
  intros Hw Hb Hz Ha. destruct (on_grid_step _ _ Hw) as [E|Hstep].
  - destruct (Hz E) as [s ->]. apply rounded_exact; [apply gridded_zero|]. by rewrite E.
  - assert (approx w x) as HA.
    { apply Ha. split; [|done]. eapply Qle_trans; [|exact Hstep]. by apply two_le. }
    split; [|by apply HA]. split; [|by eapply approx_on_grid].
    destruct x; try done; apply HA.
Qed.

(** ** The operations *)

Lemma normalize_zero n e sz : inject_Z n * two ^ e == 0 →
  binary_normalize prec64 emax64 n e sz = S754_zero sz.
Proof.
  intros E. assert (n = 0%Z) as ->; [|done]. pose proof (two_pos e).
  apply inject_Z_injective. change (inject_Z 0) with 0. nra.
Qed.

Lemma gridded_opp s m e : gridded (S754_finite s m e) → gridded (S754_finite (negb s) m e).
Proof.
  intros [Hn Hg]. split; [done|]. rewrite F_sign in *.
  destruct s; cbn [negb]; [|by apply on_grid_opp].
  apply on_grid_opp in Hg. by rewrite Qopp_involutive in Hg.
Qed.

Lemma add_rounded x y : gridded x → gridded y → Qabs (F x + F y) <= two ^ 1000 →
  rounded (F x + F y) (d_add x y).
Proof.
  intros Hx Hy Hb. pose proof (on_grid_plus _ _ _ (gd_grid _ Hx) (gd_grid _ Hy)) as Hw.
  destruct x as [sx| | |sx mx ex], y as [sy| | |sy my ey]; try (by destruct Hx); try (by destruct Hy).
  - destruct sx, sy; (apply rounded_exact; [apply gridded_zero|reflexivity]).
  - apply rounded_exact; [done|]. cbn [d_add binary64_ops SFadd]. unfold F at 2. cbn. ring.
  - apply rounded_exact; [done|]. cbn [d_add binary64_ops SFadd]. unfold F at 3. cbn. ring.
  - apply rounded_intro; [done..| |apply add_spec; [apply Hx|apply Hy]].
    intros E. cbn [d_add binary64_ops SFadd]. eexists. apply normalize_zero.
    rewrite (aligned_F sx mx ex (Z.min ex ey)), (aligned_F sy my ey (Z.min ex ey)) in E by lia.
    by rewrite inject_Z_plus, Qmult_plus_distr_l.
Qed.

Lemma sub_rounded x y : gridded x → gridded y → Qabs (F x - F y) <= two ^ 1000 →
  rounded (F x - F y) (d_sub x y).
Proof.
  intros Hx Hy Hb. pose proof (on_grid_minus _ _ _ (gd_grid _ Hx) (gd_grid _ Hy)) as Hw.
  destruct x as [sx| | |sx mx ex], y as [sy| | |sy my ey]; try (by destruct Hx); try (by destruct Hy).
  - destruct sx, sy; (apply rounded_exact; [apply gridded_zero|reflexivity]).
  - apply rounded_exact; [by apply gridded_opp|]. cbn [d_sub binary64_ops SFsub]. rewrite !F_sign.
    unfold F. cbn. destruct sy; cbn [negb]; ring.
  - apply rounded_exact; [done|]. cbn [d_sub binary64_ops SFsub]. unfold F at 3. cbn. ring.
  - apply rounded_intro; [done..| |apply sub_spec; [apply Hx|apply Hy]].
    intros E. cbn [d_sub binary64_ops SFsub]. eexists. apply normalize_zero.
    rewrite (aligned_F sx mx ex (Z.min ex ey)), (aligned_F sy my ey (Z.min ex ey)) in E by lia.
    rewrite <-E. unfold Z.sub. rewrite inject_Z_plus, inject_Z_opp. ring.
Qed.

(** Multiplying by an integer below 2^53. *)
Lemma mul_int_rounded x n : gridded x → (Z.abs n < 2 ^ 53)%Z → Qabs (F x * inject_Z n) <= two ^ 1000 →
  rounded (F x * inject_Z n) (d_mul x (d_of_Z n)).
Proof.
  intros Hx Hn Hb. pose proof (on_grid_scale _ _ n (gd_grid _ Hx)) as Hw.
  destruct (Z.eq_dec n 0%Z) as [->|Hn0].
  { destruct x as [sx| | |sx mx ex]; try (by destruct Hx); apply rounded_exact;
      (apply gridded_zero || (unfold F at 1; cbn; change (inject_Z 0) with 0; ring)). }
  destruct (of_Z_spec n) as [[Nn _ _] En]; [done|lia|]. specialize (En Hn).
  destruct x as [sx| | |sx mx ex]; try (by destruct Hx).
  - destruct (d_of_Z n : binary64) as [s| | |s m e] eqn:E; [done..|].
    apply (rounded_exact _ (S754_zero (xorb sx s))); [apply gridded_zero|reflexivity].
  - apply rounded_intro; [done..| |].
    + intros E. exfalso. pose proof (magnitude_pos mx ex).
      apply Qmult_integral in E as [E|E].
      * rewrite F_sign in E. destruct sx; lra.
      * apply Hn0. apply (proj1 (inject_Z_injective n 0)). exact E.
    + rewrite <-En. intros Hr. apply mul_spec; [apply Hx|done..].
Qed.

Lemma d_mul_comm (x y : binary64) : d_mul x y = d_mul y x.
Proof.
  destruct x as [| | |sx mx ex], y as [| | |sy my ey]; cbn; try done; f_equal; try apply xorb_comm.
  - by rewrite Pos.mul_comm.
  - lia.
Qed.
