(* ===== verification/MoneyError.v ===== *)
(** * How accurate the money code is

    types.hpp and user.hpp compute amounts in double.  With the rounding errors of
    Rounding.v: a price converted to dollars and back is the same price, and the average
    cost of a position is that of exact arithmetic, up to a relative error that grows by
    less than 2^-49 with each fill. *)

From Corelib Require Import SpecFloat.
From Stdlib Require Import QArith Qround Qabs Qpower Lqa.
From stdpp Require Import gmap.
From S2P Require Import Prelude Interfaces Double CoreTypes Seqlock FlatMap MatchingEngine Concrete User Decimal Rounding.

Local Open Scope Q_scope.

(** ** Drift *)

(** [w] is [v] up to [k] roundings, where a rounding is counted twice to make up for the
    products of errors. *)
Definition slack (k : Z) : Q := inject_Z k * (2 * unit_roundoff).
Definition drift (k : Z) (v w : Q) : Prop := 0 < v ∧ v * (1 - slack k) <= w <= v * (1 + slack k).

#[export] Instance drift_proper : Proper (eq ==> Qeq ==> Qeq ==> iff) drift.
Proof. intros k _ <- v v' Hv w w' Hw. unfold drift. by rewrite Hv, Hw. Qed.

(** The number of roundings the bounds are good for. *)
Definition few (k : Z) : Prop := (0 <= k <= 2 ^ 51)%Z.

Lemma unit_roundoff_small : 0 < unit_roundoff <= 1 # 1000.
Proof. split; [apply two_pos|done]. Qed.

Lemma slack_succ k j : slack (k + j) == slack k + inject_Z j * (2 * unit_roundoff).
Proof. unfold slack. rewrite inject_Z_plus. ring. Qed.

Lemma slack_few k : few k → 0 <= slack k <= 1 # 2.
Proof.
  intros [H1 H2]. unfold slack. rewrite Zle_Qle in H1, H2. change (inject_Z 0) with 0 in H1. split.
  - apply Qmult_le_0_compat; [done|]. pose proof unit_roundoff_small. lra.
  - apply Qle_trans with (inject_Z (2 ^ 51) * (2 * unit_roundoff)); [|done].
    apply Qmult_le_r; [|done]. pose proof unit_roundoff_small. lra.
Qed.

Lemma drift_mono k k' v w : (k <= k')%Z → drift k v w → drift k' v w.
Proof.
  intros Hk [Hv Hw]. split; [done|]. pose proof unit_roundoff_small.
  assert (slack k <= slack k').
  { unfold slack. apply Qmult_le_r; [lra|]. by rewrite <-Zle_Qle. }
  nra.
Qed.

Lemma drift_exact k v w : (0 <= k)%Z → 0 < v → w == v → drift k v w.
Proof.
  intros Hk Hv ->. apply (drift_mono 0); [done|]. split; [done|].
  unfold slack. change (inject_Z 0) with 0. lra.
Qed.

Lemma drift_scale k v w c : 0 < c → drift k v w → drift k (v * c) (w * c).
Proof. intros Hc [Hv Hw]. split; [by apply Qmult_lt_0_compat|]. nra. Qed.

Lemma drift_plus k v w v' w' : drift k v w → drift k v' w' → drift k (v + v') (w + w').
Proof. intros [Hv Hw] [Hv' Hw']. split; [lra|]. nra. Qed.

(** A number that is positive, and so are its approximations. *)
Lemma drift_pos k v w : few k → drift k v w → 0 < w ∧ (1 # 2) * v <= w <= 2 * v.
Proof. intros Hk%slack_few [Hv Hw]. nra. Qed.

(** One more rounding. *)
Lemma drift_round k v w x : few k → drift k v w → approx w x → drift (k + 1) v (F x).
Proof.
  intros Hk Hd [_ Hx]. destruct (drift_pos k v w Hk Hd) as [Hpos _]. apply slack_few in Hk.
  destruct Hd as [Hv Hw]. rewrite (Qabs_pos w) in Hx by lra. apply Qabs_Qle_condition in Hx.
  split; [done|]. rewrite slack_succ. change (inject_Z 1) with 1.
  pose proof unit_roundoff_small. set (s := slack k) in *. set (r := unit_roundoff) in *. clearbody s r.
  set (y := F x) in *. clearbody y. split; nra.
Qed.

(** Dividing by a number that was rounded once. *)
Lemma drift_div k v w d y : few k → drift k v w → 0 < d → Qabs (y - d) <= unit_roundoff * d →
  drift (k + 2) (v / d) (w / y).
Proof.
  intros Hk [Hv Hw] Hd Hy. apply slack_few in Hk. apply Qabs_Qle_condition in Hy.
  pose proof unit_roundoff_small as Hu. rewrite <-Qmult_1_l in Hv at 1.
  assert (0 < v / d) as Hvd by (apply Qlt_shift_div_l; lra).
  assert (v == v / d * d) as Ev by (field; lra).
  split; [done|]. unfold drift. rewrite slack_succ. change (inject_Z 2) with 2.
  set (q := v / d) in *. set (s := slack k) in *. set (r := unit_roundoff) in *. clearbody q s r.
  assert (0 < y) by nra.
  rewrite Ev in Hw. split.
  - apply Qle_shift_div_l; [done|]. assert (q * y <= q * (d * (1 + r))) by nra.
    assert (0 <= q * d) by nra. nra.
  - apply Qle_shift_div_r; [done|]. assert (q * (d * (1 - r)) <= q * y) as H1 by nra.
    assert (0 <= q * d) as H2 by nra. assert (0 <= r * (3 - s - 4 * r)) as H3 by nra.
    assert (0 <= q * d * (r * (3 - s - 4 * r))) as H4 by nra.
    assert ((1 + s + 4 * r) * (q * (d * (1 - r))) <= (1 + s + 4 * r) * (q * y)) as H5 by nra. lra.
Qed.

(** ** Doubles that have drifted *)

(** A number whose approximations are far from the limits of the normal range. *)
Definition comfy (v : Q) : Prop := two ^ (-900) <= v <= two ^ 900.

#[export] Instance comfy_proper : Proper (Qeq ==> iff) comfy.
Proof. intros v w Hv. unfold comfy. by rewrite Hv. Qed.

Lemma comfy_ratio a b : (0 < a <= 2 ^ 200)%Z → (0 < b <= 2 ^ 200)%Z → comfy (inject_Z a / inject_Z b).
Proof.
  intros Ha Hb. assert (0 < inject_Z b) as Hb0 by (change 0 with (inject_Z 0); rewrite <-Zlt_Qlt; lia).
  assert (1 <= inject_Z a) as Ha1 by (change 1 with (inject_Z 1); rewrite <-Zle_Qle; lia).
  assert (1 <= inject_Z b) as Hb1 by (change 1 with (inject_Z 1); rewrite <-Zle_Qle; lia).
  assert (inject_Z a <= two ^ 200) as Ha2 by (rewrite two_Z by lia; rewrite <-Zle_Qle; lia).
  assert (inject_Z b <= two ^ 200) as Hb2 by (rewrite two_Z by lia; rewrite <-Zle_Qle; lia).
  pose proof (two_pos 200). assert (two ^ (-200) * two ^ 200 == 1) as E by done.
  split.
  - apply Qle_shift_div_l; [done|]. apply Qle_trans with (two ^ (-200) * inject_Z b).
    + apply Qmult_le_r; [done|]. by apply two_le.
    + apply Qle_trans with (two ^ (-200) * two ^ 200); [by apply Qmult_le_l; [apply two_pos|]|lra].
  - apply Qle_trans with (two ^ 200); [|by apply two_le]. apply Qle_shift_div_r; [done|]. nra.
Qed.

Lemma drift_range k v w : few k → comfy v → drift k v w → in_range (Qabs w).
Proof.
  intros Hk [Hc1 Hc2] Hd. destruct (drift_pos k v w Hk Hd) as [Hw [Hw1 Hw2]].
  rewrite Qabs_pos by lra. split.
  - apply Qle_trans with ((1 # 2) * v); [|done]. apply Qle_trans with ((1 # 2) * two ^ (-900)); [done|lra].
  - apply Qle_trans with (2 * v); [done|]. apply Qle_trans with (2 * two ^ 900); [lra|done].
Qed.

(** [x] is a normal double, [k] roundings away from [v]. *)
Definition double_near (k : Z) (v : Q) (x : binary64) : Prop := normal x ∧ drift k v (F x).

#[export] Instance double_near_proper : Proper (eq ==> Qeq ==> eq ==> iff) double_near.
Proof. intros k _ <- v v' Hv x _ <-. unfold double_near. by rewrite Hv. Qed.

Lemma near_round k v w x : few k → drift k v w → approx w x → double_near (k + 1) v x.
Proof. intros Hk Hd Hx. split; [apply Hx|by eapply drift_round]. Qed.

Lemma near_mono k k' v x : (k <= k')%Z → double_near k v x → double_near k' v x.
Proof. intros Hk [Hn Hd]. split; [done|by eapply drift_mono]. Qed.

Lemma near_int n : (0 < n < 2 ^ 53)%Z →
  normal (d_of_Z n : binary64) ∧ F (d_of_Z n) == inject_Z n ∧ 0 < inject_Z n.
Proof.
  intros Hn. destruct (of_Z_spec n) as [[H1 _] H2]; [lia..|]. split_and!; [done|apply H2; lia|].
  change 0 with (inject_Z 0). rewrite <-Zlt_Qlt. lia.
Qed.

Lemma near_mul k v c x n : few k → double_near k v x → (0 < n < 2 ^ 53)%Z → c == v * inject_Z n → comfy c →
  double_near (k + 1) c (d_mul x (d_of_Z n)).
Proof.
  intros Hk [Hx Hd] Hn Ec Hc. rewrite Ec in Hc |- *. destruct (near_int n Hn) as (Hi & Ei & Hp).
  assert (drift k (v * inject_Z n) (F x * F (d_of_Z n))) as Hdr by (rewrite Ei; by apply drift_scale).
  eapply near_round; [done|exact Hdr|]. apply mul_spec; [done..|exact (drift_range _ _ _ Hk Hc Hdr)].
Qed.

Lemma near_add k v v' c x y : few k → double_near k v x → double_near k v' y → c == v + v' → comfy c →
  double_near (k + 1) c (d_add x y).
Proof.
  intros Hk [Hx Hd] [Hy Hd'] Ec Hc. rewrite Ec in Hc |- *. pose proof (drift_plus _ _ _ _ _ Hd Hd') as Hdr.
  eapply near_round; [done|exact Hdr|]. apply add_spec; [done..|exact (drift_range _ _ _ Hk Hc Hdr)].
Qed.

Lemma near_div k v d c x y : few (k + 2) → (0 <= k)%Z → double_near k v x → normal y → 0 < d →
  Qabs (F y - d) <= unit_roundoff * d → c == v / d → comfy c → double_near (k + 3) c (d_div x y).
Proof.
  intros Hk Hk0 [Hx Hd] Hy Hpos Hyd Ec Hc. rewrite Ec in Hc |- *. assert (few k) as Hk' by (unfold few in *; lia).
  pose proof (drift_div k v (F x) d (F y) Hk' Hd Hpos Hyd) as Hdr.
  replace (k + 3)%Z with (k + 2 + 1)%Z by lia. eapply near_round; [done|exact Hdr|].
  apply div_spec; [done..|exact (drift_range _ _ _ Hk Hc Hdr)].
Qed.

(** Dividing by an integer. *)
Lemma near_div_int k v c x n : few k → double_near k v x → (0 < n < 2 ^ 53)%Z → c == v / inject_Z n → comfy c →
  double_near (k + 1) c (d_div x (d_of_Z n)).
Proof.
  intros Hk [Hx Hd] Hn Ec Hc. rewrite Ec in Hc |- *. destruct (near_int n Hn) as (Hi & Ei & Hp).
  assert (drift k (v / inject_Z n) (F x / F (d_of_Z n))) as Hdr.
  { rewrite Ei. apply drift_scale; [by apply Qinv_lt_0_compat|done]. }
  eapply near_round; [done|exact Hdr|]. apply div_spec; [done..|exact (drift_range _ _ _ Hk Hc Hdr)].
Qed.

(** ** Prices *)

Local Open Scope Z_scope.

Lemma sub_half_unique n m : (Qabs (inject_Z m - inject_Z n) < 1)%Q → m = n.
Proof.
  unfold Qminus. rewrite <-inject_Z_opp, <-inject_Z_plus. change (Qabs (inject_Z ?z)) with (inject_Z (Z.abs z)).
  change 1%Q with (inject_Z 1). rewrite <-Zlt_Qlt. lia.
Qed.

(** Rounding to the nearest integer finds the integer that is near. *)
Lemma llround_magnitude m e n : (Qabs (magnitude m e - inject_Z n) < 1 # 2)%Q →
  (if 0 <=? e then Z.pos m * 2 ^ e else div_pow2_away (Z.pos m) (- e)) = n.
Proof.
  intros H. destruct (Z.leb_spec 0 e) as [He|He].
  - apply sub_half_unique. eapply Qlt_trans; [|by instantiate (1 := (1 # 2)%Q)].
    rewrite inject_Z_mult, Zpower_Qpower by done. exact H.
  - set (k := - e). assert (magnitude m e == inject_Z (Zpos m) / inject_Z (2 ^ k))%Q as E.
    { unfold magnitude, Qdiv. fold two. rewrite Zpower_Qpower by lia. change (inject_Z 2) with two.
      rewrite <-Qpower_opp. unfold k. by rewrite Z.opp_involutive. }
    assert (0 < 2 ^ k) as Hk by (apply Z.pow_pos_nonneg; lia).
    assert (0 < inject_Z (2 ^ k))%Q as Hk' by (change 0%Q with (inject_Z 0); by rewrite <-Zlt_Qlt).
    apply Qabs_Qlt_condition in H. rewrite E in H. destruct H as [H1 H2].
    assert (inject_Z (Zpos m) / inject_Z (2 ^ k) * inject_Z (2 ^ k) == inject_Z (Zpos m))%Q as Em by (field; lra).
    set (q := (inject_Z (Zpos m) / inject_Z (2 ^ k))%Q) in *. clearbody q. clear E.
    assert (inject_Z (2 * n * 2 ^ k - 2 ^ k) < inject_Z (2 * Zpos m))%Q as B1.
    { unfold Z.sub. rewrite inject_Z_plus, inject_Z_opp, !inject_Z_mult, <-Em. change (inject_Z 2) with 2%Q. nra. }
    assert (inject_Z (2 * Zpos m) < inject_Z (2 * n * 2 ^ k + 2 ^ k))%Q as B2.
    { rewrite inject_Z_plus, !inject_Z_mult, <-Em. change (inject_Z 2) with 2%Q. nra. }
    rewrite <-Zlt_Qlt in B1, B2. unfold div_pow2_away. symmetry.
    assert (2 ^ k = 2 * 2 ^ (k - 1)) as E2 by (rewrite <-Z.pow_succ_r by lia; f_equal; lia).
    apply (Z.div_unique _ _ _ (Zpos m + 2 ^ (k - 1) - n * 2 ^ k)); [left|]; lia.
Qed.

Lemma llround_near (x : binary64) n : normal x → (Qabs (F x - inject_Z n) < 1 # 2)%Q → is_i64 n →
  d_llround x = Ok n.
Proof.
  destruct x as [| | |s m e]; try done. intros _ H Hn. cbn [d_llround binary64_ops b64_llround].
  rewrite F_sign in H. destruct s.
  - rewrite (llround_magnitude m e (- n)); [rewrite Z.opp_involutive; by apply i64_result_Ok|].
    rewrite inject_Z_opp. rewrite <-Qabs_opp.
    setoid_replace (- (magnitude m e - - inject_Z n))%Q with (- magnitude m e - inject_Z n)%Q using relation Qeq by ring.
    done.
  - rewrite (llround_magnitude m e n) by done. by apply i64_result_Ok.
Qed.

(** Close numbers have close magnitudes. *)
Lemma Qabs_near w p c : (Qabs (w - p) <= c → Qabs p - c <= Qabs w <= Qabs p + c)%Q.
Proof.
  intros H. pose proof (Qabs_triangle (w - p) p) as T1. pose proof (Qabs_triangle (p - w) w) as T2.
  setoid_replace (w - p + p)%Q with w using relation Qeq in T1 by ring.
  setoid_replace (p - w + w)%Q with p using relation Qeq in T2 by ring.
  rewrite (Qabs_Qminus p w) in T2. lra.
Qed.

(** Errors relative to a quotient, scaled back. *)
Lemma scale_back y p n r : (0 < n → Qabs (y - p / n) <= r * (Qabs p / n) → Qabs (y * n - p) <= r * Qabs p)%Q.
Proof.
  intros Hn H. setoid_replace (y * n - p)%Q with ((y - p / n) * n)%Q using relation Qeq by (field; lra).
  rewrite Qabs_Qmult, (Qabs_pos n) by lra.
  setoid_replace (r * Qabs p)%Q with (r * (Qabs p / n) * n)%Q using relation Qeq by (field; lra).
  by apply Qmult_le_r.
Qed.

(** Two roundings of an integer below 2^51 leave it recognisable. *)
Lemma scaled_and_back p n : p ≠ 0 → Z.abs p < 2 ^ 51 → (0 < n <= 2 ^ 52) →
  let y := d_div (d_of_Z p : binary64) (d_of_Z n) in
  normal (d_mul y (d_of_Z n)) ∧ (Qabs (F (d_mul y (d_of_Z n)) - inject_Z p) < 1 # 2)%Q.
Proof.
  intros Hp0 Hp Hn y. destruct (near_int n) as (Nn & En & Pn); [lia|].
  destruct (of_Z_spec p) as [[Np _] Ep]; [lia..|]. specialize (Ep ltac:(lia)).
  set (P := Qabs (inject_Z p)).
  assert (P == inject_Z (Z.abs p))%Q as EP by done.
  assert (1 <= P <= inject_Z (2 ^ 51 - 1))%Q as [HP1 HP2].
  { rewrite EP. change 1%Q with (inject_Z 1). rewrite <-!Zle_Qle. lia. }
  assert (Qabs (inject_Z p / inject_Z n) == P / inject_Z n)%Q as Eq.
  { unfold Qdiv. rewrite Qabs_Qmult, (Qabs_pos (/ inject_Z n)); [done|]. by apply Qlt_le_weak, Qinv_lt_0_compat. }
  assert (approx (inject_Z p / inject_Z n) y) as [Ny Hy].
  { rewrite <-Ep, <-En. apply div_spec; [done..|]. rewrite Ep, En, Eq, EP.
    destruct (comfy_ratio (Z.abs p) n) as [C1 C2]; [lia..|].
    split; (eapply Qle_trans; [|done]) || (eapply Qle_trans; [done|]); by apply two_le. }
  rewrite Eq in Hy.
  pose proof (scale_back _ _ _ _ Pn Hy) as Hyn.
  set (w := (F y * inject_Z n)%Q) in *. pose proof unit_roundoff_small as Hu.
  pose proof (Qabs_near _ _ _ Hyn) as [Hw1 Hw2]. fold P in Hyn, Hw1, Hw2.
  assert (approx w (d_mul y (d_of_Z n))) as [Nz Hz].
  { unfold w. rewrite <-En. apply mul_spec; [done..|]. rewrite En. fold w.
    change (two ^ (-1000) <= Qabs w <= two ^ 1000)%Q.
    assert (two ^ (-1000) <= 1 # 2)%Q by done. assert (2 * inject_Z (2 ^ 51 - 1) <= two ^ 1000)%Q by done. nra. }
  split; [done|]. pose proof (Qabs_triangle (F (d_mul y (d_of_Z n)) - w) (w - inject_Z p)) as T.
  setoid_replace (F (d_mul y (d_of_Z n)) - w + (w - inject_Z p))%Q
    with (F (d_mul y (d_of_Z n)) - inject_Z p)%Q using relation Qeq in T by ring.
  assert ((2 * unit_roundoff + unit_roundoff * unit_roundoff) * inject_Z (2 ^ 51 - 1) < 1 # 2)%Q as Hfin by done.
  clear HP1 Eq EP Hy. clearbody w P. set (r := unit_roundoff) in *. clearbody r.
  set (z := Qabs (F (d_mul y (d_of_Z n)) - inject_Z p)) in *. nra.
Qed.

(** ** The average cost *)

(** A fill: its price and its volume. *)
Notation fill := (Price * Volume)%type.
Definition fill_price (f : fill) : Z := value f.1.
Definition fill_volume (f : fill) : Z := value f.2.

(** What was paid in total for some fills (in units of the price), and how much was bought. *)
Definition paid (fs : list fill) : Z := sumZ (λ f, fill_price f * fill_volume f) fs.
Definition bought (fs : list fill) : Z := sumZ fill_volume fs.

(** Fills a double can count: prices below 2^53, volumes in total too, and at most 2^48 fills. *)
Definition fill_ok (f : fill) : Prop := 0 < fill_price f < 2 ^ 53 ∧ 0 < fill_volume f.
Definition countable (fs : list fill) : Prop :=
  Forall fill_ok fs ∧ bought fs < 2 ^ 53 ∧ Z.of_nat (length fs) <= 2 ^ 48.

(** The exact average cost, in dollars. *)
Definition average_cost (fs : list fill) : Q :=
  (inject_Z (paid fs) / inject_Z (PRICE_MULTIPLIER * bought fs))%Q.

Lemma paid_snoc fs f : paid (fs ++ [f]) = paid fs + fill_price f * fill_volume f.
Proof. unfold paid. rewrite sumZ_app. cbn. lia. Qed.

Lemma bought_snoc fs f : bought (fs ++ [f]) = bought fs + fill_volume f.
Proof. unfold bought. rewrite sumZ_app. cbn. lia. Qed.

Lemma fills_bounds fs : Forall fill_ok fs → 0 <= bought fs ∧ 0 <= paid fs <= 2 ^ 53 * bought fs ∧
  (fs ≠ [] → 0 < bought fs ∧ 0 < paid fs).
Proof.
  induction fs as [|f fs IH] using rev_ind; [done|]. rewrite Forall_app, Forall_singleton.
  intros [Hall [Hp Hv]]. destruct (IH Hall) as (H1 & H2 & _). rewrite paid_snoc, bought_snoc.
  split_and!; [lia|nia|nia|]. intros _. nia.
Qed.

Lemma countable_snoc fs f : countable (fs ++ [f]) → countable fs ∧ fill_ok f ∧
  bought fs + fill_volume f < 2 ^ 53 ∧ Z.of_nat (length fs) < 2 ^ 48.
Proof.
  unfold countable. rewrite bought_snoc, Forall_app, Forall_singleton, length_app.
  cbn [length]. intros ([H1 H2] & H4 & H5). pose proof (proj2 H2). split_and!; first [done|lia].
Qed.

Lemma inject_pos n : 0 < n → (0 < inject_Z n)%Q.
Proof. intros. change 0%Q with (inject_Z 0). by rewrite <-Zlt_Qlt. Qed.

Lemma inject_small n : 0 < n < 2 ^ 53 → (1 <= inject_Z n <= inject_Z (2 ^ 53))%Q.
Proof. intros Hn. change 1%Q with (inject_Z 1). rewrite <-!Zle_Qle. lia. Qed.

Lemma comfy_product (A n : Q) : (two ^ (-100) <= A <= two ^ 100 → 1 <= n <= inject_Z (2 ^ 53) → comfy (A * n))%Q.
Proof.
  intros HA Hn. pose proof (two_pos (-100)). split.
  - apply Qle_trans with (two ^ (-100))%Q; [by apply two_le|nra].
  - apply Qle_trans with (two ^ 100 * inject_Z (2 ^ 53))%Q; [nra|done].
Qed.

(** The price of a fill in dollars. *)
Lemma near_usd p : 0 < value p < 2 ^ 53 →
  double_near 1 (inject_Z (value p) / inject_Z PRICE_MULTIPLIER) (value (ToUsd (D:=binary64) p)).
Proof.
  intros Hp. destruct (near_int (value p) Hp) as (Np & Ep & Pp).
  apply (near_div_int 0 (inject_Z (value p)) _ (d_of_Z (value p)) PRICE_MULTIPLIER);
    [done|by split; [|by apply drift_exact]|done|done|apply comfy_ratio; [lia|done]].
Qed.

(** The cost of one fill. *)
Lemma near_cost p v : 0 < value p < 2 ^ 53 → 0 < v < 2 ^ 53 →
  double_near 2 (inject_Z (value p * v) / inject_Z PRICE_MULTIPLIER)
    (d_mul (value (ToUsd (D:=binary64) p)) (d_of_Z v)).
Proof.
  intros Hp Hv. apply (near_mul 1 _ _ _ _ ltac:(done) (near_usd p Hp) Hv).
  - rewrite inject_Z_mult. field. done.
  - apply comfy_ratio; [nia|done].
Qed.

(** The new average of an open position, from any average before. *)
Lemma near_mean k (A : Q) V p v (avg : binary64) : 1 <= k → k + 5 <= 2 ^ 51 → 0 < V →
  0 < value p < 2 ^ 53 → 0 < v → V + v < 2 ^ 53 → (two ^ (-100) <= A <= two ^ 100)%Q →
  double_near k A avg →
  double_near (k + 5)
    ((A * inject_Z V + inject_Z (value p) / inject_Z PRICE_MULTIPLIER * inject_Z v) / inject_Z (V + v))
    (d_div (d_add (d_mul avg (d_of_Z V)) (d_mul (value (ToUsd (D:=binary64) p)) (d_of_Z v)))
           (d_add (d_of_Z V) (d_of_Z v))).
Proof.
  intros Hk1 Hk2 HV Hp Hv Hsum HA Havg.
  assert (∀ j, 0 <= j <= 4 → few (k + j)) as Hfew by (unfold few; lia).
  pose proof (inject_small V ltac:(lia)) as QV. pose proof (inject_small v ltac:(lia)) as Qv.
  pose proof (inject_small (V + v) ltac:(lia)) as Qs. pose proof (two_pos (-100)) as P100.
  assert (comfy (A * inject_Z V)) as C1 by (apply comfy_product; [done|apply QV]).
  pose proof (near_cost p v Hp ltac:(lia)) as Hcost.
  assert (0 < inject_Z (value p * v) / inject_Z PRICE_MULTIPLIER <= two ^ 110)%Q as [C2 C3].
  { split; [apply (proj1 (proj2 Hcost))|]. apply Qle_shift_div_r; [done|]. 
    apply Qle_trans with (inject_Z (2 ^ 106)); [rewrite <-Zle_Qle; nia|done]. }
  set (cost := (inject_Z (value p * v) / inject_Z PRICE_MULTIPLIER)%Q) in *.
  assert (inject_Z (value p) / inject_Z PRICE_MULTIPLIER * inject_Z v == cost)%Q as Ecost
    by (unfold cost; rewrite inject_Z_mult; field; done).
  rewrite Ecost.
  assert (double_near (k + 1) (A * inject_Z V) (d_mul avg (d_of_Z V))) as H1.
  { eapply near_mul; [rewrite <-(Z.add_0_r k); apply Hfew; lia|exact Havg|lia|done|done]. }
  assert (two ^ (-100) <= A * inject_Z V <= two ^ 153)%Q as B1.
  { change (two ^ 153)%Q with (two ^ 100 * inject_Z (2 ^ 53))%Q. nra. }
  assert (two ^ (-100) <= A * inject_Z V + cost <= two ^ 154)%Q as B2.
  { assert (two ^ 153 + two ^ 110 <= two ^ 154)%Q by done. lra. }
  assert (double_near (k + 1 + 1) (A * inject_Z V + cost)
    (d_add (d_mul avg (d_of_Z V)) (d_mul (value (ToUsd (D:=binary64) p)) (d_of_Z v)))) as H2.
  { eapply near_add; [apply Hfew; lia|exact H1|apply (near_mono 2); [lia|exact Hcost]|done|].
    split; [apply Qle_trans with (two ^ (-100))%Q|apply Qle_trans with (two ^ 154)%Q]; (apply B2 || by apply two_le). }
  destruct (near_int V) as (NV & EV & _); [lia|]. destruct (near_int v) as (Nv & Ev & _); [lia|].
  assert (approx (inject_Z (V + v)) (d_add (d_of_Z V) (d_of_Z v))) as [Nd Hd _].
  { rewrite inject_Z_plus, <-EV, <-Ev. apply add_spec; [done..|]. rewrite EV, Ev, <-inject_Z_plus.
    apply (drift_range 0 (inject_Z (V + v))); [done| |apply drift_exact; [done|apply inject_pos; lia|done]].
    rewrite <-(Qmult_1_r (inject_Z (V + v))). apply (comfy_ratio (V + v) 1); lia. }
  rewrite (Qabs_pos (inject_Z (V + v))) in Hd by (apply Qlt_le_weak, inject_pos; lia).
  replace (k + 5) with (k + 1 + 1 + 3) by lia.
  eapply (near_div _ _ (inject_Z (V + v))); [rewrite <-!Z.add_assoc; apply Hfew; lia|lia|exact H2|exact Nd|apply inject_pos; lia|exact Hd|done|].
  split.
  - apply Qle_shift_div_l; [apply inject_pos; lia|].
    apply Qle_trans with (two ^ (-100))%Q; [|apply B2].
    apply Qle_trans with (two ^ (-900) * inject_Z (2 ^ 53))%Q; [|done].
    apply Qmult_le_l; [apply two_pos|apply Qs].
  - apply Qle_shift_div_r; [apply inject_pos; lia|].
    apply Qle_trans with (two ^ 154)%Q; [apply B2|]. apply Qle_trans with (two ^ 900 * 1)%Q; [done|].
    apply Qmult_le_l; [apply two_pos|apply Qs].
Qed.

(** The same for an average that is given as a total. *)
Lemma near_average k S V p v (avg : binary64) : 1 <= k → k + 5 <= 2 ^ 51 → 0 < V → 0 < S <= 2 ^ 53 * V →
  0 < value p < 2 ^ 53 → 0 < v → V + v < 2 ^ 53 →
  double_near k (inject_Z S / inject_Z (PRICE_MULTIPLIER * V)) avg →
  double_near (k + 5) (inject_Z (S + value p * v) / inject_Z (PRICE_MULTIPLIER * (V + v)))
    (d_div (d_add (d_mul avg (d_of_Z V)) (d_mul (value (ToUsd (D:=binary64) p)) (d_of_Z v)))
           (d_add (d_of_Z V) (d_of_Z v))).
Proof.
  intros Hk1 Hk2 HV HS Hp Hv Hsum Havg. pose proof (inject_pos V HV) as QV.
  pose proof (inject_pos (V + v) ltac:(lia)) as Qs.
  assert (0 < inject_Z PRICE_MULTIPLIER)%Q as QM by done.
  assert (0 < inject_Z (PRICE_MULTIPLIER * V))%Q as QMV by (apply inject_pos; unfold PRICE_MULTIPLIER; lia).
  eapply double_near_proper; [reflexivity| |reflexivity|
    apply (near_mean k (inject_Z S / inject_Z (PRICE_MULTIPLIER * V)) V p v avg); try done].
  - rewrite inject_Z_plus, !inject_Z_mult. field. split_and!; (done || lra).
  - split; [apply Qle_shift_div_l|apply Qle_shift_div_r]; try done.
    + apply Qle_trans with (inject_Z 1); [|rewrite <-Zle_Qle; lia].
      apply Qle_trans with (two ^ (-100) * inject_Z (PRICE_MULTIPLIER * 2 ^ 53))%Q; [|done].
      apply Qmult_le_l; [apply two_pos|]. rewrite <-Zle_Qle. unfold PRICE_MULTIPLIER. lia.
    + rewrite (two_Z 100) by lia. rewrite <-inject_Z_mult, <-Zle_Qle. unfold PRICE_MULTIPLIER. lia.
Qed.

(** The holding after some fills in one direction. *)
Definition direction (side : Side) : Z := match side with Buy => 1 | Sell => -1 end.

Record cost_tracks (side : Side) (fs : list fill) (h : Holding binary64) : Prop := {
  ct_volume : value (hd_volume_ h) = direction side * bought fs;
  ct_flat : fs = [] → value (hd_avgCost_ h) = d_of_Z 0;
  ct_average : fs ≠ [] → double_near (5 * Z.of_nat (length fs)) (average_cost fs) (value (hd_avgCost_ h));
}.

(** The first fill of a position. *)
Lemma near_first p v : 0 < value p < 2 ^ 53 → 0 < v < 2 ^ 53 →
  double_near 5 (inject_Z (0 + value p * v) / inject_Z (PRICE_MULTIPLIER * (0 + v)))
    (d_div (d_add (d_mul (d_of_Z 0) (d_of_Z 0)) (d_mul (value (ToUsd (D:=binary64) p)) (d_of_Z v)))
           (d_add (d_of_Z 0) (d_of_Z v))).
Proof.
  intros Hp Hv. pose proof (near_cost p v Hp Hv) as H. destruct (near_int v Hv) as (Nv & Ev & Pv).
  assert (∀ x : binary64, normal x → d_add (d_of_Z 0) x = x) as Hzero by by intros [].
  assert (d_mul (d_of_Z 0) (d_of_Z 0) = d_of_Z 0 :> binary64) as -> by done.
  rewrite (Hzero _ (proj1 H)), (Hzero _ Nv).
  apply (near_mono 3); [done|]. eapply (near_div_int 2); [done|exact H|done| |apply comfy_ratio; unfold PRICE_MULTIPLIER; nia].
  rewrite !Z.add_0_l, !inject_Z_mult. field. split; (done || lra).
Qed.

Lemma fill_cost_tracks side fs f h : countable (fs ++ [f]) → cost_tracks side fs h →
  ∃ h', fill_holding side f.1 f.2 h = Ok h' ∧ cost_tracks side (fs ++ [f]) h'.
Proof.
  intros Hc [Hvol Hflat Havg]. destruct (countable_snoc _ _ Hc) as (Hcf & [Hp Hv] & Hsum & Hlen).
  destruct (fills_bounds fs (proj1 Hcf)) as (Hb & Hpd & Hne).
  assert (fill_fits side f.2 h) as Hfit.
  { unfold fill_fits. rewrite Hvol. change (value f.2) with (fill_volume f) in *.
    unfold is_i64, delta, i64_min, i64_max. change (value f.2) with (fill_volume f).
    destruct side; cbn [direction]; lia. }
  rewrite (fill_holding_Ok _ _ _ _ Hfit). eexists. split; [done|].
  assert (((value (hd_volume_ h) =? 0) || Bool.eqb (0 <? value (hd_volume_ h)) (0 <? delta side f.2)) = true) as Hsame.
  { rewrite Hvol. unfold delta. change (value f.2) with (fill_volume f). destruct side; cbn [direction]; zbool; cbn; lia. }
  assert (Z.abs (value (hd_volume_ h)) = bought fs) as Hold by (rewrite Hvol; destruct side; cbn [direction]; lia).
  assert (Z.abs (delta side f.2) = fill_volume f) as Hadd
    by (unfold delta; change (value f.2) with (fill_volume f); destruct side; lia).
  rewrite Hsame, Hold, Hadd. split; cbn [hd_volume_ hd_avgCost_ value].
  - rewrite Hvol, bought_snoc. unfold delta. change (value f.2) with (fill_volume f). destruct side; cbn [direction]; lia.
  - by destruct fs.
  - intros _. unfold average_cost. rewrite paid_snoc, bought_snoc, length_app. cbn [length].
    destruct fs as [|f0 fs0] eqn:Efs.
    + rewrite (Hflat eq_refl). change (paid []) with 0. change (bought []) with 0 in Hsum |- *.
      apply near_first; [exact Hp|lia].
    + rewrite <-Efs in *. assert (fs ≠ []) as Hfs by by rewrite Efs.
      replace (5 * Z.of_nat (length fs + 1)) with (5 * Z.of_nat (length fs) + 5) by lia.
      assert (0 < length fs)%nat by (rewrite Efs; cbn; lia).
      apply near_average; try lia; [by apply Hne|split; [by apply Hne|apply Hpd]|exact Hp|by apply Havg].
Qed.

(** ** Properties *)

Section Users.
Context {Ticker : Type} `{!TickerType Ticker} {Inv : Type} `{!InventoryMap Ticker binary64 Inv}.
Context `{!InventoryLaws Ticker binary64 Inv}.

(** A run of fills of one user in one ticker. *)
Definition book_fills (t : Ticker) (side : Side) (fs : list fill) (u : User Inv) : Outcome (User Inv) :=
  foldM (λ f u, ApplyFill t side f.1 f.2 u) fs u.

Lemma book_fills_tracks id t side fs : countable fs →
  ∃ u, book_fills t side fs (user_new id) = Ok u ∧ cost_tracks side fs (holding_of u t).
Proof.
  induction fs as [|f fs IH] using rev_ind; intros Hc.
  { exists (user_new id). split; [done|]. rewrite holding_of_new. by split; [destruct side|..]. }
  destruct (IH (proj1 (countable_snoc _ _ Hc))) as (u & HR & Ht).
  destruct (fill_cost_tracks side fs f _ Hc Ht) as (h' & Hf & Ht').
  unfold book_fills in *. rewrite foldM_app, HR. cbn [mbind Outcome_bind foldM]. unfold ApplyFill.
  rewrite Hf. eexists. split; [done|]. rewrite holding_of_set. by rewrite decide_True.
Qed.
End Users.

(** C29: A price survives the conversion to dollars.  ToUsd divides and ToPrice multiplies in
    double and rounds to the nearest integer; for every price below 2^51 millionths of a
    dollar in magnitude (more than two billion dollars) the two roundings cancel and
    the same price comes back. *)
Theorem price_survives_dollars (price : Price) : Z.abs (value price) < 2 ^ 51 →
  ToPrice (ToUsd (D:=binary64) price) = Ok price.
Proof.
  destruct price as [p]. cbn [value]. intros Hp. unfold ToPrice, ToUsd. cbn [value].
  destruct (Z.eq_dec p 0) as [->|Hp0]; [done|].
  destruct (scaled_and_back p PRICE_MULTIPLIER Hp0 Hp) as [Nz Hz]; [done|].
  rewrite (llround_near _ p Nz Hz); [done|]. unfold is_i64, i64_min, i64_max. lia.
Qed.

Lemma price_survives_dollars_witness :
  ToPrice (ToUsd (D:=binary64) (Strong (-1234567890123))) = Ok (Strong (-1234567890123)).
Proof. apply (price_survives_dollars (Strong (-1234567890123))). reflexivity. Defined.

(** Beyond 2^53 the conversion to double alone loses prices. *)
Lemma large_price_is_lost :
  ToPrice (ToUsd (D:=binary64) (Strong (2 ^ 53 + 1))) = Ok (Strong (2 ^ 53)).
Proof. vm_compute. reflexivity. Qed.

(** The average cost is accurate.  Let a user open a position, long or short, with any number
    of fills (up to 2^48) at prices and of a total volume below 2^53.  All fills are
    booked, the position is the volume filled, and the average cost, computed in double
    with five roundings a fill, is that of exact arithmetic up to a relative error of
    2^-49 for each fill. *)
Theorem average_cost_is_accurate {Ticker Inv} `{!TickerType Ticker}
    `{!InventoryMap Ticker binary64 Inv} `{!InventoryLaws Ticker binary64 Inv}
    (id : UserId) (t : Ticker) (side : Side) (fs : list fill) :
  countable fs → fs ≠ [] →
  ∃ u : User Inv, book_fills t side fs (user_new id) = Ok u ∧
    value (Position u t) = direction side * bought fs ∧
    normal (value (hd_avgCost_ (holding_of u t))) ∧
    (Qabs (F (value (hd_avgCost_ (holding_of u t))) - average_cost fs) <=
      inject_Z (Z.of_nat (length fs)) * two ^ (-49) * average_cost fs)%Q.
Proof.
  intros Hc Hne. destruct (book_fills_tracks id t side fs Hc) as (u & HR & [Hvol _ Havg]).
  destruct (Havg Hne) as [Hn [Hpos Hd]]. exists u. rewrite Position_holding. split_and!; [done..|].
  assert (slack (5 * Z.of_nat (length fs)) <= inject_Z (Z.of_nat (length fs)) * two ^ (-49))%Q as Hs.
  { unfold slack. rewrite inject_Z_mult.
    setoid_replace (inject_Z 5 * inject_Z (Z.of_nat (length fs)) * (2 * unit_roundoff))%Q
      with (inject_Z (Z.of_nat (length fs)) * (10 * unit_roundoff))%Q using relation Qeq
      by (change (inject_Z 5) with 5%Q; ring).
    destruct fs as [|f fs]; [done|]. apply Qmult_le_l; [apply inject_pos; cbn; lia|done]. }
  set (a := average_cost fs) in *. set (s := slack _) in *. clearbody s.
  apply Qabs_Qle_condition. set (b := (inject_Z _ * two ^ (-49))%Q) in *. clearbody b. split; nra.
Qed.

(** Ten shares at 100 dollars and thirty at 110. *)
Definition two_buys : list fill :=
  [(Strong 100000000, Strong 10); (Strong 110000000, Strong 30)].

Lemma average_cost_is_accurate_witness :
  (average_cost two_buys == 215 # 2)%Q ∧
  ∃ u : User (gmap CTicker (Holding binary64)), book_fills AAPL Buy two_buys (user_new (Strong 7)) = Ok u ∧
    value (Position u AAPL) = 40 ∧ normal (value (hd_avgCost_ (holding_of u AAPL))) ∧
    (Qabs (F (value (hd_avgCost_ (holding_of u AAPL))) - average_cost two_buys) <=
      inject_Z 2 * two ^ (-49) * average_cost two_buys)%Q.
Proof.
  split; [reflexivity|].
  apply (average_cost_is_accurate (Inv:=gmap CTicker (Holding binary64)) (Strong 7) AAPL Buy two_buys); [|discriminate].
  split; [|split; [reflexivity|vm_compute; discriminate]]. repeat constructor.
Defined.
