(* ===== verification/PnlError.v ===== *)
(** * How accurate the P&L is

    user.hpp computes average costs and P&L in double, with a subtraction that can cancel
    almost everything.  The error is therefore not small relative to the P&L, but it is
    small relative to the money that changed hands: every fill adds less than 2^-49 of
    that. *)

From Corelib Require Import SpecFloat.
From Stdlib Require Import QArith Qabs Qpower Lqa.
From stdpp Require Import gmap.
From S2P Require Import Prelude Interfaces Double CoreTypes Seqlock FlatMap MatchingEngine Concrete User Accounting Decimal Rounding Grid MoneyError.

Local Open Scope Q_scope.

(** ** One subtraction, one multiplication, one addition *)

(** Amounts per share, in dollars: a millionth of a dollar and up. *)
Definition dollars (q : Q) : Prop := two ^ (-20) <= q <= two ^ 53.

#[export] Instance dollars_proper : Proper (Qeq ==> iff) dollars.
Proof. intros v w E. unfold dollars. by rewrite E. Qed.

Lemma dollars_usd (p : Price) : (0 < value p < 2 ^ 53)%Z → dollars (usd p).
Proof.
  intros Hp. unfold usd. assert (0 < inject_Z PRICE_MULTIPLIER) by done. split.
  - apply Qle_shift_div_l; [done|]. apply Qle_trans with (inject_Z 1); [done|]. rewrite <-Zle_Qle. lia.
  - apply Qle_shift_div_r; [done|]. apply Qle_trans with (inject_Z (2 ^ 53)); [rewrite <-Zle_Qle; lia|done].
Qed.

Lemma near_dollars k q x : few k → dollars q → double_near k q x → gridded x ∧ 0 < F x <= 2 * q.
Proof.
  intros Hk [Hq _] [Hn Hd]. destruct (drift_pos k q (F x) Hk Hd) as [H0 [H1 H2]].
  split; [|done]. apply normal_gridded; [done|]. rewrite Qabs_pos by lra.
  apply Qle_trans with ((1 # 2) * two ^ (-20)); [done|lra].
Qed.

Lemma Qabs_minus_le (a b c d : Q) : Qabs (a - b) <= c → Qabs b <= d → Qabs a <= d + c.
Proof. intros H1 H2. pose proof (Qabs_near _ _ _ H1). lra. Qed.

Lemma Qabs_chain (a b c x y : Q) : Qabs (a - b) <= x → Qabs (b - c) <= y → Qabs (a - c) <= x + y.
Proof.
  intros H1 H2. setoid_replace (a - c) with ((a - b) + (b - c)) using relation Qeq by ring.
  eapply Qle_trans; [apply Qabs_triangle|lra].
Qed.

Lemma Qminus_le (a b : Q) : 0 <= b → a - b <= a.
Proof. lra. Qed.

(** A rounding after an error: [w] is meant to be [v], and is rounded to [x]. *)
Lemma rounded_after v w x s B : Qabs (w - v) <= s * B → Qabs v <= B → 0 <= s <= 1 → rounded w x →
  Qabs (F x - v) <= (s + 2 * unit_roundoff) * B.
Proof.
  intros Hw Hv Hs [_ Hx]. pose proof unit_roundoff_small as Hu.
  pose proof (Qabs_minus_le _ _ _ _ Hw Hv) as Ha. pose proof (Qabs_chain _ _ _ _ _ Hx Hw) as H.
  pose proof (Qabs_nonneg v). eapply Qle_trans; [exact H|]. set (r := unit_roundoff) in *. clearbody r.
  set (a := Qabs w) in *. clearbody a. assert (0 <= B) by lra. assert (s * B <= B) by nra.
  assert (r * a <= r * (2 * B)) by (apply Qmult_le_l; lra). lra.
Qed.

(** A difference of two amounts, times a number of shares. *)
Lemma diff_times k X Y x y n : few k → dollars X → dollars Y → double_near k X x → double_near k Y y →
  (Z.abs n < 2 ^ 53)%Z →
  let q := d_mul (d_sub x y) (d_of_Z n) in
  gridded q ∧ Qabs (F q - (X - Y) * inject_Z n) <= slack (k + 2) * ((X + Y) * inject_Z (Z.abs n)).
Proof.
  intros Hk HX HY Hx Hy Hn. destruct (near_dollars k X x Hk HX Hx) as (Gx & Bx).
  destruct (near_dollars k Y y Hk HY Hy) as (Gy & By). destruct Hx as [_ [_ Dx]], Hy as [_ [_ Dy]].
  pose proof (slack_few k Hk) as Hs. destruct HX as [HX1 HX2], HY as [HY1 HY2].
  assert (0 < two ^ (-20)) as P20 by apply two_pos.
  assert (Qabs (F x - F y - (X - Y)) <= slack k * (X + Y)) as E1 by (apply Qabs_Qle_condition; split; lra).
  assert (Qabs (X - Y) <= X + Y) as E2 by (apply Qabs_Qle_condition; split; lra).
  assert (Qabs (F x - F y) <= two ^ 55) as E3.
  { apply Qabs_Qle_condition. assert (2 * two ^ 53 <= two ^ 55) by done. split; lra. }
  assert (rounded (F x - F y) (d_sub x y)) as Hsub.
  { apply sub_rounded; [done..|]. eapply Qle_trans; [exact E3|by apply two_le]. }
  pose proof (rounded_after _ _ _ _ _ E1 E2 ltac:(lra) Hsub) as E4. set (d := d_sub x y) in *.
  set (N := inject_Z (Z.abs n)). assert (0 <= N <= inject_Z (2 ^ 53)) as HN.
  { unfold N. change 0 with (inject_Z 0). rewrite <-!Zle_Qle. lia. }
  assert (Qabs (inject_Z n) == N) as EN by done.
  pose proof unit_roundoff_small as Hu.
  assert (Qabs (F d) <= two ^ 60) as E5.
  { eapply Qle_trans; [exact (Qabs_minus_le _ _ _ _ E4 E2)|].
    assert (4 * two ^ 53 * 2 <= two ^ 60) by done. set (r := unit_roundoff) in *. clearbody r. nra. }
  assert (rounded (F d * inject_Z n) (d_mul d (d_of_Z n))) as [Gm Hm].
  { apply mul_int_rounded; [apply Hsub|done|]. rewrite Qabs_Qmult, EN.
    apply Qle_trans with (two ^ 60 * inject_Z (2 ^ 53)); [|done].
    apply Qle_trans with (two ^ 60 * N); [apply Qmult_le_compat_r; [done|apply HN]|].
    apply Qmult_le_l; [apply two_pos|apply HN]. }
  split; [done|].
  assert (Qabs (F d * inject_Z n - (X - Y) * inject_Z n) <= (slack k + 2 * unit_roundoff) * ((X + Y) * N)) as E6.
  { setoid_replace (F d * inject_Z n - (X - Y) * inject_Z n) with ((F d - (X - Y)) * inject_Z n)
      using relation Qeq by ring.
    rewrite Qabs_Qmult, EN, Qmult_assoc. apply Qmult_le_compat_r; [done|apply HN]. }
  setoid_replace (slack (k + 2)) with (slack k + 2 * unit_roundoff + 2 * unit_roundoff) using relation Qeq
    by (rewrite slack_succ; change (inject_Z 2) with 2; ring).
  apply (rounded_after _ (F d * inject_Z n)); [done| |lra|done].
  rewrite Qabs_Qmult, EN. apply Qmult_le_compat_r; [done|apply HN].
Qed.

(** Adding up. *)
Lemma accumulate k (R P X Y : Q) (r q : binary64) : few k → gridded r → gridded q →
  Qabs (F r - R) <= slack k * X → Qabs R <= X → Qabs (F q - P) <= slack k * Y → Qabs P <= Y →
  X + Y <= two ^ 200 →
  gridded (d_add r q) ∧ Qabs (F (d_add r q) - (R + P)) <= slack (k + 1) * (X + Y) ∧ Qabs (R + P) <= X + Y.
Proof.
  intros Hk Gr Gq Hr HR Hq HP HB. pose proof (slack_few k Hk) as Hs.
  assert (Qabs (R + P) <= X + Y) as H1 by (eapply Qle_trans; [apply Qabs_triangle|lra]).
  assert (Qabs (F r + F q - (R + P)) <= slack k * (X + Y)) as H2.
  { setoid_replace (F r + F q - (R + P)) with ((F r - R) + (F q - P)) using relation Qeq by ring.
    eapply Qle_trans; [apply Qabs_triangle|lra]. }
  pose proof (Qabs_nonneg (R + P)) as H0.
  assert (rounded (F r + F q) (d_add r q)) as Ha.
  { apply add_rounded; [done..|]. eapply Qle_trans; [exact (Qabs_minus_le _ _ _ _ H2 H1)|].
    apply Qle_trans with (2 * two ^ 200); [|done]. nra. }
  split; [apply Ha|]. split; [|done]. rewrite slack_succ. change (inject_Z 1) with 1. rewrite Qmult_1_l.
  apply (rounded_after _ (F r + F q)); [done..|lra|done].
Qed.

(** ** A holding in double, next to the same holding in exact arithmetic *)

Section Mirror.
Implicit Types (hq : Holding Q) (h : Holding binary64).

(** Of [T] dollars that changed hands, those that are not the cost of the open position. *)
Definition churn (T : Q) hq : Q := T - value (hd_avgCost_ hq) * inject_Z (Z.abs (value (hd_volume_ hq))).

(** [h] and [hq] are the same holding after [n] fills for [T] dollars in total. *)
Record mirrors (n : Z) (T : Q) hq h : Prop := {
  mi_volume : hd_volume_ h = hd_volume_ hq;
  mi_flat : value (hd_volume_ hq) = 0%Z → value (hd_avgCost_ h) = d_of_Z 0;
  mi_open : value (hd_volume_ hq) ≠ 0%Z → (1 <= n)%Z ∧ dollars (value (hd_avgCost_ hq)) ∧
    double_near (5 * n) (value (hd_avgCost_ hq)) (value (hd_avgCost_ h));
  mi_realized : Qabs (value (hd_realizedPnl_ hq)) <= churn T hq;
  mi_gridded : gridded (value (hd_realizedPnl_ h));
  mi_error : Qabs (F (value (hd_realizedPnl_ h)) - value (hd_realizedPnl_ hq)) <= slack (5 * n) * churn T hq;
}.

Lemma mirrors_init : mirrors 0 0 holding_init holding_init.
Proof.
  split; try done. apply gridded_zero.
Qed.

Lemma slack_mono k k' B : (0 <= k <= k')%Z → 0 <= B → slack k * B <= slack k' * B.
Proof.
  intros Hk HB. apply Qmult_le_compat_r; [|done]. unfold slack. apply Qmult_le_compat_r.
  - rewrite <-Zle_Qle. lia.
  - pose proof unit_roundoff_small. lra.
Qed.

(** The first fill of a position. *)
Lemma first_average n p v : (0 <= n)%Z → (0 < value p < 2 ^ 53)%Z → (0 < v < 2 ^ 53)%Z →
  double_near (5 * (n + 1)) (usd p) (d_div (d_add (d_mul (d_of_Z 0) (d_of_Z 0))
    (d_mul (value (ToUsd (D:=binary64) p)) (d_of_Z v))) (d_add (d_of_Z 0) (d_of_Z v))).
Proof.
  intros Hn Hp Hv. apply (near_mono 5); [lia|].
  eapply double_near_proper; [reflexivity| |reflexivity|by apply near_first].
  unfold usd. rewrite !Z.add_0_l, !inject_Z_mult. pose proof (inject_pos v ltac:(lia)).
  field. split; (done || lra).
Qed.

(** More of the same. *)
Lemma next_average n A a V p v : (1 <= n < 2 ^ 48)%Z → dollars A → double_near (5 * n) A a →
  (0 < V)%Z → (0 < value p < 2 ^ 53)%Z → (0 < v)%Z → (V + v < 2 ^ 53)%Z →
  double_near (5 * (n + 1)) ((A * inject_Z V + usd p * inject_Z v) / (inject_Z V + inject_Z v))
    (d_div (d_add (d_mul a (d_of_Z V)) (d_mul (value (ToUsd (D:=binary64) p)) (d_of_Z v)))
           (d_add (d_of_Z V) (d_of_Z v))).
Proof.
  intros Hn HA Ha HV Hp Hv Hs. replace (5 * (n + 1))%Z with (5 * n + 5)%Z by lia.
  rewrite <-inject_Z_plus. apply near_mean; try done; try lia.
  destruct HA as [H1 H2]. split; (eapply Qle_trans; [|exact H1]) || (eapply Qle_trans; [exact H2|]); by apply two_le.
Qed.

(** What a fill does to the churn: opening adds nothing, closing adds what is closed, at the
    old cost and at the new price. *)
Lemma churn_open T A p V v : (0 <= V)%Z → (0 < v)%Z →
  T + p * inject_Z v - (A * inject_Z V + p * inject_Z v) / (inject_Z V + inject_Z v) * inject_Z (V + v) ==
  T - A * inject_Z V.
Proof.
  intros HV Hv. pose proof (inject_pos (V + v) ltac:(lia)) as H. rewrite inject_Z_plus in H |- *.
  field. lra.
Qed.
Lemma churn_close T A p V v : (0 < V)%Z → (0 < v)%Z →
  T + p * inject_Z v - (if decide (v < V)%Z then A else if decide (v = V) then 0 else p) * inject_Z (Z.abs (V - v)) ==
  T - A * inject_Z V + (p + A) * inject_Z (Z.min V v).
Proof.
  intros HV Hv. repeat case_decide.
  - rewrite Z.min_r, Z.abs_eq by lia. unfold Z.sub. rewrite inject_Z_plus, inject_Z_opp. ring.
  - subst v. rewrite Z.min_id. ring.
  - rewrite Z.min_l, Z.abs_neq by lia. replace (- (V - v))%Z with (v + - V)%Z by lia.
    rewrite inject_Z_plus, inject_Z_opp. ring.
Qed.

(** What is needed of a fill for the bounds. *)
Definition fill_counts (n : Z) (T : Q) (p : Price) (v : Volume) hq : Prop :=
  (0 <= n < 2 ^ 48)%Z ∧ (0 < value p < 2 ^ 53)%Z ∧ (0 < value v)%Z ∧
  (Z.abs (value (hd_volume_ hq)) + value v < 2 ^ 53)%Z ∧ T + usd p * inject_Z (value v) <= two ^ 200.

Lemma counts_fit {D} `{!DoubleOps D} n T side p v hq (h : Holding D) : fill_counts n T p v hq →
  hd_volume_ h = hd_volume_ hq → fill_fits side v h.
Proof.
  intros (_ & _ & Hv & Hs & _) E. unfold fill_fits. rewrite E.
  unfold is_i64, i64_min, i64_max, delta. destruct side; lia.
Qed.

(** A fill in the direction of the position, or of a flat one. *)
Lemma open_mirrors n T p v hq h (d : Z) unr unr' : mirrors n T hq h → fill_counts n T p v hq →
  Z.abs d = value v →
  Z.abs (value (hd_volume_ hq) + d)%Z = (Z.abs (value (hd_volume_ hq)) + value v)%Z →
  let V := Z.abs (value (hd_volume_ hq)) in
  mirrors (n + 1) (T + usd p * inject_Z (value v))
    (mkHolding (Strong (value (hd_volume_ hq) + d)%Z)
       (Strong ((value (hd_avgCost_ hq) * inject_Z V + usd p * inject_Z (value v)) / (inject_Z V + inject_Z (value v))))
       (hd_realizedPnl_ hq) unr)
    (mkHolding (Strong (value (hd_volume_ hq) + d)%Z)
       (Strong (d_div (d_add (d_mul (value (hd_avgCost_ h)) (d_of_Z V)) (d_mul (value (ToUsd p)) (d_of_Z (value v))))
                      (d_add (d_of_Z V) (d_of_Z (value v)))))
       (hd_realizedPnl_ h) unr').
Proof.
  intros [Mv Mf Mo Mr Mg Me] (Hn & Hp & Hv & Hs & _) Hd Hsum V.
  pose proof (dollars_usd p Hp) as [Du1 Du2].
  set (hq' := mkHolding (Strong (value (hd_volume_ hq) + d)%Z) _ _ unr). set (T' := T + _).
  assert (churn T' hq' == churn T hq) as EX.
  { unfold churn, hq', T'. cbn [hd_volume_ hd_avgCost_ value]. rewrite Hsum. apply churn_open; lia. }
  split; cbn [hd_volume_ hd_avgCost_ hd_realizedPnl_ value hq'].
  - done.
  - lia.
  - intros _. split; [lia|]. split.
    + apply mean_within; [| | |done].
      * change 0 with (inject_Z 0). rewrite <-Zle_Qle. lia.
      * by apply inject_pos.
      * intros HV. apply Mo. intros E. apply HV. unfold V. by rewrite E.
    + destruct (Z.eq_dec (value (hd_volume_ hq)) 0%Z) as [E|E]; [|apply next_average; try lia; by apply Mo].
      rewrite (Mf E). unfold V. rewrite E. change (Z.abs 0) with 0%Z.
      eapply double_near_proper; [reflexivity| |reflexivity|apply first_average; lia].
      pose proof (inject_pos (value v) Hv). change (inject_Z 0) with 0. field. lra.
  - by rewrite EX.
  - done.
  - rewrite EX. eapply Qle_trans; [exact Me|]. apply slack_mono; [lia|].
    eapply Qle_trans; [apply Qabs_nonneg|exact Mr].
Qed.
(** What closing [c] shares of a position realises. *)
Lemma close_amount n p A (a : binary64) c (long : bool) : (1 <= n < 2 ^ 48)%Z → (0 < value p < 2 ^ 53)%Z →
  dollars A → double_near (5 * n) A a → (0 <= c < 2 ^ 53)%Z →
  let e := value (ToUsd p) in
  let q := d_mul (if long then d_sub e a else d_sub a e) (d_of_Z c) in
  let P := (if long then usd p - A else A - usd p) * inject_Z c in
  let Y := (usd p + A) * inject_Z c in
  gridded q ∧ Qabs (F q - P) <= slack (5 * n + 3) * Y ∧ Qabs P <= Y.
Proof.
  intros Hn Hp HA Ha Hc e q P Y. pose proof (dollars_usd p Hp) as Du.
  assert (double_near (5 * n) (usd p) e) as Hu by (apply (near_mono 1); [lia|by apply near_usd]).
  assert (0 <= inject_Z c) as Hc0 by (change 0 with (inject_Z 0); rewrite <-Zle_Qle; lia).
  assert (few (5 * n)) as Hf5 by (unfold few; lia). assert (Z.abs c = c) as Ec by lia.
  assert (Qabs P <= Y) as HP.
  { unfold P, Y. rewrite Qabs_Qmult, (Qabs_pos (inject_Z c)) by done. apply Qmult_le_compat_r; [|done].
    pose proof (two_pos (-20)). destruct HA, Du. apply Qabs_Qle_condition. destruct long; split; lra. }
  assert (gridded q ∧ Qabs (F q - P) <= slack (5 * n + 2) * Y) as [Gq Hq].
  { unfold q, P, Y. destruct long.
    - destruct (diff_times (5 * n) (usd p) A e a c) as [G H]; [done..|lia|]. by rewrite Ec in H.
    - destruct (diff_times (5 * n) A (usd p) a e c) as [G H]; [done..|lia|]. by rewrite Ec, (Qplus_comm A) in H. }
  split; [done|]. split; [|done]. eapply Qle_trans; [exact Hq|]. apply slack_mono; [lia|].
  eapply Qle_trans; [apply Qabs_nonneg|exact HP].
Qed.

(** A fill against the position. *)
Lemma close_mirrors n T p v hq h (d : Z) unr unr' : mirrors n T hq h → fill_counts n T p v hq →
  value (hd_volume_ hq) ≠ 0%Z → Z.abs d = value v →
  let V := Z.abs (value (hd_volume_ hq)) in
  Z.abs (value (hd_volume_ hq) + d) = Z.abs (V - value v) →
  let c := Z.min V (value v) in
  let long := (0 <? value (hd_volume_ hq))%Z in
  let A := value (hd_avgCost_ hq) in let a := value (hd_avgCost_ h) in let e := value (ToUsd p) in
  mirrors (n + 1) (T + usd p * inject_Z (value v))
    (mkHolding (Strong (value (hd_volume_ hq) + d)%Z)
       (if decide (value v < V)%Z then hd_avgCost_ hq else if decide (value v = V) then Strong 0 else Strong (usd p))
       (Strong (value (hd_realizedPnl_ hq) + (if long then usd p - A else A - usd p) * inject_Z c)) unr)
    (mkHolding (Strong (value (hd_volume_ hq) + d)%Z)
       (if decide (value v < V)%Z then hd_avgCost_ h else if decide (value v = V) then Strong (d_of_Z 0) else Strong e)
       (Strong (d_add (value (hd_realizedPnl_ h)) (d_mul (if long then d_sub e a else d_sub a e) (d_of_Z c)))) unr').
Proof.
  intros [Mv Mf Mo Mr Mg Me] (Hn & Hp & Hv & Hs & HT) HV Hd V Habs c long A a e.
  destruct (Mo HV) as (Hn1 & HA & Ha). fold A a in HA, Ha.
  pose proof (dollars_usd p Hp) as Du.
  set (hq' := mkHolding (Strong (value (hd_volume_ hq) + d)%Z) _ _ unr). set (T' := T + _) in *.
  assert (churn T' hq' == churn T hq + (usd p + A) * inject_Z c) as EX.
  { unfold churn, hq', T', c. cbn [hd_volume_ hd_avgCost_ value]. rewrite Habs. fold V A.
    rewrite <-churn_close by lia. unfold A. repeat case_decide; reflexivity. }
  assert (few (5 * n + 3)) as Hfew by (unfold few; lia).
  destruct (close_amount n p A a c long) as (Gq & Hq & Hbd); [lia|done..|lia|].
  assert (Qabs (F (value (hd_realizedPnl_ h)) - value (hd_realizedPnl_ hq)) <= slack (5 * n + 3) * churn T hq) as Hr.
  { eapply Qle_trans; [exact Me|]. apply slack_mono; [lia|]. eapply Qle_trans; [apply Qabs_nonneg|exact Mr]. }
  assert (churn T hq + (usd p + A) * inject_Z c <= two ^ 200) as Hroom.
  { rewrite <-EX. eapply Qle_trans; [|exact HT]. unfold churn, hq'. cbn [hd_volume_ hd_avgCost_ value].
    assert (0 <= value (if decide (value v < V)%Z then hd_avgCost_ hq
      else if decide (value v = V) then Strong 0 else Strong (usd p))) as Hpos.
    { pose proof (two_pos (-20)). unfold dollars, A in *. repeat case_decide; cbn [value]; lra. }
    assert (0 <= inject_Z (Z.abs (value (hd_volume_ hq) + d))) as HN by (change 0 with (inject_Z 0); rewrite <-Zle_Qle; lia).
    apply Qminus_le, Qmult_le_0_compat; [exact Hpos|exact HN]. }
  destruct (accumulate _ _ _ _ _ _ _ Hfew Mg Gq Hr Mr Hq Hbd Hroom) as (Ga & Hea & Hba).
  split; cbn [hd_volume_ hd_avgCost_ hd_realizedPnl_ value].
  - done.
  - intros E. change (value (hd_volume_ hq) + d = 0)%Z in E. rewrite E in Habs. repeat case_decide; [lia|done|lia].
  - unfold hq'. cbn [hd_volume_ hd_avgCost_ value]. intros Hne. split; [lia|]. repeat case_decide; cbn [value].
    + split; [done|]. apply (near_mono (5 * n)); [lia|done].
    + lia.
    + split; [done|]. apply (near_mono 1); [lia|by apply near_usd].
  - by rewrite EX.
  - done.
  - rewrite EX. eapply Qle_trans; [exact Hea|]. apply slack_mono; [lia|].
    eapply Qle_trans; [apply Qabs_nonneg|exact Hba].
Qed.

Lemma fill_mirrors n T side p v hq h : mirrors n T hq h → fill_counts n T p v hq →
  ∃ hq' h', fill_holding side p v hq = Ok hq' ∧ fill_holding side p v h = Ok h' ∧
    mirrors (n + 1) (T + usd p * inject_Z (value v)) hq' h'.
Proof.
  intros Hm Hc. pose proof (mi_volume _ _ _ _ Hm) as Ev.
  rewrite !fill_holding_Ok by (by eapply counts_fit). eexists _, _. split; [done|]. split; [done|].
  rewrite Ev. pose proof Hc as (_ & _ & Hv & _).
  assert (Z.abs (delta side v) = value v) as Hd by (destruct side; cbn; lia). rewrite Hd.
  change (value (ToUsd (D:=Q) p)) with (usd p).
  cbn [d_add d_sub d_mul d_div d_of_Z exact_ops].
  pose proof (same_direction (value (hd_volume_ hq)) (delta side v) ltac:(lia)) as Hs.
  destruct (_ || _) eqn:Es.
  - apply (open_mirrors n T p v hq h (delta side v)); [done..|].
    revert Es. zbool; cbn; intros; lia || done.
  - apply (close_mirrors n T p v hq h (delta side v)); [done..|lia|done|lia].
Qed.
End Mirror.

(** ** Marking to the mid price *)

Section Mark.
Implicit Types (hq : Holding Q) (h : Holding binary64).

Lemma mark_error n T hq h mid : mirrors n T hq h → (0 <= n <= 2 ^ 48)%Z →
  (Z.abs (value (hd_volume_ hq)) < 2 ^ 53)%Z → (0 < value mid < 2 ^ 53)%Z →
  let V := inject_Z (value (hd_volume_ hq)) in let A := value (hd_avgCost_ hq) in
  Qabs (F (value (hd_unrealizedPnl_ (mark_holding mid h))) - V * (usd mid - A)) <=
    slack (5 * n + 2) * ((usd mid + A) * Qabs V).
Proof.
  intros [Mv Mf Mo _ _ _] Hn HV Hmid V A. unfold mark_holding. cbn [hd_unrealizedPnl_ value].
  rewrite Mv, d_mul_comm. destruct (Z.eq_dec (value (hd_volume_ hq)) 0%Z) as [E|E].
  - rewrite (Mf E). unfold V. rewrite E.
    assert (∀ x : binary64, normal x → F (d_mul (d_sub x (d_of_Z 0)) (d_of_Z 0)) == 0) as Hz by by intros [].
    rewrite Hz by apply near_usd, Hmid. change (inject_Z 0) with 0.
    setoid_replace (0 - 0 * (usd mid - A)) with 0 using relation Qeq by ring.
    setoid_replace ((usd mid + A) * Qabs 0) with 0 using relation Qeq by (change (Qabs 0) with 0; ring).
    by rewrite Qmult_0_r.
  - destruct (Mo E) as (Hn1 & HA & Ha). fold A in HA, Ha.
    destruct (diff_times (5 * n) (usd mid) A (value (ToUsd mid)) (value (hd_avgCost_ h)) (value (hd_volume_ hq)))
      as [_ H]; [unfold few; lia|by apply dollars_usd|done|apply (near_mono 1); [lia|by apply near_usd]|done|done|].
    rewrite (Qmult_comm V). exact H.
Qed.

(** And the three amounts are numbers. *)
Definition holding_finite h : Prop :=
  finite (value (hd_avgCost_ h)) ∧ finite (value (hd_realizedPnl_ h)) ∧
  finite (value (hd_unrealizedPnl_ h)).

Lemma mark_finite n T hq h mid : mirrors n T hq h → (0 <= n <= 2 ^ 48)%Z →
  (Z.abs (value (hd_volume_ hq)) < 2 ^ 53)%Z → (0 < value mid < 2 ^ 53)%Z →
  holding_finite (mark_holding mid h).
Proof.
  intros [Mv Mf Mo _ Mg _] Hn HV Hmid. unfold holding_finite, mark_holding.
  cbn [hd_avgCost_ hd_realizedPnl_ hd_unrealizedPnl_ value]. rewrite Mv, d_mul_comm.
  pose proof (gridded_finite _ Mg) as Fr.
  destruct (Z.eq_dec (value (hd_volume_ hq)) 0%Z) as [E|E].
  - rewrite (Mf E), E. split_and!; [by eexists|done|].
    assert (∀ x : binary64, normal x → finite (d_mul (d_sub x (d_of_Z 0)) (d_of_Z 0))) as Hz
      by (intros [] Hx; (by destruct Hx) || by eexists).
    apply Hz, near_usd, Hmid.
  - destruct (Mo E) as (Hn1 & HA & Ha). split_and!; [|done|].
    + apply gridded_finite, (near_dollars (5 * n) (value (hd_avgCost_ hq))); [unfold few; lia|done..].
    + apply gridded_finite.
      apply (diff_times (5 * n) (usd mid) (value (hd_avgCost_ hq))); [unfold few; lia|by apply dollars_usd|done| |done|done].
      apply (near_mono 1); [lia|by apply near_usd].
Qed.

(** The total P&L, realised and unrealised, against the ledger. *)
Lemma equity_error n T hq h mid (unreal : binary64) : mirrors n T hq h → (0 <= n <= 2 ^ 48)%Z →
  let V := inject_Z (value (hd_volume_ hq)) in let A := value (hd_avgCost_ hq) in
  Qabs (F unreal - V * (usd mid - A)) <= slack (5 * n + 2) * ((usd mid + A) * Qabs V) →
  Qabs (F (value (hd_realizedPnl_ h)) + F unreal - (net_cash hq + V * usd mid)) <=
    slack (5 * n + 2) * (T + Qabs V * usd mid).
Proof.
  intros [_ _ _ Mr _ Me] Hn V A HU.
  setoid_replace (F (value (hd_realizedPnl_ h)) + F unreal - (net_cash hq + V * usd mid)) with
    ((F (value (hd_realizedPnl_ h)) - value (hd_realizedPnl_ hq)) + (F unreal - V * (usd mid - A)))
    using relation Qeq by (unfold net_cash; fold V A; ring).
  eapply Qle_trans; [apply Qabs_triangle|].
  assert (slack (5 * n) * churn T hq <= slack (5 * n + 2) * churn T hq) as Hm.
  { apply slack_mono; [lia|]. eapply Qle_trans; [apply Qabs_nonneg|exact Mr]. }
  setoid_replace (slack (5 * n + 2) * (T + Qabs V * usd mid)) with
    (slack (5 * n + 2) * churn T hq + slack (5 * n + 2) * ((usd mid + A) * Qabs V)) using relation Qeq
    by (unfold churn; change (inject_Z (Z.abs (value (hd_volume_ hq)))) with (Qabs V); fold A; ring).
  lra.
Qed.
End Mark.

(** ** A user's fills *)

Section Runs.
Context {Ticker : Type} `{!TickerType Ticker}.
Implicit Types (t : Ticker) (f : UserFill Ticker) (fs : list (UserFill Ticker)).

(** The fills in one ticker, and the dollars that changed hands in them. *)
Definition fills_in t fs : Z := Z.of_nat (length (filter (λ f, uf_ticker f = t) fs)).

Fixpoint money_moved t fs : Q :=
  match fs with
  | [] => 0
  | f :: fs' =>
      (if decide (uf_ticker f = t) then usd (uf_price f) * inject_Z (value (uf_volume f)) else 0) + money_moved t fs'
  end.

(** Fills a double can count. *)
Definition fills_countable fs : Prop :=
  Forall (λ f, 0 < value (uf_price f) < 2 ^ 53 ∧ 0 < value (uf_volume f))%Z fs ∧
  (turnover fs < 2 ^ 53)%Z ∧ (Z.of_nat (length fs) <= 2 ^ 48)%Z.

#[export] Instance fills_countable_dec fs : Decision (fills_countable fs).
Proof. unfold fills_countable. apply _. Defined.

Lemma fills_in_snoc t fs f : fills_in t (fs ++ [f]) = (fills_in t fs + if decide (uf_ticker f = t) then 1 else 0)%Z.
Proof. unfold fills_in. rewrite filter_app, length_app, filter_cons. case_decide; cbn; lia. Qed.

Lemma fills_in_le t fs : (fills_in t fs <= Z.of_nat (length fs))%Z.
Proof. unfold fills_in. pose proof (length_filter (λ f, uf_ticker f = t) fs). lia. Qed.

Lemma money_moved_snoc t fs f : money_moved t (fs ++ [f]) == money_moved t fs +
  (if decide (uf_ticker f = t) then usd (uf_price f) * inject_Z (value (uf_volume f)) else 0).
Proof.
  induction fs as [|f' fs IH]; cbn [app money_moved]; [ring|]. rewrite IH. ring.
Qed.

Lemma money_moved_none t fs : fills_in t fs = 0%Z → money_moved t fs == 0.
Proof.
  unfold fills_in. induction fs as [|f fs IH]; [done|]. rewrite filter_cons. cbn [money_moved].
  case_decide; [cbn; lia|]. intros E. rewrite (IH E). ring.
Qed.

Lemma money_moved_bounds t fs : Forall (λ f, 0 < value (uf_price f) < 2 ^ 53 ∧ 0 < value (uf_volume f))%Z fs →
  0 <= money_moved t fs <= two ^ 53 * inject_Z (turnover fs).
Proof.
  induction 1 as [|f fs [Hp Hv] _ IH]; [done|]. cbn [money_moved].
  change (turnover (f :: fs)) with (value (uf_volume f) + turnover fs)%Z. rewrite inject_Z_plus.
  pose proof (inject_pos _ Hv) as HV. destruct (dollars_usd _ Hp) as [H0 H53]. pose proof (two_pos (-20)).
  assert (0 <= usd (uf_price f) * inject_Z (value (uf_volume f)) <= two ^ 53 * inject_Z (value (uf_volume f)))
    by (split; [apply Qmult_le_0_compat|apply Qmult_le_compat_r]; lra).
  assert (0 <= two ^ 53 * inject_Z (value (uf_volume f)))
    by (apply Qmult_le_0_compat; [apply Qlt_le_weak, two_pos|lra]).
  case_decide; lra.
Qed.

Lemma countable_fills_ok fs : fills_countable fs → fills_ok fs.
Proof.
  intros (Hall & Ht & _). split; [|unfold i64_max; lia]. eapply Forall_impl; [exact Hall|]. by intros f [_ ?].
Qed.

Lemma fills_countable_snoc fs f : fills_countable (fs ++ [f]) → fills_countable fs ∧
  (0 < value (uf_price f) < 2 ^ 53)%Z ∧ (0 < value (uf_volume f))%Z ∧
  (turnover fs + value (uf_volume f) < 2 ^ 53)%Z ∧ (Z.of_nat (length fs) < 2 ^ 48)%Z.
Proof.
  unfold fills_countable, turnover. rewrite Forall_app, Forall_singleton, sumZ_app, length_app.
  cbn [length sumZ foldr]. intros ([H1 [H2 H3]] & H4 & H5). split_and!; first [done|lia].
Qed.
End Runs.

Section Users.
Context {Ticker : Type} `{!TickerType Ticker}.
Context {Inv : Type} `{!InventoryMap Ticker binary64 Inv} `{!InventoryLaws Ticker binary64 Inv}.
Context {InvQ : Type} `{!InventoryMap Ticker Q InvQ} `{!InventoryLaws Ticker Q InvQ}.
Implicit Types (t : Ticker) (fs : list (UserFill Ticker)) (u : User Inv) (uq : User InvQ).

Definition users_mirror fs uq u : Prop :=
  ∀ t, ∃ T, T == money_moved t fs ∧ mirrors (fills_in t fs) T (holding_of uq t) (holding_of u t).

Lemma fill_counts_next fs f uq : fills_countable (fs ++ [f]) → 
  (∀ t, value (hd_volume_ (holding_of uq t)) = ledger_position t fs) → ∀ T, T == money_moved (uf_ticker f) fs →
  fill_counts (fills_in (uf_ticker f) fs) T (uf_price f) (uf_volume f) (holding_of uq (uf_ticker f)).
Proof.
  intros (Hc & Hp & Hv & Ht & Hl)%fills_countable_snoc Hpos T HT.
  pose proof (ledger_position_bound (uf_ticker f) fs (proj1 (countable_fills_ok fs Hc))) as Hb.
  pose proof (fills_in_le (uf_ticker f) fs) as Hn. rewrite <-Hpos in Hb.
  split_and!; [unfold fills_in; lia|lia|lia|lia|done|lia|]. rewrite HT.
  pose proof (money_moved_bounds (uf_ticker f) fs (proj1 Hc)) as [_ HB]. destruct (dollars_usd _ Hp) as [_ H53].
  assert (usd (uf_price f) * inject_Z (value (uf_volume f)) <= two ^ 53 * inject_Z (value (uf_volume f)))
    by (apply Qmult_le_compat_r; [done|]; by apply Qlt_le_weak, inject_pos).
  apply Qle_trans with (two ^ 53 * inject_Z (turnover fs + value (uf_volume f))).
  - rewrite inject_Z_plus. lra.
  - apply Qle_trans with (two ^ 53 * inject_Z (2 ^ 53)); [|done].
    apply Qmult_le_l; [apply two_pos|]. rewrite <-Zle_Qle. lia.
Qed.

(** The same fills in both arithmetics. *)
Lemma runs_mirror id fs : fills_countable fs → ∃ uq u, foldM apply_fill fs (user_new id) = Ok uq ∧
  foldM apply_fill fs (user_new id) = Ok u ∧ users_mirror fs uq u.
Proof.
  induction fs as [|f fs IH] using rev_ind; intros Hc.
  { exists (user_new id), (user_new id). split_and!; [done..|]. intros t. exists 0.
    rewrite !holding_of_new. split; [done|apply mirrors_init]. }
  pose proof (proj1 (fills_countable_snoc _ _ Hc)) as Hc'. destruct (IH Hc') as (uq & u & HQ & HR & Hm).
  destruct (fills_cash (Inv:=InvQ) id fs (countable_fills_ok _ Hc')) as (uq' & HQ' & _ & _ & Hpos).
  assert (uq' = uq) as -> by congruence. destruct (Hm (uf_ticker f)) as (T & HT & Hmt).
  pose proof (fill_counts_next fs f uq Hc Hpos T HT) as Hcount.
  destruct (fill_mirrors _ _ (uf_side f) (uf_price f) (uf_volume f) _ _ Hmt Hcount) as (hq' & h' & EQ & ED & Hm').
  rewrite !foldM_app, HQ, HR. cbn [mbind Outcome_bind foldM]. unfold apply_fill, ApplyFill.
  rewrite EQ, ED. eexists _, _. split; [done|]. split; [done|]. intros t. rewrite !holding_of_set.
  rewrite fills_in_snoc. case_decide as Et; [subst t|].
  - eexists. split; [|exact Hm']. rewrite money_moved_snoc, decide_True, HT by done. done.
  - destruct (Hm t) as (Tt & HTt & Hmtt). exists Tt. rewrite Z.add_0_r. split; [|done].
    rewrite money_moved_snoc, decide_False, HTt by done. ring.
Qed.

Lemma refresh_error n T t mid uq u : mirrors n T (holding_of uq t) (holding_of u t) → (0 <= n <= 2 ^ 48)%Z →
  (Z.abs (value (hd_volume_ (holding_of uq t))) < 2 ^ 53)%Z → (0 < value mid < 2 ^ 53)%Z →
  let V := inject_Z (value (hd_volume_ (holding_of uq t))) in let u' := RefreshUnrealizedPnl t mid u in
  Qabs (F (value (RealizedPnl u' t)) + F (value (UnrealizedPnl u' t)) -
    (net_cash (holding_of uq t) + V * usd mid)) <= slack (5 * n + 2) * (T + Qabs V * usd mid).
Proof.
  intros Hm Hn HV Hmid V u'. rewrite RealizedPnl_holding, UnrealizedPnl_holding. unfold u'.
  rewrite Refresh_holding. pose proof (mark_error _ _ _ _ _ Hm Hn HV Hmid) as HM.
  destruct (um_find t (us_inventory_ u)) as [h|] eqn:E.
  - rewrite decide_True by done. assert (holding_of u t = h) as Eh by (unfold holding_of; by rewrite E).
    rewrite Eh in *. change (hd_realizedPnl_ (mark_holding mid h)) with (hd_realizedPnl_ h).
    by eapply equity_error.
  - assert (holding_of u t = holding_init) as Eh by (unfold holding_of; by rewrite E).
    apply (equity_error n T _ _ mid _ Hm Hn). pose proof (mi_volume _ _ _ _ Hm) as Ev. rewrite Eh in *.
    rewrite <-Ev. cbn [hd_unrealizedPnl_ hd_volume_ holding_init value]. change (F (d_of_Z 0)) with 0.
    change (inject_Z 0) with 0. setoid_replace (0 - 0 * (usd mid - value (hd_avgCost_ (holding_of uq t)))) with 0
      using relation Qeq by ring.
    setoid_replace ((usd mid + value (hd_avgCost_ (holding_of uq t))) * Qabs 0) with 0 using relation Qeq
      by (change (Qabs 0) with 0; ring).
    by rewrite Qmult_0_r.
Qed.
Lemma refresh_finite n T t mid uq u : mirrors n T (holding_of uq t) (holding_of u t) →
  (0 <= n <= 2 ^ 48)%Z → (Z.abs (value (hd_volume_ (holding_of uq t))) < 2 ^ 53)%Z →
  (0 < value mid < 2 ^ 53)%Z → holding_finite (holding_of (RefreshUnrealizedPnl t mid u) t).
Proof.
  intros Hm Hn HV Hmid. pose proof (mark_finite _ _ _ _ _ Hm Hn HV Hmid) as HF.
  rewrite Refresh_holding. unfold holding_of in *. destruct (um_find t (us_inventory_ u)) as [h|].
  - by rewrite decide_True.
  - split_and!; by eexists.
Qed.
End Users.

Lemma slack_per_fill n B : (1 <= n)%Z → 0 <= B → slack (5 * n + 2) * B <= inject_Z n * two ^ (-49) * B.
Proof.
  intros Hn HB. apply Qmult_le_compat_r; [|done]. unfold slack.
  rewrite inject_Z_plus, inject_Z_mult. change (inject_Z 5) with 5. change (inject_Z 2) with 2.
  assert (1 <= inject_Z n) as H1 by (change 1 with (inject_Z 1); by rewrite <-Zle_Qle).
  setoid_replace (two ^ (-49)) with (16 * unit_roundoff) using relation Qeq by done.
  pose proof unit_roundoff_small. set (r := unit_roundoff) in *. clearbody r. nra.
Qed.

(** ** Properties *)

(** C21: The P&L is accurate.  Let a user have any fills, in any tickers and directions, closing
    and reversing positions at will (up to 2^48 fills, at positive prices below 2^53, of
    positive volumes below 2^53 in total).  They are booked without failure, in double as in
    exact arithmetic; the positions are those of the ledger.  For every ticker, with n fills
    in it, and every mid price it is marked at (positive, below 2^53): none of the amounts is
    an infinity or a NaN; the average cost of an open position is that of exact arithmetic up
    to a relative error of n 2^-49; and realised plus unrealised P&L, as the doubles say it,
    is the cash received less the cash paid plus the position valued at the mid, up to n 2^-49
    of the dollars that changed hands or are held. *)
Theorem pnl_is_accurate {Ticker Inv InvQ} `{!TickerType Ticker}
    `{!InventoryMap Ticker binary64 Inv} `{!InventoryLaws Ticker binary64 Inv}
    `{!InventoryMap Ticker Q InvQ} `{!InventoryLaws Ticker Q InvQ}
    (id : UserId) (fs : list (UserFill Ticker)) : fills_countable fs →
  ∃ (u : User Inv) (exact : User InvQ), foldM apply_fill fs (user_new id) = Ok u ∧
    foldM apply_fill fs (user_new id) = Ok exact ∧
    ∀ t mid, (0 < value mid < 2 ^ 53)%Z →
      let n := inject_Z (fills_in t fs) in
      let V := inject_Z (ledger_position t fs) in
      let avg := value (hd_avgCost_ (holding_of exact t)) in
      let u' := RefreshUnrealizedPnl t mid u in
      value (Position u t) = ledger_position t fs ∧ value (Position exact t) = ledger_position t fs ∧
      holding_finite (holding_of u' t) ∧
      (ledger_position t fs ≠ 0%Z →
        Qabs (F (value (hd_avgCost_ (holding_of u t))) - avg) <= n * two ^ (-49) * avg) ∧
      Qabs (F (value (RealizedPnl u' t)) + F (value (UnrealizedPnl u' t)) - (ledger_cash t fs + V * usd mid)) <=
        n * two ^ (-49) * (money_moved t fs + Qabs V * usd mid).
Proof.
  intros Hc. destruct (runs_mirror (Inv:=Inv) (InvQ:=InvQ) id fs Hc) as (uq & u & HQ & HR & Hm).
  pose proof (countable_fills_ok fs Hc) as Hok.
  destruct (fills_cash (Inv:=InvQ) id fs Hok) as (uq' & HQ' & _ & Hcash & Hpos).
  assert (uq' = uq) as -> by congruence. exists u, uq. split_and!; [done..|].
  intros t mid Hmid n V avg u'. destruct (Hm t) as (T & HT & Hmt).
  pose proof (mi_volume _ _ _ _ Hmt) as Ev.
  assert (0 <= fills_in t fs <= 2 ^ 48)%Z as Hn.
  { pose proof (fills_in_le t fs). destruct Hc as (_ & _ & ?). unfold fills_in in *. lia. }
  assert (Z.abs (ledger_position t fs) < 2 ^ 53)%Z as HV.
  { pose proof (ledger_position_bound t fs (proj1 Hok)). destruct Hc as (_ & ? & _). lia. }
  split; [by rewrite Position_holding, Ev, Hpos|]. split; [by rewrite Position_holding, Hpos|].
  split; [eapply refresh_finite; [done..|by rewrite Hpos|done]|]. split.
  - intros Hne. rewrite <-Hpos in Hne. destruct (mi_open _ _ _ _ Hmt Hne) as (Hn1 & _ & _ & Hpa & Hd).
    fold avg in Hpa, Hd.
    apply Qle_trans with (slack (5 * fills_in t fs + 2) * avg); [|apply slack_per_fill; [done|lra]].
    apply Qle_trans with (slack (5 * fills_in t fs) * avg); [|apply slack_mono; [lia|lra]].
    apply Qabs_Qle_condition. split; lra.
  - rewrite <-Hpos in HV. pose proof (refresh_error _ T t mid uq u Hmt Hn HV Hmid) as H.
    cbv zeta in H. rewrite Hpos, (Hcash t), HT in H. fold V u' in H. eapply Qle_trans; [exact H|].
    destruct (Z.eq_dec (fills_in t fs) 0%Z) as [E|E].
    + assert (ledger_position t fs = 0%Z) as EV.
      { destruct (Z.eq_dec (ledger_position t fs) 0%Z) as [|Hne]; [done|]. rewrite <-Hpos in Hne.
        destruct (mi_open _ _ _ _ Hmt Hne). lia. }
      unfold V. rewrite EV, (money_moved_none t fs E). change (Qabs (inject_Z 0)) with 0.
      setoid_replace (0 + 0 * usd mid) with 0 using relation Qeq by ring. rewrite !Qmult_0_r. done.
    + apply slack_per_fill; [lia|]. pose proof (money_moved_bounds t fs (proj1 Hc)) as [HM _].
      destruct (dollars_usd mid Hmid) as [Hmid0 _]. pose proof (two_pos (-20)) as P20.
      pose proof (Qmult_le_0_compat (Qabs V) (usd mid) (Qabs_nonneg V) ltac:(lra)). lra.
Qed.

(** Ten shares bought at 100 dollars, fifteen sold at 110, two bought back at 90: short three
    shares, with a P&L of 170 dollars at a mid price of 100. *)
Lemma pnl_is_accurate_witness :
  ∃ (u : User (gmap CTicker (Holding binary64))) (exact : User (gmap CTicker (Holding Q))),
    foldM apply_fill sample_fills (user_new (Strong 7%Z)) = Ok u ∧
    foldM apply_fill sample_fills (user_new (Strong 7%Z)) = Ok exact ∧
    value (Position u AAPL) = (-3)%Z ∧
    let u' := RefreshUnrealizedPnl AAPL (Strong 100000000%Z) u in
    Qabs (F (value (RealizedPnl u' AAPL)) + F (value (UnrealizedPnl u' AAPL)) - 170) <=
      3 * two ^ (-49) * (2830 + 300).
Proof.
  assert (fills_countable sample_fills) as Hc by by apply (bool_decide_unpack _).
  destruct (pnl_is_accurate (TickerType0:=static_str_ops MAX_TICKER_LENGTH)
    (Inv:=gmap CTicker (Holding binary64)) (InvQ:=gmap CTicker (Holding Q)) (Strong 7%Z) sample_fills Hc)
    as (u & exact & HR & HQ & H).
  exists u, exact. split; [exact HR|]. split; [exact HQ|].
  destruct (H AAPL (Strong 100000000%Z)) as (H1 & _ & _ & _ & H4); [split; reflexivity|].
  split; [exact H1|]. cbv zeta in H4 |- *.
  assert (ledger_cash AAPL sample_fills + inject_Z (ledger_position AAPL sample_fills) * usd (Strong 100000000%Z) == 170)
    as E1 by (vm_compute; reflexivity).
  assert (money_moved AAPL sample_fills + Qabs (inject_Z (ledger_position AAPL sample_fills)) * usd (Strong 100000000%Z)
    == 2830 + 300) as E2 by (vm_compute; reflexivity).
  rewrite E1, E2 in H4. exact H4.
Defined.
