(* ===== verification/PnlBalance.v ===== *)
(** * Does the money add up?

    In exact arithmetic the P&L of all participants adds up to zero after any trades.  The
    doubles of the registry follow it: what they add up to is off by less than 2^-48 per
    trade of the money that moved or is held. *)

From Corelib Require Import SpecFloat.
From Stdlib Require Import QArith Qabs Qpower Lqa.
From stdpp Require Import gmap.
From S2P Require Import Prelude Interfaces Double CoreTypes Seqlock FlatMap MatchingEngine BookSpec EngineRefinement EngineSpec EngineInvariant EngineIndex Concrete EngineTheorems MidPrice Router User Accounting Registry Settlement Decimal Rounding Grid MoneyError PnlError.

Local Open Scope Q_scope.

(** ** What the trades move *)

Section Moves.
Context {Ticker : Type} `{!TickerType Ticker} {Index : Type} `{!OrderIndexType Index}.
Notation Settled := (MatchingEngineRouter Index * Trade Ticker)%type.
Implicit Types (t : Ticker) (tr : Trade Ticker) (i : nat) (s : Settled) (ss : list Settled).

(** How often a participant takes part in a trade: as the maker, as the taker, or both. *)
Definition party_count tr i t : Z :=
  if decide (t = tr_ticker_ tr) then
    ((if decide (i = user_index (tr_takerId_ tr)) then 1 else 0) +
     (if decide (i = user_index (tr_makerId_ tr)) then 1 else 0))%Z
  else 0%Z.

Definition trade_money tr : Q := usd (tr_executionPrice_ tr) * inject_Z (value (tr_volume_ tr)).

(** The fills of a participant in a ticker, and the dollars moved in them. *)
Definition fills_of i t ss : Z := sumZ (λ s, party_count s.2 i t) ss.
Definition moved i t ss : Q := sumQ (λ s, inject_Z (party_count s.2 i t) * trade_money s.2) ss.

(** The trades in a ticker, and the dollars moved in them. *)
Definition trades_in t ss : Z := sumZ (λ s, if decide (t = tr_ticker_ s.2) then 1 else 0)%Z ss.
Definition dollars_traded t ss : Q :=
  sumQ (λ s, if decide (t = tr_ticker_ s.2) then trade_money s.2 else 0) ss.

(** Trades a double can count. *)
Definition trades_countable ss : Prop :=
  Forall (λ s, 0 < value (tr_executionPrice_ s.2) < 2 ^ 53)%Z ss ∧
  (sumZ step_volume ss < 2 ^ 52)%Z ∧ (Z.of_nat (length ss) <= 2 ^ 47)%Z.

#[export] Instance trades_countable_dec ss : Decision (trades_countable ss).
Proof. unfold trades_countable. apply _. Defined.

Lemma sumQ_app {A} (f : A → Q) l1 l2 : sumQ f (l1 ++ l2) == sumQ f l1 + sumQ f l2.
Proof. induction l1 as [|a l1 IH]; cbn [app]; [cbn; ring|]. rewrite !sumQ_cons, IH. ring. Qed.

Lemma sumQ_le {A} (f g : A → Q) l : Forall (λ a, f a <= g a) l → sumQ f l <= sumQ g l.
Proof. induction 1; [done|]. rewrite !sumQ_cons. lra. Qed.

Lemma sumQ_abs {A} (f : A → Q) l : Qabs (sumQ f l) <= sumQ (λ a, Qabs (f a)) l.
Proof.
  induction l as [|a l IH]; [done|]. rewrite !sumQ_cons. eapply Qle_trans; [apply Qabs_triangle|lra].
Qed.

Lemma trade_money_pos tr : trade_ok tr → (0 < value (tr_executionPrice_ tr) < 2 ^ 53)%Z → 0 <= trade_money tr.
Proof.
  intros (_ & _ & Hv) Hp. destruct (dollars_usd _ Hp) as [D1 _]. pose proof (two_pos (-20)).
  apply Qmult_le_0_compat; [lra|by apply Qlt_le_weak, inject_pos].
Qed.

Lemma traded_nonneg t ss : Forall (λ s, 0 < value (tr_executionPrice_ s.2) < 2 ^ 53)%Z ss →
  Forall (λ s, trade_ok s.2) ss → 0 <= dollars_traded t ss.
Proof.
  unfold dollars_traded. induction 1 as [|s ss Hp _ IH]; intros Hok; [done|]. apply Forall_cons in Hok as [Hs Hok].
  rewrite sumQ_cons. specialize (IH Hok). pose proof (trade_money_pos s.2 Hs Hp). case_decide; lra.
Qed.

Lemma fills_of_snoc i t ss s : fills_of i t (ss ++ [s]) = (fills_of i t ss + party_count s.2 i t)%Z.
Proof. unfold fills_of. rewrite sumZ_app. cbn. lia. Qed.

Lemma moved_snoc i t ss s :
  moved i t (ss ++ [s]) == moved i t ss + inject_Z (party_count s.2 i t) * trade_money s.2.
Proof. unfold moved. rewrite sumQ_app. cbn [sumQ foldr]. ring. Qed.

Lemma party_count_range tr i t : (0 <= party_count tr i t <= 2)%Z.
Proof. unfold party_count. repeat case_decide; lia. Qed.

Lemma fills_of_range i t ss : (0 <= fills_of i t ss <= 2 * trades_in t ss)%Z ∧
  (trades_in t ss <= Z.of_nat (length ss))%Z.
Proof.
  unfold fills_of, trades_in. induction ss as [|s ss IH]; [done|]. rewrite !sumZ_cons. cbn [length].
  unfold party_count in *. repeat case_decide; lia.
Qed.

(** Each trade is counted twice, once for each side. *)
Lemma party_count_total tr t : trade_ok tr → 
  sumZ (λ i, party_count tr i t) participants = (if decide (t = tr_ticker_ tr) then 2 else 0)%Z.
Proof.
  intros (Hm & Hk & _). unfold party_count. case_decide.
  - rewrite (sumZ_plus (λ i, if decide (i = user_index (tr_takerId_ tr)) then 1 else 0)%Z).
    assert (∀ k, k ∈ participants → sumZ (λ i, if decide (i = k) then 1 else 0)%Z participants = 1%Z) as H1.
    { intros k Hin. rewrite (sumZ_bump (λ _, 0%Z) _ k 1 participants participants_NoDup Hin).
      - assert (∀ l : list nat, sumZ (λ _, 0%Z) l = 0%Z) as -> by (induction l; [done|by rewrite sumZ_cons]). lia.
      - by rewrite decide_True.
      - intros j Hj. by rewrite decide_False. }
    rewrite !H1 by (by apply participant_index). done.
  - induction participants as [|j l IH]; [done|]. by rewrite sumZ_cons.
Qed.

Lemma moved_total t ss : Forall (λ s, trade_ok s.2) ss →
  sumQ (λ i, moved i t ss) participants == 2 * dollars_traded t ss.
Proof.
  induction ss as [|s ss IH]; intros Hok.
  - rewrite (sumQ_ext _ (λ _, inject_Z 0 * 0)) by (intros i; cbn; ring). rewrite sumQ_scale. cbn. ring.
  - apply Forall_cons in Hok as [Hs Hok]. unfold moved, dollars_traded in *.
    rewrite (sumQ_ext _ (λ i, inject_Z (party_count s.2 i t) * trade_money s.2 +
      sumQ (λ s, inject_Z (party_count s.2 i t) * trade_money s.2) ss)) by (intros i; by rewrite sumQ_cons).
    rewrite sumQ_plus, (IH Hok), sumQ_scale, party_count_total, sumQ_cons by done.
    case_decide; [change (inject_Z 2) with 2|change (inject_Z 0) with 0]; ring.
Qed.

Lemma moved_bounds i t ss : Forall (λ s, 0 < value (tr_executionPrice_ s.2) < 2 ^ 53)%Z ss →
  Forall (λ s, trade_ok s.2) ss →
  0 <= moved i t ss <= two ^ 54 * inject_Z (sumZ step_volume ss).
Proof.
  unfold moved. induction 1 as [|s ss Hp _ IH]; intros Hok; [done|]. apply Forall_cons in Hok as [(_ & _ & Hv) Hok].
  rewrite sumQ_cons, sumZ_cons, inject_Z_plus. destruct (IH Hok) as [H1 H2].
  pose proof (party_count_range s.2 i t) as [C1 C2]. rewrite Zle_Qle in C1, C2.
  change (inject_Z 0) with 0 in C1. change (inject_Z 2) with 2 in C2.
  destruct (dollars_usd _ Hp) as [D1 D2]. pose proof (two_pos (-20)). pose proof (inject_pos _ Hv) as HV.
  change (step_volume s) with (value (tr_volume_ s.2)). unfold trade_money.
  set (c := inject_Z (party_count s.2 i t)) in *. set (q := usd _) in *. set (w := inject_Z (value (tr_volume_ s.2))) in *.
  assert (0 <= q * w <= two ^ 53 * w) as B by (split; [apply Qmult_le_0_compat|apply Qmult_le_compat_r]; lra).
  assert (two ^ 54 == 2 * two ^ 53) as E54 by done. rewrite E54 in *.
  assert (0 <= c * (q * w) <= 2 * (q * w)) as B2 by (split; [apply Qmult_le_0_compat|apply Qmult_le_compat_r]; lra).
  set (y := q * w) in *. set (z := c * y) in *. set (x := sumQ _ ss) in *. set (W := inject_Z (sumZ _ ss)) in *.
  set (b := two ^ 53) in *. clearbody y z x W b w. rewrite Qmult_plus_distr_r. split; [lra|].
  rewrite <-(Qmult_assoc 2 b w). lra.
Qed.
End Moves.

(** ** Two registries side by side *)

Lemma mirrors_basis n T (hq hq' : Holding Q) (h h' : Holding binary64) : mirrors n T hq h →
  basis hq' = basis hq → basis h' = basis h → mirrors n T hq' h'.
Proof.
  unfold basis. intros [Mv Mf Mo Mr Mg Me] [= Eq1 Eq2 Eq3] [= E1 E2 E3].
  split; unfold churn in *; rewrite ?Eq1, ?Eq2, ?Eq3, ?E1, ?E2, ?E3; done.
Qed.

Lemma mirrors_money n T T' (hq : Holding Q) (h : Holding binary64) : T == T' → mirrors n T hq h → mirrors n T' hq h.
Proof.
  intros E [Mv Mf Mo Mr Mg Me]. assert (churn T hq == churn T' hq) as EC by (unfold churn; by rewrite E).
  rewrite EC in Mr, Me. by split.
Qed.

Section Registries.
Context {Ticker : Type} `{!TickerType Ticker} {Index : Type} `{!OrderIndexType Index}.
Context {Inv : Type} `{!InventoryMap Ticker binary64 Inv} `{!InventoryLaws Ticker binary64 Inv}.
Context {InvQ : Type} `{!InventoryMap Ticker Q InvQ} `{!InventoryLaws Ticker Q InvQ}.
Notation Settled := (MatchingEngineRouter Index * Trade Ticker)%type.
Implicit Types (t : Ticker) (tr : Trade Ticker) (i : nat) (s : Settled) (ss : list Settled)
  (r : UserRegistry Inv) (rq : UserRegistry InvQ).

(** After a fill of the trade [tr], as one of its sides. *)
Lemma side_mirrors n T side tr hq h : mirrors n T hq h →
  fill_counts n T (tr_executionPrice_ tr) (tr_volume_ tr) hq → ∀ hq' h',
  fill_holding side (tr_executionPrice_ tr) (tr_volume_ tr) hq = Ok hq' →
  fill_holding side (tr_executionPrice_ tr) (tr_volume_ tr) h = Ok h' →
  mirrors (n + 1) (T + trade_money tr) hq' h'.
Proof.
  intros Hm Hc hq' h' EQ ED. destruct (fill_mirrors _ _ side _ _ _ _ Hm Hc) as (hq1 & h1 & EQ1 & ED1 & H).
  rewrite EQ in EQ1. rewrite ED in ED1. by simplify_eq.
Qed.

(** What a trade needs for its two fills to be counted. *)
Definition trade_counts (n : nat → Ticker → Z) (T : nat → Ticker → Q) tr rq : Prop :=
  (0 < value (tr_executionPrice_ tr) < 2 ^ 53)%Z ∧
  ∀ i, (0 <= n i (tr_ticker_ tr) ∧ n i (tr_ticker_ tr) + 1 < 2 ^ 48)%Z ∧
    (Z.abs (volume_at rq i (tr_ticker_ tr)) + 2 * value (tr_volume_ tr) < 2 ^ 53)%Z ∧
    T i (tr_ticker_ tr) + 2 * trade_money tr <= two ^ 200.

(** The two fills of a trade: the maker's, then the taker's (on top of it, if they are one). *)
Lemma sides_mirror n T tr rq r q1 q2 h1 h2 : trade_ok tr → trade_counts n T tr rq →
  (∀ i t, mirrors (n i t) (T i t) (hold rq i t) (hold r i t)) →
  let p := tr_executionPrice_ tr in let v := tr_volume_ tr in let t := tr_ticker_ tr in
  let m := user_index (tr_makerId_ tr) in let k := user_index (tr_takerId_ tr) in
  let side := tr_takerSide_ tr in let c := (if decide (m = k) then 2 else 1)%Z in
  fill_holding (opposite side) p v (hold rq m t) = Ok q1 → fill_holding (opposite side) p v (hold r m t) = Ok h1 →
  fill_holding side p v (if decide (m = k) then q1 else hold rq k t) = Ok q2 →
  fill_holding side p v (if decide (m = k) then h1 else hold r k t) = Ok h2 →
  mirrors (n m t + 1) (T m t + trade_money tr) q1 h1 ∧
  mirrors (n k t + c) (T k t + inject_Z c * trade_money tr) q2 h2.
Proof.
  intros Hok [Hp Hb] Hm p v t m k side c Q1 D1 Q2 D2. pose proof Hok as (_ & _ & Hv).
  pose proof (trade_money_pos tr Hok Hp) as HM.
  assert (∀ i, fill_counts (n i t) (T i t) p v (hold rq i t)) as Hc.
  { intros i. destruct (Hb i) as (B1 & B2 & B3). unfold volume_at in B2. unfold p, v, t.
    split_and!; [lia..|]. fold (trade_money tr). lra. }
  assert (mirrors (n m t + 1) (T m t + trade_money tr) q1 h1) as M1
    by (by eapply side_mirrors; [apply Hm|apply Hc|exact Q1|exact D1]).
  split; [done|]. unfold c. case_decide as Emk; cycle 1.
  { eapply mirrors_money; [|eapply side_mirrors; [apply Hm|apply Hc|exact Q2|exact D2]].
    change (inject_Z 1) with 1. ring. }
  rewrite Emk in M1. destruct (Hb k) as (B1 & B2 & B3). fold t v in B1, B2, B3.
  replace (n k t + 2)%Z with (n k t + 1 + 1)%Z by lia.
  eapply mirrors_money; [|eapply side_mirrors; [exact M1| |exact Q2|exact D2]].
  { change (inject_Z 2) with 2. ring. }
  pose proof (fill_holding_volume _ _ _ _ _ (counts_fit _ _ (opposite side) _ _ _ _ (Hc m) eq_refl) Q1) as EV.
  rewrite Emk in EV. unfold volume_at in B2. unfold p, v, t in *.
  split_and!; [lia..| |]; [rewrite EV; destruct (opposite side); cbn [delta]; lia|].
  fold (trade_money tr). lra.
Qed.

(** One trade in both. *)
Lemma settle_mirrors n T (router : MatchingEngineRouter Index) tr rq r :
  registry_sized rq → registry_sized r → trade_ok tr → mid_readable router (tr_ticker_ tr) →
  room_for tr rq → trade_counts n T tr rq → (∀ i t, mirrors (n i t) (T i t) (hold rq i t) (hold r i t)) →
  ∃ rq' r', settle_trade router tr rq = Ok rq' ∧ settle_trade router tr r = Ok r' ∧
    ∀ i t, mirrors (n i t + party_count tr i t) (T i t + inject_Z (party_count tr i t) * trade_money tr)
      (hold rq' i t) (hold r' i t).
Proof.
  intros Hsq Hs Hok Hmid Hroom Hb Hm.
  assert (room_for tr r) as Hroom'.
  { intros i. unfold volume_at. rewrite (mi_volume _ _ _ _ (Hm i _)). apply Hroom. }
  destruct (settle_trade_spec router tr rq Hsq Hok Hmid Hroom) as (rq' & q1 & q2 & RQ & _ & _ & _ & Q1 & _ & Q2 & BQ).
  destruct (settle_trade_spec router tr r Hs Hok Hmid Hroom') as (r' & h1 & h2 & RD & _ & _ & _ & D1 & _ & D2 & BD).
  exists rq', r'. split; [done|]. split; [done|].
  destruct (sides_mirror n T tr rq r q1 q2 h1 h2 Hok Hb Hm Q1 D1 Q2 D2) as [M1 M2].
  intros i t. eapply mirrors_basis; [|apply BQ|apply BD]. unfold party_count.
  assert (mirrors (n i t + 0) (T i t + inject_Z 0 * trade_money tr) (hold rq i t) (hold r i t)) as M0.
  { rewrite Z.add_0_r. eapply mirrors_money; [|apply Hm]. change (inject_Z 0) with 0. ring. }
  destruct (decide (t = tr_ticker_ tr)) as [->|]; [|done].
  set (m := user_index (tr_makerId_ tr)) in *. set (k := user_index (tr_takerId_ tr)) in *.
  destruct (decide (i = k)) as [->|].
  - destruct (decide (k = m)) as [E|E]; [rewrite decide_True in M2 by done|rewrite decide_False in M2 by done]; exact M2.
  - destruct (decide (i = m)) as [->|]; [|exact M0].
    eapply mirrors_money; [|exact M1]. change (inject_Z (0 + 1)) with 1. ring.
Qed.

Lemma countable_snoc_trade ss s : trades_countable (ss ++ [s]) → (0 < step_volume s)%Z →
  trades_countable ss ∧ (0 < value (tr_executionPrice_ s.2) < 2 ^ 53)%Z ∧
  (sumZ step_volume ss + step_volume s < 2 ^ 52)%Z ∧ (Z.of_nat (length ss) < 2 ^ 47)%Z.
Proof.
  unfold trades_countable. rewrite Forall_app, Forall_singleton, sumZ_app, length_app.
  cbn [length sumZ foldr]. intros ([H1 H2] & H3 & H4) Hv. split_and!; first [done|lia].
Qed.

Lemma run_counts ss s rq : settlements_ok (ss ++ [s]) → trades_countable (ss ++ [s]) →
  (∀ i t, volume_at rq i t = sumZ (λ s, position_change s.2 i t) ss) →
  trade_counts (λ i t, fills_of i t ss) (λ i t, moved i t ss) s.2 rq.
Proof.
  intros (Hss & Hs & _)%settlements_ok_snoc Hc Hpos. pose proof Hs as (_ & _ & Hv).
  destruct (countable_snoc_trade _ _ Hc Hv) as (Hc' & Hp & Hvol & Hlen).
  split; [done|]. intros i. rewrite Hpos. set (t := tr_ticker_ s.2).
  pose proof (changes_bound ss i t (proj1 Hss)) as HB. pose proof (fills_of_range i t ss) as HF.
  change (step_volume s) with (value (tr_volume_ s.2)) in Hvol.
  split; [lia|]. split; [lia|].
  assert (Forall (λ s, trade_ok s.2) ss) as Hok by (eapply Forall_impl; [apply Hss|]; by intros x [? _]).
  destruct (moved_bounds i t ss (proj1 Hc') Hok) as [_ HM].
  assert (2 * trade_money s.2 <= two ^ 54 * inject_Z (value (tr_volume_ s.2))) as HT.
  { destruct (dollars_usd _ Hp) as [_ D2]. pose proof (inject_pos _ Hv). unfold trade_money.
    setoid_replace (two ^ 54) with (2 * two ^ 53) using relation Qeq by done. rewrite <-Qmult_assoc.
    apply Qmult_le_l; [done|]. apply Qmult_le_compat_r; lra. }
  apply Qle_trans with (two ^ 54 * inject_Z (sumZ step_volume ss + value (tr_volume_ s.2))).
  - rewrite inject_Z_plus, Qmult_plus_distr_r. lra.
  - apply Qle_trans with (two ^ 54 * inject_Z (2 ^ 52)); [|done].
    apply Qmult_le_l; [apply two_pos|]. rewrite <-Zle_Qle. lia.
Qed.

(** The same trades in both arithmetics. *)
Lemma settlements_mirror ss : settlements_ok ss → trades_countable ss →
  ∃ rq r, foldM settle_step ss registry_init = Ok rq ∧ foldM settle_step ss registry_init = Ok r ∧
    ∀ i t, mirrors (fills_of i t ss) (moved i t ss) (hold rq i t) (hold r i t).
Proof.
  induction ss as [|s ss IH] using rev_ind; intros Hok Hc.
  { exists registry_init, registry_init. split; [done|]. split; [done|]. intros i t.
    rewrite !registry_init_hold. apply mirrors_init. }
  destruct (settlements_ok_snoc _ _ Hok) as (Hss & Hs & Hmid & Hv). pose proof Hs as (_ & _ & Hvs).
  destruct (IH Hss (proj1 (countable_snoc_trade _ _ Hc Hvs))) as (rq & r & HQ & HR & Hm).
  destruct (settlement_run (Inv:=InvQ) ss Hss) as (rq1 & HQ1 & Hszq & _ & Hpq).
  destruct (settlement_run (Inv:=Inv) ss Hss) as (r1 & HR1 & Hsz & _ & _).
  assert (rq1 = rq ∧ r1 = r) as [-> ->] by (split; congruence).
  pose proof (run_counts ss s rq Hok Hc Hpq) as Hcount. pose proof (run_room ss s rq Hss Hv Hpq) as Hroom.
  destruct (settle_mirrors _ _ s.1 s.2 rq r Hszq Hsz Hs Hmid Hroom Hcount Hm) as (rq' & r' & EQ & ED & Hm').
  exists rq', r'. rewrite !foldM_app, HQ, HR. cbn [mbind Outcome_bind foldM]. unfold settle_step at 1 2.
  rewrite EQ, ED. split; [done|]. split; [done|]. intros i t. rewrite fills_of_snoc.
  eapply mirrors_money; [|apply Hm']. by rewrite moved_snoc.
Qed.
End Registries.

(** ** Errors add up *)

Lemma double_equity_error n T (hq : Holding Q) (h : Holding binary64) mid : mirrors n T hq h → (0 <= n <= 2 ^ 48)%Z →
  (Z.abs (value (hd_volume_ hq)) < 2 ^ 53)%Z → (0 < value mid < 2 ^ 53)%Z →
  Qabs (F (value (hd_realizedPnl_ (mark_holding mid h))) + F (value (hd_unrealizedPnl_ (mark_holding mid h))) -
    equity hq mid) <= slack (5 * n + 2) * (T + Qabs (inject_Z (value (hd_volume_ hq))) * usd mid).
Proof.
  intros Hm Hn HV Hmid. rewrite equity_net_cash.
  change (hd_realizedPnl_ (mark_holding mid h)) with (hd_realizedPnl_ h).
  eapply equity_error; [done..|]. by eapply mark_error.
Qed.

(** Sums that are close term by term. *)
Lemma sumQ_close {A} (f g e : A → Q) l : (∀ a, Qabs (f a - g a) <= e a) →
  Qabs (sumQ f l - sumQ g l) <= sumQ e l.
Proof.
  intros H. eapply Qle_trans; [|apply (sumQ_le (λ a, Qabs (f a - g a))), Forall_forall; intros; apply H].
  eapply Qle_trans; [|apply sumQ_abs].
  setoid_replace (sumQ f l - sumQ g l) with (sumQ (λ a, f a - g a) l) using relation Qeq; [apply Qle_refl|].
  induction l as [|a l IH]; [done|]. rewrite !sumQ_cons, <-IH. ring.
Qed.

Lemma sumQ_mult_l {A} (f : A → Q) c l : sumQ (λ a, c * f a) l == c * sumQ f l.
Proof. induction l as [|a l IH]; [cbn; ring|]. rewrite !sumQ_cons, IH. ring. Qed.

Lemma slack_per_trade n B : (1 <= n)%Z → 0 <= B → slack (10 * n + 2) * B <= inject_Z n * two ^ (-48) * B.
Proof.
  intros Hn HB. apply Qmult_le_compat_r; [|done]. unfold slack.
  rewrite inject_Z_plus, inject_Z_mult. change (inject_Z 10) with 10. change (inject_Z 2) with 2.
  assert (1 <= inject_Z n) as H1 by (change 1 with (inject_Z 1); by rewrite <-Zle_Qle).
  setoid_replace (two ^ (-48)) with (32 * unit_roundoff) using relation Qeq by done.
  pose proof unit_roundoff_small. set (r := unit_roundoff) in *. clearbody r. nra.
Qed.

Section Balance.
Context {Ticker : Type} `{!TickerType Ticker} {Index : Type} `{!OrderIndexType Index}.
Context {Inv : Type} `{!InventoryMap Ticker binary64 Inv} `{!InventoryLaws Ticker binary64 Inv}.
Context {InvQ : Type} `{!InventoryMap Ticker Q InvQ} `{!InventoryLaws Ticker Q InvQ}.
Notation Settled := (MatchingEngineRouter Index * Trade Ticker)%type.
Implicit Types (t : Ticker) (ss : list Settled) (r : UserRegistry Inv) (rq : UserRegistry InvQ).

(** The P&L of one participant as the doubles say it, marked at a mid price. *)
Definition double_equity (h : Holding binary64) (mid : Price) : Q :=
  F (value (hd_realizedPnl_ (mark_holding mid h))) + F (value (hd_unrealizedPnl_ (mark_holding mid h))).

(** The shares that all participants together are long or short. *)
Definition held_in r t : Z := sumZ (λ i, Z.abs (volume_at r i t)) participants.

Lemma nothing_traded t ss : trades_in t ss = 0%Z →
  dollars_traded t ss == 0 ∧ ∀ i, sumZ (λ s, position_change s.2 i t) ss = 0%Z.
Proof.
  induction ss as [|s ss IH]; [done|]. intros E.
  assert (trades_in t ss = 0 ∧ t ≠ tr_ticker_ s.2)%Z as [E0 Hne].
  { pose proof (fills_of_range 0 t ss). unfold trades_in in *. rewrite sumZ_cons in E.
    case_decide; [lia|]. split; [lia|done]. }
  destruct (IH E0) as [IH1 IH2]. unfold dollars_traded in *. split.
  - rewrite sumQ_cons, IH1, decide_False by done. ring.
  - intros i. rewrite sumZ_cons, IH2. unfold position_change. by rewrite decide_False.
Qed.

Lemma participant_finite ss rq r t mid i : settlements_ok ss → trades_countable ss →
  foldM settle_step ss registry_init = Ok r →
  mirrors (fills_of i t ss) (moved i t ss) (hold rq i t) (hold r i t) → (0 < value mid < 2 ^ 53)%Z →
  holding_finite (mark_holding mid (hold r i t)).
Proof.
  intros Hok (Hc1 & Hc2 & Hc3) HR Hm Hmid.
  destruct (settlement_run (Inv:=Inv) ss Hok) as (r1 & HR1 & _ & _ & Hp).
  assert (r1 = r) as -> by congruence.
  pose proof (mi_volume _ _ _ _ Hm) as Ev. pose proof (fills_of_range i t ss) as [Hf1 Hf2].
  pose proof (changes_bound ss i t (proj1 Hok)) as Hb. rewrite <-Hp in Hb.
  unfold volume_at in *. rewrite Ev in *. eapply mark_finite; [done|lia|lia|done].
Qed.

Lemma total_error ss rq r t mid : settlements_ok ss → trades_countable ss →
  foldM settle_step ss registry_init = Ok r →
  (∀ i, mirrors (fills_of i t ss) (moved i t ss) (hold rq i t) (hold r i t)) → (0 < value mid < 2 ^ 53)%Z →
  Qabs (sumQ (λ i, double_equity (hold r i t) mid) participants - sumQ (λ i, equity (hold rq i t) mid) participants) <=
    slack (10 * trades_in t ss + 2) * (2 * dollars_traded t ss + inject_Z (held_in r t) * usd mid).
Proof.
  intros Hok Hc HR Hm Hmid.
  destruct (settlement_run (Inv:=Inv) ss Hok) as (r1 & HR1 & _ & _ & Hp).
  assert (r1 = r) as -> by congruence.
  assert (Forall (λ s, trade_ok s.2) ss) as Htr by (eapply Forall_impl; [apply Hok|]; by intros x [? _]).
  set (K := slack (10 * trades_in t ss + 2)).
  eapply Qle_trans; [apply (sumQ_close _ _ (λ i, K * (moved i t ss + inject_Z (Z.abs (volume_at r i t)) * usd mid)))|].
  - intros i. pose proof (mi_volume _ _ _ _ (Hm i)) as Ev. pose proof (fills_of_range i t ss) as [Hf1 Hf2].
    destruct Hc as (Hc1 & Hc2 & Hc3). pose proof (changes_bound ss i t (proj1 Hok)) as Hb. rewrite <-Hp in Hb.
    unfold volume_at in *. rewrite Ev in *.
    eapply Qle_trans; [apply (double_equity_error _ _ _ _ _ (Hm i)); [lia..|done]|].
    apply slack_mono; [lia|]. destruct (dollars_usd _ Hmid) as [D1 _]. pose proof (two_pos (-20)).
    apply (Qplus_le_compat 0 _ 0); [by apply moved_bounds|].
    apply (Qmult_le_0_compat _ _ (Qabs_nonneg (inject_Z (value (hd_volume_ (hold rq i t)))))). lra.
  - rewrite sumQ_mult_l, sumQ_plus, moved_total, sumQ_scale by done. apply Qle_refl.
Qed.
End Balance.

(** ** Properties *)

(** C5: Trading creates no money.  Settle any trades between participants, of positive
    volumes with a total that fits in 64 bits, each while the mid price can be read: all of
    them settle.  In exact arithmetic, for every ticker and every mid price, the realised P&L
    plus the open position marked at the mid, summed over all participants, is zero.  In the
    double arithmetic of the program, for up to 2^47 trades at positive prices below 2^53 and
    of a total volume below 2^52, and for every mid price that is positive and below 2^53:
    every participant's P&L is a number (no infinity, no NaN), and their sum is at most
    n 2^-48 of the money in play, for n trades in the ticker: of the dollars both sides of its
    trades moved plus the dollars all its open positions are worth. *)
Theorem pnl_balances {Ticker Inv InvQ Index} `{!TickerType Ticker}
    `{!InventoryMap Ticker binary64 Inv} `{!InventoryLaws Ticker binary64 Inv}
    `{!InventoryMap Ticker Q InvQ} `{!InventoryLaws Ticker Q InvQ} `{!OrderIndexType Index}
    (ss : list (MatchingEngineRouter Index * Trade Ticker)) :
  settlements_ok ss →
  ∃ (r : UserRegistry Inv) (exact : UserRegistry InvQ),
    foldM settle_step ss registry_init = Ok r ∧ foldM settle_step ss registry_init = Ok exact ∧
    (∀ t mid, sumQ (λ i, equity (hold exact i t) mid) participants == 0) ∧
    (trades_countable ss → ∀ t mid, (0 < value mid < 2 ^ 53)%Z →
      (∀ i, holding_finite (mark_holding mid (hold r i t))) ∧
      Qabs (sumQ (λ i, double_equity (hold r i t) mid) participants) <=
        inject_Z (trades_in t ss) * two ^ (-48) * (2 * dollars_traded t ss + inject_Z (held_in r t) * usd mid)).
Proof.
  intros Hok. destruct (settlement_run (Inv:=Inv) ss Hok) as (r & HR & _ & _ & Hp).
  destruct (settlement_run (Inv:=InvQ) ss Hok) as (rq & HQ & _ & _ & _).
  assert (∀ t mid, sumQ (λ i, equity (hold rq i t) mid) participants == 0) as Hzero
    by (intros t mid; by apply (equity_total ss)).
  exists r, rq. split; [done|]. split; [done|]. split; [done|]. intros Hc t mid Hmid.
  destruct (settlements_mirror (Inv:=Inv) (InvQ:=InvQ) ss Hok Hc) as (rq1 & r1 & HQ1 & HR1 & Hm).
  assert (rq1 = rq ∧ r1 = r) as [-> ->] by (split; congruence).
  split; [intros i; by apply (participant_finite ss rq r t mid i Hok Hc HR (Hm i t) Hmid)|].
  pose proof (total_error ss rq r t mid Hok Hc HR (λ i, Hm i t) Hmid) as H.
  rewrite Hzero in H. setoid_replace (sumQ (λ i, double_equity (hold r i t) mid) participants - 0)
    with (sumQ (λ i, double_equity (hold r i t) mid) participants) using relation Qeq in H by ring.
  eapply Qle_trans; [exact H|].
  destruct (Z.eq_dec (trades_in t ss) 0%Z) as [E|E].
  - destruct (nothing_traded t ss E) as [-> Hv].
    assert (held_in r t = 0%Z) as ->.
    { unfold held_in. assert (∀ l, sumZ (λ i, Z.abs (volume_at r i t)) l = 0%Z) as H0; [|apply H0].
      induction l as [|i l IH]; [done|]. by rewrite sumZ_cons, IH, Hp, Hv. }
    change (inject_Z 0) with 0. setoid_replace (2 * 0 + 0 * usd mid) with 0 using relation Qeq by ring.
    rewrite !Qmult_0_r. done.
  - pose proof (fills_of_range 0 t ss). apply slack_per_trade; [lia|].
    assert (Forall (λ s, trade_ok s.2) ss) as Htr by (eapply Forall_impl; [apply Hok|]; by intros x [? _]).
    pose proof (traded_nonneg t ss (proj1 Hc) Htr) as HT. destruct (dollars_usd _ Hmid) as [D1 _].
    pose proof (two_pos (-20)). apply (Qplus_le_compat 0 _ 0); [lra|]. apply Qmult_le_0_compat; [|lra].
    change 0 with (inject_Z 0). rewrite <-Zle_Qle. apply sumZ_nonneg, Forall_forall. intros i _. apply Z.abs_nonneg.
Qed.

(** The three trades of the samples, marked at a price that no double is. *)
Lemma pnl_balances_witness :
  trades_countable sample_settlements ∧
  ∃ (r : UserRegistry (gmap CTicker (Holding binary64))) (exact : QReg),
    foldM settle_step sample_settlements registry_init = Ok r ∧
    foldM settle_step sample_settlements registry_init = Ok exact ∧
    (∀ t mid, sumQ (λ i, equity (hold exact i t) mid) participants == 0) ∧
    (∀ i, holding_finite (mark_holding (Strong 100000001%Z) (hold r i AAPL))) ∧
    Qabs (sumQ (λ i, double_equity (hold r i AAPL) (Strong 100000001%Z)) participants) <=
      inject_Z (trades_in AAPL sample_settlements) * two ^ (-48) *
        (2 * dollars_traded AAPL sample_settlements + inject_Z (held_in r AAPL) * usd (Strong 100000001%Z)).
Proof.
  assert (trades_countable sample_settlements) as Hc by by apply (bool_decide_unpack _).
  split; [exact Hc|].
  destruct (pnl_balances (TickerType0:=static_str_ops MAX_TICKER_LENGTH)
    (Inv:=gmap CTicker (Holding binary64)) (InvQ:=gmap CTicker (Holding Q)) sample_settlements)
    as (r & exact & H1 & H2 & H3 & H4); [by apply (bool_decide_unpack _)|].
  exists r, exact. split; [exact H1|]. split; [exact H2|]. split; [exact H3|].
  apply (H4 Hc AAPL (Strong 100000001%Z)). split; reflexivity.
Defined.

(** One share at ten cents and two at twenty, marked at thirty cents. *)
Definition cent_trades : list (MatchingEngineRouter CIndex * Trade CTicker) :=
  (λ tr, (router_init (Ticker:=CTicker), tr)) <$> [sample_trade 1 2 Buy 100000 1; sample_trade 3 2 Buy 200000 2].

(** In double it does not balance to the last bit: two trades leave 3 2^-55 dollars over. *)
Theorem doubles_do_not_balance :
  match foldM settle_step cent_trades (registry_init : FReg) with
  | Ok r => sumQ (λ i, double_equity (hold r i AAPL) (Strong 300000%Z)) participants == 3 * two ^ (-55)
  | _ => False
  end.
Proof. vm_compute. reflexivity. Qed.
