(* ===== verification/SnapshotText.v ===== *)
(** * The snapshot file (common/engine/user_registry.hpp)

    The text WriteSnapshot writes: a header line and one line of comma-separated fields
    per holding.  A reader of such files gets back every row, with the user, the ticker
    and the position as they are and the amounts to six significant digits. *)

From Stdlib Require Import Strings.Byte Strings.String.
From stdpp Require Import gmap.
From Stdlib Require Import QArith.
From S2P Require Import Prelude Interfaces Double CoreTypes Seqlock FlatMap MatchingEngine BookSpec EngineRefinement EngineSpec EngineInvariant EngineIndex Concrete EngineTheorems MidPrice Router User Accounting Registry Decimal.

Local Open Scope Z_scope.

Definition comma : byte := x2c.
Definition newline : byte := x0a.

(** ** Writing *)

Definition snapshot_header : list byte :=
  list_byte_of_string "userId,ticker,position,avgCost,realizedPnl,unrealizedPnl" ++ [newline].

Section Writing.
Context {Ticker : Type} `{!TickerType Ticker}.
Context {Inv : Type} `{!InventoryMap Ticker binary64 Inv}.
(** The sign a NaN is printed with. *)
Context (nan_sign : bool).

(** One line. *)
Definition row_text (row : SnapshotRow binary64 Ticker) : list byte :=
  let holding := row_holding row in
  print_Z (value (row_userId row)) ++ comma :: ss_data (row_ticker row) ++ comma ::
  print_Z (value (hd_volume_ holding)) ++ comma :: print_double nan_sign (value (hd_avgCost_ holding)) ++ comma ::
  print_double nan_sign (value (hd_realizedPnl_ holding)) ++ comma ::
  print_double nan_sign (value (hd_unrealizedPnl_ holding)) ++ [newline].

Definition snapshot_text (rows : list (SnapshotRow binary64 Ticker)) : list byte :=
  snapshot_header ++ (rows ≫= row_text).

(** WriteSnapshot as it leaves the file. *)
Definition WriteSnapshot_text (opens : bool) (r : UserRegistry Inv) : Outcome (list byte) :=
  rows ← WriteSnapshot opens r; Ok (snapshot_text rows).
End Writing.

(** ** Reading *)

(** The pieces between separators. *)
Fixpoint split_on (sep : byte) (l : list byte) : list (list byte) :=
  match l with
  | [] => [[]]
  | b :: l' =>
      if decide (b = sep) then [] :: split_on sep l'
      else match split_on sep l' with
           | piece :: pieces => (b :: piece) :: pieces
           | [] => [[b]]
           end
  end.

Record ReadRow := mkReadRow {
  rr_userId : Z;
  rr_ticker : list byte;
  rr_position : Z;
  rr_avgCost : option Q;
  rr_realizedPnl : option Q;
  rr_unrealizedPnl : option Q;
}.

Definition read_row (line : list byte) : option ReadRow :=
  match split_on comma line with
  | [user; ticker; position; avg; realized; unrealized] =>
      user ← read_Z user; position ← read_Z position;
      Some (mkReadRow user ticker position (read_double avg) (read_double realized) (read_double unrealized))
  | _ => None
  end.

(** The lines of a file, without the header; the last newline ends the last line. *)
Definition read_snapshot (text : list byte) : option (list ReadRow) :=
  match split_on newline text with
  | _ :: lines => mapM read_row (take (length lines - 1) lines)
  | [] => None
  end.

Lemma split_on_app sep l1 l2 : sep ∉ l1 → split_on sep (l1 ++ sep :: l2) = l1 :: split_on sep l2.
Proof.
  induction l1 as [|b l1 IH]; intros Hn; cbn [split_on app]; [by rewrite decide_True|].
  rewrite decide_False by set_solver. by rewrite IH by set_solver.
Qed.

Lemma split_on_last sep l : sep ∉ l → split_on sep l = [l].
Proof.
  induction l as [|b l IH]; intros Hn; [done|]. cbn [split_on].
  rewrite decide_False by set_solver. by rewrite IH by set_solver.
Qed.

(** Many pieces, each ended by the separator. *)
Lemma split_on_lines sep (lines : list (list byte)) : Forall (λ l, sep ∉ l) lines →
  split_on sep (lines ≫= (λ l, l ++ [sep])) = lines ++ [[]].
Proof.
  induction 1 as [|l lines Hl _ IH]; [done|]. cbn [mbind list_bind app].
  rewrite <-(assoc_L (++)). cbn [app]. by rewrite split_on_app, IH.
Qed.

(** ** Properties *)

Section Reading.
Context {Ticker : Type} `{!TickerType Ticker}.
Context (nan_sign : bool).
Implicit Types (row : SnapshotRow binary64 Ticker).

(** A ticker that can be a field of the file. *)
Definition clean_ticker (t : Ticker) : Prop := comma ∉ ss_data t ∧ newline ∉ ss_data t.

(** What the file tells of a row. *)
Record row_shown row (got : ReadRow) : Prop := {
  rs_userId : rr_userId got = value (row_userId row);
  rs_ticker : rr_ticker got = ss_data (row_ticker row);
  rs_position : rr_position got = value (hd_volume_ (row_holding row));
  rs_avgCost : amount_shown (value (hd_avgCost_ (row_holding row))) (rr_avgCost got);
  rs_realizedPnl : amount_shown (value (hd_realizedPnl_ (row_holding row))) (rr_realizedPnl got);
  rs_unrealizedPnl : amount_shown (value (hd_unrealizedPnl_ (row_holding row))) (rr_unrealizedPnl got);
}.

Lemma number_no_separator l : Forall number_char l → comma ∉ l ∧ newline ∉ l.
Proof.
  rewrite Forall_forall. intros H. split; intros Hin%H; destruct Hin as [[d Hd]|[?|[?|[?|Hin]]]];
    (done || by vm_compute in Hin; repeat (apply elem_of_cons in Hin as [?|Hin]; [done|]);
     apply elem_of_nil in Hin).
Qed.

(** A line, without its newline. *)
Definition row_line row : list byte :=
  let h := row_holding row in
  print_Z (value (row_userId row)) ++ comma :: ss_data (row_ticker row) ++ comma ::
  print_Z (value (hd_volume_ h)) ++ comma :: print_double nan_sign (value (hd_avgCost_ h)) ++ comma ::
  print_double nan_sign (value (hd_realizedPnl_ h)) ++ comma ::
  print_double nan_sign (value (hd_unrealizedPnl_ h)).

Lemma row_text_line row : row_text nan_sign row = row_line row ++ [newline].
Proof. unfold row_text, row_line. by repeat (rewrite <-?(assoc_L (++)); cbn [app]; f_equal). Qed.

Lemma row_line_no_newline row : clean_ticker (row_ticker row) → newline ∉ row_line row.
Proof.
  intros [_ Hc]. unfold row_line.
  repeat first [rewrite elem_of_app|rewrite elem_of_cons].
  pose proof (λ n, proj2 (number_no_separator _ (print_Z_chars n))).
  pose proof (λ x, proj2 (number_no_separator _ (print_double_chars nan_sign x))).
  assert (newline ≠ comma) by done. naive_solver.
Qed.

Lemma read_row_line row : clean_ticker (row_ticker row) →
  ∃ got, read_row (row_line row) = Some got ∧ row_shown row got.
Proof.
  intros [Hc _]. unfold read_row, row_line.
  pose proof (λ n, proj1 (number_no_separator _ (print_Z_chars n))).
  pose proof (λ x, proj1 (number_no_separator _ (print_double_chars nan_sign x))).
  rewrite !split_on_app, split_on_last by done. rewrite !read_print_Z. cbn [mbind option_bind].
  eexists. split; [done|]. by split; try apply read_print_double.
Qed.

Lemma read_rows rows : Forall (λ row, clean_ticker (row_ticker row)) rows →
  ∃ got, mapM read_row (row_line <$> rows) = Some got ∧ Forall2 row_shown rows got.
Proof.
  induction 1 as [|row rows Hc _ (got & HR & Hs)]; [by exists []|].
  destruct (read_row_line row Hc) as (g & Hg & Hsg). exists (g :: got).
  split; [|by constructor]. cbn. by rewrite Hg, HR.
Qed.

Lemma read_snapshot_text rows : Forall (λ row, clean_ticker (row_ticker row)) rows →
  ∃ got, read_snapshot (snapshot_text nan_sign rows) = Some got ∧ Forall2 row_shown rows got.
Proof.
  intros Hc. unfold read_snapshot, snapshot_text, snapshot_header.
  rewrite <-(assoc_L (++)). cbn [app]. rewrite split_on_app by (vm_compute; set_solver).
  assert ((rows ≫= row_text nan_sign) = ((row_line <$> rows) ≫= (λ l, l ++ [newline]))) as ->.
  { rewrite list_fmap_bind. apply list_bind_ext; [|done]. intros row. by rewrite row_text_line. }
  rewrite split_on_lines.
  - rewrite length_app. cbn [length]. rewrite Nat.add_sub, take_app_length. by apply read_rows.
  - apply Forall_fmap. by eapply Forall_impl; [|intros row; apply row_line_no_newline].
Qed.
End Reading.
