(* ===== verification/Bytes.v ===== *)
(** * Memory of packed structs

    Objects of #pragma pack(1) structs are lists of bytes; a member access reads or
    writes at the member's offset.  Integers are two's complement, little-endian. *)

From Stdlib Require Import Strings.Byte.
From S2P Require Import Prelude.

Local Open Scope Z_scope.

(** ** Little-endian integers *)

Fixpoint le_bytes (n : nat) (z : Z) : list byte :=
  match n with
  | O => []
  | S n' => byte_of_Z z :: le_bytes n' (z / 256)
  end.

Fixpoint le_value (l : list byte) : Z :=
  match l with
  | [] => 0
  | b :: l' => byte_to_Z b + 256 * le_value l'
  end.

(** The value of a 64-bit pattern as std::int64_t. *)
Definition sign64 (u : Z) : Z := if u <? 2 ^ 63 then u else u - 2 ^ 64.

Lemma length_le_bytes n z : length (le_bytes n z) = n.
Proof. revert z. induction n; intros; cbn; auto. Qed.

Lemma le_value_range l : 0 ≤ le_value l < 256 ^ Z.of_nat (length l).
Proof.
  induction l as [|b l IH]; cbn [le_value length]; [cbn; lia|].
  rewrite Nat2Z.inj_succ, Z.pow_succ_r by lia. pose proof (byte_to_Z_range b). lia.
Qed.

Lemma le_value_bytes n z : le_value (le_bytes n z) = z mod 256 ^ Z.of_nat n.
Proof.
  revert z. induction n as [|n IH]; intros z; cbn [le_bytes le_value].
  - by rewrite Z.mod_1_r.
  - rewrite IH, byte_to_of_Z, Nat2Z.inj_succ, Z.pow_succ_r by lia.
    rewrite Z.rem_mul_r by lia. lia.
Qed.

Lemma sign64_mod z : is_i64 z → sign64 (z mod 2 ^ 64) = z.
Proof.
  intros Hz. unfold sign64. destruct (decide (0 ≤ z)).
  - rewrite Z.mod_small by i64. zbool; i64.
  - rewrite <-(Z.mod_add z 1), Z.mod_small by i64. zbool; i64.
Qed.

Lemma sign64_range u : 0 ≤ u < 2 ^ 64 → is_i64 (sign64 u).
Proof. intros. unfold sign64. zbool; i64. Qed.

(** ** Reading and writing at an offset *)

Definition peek (off n : nat) (m : list byte) : list byte := take n (drop off m).
Definition poke (off : nat) (bs m : list byte) : list byte := list_inserts off bs m.

Definition get_i64 (off : nat) (m : list byte) : Z := sign64 (le_value (peek off 8 m)).
Definition put_i64 (off : nat) (z : Z) (m : list byte) : list byte := poke off (le_bytes 8 z) m.
Definition get_u8 (off : nat) (m : list byte) : Z := le_value (peek off 1 m).
Definition put_u8 (off : nat) (z : Z) (m : list byte) : list byte := poke off (le_bytes 1 z) m.

Lemma length_poke off bs m : length (poke off bs m) = length m.
Proof. apply length_inserts. Qed.

Lemma lookup_peek off n m i :
  peek off n m !! i = if decide (i < n)%nat then m !! (off + i)%nat else None.
Proof.
  unfold peek. case_decide.
  - by rewrite lookup_take_lt, lookup_drop.
  - apply lookup_take_ge. lia.
Qed.

Lemma length_peek off n m : (off + n ≤ length m)%nat → length (peek off n m) = n.
Proof. intros. unfold peek. rewrite length_take, length_drop. lia. Qed.

(** What was written is read back. *)
Lemma peek_poke_eq off bs m : (off + length bs ≤ length m)%nat →
  peek off (length bs) (poke off bs m) = bs.
Proof.
  intros H. apply list_eq. intros i. rewrite lookup_peek. case_decide.
  - unfold poke. rewrite list_lookup_inserts by lia. f_equal. lia.
  - symmetry. apply lookup_ge_None_2. lia.
Qed.

(** Members that do not overlap are not disturbed. *)
Lemma peek_poke_ne off off' n bs m :
  (off' + n ≤ off ∨ off + length bs ≤ off')%nat → peek off' n (poke off bs m) = peek off' n m.
Proof.
  intros H. apply list_eq. intros i. rewrite !lookup_peek. case_decide; [|done].
  unfold poke. destruct H.
  - by rewrite list_lookup_inserts_lt by lia.
  - by rewrite list_lookup_inserts_ge by lia.
Qed.

Lemma peek_app_l off n l1 l2 : (off + n ≤ length l1)%nat → peek off n (l1 ++ l2) = peek off n l1.
Proof.
  intros H. apply list_eq. intros i. rewrite !lookup_peek. case_decide; [|done].
  by rewrite lookup_app_l by lia.
Qed.

Lemma peek_app_r off n l1 l2 : (length l1 ≤ off)%nat →
  peek off n (l1 ++ l2) = peek (off - length l1) n l2.
Proof.
  intros H. apply list_eq. intros i. rewrite !lookup_peek. case_decide; [|done].
  rewrite lookup_app_r by lia. f_equal. lia.
Qed.

Lemma peek_all n l : length l = n → peek 0 n l = l.
Proof. intros <-. unfold peek. by rewrite drop_0, firstn_all. Qed.

Lemma get_put_i64 off z m : (off + 8 ≤ length m)%nat → is_i64 z →
  get_i64 off (put_i64 off z m) = z.
Proof.
  intros Hm Hz. unfold get_i64, put_i64.
  pose proof (peek_poke_eq off (le_bytes 8 z) m) as E. rewrite length_le_bytes in E.
  rewrite E, le_value_bytes by done. by apply sign64_mod.
Qed.

Lemma get_put_u8 off z m : (off + 1 ≤ length m)%nat → 0 ≤ z < 256 →
  get_u8 off (put_u8 off z m) = z.
Proof.
  intros Hm Hz. unfold get_u8, put_u8.
  pose proof (peek_poke_eq off (le_bytes 1 z) m) as E. rewrite length_le_bytes in E.
  rewrite E, le_value_bytes by done. by apply Z.mod_small.
Qed.

Lemma get_i64_range off m : is_i64 (get_i64 off m).
Proof.
  unfold get_i64. apply sign64_range. pose proof (le_value_range (peek off 8 m)) as H.
  assert (length (peek off 8 m) ≤ 8)%nat as Hl
    by (unfold peek; rewrite length_take; lia).
  split; [lia|]. eapply Z.lt_le_trans; [apply H|].
  change (2 ^ 64) with (256 ^ 8). apply Z.pow_le_mono_r; lia.
Qed.

(** Reads past a write at another place. *)
Section Frames.
Context (off off' : nat) (m : list byte).

Lemma get_i64_poke bs : (off' + 8 ≤ off ∨ off + length bs ≤ off')%nat →
  get_i64 off' (poke off bs m) = get_i64 off' m.
Proof. intros. unfold get_i64. by rewrite peek_poke_ne. Qed.

Lemma get_u8_poke bs : (off' + 1 ≤ off ∨ off + length bs ≤ off')%nat →
  get_u8 off' (poke off bs m) = get_u8 off' m.
Proof. intros. unfold get_u8. by rewrite peek_poke_ne. Qed.
End Frames.

Lemma length_put_i64 off z m : length (put_i64 off z m) = length m.
Proof. apply length_poke. Qed.

Lemma length_put_u8 off z m : length (put_u8 off z m) = length m.
Proof. apply length_poke. Qed.

Lemma peek_put_i64 off off' n z m : (off' + n ≤ off ∨ off + 8 ≤ off')%nat →
  peek off' n (put_i64 off z m) = peek off' n m.
Proof. intros. unfold put_i64. rewrite peek_poke_ne; [done|]. by rewrite length_le_bytes. Qed.

Lemma peek_put_u8 off off' n z m : (off' + n ≤ off ∨ off + 1 ≤ off')%nat →
  peek off' n (put_u8 off z m) = peek off' n m.
Proof. intros. unfold put_u8. rewrite peek_poke_ne; [done|]. by rewrite length_le_bytes. Qed.

Lemma get_i64_put_i64 off off' z m : (off' + 8 ≤ off ∨ off + 8 ≤ off')%nat →
  get_i64 off' (put_i64 off z m) = get_i64 off' m.
Proof. intros. unfold get_i64. by rewrite peek_put_i64. Qed.

Lemma get_i64_put_u8 off off' z m : (off' + 8 ≤ off ∨ off + 1 ≤ off')%nat →
  get_i64 off' (put_u8 off z m) = get_i64 off' m.
Proof. intros. unfold get_i64. by rewrite peek_put_u8. Qed.

Lemma get_u8_put_i64 off off' z m : (off' + 1 ≤ off ∨ off + 8 ≤ off')%nat →
  get_u8 off' (put_i64 off z m) = get_u8 off' m.
Proof. intros. unfold get_u8. by rewrite peek_put_i64. Qed.

Lemma get_u8_put_u8 off off' z m : (off' + 1 ≤ off ∨ off + 1 ≤ off')%nat →
  get_u8 off' (put_u8 off z m) = get_u8 off' m.
Proof. intros. unfold get_u8. by rewrite peek_put_u8. Qed.

#[export] Hint Rewrite length_put_i64 length_put_u8 length_poke : mem.

(** Evaluates reads of a struct after writes of its members. *)
Ltac mem_side := autorewrite with mem; (done || lia).
Ltac mem := repeat first
  [ rewrite get_put_i64 by mem_side | rewrite get_put_u8 by mem_side
  | rewrite get_i64_put_i64 by lia | rewrite get_i64_put_u8 by lia
  | rewrite get_u8_put_i64 by lia | rewrite get_u8_put_u8 by lia
  | rewrite get_i64_poke by lia | rewrite get_u8_poke by lia
  | rewrite peek_put_i64 by lia | rewrite peek_put_u8 by lia ].
