(* ===== verification/Wire.v ===== *)
(** * The wire format (common/net/wire.hpp)

    Messages are the bytes of the packed structs, accessed at the offsets of their
    members; the members of a union share their bytes. *)

From Stdlib Require Import Strings.Byte.
From S2P Require Import Prelude Interfaces Double CoreTypes Bytes.

Local Open Scope Z_scope.

Definition WIRE_TICKER_SIZE : nat := (MAX_TICKER_LENGTH + 1)%nat.

(** ** Structs *)

Record WireOrderAdd := mkWireOrderAdd {
  wa_orderId_ : Z;
  wa_userId_ : Z;
  wa_ticker_ : list byte;
  wa_side_ : Z;
  wa_price_ : Z;
  wa_volume_ : Z;
}.

Record WireOrderCancel := mkWireOrderCancel {
  wc_orderId_ : Z;
  wc_userId_ : Z;
  wc_ticker_ : list byte;
}.

(** Offsets of the members: each follows the one before without padding. *)
Definition off_orderId : nat := 0.
Definition off_userId : nat := off_orderId + 8.
Definition off_ticker : nat := off_userId + 8.
Definition off_side : nat := off_ticker + WIRE_TICKER_SIZE.
Definition off_price : nat := off_side + 1.
Definition off_volume : nat := off_price + 8.
Definition sizeof_WireOrderAdd : nat := off_volume + 8.
Definition sizeof_WireOrderCancel : nat := off_ticker + WIRE_TICKER_SIZE.

(** WireTradeEvent *)
Definition off_makerId : nat := 0.
Definition off_takerId : nat := off_makerId + 8.
Definition off_makerOrderId : nat := off_takerId + 8.
Definition off_takerOrderId : nat := off_makerOrderId + 8.
Definition off_tradeTicker : nat := off_takerOrderId + 8.
Definition off_takerSide : nat := off_tradeTicker + WIRE_TICKER_SIZE.
Definition off_tradePrice : nat := off_takerSide + 1.
Definition off_tradeVolume : nat := off_tradePrice + 8.
Definition sizeof_WireTradeEvent : nat := off_tradeVolume + 8.

(** The union starts after the one-byte type tag, and is as large as its largest
    member. *)
Definition off_union : nat := 1.
Definition sizeof_InboundWireMessage : nat :=
  off_union + Nat.max sizeof_WireOrderAdd sizeof_WireOrderCancel.
Definition sizeof_WireMarketDataMessage : nat :=
  off_union + Nat.max (Nat.max sizeof_WireOrderAdd sizeof_WireOrderCancel) sizeof_WireTradeEvent.

(** enum class InboundWireType, MarketEventType *)
Definition InboundWireType_OrderAdd : Z := 0.
Definition InboundWireType_OrderCancel : Z := 1.
Definition MarketEventType_OrderAdd : Z := 0.
Definition MarketEventType_OrderCancel : Z := 1.
Definition MarketEventType_Trade : Z := 2.

(** message.type_, message.orderAdd_, message.orderCancel_ of the bytes of a message;
    the members of the two structs inside the union. *)
Definition view_type (m : list byte) : Z := get_u8 0 m.

Definition view_orderAdd (m : list byte) : WireOrderAdd := {|
  wa_orderId_ := get_i64 (off_union + off_orderId) m;
  wa_userId_ := get_i64 (off_union + off_userId) m;
  wa_ticker_ := peek (off_union + off_ticker) WIRE_TICKER_SIZE m;
  wa_side_ := get_u8 (off_union + off_side) m;
  wa_price_ := get_i64 (off_union + off_price) m;
  wa_volume_ := get_i64 (off_union + off_volume) m;
|}.

Definition view_orderCancel (m : list byte) : WireOrderCancel := {|
  wc_orderId_ := get_i64 (off_union + off_orderId) m;
  wc_userId_ := get_i64 (off_union + off_userId) m;
  wc_ticker_ := peek (off_union + off_ticker) WIRE_TICKER_SIZE m;
|}.

(** strnlen *)
Fixpoint strnlen (l : list byte) (maxlen : nat) : nat :=
  match maxlen, l with
  | S maxlen', b :: l' => if decide (b = x00) then O else S (strnlen l' maxlen')
  | _, _ => O
  end.

Section Codec.
Context {Ticker : Type} `{!TickerType Ticker}.

Definition EncodeTicker (ticker : Ticker) : list byte :=
  poke 0 (ss_data ticker) (replicate WIRE_TICKER_SIZE x00).

Definition DecodeTicker (inp : list byte) : Outcome Ticker :=
  ss_make (take (strnlen inp WIRE_TICKER_SIZE) inp).

Definition DecodeOrderAdd (w : WireOrderAdd) : Outcome (OrderAdd Ticker) :=
  ticker ← DecodeTicker (wa_ticker_ w);
  Ok {| oa_orderId_ := Strong (wa_orderId_ w);
        oa_userId_ := Strong (wa_userId_ w);
        oa_ticker_ := ticker;
        oa_side_ := if wa_side_ w =? 0 then Buy else Sell;
        oa_price_ := Strong (wa_price_ w);
        oa_volume_ := Strong (wa_volume_ w) |}.

Definition DecodeOrderCancel (w : WireOrderCancel) : Outcome (OrderCancel Ticker) :=
  ticker ← DecodeTicker (wc_ticker_ w);
  Ok {| oc_orderId_ := Strong (wc_orderId_ w);
        oc_userId_ := Strong (wc_userId_ w);
        oc_ticker_ := ticker |}.

Definition DecodeInboundMessage (message : list byte) : Outcome (InboundCommand Ticker) :=
  if view_type message =? InboundWireType_OrderAdd then
    o ← DecodeOrderAdd (view_orderAdd message); Ok (CmdAdd o)
  else
    c ← DecodeOrderCancel (view_orderCancel message); Ok (CmdCancel c).

Definition side_code (side : Side) : Z := match side with Buy => 0 | Sell => 1 end.

(** The encoders; [msg] is the storage of the local variable after [msg{}], whose
    bytes outside the members written are not determined. *)
Definition EncodeOrderAddEvent (msg : list byte) (order : OrderAdd Ticker) : list byte :=
  let msg := put_u8 0 MarketEventType_OrderAdd msg in
  let msg := put_i64 (off_union + off_orderId) (value (oa_orderId_ order)) msg in
  let msg := put_i64 (off_union + off_userId) (value (oa_userId_ order)) msg in
  let msg := poke (off_union + off_ticker) (EncodeTicker (oa_ticker_ order)) msg in
  let msg := put_u8 (off_union + off_side) (side_code (oa_side_ order)) msg in
  let msg := put_i64 (off_union + off_price) (value (oa_price_ order)) msg in
  put_i64 (off_union + off_volume) (value (oa_volume_ order)) msg.

Definition EncodeOrderCancelEvent (msg : list byte) (cancel : OrderCancel Ticker) : list byte :=
  let msg := put_u8 0 MarketEventType_OrderCancel msg in
  let msg := put_i64 (off_union + off_orderId) (value (oc_orderId_ cancel)) msg in
  let msg := put_i64 (off_union + off_userId) (value (oc_userId_ cancel)) msg in
  poke (off_union + off_ticker) (EncodeTicker (oc_ticker_ cancel)) msg.

Definition EncodeTradeEvent (msg : list byte) (trade : Trade Ticker) : list byte :=
  let msg := put_u8 0 MarketEventType_Trade msg in
  let msg := put_i64 (off_union + off_makerId) (value (tr_makerId_ trade)) msg in
  let msg := put_i64 (off_union + off_takerId) (value (tr_takerId_ trade)) msg in
  let msg := put_i64 (off_union + off_makerOrderId) (value (tr_makerOrderId_ trade)) msg in
  let msg := put_i64 (off_union + off_takerOrderId) (value (tr_takerOrderId_ trade)) msg in
  let msg := poke (off_union + off_tradeTicker) (EncodeTicker (tr_ticker_ trade)) msg in
  let msg := put_u8 (off_union + off_takerSide) (side_code (tr_takerSide_ trade)) msg in
  let msg := put_i64 (off_union + off_tradePrice) (value (tr_executionPrice_ trade)) msg in
  put_i64 (off_union + off_tradeVolume) (value (tr_volume_ trade)) msg.
End Codec.

(** ** Facts about tickers on the wire *)

(** No NUL among the characters. *)
Definition nul_free (l : list byte) : Prop := x00 ∉ l.

Lemma strnlen_le l n : (strnlen l n ≤ n)%nat ∧ (strnlen l n ≤ length l)%nat.
Proof.
  revert n. induction l as [|b l IH]; intros [|n]; cbn; try lia.
  case_decide; [lia|]. specialize (IH n). lia.
Qed.

Lemma strnlen_nul_free l n : nul_free (take (strnlen l n) l).
Proof.
  unfold nul_free. revert n. induction l as [|b l IH]; intros [|n]; cbn;
    rewrite ?take_0; try apply not_elem_of_nil.
  case_decide; cbn; [apply not_elem_of_nil|].
  rewrite not_elem_of_cons. split; [congruence|apply IH].
Qed.

(** The length is the full array exactly when no NUL ends the string. *)
Lemma strnlen_full l n : length l = n → strnlen l n = n ↔ nul_free l.
Proof.
  unfold nul_free. intros <-. induction l as [|b l IH]; cbn.
  { split; [intros _; apply not_elem_of_nil|done]. }
  rewrite not_elem_of_cons. case_decide; [naive_solver|]. rewrite <-IH. naive_solver.
Qed.

Lemma strnlen_padded l n : nul_free l → (length l < n)%nat →
  strnlen (l ++ replicate (n - length l) x00) n = length l.
Proof.
  unfold nul_free. revert n. induction l as [|b l IH]; intros n Hl Hn.
  - destruct n; [cbn in Hn; lia|]. done.
  - destruct n as [|n]; [cbn in Hn; lia|]. apply not_elem_of_cons in Hl as [Hb Hl].
    cbn in *. rewrite decide_False by congruence. rewrite IH by (done || lia). done.
Qed.

Section CodecFacts.
Context {Ticker : Type} `{!TickerType Ticker} `{!TickerLaws Ticker}.
Implicit Types (t : Ticker).

Definition ticker_nul_free t : Prop := nul_free (ss_data t).

Lemma EncodeTicker_padded t : EncodeTicker t =
  ss_data t ++ replicate (WIRE_TICKER_SIZE - length (ss_data t)) x00.
Proof.
  pose proof (ss_data_length t) as Hl. unfold EncodeTicker, poke.
  apply list_eq. intros i. destruct (decide (i < length (ss_data t))%nat).
  - rewrite list_lookup_inserts, lookup_app_l;
      rewrite ?length_replicate; unfold WIRE_TICKER_SIZE; try lia. f_equal. lia.
  - rewrite list_lookup_inserts_ge, lookup_app_r by lia.
    apply option_eq. intros b. rewrite !lookup_replicate. unfold WIRE_TICKER_SIZE.
    split; intros [? ?]; split; (done || lia).
Qed.

Lemma length_EncodeTicker t : length (EncodeTicker t) = WIRE_TICKER_SIZE.
Proof. unfold EncodeTicker. by rewrite length_poke, length_replicate. Qed.

Lemma DecodeTicker_Ok l t : DecodeTicker l = Ok t →
  ss_data t = take (strnlen l WIRE_TICKER_SIZE) l ∧ ticker_nul_free t.
Proof.
  unfold DecodeTicker. intros H.
  assert (ss_data t = take (strnlen l WIRE_TICKER_SIZE) l) as E.
  { destruct (decide (length (take (strnlen l WIRE_TICKER_SIZE) l) ≤ MAX_TICKER_LENGTH)%nat) as [Hl|Hl].
    - destruct (ss_make_fits (S:=Ticker) _ Hl) as (t' & E & ?). congruence.
    - rewrite ss_make_overflow in H by lia. done. }
  split; [done|]. unfold ticker_nul_free. rewrite E. apply strnlen_nul_free.
Qed.

(** What was encoded is decoded, for a ticker without NULs. *)
Lemma DecodeTicker_EncodeTicker t : ticker_nul_free t → DecodeTicker (EncodeTicker t) = Ok t.
Proof.
  intros Ht. pose proof (ss_data_length t) as Hl. unfold DecodeTicker.
  rewrite EncodeTicker_padded, strnlen_padded by (done || unfold WIRE_TICKER_SIZE; lia).
  rewrite take_app_length. destruct (ss_make_fits (S:=Ticker) _ Hl) as (t' & E & Ht').
  rewrite E. f_equal. by apply ss_data_inj.
Qed.

(** Decoding fails exactly when all bytes are used. *)
Lemma DecodeTicker_cases l : length l = WIRE_TICKER_SIZE →
  if decide (nul_free l) then DecodeTicker l = Throw length_error (A:=Ticker)
  else ∃ t, DecodeTicker l = Ok t.
Proof.
  intros Hl. unfold DecodeTicker. pose proof (strnlen_full l _ Hl) as Hf.
  pose proof (strnlen_le l WIRE_TICKER_SIZE) as [H1 H2]. case_decide as Hn.
  - apply ss_make_overflow. rewrite length_take, (proj2 Hf Hn), Hl.
    unfold WIRE_TICKER_SIZE. lia.
  - destruct (ss_make_fits (S:=Ticker) (take (strnlen l WIRE_TICKER_SIZE) l))
      as (t & -> & _); [|eauto].
    rewrite length_take. unfold WIRE_TICKER_SIZE in *. rewrite <-Hf in Hn. lia.
Qed.
End CodecFacts.
