(* ===== verification/Feed.v ===== *)
(** * The other side of the wire (tools/wire.py)

    The codec of the client tools, and that it and the exchange understand each
    other: what a client sends is the command the exchange executes, and every
    market-data event the exchange sends is the event the listener sees. *)

From Stdlib Require Import Strings.Byte.
From S2P Require Import Prelude Interfaces Double CoreTypes Seqlock FlatMap MatchingEngine Concrete Bytes Wire.

Local Open Scope Z_scope.

(** ** tools/wire.py *)

(** A Python str: its code points. *)
Definition pystr : Type := list Z.

Definition is_ascii (c : Z) : bool := (0 <=? c) && (c <? 128).

(** str.encode("ascii"), bytes.decode("ascii") *)
Definition ascii_encode (s : pystr) : Outcome (list byte) :=
  if forallb is_ascii s then Ok (byte_of_Z <$> s) else Throw value_error.

Definition ascii_decode (l : list byte) : Outcome pystr :=
  if forallb (λ b, is_ascii (byte_to_Z b)) l then Ok (byte_to_Z <$> l) else Throw value_error.

(** bytes.ljust(width, b"\0") *)
Definition ljust (width : nat) (l : list byte) : list byte :=
  l ++ replicate (width - length l) x00.

Definition py_encode_ticker (ticker : pystr) : Outcome (list byte) :=
  raw ← ascii_encode ticker;
  if (16 <=? length raw)%nat then Throw value_error else Ok (ljust 16 raw).

(** raw.split(b"\0", 1)[0] *)
Fixpoint before_nul (l : list byte) : list byte :=
  match l with
  | [] => []
  | b :: l' => if decide (b = x00) then [] else b :: before_nul l'
  end.

Definition py_decode_ticker (raw : list byte) : Outcome pystr := ascii_decode (before_nul raw).

(** struct.pack of one "q" and of one "B". *)
Definition pack_q (z : Z) : Outcome (list byte) :=
  if i64b z then Ok (le_bytes 8 z) else Throw struct_error.
Definition pack_B (z : Z) : Outcome (list byte) :=
  if (0 <=? z) && (z <? 256) then Ok (le_bytes 1 z) else Throw struct_error.

Definition encode_order_add (order_id user_id : Z) (ticker : pystr) (side price volume : Z)
    : Outcome (list byte) :=
  raw ← py_encode_ticker ticker;
  a ← pack_q order_id; b ← pack_q user_id; s ← pack_B side;
  p ← pack_q price; v ← pack_q volume;
  t ← pack_B 0;
  Ok (t ++ ljust 49 (a ++ b ++ raw ++ s ++ p ++ v)).

Definition encode_order_cancel (order_id user_id : Z) (ticker : pystr) : Outcome (list byte) :=
  raw ← py_encode_ticker ticker;
  a ← pack_q order_id; b ← pack_q user_id;
  t ← pack_B 1;
  Ok (t ++ ljust 49 (a ++ b ++ raw)).

(** The dict a message decodes to; "Buy" and "Sell" are the strings for the side. *)
Inductive PyEvent :=
  | PyOrderAdd (orderId userId : Z) (ticker : pystr) (side : Side) (price volume : Z)
  | PyOrderCancel (orderId userId : Z) (ticker : pystr)
  | PyTrade (makerId takerId makerOrderId takerOrderId : Z) (ticker : pystr)
      (takerSide : Side) (price volume : Z)
  | PyUnknown (raw : list byte).

Definition py_side (side : Z) : Side := if side =? 0 then Buy else Sell.

Definition decode_market_data (data : list byte) : Outcome PyEvent :=
  if negb (length data =? 66)%nat then Throw value_error else
  let event_type := get_u8 0 data in
  let payload := drop 1 data in
  if event_type =? 0 then
    (* "<qq16sBqq" of payload[:49] *)
    ticker ← py_decode_ticker (peek 16 16 payload);
    Ok (PyOrderAdd (get_i64 0 payload) (get_i64 8 payload) ticker
          (py_side (get_u8 32 payload)) (get_i64 33 payload) (get_i64 41 payload))
  else if event_type =? 1 then
    (* "<qq16s" of payload[:32] *)
    ticker ← py_decode_ticker (peek 16 16 payload);
    Ok (PyOrderCancel (get_i64 0 payload) (get_i64 8 payload) ticker)
  else if event_type =? 2 then
    (* "<qqqq16sBqq" of payload[:65] *)
    ticker ← py_decode_ticker (peek 32 16 payload);
    Ok (PyTrade (get_i64 0 payload) (get_i64 8 payload) (get_i64 16 payload)
          (get_i64 24 payload) ticker (py_side (get_u8 48 payload))
          (get_i64 49 payload) (get_i64 57 payload))
  else Ok (PyUnknown data).

(** ** Events of the feed *)

Section Events.
Context {Ticker : Type} `{!TickerType Ticker}.

(** What the matching engine thread publishes. *)
Inductive MarketEvent :=
  | EvAdd (o : OrderAdd Ticker)
  | EvCancel (c : OrderCancel Ticker)
  | EvTrade (tr : Trade Ticker).

(** The encoder used for each event, on the storage of its local variable. *)
Definition encode_event (storage : list byte) (ev : MarketEvent) : list byte :=
  match ev with
  | EvAdd o => EncodeOrderAddEvent storage o
  | EvCancel c => EncodeOrderCancelEvent storage c
  | EvTrade tr => EncodeTradeEvent storage tr
  end.

(** The ticker as the client tools spell it. *)
Definition ticker_str (t : Ticker) : pystr := byte_to_Z <$> ss_data t.

(** The event a listener should see. *)
Definition event_seen (ev : MarketEvent) : PyEvent :=
  match ev with
  | EvAdd o => PyOrderAdd (value (oa_orderId_ o)) (value (oa_userId_ o))
      (ticker_str (oa_ticker_ o)) (oa_side_ o) (value (oa_price_ o)) (value (oa_volume_ o))
  | EvCancel c => PyOrderCancel (value (oc_orderId_ c)) (value (oc_userId_ c))
      (ticker_str (oc_ticker_ c))
  | EvTrade tr => PyTrade (value (tr_makerId_ tr)) (value (tr_takerId_ tr))
      (value (tr_makerOrderId_ tr)) (value (tr_takerOrderId_ tr)) (ticker_str (tr_ticker_ tr))
      (tr_takerSide_ tr) (value (tr_executionPrice_ tr)) (value (tr_volume_ tr))
  end.

(** A ticker of characters the tools can print: ASCII, without NUL. *)
Definition ticker_plain (t : Ticker) : Prop :=
  ticker_nul_free t ∧ Forall (λ b, byte_to_Z b < 128) (ss_data t).

Definition event_in_range (ev : MarketEvent) : Prop :=
  match ev with
  | EvAdd o => order_in_range o ∧ ticker_plain (oa_ticker_ o)
  | EvCancel c => is_i64 (value (oc_orderId_ c)) ∧ is_i64 (value (oc_userId_ c)) ∧
      ticker_plain (oc_ticker_ c)
  | EvTrade tr => is_i64 (value (tr_makerId_ tr)) ∧ is_i64 (value (tr_takerId_ tr)) ∧
      is_i64 (value (tr_makerOrderId_ tr)) ∧ is_i64 (value (tr_takerOrderId_ tr)) ∧
      is_i64 (value (tr_executionPrice_ tr)) ∧ is_i64 (value (tr_volume_ tr)) ∧
      ticker_plain (tr_ticker_ tr)
  end.
End Events.
Arguments MarketEvent Ticker : clear implicits.

(** ** Facts *)

(** The offsets, as numbers. *)
Ltac offsets := unfold off_volume, off_price, off_side, off_ticker, off_userId, off_orderId,
  off_tradeVolume, off_tradePrice, off_takerSide, off_tradeTicker, off_takerOrderId,
  off_makerOrderId, off_takerId, off_makerId, off_union, WIRE_TICKER_SIZE, MAX_TICKER_LENGTH;
  cbn [Nat.add].

Section FeedFacts.
Context {Ticker : Type} `{!TickerType Ticker} `{!TickerLaws Ticker}.
Implicit Types (t : Ticker).

Lemma peek_drop k off n m : peek off n (drop k m) = peek (k + off) n m.
Proof. unfold peek. by rewrite drop_drop. Qed.

Lemma get_i64_drop k off m : get_i64 off (drop k m) = get_i64 (k + off) m.
Proof. unfold get_i64. by rewrite peek_drop. Qed.

Lemma get_u8_drop k off m : get_u8 off (drop k m) = get_u8 (k + off) m.
Proof. unfold get_u8. by rewrite peek_drop. Qed.

Lemma before_nul_padded l n : nul_free l → before_nul (l ++ replicate n x00) = l.
Proof.
  unfold nul_free. induction l as [|b l IH]; cbn; [by destruct n|].
  intros [Hb Hl]%not_elem_of_cons. rewrite decide_False by congruence. by rewrite IH.
Qed.

Lemma ascii_decode_plain l : Forall (λ b, byte_to_Z b < 128) l →
  ascii_decode l = Ok (byte_to_Z <$> l).
Proof.
  intros Hl. unfold ascii_decode. rewrite (proj2 (forallb_forall _ l)); [done|].
  intros b Hb%list_elem_of_In. rewrite Forall_forall in Hl. specialize (Hl b Hb).
  unfold is_ascii. pose proof (byte_to_Z_range b). zbool; cbn; lia.
Qed.

(** A listener reads the ticker the exchange wrote. *)
Lemma py_decode_EncodeTicker t : ticker_plain t →
  py_decode_ticker (EncodeTicker t) = Ok (ticker_str t).
Proof.
  intros [Hn Ha]. unfold py_decode_ticker.
  rewrite EncodeTicker_padded, before_nul_padded by done. by apply ascii_decode_plain.
Qed.

Lemma peek_EncodeTicker off t m : (off + 16 ≤ length m)%nat →
  peek off 16 (poke off (EncodeTicker t) m) = EncodeTicker t.
Proof.
  intros H. pose proof (peek_poke_eq off (EncodeTicker t) m) as E.
  rewrite length_EncodeTicker in E. by apply E.
Qed.

Lemma get_i64_ticker off off' t m : (off' + 8 ≤ off ∨ off + 16 ≤ off')%nat →
  get_i64 off' (poke off (EncodeTicker t) m) = get_i64 off' m.
Proof. intros. apply get_i64_poke. by rewrite length_EncodeTicker. Qed.

Lemma get_u8_ticker off off' t m : (off' + 1 ≤ off ∨ off + 16 ≤ off')%nat →
  get_u8 off' (poke off (EncodeTicker t) m) = get_u8 off' m.
Proof. intros. apply get_u8_poke. by rewrite length_EncodeTicker. Qed.

Lemma side_code_range side : 0 ≤ side_code side < 256.
Proof. destruct side; cbn; lia. Qed.

Lemma py_side_code side : py_side (side_code side) = side.
Proof. by destruct side. Qed.

(** Evaluates the members of an encoded message. *)
Ltac wire := repeat (mem ||
  (first [ rewrite get_i64_ticker by lia | rewrite get_u8_ticker by lia
         | rewrite peek_EncodeTicker by mem_side
         | rewrite get_put_u8 by (mem_side || apply side_code_range) ])).

Lemma encode_event_length storage (ev : MarketEvent Ticker) :
  length (encode_event storage ev) = length storage.
Proof.
  destruct ev; cbn [encode_event];
    unfold EncodeOrderAddEvent, EncodeOrderCancelEvent, EncodeTradeEvent;
    by autorewrite with mem.
Qed.

Definition event_tag (ev : MarketEvent Ticker) : Z :=
  match ev with
  | EvAdd _ => MarketEventType_OrderAdd
  | EvCancel _ => MarketEventType_OrderCancel
  | EvTrade _ => MarketEventType_Trade
  end.

Lemma encode_event_tag storage (ev : MarketEvent Ticker) : length storage = 66%nat →
  get_u8 0 (encode_event storage ev) = event_tag ev.
Proof.
  intros Hlen. destruct ev; cbn [encode_event event_tag];
    unfold EncodeOrderAddEvent, EncodeOrderCancelEvent, EncodeTradeEvent; offsets; wire; done.
Qed.

(** Each kind of event is decoded to itself. *)
Lemma decode_encode_event storage (ev : MarketEvent Ticker) :
  length storage = sizeof_WireMarketDataMessage → event_in_range ev →
  decode_market_data (encode_event storage ev) = Ok (event_seen ev).
Proof.
  intros Hlen Hev. change sizeof_WireMarketDataMessage with 66%nat in Hlen.
  unfold decode_market_data. rewrite encode_event_length, Hlen. cbn [Nat.eqb negb].
  rewrite !peek_drop, !get_i64_drop, !get_u8_drop, encode_event_tag by done. cbn [Nat.add].
  destruct ev as [o|c|tr]; cbn [encode_event event_seen event_in_range event_tag
    MarketEventType_OrderAdd MarketEventType_OrderCancel MarketEventType_Trade
    Z.eqb Pos.eqb] in *.
  - destruct Hev as [(Ho & Hu & Hp & Hv) Ht]. unfold EncodeOrderAddEvent. offsets.
    wire. by rewrite py_decode_EncodeTicker, py_side_code.
  - destruct Hev as (Ho & Hu & Ht). unfold EncodeOrderCancelEvent. offsets.
    wire. by rewrite py_decode_EncodeTicker.
  - destruct Hev as (Hm & Hk & Hmo & Hko & Hp & Hv & Ht). unfold EncodeTradeEvent. offsets.
    wire. by rewrite py_decode_EncodeTicker, py_side_code.
Qed.
End FeedFacts.

Section InboundFacts.
Context {Ticker : Type} `{!TickerType Ticker} `{!TickerLaws Ticker}.
Implicit Types (t : Ticker).

(** What a client calls to send a command. *)
Definition client_encode (cmd : InboundCommand Ticker) : Outcome (list byte) :=
  match cmd with
  | CmdAdd o => encode_order_add (value (oa_orderId_ o)) (value (oa_userId_ o))
      (ticker_str (oa_ticker_ o)) (side_code (oa_side_ o))
      (value (oa_price_ o)) (value (oa_volume_ o))
  | CmdCancel c => encode_order_cancel (value (oc_orderId_ c)) (value (oc_userId_ c))
      (ticker_str (oc_ticker_ c))
  end.

Definition command_in_range (cmd : InboundCommand Ticker) : Prop :=
  match cmd with
  | CmdAdd o => order_in_range o ∧ ticker_plain (oa_ticker_ o)
  | CmdCancel c => is_i64 (value (oc_orderId_ c)) ∧ is_i64 (value (oc_userId_ c)) ∧
      ticker_plain (oc_ticker_ c)
  end.

Lemma ascii_encode_ticker t : ticker_plain t → ascii_encode (ticker_str t) = Ok (ss_data t).
Proof.
  intros [_ Ha]. unfold ascii_encode, ticker_str.
  rewrite (proj2 (forallb_forall _ _)).
  - rewrite <-list_fmap_compose. f_equal. rewrite <-(list_fmap_id (ss_data t)) at 2.
    apply list_fmap_ext. intros i b _. apply byte_of_to_Z.
  - intros z Hz%list_elem_of_In. apply list_elem_of_fmap in Hz as (b & -> & Hb).
    rewrite Forall_forall in Ha. specialize (Ha b Hb). unfold is_ascii.
    pose proof (byte_to_Z_range b). zbool; cbn; lia.
Qed.

(** The client pads a ticker the way the exchange does. *)
Lemma py_encode_ticker_ok t : ticker_plain t →
  py_encode_ticker (ticker_str t) = Ok (EncodeTicker t).
Proof.
  intros Ht. unfold py_encode_ticker. rewrite ascii_encode_ticker by done. cbn [mbind Outcome_bind].
  pose proof (ss_data_length t) as Hl. change 16%nat with (S MAX_TICKER_LENGTH).
  destruct (Nat.leb_spec (S MAX_TICKER_LENGTH) (length (ss_data t))); [lia|].
  by rewrite EncodeTicker_padded.
Qed.

Lemma pack_q_ok z : is_i64 z → pack_q z = Ok (le_bytes 8 z).
Proof. intros H%i64b_spec. unfold pack_q. by rewrite H. Qed.

Lemma pack_B_side side : pack_B (side_code side) = Ok (le_bytes 1 (side_code side)).
Proof. by destruct side. Qed.

Lemma le_value_i64 z : is_i64 z → sign64 (le_value (le_bytes 8 z)) = z.
Proof. intros. rewrite le_value_bytes. by apply sign64_mod. Qed.

Lemma le_value_side side : le_value (le_bytes 1 (side_code side)) = side_code side.
Proof. by destruct side. Qed.

Lemma length_ljust w l : (length l ≤ w)%nat → length (ljust w l) = w.
Proof. intros. unfold ljust. rewrite length_app, length_replicate. lia. Qed.

Ltac len := rewrite ?length_app, ?length_le_bytes, ?length_EncodeTicker;
  unfold WIRE_TICKER_SIZE, MAX_TICKER_LENGTH; cbn [length]; lia.

(** Picks a member out of a concatenation. *)
Ltac pick := unfold get_i64, get_u8; repeat first
  [ rewrite peek_app_l by len | rewrite peek_app_r by len ];
  rewrite ?length_le_bytes, ?length_EncodeTicker;
  unfold WIRE_TICKER_SIZE, MAX_TICKER_LENGTH; cbn [Nat.sub Nat.add];
  rewrite peek_all by len.

Lemma decode_client_add o : order_in_range o → ticker_plain (oa_ticker_ o) →
  ∃ msg, client_encode (CmdAdd o) = Ok msg ∧ length msg = sizeof_InboundWireMessage ∧
    DecodeInboundMessage msg = Ok (CmdAdd o).
Proof.
  intros (Ho & Hu & Hp & Hv) Ht. cbn [client_encode]. unfold encode_order_add.
  rewrite py_encode_ticker_ok, !pack_q_ok, pack_B_side by done. eexists. split; [done|].
  rewrite length_app, length_ljust by len. split; [done|].
  unfold DecodeInboundMessage, DecodeOrderAdd, view_type, view_orderAdd, ljust. offsets.
  cbn [wa_orderId_ wa_userId_ wa_ticker_ wa_side_ wa_price_ wa_volume_].
  replace (get_u8 0 _) with 0 by (by pick). cbn [Z.eqb InboundWireType_OrderAdd].
  replace (peek 17 16 _) with (EncodeTicker (oa_ticker_ o)) by (by pick).
  rewrite DecodeTicker_EncodeTicker by apply Ht. cbn [mbind Outcome_bind].
  replace (get_i64 1 _) with (value (oa_orderId_ o)) by (pick; by rewrite le_value_i64).
  replace (get_i64 9 _) with (value (oa_userId_ o)) by (pick; by rewrite le_value_i64).
  replace (get_u8 33 _) with (side_code (oa_side_ o)) by (pick; by rewrite le_value_side).
  replace (get_i64 34 _) with (value (oa_price_ o)) by (pick; by rewrite le_value_i64).
  replace (get_i64 42 _) with (value (oa_volume_ o)) by (pick; by rewrite le_value_i64).
  change (if side_code (oa_side_ o) =? 0 then Buy else Sell) with (py_side (side_code (oa_side_ o))).
  rewrite py_side_code. by destruct o as [[] [] ? ? [] []].
Qed.

Lemma decode_client_cancel c : is_i64 (value (oc_orderId_ c)) → is_i64 (value (oc_userId_ c)) →
  ticker_plain (oc_ticker_ c) →
  ∃ msg, client_encode (CmdCancel c) = Ok msg ∧ length msg = sizeof_InboundWireMessage ∧
    DecodeInboundMessage msg = Ok (CmdCancel c).
Proof.
  intros Ho Hu Ht. cbn [client_encode]. unfold encode_order_cancel.
  rewrite py_encode_ticker_ok, !pack_q_ok by done. eexists. split; [done|].
  rewrite length_app, length_ljust by len. split; [done|].
  unfold DecodeInboundMessage, DecodeOrderCancel, view_type, view_orderCancel, ljust. offsets.
  cbn [wc_orderId_ wc_userId_ wc_ticker_].
  replace (get_u8 0 _) with 1 by (by pick). cbn [Z.eqb Pos.eqb InboundWireType_OrderAdd].
  replace (peek 17 16 _) with (EncodeTicker (oc_ticker_ c)) by (by pick).
  rewrite DecodeTicker_EncodeTicker by apply Ht. cbn [mbind Outcome_bind].
  replace (get_i64 1 _) with (value (oc_orderId_ c)) by (pick; by rewrite le_value_i64).
  replace (get_i64 9 _) with (value (oc_userId_ c)) by (pick; by rewrite le_value_i64).
  by destruct c as [[] [] ?].
Qed.
End InboundFacts.

(** ** Properties *)

(** C13: Market data round trip.  Whatever was in the message's storage before, a
    listener decodes the 66 bytes the exchange sends for an order, a cancel or a
    trade (fields of 64 bits, a plain ticker) to exactly that event. *)
Theorem feed_roundtrip {Ticker} `{!TickerType Ticker} `{!TickerLaws Ticker}
    (storage : list byte) (ev : MarketEvent Ticker) :
  length storage = sizeof_WireMarketDataMessage → event_in_range ev →
  length (encode_event storage ev) = 66%nat ∧
  decode_market_data (encode_event storage ev) = Ok (event_seen ev).
Proof.
  intros Hlen Hev. rewrite encode_event_length. split; [done|]. by apply decode_encode_event.
Qed.

Lemma AAPL_plain : ticker_plain AAPL.
Proof. split; [|repeat constructor]. by apply (bool_decide_unpack _). Qed.

Lemma feed_roundtrip_witness :
  let storage := replicate 66 xff in
  let ev := EvTrade (mkTrade (Strong 1) (Strong 2) (Strong 30) (Strong (-40)) AAPL Sell
    (Strong 100) (Strong i64_max)) in
  length (encode_event storage ev) = 66%nat ∧
  decode_market_data (encode_event storage ev) = Ok (event_seen ev).
Proof.
  intros storage ev. apply (feed_roundtrip storage ev); [reflexivity|].
  split_and!; [by apply (bool_decide_unpack _)..|apply AAPL_plain].
Defined.

(** C23: Inbound round trip.  A command the client tool can express is encoded to one
    frame of 50 bytes, and the exchange decodes that frame to the same command. *)
Theorem client_commands_understood {Ticker} `{!TickerType Ticker} `{!TickerLaws Ticker}
    (cmd : InboundCommand Ticker) :
  command_in_range cmd →
  ∃ msg, client_encode cmd = Ok msg ∧ length msg = sizeof_InboundWireMessage ∧
    DecodeInboundMessage msg = Ok cmd.
Proof.
  destruct cmd as [o|c]; cbn [command_in_range].
  - intros [Ho Ht]. by apply decode_client_add.
  - intros (Ho & Hu & Ht). by apply decode_client_cancel.
Qed.

Lemma client_commands_understood_witness :
  ∃ msg, client_encode (CmdAdd (add 1 2 AAPL Sell (-5) 6)) = Ok msg ∧
    length msg = sizeof_InboundWireMessage ∧
    DecodeInboundMessage msg = Ok (CmdAdd (add 1 2 AAPL Sell (-5) 6)).
Proof.
  apply (client_commands_understood (CmdAdd (add 1 2 AAPL Sell (-5) 6))).
  split; [by apply (bool_decide_unpack _)|apply AAPL_plain].
Defined.

(** The ticker bytes of an inbound frame. *)
Definition frame_ticker (msg : list byte) : list byte := peek 17 16 msg.

(** C31: Decoding an arbitrary frame.  A frame of 50 bytes decodes to a command whose
    fields are 64-bit values and whose ticker has no NUL, whatever its type byte;
    the one exception is a frame whose sixteen ticker bytes hold no NUL, which
    raises std::length_error (uncaught in the gateway thread). *)
Theorem any_frame_decodes {Ticker} `{!TickerType Ticker} `{!TickerLaws Ticker}
    (msg : list byte) :
  length msg = sizeof_InboundWireMessage →
  (nul_free (frame_ticker msg) →
    DecodeInboundMessage msg = Throw length_error (A:=InboundCommand Ticker)) ∧
  (¬ nul_free (frame_ticker msg) →
    ∃ cmd : InboundCommand Ticker, DecodeInboundMessage msg = Ok cmd ∧
      match cmd with
      | CmdAdd o => get_u8 0 msg = 0 ∧ order_in_range o ∧ ticker_nul_free (oa_ticker_ o)
      | CmdCancel c => get_u8 0 msg ≠ 0 ∧ is_i64 (value (oc_orderId_ c)) ∧
          is_i64 (value (oc_userId_ c)) ∧ ticker_nul_free (oc_ticker_ c)
      end).
Proof.
  intros Hlen. assert (length (frame_ticker msg) = WIRE_TICKER_SIZE) as Hl
    by (unfold frame_ticker; rewrite length_peek; [done|rewrite Hlen; cbn; lia]).
  pose proof (DecodeTicker_cases (Ticker:=Ticker) _ Hl) as Hc.
  unfold DecodeInboundMessage, DecodeOrderAdd, DecodeOrderCancel, view_type.
  change (wa_ticker_ (view_orderAdd msg)) with (frame_ticker msg).
  change (wc_ticker_ (view_orderCancel msg)) with (frame_ticker msg).
  case_decide as Hn; (split; [intros Hn'|intros Hn']; try done).
  - rewrite Hc. by destruct (get_u8 0 msg =? _).
  - destruct Hc as [t Ht]. pose proof (proj2 (DecodeTicker_Ok _ _ Ht)) as Hnf. rewrite Ht.
    destruct (Z.eqb_spec (get_u8 0 msg) InboundWireType_OrderAdd); eexists;
      (split; [done|]); cbn; split_and!; eauto using get_i64_range.
    repeat split; apply get_i64_range.
Qed.

Lemma any_frame_decodes_witness :
  DecodeInboundMessage (replicate 50 x41) = Throw length_error (A:=InboundCommand CTicker) ∧
  ∃ cmd : InboundCommand CTicker, DecodeInboundMessage (replicate 50 x00) = Ok cmd.
Proof.
  split.
  - apply (any_frame_decodes (replicate 50 x41)); [reflexivity|].
    by apply (bool_decide_unpack _).
  - destruct (proj2 (any_frame_decodes (Ticker:=CTicker) (replicate 50 x00) eq_refl))
      as (cmd & H & _); [by apply (bool_decide_unpack _)|]. exists cmd. exact H.
Defined.
