(* ===== verification/Queues.v ===== *)
(** * The queues between the threads (common/net/queues.hpp)

    Each is a boost::lockfree::spsc_queue of a fixed capacity, whose interface and laws
    are in Interfaces.v; here are the four the header names, and what a producer and a
    consumer of any of them can rely on. *)

From Stdlib Require Import Strings.Byte.
From S2P Require Import Prelude Interfaces CoreTypes.

Definition QUEUE_CAPACITY : nat := 4096.

(** Gateway thread -> matching engine thread. *)
Notation InboundQueue Ticker := (SpscQueue (InboundCommand Ticker)).
(** Matching engine thread -> market data thread, encoded. *)
Notation MarketDataQueue := (SpscQueue (list byte)).
(** Matching engine thread -> inventory thread. *)
Notation TradeQueue Ticker := (SpscQueue (Trade Ticker)).
(** Not used by the exchange. *)
Notation OrderQueue := (SpscQueue Order).

Section Batches.
Context {cap : nat} {A Q : Type} `{!SpscQueue A Q} `{!SpscQueueLaws cap A Q}.
Implicit Types (q : Q) (l : list A).

(** Several pushes, all of which must succeed, and as many pops as succeed. *)
Fixpoint push_all l q : option Q :=
  match l with [] => Some q | a :: l' => q ← q_push a q; push_all l' q end.

Fixpoint pop_all (fuel : nat) q : list A :=
  match fuel with
  | O => []
  | S fuel' => match q_pop q with Some (a, q) => a :: pop_all fuel' q | None => [] end
  end.

(** A batch fits exactly if there is room for it. *)
Lemma push_all_spec l q :
  match push_all l q with
  | Some q' => q_contents q' = q_contents q ++ l
  | None => cap < length (q_contents q) + length l
  end.
Proof.
  revert q. induction l as [|a l IH]; intros q; cbn; [by rewrite app_nil_r|].
  destruct (q_push a q) as [q1|] eqn:E; cbn.
  - specialize (IH q1). pose proof (q_push_Some (cap:=cap) a q q1 E) as Hc. rewrite Hc in IH.
    destruct (push_all l q1); [by rewrite IH, <-(assoc_L (++))|].
    rewrite length_app in IH. cbn in IH. lia.
  - pose proof (q_contents_bound q). destruct (decide (length (q_contents q) < cap)) as [Hr|]; [|lia].
    destruct (q_push_room a q Hr) as (? & ? & _). congruence.
Qed.

Lemma pop_all_spec fuel q : length (q_contents q) ≤ fuel → pop_all fuel q = q_contents q.
Proof.
  revert q. induction fuel as [|fuel IH]; intros q Hf; cbn.
  { by destruct (q_contents q); cbn in Hf; [|lia]. }
  destruct (q_contents q) as [|a l] eqn:E; [by rewrite (q_pop_empty (cap:=cap))|].
  destruct (q_pop_head (cap:=cap) a l q E) as (q' & -> & Hl). rewrite IH, Hl; [done|].
  cbn in Hf. rewrite Hl. lia.
Qed.

(** What is pushed on an empty queue is popped in the same order. *)
Lemma queue_roundtrip l : length l ≤ cap →
  ∃ q, push_all l q_empty = Some q ∧ pop_all (length l) q = l.
Proof.
  intros Hl. pose proof (push_all_spec l q_empty) as H. rewrite (q_contents_empty (cap:=cap)) in H.
  destruct (push_all l q_empty) as [q|]; [|cbn in H; lia]. exists q. split; [done|].
  rewrite pop_all_spec; rewrite H; done.
Qed.
End Batches.

(** The round trip of tests/instruments_test.cpp. *)
Example order_queue_roundtrip :
  let o := mkOrder (Strong 1%Z) (Strong 0%Z) (Strong 100000000%Z) (Strong 10%Z) in
  (q ← q_push o (q_empty : fifo QUEUE_CAPACITY Order); fst <$> q_pop q) = Some o.
Proof. vm_compute. reflexivity. Qed.
