(* ===== verification/Listener.v ===== *)
(** * The order book listener (tools/orderbook_listener.py)

    The listener joins the market data feed and keeps a book of its own from the public
    events alone.  This file has its operations, and what they compute on the events
    one order causes; ListenerSync.v shows that the book it keeps, and the snapshot it
    prints, are the exchange's. *)

From Stdlib Require Import Strings.Byte Strings.String.
From stdpp Require Import gmap sorting.
From S2P Require Import Prelude Interfaces Double CoreTypes Seqlock FlatMap MatchingEngine BookSpec EngineRefinement EngineSpec EngineInvariant EngineIndex Bytes Wire Feed.

Local Open Scope Z_scope.

(** ** class OrderBook *)

(** The dict kept per order: ticker, side, price, volume. *)
Record OpenOrder := mkOpenOrder {
  oo_ticker : pystr;
  oo_side : Side;
  oo_price : Z;
  oo_volume : Z;
}.

#[export] Instance OpenOrder_eq_dec : EqDecision OpenOrder.
Proof. solve_decision. Defined.

(** self.open_orders: orderId -> dict *)
Notation OpenOrders := (gmap Z OpenOrder).

(** The body of the loop over the two orders of a trade. *)
Definition apply_trade_to (volume : Z) (book : OpenOrders) (order_id : Z) : OpenOrders :=
  match book !! order_id with
  | None => book
  | Some order =>
      let order := mkOpenOrder (oo_ticker order) (oo_side order) (oo_price order)
                     (oo_volume order - volume) in
      if oo_volume order <=? 0 then delete order_id book else <[order_id := order]> book
  end.

(** OrderBook.apply *)
Definition apply_event (event : PyEvent) (book : OpenOrders) : OpenOrders :=
  match event with
  | PyOrderAdd orderId _ ticker side price volume =>
      <[orderId := mkOpenOrder ticker side price volume]> book
  | PyOrderCancel orderId _ _ => delete orderId book
  | PyTrade _ _ makerOrderId takerOrderId _ _ _ volume =>
      foldl (apply_trade_to volume) book [makerOrderId; takerOrderId]
  | PyUnknown _ => book
  end.

(** book[price] = book.get(price, 0) + volume *)
Definition add_volume (price volume : Z) (levels : gmap Z Z) : gmap Z Z :=
  <[price := default 0 (levels !! price) + volume]> levels.

(** The body of the loop of OrderBook.levels. *)
Definition levels_step (ticker : pystr) (acc : gmap Z Z * gmap Z Z) (order : OpenOrder)
    : gmap Z Z * gmap Z Z :=
  if decide (oo_ticker order = ticker) then
    match oo_side order with
    | Buy => (add_volume (oo_price order) (oo_volume order) acc.1, acc.2)
    | Sell => (acc.1, add_volume (oo_price order) (oo_volume order) acc.2)
    end
  else acc.

(** OrderBook.levels: price -> volume on each side.  The order in which the dict is
    walked does not show in the result. *)
Definition levels (ticker : pystr) (book : OpenOrders) : gmap Z Z * gmap Z Z :=
  foldl (levels_step ticker) (∅, ∅) (map_to_list book).*2.

(** The lines print_snapshot prints for one instrument. *)
Inductive Row :=
  | RowTicker (ticker : pystr)
  | RowEmpty
  | RowAsk (price volume : Z)
  | RowSpread
  | RowBid (price volume : Z).

(** sorted(d, reverse=True), with the values *)
Definition sorted_reverse (d : gmap Z Z) : list (Z * Z) :=
  (λ price, (price, d !!! price)) <$> merge_sort Z.ge (map_to_list d).*1.

Definition snapshot_of (ticker : pystr) (book : OpenOrders) : list Row :=
  let (bids, asks) := levels ticker book in
  RowTicker ticker ::
  if decide (bids = ∅ ∧ asks = ∅) then [RowEmpty]
  else ((λ '(p, v), RowAsk p v) <$> sorted_reverse asks) ++
       (if decide (bids ≠ ∅ ∧ asks ≠ ∅) then [RowSpread] else []) ++
       ((λ '(p, v), RowBid p v) <$> sorted_reverse bids).

(** wire.INSTRUMENTS *)
Definition py_INSTRUMENTS : list pystr :=
  (λ s, byte_to_Z <$> list_byte_of_string s) <$> ["AAPL"; "GOOG"; "MSFT"; "AMZN"]%string.

Definition print_snapshot (book : OpenOrders) : list Row :=
  py_INSTRUMENTS ≫= λ ticker, snapshot_of ticker book.

(** The body of the receive loop of main on a datagram: a message that does not decode
    is reported and dropped. *)
Definition on_datagram (data : list byte) (book : OpenOrders) : Outcome OpenOrders :=
  match decode_market_data data with
  | Ok event => Ok (apply_event event book)
  | Throw value_error => Ok book
  | Throw e => Throw e
  | Undefined => Undefined
  | OutOfFuel => OutOfFuel
  end.

(** The listener's book after a stream of datagrams. *)
Definition listen (datagrams : list (list byte)) : Outcome OpenOrders :=
  foldM on_datagram datagrams ∅.

(** A datagram decodes or raises ValueError, which the loop handles. *)
Lemma decode_market_data_cases data :
  (∃ event, decode_market_data data = Ok event) ∨ decode_market_data data = Throw value_error.
Proof.
  unfold decode_market_data, py_decode_ticker, ascii_decode.
  repeat (case_match; cbn [mbind Outcome_bind]; eauto).
Qed.

(** So the listener survives whatever anybody sends to its group. *)
Lemma listen_total datagrams : ∃ m, listen datagrams = Ok m.
Proof.
  unfold listen. generalize (∅ : OpenOrders).
  induction datagrams as [|data datagrams IH]; intros m; [by exists m|]. cbn [foldM].
  assert (∃ m', on_datagram data m = Ok m') as [m' ->]; [|apply IH].
  unfold on_datagram. destruct (decode_market_data_cases data) as [[event ->]| ->]; eauto.
Qed.

(** ** The events of one order *)

(** A trade that leaves the order alive, one that uses it up, one for another order. *)
Lemma apply_trade_to_other v (m : OpenOrders) id id' : id' ≠ id →
  apply_trade_to v m id !! id' = m !! id'.
Proof.
  intros Hne. unfold apply_trade_to. destruct (m !! id); [|done]. cbn [oo_volume].
  destruct (_ <=? 0); [by apply lookup_delete_ne|by apply lookup_insert_ne].
Qed.

Lemma apply_trade_to_own v (m : OpenOrders) id tk s p n :
  m !! id = Some (mkOpenOrder tk s p n) →
  apply_trade_to v m id !! id =
  if 0 <? n - v then Some (mkOpenOrder tk s p (n - v)) else None.
Proof.
  intros Hm. unfold apply_trade_to. rewrite Hm. cbn [oo_volume oo_ticker oo_side oo_price].
  destruct (Z.leb_spec (n - v) 0), (Z.ltb_spec 0 (n - v)); try lia.
  - apply lookup_delete_eq.
  - apply lookup_insert_eq.
Qed.

Section OneOrder.
Context {Ticker : Type} `{!TickerType Ticker}.
Implicit Types (o : OrderAdd Ticker) (b : AbstractBook) (x : Entry) (m : OpenOrders) (t : Ticker).

(** A resting order the way the listener records it. *)
Definition shown_as t (side : Side) x : OpenOrder :=
  mkOpenOrder (ticker_str t) side (value x.1) (entry_volume x).

Definition entry_key x : Z := value (entry_id x).

Definition apply_all (evs : list (MarketEvent Ticker)) m : OpenOrders :=
  foldl (λ m ev, apply_event (event_seen ev) m) m evs.

Definition fill_events o (fs : list Fill) : list (MarketEvent Ticker) :=
  (λ f, EvTrade (trade_of o f)) <$> fs.

Lemma apply_all_app evs1 evs2 m : apply_all (evs1 ++ evs2) m = apply_all evs2 (apply_all evs1 m).
Proof. apply foldl_app. Qed.

(** What an entry of volume [n] becomes when [v] of it trades. *)
Definition traded tk s p (n v : Z) : option OpenOrder :=
  if 0 <? n - v then Some (mkOpenOrder tk s p (n - v)) else None.

(** One fill: the maker's and the taker's entries shrink, no other changes. *)
Lemma apply_trade_event o x v m t s tk ts tp n : entry_key x ≠ value (oa_orderId_ o) →
  m !! entry_key x = Some (shown_as t s x) →
  m !! value (oa_orderId_ o) = Some (mkOpenOrder tk ts tp n) →
  let m' := apply_event (event_seen (EvTrade (trade_of o (mkFill x v)))) m in
  m' !! entry_key x = traded (ticker_str t) s (value x.1) (entry_volume x) v ∧
  m' !! value (oa_orderId_ o) = traded tk ts tp n v ∧
  ∀ k, k ≠ value (oa_orderId_ o) → k ≠ entry_key x → m' !! k = m !! k.
Proof.
  intros Hne Hx Ho m'.
  change m' with (apply_trade_to v (apply_trade_to v m (entry_key x)) (value (oa_orderId_ o))).
  split_and!.
  - rewrite apply_trade_to_other by done. by apply apply_trade_to_own.
  - apply apply_trade_to_own. by rewrite apply_trade_to_other.
  - intros k ? ?. by rewrite !apply_trade_to_other.
Qed.

(** What the listener should hold after the fills [r] of order [o] on the list [l]. *)
Definition fills_seen t s tk ts tp o (l : list Entry) (r : FillResult) m m' : Prop :=
  m' !! value (oa_orderId_ o) =
    (if 0 <? fr_remaining r then Some (mkOpenOrder tk ts tp (fr_remaining r)) else None) ∧
  (∀ x, x ∈ fr_left r → m' !! entry_key x = Some (shown_as t s x)) ∧
  (∀ id, id ∈ fr_filled r → m' !! value id = None) ∧
  (∀ k, k ≠ value (oa_orderId_ o) → k ∉ entry_key <$> l → m' !! k = m !! k).

(** No fill at all. *)
Lemma fills_seen_none t s tk ts tp o l n m :
  m !! value (oa_orderId_ o) = (if 0 <? n then Some (mkOpenOrder tk ts tp n) else None) →
  (∀ x, x ∈ l → m !! entry_key x = Some (shown_as t s x)) →
  fills_seen t s tk ts tp o l (mkFillResult [] [] l n) m m.
Proof. intros Hm Hl. split_and!; [done..| |done]. by intros id ?%elem_of_nil. Qed.

(** The front order is filled, and then the rest of the list. *)
Lemma fills_seen_cons t s tk ts tp o x l r v m m1 m' :
  entry_key x ∉ entry_key <$> l → entry_key x ≠ value (oa_orderId_ o) →
  m1 !! entry_key x = None →
  (∀ k, k ≠ value (oa_orderId_ o) → k ≠ entry_key x → m1 !! k = m !! k) →
  fills_seen t s tk ts tp o l r m1 m' →
  fills_seen t s tk ts tp o (x :: l) (mkFillResult (mkFill x v :: fr_fills r)
    (entry_id x :: fr_filled r) (fr_left r) (fr_remaining r)) m m'.
Proof.
  intros Hx Hne H1 Hk (R1 & R2 & R3 & R4). split_and!; [done..| |]; cbn [fr_filled].
  - intros id [->|Hid]%elem_of_cons; [|by apply R3].
    change (value (entry_id x)) with (entry_key x). by rewrite R4.
  - intros k Hk1 Hk2. rewrite fmap_cons in Hk2. apply not_elem_of_cons in Hk2 as [? ?].
    rewrite R4 by done. by apply Hk.
Qed.

(** The fills of an order on a list of resting orders the listener knows: what is left
    is what the match leaves, the taker's entry is its remainder, and nothing else
    changes. *)
Lemma apply_fills crosses t s tk ts tp o (l : list Entry) n m :
  NoDup (entry_key <$> l) → value (oa_orderId_ o) ∉ entry_key <$> l →
  Forall (λ x, 0 < entry_volume x) l →
  m !! value (oa_orderId_ o) = (if 0 <? n then Some (mkOpenOrder tk ts tp n) else None) →
  (∀ x, x ∈ l → m !! entry_key x = Some (shown_as t s x)) →
  fills_seen t s tk ts tp o l (fill crosses l n) m
    (apply_all (fill_events o (fr_fills (fill crosses l n))) m).
Proof.
  revert n m. induction l as [|x l IH]; intros n m Hnd Htk Hv Hm Hl.
  { by apply fills_seen_none. }
  rewrite fmap_cons in Hnd, Htk. apply NoDup_cons in Hnd as [Hx Hnd].
  apply not_elem_of_cons in Htk as [Hne Htk]. apply Forall_cons in Hv as [Hvx Hv].
  cbn [fill]. destruct (Z.ltb_spec 0 n) as [Hn|Hn], (crosses x.1); cbn [andb];
    try (apply fills_seen_none; [|done]; destruct (Z.ltb_spec 0 n); done || lia).
  assert (∀ v, let m' := apply_event (event_seen (EvTrade (trade_of o (mkFill x v)))) m in
    ∀ y, (∀ k, k ≠ value (oa_orderId_ o) → k ≠ entry_key x → m' !! k = m !! k) → y ∈ l →
    m' !! entry_key y = Some (shown_as t s y)) as Hother.
  { intros v m' y Hk Hy. pose proof (list_elem_of_fmap_2 entry_key l y Hy).
    rewrite Hk by set_solver. apply Hl. by right. }
  destruct (Z.leb_spec (entry_volume x) n) as [Hle|Hgt].
  - destruct (apply_trade_event o x (entry_volume x) m t s tk ts tp n) as (H1 & H2 & H3);
      [done|apply Hl; by left|done|].
    unfold traded in H1. rewrite Z.sub_diag in H1. cbn [Z.ltb Z.compare] in H1.
    eapply fills_seen_cons; [done..|]. apply IH; [done..|]. intros y Hy. by apply (Hother _ y H3).
  - destruct (apply_trade_event o x n m t s tk ts tp n) as (H1 & H2 & H3);
      [done|apply Hl; by left|done|].
    unfold traded in H1, H2. rewrite Z.sub_diag in H2.
    destruct (Z.ltb_spec 0 (entry_volume x - n)); [|lia].
    split_and!; cbn [fr_left fr_filled fr_fills fr_remaining]; [done| |by intros id ?%elem_of_nil|].
    + intros y [->|Hy]%elem_of_cons; [done|]. by apply (Hother n y H3).
    + intros k ? Hnk. rewrite fmap_cons in Hnk. apply not_elem_of_cons in Hnk as [? ?].
      by apply H3.
Qed.
End OneOrder.
