(* ===== verification/Os.v ===== *)
(** * The operating system

    The system calls the gateway and the publisher make, as an interface: a class of
    calls on a state [K] of the system, and a class of what they promise (socket(2),
    bind(2), listen(2), accept4(2), read(2), close(2), fcntl(2), epoll(7),
    setsockopt(2)).  [sim] at the end is a simulated system that keeps the promises, on
    which the examples run. *)

From Stdlib Require Import Strings.Byte.
From stdpp Require Import gmap.
From S2P Require Import Prelude.

Local Open Scope Z_scope.

(** read(2) on a non-blocking socket: data, end of file, EAGAIN/EWOULDBLOCK, or
    another error. *)
Inductive ReadResult :=
  | RdData (bs : list byte)
  | RdEof
  | RdAgain
  | RdError.

Inductive SockType := SOCK_STREAM | SOCK_DGRAM.

(** The socket options the sources set, with their values. *)
Inductive SockOpt :=
  | SO_REUSEADDR (v : Z)
  | IP_MULTICAST_TTL (v : Z)
  | IP_MULTICAST_IF (s_addr : Z)
  | IP_MULTICAST_LOOP (v : Z).

#[export] Instance SockOpt_eq_dec : EqDecision SockOpt.
Proof. solve_decision. Defined.

(** struct sockaddr_in, its port and address in network byte order. *)
Record sockaddr_in := mkSockaddr {
  sin_port : Z;
  sin_addr : Z;
}.

#[export] Instance sockaddr_in_eq_dec : EqDecision sockaddr_in.
Proof. solve_decision. Defined.

(** htons and htonl on a little-endian machine. *)
Definition htons (z : Z) : Z :=
  Z.lor (Z.shiftl (Z.land z 255) 8) (Z.land (Z.shiftr z 8) 255).
Definition htonl (z : Z) : Z :=
  Z.lor (Z.shiftl (htons (Z.land z 65535)) 16) (htons (Z.land (Z.shiftr z 16) 65535)).

Definition INADDR_ANY : Z := 0.
Definition INADDR_LOOPBACK : Z := 2130706433.    (* 127.0.0.1 *)
Definition SOMAXCONN : Z := 4096.
Definition O_NONBLOCK : Z := 2048.

(** A call that returns an int is negative on failure. *)
Class Kernel (K : Type) := {
  sys_socket : SockType → K → Z * K;
  sys_setsockopt : Z → SockOpt → K → K;
  sys_bind : Z → sockaddr_in → K → Z * K;
  sys_listen : Z → Z → K → Z * K;
  sys_getfl : Z → K → Z * K;                     (* fcntl(fd, F_GETFL, 0) *)
  sys_setfl : Z → Z → K → K;                     (* fcntl(fd, F_SETFL, flags) *)
  sys_accept : Z → K → option Z * K;             (* accept4; [None]: nothing pending *)
  sys_read : Z → nat → K → ReadResult * K;
  sys_close : Z → K → K;
  sys_epoll_create : K → Z * K;
  sys_epoll_add : Z → Z → K → K;                 (* epoll_ctl(epfd, EPOLL_CTL_ADD, fd, EPOLLIN) *)
  sys_epoll_del : Z → Z → K → K;                 (* epoll_ctl(epfd, EPOLL_CTL_DEL, fd) *)
  sys_epoll_wait : Z → nat → K → option (list Z) * K;  (* [None]: n < 0 *)
  (** Bytes that have arrived on a connection and are not read yet, connections
      waiting to be accepted, open descriptors, file status flags, options set. *)
  k_pending : Z → K → list byte;
  k_backlog : K → nat;
  k_open : K → gset Z;
  k_flags : Z → K → Z;
  k_opts : Z → K → list SockOpt;
}.

(** A call that opens nothing, closes nothing, and sets no flag or option. *)
Definition passive {K} `{!Kernel K} (k k' : K) : Prop :=
  k_open k' = k_open k ∧ ∀ fd, k_flags fd k' = k_flags fd k ∧ k_opts fd k' = k_opts fd k.

(** A call that returns a new descriptor or fails. *)
Definition opens {K} `{!Kernel K} (fd : Z) (k k' : K) : Prop :=
  (if fd <? 0 then k_open k' = k_open k
   else fd ∉ k_open k ∧ k_open k' = {[fd]} ∪ k_open k ∧ k_opts fd k' = []) ∧
  ∀ fd', fd' ≠ fd → k_flags fd' k' = k_flags fd' k ∧ k_opts fd' k' = k_opts fd' k.

Class KernelLaws (K : Type) `{!Kernel K} : Prop := {
  socket_law ty k : let (fd, k') := sys_socket ty k in opens fd k k';
  setsockopt_law fd opt k : let k' := sys_setsockopt fd opt k in
    k_open k' = k_open k ∧ k_opts fd k' = k_opts fd k ++ [opt] ∧
    (∀ fd', k_flags fd' k' = k_flags fd' k) ∧
    ∀ fd', fd' ≠ fd → k_opts fd' k' = k_opts fd' k;
  bind_law fd addr k : passive k (sys_bind fd addr k).2;
  listen_law fd n k : passive k (sys_listen fd n k).2;
  getfl_law fd k : passive k (sys_getfl fd k).2;
  setfl_law fd flags k : let k' := sys_setfl fd flags k in
    k_open k' = k_open k ∧ k_flags fd k' = flags ∧
    ∀ fd', k_opts fd' k' = k_opts fd' k;
  accept_law lfd k :
    let (res, k') := sys_accept lfd k in
    (∀ fd, k_pending fd k' = k_pending fd k) ∧
    match res with
    | Some fd => fd ∉ k_open k ∧ k_open k' = {[fd]} ∪ k_open k ∧ k_backlog k = S (k_backlog k')
    | None => k_open k' = k_open k
    end;
  read_law fd n k : (0 < n)%nat →
    let (res, k') := sys_read fd n k in
    k_backlog k' = k_backlog k ∧ k_open k' = k_open k ∧
    (∀ fd', fd' ≠ fd → k_pending fd' k' = k_pending fd' k) ∧
    match res with
    | RdData bs => (0 < length bs ≤ n)%nat ∧ k_pending fd k = bs ++ k_pending fd k'
    | _ => k_pending fd k' = k_pending fd k
    end;
  close_law fd k :
    k_backlog (sys_close fd k) = k_backlog k ∧ k_open (sys_close fd k) = k_open k ∖ {[fd]} ∧
    ∀ fd', fd' ≠ fd → k_pending fd' (sys_close fd k) = k_pending fd' k;
  epoll_create_law k : let (fd, k') := sys_epoll_create k in opens fd k k';
  epoll_add_law epfd fd k : let k' := sys_epoll_add epfd fd k in
    passive k k' ∧ k_backlog k' = k_backlog k ∧ ∀ fd', k_pending fd' k' = k_pending fd' k;
  epoll_del_law epfd fd k : let k' := sys_epoll_del epfd fd k in
    passive k k' ∧ k_backlog k' = k_backlog k ∧ ∀ fd', k_pending fd' k' = k_pending fd' k;
  (** While the gateway waits, peers connect and send. *)
  epoll_wait_law epfd n k :
    let (res, k') := sys_epoll_wait epfd n k in
    passive k k' ∧ match res with Some evs => (length evs ≤ n)%nat | None => True end;
}.

(** ** A simulated system *)

(** What happens while the gateway waits: peers connect (with descriptors chosen in
    advance) and send, and these descriptors are reported. *)
Record sim_round := mkRound {
  rd_connect : list Z;
  rd_send : gmap Z (list byte);
  rd_events : list Z;
}.

(** Arrived bytes, descriptors waiting to be accepted, open ones, flags and options;
    the next descriptor, the calls that are to fail, and the rounds to come. *)
Record sim := mkSim {
  sim_in : gmap Z (list byte);
  sim_wait : list Z;
  sim_open : gset Z;
  sim_flags : gmap Z Z;
  sim_opts : gmap Z (list SockOpt);
  sim_next : Z;
  sim_bind_ok : bool;
  sim_listen_ok : bool;
  sim_epoll_ok : bool;
  sim_rounds : list sim_round;
}.

Definition sim_bytes (fd : Z) (k : sim) : list byte := default [] (sim_in k !! fd).

Definition sim_set (i : gmap Z (list byte)) (w : list Z) (o : gset Z) (k : sim) : sim :=
  mkSim i w o (sim_flags k) (sim_opts k) (sim_next k) (sim_bind_ok k) (sim_listen_ok k)
    (sim_epoll_ok k) (sim_rounds k).

(** A new descriptor; the call fails if the number is taken. *)
Definition sim_new (k : sim) : Z * sim :=
  let fd := sim_next k in
  if decide (fd < 0 ∨ fd ∈ sim_open k) then (-1, k)
  else (fd, mkSim (sim_in k) (sim_wait k) ({[fd]} ∪ sim_open k) (sim_flags k)
             (<[fd := []]> (sim_opts k)) (fd + 1) (sim_bind_ok k) (sim_listen_ok k)
             (sim_epoll_ok k) (sim_rounds k)).

Definition sim_read (fd : Z) (n : nat) (k : sim) : ReadResult * sim :=
  match sim_bytes fd k with
  | [] => (RdAgain, k)
  | bs => (RdData (take n bs), sim_set (<[fd := drop n bs]> (sim_in k)) (sim_wait k) (sim_open k) k)
  end.

Definition sim_accept (k : sim) : option Z * sim :=
  match sim_wait k with
  | fd :: w => if decide (fd ∈ sim_open k) then (None, k)
               else (Some fd, sim_set (sim_in k) w ({[fd]} ∪ sim_open k) k)
  | [] => (None, k)
  end.

Definition sim_epoll_wait (n : nat) (k : sim) : option (list Z) * sim :=
  match sim_rounds k with
  | [] => (None, k)
  | r :: rs => (Some (take n (rd_events r)),
      mkSim (union_with (λ a b, Some (a ++ b)) (sim_in k) (rd_send r)) (sim_wait k ++ rd_connect r)
        (sim_open k) (sim_flags k) (sim_opts k) (sim_next k) (sim_bind_ok k) (sim_listen_ok k)
        (sim_epoll_ok k) rs)
  end.

Definition sim_result (ok : bool) : Z := if ok then 0 else -1.

#[export] Instance sim_kernel : Kernel sim := {|
  sys_socket _ := sim_new;
  sys_setsockopt fd opt k := mkSim (sim_in k) (sim_wait k) (sim_open k) (sim_flags k)
    (<[fd := default [] (sim_opts k !! fd) ++ [opt]]> (sim_opts k)) (sim_next k)
    (sim_bind_ok k) (sim_listen_ok k) (sim_epoll_ok k) (sim_rounds k);
  sys_bind _ _ k := (sim_result (sim_bind_ok k), k);
  sys_listen _ _ k := (sim_result (sim_listen_ok k), k);
  sys_getfl fd k := (default 0 (sim_flags k !! fd), k);
  sys_setfl fd flags k := mkSim (sim_in k) (sim_wait k) (sim_open k)
    (<[fd := flags]> (sim_flags k)) (sim_opts k) (sim_next k) (sim_bind_ok k)
    (sim_listen_ok k) (sim_epoll_ok k) (sim_rounds k);
  sys_accept _ := sim_accept;
  sys_read := sim_read;
  sys_close fd k := sim_set (sim_in k) (sim_wait k) (sim_open k ∖ {[fd]}) k;
  sys_epoll_create k := if sim_epoll_ok k then sim_new k else (-1, k);
  sys_epoll_add _ _ k := k;
  sys_epoll_del _ _ k := k;
  sys_epoll_wait _ := sim_epoll_wait;
  k_pending := sim_bytes;
  k_backlog k := length (sim_wait k);
  k_open := sim_open;
  k_flags fd k := default 0 (sim_flags k !! fd);
  k_opts fd k := default [] (sim_opts k !! fd);
|}.

Lemma sim_new_opens k : let (fd, k') := sim_new k in opens fd k k'.
Proof.
  unfold sim_new. case_decide as Hd; [by split|].
  apply Decidable.not_or in Hd as [H1 H2]. split; cbn.
  - destruct (Z.ltb_spec (sim_next k) 0); [lia|]. by rewrite lookup_insert_eq.
  - intros fd' Hne. by rewrite lookup_insert_ne.
Qed.

#[export] Instance sim_kernel_laws : KernelLaws sim.
Proof.
  split; try done.
  - intros ty k. apply sim_new_opens.
  - intros fd opt k. cbn. rewrite lookup_insert_eq. split_and!; [done..|].
    intros fd' Hne. by rewrite lookup_insert_ne.
  - intros fd flags k. cbn. by rewrite lookup_insert_eq.
  - intros lfd k. cbn. unfold sim_accept. destruct (sim_wait k) as [|fd w]; [done|]. by case_decide.
  - intros fd n k Hn. cbn. unfold sim_read. destruct (sim_bytes fd k) as [|b bs] eqn:E; [done|].
    split_and!; [done..| | | |].
    + intros fd' Hne. unfold sim_bytes. cbn. by rewrite lookup_insert_ne.
    + rewrite length_take. cbn. lia.
    + rewrite length_take. lia.
    + unfold sim_bytes at 1. cbn. rewrite lookup_insert_eq. cbn. by rewrite take_drop.
  - intros k. cbn. destruct (sim_epoll_ok k); [apply sim_new_opens|]. by split.
  - intros epfd n k. cbn. unfold sim_epoll_wait. destruct (sim_rounds k); [done|].
    split; [done|]. rewrite length_take. lia.
Qed.
