(* ===== verification/Gateway.v ===== *)
(** * The gateway (common/net/gateway.hpp, gateway.cpp)

    The epoll loop that accepts connections, reassembles fixed-size frames per
    connection and dispatches the commands; the set-up of its sockets and its
    destructor.  The system calls are those of Os.v. *)

From Stdlib Require Import Strings.Byte.
From stdpp Require Import gmap.
From S2P Require Import Prelude Interfaces Double CoreTypes Bytes Wire Os.

Local Open Scope Z_scope.

(** ** State *)

Record Connection := mkConnection {
  buffer_ : list byte;
  filled_ : nat;
}.

Definition buffer_size : nat := sizeof_InboundWireMessage.

Definition connection_init : Connection := mkConnection (replicate buffer_size x00) 0.

(** port_, listenFd_, epollFd_ *)
Record GwFds := mkFds {
  port_ : Z;
  listenFd_ : Z;
  epollFd_ : Z;
}.

(** The descriptors, connections_, the system, and what was dispatched. *)
Record GwState (Conns K H : Type) := mkGw {
  gw_fds : GwFds;
  connections_ : Conns;
  gw_kernel : K;
  gw_out : H;
}.
Arguments mkGw {Conns K H} _ _ _ _.
Arguments gw_fds {Conns K H} _.
Arguments connections_ {Conns K H} _.
Arguments gw_kernel {Conns K H} _.
Arguments gw_out {Conns K H} _.

Notation ConnMap := (UMap Z Connection).
Notation ConnLaws := (UMapLaws Z Connection).

Section GatewayOps.
Context {Ticker : Type} `{!TickerType Ticker}.
Context {Conns : Type} `{!ConnMap Conns} {K : Type} `{!Kernel K}.
(** The push on the inbound queue, retried until it succeeds. *)
Context {H : Type} (push : InboundCommand Ticker → H → Outcome H).
Implicit Types (g : GwState Conns K H) (fd : Z) (conn : Connection).

Definition Dispatch (message : list byte) (h : H) : Outcome H :=
  cmd ← DecodeInboundMessage message; push cmd h.

Definition CloseConnection fd g : GwState Conns K H :=
  let k := sys_epoll_del (epollFd_ (gw_fds g)) fd (gw_kernel g) in
  let k := sys_close fd k in
  mkGw (gw_fds g) (um_erase fd (connections_ g)) k (gw_out g).

(** The loop of ReadFrom; [conn] is the reference into the connection table. *)
Fixpoint ReadLoop (fuel : nat) fd conn g : Outcome (GwState Conns K H) :=
  match fuel with
  | O => OutOfFuel
  | S fuel' =>
      let remaining := (buffer_size - filled_ conn)%nat in
      let (n, k) := sys_read fd remaining (gw_kernel g) in
      match n with
      | RdData bs =>
          let conn := mkConnection (poke (filled_ conn) bs (buffer_ conn))
                        (filled_ conn + length bs) in
          '(conn, h) ←
            (if (filled_ conn =? buffer_size)%nat then
               h ← Dispatch (buffer_ conn) (gw_out g);
               Ok (mkConnection (buffer_ conn) 0, h)
             else Ok (conn, gw_out g));
          let g := mkGw (gw_fds g) (um_set fd conn (connections_ g)) k h in
          if (length bs <? remaining)%nat then Ok g else ReadLoop fuel' fd conn g
      | RdEof => Ok (CloseConnection fd (mkGw (gw_fds g) (connections_ g) k (gw_out g)))
      | RdAgain => Ok (mkGw (gw_fds g) (connections_ g) k (gw_out g))
      | RdError => Ok (CloseConnection fd (mkGw (gw_fds g) (connections_ g) k (gw_out g)))
      end
  end.

Definition ReadFrom fd g : Outcome (GwState Conns K H) :=
  match um_find fd (connections_ g) with
  | None => Ok g
  | Some conn => ReadLoop (S (length (k_pending fd (gw_kernel g)))) fd conn g
  end.

Fixpoint AcceptLoop (fuel : nat) g : Outcome (GwState Conns K H) :=
  match fuel with
  | O => OutOfFuel
  | S fuel' =>
      let (res, k) := sys_accept (listenFd_ (gw_fds g)) (gw_kernel g) in
      match res with
      | None => Ok (mkGw (gw_fds g) (connections_ g) k (gw_out g))
      | Some fd =>
          AcceptLoop fuel' (mkGw (gw_fds g) (um_set fd connection_init (connections_ g))
            (sys_epoll_add (epollFd_ (gw_fds g)) fd k) (gw_out g))
      end
  end.

Definition AcceptConnections g : Outcome (GwState Conns K H) :=
  AcceptLoop (S (k_backlog (gw_kernel g))) g.

Definition CloseAllConnections g : GwState Conns K H :=
  match um_entries (connections_ g) with
  | [] => g
  | entries => mkGw (gw_fds g) um_empty
                 (foldl (λ k '(fd, _), sys_close fd k) (gw_kernel g) entries) (gw_out g)
  end.

(** One event of the loop of Run. *)
Definition HandleEvent fd g : Outcome (GwState Conns K H) :=
  if fd =? listenFd_ (gw_fds g) then AcceptConnections g else ReadFrom fd g.

(** std::array<epoll_event, 64> events *)
Definition max_events : nat := 64.

(** The while loop of Run; [rounds] is how often running_ is found true. *)
Fixpoint EventLoop (rounds : nat) g : Outcome (GwState Conns K H) :=
  match rounds with
  | O => Ok g
  | S rounds' =>
      let (n, k) := sys_epoll_wait (epollFd_ (gw_fds g)) max_events (gw_kernel g) in
      let g := mkGw (gw_fds g) (connections_ g) k (gw_out g) in
      g ← foldM HandleEvent (default [] n) g;
      EventLoop rounds' g
  end.

(** What Run does after the loop. *)
Definition Shutdown g : GwState Conns K H :=
  let g := CloseAllConnections g in
  let k := sys_close (epollFd_ (gw_fds g)) (gw_kernel g) in
  let k := sys_close (listenFd_ (gw_fds g)) k in
  mkGw (mkFds (port_ (gw_fds g)) (-1) (-1)) (connections_ g) k (gw_out g).

(** ** Construction, set-up, destruction *)

Definition Gateway_new (port : Z) (k : K) (h : H) : GwState Conns K H :=
  mkGw (mkFds port (-1) (-1)) um_empty k h.

Definition SetNonBlocking fd (k : K) : K :=
  let (flags, k) := sys_getfl fd k in
  sys_setfl fd (Z.lor flags O_NONBLOCK) k.

(** The std::runtime_error of each failing call. *)
Inductive SetupError := SocketFailed | BindFailed | ListenFailed | EpollCreateFailed.

(** Run up to the loop: the gateway it leaves, and the error it throws if any. *)
Definition Setup g : GwState Conns K H * option SetupError :=
  let port := port_ (gw_fds g) in
  let leave listenFd epollFd k := mkGw (mkFds port listenFd epollFd) (connections_ g) k (gw_out g) in
  let (listenFd, k) := sys_socket SOCK_STREAM (gw_kernel g) in
  if listenFd <? 0 then (leave listenFd (epollFd_ (gw_fds g)) k, Some SocketFailed) else
  let k := sys_setsockopt listenFd (SO_REUSEADDR 1) k in
  let (rc, k) := sys_bind listenFd (mkSockaddr (htons port) INADDR_ANY) k in
  if rc <? 0 then (leave listenFd (epollFd_ (gw_fds g)) k, Some BindFailed) else
  let (rc, k) := sys_listen listenFd SOMAXCONN k in
  if rc <? 0 then (leave listenFd (epollFd_ (gw_fds g)) k, Some ListenFailed) else
  let k := SetNonBlocking listenFd k in
  let (epollFd, k) := sys_epoll_create k in
  if epollFd <? 0 then (leave listenFd epollFd k, Some EpollCreateFailed) else
  (leave listenFd epollFd (sys_epoll_add epollFd listenFd k), None).

(** How Run ends: normally, with the exception of a set-up call, or with that of a
    frame (or a handler) inside the loop. *)
Inductive RunResult :=
  | RunReturned (g : GwState Conns K H)
  | RunSetupThrew (g : GwState Conns K H) (err : SetupError)
  | RunLoopThrew (e : exn)
  | RunStuck.

Definition Run (rounds : nat) g : RunResult :=
  match Setup g with
  | (g, Some err) => RunSetupThrew g err
  | (g, None) =>
      match EventLoop rounds g with
      | Ok g => RunReturned (Shutdown g)
      | Throw e => RunLoopThrew e
      | _ => RunStuck
      end
  end.

(** ~Gateway(); Stop() only clears running_. *)
Definition Gateway_delete g : GwState Conns K H :=
  let g := CloseAllConnections g in
  let '(mkFds port listenFd epollFd) := gw_fds g in
  let '(epollFd, k) :=
    if 0 <=? epollFd then (-1, sys_close epollFd (gw_kernel g)) else (epollFd, gw_kernel g) in
  let '(listenFd, k) :=
    if 0 <=? listenFd then (-1, sys_close listenFd k) else (listenFd, k) in
  mkGw (mkFds port listenFd epollFd) (connections_ g) k (gw_out g).
End GatewayOps.
Arguments RunResult : clear implicits.

(** ** Framing *)

(** A stream cut into frames of the size of a message, and what is left over. *)
Record Framed (stream : list byte) (frames : list (list byte)) (rest : list byte) : Prop := {
  framed_stream : stream = concat frames ++ rest;
  framed_sizes : Forall (λ f, length f = buffer_size) frames;
  framed_rest : (length rest < buffer_size)%nat;
}.

(** The bytes of an incomplete frame a connection holds. *)
Definition held (conn : Connection) : list byte := take (filled_ conn) (buffer_ conn).

Definition conn_ok (conn : Connection) : Prop :=
  length (buffer_ conn) = buffer_size ∧ (filled_ conn < buffer_size)%nat.

Lemma connection_init_ok : conn_ok connection_init ∧ held connection_init = [].
Proof. split; [split; cbn; [done|lia]|done]. Qed.

Lemma take_poke off bs m : (off + length bs ≤ length m)%nat →
  take (off + length bs) (poke off bs m) = take off m ++ bs.
Proof.
  intros Hl. apply list_eq. intros i. destruct (decide (i < off + length bs)%nat).
  - rewrite lookup_take_lt by done. unfold poke. destruct (decide (i < off)%nat).
    + rewrite list_lookup_inserts_lt by lia.
      rewrite lookup_app_l by (rewrite length_take; lia). by rewrite lookup_take_lt.
    + rewrite list_lookup_inserts by lia.
      rewrite lookup_app_r; rewrite length_take; [f_equal|]; lia.
  - rewrite lookup_take_ge by lia. symmetry. apply lookup_ge_None_2.
    rewrite length_app, length_take. lia.
Qed.

Section ReadFacts.
Context {Ticker : Type} `{!TickerType Ticker} `{!TickerLaws Ticker}.
Context {Conns : Type} `{!ConnMap Conns} `{!ConnLaws Conns}.
Context {K : Type} `{!Kernel K} `{!KernelLaws K}.
Notation Gw := (GwState Conns K (list (InboundCommand Ticker))).
Implicit Types (g : Gw) (fd : Z) (conn : Connection).

(** The frames decode, one by one, to the commands. *)
Definition decodes (frames : list (list byte)) (cmds : list (InboundCommand Ticker)) : Prop :=
  Forall2 (λ f c, DecodeInboundMessage f = Ok c) frames cmds.

(** What the rest of the gateway sees of handling one connection: nothing. *)
Definition frame_condition fd g g' : Prop :=
  gw_fds g' = gw_fds g ∧ k_backlog (gw_kernel g') = k_backlog (gw_kernel g) ∧
  ∀ fd', fd' ≠ fd → um_find fd' (connections_ g') = um_find fd' (connections_ g) ∧
    k_pending fd' (gw_kernel g') = k_pending fd' (gw_kernel g).

(** The connection is kept, holding an incomplete frame, or it is closed. *)
Definition conn_after fd rest tail g g' : Prop :=
  (∃ conn', um_find fd (connections_ g') = Some conn' ∧ conn_ok conn' ∧ held conn' = rest ∧
     k_pending fd (gw_kernel g') = tail ∧ k_open (gw_kernel g') = k_open (gw_kernel g)) ∨
  (um_find fd (connections_ g') = None ∧
     k_open (gw_kernel g') = k_open (gw_kernel g) ∖ {[fd]}).

Definition read_post fd (start : list byte) g g' : Prop :=
  ∃ bytes tail frames rest cmds,
    k_pending fd (gw_kernel g) = bytes ++ tail ∧
    Framed (start ++ bytes) frames rest ∧ decodes frames cmds ∧
    gw_out g' = gw_out g ++ cmds ∧ conn_after fd rest tail g g' ∧ frame_condition fd g g'.

(** A bad frame is the only way reading fails. *)
Definition read_outcome fd (start : list byte) g (r : Outcome Gw) : Prop :=
  match r with
  | Ok g' => read_post fd start g g'
  | Throw e => e = length_error ∧ ∃ before frame after,
      start ++ k_pending fd (gw_kernel g) = before ++ frame ++ after ∧
      length frame = buffer_size ∧
      DecodeInboundMessage frame = Throw length_error (A:=InboundCommand Ticker)
  | Undefined | OutOfFuel => False
  end.

Lemma CloseConnection_after fd rest g k : k_open k = k_open (gw_kernel g) →
  k_backlog k = k_backlog (gw_kernel g) →
  (∀ fd', fd' ≠ fd → k_pending fd' k = k_pending fd' (gw_kernel g)) →
  let g' := CloseConnection fd (mkGw (gw_fds g) (connections_ g) k (gw_out g)) in
  gw_out g' = gw_out g ∧ conn_after fd rest (k_pending fd (gw_kernel g)) g g' ∧
  frame_condition fd g g'.
Proof.
  intros Ho Hb Hp g'. split; [done|]. cbn.
  destruct (epoll_del_law (epollFd_ (gw_fds g)) fd k) as ([O1 _] & B1 & P1).
  destruct (close_law fd (sys_epoll_del (epollFd_ (gw_fds g)) fd k)) as (B2 & O2 & P2). split.
  - right. cbn. by rewrite um_find_erase_eq, O2, O1, Ho.
  - split_and!; cbn; [done|congruence|]. intros fd' Hne.
    by rewrite um_find_erase_ne, P2, P1, Hp.
Qed.

Lemma read_post_nothing fd conn g g' : conn_ok conn →
  gw_out g' = gw_out g → conn_after fd (held conn) (k_pending fd (gw_kernel g)) g g' →
  frame_condition fd g g' → read_post fd (held conn) g g'.
Proof.
  intros [Hl Hf] Ho Hc Hfr. exists [], (k_pending fd (gw_kernel g)), [], (held conn), [].
  split_and!; [done| |constructor|by rewrite app_nil_r|done..].
  split; [by rewrite app_nil_r|constructor|]. unfold held. rewrite length_take. lia.
Qed.

(** A completed frame, and what is read after it. *)
Lemma read_outcome_frame fd start bs cmd g g1 r :
  k_pending fd (gw_kernel g) = bs ++ k_pending fd (gw_kernel g1) →
  length (start ++ bs) = buffer_size → DecodeInboundMessage (start ++ bs) = Ok cmd →
  gw_out g1 = gw_out g ++ [cmd] → k_open (gw_kernel g1) = k_open (gw_kernel g) →
  frame_condition fd g g1 → read_outcome fd [] g1 r → read_outcome fd start g r.
Proof.
  intros Hp Hl Hd Ho Hopen (Fd & Fb & Ff) Hr. destruct r as [g'|e| |]; cbn in *; [|..|done|done].
  - destruct Hr as (bytes & tail & frames & rest & cmds & Hp1 & [Hs Hsz Hrest] & Hdec &
      Ho1 & Hc & (Fd1 & Fb1 & Ff1)).
    exists (bs ++ bytes), tail, ((start ++ bs) :: frames), rest, (cmd :: cmds).
    split_and!.
    + rewrite Hp, Hp1. by rewrite (assoc_L (++)).
    + cbn in Hs. split; [|by constructor|done]. cbn. rewrite Hs.
      by rewrite !(assoc_L (++)).
    + by constructor.
    + rewrite Ho1, Ho. by rewrite <-(assoc_L (++)).
    + unfold conn_after in *. by rewrite <-Hopen.
    + split_and!; [congruence..|]. intros fd' Hne. destruct (Ff fd' Hne), (Ff1 fd' Hne).
      split; congruence.
  - destruct Hr as [He (before & frame & after & E & Hlen & Hbad)]. split; [done|].
    exists ((start ++ bs) ++ before), frame, after. split_and!; [|done..].
    rewrite Hp. rewrite <-!(assoc_L (++)). do 2 f_equal. done.
Qed.

(** A frame either decodes or has a ticker that is too long. *)
Lemma DecodeInboundMessage_cases (msg : list byte) : length msg = buffer_size →
  (∃ cmd : InboundCommand Ticker, DecodeInboundMessage msg = Ok cmd) ∨
  DecodeInboundMessage msg = Throw length_error (A:=InboundCommand Ticker).
Proof.
  intros Hlen. set (tk := peek 17 WIRE_TICKER_SIZE msg).
  assert (length tk = WIRE_TICKER_SIZE) as Hl
    by (unfold tk; rewrite length_peek; [done|rewrite Hlen; cbn; lia]).
  pose proof (DecodeTicker_cases (Ticker:=Ticker) _ Hl) as Hc.
  unfold DecodeInboundMessage, DecodeOrderAdd, DecodeOrderCancel.
  change (wa_ticker_ (view_orderAdd msg)) with tk.
  change (wc_ticker_ (view_orderCancel msg)) with tk.
  case_decide; [rewrite Hc|destruct Hc as [t ->]]; destruct (view_type msg =? _); eauto.
Qed.

(** A read that completes no frame. *)
Lemma read_partial fd conn bs k g : conn_ok conn →
  (filled_ conn + length bs < buffer_size)%nat →
  k_backlog k = k_backlog (gw_kernel g) → k_open k = k_open (gw_kernel g) →
  (∀ fd', fd' ≠ fd → k_pending fd' k = k_pending fd' (gw_kernel g)) →
  k_pending fd (gw_kernel g) = bs ++ k_pending fd k →
  let conn1 := mkConnection (poke (filled_ conn) bs (buffer_ conn)) (filled_ conn + length bs) in
  read_post fd (held conn) g (mkGw (gw_fds g) (um_set fd conn1 (connections_ g)) k (gw_out g)).
Proof.
  intros [Hl Hf] Hpart Hb Ho Hother Hp conn1.
  assert (held conn1 = held conn ++ bs) as Hheld by (apply take_poke; lia).
  assert (conn_ok conn1) as Hok1 by (split; cbn [buffer_ filled_ conn1]; [by rewrite length_poke|done]).
  exists bs, (k_pending fd k), [], (held conn1), [].
  split_and!; [done| |constructor|by rewrite app_nil_r| |].
  - split; [by rewrite Hheld|constructor|].
    unfold held. rewrite length_take. destruct Hok1. lia.
  - left. exists conn1. cbn. by rewrite um_find_set_eq.
  - split_and!; cbn; [done..|]. intros fd' Hne. by rewrite um_find_set_ne, Hother.
Qed.

(** A read that completes the frame fills the buffer with it. *)
Lemma full_buffer conn bs : conn_ok conn → (filled_ conn + length bs = buffer_size)%nat →
  poke (filled_ conn) bs (buffer_ conn) = held conn ++ bs ∧
  length (held conn ++ bs) = buffer_size.
Proof.
  intros [Hl Hf] Hfull. assert (poke (filled_ conn) bs (buffer_ conn) = held conn ++ bs) as E.
  { unfold held. rewrite <-take_poke, Hfull, <-Hl by lia.
    by rewrite <-(length_poke (filled_ conn) bs), firstn_all. }
  split; [done|]. by rewrite <-E, length_poke.
Qed.

Lemma ReadLoop_spec fuel fd conn g : conn_ok conn →
  um_find fd (connections_ g) = Some conn →
  (length (k_pending fd (gw_kernel g)) < fuel)%nat →
  read_outcome fd (held conn) g (ReadLoop collect fuel fd conn g).
Proof.
  revert conn g. induction fuel as [|fuel IH]; intros conn g Hok Hfind Hfuel; [lia|].
  pose proof Hok as [Hl Hf]. cbn [ReadLoop].
  pose proof (read_law fd (buffer_size - filled_ conn) (gw_kernel g) ltac:(lia)) as HL.
  destruct (sys_read fd (buffer_size - filled_ conn) (gw_kernel g)) as [res k].
  destruct HL as (Hb & Ho & Hother & Hres). destruct res as [bs| | |].
  - destruct Hres as [[Hb1 Hb2] Hp]. cbn [filled_ buffer_].
    destruct (Nat.ltb_spec (length bs) (buffer_size - filled_ conn)).
    { rewrite (proj2 (Nat.eqb_neq _ _)) by lia. apply read_partial; (done || lia). }
    destruct (full_buffer conn bs Hok) as [-> Hlen]; [lia|].
    rewrite (proj2 (Nat.eqb_eq _ _)) by lia. unfold Dispatch.
    destruct (DecodeInboundMessage_cases (held conn ++ bs) Hlen) as [[cmd Hcmd]|Hbad].
    + rewrite Hcmd. cbn [mbind Outcome_bind collect].
      eapply (read_outcome_frame fd (held conn) bs cmd g (mkGw (gw_fds g)
        (um_set fd (mkConnection (held conn ++ bs) 0) (connections_ g)) k (gw_out g ++ [cmd])));
        [done..|split_and!; cbn; [done..|]|].
      * intros fd' Hne. by rewrite um_find_set_ne, Hother.
      * apply (IH (mkConnection (held conn ++ bs) 0)); cbn;
          [split; [done|by apply Nat.lt_0_succ]|apply um_find_set_eq|].
        rewrite Hp, length_app in Hfuel. lia.
    + rewrite Hbad. split; [done|]. exists [], (held conn ++ bs), (k_pending fd k).
      split_and!; [|done..]. by rewrite Hp, (assoc_L (++)).
  - destruct (CloseConnection_after fd (held conn) g k Ho Hb Hother) as (? & ? & ?).
    by apply read_post_nothing.
  - apply read_post_nothing; [done|done| |].
    + left. exists conn. cbn. by rewrite Hres, Ho.
    + split_and!; cbn; [done..|]. intros fd' Hne. by rewrite Hother.
  - destruct (CloseConnection_after fd (held conn) g k Ho Hb Hother) as (? & ? & ?).
    by apply read_post_nothing.
Qed.
End ReadFacts.
