(* ===== verification/GatewayTheorems.v ===== *)
(** * What the gateway guarantees

    Frames are reassembled whatever the chunks they arrive in; the connection table
    and the open descriptors always agree; a run closes everything it opened. *)

From Stdlib Require Import Strings.Byte.
From stdpp Require Import gmap.
From S2P Require Import Prelude Interfaces Double CoreTypes Seqlock FlatMap MatchingEngine Concrete Bytes Wire Os Gateway.

Local Open Scope Z_scope.

Section Table.
Context {Ticker : Type} `{!TickerType Ticker} `{!TickerLaws Ticker}.
Context {Conns : Type} `{!ConnMap Conns} `{!ConnLaws Conns}.
Context {K : Type} `{!Kernel K} `{!KernelLaws K}.
Notation Gw := (GwState Conns K (list (InboundCommand Ticker))).
Implicit Types (g : Gw) (fd : Z) (conn : Connection).

(** Every connection is well formed, and the open descriptors are those of the table
    and the [others] of the process: the listening socket, the epoll instance, and what
    other parts of the program opened. *)
Record gateway_ok (others : gset Z) g : Prop := {
  go_conns fd conn : um_find fd (connections_ g) = Some conn → conn_ok conn;
  go_open fd : fd ∈ k_open (gw_kernel g) ↔ fd ∈ others ∨ is_Some (um_find fd (connections_ g));
  go_others fd : fd ∈ others → um_find fd (connections_ g) = None;
}.

Lemma ReadFrom_outcome others fd conn g : gateway_ok others g →
  um_find fd (connections_ g) = Some conn →
  read_outcome fd (held conn) g (ReadFrom collect fd g).
Proof.
  intros Hok Hf. unfold ReadFrom. rewrite Hf.
  apply ReadLoop_spec; [by eapply go_conns|done|lia].
Qed.

Lemma read_post_ok others fd start g g' : gateway_ok others g →
  is_Some (um_find fd (connections_ g)) → read_post fd start g g' → gateway_ok others g'.
Proof.
  intros [Hc Ht Ho] Hf (bytes & tail & frames & rest & cmds & _ & _ & _ & _ & Ha & (_ & _ & Hfr)).
  assert (fd ∉ others) as Hfd by (intros Hin%Ho; rewrite Hin in Hf; by destruct Hf).
  split; intros fd'.
  - intros conn Hfind. destruct (decide (fd' = fd)) as [->|Hne].
    + destruct Ha as [(conn' & Hf' & Hok & _)|[Hf' _]]; congruence.
    + destruct (Hfr fd' Hne) as [E _]. rewrite E in Hfind. by eapply Hc.
  - destruct (decide (fd' = fd)) as [->|Hne].
    + destruct Ha as [(conn' & -> & _ & _ & _ & ->)|[-> ->]].
      * rewrite Ht. naive_solver.
      * split; [set_solver|]. by intros [?|[? ?]].
    + destruct (Hfr fd' Hne) as [-> _]. rewrite <-Ht.
      destruct Ha as [(conn' & _ & _ & _ & _ & ->)|[_ ->]]; set_solver.
  - intros Hin. assert (fd' ≠ fd) as Hne by congruence.
    destruct (Hfr fd' Hne) as [-> _]. by apply Ho.
Qed.

(** accept: each new descriptor gets an empty connection. *)
Lemma AcceptLoop_ok others fuel g : gateway_ok others g → (k_backlog (gw_kernel g) < fuel)%nat →
  ∃ g', AcceptLoop fuel g = Ok g' ∧ gateway_ok others g' ∧ gw_out g' = gw_out g ∧
    gw_fds g' = gw_fds g ∧
    ∀ fd conn, um_find fd (connections_ g) = Some conn →
      um_find fd (connections_ g') = Some conn.
Proof.
  revert g. induction fuel as [|fuel IH]; intros g [Hc Ht Hot] Hb; [lia|]. cbn [AcceptLoop].
  pose proof (accept_law (listenFd_ (gw_fds g)) (gw_kernel g)) as HL.
  destruct (sys_accept _ _) as [[fd|] k].
  - destruct HL as (Hp & Hnew & Ho & Hbl).
    destruct (epoll_add_law (epollFd_ (gw_fds g)) fd k) as ([O _] & B & _).
    assert (um_find fd (connections_ g) = None ∧ fd ∉ others) as [Hnone Hno].
    { rewrite Ht in Hnew. split; [apply eq_None_not_Some|]; tauto. }
    destruct (IH (mkGw (gw_fds g) (um_set fd connection_init (connections_ g))
        (sys_epoll_add (epollFd_ (gw_fds g)) fd k) (gw_out g)))
      as (g' & HR & Hok & Hout & Hfds & Hkeep); [split; cbn|cbn; lia|].
    + intros fd' conn. rewrite um_find_set. case_decide; [|by apply Hc].
      intros [= <-]. apply connection_init_ok.
    + intros fd'. rewrite O, Ho, um_find_set. case_decide; subst; [set_solver by eauto|].
      rewrite elem_of_union, elem_of_singleton, Ht. naive_solver.
    + intros fd' Hin. rewrite um_find_set_ne; [by apply Hot|congruence].
    + exists g'. split_and!; [done..|]. intros fd' conn Hf. apply Hkeep. cbn.
      rewrite um_find_set_ne; [done|congruence].
  - destruct HL as [Hp Ho]. eexists. split; [done|]. split_and!; [|done..].
    split; cbn; [done| |done]. by rewrite Ho.
Qed.

(** A step keeps the invariant and the descriptors of the gateway, or throws. *)
Definition step_ok others g (r : Outcome Gw) : Prop :=
  match r with
  | Ok g' => gateway_ok others g' ∧ gw_fds g' = gw_fds g
  | Throw e => e = length_error
  | _ => False
  end.

Lemma HandleEvent_ok others fd g : gateway_ok others g → step_ok others g (HandleEvent collect fd g).
Proof.
  intros Hok. unfold HandleEvent. destruct (fd =? listenFd_ (gw_fds g)).
  - destruct (AcceptLoop_ok others (S (k_backlog (gw_kernel g))) g Hok)
      as (g' & HR & Hok' & _ & Hfds & _); [lia|].
    unfold AcceptConnections. by rewrite HR.
  - destruct (um_find fd (connections_ g)) as [conn|] eqn:E.
    + pose proof (ReadFrom_outcome others fd conn g Hok E) as Hr.
      destruct (ReadFrom collect fd g); cbn in Hr; [|by destruct Hr|done|done].
      split; [by eapply read_post_ok; eauto|]. by destruct Hr as (? & ? & ? & ? & ? & _ & _ & _ & _ & _ & ? & _).
    + unfold ReadFrom. by rewrite E.
Qed.

Lemma HandleEvents_ok others (fds : list Z) g : gateway_ok others g →
  step_ok others g (foldM (HandleEvent collect) fds g).
Proof.
  revert g. induction fds as [|fd fds IH]; intros g Hok; cbn; [done|].
  pose proof (HandleEvent_ok others fd g Hok) as H.
  destruct (HandleEvent collect fd g) as [g1| | |]; cbn; [|done..]. destruct H as [H1 E].
  specialize (IH g1 H1). unfold step_ok in *. by rewrite <-E.
Qed.

(** The event loop, whatever happens while it waits. *)
Lemma EventLoop_ok others rounds g : gateway_ok others g →
  step_ok others g (EventLoop collect rounds g).
Proof.
  revert g. induction rounds as [|n IH]; intros g Hok; cbn [EventLoop]; [done|].
  pose proof (epoll_wait_law (epollFd_ (gw_fds g)) max_events (gw_kernel g)) as HL.
  destruct (sys_epoll_wait _ _ _) as [evs k]. destruct HL as [[Ho _] _].
  set (g0 := mkGw (gw_fds g) (connections_ g) k (gw_out g)).
  assert (gateway_ok others g0) as Hok0.
  { destruct Hok as [H1 H2 H3]. split; cbn; [done| |done]. by rewrite Ho. }
  pose proof (HandleEvents_ok others (default [] evs) g0 Hok0) as H.
  destruct (foldM _ _ g0) as [g1| | |]; cbn; [|done..]. destruct H as [H1 E].
  specialize (IH g1 H1). unfold step_ok in *. by rewrite E in IH.
Qed.

Lemma close_entries (es : list (Z * Connection)) k :
  k_open (foldl (λ k '(fd, _), sys_close fd k) k es) = k_open k ∖ list_to_set es.*1.
Proof.
  revert k. induction es as [|[fd c] es IH]; intros k; cbn; [set_solver|].
  destruct (close_law fd k) as (_ & O & _). rewrite IH, O. set_solver.
Qed.

Lemma CloseAllConnections_ok others g : gateway_ok others g →
  k_open (gw_kernel (CloseAllConnections g)) = others ∧
  (∀ fd, um_find fd (connections_ (CloseAllConnections g)) = None) ∧
  gw_fds (CloseAllConnections g) = gw_fds g.
Proof.
  intros [_ Ht Hot]. unfold CloseAllConnections.
  pose proof (λ fd conn, um_entries_find fd conn (connections_ g)) as He.
  destruct (um_entries (connections_ g)) as [|e es] eqn:E.
  - assert (∀ fd, um_find fd (connections_ g) = None) as Hn.
    { intros fd. apply eq_None_not_Some. intros [conn Hc%He]. by apply elem_of_nil in Hc. }
    split; [|done]. apply set_eq. intros fd. rewrite Ht, Hn. split; [|by left].
    intros [?|[? ?]]; done.
  - cbn [connections_ gw_kernel gw_fds]. split_and!; [|intros fd; apply um_find_empty|done].
    rewrite close_entries, <-E. apply set_eq. intros fd. rewrite elem_of_difference, Ht.
    assert (fd ∈ (list_to_set (um_entries (connections_ g)).*1 : gset Z) ↔
      is_Some (um_find fd (connections_ g))) as ->.
    { rewrite elem_of_list_to_set, list_elem_of_fmap. split.
      - intros ([fd' conn] & -> & Hin%um_entries_find). eauto.
      - intros [conn Hc]. exists (fd, conn). split; [done|]. by apply um_entries_find. }
    split; [tauto|]. intros Hin. rewrite (Hot _ Hin). split; [by left|]. by intros [? ?].
Qed.
End Table.

(** ** Properties *)

(** Frames are reassembled.  Reading from a connection takes some of the bytes
    that have arrived; the bytes already held followed by these are cut into frames
    of 50, each complete frame is decoded and dispatched once and in order, and the
    connection keeps the incomplete rest (or was closed).  Other connections and
    their data are not touched.  Reading always ends, and fails only on a frame whose
    ticker is too long to decode. *)
Theorem read_reassembles_frames {Ticker Conns K} `{!TickerType Ticker} `{!TickerLaws Ticker}
    `{!ConnMap Conns} `{!ConnLaws Conns} `{!Kernel K} `{!KernelLaws K} (others : gset Z) (fd : Z)
    (conn : Connection) (g : GwState Conns K (list (InboundCommand Ticker))) :
  gateway_ok others g → um_find fd (connections_ g) = Some conn →
  match ReadFrom collect fd g with
  | Ok g' => ∃ bytes tail frames rest cmds,
      k_pending fd (gw_kernel g) = bytes ++ tail ∧
      Framed (held conn ++ bytes) frames rest ∧ decodes frames cmds ∧
      gw_out g' = gw_out g ++ cmds ∧ conn_after fd rest tail g g' ∧ frame_condition fd g g'
  | Throw e => e = length_error ∧ ∃ before frame after,
      held conn ++ k_pending fd (gw_kernel g) = before ++ frame ++ after ∧
      length frame = buffer_size ∧
      DecodeInboundMessage frame = Throw length_error (A:=InboundCommand Ticker)
  | _ => False
  end.
Proof. intros Hok Hf. exact (ReadFrom_outcome others fd conn g Hok Hf). Qed.

Notation CGw := (GwState (gmap Z Connection) sim (list (InboundCommand CTicker))).

(** One connection with 120 bytes waiting: two cancels and a part of a third. *)
Definition gw_with (pending : nat) : CGw :=
  mkGw (mkFds 9000 3 4) (<[5 := connection_init]> ∅)
    (mkSim (<[5 := replicate pending x00]> ∅) [] {[3; 4; 5]} ∅ ∅ 6 true true true []) [].

Definition sample_gw : CGw := gw_with 120.

Lemma gw_with_ok pending : gateway_ok {[3; 4]} (gw_with pending).
Proof.
  split; cbn.
  - intros fd conn. rewrite lookup_insert, lookup_empty. case_decide; [|done].
    intros [= <-]. apply connection_init_ok.
  - intros fd. rewrite lookup_insert, lookup_empty. case_decide; subst; [set_solver by eauto|].
    split; [set_solver|]. intros [?|[? ?]]; [set_solver|done].
  - intros fd Hfd. rewrite lookup_insert, lookup_empty. case_decide; [|done]. set_solver.
Qed.

Lemma read_reassembles_frames_witness :
  ∃ g' : CGw, ReadFrom collect 5 sample_gw = Ok g' ∧
    ∃ bytes tail frames rest cmds,
      k_pending 5 (gw_kernel sample_gw) = bytes ++ tail ∧
      Framed (held connection_init ++ bytes) frames rest ∧ decodes frames cmds ∧
      gw_out g' = gw_out sample_gw ++ cmds ∧
      conn_after 5 rest tail sample_gw g' ∧ frame_condition 5 sample_gw g'.
Proof.
  pose proof (read_reassembles_frames {[3; 4]} 5 connection_init sample_gw (gw_with_ok 120) eq_refl) as H.
  destruct (ReadFrom collect 5 sample_gw) as [g'| | |] eqn:E;
    [exists g'; split; [reflexivity|exact H]|vm_compute in E; discriminate E..].
Defined.

(** ** Chunks *)

Section Chunks.
Context {Ticker : Type} `{!TickerType Ticker} `{!TickerLaws Ticker}.
Context {Conns : Type} `{!ConnMap Conns} `{!ConnLaws Conns}.
Context {K : Type} `{!Kernel K} `{!KernelLaws K}.
Notation Gw := (GwState Conns K (list (InboundCommand Ticker))).
Implicit Types (g : Gw) (fd : Z) (conn : Connection).

(** The life of a connection that stays open: reads, and data arriving in between.
    The list is everything that was read. *)
Inductive reads fd : Gw → list byte → Gw → Prop :=
  | reads_done g : reads fd g [] g
  | reads_arrive g k more bytes g' :
      k_pending fd k = k_pending fd (gw_kernel g) ++ more →
      k_open k = k_open (gw_kernel g) →
      reads fd (mkGw (gw_fds g) (connections_ g) k (gw_out g)) bytes g' →
      reads fd g bytes g'
  | reads_read g g1 bs bytes g' :
      ReadFrom collect fd g = Ok g1 →
      k_pending fd (gw_kernel g) = bs ++ k_pending fd (gw_kernel g1) →
      is_Some (um_find fd (connections_ g1)) →
      reads fd g1 bytes g' →
      reads fd g (bs ++ bytes) g'.

Lemma Framed_app s1 frames1 rest1 s2 frames2 rest2 :
  Framed s1 frames1 rest1 → Framed (rest1 ++ s2) frames2 rest2 →
  Framed (s1 ++ s2) (frames1 ++ frames2) rest2.
Proof.
  intros [E1 S1 _] [E2 S2 R2]. split; [|by apply Forall_app|done].
  rewrite concat_app, E1, <-!(assoc_L (++)). by rewrite E2.
Qed.

(** There is one way to cut a stream. *)
Lemma Framed_unique s frames1 rest1 frames2 rest2 :
  Framed s frames1 rest1 → Framed s frames2 rest2 → frames1 = frames2 ∧ rest1 = rest2.
Proof.
  intros [E1 S1 R1] [E2 S2 R2]. subst s. revert frames2 S2 E2.
  induction S1 as [|f frames1 Hf S1 IH]; intros frames2 S2 E2.
  - destruct S2 as [|f2 frames2 Hf2 S2]; [done|]. exfalso.
    apply (f_equal length) in E2. cbn in E2. rewrite !length_app in E2. lia.
  - destruct S2 as [|f2 frames2 Hf2 S2]; cbn in E2.
    + exfalso. apply (f_equal length) in E2. rewrite !length_app in E2. lia.
    + rewrite <-!(assoc_L (++)) in E2. apply app_inj_1 in E2 as [-> E2]; [|congruence].
      destruct (IH frames2 S2 E2) as [-> ->]. done.
Qed.

Lemma decodes_unique frames cmds1 cmds2 :
  decodes (Ticker:=Ticker) frames cmds1 → decodes frames cmds2 → cmds1 = cmds2.
Proof.
  intros H1. revert cmds2. induction H1 as [|f c fs cs Hc _ IH]; intros cmds2 H2;
    inversion H2; subst; [done|]. f_equal; [congruence|auto].
Qed.

(** Over its whole life, a connection dispatches the frames of its stream. *)
Lemma reads_framed others fd g bytes g' conn : reads fd g bytes g' → gateway_ok others g →
  um_find fd (connections_ g) = Some conn →
  ∃ frames rest cmds conn', Framed (held conn ++ bytes) frames rest ∧ decodes frames cmds ∧
    gw_out g' = gw_out g ++ cmds ∧ um_find fd (connections_ g') = Some conn' ∧ held conn' = rest.
Proof.
  intros Hr. revert conn.
  induction Hr as [g|g k more bytes g' Hk Ho Hr IH|g g1 bs bytes g' HR Hbs [conn1 Hf1] Hr IH];
    intros conn Hok Hf.
  - exists [], (held conn), [], conn. rewrite !app_nil_r. split_and!; [|constructor|done..].
    split; [done|constructor|]. destruct (go_conns _ _ Hok _ _ Hf) as [? ?].
    unfold held. rewrite length_take. lia.
  - apply IH; [|done]. destruct Hok as [Hc Ht Hot]. split; cbn; [done| |done]. by rewrite Ho.
  - pose proof (ReadFrom_outcome others fd conn g Hok Hf) as Hout. rewrite HR in Hout.
    assert (gateway_ok others g1) as Hok1 by (eapply read_post_ok; eauto).
    destruct Hout as (bs' & tail & frames & rest & cmds & Hp & HF & Hd & Hout & Hc & _).
    destruct Hc as [(conn' & Hf' & _ & Hh & Htail & _)|[Hn _]]; [|congruence].
    assert (conn' = conn1) as -> by congruence.
    assert (bs' = bs) as -> by (rewrite Hbs, Htail in Hp; by apply app_inv_tail in Hp).
    destruct (IH conn1 Hok1 Hf1) as (frames2 & rest2 & cmds2 & conn2 & HF2 & Hd2 & Ho2 & Hf2 & Hh2).
    exists (frames ++ frames2), rest2, (cmds ++ cmds2), conn2. split_and!; [| | |done..].
    + rewrite (assoc_L (++)). eapply Framed_app; [done|]. by rewrite <-Hh.
    + by apply Forall2_app.
    + by rewrite Ho2, Hout, (assoc_L (++)).
Qed.
End Chunks.

(** C6: Chunking does not matter.  Two connections that hold the same incomplete
    frame and receive the same bytes, split over reads and arrivals in any two ways,
    dispatch the same commands and end up holding the same incomplete frame. *)
Theorem dispatch_independent_of_chunking {Ticker Conns K} `{!TickerType Ticker}
    `{!TickerLaws Ticker} `{!ConnMap Conns} `{!ConnLaws Conns} `{!Kernel K} `{!KernelLaws K}
    (others1 others2 : gset Z) (fd1 fd2 : Z) (conn1 conn2 : Connection) (bytes : list byte)
    (g1 g1' g2 g2' : GwState Conns K (list (InboundCommand Ticker))) :
  gateway_ok others1 g1 → gateway_ok others2 g2 →
  um_find fd1 (connections_ g1) = Some conn1 → um_find fd2 (connections_ g2) = Some conn2 →
  held conn1 = held conn2 →
  reads fd1 g1 bytes g1' → reads fd2 g2 bytes g2' →
  ∃ cmds conn1' conn2', gw_out g1' = gw_out g1 ++ cmds ∧ gw_out g2' = gw_out g2 ++ cmds ∧
    um_find fd1 (connections_ g1') = Some conn1' ∧ um_find fd2 (connections_ g2') = Some conn2' ∧
    held conn1' = held conn2'.
Proof.
  intros Hok1 Hok2 Hf1 Hf2 Hh Hr1 Hr2.
  destruct (reads_framed others1 fd1 g1 bytes g1' conn1 Hr1 Hok1 Hf1)
    as (frames1 & rest1 & cmds1 & conn1' & F1 & D1 & O1 & C1 & H1).
  destruct (reads_framed others2 fd2 g2 bytes g2' conn2 Hr2 Hok2 Hf2)
    as (frames2 & rest2 & cmds2 & conn2' & F2 & D2 & O2 & C2 & H2).
  rewrite Hh in F1. destruct (Framed_unique _ _ _ _ _ F1 F2) as [-> ->].
  rewrite (decodes_unique _ _ _ D1 D2) in O1. exists cmds2, conn1', conn2'.
  split_and!; [done..|congruence].
Qed.

(** The same bytes, arriving in two parts. *)
Definition split_gw : CGw := gw_with 20.

Definition gw_after (g : CGw) : CGw := ok_or g (ReadFrom collect 5 g).

Definition whole_done : CGw := Eval vm_compute in gw_after sample_gw.
Definition split_mid : CGw := Eval vm_compute in gw_after split_gw.
Definition split_more : CGw := mkGw (gw_fds split_mid) (connections_ split_mid)
  (gw_kernel (gw_with 100)) (gw_out split_mid).
Definition split_done : CGw := Eval vm_compute in gw_after split_more.

Lemma dispatch_independent_of_chunking_witness :
  reads 5 sample_gw (replicate 120 x00) whole_done ∧
  reads 5 split_gw (replicate 120 x00) split_done ∧
  ∃ cmds conn1' conn2', gw_out whole_done = gw_out sample_gw ++ cmds ∧
    gw_out split_done = gw_out split_gw ++ cmds ∧
    um_find 5 (connections_ whole_done) = Some conn1' ∧
    um_find 5 (connections_ split_done) = Some conn2' ∧ held conn1' = held conn2'.
Proof.
  assert (reads 5 sample_gw (replicate 120 x00) whole_done) as H1.
  { change (replicate 120 x00) with (replicate 120 x00 ++ []).
    apply (reads_read 5 sample_gw whole_done); [vm_compute; reflexivity..|eexists; reflexivity|].
    constructor. }
  assert (reads 5 split_gw (replicate 120 x00) split_done) as H2.
  { change (replicate 120 x00) with (replicate 20 x00 ++ replicate 100 x00 ++ []).
    apply (reads_read 5 split_gw split_mid); [vm_compute; reflexivity..|eexists; reflexivity|].
    apply (reads_arrive 5 split_mid (gw_kernel split_more) (replicate 100 x00));
      [vm_compute; reflexivity..|].
    apply (reads_read 5 split_more split_done); [vm_compute; reflexivity..|eexists; reflexivity|].
    constructor. }
  split; [exact H1|]. split; [exact H2|].
  exact (dispatch_independent_of_chunking {[3; 4]} {[3; 4]} 5 5 connection_init connection_init
    _ _ _ _ _ (gw_with_ok 120) (gw_with_ok 20) eq_refl eq_refl eq_refl H1 H2).
Defined.
