(* ===== verification/GatewayLifecycle.v ===== *)
(** * The life of a gateway: construction, Run, destruction

    Run sets up the listening socket and the epoll instance, loops, and closes
    everything; the destructor is the safety net for a Run that threw on the way.
    Together they leave the descriptors of the process as they found them. *)

From Stdlib Require Import Strings.Byte.
From stdpp Require Import gmap.
From S2P Require Import Prelude Interfaces Double CoreTypes Seqlock FlatMap MatchingEngine Concrete Bytes Wire Os Gateway GatewayTheorems.

Local Open Scope Z_scope.

(** The valid descriptors among listenFd_ and epollFd_. *)
Definition fd_set (fd : Z) : gset Z := if 0 <=? fd then {[fd]} else ∅.
Definition own_fds (f : GwFds) : gset Z := fd_set (listenFd_ f) ∪ fd_set (epollFd_ f).

Section Lifecycle.
Context {Ticker : Type} `{!TickerType Ticker} `{!TickerLaws Ticker}.
Context {Conns : Type} `{!ConnMap Conns} `{!ConnLaws Conns}.
Context {K : Type} `{!Kernel K} `{!KernelLaws K}.
Notation Gw := (GwState Conns K (list (InboundCommand Ticker))).
Implicit Types (g : Gw) (fd : Z) (base : gset Z).

(** No connection, and what is open is the gateway's own and [base]. *)
Record idle base g : Prop := {
  id_conns fd : um_find fd (connections_ g) = None;
  id_open : k_open (gw_kernel g) = own_fds (gw_fds g) ∪ base;
  id_fresh : own_fds (gw_fds g) ## base;
}.

Lemma idle_ok base g : idle base g → gateway_ok (own_fds (gw_fds g) ∪ base) g.
Proof.
  intros [Hc Ho _]. split.
  - intros fd conn. by rewrite Hc.
  - intros fd. rewrite Ho, Hc. split; [by left|]. intros [?|[? ?]]; done.
  - intros fd _. apply Hc.
Qed.

Lemma fd_set_neg fd : fd < 0 → fd_set fd = ∅.
Proof. intros. unfold fd_set. by destruct (Z.leb_spec 0 fd); [lia|]. Qed.

Lemma fd_set_pos fd : 0 ≤ fd → fd_set fd = {[fd]}.
Proof. intros. unfold fd_set. by destruct (Z.leb_spec 0 fd); [|lia]. Qed.

(** A new descriptor, or none, on top of [base]. *)
Lemma opens_set base fd (k k' : K) : opens fd k k' → k_open k = base →
  k_open k' = fd_set fd ∪ base ∧ fd_set fd ## base.
Proof.
  intros [H _] <-. destruct (Z.ltb_spec fd 0).
  - rewrite fd_set_neg by done. set_solver.
  - destruct H as (Hn & -> & _). rewrite fd_set_pos by done. set_solver.
Qed.

Lemma SetNonBlocking_spec fd (k : K) :
  k_open (SetNonBlocking fd k) = k_open k ∧
  Z.testbit (k_flags fd (SetNonBlocking fd k)) 11 = true ∧
  ∀ fd', k_opts fd' (SetNonBlocking fd k) = k_opts fd' k.
Proof.
  unfold SetNonBlocking. pose proof (getfl_law fd k) as [Hg Hg']. destruct (sys_getfl fd k) as [flags k1].
  cbn [snd] in *. destruct (setfl_law fd (Z.lor flags O_NONBLOCK) k1) as (Ho & Hf & Hp).
  split_and!; [congruence| |].
  - rewrite Hf, Z.lor_spec. change (Z.testbit O_NONBLOCK 11) with true. apply orb_true_r.
  - intros fd'. rewrite Hp. apply Hg'.
Qed.

(** A listening socket that is ready for the event loop. *)
Record ready g : Prop := {
  rd_listen : 0 ≤ listenFd_ (gw_fds g);
  rd_epoll : 0 ≤ epollFd_ (gw_fds g);
  rd_distinct : listenFd_ (gw_fds g) ≠ epollFd_ (gw_fds g);
  rd_nonblocking : Z.testbit (k_flags (listenFd_ (gw_fds g)) (gw_kernel g)) 11 = true;
  rd_reuse : k_opts (listenFd_ (gw_fds g)) (gw_kernel g) = [SO_REUSEADDR 1];
}.

(** The socket and its options, whatever bind and listen answer. *)
Lemma socket_opts base (k : K) : k_open k = base →
  let (listenFd, k1) := sys_socket SOCK_STREAM k in
  let k2 := sys_setsockopt listenFd (SO_REUSEADDR 1) k1 in
  (k_open k1 = fd_set listenFd ∪ base ∧ fd_set listenFd ## base) ∧
  k_open k2 = k_open k1 ∧ (0 ≤ listenFd → k_opts listenFd k2 = [SO_REUSEADDR 1]).
Proof.
  intros Hb. pose proof (socket_law SOCK_STREAM k) as HL. destruct (sys_socket _ k) as [fd k1].
  destruct (setsockopt_law fd (SO_REUSEADDR 1) k1) as (H1 & H2 & _).
  split; [by eapply opens_set|]. split; [done|]. intros Hfd.
  destruct HL as [HL _]. destruct (Z.ltb_spec fd 0); [lia|]. destruct HL as (_ & _ & E).
  by rewrite H2, E.
Qed.

(** The epoll instance on top of the listening socket. *)
Lemma epoll_create_spec base lfd (k : K) : 0 ≤ lfd → lfd ∉ base → k_open k = {[lfd]} ∪ base →
  let (efd, k') := sys_epoll_create k in
  k_open k' = fd_set lfd ∪ fd_set efd ∪ base ∧ fd_set lfd ∪ fd_set efd ## base ∧
  (0 ≤ efd → lfd ≠ efd) ∧
  (lfd ≠ efd → k_flags lfd k' = k_flags lfd k ∧ k_opts lfd k' = k_opts lfd k).
Proof.
  intros Hl Hn Ho. pose proof (epoll_create_law k) as HL. destruct (sys_epoll_create k) as [efd k'].
  rewrite (fd_set_pos lfd) by done.
  destruct (opens_set _ efd k k' HL Ho) as [H1 H2]. destruct HL as [Hnew Hsame].
  split_and!; [rewrite H1; set_solver|set_solver| |by intros ?; apply Hsame].
  intros Hefd ->. rewrite fd_set_pos in H2 by done. set_solver.
Qed.

(** Set-up leaves an idle gateway, ready for the loop if nothing failed. *)
Lemma Setup_spec base g : idle base g → own_fds (gw_fds g) = ∅ → epollFd_ (gw_fds g) < 0 →
  let (g', err) := Setup g in
  idle base g' ∧ (err = None → ready g').
Proof.
  intros [Hc Ho _] Hnone Hep. rewrite Hnone, (left_id_L ∅ (∪)) in Ho. unfold Setup.
  pose proof (socket_opts base (gw_kernel g) Ho) as Hs.
  destruct (sys_socket SOCK_STREAM (gw_kernel g)) as [lfd k1]. destruct Hs as ((H1 & H1') & H2 & H3).
  set (k2 := sys_setsockopt lfd (SO_REUSEADDR 1) k1) in *.
  assert (∀ k, k_open k = k_open k1 →
    idle base (mkGw (mkFds (port_ (gw_fds g)) lfd (epollFd_ (gw_fds g))) (connections_ g) k (gw_out g)))
    as Hidle.
  { intros k Hk. split; cbn; [done|..]; unfold own_fds; cbn;
      rewrite (fd_set_neg (epollFd_ (gw_fds g))), (right_id_L ∅ (∪)) by done; first [congruence|done]. }
  destruct (Z.ltb_spec lfd 0) as [Hneg|Hpos]; [by split; [apply Hidle|]|].
  pose proof (bind_law lfd (mkSockaddr (htons (port_ (gw_fds g))) INADDR_ANY) k2) as [Hb Hb'].
  destruct (sys_bind _ _ k2) as [rc1 k3]. cbn [snd] in *.
  destruct (rc1 <? 0); [split; [apply Hidle; congruence|done]|].
  pose proof (listen_law lfd SOMAXCONN k3) as [Hl Hl']. destruct (sys_listen _ _ k3) as [rc2 k4].
  cbn [snd] in *. destruct (rc2 <? 0); [split; [apply Hidle; congruence|done]|].
  destruct (SetNonBlocking_spec lfd k4) as (Hn1 & Hn2 & Hn3).
  rewrite fd_set_pos in H1, H1' by done.
  pose proof (epoll_create_spec base lfd (SetNonBlocking lfd k4) Hpos
    ltac:(set_solver) ltac:(congruence)) as HE.
  destruct (sys_epoll_create _) as [efd k5]. destruct HE as (E1 & E2 & E3 & E4).
  destruct (Z.ltb_spec efd 0) as [Hneg|Hefd]; [by split|].
  destruct (epoll_add_law efd lfd k5) as ([A1 A2] & _). split.
  - split; cbn; [done| |done]. by rewrite A1.
  - intros _. destruct (E4 (E3 Hefd)) as [E5 E6]. split; cbn; [done..|auto| |].
    + by rewrite (proj1 (A2 lfd)), E5.
    + rewrite (proj2 (A2 lfd)), E6, Hn3, (proj2 (Hl' lfd)), (proj2 (Hb' lfd)). auto.
Qed.

(** After the loop everything is closed again. *)
Lemma Shutdown_spec base g : gateway_ok (own_fds (gw_fds g) ∪ base) g →
  0 ≤ listenFd_ (gw_fds g) → 0 ≤ epollFd_ (gw_fds g) → own_fds (gw_fds g) ## base →
  k_open (gw_kernel (Shutdown g)) = base ∧ idle base (Shutdown g) ∧
  gw_fds (Shutdown g) = mkFds (port_ (gw_fds g)) (-1) (-1).
Proof.
  intros Hok Hl He Hdis. destruct (CloseAllConnections_ok _ g Hok) as (Ho & Hc & Hf).
  assert (k_open (gw_kernel (Shutdown g)) = base) as Hopen.
  { unfold Shutdown, own_fds in *. cbn [gw_kernel]. rewrite Hf.
    destruct (close_law (listenFd_ (gw_fds g)) (sys_close (epollFd_ (gw_fds g))
      (gw_kernel (CloseAllConnections g)))) as (_ & -> & _).
    destruct (close_law (epollFd_ (gw_fds g)) (gw_kernel (CloseAllConnections g))) as (_ & -> & _).
    rewrite Ho. rewrite !fd_set_pos in * by done. set_solver. }
  split; [done|]. split; [|unfold Shutdown; by rewrite Hf].
  split; [intros fd; apply Hc|rewrite Hopen; unfold own_fds, Shutdown; cbn; set_solver|].
  unfold own_fds, Shutdown. cbn. set_solver.
Qed.

Lemma idle_close base g : idle base g → CloseAllConnections g = g.
Proof.
  intros [Hc _ _]. unfold CloseAllConnections.
  destruct (um_entries (connections_ g)) as [|[fd conn] es] eqn:E; [done|].
  assert ((fd, conn) ∈ um_entries (connections_ g)) as Hin by (rewrite E; by left).
  apply um_entries_find in Hin. by rewrite Hc in Hin.
Qed.

(** The destructor closes what is left. *)
Lemma Gateway_delete_spec base g : idle base g →
  k_open (gw_kernel (Gateway_delete g)) = base ∧ own_fds (gw_fds (Gateway_delete g)) = ∅.
Proof.
  intros Hi. pose proof Hi as [Hc Ho Hdis].
  unfold Gateway_delete. rewrite (idle_close base g) by done. destruct (gw_fds g) as [port lfd efd] eqn:Ef.
  unfold own_fds in *. cbn [listenFd_ epollFd_] in *.
  unfold fd_set in *. destruct (Z.leb_spec 0 efd), (Z.leb_spec 0 lfd); cbn [gw_kernel gw_fds listenFd_ epollFd_];
    repeat match goal with |- context [k_open (sys_close ?fd ?k)] =>
      destruct (close_law fd k) as (_ & -> & _) end;
    rewrite Ho; (split; [set_solver|]); repeat match goal with
      |- context [0 <=? ?z] => destruct (Z.leb_spec 0 z); [lia|] end; set_solver.
Qed.

(** A destructor that finds nothing to close does nothing. *)
Lemma Gateway_delete_idle base g : idle base g → gw_fds g = mkFds (port_ (gw_fds g)) (-1) (-1) →
  Gateway_delete g = g.
Proof.
  intros Hi Hf. unfold Gateway_delete. rewrite (idle_close base g Hi), Hf.
  destruct g as [[] ? ? ?]. cbn in *. congruence.
Qed.

(** A gateway without descriptors of its own, on another state of the system. *)
Lemma idle_kernel base base' (k : K) g : idle base g → own_fds (gw_fds g) = ∅ → k_open k = base' →
  idle base' (mkGw (gw_fds g) (connections_ g) k (gw_out g)).
Proof. intros [Hc _ _] Hown Hk. split; cbn; [done|rewrite Hown; set_solver..]. Qed.

Lemma Gateway_new_idle port (k : K) h : idle (k_open k) (Gateway_new port k h : Gw).
Proof. split; [intros fd; apply um_find_empty|..]; unfold own_fds; cbn; set_solver. Qed.

(** Run on a gateway that has nothing open yet. *)
Lemma Run_spec base rounds g : idle base g → own_fds (gw_fds g) = ∅ → epollFd_ (gw_fds g) < 0 →
  match Run collect rounds g with
  | RunReturned g' => k_open (gw_kernel g') = base ∧ idle base g' ∧
      gw_fds g' = mkFds (port_ (gw_fds g')) (-1) (-1)
  | RunSetupThrew g' _ => idle base g'
  | RunLoopThrew e => e = length_error
  | RunStuck => False
  end.
Proof.
  intros Hidle Hown Hep. pose proof (Setup_spec base g Hidle Hown Hep) as HS.
  unfold Run. destruct (Setup g) as [g1 [err|]]; destruct HS as [Hi Hr]; [done|].
  specialize (Hr eq_refl). pose proof (EventLoop_ok _ rounds g1 (idle_ok _ g1 Hi)) as HE.
  destruct (EventLoop collect rounds g1) as [g2|e| |]; cbn in HE; [|done..].
  destruct HE as [Hok Hf]. rewrite <-Hf in Hok.
  destruct (Shutdown_spec base g2 Hok) as (Ho & Hi2 & Hf2);
    [rewrite Hf; apply Hr..|rewrite Hf; apply Hi|]. by rewrite Hf2.
Qed.
End Lifecycle.

(** ** Properties *)

(** C16: A gateway leaks nothing.  Construct a gateway, call Run, and destroy it.  Whatever
    the system calls answer, whatever the clients connect, send and close while the loop
    waits, and however long the loop runs: if a set-up call fails, Run throws and the
    destructor closes what had been opened; if the loop ends, Run has closed every
    connection and both of its descriptors, and the destructor finds nothing left to
    close.  Either way the open descriptors of the process are those of before.  The
    only other end is the exception of a frame with an overlong ticker; the loop is
    never stuck. *)
Theorem gateway_leaks_nothing {Ticker Conns K} `{!TickerType Ticker} `{!TickerLaws Ticker}
    `{!ConnMap Conns} `{!ConnLaws Conns} `{!Kernel K} `{!KernelLaws K}
    (port : Z) (k : K) (rounds : nat) :
  match Run collect rounds (Gateway_new port k [] : GwState Conns K (list (InboundCommand Ticker))) with
  | RunReturned g =>
      k_open (gw_kernel g) = k_open k ∧ (∀ fd, um_find fd (connections_ g) = None) ∧
      Gateway_delete g = g
  | RunSetupThrew g _ =>
      k_open (gw_kernel (Gateway_delete g)) = k_open k ∧ own_fds (gw_fds (Gateway_delete g)) = ∅
  | RunLoopThrew e => e = length_error
  | RunStuck => False
  end.
Proof.
  pose proof (Run_spec (k_open k) rounds (Gateway_new port k [] : GwState Conns K _)
    (Gateway_new_idle port k []) eq_refl ltac:(done)) as HR.
  destruct (Run collect rounds _) as [g|g err|e|]; [|by apply Gateway_delete_spec|done..].
  destruct HR as (Ho & Hi & Hf). split_and!; [done|apply Hi|by eapply Gateway_delete_idle].
Qed.

(** Two clients: the first sends a frame and a half, and then the rest. *)
Definition busy_system : sim :=
  mkSim ∅ [] {[0; 1; 2]} ∅ ∅ 3 true true true
    [mkRound [7; 8] ∅ [3]; mkRound [] {[7 := replicate 75 x00]} [7; 8];
     mkRound [] {[7 := replicate 25 x00]} [7]].

(** The same, but the port is taken. *)
Definition port_taken : sim := mkSim ∅ [] {[0; 1; 2]} ∅ ∅ 3 false true true [].

Lemma gateway_leaks_nothing_witness :
  (∃ g : CGw, Run collect 5 (Gateway_new 9000 busy_system []) = RunReturned g ∧
    length (gw_out g) = 2%nat ∧ k_open (gw_kernel g) = {[0; 1; 2]}) ∧
  (∃ g : CGw, Run collect 5 (Gateway_new 9000 port_taken []) = RunSetupThrew g BindFailed ∧
    k_open (gw_kernel g) = {[0; 1; 2; 3]} ∧
    k_open (gw_kernel (Gateway_delete g)) = {[0; 1; 2]}).
Proof.
  pose proof (gateway_leaks_nothing (Ticker:=CTicker) (Conns:=gmap Z Connection) 9000 busy_system 5) as H1.
  pose proof (gateway_leaks_nothing (Ticker:=CTicker) (Conns:=gmap Z Connection) 9000 port_taken 5) as H2.
  split.
  - destruct (Run collect 5 (Gateway_new 9000 busy_system [])) as [g| | |] eqn:E;
      [|vm_compute in E; discriminate E..].
    exists g. split; [reflexivity|]. split; [|exact (proj1 H1)].
    vm_compute in E. injection E as <-. reflexivity.
  - destruct (Run collect 5 (Gateway_new 9000 port_taken [])) as [|g err| |] eqn:E;
      [vm_compute in E; discriminate E| |vm_compute in E; discriminate E..].
    exists g. pose proof (proj1 H2) as H3. vm_compute in E. injection E as <- <-.
    split; [reflexivity|]. split; [vm_compute; reflexivity|]. exact H3.
Defined.

(** The event loop only starts on a ready listener.  If no set-up call failed, the
    gateway holds two distinct valid descriptors, the listening socket has
    SO_REUSEADDR and is non-blocking (so accepting until nothing is pending cannot
    block), and no connection is known yet; if one failed, Run throws without entering
    the loop. *)
Theorem loop_starts_ready {Ticker Conns K} `{!TickerType Ticker} `{!TickerLaws Ticker}
    `{!ConnMap Conns} `{!ConnLaws Conns} `{!Kernel K} `{!KernelLaws K}
    (port : Z) (k : K) (rounds : nat) :
  let g0 : GwState Conns K (list (InboundCommand Ticker)) := Gateway_new port k [] in
  match Setup g0 with
  | (g, None) => ready g ∧ port_ (gw_fds g) = port ∧
      ∀ fd, um_find fd (connections_ g) = None
  | (g, Some err) => Run collect rounds g0 = RunSetupThrew g err
  end.
Proof.
  intros g0.
  pose proof (Setup_spec (k_open k) g0 (Gateway_new_idle port k []) eq_refl ltac:(done)) as HS.
  unfold Run. destruct (Setup g0) as [g [err|]] eqn:E; [done|]. destruct HS as [Hi Hr].
  split_and!; [by apply Hr| |apply Hi]. revert E. unfold Setup.
  repeat (case_match; try done). by intros [= <-].
Qed.

Lemma loop_starts_ready_witness :
  match Setup (Gateway_new 9000 busy_system [] : CGw) with
  | (g, None) => ready g ∧ port_ (gw_fds g) = 9000 ∧ ∀ fd, um_find fd (connections_ g) = None
  | (g, Some err) => False
  end.
Proof.
  pose proof (loop_starts_ready (Ticker:=CTicker) (Conns:=gmap Z Connection) 9000 busy_system 0) as H.
  cbn zeta in H. destruct (Setup (Gateway_new 9000 busy_system [])) as [g [err|]] eqn:E; [|exact H].
  vm_compute in E. discriminate E.
Defined.
