(* ===== verification/GatewayReplay.v ===== *)
(** * What the gateway makes of its connections

    The system calls of a run, seen by an observer that notes which connections were
    accepted, what was read from them and when they ended.  The commands the gateway
    dispatches are exactly those a simple reader of these notes would: it keeps one
    stream per connection and cuts frames off it.  So each connection is first-in
    first-out, whatever the others send in between. *)

From Stdlib Require Import Strings.Byte.
From stdpp Require Import gmap.
From S2P Require Import Prelude Interfaces Double CoreTypes Seqlock FlatMap MatchingEngine Concrete Bytes Wire Os Gateway GatewayTheorems GatewayLifecycle.

Local Open Scope Z_scope.

(** ** The observer *)

Inductive SysEvent :=
  | EvAccepted (fd : Z)
  | EvReceived (fd : Z) (bs : list byte)
  | EvEnded (fd : Z).               (* end of file or an error *)

(** A system with notes. *)
Notation Noted K := (K * list SysEvent)%type.

Definition noted {A K} (k : Noted K) (res : A * K) : A * Noted K := (res.1, (res.2, k.2)).

Definition accept_note (res : option Z) : list SysEvent :=
  match res with Some fd => [EvAccepted fd] | None => [] end.

Definition read_note (fd : Z) (res : ReadResult) : list SysEvent :=
  match res with
  | RdData bs => [EvReceived fd bs]
  | RdAgain => []
  | RdEof | RdError => [EvEnded fd]
  end.

(** Every call goes to the system itself; accept and read are noted. *)
#[export] Instance noted_kernel {K} `{!Kernel K} : Kernel (Noted K) := {|
  sys_socket ty k := noted k (sys_socket ty k.1);
  sys_setsockopt fd opt k := (sys_setsockopt fd opt k.1, k.2);
  sys_bind fd addr k := noted k (sys_bind fd addr k.1);
  sys_listen fd n k := noted k (sys_listen fd n k.1);
  sys_getfl fd k := noted k (sys_getfl fd k.1);
  sys_setfl fd flags k := (sys_setfl fd flags k.1, k.2);
  sys_accept lfd k := let (res, k') := sys_accept lfd k.1 in (res, (k', k.2 ++ accept_note res));
  sys_read fd n k := let (res, k') := sys_read fd n k.1 in (res, (k', k.2 ++ read_note fd res));
  sys_close fd k := (sys_close fd k.1, k.2);
  sys_epoll_create k := noted k (sys_epoll_create k.1);
  sys_epoll_add epfd fd k := (sys_epoll_add epfd fd k.1, k.2);
  sys_epoll_del epfd fd k := (sys_epoll_del epfd fd k.1, k.2);
  sys_epoll_wait epfd n k := noted k (sys_epoll_wait epfd n k.1);
  k_pending fd k := k_pending fd k.1;
  k_backlog k := k_backlog k.1;
  k_open k := k_open k.1;
  k_flags fd k := k_flags fd k.1;
  k_opts fd k := k_opts fd k.1;
|}.

Definition observe {Conns K H} (g : GwState Conns K H) : GwState Conns (Noted K) H :=
  mkGw (gw_fds g) (connections_ g) (gw_kernel g, []) (gw_out g).
Definition unobserve {Conns K H} (g : GwState Conns (Noted K) H) : GwState Conns K H :=
  mkGw (gw_fds g) (connections_ g) (gw_kernel g).1 (gw_out g).

(** An outcome of the observed gateway, without the notes. *)
Definition unobserved {Conns K H} (m : Outcome (GwState Conns (Noted K) H)) : Outcome (GwState Conns K H) :=
  g ← m; Ok (unobserve g).

Section Observer.
Context {Ticker : Type} `{!TickerType Ticker}.
Context {Conns : Type} `{!ConnMap Conns} {K : Type} `{!Kernel K}.
Context {H : Type} (push : InboundCommand Ticker → H → Outcome H).
Notation Gw := (GwState Conns (Noted K) H).
Implicit Types (g : Gw) (fd : Z) (conn : Connection).

(** The observer does not disturb. *)
Lemma ReadLoop_unobserved fuel fd conn g :
  ReadLoop push fuel fd conn (unobserve g) = unobserved (ReadLoop push fuel fd conn g).
Proof.
  revert conn g. induction fuel as [|fuel IH]; intros conn g; [done|]. cbn [ReadLoop].
  cbn [sys_read noted_kernel gw_kernel unobserve connections_ gw_fds gw_out].
  destruct (sys_read fd _ (gw_kernel g).1) as [[bs| | |] k]; try done.
  cbn [filled_]. destruct (_ =? buffer_size)%nat.
  - destruct (Dispatch push _ _) as [h| | |]; cbn [mbind Outcome_bind]; [|done..].
    destruct (_ <? _)%nat; [done|]. by rewrite <-IH.
  - cbn [mbind Outcome_bind]. destruct (_ <? _)%nat; [done|]. by rewrite <-IH.
Qed.

Lemma AcceptLoop_unobserved fuel g :
  AcceptLoop fuel (unobserve g) = unobserved (AcceptLoop fuel g).
Proof.
  revert g. induction fuel as [|fuel IH]; intros g; [done|]. cbn [AcceptLoop].
  cbn [sys_accept noted_kernel gw_kernel unobserve connections_ gw_fds gw_out].
  destruct (sys_accept _ (gw_kernel g).1) as [[fd|] k]; [|done]. by rewrite <-IH.
Qed.

Lemma HandleEvent_unobserved fd g :
  HandleEvent push fd (unobserve g) = unobserved (HandleEvent push fd g).
Proof.
  unfold HandleEvent, AcceptConnections, ReadFrom. cbn [gw_fds unobserve connections_ gw_kernel].
  destruct (fd =? _); [apply AcceptLoop_unobserved|].
  destruct (um_find fd (connections_ g)); [apply ReadLoop_unobserved|done].
Qed.

Lemma EventLoop_unobserved rounds g :
  EventLoop push rounds (unobserve g) = unobserved (EventLoop push rounds g).
Proof.
  revert g. induction rounds as [|rounds IH]; intros g; [done|]. cbn [EventLoop].
  cbn [sys_epoll_wait noted_kernel gw_kernel unobserve connections_ gw_fds gw_out]. unfold noted.
  destruct (sys_epoll_wait _ max_events (gw_kernel g).1) as [evs k]. cbn [fst snd].
  assert (∀ l g0, foldM (HandleEvent push) l (unobserve g0) =
    unobserved (foldM (HandleEvent push) l g0)) as Hfold.
  { induction l as [|fd l IHl]; intros g0; [done|]. cbn [foldM]. rewrite HandleEvent_unobserved.
    destruct (HandleEvent push fd g0); cbn [unobserved mbind Outcome_bind]; [apply IHl|done..]. }
  set (g1 := mkGw (gw_fds g) (connections_ g) (k, (gw_kernel g).2) (gw_out g) : Gw).
  change (mkGw (gw_fds g) (connections_ g) k (gw_out g)) with (unobserve g1). rewrite Hfold.
  destruct (foldM (HandleEvent push) (default [] evs) g1); cbn [unobserved mbind Outcome_bind]; [apply IH|done..].
Qed.
End Observer.

(** ** The reader of the notes *)

(** Whole frames off the front of a stream, and the rest. *)
Fixpoint cut_frames (fuel : nat) (l : list byte) : list (list byte) * list byte :=
  match fuel with
  | O => ([], l)
  | S fuel' =>
      if (length l <? buffer_size)%nat then ([], l)
      else let (frames, rest) := cut_frames fuel' (drop buffer_size l) in
           (take buffer_size l :: frames, rest)
  end.

Definition cut (l : list byte) : list (list byte) * list byte := cut_frames (length l) l.

Lemma cut_framed l : Framed l (cut l).1 (cut l).2.
Proof.
  unfold cut. assert (∀ fuel l, (length l ≤ fuel)%nat →
    Framed l (cut_frames fuel l).1 (cut_frames fuel l).2) as H; [|by apply H]. clear l.
  induction fuel as [|fuel IH]; intros l Hl; cbn [cut_frames].
  { destruct l; [|cbn in Hl; lia]. split; [done|constructor|cbn; lia]. }
  destruct (Nat.ltb_spec (length l) buffer_size) as [Hlt|Hge]; [by split|].
  assert (0 < buffer_size)%nat by (cbn; lia).
  specialize (IH (drop buffer_size l) ltac:(rewrite length_drop; lia)).
  destruct (cut_frames fuel (drop buffer_size l)) as [frames rest]. destruct IH as [E Hs Hr].
  cbn [fst snd] in *.
  split; cbn [fst snd concat]; [|constructor; [rewrite length_take; lia|done]|done].
  rewrite <-(assoc_L (++)), <-E. by rewrite take_drop.
Qed.

Section Replay.
Context {Ticker : Type} `{!TickerType Ticker} `{!TickerLaws Ticker}.
Implicit Types (l : list byte) (evs : list SysEvent).

(** The incomplete frame of each connection, and the commands with where they came from. *)
Record Replay := mkReplay {
  rp_streams : gmap Z (list byte);
  rp_log : list (Z * InboundCommand Ticker);
}.

Definition replay_init : Replay := mkReplay ∅ [].

(** Decodes frames one after the other. *)
Fixpoint decode_all (frames : list (list byte)) : Outcome (list (InboundCommand Ticker)) :=
  match frames with
  | [] => Ok []
  | f :: frames' => cmd ← DecodeInboundMessage f; cmds ← decode_all frames'; Ok (cmd :: cmds)
  end.

Definition replay_event (ev : SysEvent) (r : Replay) : Outcome Replay :=
  match ev with
  | EvAccepted fd => Ok (mkReplay (<[fd := []]> (rp_streams r)) (rp_log r))
  | EvReceived fd bs =>
      match rp_streams r !! fd with
      | None => Ok r
      | Some start =>
          let (frames, rest) := cut (start ++ bs) in
          cmds ← decode_all frames;
          Ok (mkReplay (<[fd := rest]> (rp_streams r)) (rp_log r ++ (pair fd <$> cmds)))
      end
  | EvEnded fd => Ok (mkReplay (delete fd (rp_streams r)) (rp_log r))
  end.

Definition replay (evs : list SysEvent) (r : Replay) : Outcome Replay := foldM replay_event evs r.

Lemma decode_all_decodes frames cmds : decode_all frames = Ok cmds ↔ decodes frames cmds.
Proof.
  revert cmds. induction frames as [|f frames IH]; intros cmds; cbn.
  { split; [intros [= <-]; constructor|]. by inversion 1. }
  split.
  - intros Hd. apply bind_Ok in Hd as (cmd & H1 & H2). apply bind_Ok in H2 as (cs & H2 & [= <-]).
    constructor; [done|by apply IH].
  - inversion 1 as [|? cmd ? cs H1 H2]; subst. rewrite H1. cbn. apply IH in H2. by rewrite H2.
Qed.

(** What cutting does to the reads of the gateway: at most one frame at a time. *)
Lemma cut_short l : (length l < buffer_size)%nat → cut l = ([], l).
Proof.
  intros Hl. unfold cut. destruct (length l) as [|n] eqn:E; [done|]. cbn [cut_frames]. rewrite E.
  by rewrite (proj2 (Nat.ltb_lt _ _) Hl).
Qed.

Lemma cut_one l : length l = buffer_size → cut l = ([l], []).
Proof.
  intros Hl. destruct (Framed_unique l (cut l).1 (cut l).2 [l] []) as [E1 E2].
  - apply cut_framed.
  - split; [by rewrite app_nil_r; cbn; rewrite app_nil_r|by repeat constructor|apply Nat.lt_0_succ].
  - by rewrite (surjective_pairing (cut l)), E1, E2.
Qed.
End Replay.
Arguments Replay Ticker : clear implicits.

(** ** The gateway and the reader *)

Section Agreement.
Context {Ticker : Type} `{!TickerType Ticker} `{!TickerLaws Ticker}.
Context {Conns : Type} `{!ConnMap Conns} `{!ConnLaws Conns}.
Context {K : Type} `{!Kernel K} `{!KernelLaws K}.
Notation Gw := (GwState Conns (Noted K) (list (InboundCommand Ticker))).
Implicit Types (g : Gw) (fd : Z) (conn : Connection) (r : Replay Ticker).

(** The reader of the notes is where the gateway is. *)
Record tracks g r : Prop := {
  tk_streams fd : rp_streams r !! fd = held <$> um_find fd (connections_ g);
  tk_conns fd conn : um_find fd (connections_ g) = Some conn → conn_ok conn;
  tk_out : gw_out g = (rp_log r).*2;
}.

(** From [g] to [g'] the notes grew, and reading them leads from [r] to where [g'] is. *)
Definition noted_step g r g' : Prop :=
  ∃ evs r', (gw_kernel g').2 = (gw_kernel g).2 ++ evs ∧ replay evs r = Ok r' ∧ tracks g' r'.

Lemma noted_step_refl g r g' : (gw_kernel g').2 = (gw_kernel g).2 → tracks g' r → noted_step g r g'.
Proof. intros E Ht. exists [], r. by rewrite app_nil_r. Qed.

Lemma noted_step_trans g r g1 r1 g' ev : (gw_kernel g1).2 = (gw_kernel g).2 ++ [ev] →
  replay_event ev r = Ok r1 → noted_step g1 r1 g' → noted_step g r g'.
Proof.
  intros E1 Hr (evs & r' & E & Hevs & Ht). exists (ev :: evs), r'. split_and!; [|by cbn; rewrite Hr|done].
  by rewrite E, E1, <-(assoc_L (++)).
Qed.

(** The table and the streams change together. *)
Lemma tracks_set g r fd conn k out lg start : tracks g r → conn_ok conn → held conn = start →
  out = lg.*2 →
  tracks (mkGw (gw_fds g) (um_set fd conn (connections_ g)) k out)
    (mkReplay (<[fd := start]> (rp_streams r)) lg).
Proof.
  intros [Hs Hc _] Hok <- ->. split; cbn [connections_ gw_out rp_streams rp_log]; [| |done].
  - intros fd'. destruct (decide (fd' = fd)) as [->|Hne].
    + by rewrite lookup_insert_eq, um_find_set_eq.
    + by rewrite lookup_insert_ne, um_find_set_ne.
  - intros fd' conn'. destruct (decide (fd' = fd)) as [->|Hne].
    + rewrite um_find_set_eq. by intros [= <-].
    + rewrite um_find_set_ne by done. apply Hc.
Qed.

Lemma tracks_erase g r fd k : tracks g r →
  tracks (mkGw (gw_fds g) (um_erase fd (connections_ g)) k (gw_out g))
    (mkReplay (delete fd (rp_streams r)) (rp_log r)).
Proof.
  intros [Hs Hc Ho]. split; cbn [connections_ gw_out rp_streams rp_log]; [| |done].
  - intros fd'. destruct (decide (fd' = fd)) as [->|Hne].
    + by rewrite lookup_delete_eq, um_find_erase_eq.
    + by rewrite lookup_delete_ne, um_find_erase_ne.
  - intros fd' conn'. destruct (decide (fd' = fd)) as [->|Hne].
    + by rewrite um_find_erase_eq.
    + rewrite um_find_erase_ne by done. apply Hc.
Qed.

Lemma tracks_kernel g r k : tracks g r →
  tracks (mkGw (gw_fds g) (connections_ g) k (gw_out g)) r.
Proof. intros [Hs Hc Ho]. by split. Qed.

(** A read that completes no frame, and one that does, for the reader of the notes. *)
Lemma replay_partial fd conn bs r : rp_streams r !! fd = Some (held conn) →
  (length (held conn ++ bs) < buffer_size)%nat →
  replay_event (EvReceived fd bs) r =
    Ok (mkReplay (<[fd := held conn ++ bs]> (rp_streams r)) (rp_log r)).
Proof. intros Hs Hl. cbn. rewrite Hs, (cut_short _ Hl). cbn. by rewrite app_nil_r. Qed.

Lemma replay_frame fd conn bs cmd r : rp_streams r !! fd = Some (held conn) →
  length (held conn ++ bs) = buffer_size → DecodeInboundMessage (held conn ++ bs) = Ok cmd →
  replay_event (EvReceived fd bs) r =
    Ok (mkReplay (<[fd := []]> (rp_streams r)) (rp_log r ++ [(fd, cmd)])).
Proof. intros Hs Hl Hd. cbn. rewrite Hs, (cut_one _ Hl). cbn. by rewrite Hd. Qed.

Lemma ended_step fd g r k g1 : tracks g r → g1 = mkGw (gw_fds g) (connections_ g) k (gw_out g) →
  k.2 = (gw_kernel g).2 ++ [EvEnded fd] → noted_step g r (CloseConnection fd g1).
Proof.
  intros Ht -> Hk.
  set (g1 := CloseConnection fd (mkGw (gw_fds g) (connections_ g) k (gw_out g))).
  apply (noted_step_trans g r g1 (mkReplay (delete fd (rp_streams r)) (rp_log r)) g1 (EvEnded fd));
    [done..|].
  apply noted_step_refl; [done|]. by apply (tracks_erase g).
Qed.

Lemma ReadLoop_noted fuel fd conn g g' r :
  um_find fd (connections_ g) = Some conn → tracks g r →
  ReadLoop collect fuel fd conn g = Ok g' → noted_step g r g'.
Proof.
  revert conn g r. induction fuel as [|fuel IH]; intros conn g r Hfind Ht; [done|].
  pose proof (tk_conns _ _ Ht _ _ Hfind) as Hok. pose proof Hok as [Hl Hf].
  assert (rp_streams r !! fd = Some (held conn)) as Hs by by rewrite (tk_streams _ _ Ht), Hfind.
  cbn [ReadLoop sys_read noted_kernel].
  pose proof (read_law fd (buffer_size - filled_ conn) (gw_kernel g).1 ltac:(lia)) as HL.
  destruct (sys_read fd _ (gw_kernel g).1) as [[bs| | |] k]; cbn [read_note];
    [|intros [= <-]; by eapply ended_step|intros [= <-]; apply noted_step_refl;
      [apply app_nil_r|by apply tracks_kernel]|intros [= <-]; by eapply ended_step].
  destruct HL as (_ & _ & _ & [Hb1 Hb2] & _). cbn [filled_ buffer_].
  destruct (Nat.ltb_spec (length bs) (buffer_size - filled_ conn)).
  - rewrite (proj2 (Nat.eqb_neq _ _)) by lia. cbn [mbind Outcome_bind]. intros [= <-].
    assert (held (mkConnection (poke (filled_ conn) bs (buffer_ conn)) (filled_ conn + length bs))
      = held conn ++ bs) as Hheld by (apply take_poke; lia).
    eapply noted_step_trans; [|apply replay_partial; [exact Hs|]|apply noted_step_refl; [done|]];
      [done|unfold held; rewrite length_app, length_take; lia|].
    apply tracks_set; [done| |done|apply (tk_out _ _ Ht)].
    split; cbn [buffer_ filled_]; [by rewrite length_poke|lia].
  - destruct (full_buffer conn bs Hok) as [-> Hlen]; [lia|].
    rewrite (proj2 (Nat.eqb_eq _ _)) by lia. unfold Dispatch.
    destruct (DecodeInboundMessage (held conn ++ bs)) as [cmd| | |] eqn:Hd; [|done..].
    cbn [mbind Outcome_bind collect]. intros HR.
    eapply noted_step_trans; [|by apply (replay_frame fd conn bs cmd)|eapply IH; [| |exact HR]];
      [done|apply um_find_set_eq|].
    apply tracks_set; [done| |done|].
    + split; cbn [buffer_ filled_]; [done|apply Nat.lt_0_succ].
    + by rewrite (tk_out _ _ Ht), fmap_app.
Qed.

Lemma AcceptLoop_noted fuel g g' r : tracks g r → AcceptLoop fuel g = Ok g' → noted_step g r g'.
Proof.
  revert g r. induction fuel as [|fuel IH]; intros g r Ht; [done|].
  cbn [AcceptLoop sys_accept noted_kernel].
  destruct (sys_accept _ (gw_kernel g).1) as [[fd|] k]; cbn [accept_note].
  - intros HR. eapply (noted_step_trans _ _ _ _ _ (EvAccepted fd)); [|reflexivity|eapply IH; [|exact HR]]; [done|].
    apply tracks_set; [done|apply connection_init_ok..|apply (tk_out _ _ Ht)].
  - intros [= <-]. apply noted_step_refl; [apply app_nil_r|by apply tracks_kernel].
Qed.

Lemma noted_step_app g r g1 g' : noted_step g r g1 →
  (∀ r1, tracks g1 r1 → noted_step g1 r1 g') → noted_step g r g'.
Proof.
  intros (evs1 & r1 & E1 & H1 & T1) Hnext. destruct (Hnext r1 T1) as (evs2 & r2 & E2 & H2 & T2).
  exists (evs1 ++ evs2), r2. split_and!; [by rewrite E2, E1, (assoc_L (++))| |done].
  unfold replay in *. by rewrite foldM_app, H1.
Qed.

Lemma HandleEvents_noted fds g g' r : tracks g r →
  foldM (HandleEvent collect) fds g = Ok g' → noted_step g r g'.
Proof.
  revert g r. induction fds as [|fd fds IH]; intros g r Ht; cbn [foldM].
  { intros [= <-]. by apply noted_step_refl. }
  intros (g1 & H1 & H2)%bind_Ok. apply (noted_step_app g r g1); [|intros r1 T1; by apply IH].
  unfold HandleEvent, AcceptConnections, ReadFrom in H1. destruct (fd =? _).
  { by eapply AcceptLoop_noted. }
  destruct (um_find fd (connections_ g)) as [conn|] eqn:E; [by eapply ReadLoop_noted|].
  injection H1 as <-. by apply noted_step_refl.
Qed.

Lemma EventLoop_noted rounds g g' r : tracks g r →
  EventLoop collect rounds g = Ok g' → noted_step g r g'.
Proof.
  revert g r. induction rounds as [|rounds IH]; intros g r Ht.
  { intros [= <-]. by apply noted_step_refl. }
  cbn [EventLoop sys_epoll_wait noted_kernel]. unfold noted.
  destruct (sys_epoll_wait _ max_events (gw_kernel g).1) as [evs k]. cbn [fst snd].
  intros (g1 & H1 & H2)%bind_Ok.
  apply (noted_step_app g r g1); [|intros r1 T1; by apply IH].
  by apply (HandleEvents_noted _ _ _ _ (tracks_kernel _ _ (k, (gw_kernel g).2) Ht)) in H1.
Qed.
End Agreement.

(** ** One connection *)

Section OneConnection.
Context {Ticker : Type} `{!TickerType Ticker} `{!TickerLaws Ticker}.
Implicit Types (fd : Z) (evs : list SysEvent) (r : Replay Ticker).

(** What was read from [fd], and what was dispatched from it. *)
Definition received fd evs : list byte :=
  concat ((λ ev, match ev with EvReceived fd' bs => if fd' =? fd then bs else [] | _ => [] end) <$> evs).
Definition sent_by fd (log : list (Z * InboundCommand Ticker)) : list (InboundCommand Ticker) :=
  (filter (λ e, e.1 = fd) log).*2.

(** [fd] stays the same connection. *)
Definition stays fd evs : Prop := Forall (λ ev, ev ≠ EvAccepted fd ∧ ev ≠ EvEnded fd) evs.

Lemma received_cons fd ev evs : received fd (ev :: evs) = received fd [ev] ++ received fd evs.
Proof. unfold received. cbn [fmap list_fmap concat]. by rewrite app_nil_r. Qed.

Lemma sent_by_app fd log1 log2 : sent_by fd (log1 ++ log2) = sent_by fd log1 ++ sent_by fd log2.
Proof. unfold sent_by. by rewrite filter_app, fmap_app. Qed.

Lemma sent_by_eq fd cmds : sent_by fd (pair fd <$> cmds) = cmds.
Proof.
  unfold sent_by. induction cmds as [|cmd cmds IH]; [done|]. rewrite fmap_cons.
  rewrite filter_cons_True by done. cbn. by rewrite IH.
Qed.

Lemma sent_by_ne fd fd' cmds : fd' ≠ fd → sent_by fd (pair fd' <$> cmds) = [].
Proof.
  intros Hne. unfold sent_by. induction cmds as [|cmd cmds IH]; [done|]. rewrite fmap_cons.
  by rewrite filter_cons_False.
Qed.

Lemma replay_event_log ev r r' : replay_event ev r = Ok r' → ∃ more, rp_log r' = rp_log r ++ more.
Proof.
  destruct ev as [fd|fd bs|fd]; cbn.
  - intros [= <-]. exists []. by rewrite app_nil_r.
  - destruct (rp_streams r !! fd) as [start|]; [|intros [= <-]; exists []; by rewrite app_nil_r].
    destruct (cut _) as [frames rest]. intros (cmds & _ & [= <-])%bind_Ok. by eexists.
  - intros [= <-]. exists []. by rewrite app_nil_r.
Qed.

Lemma replay_log evs r r' : replay evs r = Ok r' → ∃ more, rp_log r' = rp_log r ++ more.
Proof.
  revert r. induction evs as [|ev evs IH]; intros r; cbn.
  { intros [= <-]. exists []. by rewrite app_nil_r. }
  intros (r1 & H1 & H2)%bind_Ok. destruct (replay_event_log _ _ _ H1) as [m1 E1].
  destruct (IH _ H2) as [m2 E2]. exists (m1 ++ m2). by rewrite E2, E1, (assoc_L (++)).
Qed.

(** While [fd] stays, its part of the log is the frames of its stream. *)
Definition cut_between fd (start bytes : list byte) r r' : Prop :=
  ∃ frames rest cmds, Framed (start ++ bytes) frames rest ∧ decodes frames cmds ∧
    sent_by fd (rp_log r') = sent_by fd (rp_log r) ++ cmds ∧ rp_streams r' !! fd = Some rest.

Lemma cut_between_refl fd start r r' : (length start < buffer_size)%nat →
  rp_streams r' !! fd = Some start → sent_by fd (rp_log r') = sent_by fd (rp_log r) →
  cut_between fd start [] r r'.
Proof.
  intros Hl Hs Hlog. exists [], start, []. rewrite !app_nil_r.
  split_and!; [by split; [|constructor|]|constructor|done..].
Qed.

Lemma replay_event_cut fd start ev r r' : (length start < buffer_size)%nat →
  rp_streams r !! fd = Some start → ev ≠ EvAccepted fd → ev ≠ EvEnded fd →
  replay_event ev r = Ok r' → cut_between fd start (received fd [ev]) r r'.
Proof.
  intros Hl Hs Ha He. destruct ev as [fd'|fd' bs|fd']; cbn.
  - intros [= <-]. apply cut_between_refl; [done| |done]. cbn. rewrite lookup_insert_ne; [done|congruence].
  - rewrite app_nil_r. destruct (Z.eqb_spec fd' fd) as [->|Hne].
    + rewrite Hs. pose proof (cut_framed (start ++ bs)) as HF.
      destruct (cut (start ++ bs)) as [frames rest]. intros (cmds & Hd & [= <-])%bind_Ok.
      exists frames, rest, cmds. cbn [rp_log rp_streams]. rewrite lookup_insert_eq, sent_by_app, sent_by_eq.
      split_and!; [done|by apply decode_all_decodes|done..].
    + destruct (rp_streams r !! fd') as [start'|].
      * destruct (cut (start' ++ bs)) as [frames rest]. intros (cmds & Hd & [= <-])%bind_Ok.
        apply cut_between_refl; [done|cbn; by rewrite lookup_insert_ne|].
        cbn [rp_log]. by rewrite sent_by_app, sent_by_ne, app_nil_r.
      * intros [= <-]. by apply cut_between_refl.
  - intros [= <-]. apply cut_between_refl; [done| |done]. cbn. rewrite lookup_delete_ne; [done|congruence].
Qed.

Lemma replay_cut fd start evs r r' : (length start < buffer_size)%nat →
  rp_streams r !! fd = Some start → stays fd evs → replay evs r = Ok r' →
  cut_between fd start (received fd evs) r r'.
Proof.
  intros Hl Hs Hst. revert start r Hl Hs. induction Hst as [|ev evs [Ha He] _ IH]; intros start r Hl Hs.
  { intros [= <-]. by apply cut_between_refl. }
  unfold replay. cbn [foldM]. intros (r1 & H1 & H2)%bind_Ok.
  destruct (replay_event_cut fd start ev r r1 Hl Hs Ha He H1) as (fs1 & rest1 & cs1 & F1 & D1 & L1 & S1).
  destruct (IH rest1 r1 (framed_rest _ _ _ F1) S1 H2) as (fs2 & rest2 & cs2 & F2 & D2 & L2 & S2).
  exists (fs1 ++ fs2), rest2, (cs1 ++ cs2). split_and!; [|by apply Forall2_app| |done].
  - rewrite received_cons, (assoc_L (++)). by eapply Framed_app.
  - by rewrite L2, L1, (assoc_L (++)).
Qed.
End OneConnection.

(** ** Properties *)

(** C18: Each connection is first-in first-out, and connections do not mix.  Run the event
    loop from a gateway without connections, over any system.  An observer of its system
    calls sees the same run, and a reader of the observer's notes that keeps one stream per
    connection and cuts frames off it logs exactly the commands the gateway dispatched, in
    the same order, and ends up holding the same incomplete frames.  Moreover, for every
    connection and every stretch of the notes during which it stays open: what the gateway
    dispatched from it in that stretch is the frames of the bytes read from it since it was
    accepted, in order and each once, whatever was read from other connections (or from an
    earlier one with the same descriptor) in between. *)
Theorem gateway_is_fifo_per_connection {Ticker Conns K} `{!TickerType Ticker} `{!TickerLaws Ticker}
    `{!ConnMap Conns} `{!ConnLaws Conns} `{!Kernel K} `{!KernelLaws K} (rounds : nat)
    (g g' : GwState Conns K (list (InboundCommand Ticker))) :
  (∀ fd, um_find fd (connections_ g) = None) → gw_out g = [] →
  EventLoop collect rounds g = Ok g' →
  ∃ observed r, EventLoop collect rounds (observe g) = Ok observed ∧ unobserve observed = g' ∧
    replay (gw_kernel observed).2 replay_init = Ok r ∧
    gw_out g' = (rp_log r).*2 ∧
    (∀ fd, rp_streams r !! fd = held <$> um_find fd (connections_ g')) ∧
    ∀ fd before during after,
      (gw_kernel observed).2 = before ++ EvAccepted fd :: during ++ after → stays fd during →
      ∃ r1 log2 log3 frames rest cmds, replay before replay_init = Ok r1 ∧
        rp_log r = rp_log r1 ++ log2 ++ log3 ∧
        Framed (received fd during) frames rest ∧ decodes frames cmds ∧
        sent_by fd log2 = cmds.
Proof.
  intros Hc Ho HE. pose proof (EventLoop_unobserved collect rounds (observe g)) as HU.
  change (unobserve (observe g)) with (mkGw (gw_fds g) (connections_ g) (gw_kernel g) (gw_out g)) in HU.
  replace (mkGw _ _ _ _) with g in HU by by destruct g. rewrite HE in HU.
  destruct (EventLoop collect rounds (observe g)) as [go| | |] eqn:E; [|done..].
  injection HU as HU. assert (tracks (observe g) replay_init) as Ht.
  { split; cbn; [intros fd; by rewrite Hc|intros fd conn; by rewrite Hc|done]. }
  destruct (EventLoop_noted rounds (observe g) go replay_init Ht E) as (evs & r & En & Hr & [Hs _ Hout]).
  cbn in En. subst g'. exists go, r. rewrite En.
  split_and!; [done..|]. intros fd before during after Hev Hst.
  rewrite Hev in Hr. unfold replay in Hr. rewrite foldM_app in Hr. apply bind_Ok in Hr as (r1 & H1 & Hr).
  cbn in Hr. rewrite foldM_app in Hr. apply bind_Ok in Hr as (r2 & H2 & H3).
  destruct (replay_cut fd [] during _ r2 (Nat.lt_0_succ _) (lookup_insert_eq _ _ _) Hst H2)
    as (frames & rest & cmds & HF & HD & HL & _).
  destruct (replay_log _ _ _ H2) as [log2 E2], (replay_log _ _ _ H3) as [log3 E3].
  exists r1, log2, log3, frames, rest, cmds. cbn [rp_log] in HL, E2.
  split_and!; [done|by rewrite E3, E2, (assoc_L (++))|done..|].
  rewrite E2, sent_by_app in HL. by apply app_inv_head in HL.
Qed.

(** Two clients whose frames arrive in pieces, the pieces of one between those of the other. *)
Definition frame_of (b : byte) : list byte := x00 :: b :: replicate 48 x00.

Definition two_clients : sim :=
  mkSim ∅ [] {[0; 1; 2; 3; 4]} ∅ ∅ 5 true true true
    [mkRound [7; 8] ∅ [3];
     mkRound [] {[7 := frame_of x01 ++ take 20 (frame_of x02); 8 := take 30 (frame_of x03)]} [7; 8];
     mkRound [] {[8 := drop 30 (frame_of x03); 7 := drop 20 (frame_of x02)]} [8; 7]].

Definition two_clients_gw : CGw := mkGw (mkFds 9000 3 4) ∅ two_clients [].
Definition two_clients_end : CGw := Eval vm_compute in ok_or two_clients_gw (EventLoop collect 3 two_clients_gw).

(** The second frame of the first client comes after the frame of the second one. *)
Lemma gateway_is_fifo_per_connection_witness :
  length (gw_out two_clients_end) = 3%nat ∧
  ∃ (observed : GwState (gmap Z Connection) (Noted sim) (list (InboundCommand CTicker))) r,
    EventLoop collect 3 (observe two_clients_gw) = Ok observed ∧
    unobserve observed = two_clients_end ∧
    replay (gw_kernel observed).2 replay_init = Ok r ∧
    gw_out two_clients_end = (rp_log r).*2 ∧ (rp_log r).*1 = [7; 8; 7] ∧
    ∃ r1 log2 log3 frames rest cmds, replay [] replay_init = Ok r1 ∧
      rp_log r = rp_log r1 ++ log2 ++ log3 ∧
      Framed (received 7 (drop 1 (gw_kernel observed).2)) frames rest ∧
      decodes frames cmds ∧ sent_by 7 log2 = cmds.
Proof.
  split; [vm_compute; reflexivity|].
  destruct (gateway_is_fifo_per_connection (Ticker:=CTicker) (Conns:=gmap Z Connection) 3
    two_clients_gw two_clients_end) as (o & r & H1 & H2 & H3 & H4 & _ & H6);
    [intros fd; apply lookup_empty|reflexivity|vm_compute; reflexivity|].
  exists o, r. split; [exact H1|]. split; [exact H2|]. split; [exact H3|]. split; [exact H4|].
  clear H2 H4. vm_compute in H1. injection H1 as <-. split.
  - vm_compute in H3. injection H3 as <-. vm_compute. reflexivity.
  - apply (H6 7 [] _ []); [rewrite app_nil_r; vm_compute; reflexivity|].
    vm_compute. repeat constructor; discriminate.
Defined.
