(* ===== verification/Publisher.v ===== *)
(** * The market data publisher's socket
    (common/net/market_data_publisher.hpp, market_data_publisher.cpp)

    The constructor and the destructor of MarketDataPublisher: one datagram socket, its
    destination and its multicast options.  The loop of Run is a thread of
    Pipeline.v. *)

From Stdlib Require Import Strings.Byte Strings.String.
From stdpp Require Import gmap.
From S2P Require Import Prelude Interfaces Double CoreTypes Bytes Os.

Local Open Scope Z_scope.

Record MarketDataPublisher := mkPublisher {
  socketFd_ : Z;
  destination_ : sockaddr_in;
}.

#[export] Instance MarketDataPublisher_eq_dec : EqDecision MarketDataPublisher.
Proof. solve_decision. Defined.

(** The std::runtime_error the constructor throws. *)
Inductive PublisherError := PublisherSocketFailed | InvalidMulticastAddress.

Section PublisherOps.
Context {K : Type} `{!Kernel K}.
(** inet_pton(AF_INET, ...): the address in network byte order, or not an address. *)
Context (inet_pton : list byte → option Z).

(** The constructor of MarketDataPublisher<Local>: the system it leaves, and the object
    or the exception. *)
Definition Publisher_new (Local : bool) (multicastAddress : list byte) (port : Z) (k : K)
    : K * (MarketDataPublisher + PublisherError) :=
  let (fd, k) := sys_socket SOCK_DGRAM k in
  if fd <? 0 then (k, inr PublisherSocketFailed) else
  match inet_pton multicastAddress with
  | None => (sys_close fd k, inr InvalidMulticastAddress)
  | Some addr =>
      let k := sys_setsockopt fd (IP_MULTICAST_TTL 1) k in
      let k := if Local then
                 let k := sys_setsockopt fd (IP_MULTICAST_IF (htonl INADDR_LOOPBACK)) k in
                 sys_setsockopt fd (IP_MULTICAST_LOOP 1) k
               else k in
      (k, inl (mkPublisher fd (mkSockaddr (htons port) addr)))
  end.

(** ~MarketDataPublisher() *)
Definition Publisher_delete (p : MarketDataPublisher) (k : K) : K :=
  if 0 <=? socketFd_ p then sys_close (socketFd_ p) k else k.

(** The options of a publisher. *)
Definition publisher_options (Local : bool) : list SockOpt :=
  IP_MULTICAST_TTL 1 ::
  if Local then [IP_MULTICAST_IF (htonl INADDR_LOOPBACK); IP_MULTICAST_LOOP 1] else [].
End PublisherOps.

(** ** Network byte order *)

Lemma lor_shiftl_add a b n : 0 ≤ n → 0 ≤ b < 2 ^ n → Z.lor (Z.shiftl a n) b = a * 2 ^ n + b.
Proof.
  intros Hn Hb. assert (Z.land (Z.shiftl a n) b = 0) as E.
  { apply Z.bits_inj'. intros i Hi. rewrite Z.land_spec, Z.bits_0.
    destruct (Z.lt_ge_cases i n).
    - by rewrite Z.shiftl_spec_low.
    - rewrite <-(Z.mod_small b (2 ^ n)), Z.mod_pow2_bits_high by lia. apply andb_false_r. }
  pose proof (Z.add_lor_land (Z.shiftl a n) b) as H. rewrite E in H.
  rewrite Z.shiftl_mul_pow2 in * by done. lia.
Qed.

Lemma htons_value z : htons z = 256 * (z mod 256) + z / 256 mod 256.
Proof.
  unfold htons. change 255 with (Z.ones 8). rewrite !Z.land_ones, Z.shiftr_div_pow2 by lia.
  change (2 ^ 8) with 256. rewrite lor_shiftl_add; [lia|lia|]. by apply Z.mod_pos_bound.
Qed.

(** In memory a port is big-endian. *)
Lemma htons_memory z : le_bytes 2 (htons z) = [byte_of_Z (z / 256); byte_of_Z z].
Proof.
  rewrite htons_value. cbn [le_bytes]. pose proof (Z.mod_pos_bound z 256 ltac:(lia)).
  pose proof (Z.mod_pos_bound (z / 256) 256 ltac:(lia)). unfold byte_of_Z.
  rewrite (Z.mul_comm 256), !(Z.add_comm (_ * 256)), Z.mod_add, Z.div_add by lia.
  rewrite Z.mod_mod, (Z.div_small (z / 256 mod 256)), Z.add_0_l, Z.mod_mod by lia. done.
Qed.

Lemma htonl_loopback : le_bytes 4 (htonl INADDR_LOOPBACK) = byte_of_Z <$> [127; 0; 0; 1].
Proof. vm_compute. reflexivity. Qed.

Section PublisherFacts.
Context {K : Type} `{!Kernel K} `{!KernelLaws K} (inet_pton : list byte → option Z).

(** Options set one after the other. *)
Lemma setsockopts fd (opts : list SockOpt) (k : K) :
  let k' := foldl (λ k opt, sys_setsockopt fd opt k) k opts in
  k_open k' = k_open k ∧ k_opts fd k' = k_opts fd k ++ opts ∧
  ∀ fd', fd' ≠ fd → k_opts fd' k' = k_opts fd' k.
Proof.
  revert k. induction opts as [|opt opts IH]; intros k; cbn zeta; cbn [foldl].
  { by rewrite app_nil_r. }
  destruct (setsockopt_law fd opt k) as (H1 & H2 & _ & H3).
  destruct (IH (sys_setsockopt fd opt k)) as (I1 & I2 & I3).
  split_and!; [congruence| |].
  - by rewrite I2, H2, <-(assoc_L (++)).
  - intros fd' Hne. by rewrite I3, H3.
Qed.

(** What a new publisher is: its socket is new, sends to the address and port given, in
    network byte order, and has the options of its kind; and if construction fails,
    nothing stays open. *)
Lemma Publisher_new_spec Local addr port (k : K) :
  match Publisher_new inet_pton Local addr port k with
  | (k', inl p) => 0 ≤ socketFd_ p ∧ socketFd_ p ∉ k_open k ∧
      k_open k' = {[socketFd_ p]} ∪ k_open k ∧
      k_opts (socketFd_ p) k' = publisher_options Local ∧
      (∀ fd, fd ≠ socketFd_ p → k_opts fd k' = k_opts fd k) ∧
      sin_port (destination_ p) = htons port ∧ inet_pton addr = Some (sin_addr (destination_ p))
  | (k', inr err) => k_open k' = k_open k ∧ (err = InvalidMulticastAddress → inet_pton addr = None)
  end.
Proof.
  unfold Publisher_new. pose proof (socket_law SOCK_DGRAM k) as HL.
  destruct (sys_socket SOCK_DGRAM k) as [fd k1]. destruct HL as [Hnew Hsame].
  destruct (Z.ltb_spec fd 0); [done|]. destruct Hnew as (Hn & Ho & Hopts).
  destruct (inet_pton addr) as [a|] eqn:Ea.
  - pose proof (setsockopts fd (publisher_options Local) k1) as (S1 & S2 & S3).
    replace (foldl _ k1 (publisher_options Local)) with
      (let k := sys_setsockopt fd (IP_MULTICAST_TTL 1) k1 in
       if Local then sys_setsockopt fd (IP_MULTICAST_LOOP 1)
         (sys_setsockopt fd (IP_MULTICAST_IF (htonl INADDR_LOOPBACK)) k) else k)
      in S1, S2, S3 by (by destruct Local).
    cbn zeta in *. split_and!; cbn [socketFd_ destination_ sin_port sin_addr]; try done.
    + by rewrite S1.
    + by rewrite S2, Hopts.
    + intros fd' Hne. rewrite S3 by done. by apply Hsame.
  - destruct (close_law fd k1) as (_ & O & _). split; [|done]. rewrite O, Ho. set_solver.
Qed.

Lemma Publisher_delete_spec p (k : K) base : 0 ≤ socketFd_ p → socketFd_ p ∉ base →
  k_open k = {[socketFd_ p]} ∪ base → k_open (Publisher_delete p k) = base.
Proof.
  intros Hp Hn Ho. unfold Publisher_delete. destruct (Z.leb_spec 0 (socketFd_ p)); [|lia].
  destruct (close_law (socketFd_ p) k) as (_ & -> & _). set_solver.
Qed.
End PublisherFacts.
