(* ===== verification/Pipeline.v ===== *)
(** * The exchange process
    (exchange/main.cpp, common/workers,
     common/net/market_data_publisher.cpp)

    Five threads: the gateway, the matching engine, the inventory, the market data
    publisher and main, connected by three bounded single-producer single-consumer
    queues and two flags.  A step is one atomic action of one thread; any interleaving
    of steps is possible. *)

From Stdlib Require Import Strings.Byte.
From stdpp Require Import gmap.
From S2P Require Import Prelude Interfaces Double CoreTypes Seqlock FlatMap MatchingEngine Router User Registry Bytes Wire Feed Queues.

Local Open Scope Z_scope.

Section Workers.
Context {Ticker : Type} `{!TickerType Ticker} {Index : Type} `{!OrderIndexType Index}.
(** The storage of a local [WireMarketDataMessage msg{}]. *)
Context (msg0 : list byte).

(** What one command makes the matching engine thread do, in order: pushes on its two
    queues, and the store of the new mid price, from which on other threads see the
    new state of the engines. *)
Inductive Action :=
  | PushMarketData (m : list byte)
  | PushTrade (tr : Trade Ticker)
  | Publish (r : MatchingEngineRouter Index).

(** The body of the loop of RunMatchingEngineThread after a successful pop.  If the mid
    price is undefined behaviour the pushes made before it are not recorded: the run is
    undefined from there. *)
Definition ProcessCommand (cmd : InboundCommand Ticker) (r : MatchingEngineRouter Index)
    : Outcome (list Action) :=
  match cmd with
  | CmdAdd add =>
      '(r, acts) ← router_OnOrderAdd
        (λ trade acts, Ok (acts ++ [PushMarketData (EncodeTradeEvent msg0 trade); PushTrade trade]))
        add r [PushMarketData (EncodeOrderAddEvent msg0 add)];
      Ok (acts ++ [Publish r])
  | CmdCancel cancel =>
      r ← router_OnOrderCancel cancel r;
      Ok [Publish r; PushMarketData (EncodeOrderCancelEvent msg0 cancel)]
  end.
End Workers.
Arguments Action Ticker Index : clear implicits.

(** Where each thread is. *)
Inductive EnginePC (Ticker Index : Type) :=
  | EnginePop                                  (* about to pop a command *)
  | EngineCheck                                (* found the queue empty *)
  | EngineRun (acts : list (Action Ticker Index))
  | EngineDone
  | EngineCrashed (cmd : InboundCommand Ticker).
Arguments EnginePop {Ticker Index}.
Arguments EngineCheck {Ticker Index}.
Arguments EngineRun {Ticker Index} acts.
Arguments EngineDone {Ticker Index}.
Arguments EngineCrashed {Ticker Index} cmd.

Inductive InventoryPC (Ticker : Type) :=
  | InventoryPop | InventoryCheck | InventoryGot (tr : Trade Ticker)
  | InventoryDone | InventoryCrashed (tr : Trade Ticker).
Arguments InventoryPop {Ticker}.
Arguments InventoryCheck {Ticker}.
Arguments InventoryGot {Ticker} tr.
Arguments InventoryDone {Ticker}.
Arguments InventoryCrashed {Ticker} tr.

Inductive PublisherPC :=
  | PublisherPop | PublisherCheck | PublisherGot (m : list byte) | PublisherDone.

Inductive MainPC :=
  | MainWaiting | MainJoinGateway | MainJoinMatching | MainJoinInventory
  | MainJoinMarketData | MainDone.

(** The private state of each thread, with a history of what went through it. *)
Record GatewayThread (Ticker : Type) := mkGwThread {
  gw_running_ : bool;                              (* Gateway::running_ *)
  gw_exited : bool;                                (* Run() returned *)
  gw_dispatched : list (InboundCommand Ticker);
}.
Arguments mkGwThread {Ticker} _ _ _.
Arguments gw_running_ {Ticker} _.
Arguments gw_exited {Ticker} _.
Arguments gw_dispatched {Ticker} _.

Record EngineThread (Ticker Index : Type) := mkEngineThread {
  en_pc : EnginePC Ticker Index;
  en_router : MatchingEngineRouter Index;          (* as the other threads see it *)
  en_processed : list (InboundCommand Ticker);     (* popped and executed *)
}.
Arguments mkEngineThread {Ticker Index} _ _ _.
Arguments en_pc {Ticker Index} _.
Arguments en_router {Ticker Index} _.
Arguments en_processed {Ticker Index} _.

Record InventoryThread (Ticker Index Inv : Type) := mkInventoryThread {
  in_pc : InventoryPC Ticker;
  in_registry : UserRegistry Inv;
  in_settled : list (MatchingEngineRouter Index * Trade Ticker);
}.
Arguments mkInventoryThread {Ticker Index Inv} _ _ _.
Arguments in_pc {Ticker Index Inv} _.
Arguments in_registry {Ticker Index Inv} _.
Arguments in_settled {Ticker Index Inv} _.

Record PublisherThread := mkPublisherThread {
  pb_pc : PublisherPC;
  pb_published : list (list byte);                 (* handed to sendto *)
  pb_sent : list (list byte);                      (* accepted by sendto *)
}.

Record MainThread := mkMainThread {
  mn_pc : MainPC;
  gShutdownRequested : bool;
  gatewayFinished : bool;
  matchingEngineFinished : bool;
}.

Section Threads.
Context {Ticker : Type} `{!TickerType Ticker} {Index : Type} `{!OrderIndexType Index}.
Context {D : Type} `{!DoubleOps D} {Inv : Type} `{!InventoryMap Ticker D Inv}.
Context {Qi Qm Qt : Type} `{!InboundQueue Ticker Qi} `{!MarketDataQueue Qm} `{!TradeQueue Ticker Qt}.
Context (msg0 : list byte).

(** Each step is [None] when the thread cannot move: a push on a full queue, a join
    of a thread that has not ended. *)

(** Gateway::Dispatch pushes a command; Run returns once Stop was called. *)
Definition gateway_push (cmd : InboundCommand Ticker) (q : Qi) (gw : GatewayThread Ticker)
    : option (Qi * GatewayThread Ticker) :=
  if gw_exited gw then None
  else q ← q_push cmd q;
       Some (q, mkGwThread (gw_running_ gw) false (gw_dispatched gw ++ [cmd])).

(** Run may return whenever running_ is false.  A gateway that retries a push on a full
    queue first gets it done; here it may also give up, which allows more behaviours. *)
Definition gateway_exit (gw : GatewayThread Ticker) : option (GatewayThread Ticker) :=
  if gw_running_ gw || gw_exited gw then None
  else Some (mkGwThread false true (gw_dispatched gw)).

Definition Stop (gw : GatewayThread Ticker) : GatewayThread Ticker :=
  mkGwThread false (gw_exited gw) (gw_dispatched gw).

(** PushBlocking, or the store of the mid price. *)
Definition do_action (a : Action Ticker Index) (qm : Qm) (qt : Qt) (r : MatchingEngineRouter Index)
    : option (Qm * Qt * MatchingEngineRouter Index) :=
  match a with
  | PushMarketData m => qm ← q_push m qm; Some (qm, qt, r)
  | PushTrade tr => qt ← q_push tr qt; Some (qm, qt, r)
  | Publish r' => Some (qm, qt, r')
  end.

Definition RunMatchingEngineThread (finished : bool) (qi : Qi) (qm : Qm) (qt : Qt)
    (en : EngineThread Ticker Index) : option (Qi * Qm * Qt * EngineThread Ticker Index) :=
  let r := en_router en in
  match en_pc en with
  | EnginePop =>
      match q_pop qi with
      | None => Some (qi, qm, qt, mkEngineThread EngineCheck r (en_processed en))
      | Some (cmd, qi) =>
          match ProcessCommand msg0 cmd r with
          | Ok acts => Some (qi, qm, qt, mkEngineThread (EngineRun acts) r (en_processed en ++ [cmd]))
          | _ => Some (qi, qm, qt, mkEngineThread (EngineCrashed cmd) r (en_processed en))
          end
      end
  | EngineCheck =>
      Some (qi, qm, qt, mkEngineThread (if finished then EngineDone else EnginePop) r (en_processed en))
  | EngineRun [] => Some (qi, qm, qt, mkEngineThread EnginePop r (en_processed en))
  | EngineRun (a :: acts) =>
      '(qm, qt, r) ← do_action a qm qt r;
      Some (qi, qm, qt, mkEngineThread (EngineRun acts) r (en_processed en))
  | EngineDone | EngineCrashed _ => None
  end.

Definition RunInventoryThread (finished : bool) (router : MatchingEngineRouter Index) (qt : Qt)
    (iv : InventoryThread Ticker Index Inv) : option (Qt * InventoryThread Ticker Index Inv) :=
  match in_pc iv with
  | InventoryPop =>
      match q_pop qt with
      | None => Some (qt, mkInventoryThread InventoryCheck (in_registry iv) (in_settled iv))
      | Some (tr, qt) => Some (qt, mkInventoryThread (InventoryGot tr) (in_registry iv) (in_settled iv))
      end
  | InventoryCheck =>
      Some (qt, mkInventoryThread (if finished then InventoryDone else InventoryPop)
                  (in_registry iv) (in_settled iv))
  | InventoryGot tr =>
      match settle_trade router tr (in_registry iv) with
      | Ok reg => Some (qt, mkInventoryThread InventoryPop reg (in_settled iv ++ [(router, tr)]))
      | _ => Some (qt, mkInventoryThread (InventoryCrashed tr) (in_registry iv) (in_settled iv))
      end
  | InventoryDone | InventoryCrashed _ => None
  end.

(** [ok]: whether sendto succeeds. *)
Definition PublisherRun (finished ok : bool) (qm : Qm) (pb : PublisherThread)
    : option (Qm * PublisherThread) :=
  match pb_pc pb with
  | PublisherPop =>
      match q_pop qm with
      | None => Some (qm, mkPublisherThread PublisherCheck (pb_published pb) (pb_sent pb))
      | Some (m, qm) => Some (qm, mkPublisherThread (PublisherGot m) (pb_published pb) (pb_sent pb))
      end
  | PublisherCheck =>
      Some (qm, mkPublisherThread (if finished then PublisherDone else PublisherPop)
                  (pb_published pb) (pb_sent pb))
  | PublisherGot m =>
      Some (qm, mkPublisherThread PublisherPop (pb_published pb ++ [m])
                  (pb_sent pb ++ if ok then [m] else []))
  | PublisherDone => None
  end.

(** main after the threads are started; [stop] tells whether gateway.Stop() is called.
    The joins succeed once the thread has ended. *)
Definition main_step (gwDone enDone ivDone pbDone : bool) (mn : MainThread)
    : option (MainThread * bool) :=
  let go pc := mkMainThread pc (gShutdownRequested mn) (gatewayFinished mn)
                 (matchingEngineFinished mn) in
  match mn_pc mn with
  | MainWaiting => if gShutdownRequested mn then Some (go MainJoinGateway, true) else None
  | MainJoinGateway =>
      if gwDone then Some (mkMainThread MainJoinMatching (gShutdownRequested mn) true
                             (matchingEngineFinished mn), false) else None
  | MainJoinMatching =>
      if enDone then Some (mkMainThread MainJoinInventory (gShutdownRequested mn)
                             (gatewayFinished mn) true, false) else None
  | MainJoinInventory => if ivDone then Some (go MainJoinMarketData, false) else None
  | MainJoinMarketData => if pbDone then Some (go MainDone, false) else None
  | MainDone => None
  end.

(** HandleShutdownSignal *)
Definition HandleShutdownSignal (mn : MainThread) : MainThread :=
  mkMainThread (mn_pc mn) true (gatewayFinished mn) (matchingEngineFinished mn).
End Threads.

(** ** The process *)

Record Pipeline (Ticker Index Inv Qi Qm Qt : Type) := mkPipeline {
  inboundQueue : Qi;
  marketDataQueue : Qm;
  tradeQueue : Qt;
  gatewayThread : GatewayThread Ticker;
  matchingThread : EngineThread Ticker Index;
  inventoryThread : InventoryThread Ticker Index Inv;
  marketDataThread : PublisherThread;
  mainThread : MainThread;
}.
Arguments mkPipeline {Ticker Index Inv Qi Qm Qt}.
Arguments inboundQueue {Ticker Index Inv Qi Qm Qt} _.
Arguments marketDataQueue {Ticker Index Inv Qi Qm Qt} _.
Arguments tradeQueue {Ticker Index Inv Qi Qm Qt} _.
Arguments gatewayThread {Ticker Index Inv Qi Qm Qt} _.
Arguments matchingThread {Ticker Index Inv Qi Qm Qt} _.
Arguments inventoryThread {Ticker Index Inv Qi Qm Qt} _.
Arguments marketDataThread {Ticker Index Inv Qi Qm Qt} _.
Arguments mainThread {Ticker Index Inv Qi Qm Qt} _.

(** Which thread moves, and what its environment does. *)
Inductive Move (Ticker : Type) :=
  | MvGateway (cmd : InboundCommand Ticker)
  | MvGatewayExit
  | MvEngine
  | MvInventory
  | MvPublisher (ok : bool)
  | MvMain
  | MvSignal.
Arguments MvGateway {Ticker} cmd.
Arguments MvGatewayExit {Ticker}.
Arguments MvEngine {Ticker}.
Arguments MvInventory {Ticker}.
Arguments MvPublisher {Ticker} ok.
Arguments MvMain {Ticker}.
Arguments MvSignal {Ticker}.

Section Process.
Context {Ticker : Type} `{!TickerType Ticker} {Index : Type} `{!OrderIndexType Index}.
Context {D : Type} `{!DoubleOps D} {Inv : Type} `{!InventoryMap Ticker D Inv}.
Context {Qi Qm Qt : Type} `{!InboundQueue Ticker Qi} `{!MarketDataQueue Qm} `{!TradeQueue Ticker Qt}.
Context (msg0 : list byte).
Notation Proc := (Pipeline Ticker Index Inv Qi Qm Qt).
Implicit Types (s : Proc).

Definition engine_ended (pc : EnginePC Ticker Index) : bool :=
  match pc with EngineDone => true | _ => false end.
Definition inventory_ended (pc : InventoryPC Ticker) : bool :=
  match pc with InventoryDone => true | _ => false end.
Definition publisher_ended (pc : PublisherPC) : bool :=
  match pc with PublisherDone => true | _ => false end.

(** main() up to the start of the threads. *)
Definition process_init : Proc :=
  mkPipeline q_empty q_empty q_empty (mkGwThread true false [])
    (mkEngineThread EnginePop (router_init (Ticker:=Ticker)) [])
    (mkInventoryThread InventoryPop registry_init [])
    (mkPublisherThread PublisherPop [] [])
    (mkMainThread MainWaiting false false false).

Definition step (mv : Move Ticker) s : option Proc :=
  let '(mkPipeline qi qm qt gw en iv pb mn) := s in
  match mv with
  | MvGateway cmd =>
      '(qi, gw) ← gateway_push cmd qi gw; Some (mkPipeline qi qm qt gw en iv pb mn)
  | MvGatewayExit => gw ← gateway_exit gw; Some (mkPipeline qi qm qt gw en iv pb mn)
  | MvEngine =>
      '(qi, qm, qt, en) ← RunMatchingEngineThread msg0 (gatewayFinished mn) qi qm qt en;
      Some (mkPipeline qi qm qt gw en iv pb mn)
  | MvInventory =>
      '(qt, iv) ← RunInventoryThread (matchingEngineFinished mn) (en_router en) qt iv;
      Some (mkPipeline qi qm qt gw en iv pb mn)
  | MvPublisher ok =>
      '(qm, pb) ← PublisherRun (matchingEngineFinished mn) ok qm pb;
      Some (mkPipeline qi qm qt gw en iv pb mn)
  | MvMain =>
      '(mn, stop) ← main_step (gw_exited gw) (engine_ended (en_pc en))
                      (inventory_ended (in_pc iv)) (publisher_ended (pb_pc pb)) mn;
      Some (mkPipeline qi qm qt (if stop : bool then Stop gw else gw) en iv pb mn)
  | MvSignal => Some (mkPipeline qi qm qt gw en iv pb (HandleShutdownSignal mn))
  end.

Fixpoint run (mvs : list (Move Ticker)) s : option Proc :=
  match mvs with
  | [] => Some s
  | mv :: mvs' => s' ← step mv s; run mvs' s'
  end.

(** The states some interleaving leads to. *)
Inductive reachable : Proc → Prop :=
  | reachable_init : reachable process_init
  | reachable_step s mv s' : reachable s → step mv s = Some s' → reachable s'.

Lemma run_reachable mvs s s' : reachable s → run mvs s = Some s' → reachable s'.
Proof.
  revert s. induction mvs as [|mv mvs IH]; intros s Hs; cbn; [congruence|].
  intros (s1 & H1 & H)%bind_Some. eapply IH; [|done]. by eapply reachable_step.
Qed.
End Process.
