(* ===== verification/PipelineInvariant.v ===== *)
(** * Invariants of the process

    The pipeline is the sequential exchange, cut into stages: whatever the
    interleaving, the commands dispatched, the market data and the trades are those
    of executing the commands one after the other, some of them still in a queue or
    in the hands of a thread. *)

From Stdlib Require Import Strings.Byte.
From stdpp Require Import gmap.
From S2P Require Import Prelude Interfaces Double CoreTypes Seqlock FlatMap MatchingEngine Router User Accounting Registry Settlement Bytes Wire Feed Queues Pipeline.

Local Open Scope Z_scope.

(** ** The sequential exchange *)

Section Sequential.
Context {Ticker : Type} `{!TickerType Ticker} {Index : Type} `{!OrderIndexType Index}.
Context (msg0 : list byte).
Implicit Types (acts : list (Action Ticker Index)) (r : MatchingEngineRouter Index).

(** The market data, the trades and the engines a list of actions leads to. *)
Definition md_of acts : list (list byte) :=
  omap (λ a, match a with PushMarketData m => Some m | _ => None end) acts.
Definition tr_of acts : list (Trade Ticker) :=
  omap (λ a, match a with PushTrade tr => Some tr | _ => None end) acts.
Definition router_after r acts : MatchingEngineRouter Index :=
  foldl (λ r a, match a with Publish r' => r' | _ => r end) r acts.

(** The engines, the market data and the trades of all commands so far. *)
Definition SeqState : Type :=
  MatchingEngineRouter Index * list (list byte) * list (Trade Ticker).

Definition seq_step (cmd : InboundCommand Ticker) (st : SeqState) : Outcome SeqState :=
  let '(r, mds, trs) := st in
  acts ← ProcessCommand msg0 cmd r;
  Ok (router_after r acts, mds ++ md_of acts, trs ++ tr_of acts).

Definition seq_run (cmds : list (InboundCommand Ticker)) : Outcome SeqState :=
  foldM seq_step cmds (router_init (Ticker:=Ticker), [], []).

Lemma seq_run_snoc cmds cmd : seq_run (cmds ++ [cmd]) = st ← seq_run cmds; seq_step cmd st.
Proof.
  unfold seq_run. rewrite foldM_app. apply bind_ext. intros st _. cbn. by rewrite bind_ret_r.
Qed.
End Sequential.
Arguments SeqState Ticker Index : clear implicits.

Section Hands.
Context {Ticker Index : Type}.

(** What each thread has in its hands. *)
Definition engine_cmd (pc : EnginePC Ticker Index) : list (InboundCommand Ticker) :=
  match pc with EngineCrashed cmd => [cmd] | _ => [] end.
Definition engine_acts (pc : EnginePC Ticker Index) : list (Action Ticker Index) :=
  match pc with EngineRun acts => acts | _ => [] end.
Definition inventory_hand (pc : InventoryPC Ticker) : list (Trade Ticker) :=
  match pc with InventoryGot tr | InventoryCrashed tr => [tr] | _ => [] end.
Definition publisher_hand (pc : PublisherPC) : list (list byte) :=
  match pc with PublisherGot m => [m] | _ => [] end.
End Hands.

(** ** Tactics for steps *)

(** Takes a successful step apart. *)
Ltac inv_step := repeat match goal with
  | H : _ ≫= _ = Some _ |- _ => apply bind_Some in H; destruct H as (? & ? & H); simpl in H
  | H : Some _ = Some _ |- _ => injection H; clear H; intros; subst
  | H : None = Some _ |- _ => discriminate H
  | x : _ * _ |- _ => destruct x
  | H : context [match q_pop ?q with _ => _ end] |- _ =>
      let E := fresh "Epop" in destruct (q_pop q) as [[? ?]|] eqn:E
  | H : q_push _ _ = Some _ |- _ => apply q_push_Some in H
  | H : q_pop _ = Some _ |- _ => apply q_pop_Some in H
  end.

(** Replaces the contents of a queue that was pushed to or popped from. *)
Ltac queues := repeat match goal with
  | H : q_contents ?q = _ |- context [q_contents ?q] => rewrite H
  | H : q_contents ?q = _, H2 : context [q_contents ?q] |- _ => rewrite H in H2
  end.

(** Reduces the projections of the state. *)
Ltac proj := cbn [inboundQueue marketDataQueue tradeQueue gatewayThread matchingThread
  inventoryThread marketDataThread mainThread en_pc en_router en_processed in_pc in_registry
  in_settled pb_pc pb_published pb_sent gw_running_ gw_exited gw_dispatched mn_pc
  gatewayFinished matchingEngineFinished engine_acts engine_cmd inventory_hand publisher_hand].

(** Compares concatenations. *)
Ltac apps := proj; queues; unfold md_of, tr_of, router_after; rewrite ?fmap_app, ?app_nil_r;
  cbn [omap list_omap foldl fmap list_fmap app]; rewrite <-?(assoc_L (++)), ?app_nil_r;
  cbn [app]; try done.

Section Invariants.
Context {Ticker : Type} `{!TickerType Ticker} {Index : Type} `{!OrderIndexType Index}.
Context {D : Type} `{!DoubleOps D} {Inv : Type} `{!InventoryMap Ticker D Inv}.
Context {Qi Qm Qt : Type} `{!InboundQueue Ticker Qi} `{!MarketDataQueue Qm} `{!TradeQueue Ticker Qt}.
Context {cap : nat} `{!SpscQueueLaws cap (InboundCommand Ticker) Qi}.
Context `{!SpscQueueLaws cap (list byte) Qm} `{!SpscQueueLaws cap (Trade Ticker) Qt}.
Context (msg0 : list byte).
Notation Proc := (Pipeline Ticker Index Inv Qi Qm Qt).
Implicit Types (s : Proc).

(** Every command is processed, in hand, or queued, in the order of dispatch. *)
Definition inbound_inv s : Prop :=
  gw_dispatched (gatewayThread s) =
  en_processed (matchingThread s) ++ engine_cmd (en_pc (matchingThread s)) ++
  q_contents (inboundQueue s).

(** The market data and the trades produced are those of the sequential exchange. *)
Definition output_inv s : Prop :=
  ∃ r mds trs, seq_run msg0 (en_processed (matchingThread s)) = Ok (r, mds, trs) ∧
    let acts := engine_acts (en_pc (matchingThread s)) in
    r = router_after (en_router (matchingThread s)) acts ∧
    mds = pb_published (marketDataThread s) ++ publisher_hand (pb_pc (marketDataThread s)) ++
          q_contents (marketDataQueue s) ++ md_of acts ∧
    trs = (in_settled (inventoryThread s)).*2 ++ inventory_hand (in_pc (inventoryThread s)) ++
          q_contents (tradeQueue s) ++ tr_of acts.

(** The accounts are those of the settled trades. *)
Definition account_inv s : Prop :=
  foldM settle_step (in_settled (inventoryThread s)) registry_init =
    Ok (in_registry (inventoryThread s)).

(** What was sent is part of what was published. *)
Definition sent_inv s : Prop :=
  pb_sent (marketDataThread s) `sublist_of` pb_published (marketDataThread s).

(** Each stage ends only after the stage that feeds it. *)
Record stage_inv s : Prop := {
  stage_flag1 : gatewayFinished (mainThread s) = true → gw_exited (gatewayThread s) = true;
  stage_engine : en_pc (matchingThread s) = EngineDone → gatewayFinished (mainThread s) = true;
  stage_flag2 : matchingEngineFinished (mainThread s) = true →
    en_pc (matchingThread s) = EngineDone;
  stage_inventory : in_pc (inventoryThread s) = InventoryDone →
    matchingEngineFinished (mainThread s) = true;
  stage_publisher : pb_pc (marketDataThread s) = PublisherDone →
    matchingEngineFinished (mainThread s) = true;
  stage_main : match mn_pc (mainThread s) with
    | MainWaiting => True
    | MainJoinGateway => gw_running_ (gatewayThread s) = false
    | MainJoinMatching => gatewayFinished (mainThread s) = true
    | MainJoinInventory => matchingEngineFinished (mainThread s) = true
    | MainJoinMarketData => in_pc (inventoryThread s) = InventoryDone
    | MainDone => in_pc (inventoryThread s) = InventoryDone ∧
                  pb_pc (marketDataThread s) = PublisherDone
    end;
}.

Definition process_inv s : Prop :=
  inbound_inv s ∧ output_inv s ∧ account_inv s ∧ sent_inv s ∧ stage_inv s.

Lemma init_inv : process_inv process_init.
Proof.
  split_and!; [..|done|constructor|by split].
  - unfold inbound_inv. cbn. by rewrite q_contents_empty.
  - exists (router_init (Ticker:=Ticker)), [], []. cbn. by rewrite !q_contents_empty.
Qed.

Lemma step_inbound mv s s' : inbound_inv s → step msg0 mv s = Some s' → inbound_inv s'.
Proof.
  destruct s as [qi qm qt gw en iv pb mn]. unfold inbound_inv. cbn.
  intros HI Hstep. destruct mv; simpl in Hstep.
  - unfold gateway_push in Hstep. destruct (gw_exited gw); inv_step.
    cbn. queues. rewrite HI. by rewrite <-!(assoc_L (++)).
  - unfold gateway_exit in Hstep. destruct (_ || _); by inv_step.
  - unfold RunMatchingEngineThread in Hstep.
    destruct (en_pc en) as [| |[|a acts]| |cmd] eqn:Epc; cbn in *; inv_step; cbn in *; try done.
    + queues. destruct (ProcessCommand _ _ _); inv_step; cbn; by rewrite HI, <-?(assoc_L (++)).
    + by destruct (gatewayFinished mn).
  - unfold RunInventoryThread in Hstep.
    by destruct (in_pc iv); inv_step.
  - unfold PublisherRun in Hstep. by destruct (pb_pc pb); inv_step.
  - destruct (main_step _ _ _ _ mn) as [[mn' stop]|]; inv_step. by destruct stop.
  - by inv_step.
Qed.

Lemma engine_output qi qm qt gw en iv pb mn qi' qm' qt' en' :
  output_inv (mkPipeline qi qm qt gw en iv pb mn) →
  RunMatchingEngineThread msg0 (gatewayFinished mn) qi qm qt en = Some (qi', qm', qt', en') →
  output_inv (mkPipeline qi' qm' qt' gw en' iv pb mn).
Proof.
  intros (r & mds & trs & HR & -> & -> & ->) Hstep. unfold output_inv. revert HR Hstep.
  proj. unfold RunMatchingEngineThread.
  destruct (en_pc en) as [| |[|a acts]| |cmd]; proj; intros HR Hstep; inv_step; proj.
  - destruct (ProcessCommand msg0 i (en_router en)) as [acts| | |] eqn:Ep;
      inv_step; proj; [|by eexists _, _, _..].
    rewrite seq_run_snoc, HR. cbn [mbind Outcome_bind seq_step router_after foldl].
    rewrite Ep. eexists _, _, _. split; [done|]. apps.
  - by eexists _, _, _.
  - eexists _, _, _. split; [exact HR|]. by destruct (gatewayFinished mn).
  - by eexists _, _, _.
  - destruct a; cbn [do_action] in *; inv_step; eexists _, _, _; (split; [exact HR|]); apps.
Qed.

Lemma inventory_output qi qm qt gw en iv pb mn qt' iv' :
  output_inv (mkPipeline qi qm qt gw en iv pb mn) →
  RunInventoryThread (matchingEngineFinished mn) (en_router en) qt iv = Some (qt', iv') →
  output_inv (mkPipeline qi qm qt' gw en iv' pb mn).
Proof.
  intros (r & mds & trs & HR & -> & -> & ->) Hstep. unfold output_inv. revert HR Hstep.
  proj. unfold RunInventoryThread. intros HR Hstep. eexists _, _, _. split; [exact HR|].
  revert Hstep. destruct (in_pc iv) as [| |tr| |tr]; intros Hstep; inv_step; proj; try done.
  - apps.
  - by destruct (matchingEngineFinished mn).
  - destruct (settle_trade _ _ _); inv_step; apps.
Qed.

Lemma publisher_output qi qm qt gw en iv pb mn ok qm' pb' :
  output_inv (mkPipeline qi qm qt gw en iv pb mn) →
  PublisherRun (matchingEngineFinished mn) ok qm pb = Some (qm', pb') →
  output_inv (mkPipeline qi qm' qt gw en iv pb' mn).
Proof.
  intros (r & mds & trs & HR & -> & -> & ->) Hstep. unfold output_inv. revert HR Hstep.
  proj. unfold PublisherRun. intros HR Hstep. eexists _, _, _. split; [exact HR|].
  revert Hstep. destruct (pb_pc pb) as [| |m|]; intros Hstep; inv_step; proj; try done.
  - apps.
  - by destruct (matchingEngineFinished mn).
  - apps.
Qed.

Lemma step_output mv s s' : output_inv s → step msg0 mv s = Some s' → output_inv s'.
Proof.
  destruct s as [qi qm qt gw en iv pb mn]. intros HI Hstep. destruct mv; simpl in Hstep.
  - by inv_step.
  - by inv_step.
  - apply bind_Some in Hstep as ([[[? ?] ?] ?] & E & [= <-]). by eapply engine_output.
  - apply bind_Some in Hstep as ([? ?] & E & [= <-]). by eapply inventory_output.
  - apply bind_Some in Hstep as ([? ?] & E & [= <-]). by eapply publisher_output.
  - by inv_step.
  - by inv_step.
Qed.

Lemma step_account mv s s' : account_inv s → step msg0 mv s = Some s' → account_inv s'.
Proof.
  destruct s as [qi qm qt gw en iv pb mn]. unfold account_inv. proj.
  intros HI Hstep. destruct mv; simpl in Hstep; try by inv_step.
  unfold RunInventoryThread in Hstep.
  destruct (in_pc iv) as [| |tr| |tr]; inv_step; try done.
  destruct (settle_trade (en_router en) tr (in_registry iv)) eqn:E; inv_step; try done.
  proj. rewrite foldM_app, HI. cbn [mbind Outcome_bind foldM]. unfold settle_step at 1.
  cbn [fst snd]. by rewrite E.
Qed.

Lemma step_sent mv s s' : sent_inv s → step msg0 mv s = Some s' → sent_inv s'.
Proof.
  destruct s as [qi qm qt gw en iv pb mn]. unfold sent_inv. proj.
  intros HI Hstep. destruct mv as [| | | |ok| |]; simpl in Hstep; try by inv_step.
  unfold PublisherRun in Hstep. destruct (pb_pc pb); inv_step; try done. proj.
  apply sublist_app; [done|]. destruct ok; [done|]. apply sublist_nil_l.
Qed.

(** The engine's steps: only an empty queue after the gateway's end lets it stop. *)
Lemma engine_pc_done finished qi qm qt en qi' qm' qt' (en' : EngineThread Ticker Index) :
  RunMatchingEngineThread msg0 finished qi qm qt en = Some (qi' : Qi, qm' : Qm, qt' : Qt, en') →
  en_pc en ≠ EngineDone ∧ (en_pc en' = EngineDone → finished = true).
Proof.
  unfold RunMatchingEngineThread.
  destruct (en_pc en) as [| |[|a acts]| |cmd]; intros Hstep; inv_step; try done;
    (split; [done|]); proj; try done.
  - by destruct (ProcessCommand _ _ _); inv_step.
  - by destruct finished.
Qed.

Lemma inventory_pc_done finished r qt iv qt' (iv' : InventoryThread Ticker Index Inv) :
  RunInventoryThread finished r qt iv = Some (qt' : Qt, iv') →
  in_pc iv ≠ InventoryDone ∧ (in_pc iv' = InventoryDone → finished = true).
Proof.
  unfold RunInventoryThread.
  destruct (in_pc iv) as [| |tr| |tr]; intros Hstep; inv_step; try done;
    (split; [done|]); proj; try done.
  - by destruct finished.
  - by destruct (settle_trade _ _ _); inv_step.
Qed.

Lemma publisher_pc_done finished ok qm pb qm' pb' :
  PublisherRun finished ok qm pb = Some (qm' : Qm, pb') →
  pb_pc pb ≠ PublisherDone ∧ (pb_pc pb' = PublisherDone → finished = true).
Proof.
  unfold PublisherRun. destruct (pb_pc pb); intros Hstep; inv_step; try done;
    (split; [done|]); proj; try done. by destruct finished.
Qed.

Lemma step_stage mv s s' : stage_inv s → step msg0 mv s = Some s' → stage_inv s'.
Proof.
  destruct s as [qi qm qt gw en iv pb mn]. intros [S1 S2 S3 S4 S5 S6] Hstep.
  revert S1 S2 S3 S4 S5 S6. proj. intros S1 S2 S3 S4 S5 S6.
  destruct mv as [cmd| | | |ok| |]; simpl in Hstep.
  - unfold gateway_push in Hstep. destruct (gw_exited gw) eqn:E; inv_step. by split.
  - unfold gateway_exit in Hstep.
    destruct (gw_running_ gw) eqn:E, (gw_exited gw); cbn in Hstep; inv_step. by split; proj; auto.
  - apply bind_Some in Hstep as ([[[? ?] ?] en'] & E & [= <-]).
    apply engine_pc_done in E as [E1 E2]. split; proj; try done. naive_solver.
  - apply bind_Some in Hstep as ([? iv'] & E & [= <-]).
    apply inventory_pc_done in E as [E1 E2]. split; proj; try done.
    destruct (mn_pc mn); naive_solver.
  - apply bind_Some in Hstep as ([? pb'] & E & [= <-]).
    apply publisher_pc_done in E as [E1 E2]. split; proj; try done.
    destruct (mn_pc mn); naive_solver.
  - unfold main_step in Hstep. destruct (mn_pc mn) eqn:Epc.
    + destruct (gShutdownRequested mn); cbn in Hstep; inv_step. by split; proj; auto.
    + destruct (gw_exited gw) eqn:E; cbn in Hstep; inv_step. by split; proj; auto.
    + destruct (en_pc en) eqn:E; cbn in Hstep; inv_step. by split; proj; auto.
    + destruct (in_pc iv) eqn:E; cbn in Hstep; inv_step. by split; proj; auto.
    + destruct (pb_pc pb) eqn:E; cbn in Hstep; inv_step. by split; proj; auto.
    + inv_step.
  - inv_step. by split.
Qed.

Theorem process_inv_reachable s : reachable msg0 s → process_inv s.
Proof.
  induction 1 as [|s mv s' _ (I1 & I2 & I3 & I4 & I5) Hstep]; [apply init_inv|].
  split_and!; eauto using step_inbound, step_output, step_account, step_sent, step_stage.
Qed.
End Invariants.
