(* ===== verification/EndToEnd.v ===== *)
(** * From a command to the accounts

    What the matching engine thread produces for well-formed commands is what the
    inventory thread can settle: resting orders belong to participants, so do trades,
    and the volume traded never exceeds the volume ordered. *)

From Stdlib Require Import Strings.Byte.
From S2P Require Import Prelude Interfaces Double CoreTypes Seqlock FlatMap MatchingEngine BookSpec EngineRefinement EngineSpec EngineInvariant EngineIndex Concrete EngineTheorems MidPrice Router User Accounting Registry Settlement Bytes Wire Feed Queues Pipeline PipelineInvariant.

Local Open Scope Z_scope.

(** ** Owners of resting orders *)

Section Owners.
Context {Ticker : Type}.
Implicit Types (o : OrderAdd Ticker) (b : AbstractBook).

Definition owners_ok b : Prop :=
  Forall (λ x : Entry, participant (ro_userId_ x.2)) (ab_bids b ++ ab_asks b).

Lemma owner_of_remainder comp o remaining l (x : Entry) :
  x ∈ rest_remainder comp o remaining l → x ∈ l ∨ ro_userId_ x.2 = oa_userId_ o.
Proof.
  unfold rest_remainder. destruct (0 <? remaining); [|by left].
  intros [->|?]%elem_of_rest_at; [by right|by left].
Qed.

Lemma spec_add_owners o b : owners_ok b → participant (oa_userId_ o) → owners_ok (spec_add o b).
Proof.
  unfold owners_ok. rewrite !Forall_forall. intros Hb Ho x.
  unfold spec_add, spec_match. destruct (oa_side_ o);
    cbn [ab_bids ab_asks opposite_side]; rewrite elem_of_app.
  - intros [[?| ->]%owner_of_remainder|(z & ? & _ & _ & ->)%fill_left_elem];
      [apply Hb, elem_of_app; by left|done|apply Hb, elem_of_app; by right].
  - intros [(z & ? & _ & _ & ->)%fill_left_elem|[?| ->]%owner_of_remainder];
      [apply Hb, elem_of_app; by left|apply Hb, elem_of_app; by right|done].
Qed.

Lemma spec_remove_owners loc id b : owners_ok b → owners_ok (spec_remove loc id b).
Proof.
  unfold owners_ok. rewrite !Forall_forall. intros Hb x.
  unfold spec_remove. destruct (ol_side_ loc); cbn [ab_bids ab_asks]; rewrite elem_of_app;
    intros [Hx|Hx]; apply Hb, elem_of_app; eauto using remove_at_subset.
Qed.

Definition order_volume o : Z := Z.max 0 (value (oa_volume_ o)).

(** The trades of an order are between participants, have positive volumes, and
    together trade no more than was ordered. *)
Lemma spec_trades_ok o b : Forall (λ x, 0 < entry_volume x) (ab_bids b ++ ab_asks b) →
  owners_ok b → participant (oa_userId_ o) →
  Forall trade_ok (spec_trades o b) ∧ sumZ trade_volume (spec_trades o b) ≤ order_volume o.
Proof.
  intros Hv Hb Ho. unfold owners_ok in Hb. rewrite Forall_app in Hv, Hb.
  set (l := opposite_side (oa_side_ o) b).
  assert (Forall (λ x, 0 < entry_volume x) l ∧
    Forall (λ x : Entry, participant (ro_userId_ x.2)) l) as [Hvl Hol].
  { unfold l. destruct (oa_side_ o); cbn; naive_solver. }
  unfold spec_trades. split.
  - apply Forall_forall. intros t (f & -> & Hf)%list_elem_of_fmap.
    destruct (fill_bounds _ _ _ _ Hvl Hf) as (Hin & Hvol & _ & _).
    rewrite Forall_forall in Hol. split_and!; [by apply Hol|done|apply Hvol].
  - rewrite sumZ_trades. unfold spec_match. fold l.
    destruct (fill_conserves (accepts (oa_side_ o) (oa_price_ o)) l (value (oa_volume_ o)))
      as [-> _]. unfold order_volume.
    destruct (Z.leb_spec (value (oa_volume_ o)) 0).
    + rewrite fill_stop by done. cbn. lia.
    + pose proof (fill_remaining_bounds (accepts (oa_side_ o) (oa_price_ o)) l
        (value (oa_volume_ o)) Hvl ltac:(lia)). lia.
Qed.
End Owners.

(** ** One command *)

Section Commands.
Context {Ticker : Type} `{!TickerType Ticker} {Index : Type} `{!OrderIndexType Index}.
Context (msg0 : list byte).
Implicit Types (cmd : InboundCommand Ticker) (r : MatchingEngineRouter Index)
  (e : MatchingEngine Index) (acts : list (Action Ticker Index)).

(** A command with a price within 2^62, which keeps the mid defined, from a participant. *)
Definition cmd_fit cmd : Prop :=
  cmd_ok cmd ∧ match cmd with CmdAdd o => participant (oa_userId_ o) | CmdCancel _ => True end.

#[export] Instance cmd_fit_dec cmd : Decision (cmd_fit cmd).
Proof. unfold cmd_fit. destruct cmd; apply _. Defined.

Definition cmd_volume cmd : Z :=
  match cmd with CmdAdd o => order_volume o | CmdCancel _ => 0 end.

Definition engine_fit e : Prop := engine_good e ∧ owners_ok (abs e).

Definition router_fit r : Prop :=
  router_sized (Ticker:=Ticker) r ∧ Forall engine_fit (engines_ r).

Lemma router_init_fit : router_fit (router_init (Ticker:=Ticker)).
Proof.
  split; [apply router_sized_init|]. apply Forall_replicate.
  split; [split; [apply engine_init_ok|constructor]|constructor].
Qed.

Lemma router_fit_mid r t : router_fit r → mid_readable r t.
Proof.
  intros [Hs Hf]. unfold mid_readable, router_MidPrice. rewrite TickerIndex_listed by done.
  case_bool_decide as Hin; [|done].
  destruct (engine_for_listed r t Hs Hin) as [e He]. unfold engine_at.
  unfold engine_for in He. rewrite He. cbn [mbind Outcome_bind].
  destruct (Forall_lookup_1 _ _ _ _ Hf He) as [[(_ & _ & Hm) _] _].
  by rewrite (MidPrice_settled e Hm).
Qed.

Lemma engine_fit_volumes e : engine_fit e →
  Forall (λ x, 0 < entry_volume x) (ab_bids (abs e) ++ ab_asks (abs e)).
Proof.
  intros [[([Hb Ha] & _) _] _]. apply Forall_app. split; by eapply book_ok_volumes.
Qed.

(** The handler of the matching engine thread. *)
Definition push_trade (trade : Trade Ticker) acts : Outcome (list (Action Ticker Index)) :=
  Ok (acts ++ [PushMarketData (EncodeTradeEvent msg0 trade); PushTrade trade]).

Definition trade_acts (trades : list (Trade Ticker)) : list (Action Ticker Index) :=
  trades ≫= λ trade, [PushMarketData (EncodeTradeEvent msg0 trade); PushTrade trade].

Lemma foldM_push_trade trades acts : foldM push_trade trades acts = Ok (acts ++ trade_acts trades).
Proof.
  revert acts. induction trades as [|t ts IH]; intros acts; cbn [foldM].
  - by rewrite app_nil_r.
  - transitivity (foldM push_trade ts (acts ++
      [PushMarketData (EncodeTradeEvent msg0 t); PushTrade t])); [done|].
    rewrite IH. unfold trade_acts. by rewrite bind_cons, <-(assoc_L (++)).
Qed.

Lemma tr_of_trade_acts trades : tr_of (trade_acts trades) = trades.
Proof.
  induction trades as [|t ts IH]; [done|].
  transitivity (t :: tr_of (trade_acts ts)); [done|by rewrite IH].
Qed.

Lemma md_of_trade_acts trs : md_of (trade_acts trs) =
  encode_event msg0 <$> (EvTrade <$> trs).
Proof.
  induction trs as [|t ts IH]; [done|].
  transitivity (EncodeTradeEvent msg0 t :: md_of (trade_acts ts));
    [done|]. by rewrite IH.
Qed.

Definition acts_fit acts : Prop :=
  Forall (λ a, match a with Publish r => router_fit r | _ => True end) acts.

Lemma acts_fit_trades trades : acts_fit (trade_acts trades).
Proof.
  unfold acts_fit, trade_acts. induction trades as [|t ts IH]; [constructor|].
  rewrite bind_cons. apply Forall_app. split; [|done].
  apply Forall_cons. split; [done|by apply Forall_singleton].
Qed.

(** A trade of an instrument of the exchange. *)
Definition listed (tr : Trade Ticker) : Prop := tr_ticker_ tr ∈ (INSTRUMENTS : list Ticker).

(** What [ProcessCommand] promises. *)
Definition process_ok cmd r acts : Prop :=
  router_fit (router_after r acts) ∧ acts_fit acts ∧
  Forall trade_ok (tr_of acts) ∧ sumZ trade_volume (tr_of acts) ≤ cmd_volume cmd ∧
  Forall listed (tr_of acts).

Lemma add_acts_ok o r r' trades : router_fit r' → Forall trade_ok trades →
  sumZ trade_volume trades ≤ order_volume o → Forall listed trades →
  process_ok (CmdAdd o) r
    (([PushMarketData (EncodeOrderAddEvent msg0 o)] ++ trade_acts trades) ++ [Publish r']).
Proof.
  intros Hr Ht Hv Hl. unfold process_ok.
  assert (tr_of (([PushMarketData (EncodeOrderAddEvent msg0 o)] ++ trade_acts trades) ++
    [Publish r']) = trades) as ->.
  { unfold tr_of. rewrite !omap_app. fold (tr_of (trade_acts trades)).
    rewrite tr_of_trade_acts. cbn. by rewrite app_nil_r. }
  split_and!; [|apply Forall_app; split; [apply Forall_app; split|]|done..].
  - unfold router_after. by rewrite foldl_app.
  - by apply Forall_singleton.
  - apply acts_fit_trades.
  - by apply Forall_singleton.
Qed.

Lemma router_fit_insert r t e : router_fit r → engine_fit e →
  router_fit (mkRouter (<[TickerIndex t := e]> (engines_ r))).
Proof.
  intros [Hs Hf] He. split; [by apply router_sized_insert|by apply Forall_insert].
Qed.

Lemma ProcessCommand_add o r : router_fit r → cmd_fit (CmdAdd o) →
  ∃ acts, ProcessCommand msg0 (CmdAdd o) r = Ok acts ∧ process_ok (CmdAdd o) r acts.
Proof.
  intros Hr [[Ho Hp] Hu]. cbn [ProcessCommand].
  change (λ trade acts, Ok (acts ++ [PushMarketData (EncodeTradeEvent msg0 trade); PushTrade trade]))
    with push_trade.
  destruct (decide (oa_ticker_ o ∈ (INSTRUMENTS : list Ticker))) as [Hin|Hno]; cycle 1.
  { unfold router_OnOrderAdd. rewrite TickerIndex_listed by apply Hr.
    rewrite bool_decide_eq_false_2 by done. eexists. split; [done|].
    apply (add_acts_ok o r r []); [done|constructor|cbn; unfold order_volume; lia|constructor]. }
  destruct (engine_for_listed r _ (proj1 Hr) Hin) as [e He].
  rewrite (router_OnOrderAdd_listed push_trade o r _ e He).
  pose proof (Forall_lookup_1 _ _ _ _ (proj2 Hr) He) as [[Hok Hs] Hown].
  destruct (OnOrderAdd_ok push_trade o e Hok Hs Ho Hp) as (e' & Hok' & Hs' & Ha & _ & HR).
  rewrite HR, foldM_push_trade. eexists. split; [done|].
  destruct (spec_trades_ok o (abs e)) as [Ht Hv]; [by apply engine_fit_volumes|done..|].
  apply add_acts_ok; [|done..|by apply Forall_fmap, Forall_forall]. apply router_fit_insert; [done|].
  split; [done|]. rewrite Ha. by apply spec_add_owners.
Qed.

Lemma ProcessCommand_cancel c r : router_fit r →
  ∃ acts, ProcessCommand msg0 (CmdCancel c) r = Ok acts ∧ process_ok (CmdCancel c) r acts.
Proof.
  intros Hr. cbn [ProcessCommand].
  assert (∃ r', router_OnOrderCancel c r = Ok r' ∧ router_fit r') as (r' & -> & Hr').
  { destruct (decide (oc_ticker_ c ∈ (INSTRUMENTS : list Ticker))) as [Hin|Hno]; cycle 1.
    { unfold router_OnOrderCancel. rewrite TickerIndex_listed by apply Hr.
      rewrite bool_decide_eq_false_2 by done. eauto. }
    destruct (engine_for_listed r _ (proj1 Hr) Hin) as [e He].
    rewrite (router_OnOrderCancel_listed c r e He).
    destruct (Forall_lookup_1 _ _ _ _ (proj2 Hr) He) as [[Hok Hs] Hown].
    destruct (OnOrderCancel_ok c e Hok Hs) as (e' & -> & Hok' & Hs' & Hc).
    eexists. split; [done|]. apply router_fit_insert; [done|]. split; [done|].
    destruct Hc as [->|(loc & _ & _ & -> & _)]; [done|by apply spec_remove_owners]. }
  eexists. split; [done|]. split_and!; [done| |constructor|done|constructor].
  apply Forall_cons. split; [done|by apply Forall_singleton].
Qed.

Lemma ProcessCommand_fit cmd r : router_fit r → cmd_fit cmd →
  ∃ acts, ProcessCommand msg0 cmd r = Ok acts ∧ process_ok cmd r acts.
Proof. destruct cmd; eauto using ProcessCommand_add, ProcessCommand_cancel. Qed.

(** ** A run of commands *)

Lemma seq_run_fit cmds : Forall cmd_fit cmds →
  ∃ r mds trs, seq_run msg0 cmds = Ok (r, mds, trs) ∧ router_fit r ∧
    Forall trade_ok trs ∧ sumZ trade_volume trs ≤ sumZ cmd_volume cmds ∧ Forall listed trs.
Proof.
  induction cmds as [|cmd cmds IH] using rev_ind.
  { intros _. exists (router_init (Ticker:=Ticker)), [], [].
    split_and!; [done|apply router_init_fit..|constructor|done|constructor]. }
  rewrite Forall_app, Forall_singleton. intros [Hc Hcmd].
  destruct (IH Hc) as (r & mds & trs & HR & Hr & Ht & Hv & Hl).
  destruct (ProcessCommand_fit cmd r Hr Hcmd) as (acts & HP & Hr' & _ & Ht' & Hv' & Hl').
  rewrite seq_run_snoc, HR. cbn [mbind Outcome_bind seq_step]. rewrite HP.
  eexists _, _, _. split; [done|]. split; [done|]. split; [by apply Forall_app|].
  split; [|by apply Forall_app]. rewrite !sumZ_app. cbn. lia.
Qed.
End Commands.

(** ** The threads *)

Section Process.
Context {Ticker : Type} `{!TickerType Ticker} {Index : Type} `{!OrderIndexType Index}.
Context {D : Type} `{!DoubleOps D} {Inv : Type} `{!InventoryMap Ticker D Inv} `{!InventoryLaws Ticker D Inv}.
Context {Qi Qm Qt : Type} `{!InboundQueue Ticker Qi} `{!MarketDataQueue Qm} `{!TradeQueue Ticker Qt}.
Context {cap : nat} `{!SpscQueueLaws cap (InboundCommand Ticker) Qi}.
Context `{!SpscQueueLaws cap (list byte) Qm} `{!SpscQueueLaws cap (Trade Ticker) Qt}.
Context (msg0 : list byte).
Notation Proc := (Pipeline Ticker Index Inv Qi Qm Qt).
Implicit Types (s : Proc).

(** What clients must respect for the exchange to keep running: every command is fit,
    and the volume ordered in total is a 64-bit value. *)
Definition input_fit (cmds : list (InboundCommand Ticker)) : Prop :=
  Forall cmd_fit cmds ∧ sumZ cmd_volume cmds ≤ i64_max.

#[export] Instance input_fit_dec cmds : Decision (input_fit cmds).
Proof. unfold input_fit. apply _. Defined.

(** No thread has crashed, and every state of the engines that a thread can see or
    has seen is fit. *)
Definition running_inv s : Prop :=
  router_fit (Ticker:=Ticker) (en_router (matchingThread s)) ∧
  acts_fit (engine_acts (en_pc (matchingThread s))) ∧
  Forall (λ x, router_fit (Ticker:=Ticker) x.1) (in_settled (inventoryThread s)) ∧
  engine_cmd (en_pc (matchingThread s)) = [] ∧
  (∀ tr, in_pc (inventoryThread s) ≠ InventoryCrashed tr).

Lemma input_fit_app cmds1 cmds2 : input_fit (cmds1 ++ cmds2) → input_fit cmds1.
Proof.
  unfold input_fit. rewrite Forall_app, sumZ_app. intros [[H1 H2] Hv]. split; [done|].
  assert (0 ≤ sumZ cmd_volume cmds2); [|lia]. apply sumZ_nonneg.
  eapply Forall_impl; [exact H2|]. intros [o|c] _; cbn; unfold order_volume; lia.
Qed.

Lemma trades_prefix_ok (trs1 trs2 : list (Trade Ticker)) n : Forall trade_ok (trs1 ++ trs2) →
  sumZ trade_volume (trs1 ++ trs2) ≤ n → Forall trade_ok trs1 ∧ sumZ trade_volume trs1 ≤ n.
Proof.
  rewrite Forall_app, sumZ_app. intros [H1 H2] Hv. split; [done|].
  assert (0 ≤ sumZ trade_volume trs2); [|lia]. apply sumZ_nonneg.
  eapply Forall_impl; [exact H2|]. intros t (_ & _ & ?). unfold trade_volume. lia.
Qed.

(** Trades that were matched can be settled. *)
Lemma settlements_fit (ss : list (MatchingEngineRouter Index * Trade Ticker)) :
  Forall (λ x, router_fit (Ticker:=Ticker) x.1) ss → Forall trade_ok ss.*2 →
  sumZ trade_volume ss.*2 ≤ i64_max → settlements_ok ss.
Proof.
  intros Hr Ht Hv. split.
  - apply Forall_forall. intros x Hx. rewrite Forall_forall in Hr. rewrite Forall_fmap in Ht.
    rewrite Forall_forall in Ht. split; [by apply Ht|by apply router_fit_mid, Hr].
  - assert (sumZ step_volume ss = sumZ trade_volume ss.*2) as ->; [|done].
    clear. induction ss as [|x ss IH]; [done|]. rewrite fmap_cons, !sumZ_cons. by rewrite IH.
Qed.

Lemma settle_next s tr : process_inv msg0 s → input_fit (en_processed (matchingThread s)) →
  running_inv s → in_pc (inventoryThread s) = InventoryGot tr →
  ∃ reg, settle_trade (en_router (matchingThread s)) tr (in_registry (inventoryThread s)) = Ok reg.
Proof.
  intros (_ & (r & mds & trs & HR & _ & _ & Ht) & Ha & _) [Hin Hvol] (Hr & _ & Hseen & _) Epc.
  destruct (seq_run_fit msg0 _ Hin) as (r1 & m1 & t1 & HR1 & _ & Htok & Htv & _).
  assert (t1 = trs) as -> by congruence. rewrite Epc in Ht. cbn [inventory_hand] in Ht.
  rewrite (assoc_L (++)) in Ht. subst trs.
  destruct (trades_prefix_ok _ _ i64_max Htok) as [Hok Hv]; [lia|].
  set (ss := in_settled (inventoryThread s) ++ [(en_router (matchingThread s), tr)]).
  assert (settlements_ok ss) as Hss.
  { apply settlements_fit; [by apply Forall_app; split; [|by apply Forall_singleton]|..];
      unfold ss; by rewrite fmap_app. }
  destruct (settlement_run (Inv:=Inv) ss Hss) as (reg & Hrun & _).
  unfold ss in Hrun. rewrite foldM_app, Ha in Hrun. cbn [mbind Outcome_bind foldM] in Hrun.
  apply bind_Ok in Hrun as (reg' & H & _). eauto.
Qed.

Lemma dispatched_grows mv s s' : step msg0 mv s = Some s' →
  ∃ more, gw_dispatched (gatewayThread s') = gw_dispatched (gatewayThread s) ++ more.
Proof.
  destruct s as [qi qm qt gw en iv pb mn]. intros Hstep.
  destruct mv as [cmd| | | |ok| |]; simpl in Hstep;
    [exists [cmd]|exists []; rewrite app_nil_r..].
  - unfold gateway_push in Hstep. destruct (gw_exited gw); inv_step. by proj.
  - unfold gateway_exit in Hstep. destruct (_ || _); inv_step. by proj.
  - by inv_step.
  - by inv_step.
  - by inv_step.
  - apply bind_Some in Hstep as ([mn' stop] & _ & [= <-]). by destruct stop.
  - by inv_step.
Qed.

Lemma engine_running qi qm qt gw en iv pb mn qi' qm' qt' en' :
  let s := mkPipeline qi qm qt gw en iv pb mn in
  process_inv msg0 s → running_inv s → input_fit (gw_dispatched gw) →
  RunMatchingEngineThread msg0 (gatewayFinished mn) qi qm qt en = Some (qi', qm', qt', en') →
  running_inv (mkPipeline qi' qm' qt' gw en' iv pb mn).
Proof.
  intros s (Hin & (r & mds & trs & HR & Hr & _ & _) & _) (Hfit & Hacts & Hseen & Hcmd & Hic) [Hall _].
  revert Hin HR Hr Hfit Hacts Hseen Hcmd Hic. unfold inbound_inv, running_inv, s. proj.
  unfold RunMatchingEngineThread.
  destruct (en_pc en) as [| |[|a acts]| |cmd]; proj; intros Hin HR Hr Hfit Hacts Hseen Hcmd Hic Hstep;
    inv_step; try done.
  - queues. rewrite Hin, !Forall_app, Forall_cons in Hall. destruct Hall as (_ & _ & Hc & _).
    destruct (ProcessCommand_fit msg0 _ _ Hfit Hc) as (acts & HP & _ & Hact & _).
    rewrite HP in Hstep. inv_step. by proj.
  - proj. by destruct (gatewayFinished mn).
  - apply Forall_cons in Hacts as [Ha Hacts].
    destruct a; cbn [do_action] in *; inv_step; by proj.
Qed.

Lemma inventory_running qi qm qt gw en iv pb mn qt' iv' :
  let s := mkPipeline qi qm qt gw en iv pb mn in
  process_inv msg0 s → running_inv s → input_fit (gw_dispatched gw) →
  RunInventoryThread (matchingEngineFinished mn) (en_router en) qt iv = Some (qt', iv') →
  running_inv (mkPipeline qi qm qt' gw en iv' pb mn).
Proof.
  intros s HI Hrun Hin Hstep.
  assert (input_fit (en_processed en)) as Hp.
  { destruct HI as (E & _). unfold inbound_inv, s in E. revert E. proj. intros E.
    rewrite E in Hin. by apply input_fit_app in Hin. }
  pose proof (settle_next s) as Hsettle. pose proof Hrun as (Hfit & Hacts & Hseen & Hcmd & Hic).
  revert Hsettle Hfit Hacts Hseen Hcmd Hic Hstep. unfold running_inv, s. proj.
  unfold RunInventoryThread.
  destruct (in_pc iv) as [| |tr| |tr]; intros Hsettle Hfit Hacts Hseen Hcmd Hic Hstep; inv_step;
    proj; try done.
  - by destruct (matchingEngineFinished mn).
  - destruct (Hsettle tr HI Hp) as [reg Hreg]; [by split_and!|done|]. rewrite Hreg in Hstep. inv_step.
    proj. split_and!; try done. apply Forall_app. split; [done|by apply Forall_singleton].
Qed.

Lemma running_inv_reachable s : reachable msg0 s → input_fit (gw_dispatched (gatewayThread s)) →
  running_inv s.
Proof.
  induction 1 as [|s mv s' Hr IH Hstep]; intros Hfit.
  { split_and!; [apply router_init_fit..|constructor|constructor|done|done]. }
  pose proof (process_inv_reachable msg0 s Hr) as HI.
  destruct (dispatched_grows mv s s' Hstep) as [more Hmore]. rewrite Hmore in Hfit.
  apply input_fit_app in Hfit. specialize (IH Hfit). clear Hmore more.
  destruct s as [qi qm qt gw en iv pb mn]. destruct mv; simpl in Hstep.
  - by inv_step.
  - by inv_step.
  - apply bind_Some in Hstep as ([[[? ?] ?] ?] & E & [= <-]). by eapply engine_running.
  - apply bind_Some in Hstep as ([? ?] & E & [= <-]). by eapply inventory_running.
  - by inv_step.
  - by inv_step.
  - by inv_step.
Qed.

(** The trades settled so far, and that the accounts are their result. *)
Lemma settled_ok s : reachable msg0 s → input_fit (gw_dispatched (gatewayThread s)) →
  settlements_ok (in_settled (inventoryThread s)) ∧
  foldM settle_step (in_settled (inventoryThread s)) registry_init =
    Ok (in_registry (inventoryThread s)).
Proof.
  intros Hr Hin. pose proof (running_inv_reachable s Hr Hin) as (_ & _ & Hseen & _).
  destruct (process_inv_reachable msg0 s Hr) as (E & (r & mds & trs & HR & _ & _ & Ht) & Ha & _).
  split; [|done]. unfold inbound_inv in E. rewrite E in Hin. apply input_fit_app in Hin.
  destruct Hin as [Hall Hvol].
  destruct (seq_run_fit msg0 _ Hall) as (r1 & m1 & t1 & HR1 & _ & Htok & Htv & _).
  assert (t1 = trs) as -> by congruence. subst trs.
  destruct (trades_prefix_ok _ _ i64_max Htok) as [Hok Hv]; [lia|]. by apply settlements_fit.
Qed.

(** Only instruments of the exchange are traded. *)
Lemma settled_listed s : reachable msg0 s → input_fit (gw_dispatched (gatewayThread s)) →
  Forall (λ x, listed x.2) (in_settled (inventoryThread s)).
Proof.
  intros Hr Hin. destruct (process_inv_reachable msg0 s Hr) as (E & (r & mds & trs & HR & _ & _ & Ht) & _).
  unfold inbound_inv in E. rewrite E in Hin. apply input_fit_app in Hin as [Hall _].
  destruct (seq_run_fit msg0 _ Hall) as (r1 & m1 & t1 & HR1 & _ & _ & _ & Hl).
  assert (t1 = trs) as -> by congruence. subst trs. apply Forall_app in Hl as [Hl _].
  by rewrite Forall_fmap in Hl.
Qed.
End Process.
