(* ===== verification/PipelineTheorems.v ===== *)
(** * What the running exchange guarantees

    The theorems about the process of Pipeline.v: it computes what the sequential
    exchange computes, its stages stop in order, it never blocks itself, and what
    its shutdown does and does not guarantee. *)

From Stdlib Require Import Strings.Byte.
From stdpp Require Import gmap.
From S2P Require Import Prelude Interfaces Double CoreTypes Seqlock FlatMap MatchingEngine BookSpec EngineRefinement EngineSpec EngineInvariant EngineIndex Concrete EngineTheorems MidPrice Router User Accounting Registry Settlement Bytes Wire Feed Queues Pipeline PipelineInvariant EndToEnd.

Local Open Scope Z_scope.

(** The process of the examples: exact queues, floating-point accounts. *)
Notation CInv := (gmap CTicker (Holding binary64)).
Notation CProc := (Pipeline CTicker CIndex CInv (fifo QUEUE_CAPACITY (InboundCommand CTicker))
  (fifo QUEUE_CAPACITY (list byte)) (fifo QUEUE_CAPACITY (Trade CTicker))).

Definition zeros : list byte := replicate 66 x00.

(** C2: The pipeline is the sequential exchange.  In every reachable state of the five
    threads, under any interleaving: the commands dispatched by the gateway are, in
    order, those executed, the one in the engine's hands and those queued; executing
    the executed ones one after the other gives exactly the market data published, in
    hand, queued and about to be pushed, and exactly the trades settled, in hand,
    queued and about to be pushed; the accounts are the result of settling the settled
    trades in order; nothing is lost, duplicated or reordered, and only messages that
    were published are sent. *)
Theorem pipeline_is_sequential {Ticker Index D Inv Qi Qm Qt} `{!TickerType Ticker}
    `{!OrderIndexType Index} `{!DoubleOps D} `{!InventoryMap Ticker D Inv}
    `{!InboundQueue Ticker Qi} `{!MarketDataQueue Qm} `{!TradeQueue Ticker Qt} {cap : nat}
    `{!SpscQueueLaws cap (InboundCommand Ticker) Qi} `{!SpscQueueLaws cap (list byte) Qm}
    `{!SpscQueueLaws cap (Trade Ticker) Qt} (msg0 : list byte)
    (s : Pipeline Ticker Index Inv Qi Qm Qt) :
  reachable msg0 s →
  gw_dispatched (gatewayThread s) =
    en_processed (matchingThread s) ++ engine_cmd (en_pc (matchingThread s)) ++
    q_contents (inboundQueue s) ∧
  (∃ r mds trs, seq_run msg0 (en_processed (matchingThread s)) = Ok (r, mds, trs) ∧
    mds = pb_published (marketDataThread s) ++ publisher_hand (pb_pc (marketDataThread s)) ++
          q_contents (marketDataQueue s) ++ md_of (engine_acts (en_pc (matchingThread s))) ∧
    trs = (in_settled (inventoryThread s)).*2 ++ inventory_hand (in_pc (inventoryThread s)) ++
          q_contents (tradeQueue s) ++ tr_of (engine_acts (en_pc (matchingThread s)))) ∧
  foldM settle_step (in_settled (inventoryThread s)) registry_init =
    Ok (in_registry (inventoryThread s)) ∧
  pb_sent (marketDataThread s) `sublist_of` pb_published (marketDataThread s).
Proof.
  intros (I1 & (r & mds & trs & HR & _ & Hm & Ht) & I3 & I4 & _)%process_inv_reachable.
  split_and!; [done| |done|done]. by exists r, mds, trs.
Qed.

(** A run: one order rests, another trades with it, the trade is settled. *)
Definition sample_moves : list (Move CTicker) :=
  [MvGateway (CmdAdd (add 1 1 AAPL Sell 100 10)); MvGateway (CmdAdd (add 2 2 AAPL Buy 100 4));
   MvEngine; MvEngine; MvPublisher true; MvEngine; MvEngine; MvEngine; MvEngine; MvEngine;
   MvEngine; MvInventory; MvPublisher true; MvInventory; MvEngine].

Definition after_moves (mvs : list (Move CTicker)) : CProc :=
  default process_init (run zeros mvs process_init).

Lemma after_moves_reachable mvs : is_Some (run zeros mvs (process_init : CProc)) →
  reachable zeros (after_moves mvs).
Proof.
  intros [s Hs]. unfold after_moves. rewrite Hs.
  eapply run_reachable; [apply reachable_init|done].
Qed.

Lemma sample_moves_reachable : reachable zeros (after_moves sample_moves).
Proof.
  apply after_moves_reachable.
  destruct (run zeros sample_moves process_init) eqn:E; [eauto|].
  exfalso. apply (f_equal (λ o, match o with Some _ => true | None => false end)) in E.
  vm_compute in E. discriminate E.
Qed.

Lemma pipeline_is_sequential_witness :
  let s := after_moves sample_moves in
  gw_dispatched (gatewayThread s) =
    en_processed (matchingThread s) ++ engine_cmd (en_pc (matchingThread s)) ++
    q_contents (inboundQueue s) ∧
  (∃ r mds trs, seq_run zeros (en_processed (matchingThread s)) = Ok (r, mds, trs) ∧
    mds = pb_published (marketDataThread s) ++ publisher_hand (pb_pc (marketDataThread s)) ++
          q_contents (marketDataQueue s) ++ md_of (engine_acts (en_pc (matchingThread s))) ∧
    trs = (in_settled (inventoryThread s)).*2 ++ inventory_hand (in_pc (inventoryThread s)) ++
          q_contents (tradeQueue s) ++ tr_of (engine_acts (en_pc (matchingThread s)))) ∧
  foldM settle_step (in_settled (inventoryThread s)) registry_init =
    Ok (in_registry (inventoryThread s)) ∧
  pb_sent (marketDataThread s) `sublist_of` pb_published (marketDataThread s).
Proof.
  intros s. exact (pipeline_is_sequential (cap:=QUEUE_CAPACITY) zeros s sample_moves_reachable).
Defined.

(** The stages stop in order.  In every reachable state: the matching engine has
    ended only if the gateway has, the inventory and the publisher have ended only if
    the matching engine has, and main is done only when all four have.  So a queue is
    never without its consumer while its producer still runs. *)
Theorem stages_stop_in_order {Ticker Index D Inv Qi Qm Qt} `{!TickerType Ticker}
    `{!OrderIndexType Index} `{!DoubleOps D} `{!InventoryMap Ticker D Inv}
    `{!InboundQueue Ticker Qi} `{!MarketDataQueue Qm} `{!TradeQueue Ticker Qt} {cap : nat}
    `{!SpscQueueLaws cap (InboundCommand Ticker) Qi} `{!SpscQueueLaws cap (list byte) Qm}
    `{!SpscQueueLaws cap (Trade Ticker) Qt} (msg0 : list byte)
    (s : Pipeline Ticker Index Inv Qi Qm Qt) :
  reachable msg0 s →
  (en_pc (matchingThread s) = EngineDone → gw_exited (gatewayThread s) = true) ∧
  (in_pc (inventoryThread s) = InventoryDone ∨ pb_pc (marketDataThread s) = PublisherDone →
    en_pc (matchingThread s) = EngineDone) ∧
  (mn_pc (mainThread s) = MainDone → gw_exited (gatewayThread s) = true ∧
    en_pc (matchingThread s) = EngineDone ∧ in_pc (inventoryThread s) = InventoryDone ∧
    pb_pc (marketDataThread s) = PublisherDone).
Proof.
  intros (_ & _ & _ & _ & [S1 S2 S3 S4 S5 S6])%process_inv_reachable.
  split_and!; [auto|intros [H|H]; auto|]. intros Hd. rewrite Hd in S6. destruct S6.
  split_and!; auto.
Qed.

(** A complete shutdown with one order in flight. *)
Definition drain_moves : list (Move CTicker) :=
  [MvGateway (CmdAdd (add 1 1 AAPL Sell 100 10)); MvSignal; MvMain; MvGatewayExit; MvMain;
   MvEngine; MvEngine; MvEngine; MvEngine; MvEngine; MvEngine; MvMain;
   MvInventory; MvInventory; MvPublisher true; MvPublisher true; MvPublisher true;
   MvPublisher true; MvMain; MvMain].

(** The same, with the order arriving between the engine's pop and its look at the
    flag. *)
Definition race_moves : list (Move CTicker) :=
  [MvSignal; MvMain; MvEngine; MvGateway (CmdAdd (add 1 1 AAPL Sell 100 10)); MvGatewayExit;
   MvMain; MvEngine; MvMain; MvInventory; MvInventory; MvPublisher true; MvPublisher true;
   MvMain; MvMain].

(** What the examples look at: where main is, and how much is left in the queues. *)
Definition summary (s : CProc) : MainPC * nat * nat * nat :=
  (mn_pc (mainThread s), length (fifo_list (inboundQueue s)),
   length (fifo_list (marketDataQueue s)), length (fifo_list (tradeQueue s))).

Lemma run_summary mvs x : summary <$> run zeros mvs (process_init : CProc) = Some x →
  reachable zeros (after_moves mvs) ∧ summary (after_moves mvs) = x.
Proof.
  intros (s & Hs & ->)%fmap_Some. split; [by apply after_moves_reachable; eauto|].
  unfold after_moves. by rewrite Hs.
Qed.

Lemma drained : reachable zeros (after_moves drain_moves) ∧
  summary (after_moves drain_moves) = (MainDone, 0, 0, 0)%nat.
Proof. apply run_summary. vm_compute. reflexivity. Qed.

Lemma stages_stop_in_order_witness :
  let s := after_moves drain_moves in
  (en_pc (matchingThread s) = EngineDone → gw_exited (gatewayThread s) = true) ∧
  (in_pc (inventoryThread s) = InventoryDone ∨ pb_pc (marketDataThread s) = PublisherDone →
    en_pc (matchingThread s) = EngineDone) ∧
  (mn_pc (mainThread s) = MainDone → gw_exited (gatewayThread s) = true ∧
    en_pc (matchingThread s) = EngineDone ∧ in_pc (inventoryThread s) = InventoryDone ∧
    pb_pc (marketDataThread s) = PublisherDone).
Proof.
  intros s. exact (stages_stop_in_order (cap:=QUEUE_CAPACITY) zeros s (proj1 drained)).
Defined.

(** A shutdown that leaves no queue behind is complete: when main is done and the
    queues are empty, every command the gateway dispatched was executed, all market
    data of executing them was published and all their trades were settled, in
    order. *)
Theorem clean_shutdown_is_complete {Ticker Index D Inv Qi Qm Qt} `{!TickerType Ticker}
    `{!OrderIndexType Index} `{!DoubleOps D} `{!InventoryMap Ticker D Inv}
    `{!InboundQueue Ticker Qi} `{!MarketDataQueue Qm} `{!TradeQueue Ticker Qt} {cap : nat}
    `{!SpscQueueLaws cap (InboundCommand Ticker) Qi} `{!SpscQueueLaws cap (list byte) Qm}
    `{!SpscQueueLaws cap (Trade Ticker) Qt} (msg0 : list byte)
    (s : Pipeline Ticker Index Inv Qi Qm Qt) :
  reachable msg0 s → mn_pc (mainThread s) = MainDone →
  q_contents (inboundQueue s) = [] → q_contents (marketDataQueue s) = [] →
  q_contents (tradeQueue s) = [] →
  ∃ r, seq_run msg0 (gw_dispatched (gatewayThread s)) =
      Ok (r, pb_published (marketDataThread s), (in_settled (inventoryThread s)).*2) ∧
    foldM settle_step (in_settled (inventoryThread s)) registry_init =
      Ok (in_registry (inventoryThread s)).
Proof.
  intros (I1 & (r & mds & trs & HR & _ & Hm & Ht) & I3 & _ & [S1 S2 S3 S4 S5 S6])%process_inv_reachable
    Hd Q1 Q2 Q3.
  rewrite Hd in S6. destruct S6 as [Hi Hp]. pose proof (S3 (S4 Hi)) as He.
  unfold inbound_inv in I1. rewrite He, Q1 in I1. cbn in I1. rewrite app_nil_r in I1.
  rewrite He, Hi, Q3 in Ht. rewrite He, Hp, Q2 in Hm. cbn in Hm, Ht. rewrite app_nil_r in Hm, Ht.
  exists r. by rewrite I1, HR, Hm, Ht.
Qed.

Lemma clean_shutdown_is_complete_witness :
  let s := after_moves drain_moves in
  ∃ r, seq_run zeros (gw_dispatched (gatewayThread s)) =
      Ok (r, pb_published (marketDataThread s), (in_settled (inventoryThread s)).*2) ∧
    foldM settle_step (in_settled (inventoryThread s)) registry_init =
      Ok (in_registry (inventoryThread s)).
Proof.
  intros s. destruct drained as [Hr Hs].
  apply (clean_shutdown_is_complete (cap:=QUEUE_CAPACITY) zeros s Hr);
    [exact (f_equal (λ x, x.1.1.1) Hs)|apply nil_length_inv..].
  - exact (f_equal (λ x, x.1.1.2) Hs).
  - exact (f_equal (λ x, x.1.2) Hs).
  - exact (f_equal (λ x, x.2) Hs).
Defined.

(** The same race one stage later: the inventory thread and the publisher find their
    queues empty, a trade is matched, and they look at the flag once the engine is done. *)
Definition late_race_moves : list (Move CTicker) :=
  [MvInventory; MvPublisher true] ++
  [MvGateway (CmdAdd (add 1 1 AAPL Sell 100 10)); MvGateway (CmdAdd (add 2 2 AAPL Buy 100 4))] ++
  replicate 13 MvEngine ++ [MvSignal; MvMain; MvGatewayExit; MvMain; MvEngine; MvMain] ++
  [MvInventory; MvPublisher true; MvMain; MvMain].

(** C37: A shutdown can drop work at every stage.  There is an interleaving in which the
    gateway has dispatched an order, every thread has ended and main is done, and the order
    is still in the inbound queue: the engine found the queue empty before the order was
    pushed and looked at the flag after the gateway had finished.  In another one the
    engine has processed both orders it was given, but the trade between them is still in
    the trade queue, so no account shows it, and all three market data events are still in
    theirs, so nobody was told. *)
Theorem shutdown_can_drop_work :
  (reachable zeros (after_moves race_moves) ∧
   mn_pc (mainThread (after_moves race_moves)) = MainDone ∧
   gw_dispatched (gatewayThread (after_moves race_moves)) =
     [CmdAdd (add 1 1 AAPL Sell 100 10)] ∧
   q_contents (inboundQueue (after_moves race_moves)) = [CmdAdd (add 1 1 AAPL Sell 100 10)] ∧
   en_processed (matchingThread (after_moves race_moves)) = []) ∧
  (reachable zeros (after_moves late_race_moves) ∧
   mn_pc (mainThread (after_moves late_race_moves)) = MainDone ∧
   en_processed (matchingThread (after_moves late_race_moves)) =
     gw_dispatched (gatewayThread (after_moves late_race_moves)) ∧
   tr_volume_ <$> q_contents (tradeQueue (after_moves late_race_moves)) = [Strong 4] ∧
   in_registry (inventoryThread (after_moves late_race_moves)) = registry_init ∧
   length (q_contents (marketDataQueue (after_moves late_race_moves))) = 3%nat ∧
   pb_published (marketDataThread (after_moves late_race_moves)) = []).
Proof.
  split; (split; [|repeat split; vm_compute; reflexivity]).
  - apply (run_summary race_moves (MainDone, 1, 0, 0)%nat). vm_compute. reflexivity.
  - apply (run_summary late_race_moves (MainDone, 0, 3, 1)%nat). vm_compute. reflexivity.
Qed.

(** C11: Well-formed input never brings the exchange down.  As long as the commands
    dispatched come from participants, their prices are within [-2^62, 2^62) (so the
    mid price is always defined) and the volume ordered in total fits in 64 bits, neither the matching engine thread
    nor the inventory thread has failed, in any reachable state. *)
Theorem fit_input_never_crashes {Ticker Index D Inv Qi Qm Qt} `{!TickerType Ticker}
    `{!OrderIndexType Index} `{!DoubleOps D} `{!InventoryMap Ticker D Inv}
    `{!InventoryLaws Ticker D Inv}
    `{!InboundQueue Ticker Qi} `{!MarketDataQueue Qm} `{!TradeQueue Ticker Qt} {cap : nat}
    `{!SpscQueueLaws cap (InboundCommand Ticker) Qi} `{!SpscQueueLaws cap (list byte) Qm}
    `{!SpscQueueLaws cap (Trade Ticker) Qt} (msg0 : list byte)
    (s : Pipeline Ticker Index Inv Qi Qm Qt) :
  reachable msg0 s → input_fit (gw_dispatched (gatewayThread s)) →
  (∀ cmd, en_pc (matchingThread s) ≠ EngineCrashed cmd) ∧
  (∀ tr, in_pc (inventoryThread s) ≠ InventoryCrashed tr).
Proof.
  intros Hr Hin. destruct (running_inv_reachable msg0 s Hr Hin) as (_ & _ & _ & Hc & Hi).
  split; [|done]. intros cmd E. by rewrite E in Hc.
Qed.

Lemma sample_dispatched : gw_dispatched (gatewayThread (after_moves sample_moves)) =
  [CmdAdd (add 1 1 AAPL Sell 100 10); CmdAdd (add 2 2 AAPL Buy 100 4)].
Proof. vm_compute. reflexivity. Qed.

Lemma sample_fit : input_fit (gw_dispatched (gatewayThread (after_moves sample_moves))).
Proof. rewrite sample_dispatched. by apply (bool_decide_unpack _). Qed.

Lemma fit_input_never_crashes_witness :
  let s := after_moves sample_moves in
  (∀ cmd, en_pc (matchingThread s) ≠ EngineCrashed cmd) ∧
  (∀ tr, in_pc (inventoryThread s) ≠ InventoryCrashed tr).
Proof.
  intros s. exact (fit_input_never_crashes (cap:=QUEUE_CAPACITY) zeros s
    sample_moves_reachable sample_fit).
Defined.

(** The accounts balance at every moment.  With well-formed input, in every
    reachable state of the process and for every ticker, the positions of all
    participants add up to zero. *)
Theorem accounts_always_balance {Ticker Index D Inv Qi Qm Qt} `{!TickerType Ticker}
    `{!OrderIndexType Index} `{!DoubleOps D} `{!InventoryMap Ticker D Inv}
    `{!InventoryLaws Ticker D Inv}
    `{!InboundQueue Ticker Qi} `{!MarketDataQueue Qm} `{!TradeQueue Ticker Qt} {cap : nat}
    `{!SpscQueueLaws cap (InboundCommand Ticker) Qi} `{!SpscQueueLaws cap (list byte) Qm}
    `{!SpscQueueLaws cap (Trade Ticker) Qt} (msg0 : list byte)
    (s : Pipeline Ticker Index Inv Qi Qm Qt) (t : Ticker) :
  reachable msg0 s → input_fit (gw_dispatched (gatewayThread s)) →
  total_position (in_registry (inventoryThread s)) t = 0.
Proof.
  intros Hr Hin. destruct (settled_ok msg0 s Hr Hin) as [Hss Ha].
  destruct (settlement_run (Inv:=Inv) _ Hss) as (r & HR & _ & _ & Hp).
  assert (r = in_registry (inventoryThread s)) as <- by congruence.
  by eapply total_of_changes.
Qed.

Lemma accounts_always_balance_witness :
  total_position (in_registry (inventoryThread (after_moves sample_moves))) AAPL = 0 ∧
  volume_at (in_registry (inventoryThread (after_moves sample_moves))) 1 AAPL = -4.
Proof.
  split; [|vm_compute; reflexivity].
  exact (accounts_always_balance (cap:=QUEUE_CAPACITY) zeros (after_moves sample_moves) AAPL
    sample_moves_reachable sample_fit).
Defined.

(** A cancel that changes nothing is published all the same.  When the engines
    ignore a cancel (unknown order, or not its owner), the matching engine thread
    still sends a cancel event for it, which a listener cannot tell from the cancel
    of a live order. *)
Theorem rejected_cancel_is_published {Ticker Index} `{!TickerType Ticker} `{!TickerLaws Ticker}
    `{!OrderIndexType Index} (msg0 : list byte) (c : OrderCancel Ticker)
    (r : MatchingEngineRouter Index) :
  length msg0 = sizeof_WireMarketDataMessage → event_in_range (EvCancel c) →
  router_OnOrderCancel c r = Ok r →
  ∃ m, ProcessCommand msg0 (CmdCancel c) r = Ok [Publish r; PushMarketData m] ∧
    decode_market_data m = Ok (event_seen (EvCancel c)).
Proof.
  intros Hlen Hev Hno. exists (EncodeOrderCancelEvent msg0 c). cbn [ProcessCommand].
  rewrite Hno. split; [done|]. by apply (decode_encode_event msg0 (EvCancel c)).
Qed.

(** User 2 tries to cancel the order of user 1. *)
Lemma rejected_cancel_is_published_witness :
  let c := cancel 1 2 AAPL in
  let r := en_router (matchingThread (after_moves sample_moves)) in
  ∃ m, ProcessCommand zeros (CmdCancel c) r = Ok [Publish r; PushMarketData m] ∧
    decode_market_data m = Ok (event_seen (EvCancel c)).
Proof.
  intros c r. apply (rejected_cancel_is_published zeros c r).
  - reflexivity.
  - split_and!; [by apply (bool_decide_unpack _)..|apply AAPL_plain].
  - vm_compute. reflexivity.
Defined.
