(* ===== verification/Crash.v ===== *)
(** * What one command does, and when it brings the engine thread down

    The matching engine thread on any commands with 64-bit fields, at any prices:
    what a command does to the book of its instrument, and the one way in which it
    can fail. *)

From Stdlib Require Import Strings.Byte.
From stdpp Require Import gmap.
From S2P Require Import Prelude Interfaces Double CoreTypes Seqlock FlatMap MatchingEngine BookSpec EngineRefinement EngineSpec EngineInvariant EngineIndex Concrete EngineTheorems MidPrice Router User Accounting Registry Settlement Bytes Wire Feed Queues Pipeline PipelineInvariant EndToEnd PipelineTheorems.

Local Open Scope Z_scope.

Section Commands.
Context {Ticker : Type} `{!TickerType Ticker} {Index : Type} `{!OrderIndexType Index}.
Context (msg0 : list byte).
Implicit Types (cmd : InboundCommand Ticker) (r : MatchingEngineRouter Index)
  (e : MatchingEngine Index) (t : Ticker) (trs : list (Trade Ticker)) (b : AbstractBook)
  (acts : list (Action Ticker Index)).

(** The books of an instrument; an unlisted one has none. *)
Definition book_of r t : AbstractBook :=
  match engine_for r t with Some e => abs e | None => mkAbstract [] [] end.

(** What a command does to the book of its own instrument, and the trades it makes:
    nothing, or what the reference says. *)
Definition cmd_effect cmd b b' trs : Prop :=
  (b' = b ∧ trs = []) ∨
  match cmd with
  | CmdAdd o => b' = spec_add o b ∧ trs = spec_trades o b
  | CmdCancel c => trs = [] ∧ ∃ loc, b' = spec_remove loc (oc_orderId_ c) b
  end.

(** The command makes the best prices of its book, after it, too large to average. *)
Definition mid_overflows cmd e : Prop :=
  match cmd with
  | CmdAdd o => ¬ mid_fits (spec_add o (abs e))
  | CmdCancel c => ∃ loc, um_find (oc_orderId_ c) (orderIndex_ e) = Some loc ∧
      ol_userId_ loc = oc_userId_ c ∧ ¬ mid_fits (spec_remove loc (oc_orderId_ c) (abs e))
  end.

Lemma add_acts o r r' trs :
  let acts := ([PushMarketData (EncodeOrderAddEvent msg0 o)] ++ trade_acts msg0 trs) ++ [Publish r'] in
  tr_of acts = trs ∧ router_after r acts = r'.
Proof.
  split; [|unfold router_after; by rewrite foldl_app].
  unfold tr_of. rewrite !omap_app. fold (tr_of (Index:=Index) (trade_acts msg0 trs)).
  rewrite tr_of_trade_acts. cbn. by rewrite app_nil_r.
Qed.

(** The command on the engine of its instrument: it returns the actions that lead to
    its effect, or it is undefined. *)
Lemma ProcessCommand_listed cmd r e : engine_for r (cmd_ticker cmd) = Some e →
  engine_ok e → cmd_fields cmd →
  (∃ acts e', ProcessCommand msg0 cmd r = Ok acts ∧ engine_ok e' ∧ ¬ mid_overflows cmd e ∧
     router_after r acts = mkRouter (<[TickerIndex (cmd_ticker cmd) := e']> (engines_ r)) ∧
     cmd_effect cmd (abs e) (abs e') (tr_of acts)) ∨
  (ProcessCommand msg0 cmd r = Undefined ∧ mid_overflows cmd e).
Proof.
  intros He Hok. destruct cmd as [o|c]; cbn [cmd_fields cmd_ticker ProcessCommand] in *.
  - intros Ho. change (λ trade acts, Ok (acts ++ [PushMarketData (EncodeTradeEvent msg0 trade); PushTrade trade]))
      with (push_trade msg0 (Ticker:=Ticker) (Index:=Index)).
    rewrite (router_OnOrderAdd_listed _ o r _ e He).
    destruct (OnOrderAdd_total (push_trade msg0 (Index:=Index)) o e Hok Ho) as (e' & Hok' & Ha & _ & HR).
    rewrite HR, foldM_push_trade. cbn [mbind Outcome_bind]. cbn [mid_overflows].
    case_decide as Hf; [left|by right].
    set (r' := mkRouter (<[TickerIndex (oa_ticker_ o) := e']> (engines_ r))).
    destruct (add_acts o r r' (spec_trades o (abs e))) as [Et Er].
    eexists _, e'. split; [done|]. cbn [mbind Outcome_bind] in *.
    split_and!; [done|tauto|exact Er|]. right. split; [done|exact Et].
  - intros _. rewrite (router_OnOrderCancel_listed c r e He).
    destruct (OnOrderCancel_total c e Hok)
      as [HR|(loc & e' & Ef & Eu & Hok' & Ha & _ & HR)]; rewrite HR; cbn [mbind Outcome_bind].
    + left. eexists _, e. split; [done|]. split_and!; [done| |done|by left].
      intros (loc & Ef & Eu & Hno).
      destruct (OnOrderCancel_accepted c e loc Hok Ef Eu) as (e' & _ & _ & _ & HR').
      rewrite HR in HR'. by case_decide.
    + case_decide as Hf; [left|right; split; [done|]; by exists loc].
      eexists _, e'. split; [done|]. split_and!; [done| |done|right; split; [done|by exists loc]].
      intros (loc' & Ef' & _ & Hno). assert (loc' = loc) as -> by congruence. tauto.
Qed.

(** A command for an unlisted ticker only passes through. *)
Lemma ProcessCommand_unlisted cmd r : router_sized (Ticker:=Ticker) r →
  cmd_ticker cmd ∉ (INSTRUMENTS : list Ticker) →
  ∃ acts, ProcessCommand msg0 cmd r = Ok acts ∧ router_after r acts = r ∧ tr_of acts = [].
Proof.
  intros Hs Hno. destruct cmd as [o|c]; cbn [cmd_ticker ProcessCommand] in *;
    unfold router_OnOrderAdd, router_OnOrderCancel;
    rewrite TickerIndex_listed, bool_decide_eq_false_2 by done;
    eexists; (split; [done|]); done.
Qed.

Lemma engine_for_unlisted r t : router_sized (Ticker:=Ticker) r →
  t ∉ (INSTRUMENTS : list Ticker) → engine_for r t = None.
Proof.
  intros Hs Hno. apply lookup_ge_None_2. unfold router_sized in Hs. rewrite Hs.
  rewrite <-find_index_lt in Hno. unfold TickerIndex. lia.
Qed.

(** The thread fails on a command exactly when the mid price overflows. *)
Lemma ProcessCommand_fails cmd r : router_wf (Ticker:=Ticker) r → cmd_fields cmd →
  is_ok (ProcessCommand msg0 cmd r) = false ↔
  ∃ e, engine_for r (cmd_ticker cmd) = Some e ∧ mid_overflows cmd e.
Proof.
  intros [Hs Hall] Hc.
  destruct (decide (cmd_ticker cmd ∈ (INSTRUMENTS : list Ticker))) as [Hin|Hno]; cycle 1.
  { destruct (ProcessCommand_unlisted cmd r Hs Hno) as (acts & -> & _).
    rewrite (engine_for_unlisted r _ Hs Hno). naive_solver. }
  destruct (engine_for_listed r _ Hs Hin) as [e He].
  assert (engine_ok e) as Hok by (by eapply Forall_lookup_1 in He).
  destruct (ProcessCommand_listed cmd r e He Hok Hc)
    as [(acts & e' & -> & _ & Hm & _)|[-> Hm]]; rewrite He; naive_solver.
Qed.

(** A command that returns: its effect on every book, and its trades. *)
Lemma ProcessCommand_effect cmd r acts : router_wf (Ticker:=Ticker) r → cmd_fields cmd →
  ProcessCommand msg0 cmd r = Ok acts →
  router_wf (Ticker:=Ticker) (router_after r acts) ∧
  cmd_effect cmd (book_of r (cmd_ticker cmd)) (book_of (router_after r acts) (cmd_ticker cmd))
    (tr_of acts) ∧
  ∀ t, t ≠ cmd_ticker cmd → book_of (router_after r acts) t = book_of r t.
Proof.
  intros [Hs Hall] Hc HP.
  destruct (decide (cmd_ticker cmd ∈ (INSTRUMENTS : list Ticker))) as [Hin|Hno]; cycle 1.
  { destruct (ProcessCommand_unlisted cmd r Hs Hno) as (acts' & HP' & Er & Et).
    assert (acts' = acts) as -> by congruence. rewrite Er, Et. split_and!; [done..|by left|done]. }
  destruct (engine_for_listed r _ Hs Hin) as [e He].
  assert (engine_ok e) as Hok by (by eapply Forall_lookup_1 in He).
  destruct (ProcessCommand_listed cmd r e He Hok Hc)
    as [(acts' & e' & HP' & Hok' & _ & Er & Heff)|[HP' _]]; [|congruence].
  assert (acts' = acts) as -> by congruence. rewrite Er. unfold book_of.
  split; [split; [by apply router_sized_insert|by apply Forall_insert]|]. split.
  - rewrite engine_for_insert, decide_True, He by done. done.
  - intros t Ht. by rewrite engine_for_insert, decide_False.
Qed.

(** Runs. *)
Lemma router_init_wf : router_wf (router_init (Ticker:=Ticker) (Index:=Index)).
Proof. apply router_ok_wf, router_init_ok. Qed.

Lemma seq_run_wf cmds r mds trs : Forall cmd_fields cmds → seq_run msg0 cmds = Ok (r, mds, trs) →
  router_wf (Ticker:=Ticker) r.
Proof.
  revert r mds trs. induction cmds as [|cmd cmds IH] using rev_ind; intros r mds trs Hc HR.
  { injection HR as <- <- <-. apply router_init_wf. }
  apply Forall_app in Hc as [Hc Hc1]. rewrite Forall_singleton in Hc1. rewrite seq_run_snoc in HR.
  apply bind_Ok in HR as ([[r0 mds0] trs0] & HR0 & HS). cbn in HS. inv_ok. simplify_eq.
  by eapply ProcessCommand_effect; [eapply IH|..].
Qed.
End Commands.

(** ** Properties *)

(** C38: Exactly when the matching engine thread dies.  In any reachable state of the
    process in which the commands dispatched have 64-bit fields (as every decoded
    frame does), let the thread be about to pop a command.  It then runs into
    undefined behaviour if and only if the command is for a listed instrument and the
    best bid plus the best ask of that book, after the order is matched and rested or
    after the order is cancelled by its owner, does not fit in 64 bits: prices come
    unchecked off the wire.  No other command brings it down. *)
Theorem engine_dies_iff_mid_overflows {Ticker Index D Inv Qi Qm Qt} `{!TickerType Ticker}
    `{!OrderIndexType Index} `{!DoubleOps D} `{!InventoryMap Ticker D Inv}
    `{!InboundQueue Ticker Qi} `{!MarketDataQueue Qm} `{!TradeQueue Ticker Qt} {cap : nat}
    `{!SpscQueueLaws cap (InboundCommand Ticker) Qi} `{!SpscQueueLaws cap (list byte) Qm}
    `{!SpscQueueLaws cap (Trade Ticker) Qt} (msg0 : list byte)
    (s : Pipeline Ticker Index Inv Qi Qm Qt) cmd :
  reachable msg0 s → Forall cmd_fields (gw_dispatched (gatewayThread s)) →
  en_pc (matchingThread s) = EnginePop → head (q_contents (inboundQueue s)) = Some cmd →
  ∃ s', step msg0 MvEngine s = Some s' ∧
    (en_pc (matchingThread s') = EngineCrashed cmd ↔
     ∃ e, engine_for (en_router (matchingThread s)) (cmd_ticker cmd) = Some e ∧
       mid_overflows cmd e).
Proof.
  intros (I1 & (r & mds & trs & HR & Hr & _) & _)%process_inv_reachable Hc Hpc Hq.
  destruct s as [qi qm qt gw en iv pb mn]. revert I1 HR Hr Hc Hpc Hq. unfold inbound_inv. proj.
  intros I1 HR Hr Hc Hpc Hq. rewrite Hpc in *. cbn in Hr, I1. subst r.
  rewrite I1, Forall_app in Hc. destruct Hc as [Hp Hc].
  pose proof (seq_run_wf msg0 _ _ _ _ Hp HR) as Hwf.
  destruct (q_contents qi) as [|cmd' rest] eqn:Eq; [done|]. injection Hq as ->.
  destruct (q_pop_head cmd rest qi Eq) as (qi' & Epop & _).
  apply Forall_cons in Hc as [Hc _].
  pose proof (ProcessCommand_fails msg0 cmd (en_router en) Hwf Hc) as HF.
  cbn [step]. unfold RunMatchingEngineThread. rewrite Hpc, Epop.
  destruct (ProcessCommand msg0 cmd (en_router en)) as [acts|ex| |] eqn:EP;
    eexists; (split; [reflexivity|]); rewrite <-HF; proj; cbn [is_ok];
    split; intros H; first [done|discriminate H].
Qed.

(** A buy at 2^62 rests; a sell at 2^62 + 1 is about to join it. *)
Definition overflow_moves : list (Move CTicker) :=
  [MvGateway (CmdAdd (add 1 1 AAPL Buy (2 ^ 62) 1));
   MvGateway (CmdAdd (add 2 2 AAPL Sell (2 ^ 62 + 1) 1));
   MvEngine; MvEngine; MvEngine; MvEngine].

Lemma overflow_moves_reachable : reachable zeros (after_moves overflow_moves).
Proof.
  apply (run_summary overflow_moves (MainWaiting, 1, 1, 0)%nat). vm_compute. reflexivity.
Qed.

Lemma engine_dies_iff_mid_overflows_witness :
  let s := after_moves overflow_moves in
  let cmd := CmdAdd (add 2 2 AAPL Sell (2 ^ 62 + 1) 1) in
  (∃ s', step zeros MvEngine s = Some s' ∧
    (en_pc (matchingThread s') = EngineCrashed cmd ↔
     ∃ e, engine_for (en_router (matchingThread s)) AAPL = Some e ∧ mid_overflows cmd e)) ∧
  (∃ e, engine_for (en_router (matchingThread s)) AAPL = Some e ∧ mid_overflows cmd e).
Proof.
  intros s cmd. split.
  - apply (engine_dies_iff_mid_overflows (cap:=QUEUE_CAPACITY) zeros s cmd overflow_moves_reachable).
    + assert (gw_dispatched (gatewayThread s) =
        [CmdAdd (add 1 1 AAPL Buy (2 ^ 62) 1); cmd]) as -> by (vm_compute; reflexivity).
      by apply (bool_decide_unpack _).
    + vm_compute. reflexivity.
    + vm_compute. reflexivity.
  - eexists. split; [vm_compute; reflexivity|]. unfold mid_overflows, cmd.
    by apply (bool_decide_unpack _).
Defined.
