(* ===== verification/Provenance.v ===== *)
(** * Where trades come from

    Every trade that is anywhere in the process is between two orders that clients
    really sent, on terms both asked for, and no order trades more than its volume. *)

From Stdlib Require Import Strings.Byte.
From stdpp Require Import gmap.
From S2P Require Import Prelude Interfaces Double CoreTypes Seqlock FlatMap MatchingEngine BookSpec EngineRefinement EngineSpec EngineInvariant EngineIndex Concrete EngineTheorems Router User Accounting Registry Settlement Bytes Wire Feed Queues Pipeline PipelineInvariant EndToEnd PipelineTheorems Crash.

Local Open Scope Z_scope.

Section Books.
Context {Ticker : Type}.
Implicit Types (o : OrderAdd Ticker) (b : AbstractBook) (tr : Trade Ticker) (id : OrderId)
  (cmds : list (InboundCommand Ticker)).

Lemma opposite_side_list side b : opposite_side side b = side_list (opposite side) b.
Proof. by destruct side. Qed.

(** ** Orders behind resting orders and trades *)

(** A resting order is what is left of an order. *)
Definition order_rests o (side : Side) (x : Entry) : Prop :=
  oa_side_ o = side ∧ oa_price_ o = x.1 ∧ oa_orderId_ o = entry_id x ∧
  oa_userId_ o = ro_userId_ x.2 ∧ entry_volume x ≤ value (oa_volume_ o).

(** The trade is between the two orders: it names them and their owners, is in their
    instrument, prints at the maker's price, which the taker's limit accepts, and for a
    positive volume that neither order exceeds. *)
Definition trade_between maker taker tr : Prop :=
  oa_ticker_ maker = tr_ticker_ tr ∧ oa_ticker_ taker = tr_ticker_ tr ∧
  oa_orderId_ maker = tr_makerOrderId_ tr ∧ oa_userId_ maker = tr_makerId_ tr ∧
  oa_orderId_ taker = tr_takerOrderId_ tr ∧ oa_userId_ taker = tr_takerId_ tr ∧
  oa_side_ taker = tr_takerSide_ tr ∧ oa_side_ maker = opposite (tr_takerSide_ tr) ∧
  oa_price_ maker = tr_executionPrice_ tr ∧
  accepts (oa_side_ taker) (oa_price_ taker) (tr_executionPrice_ tr) = true ∧
  0 < trade_volume tr ∧ trade_volume tr ≤ value (oa_volume_ maker) ∧
  trade_volume tr ≤ value (oa_volume_ taker).

(** Among the commands there are the two orders, the maker's before the taker's. *)
Definition trade_from cmds tr : Prop :=
  ∃ before taker after maker, cmds = before ++ CmdAdd taker :: after ∧
    CmdAdd maker ∈ before ∧ trade_between maker taker tr.

Lemma trade_from_app cmds more tr : trade_from cmds tr → trade_from (cmds ++ more) tr.
Proof.
  intros (before & taker & after & maker & -> & Hm & Ht).
  exists before, taker, (after ++ more), maker. by rewrite <-(assoc_L (++)).
Qed.

(** What a match leaves of an order is no more than it was. *)
Lemma fill_left_from crosses l remaining x : x ∈ fr_left (fill crosses l remaining) →
  ∃ y, y ∈ l ∧ y.1 = x.1 ∧ entry_id y = entry_id x ∧ ro_userId_ y.2 = ro_userId_ x.2 ∧
    entry_volume x ≤ entry_volume y.
Proof.
  revert remaining; induction l as [|y l IH]; intros remaining; simpl; [by intros ?%elem_of_nil|].
  assert (∀ z, z ∈ y :: l → ∃ y', y' ∈ y :: l ∧ y'.1 = z.1 ∧ entry_id y' = entry_id z ∧
    ro_userId_ y'.2 = ro_userId_ z.2 ∧ entry_volume z ≤ entry_volume y') as Hid.
  { intros z Hz. exists z. split_and!; done || lia. }
  destruct (Z.ltb_spec 0 remaining), (crosses y.1); cbn; try apply Hid.
  destruct (entry_volume y <=? remaining); cbn.
  - intros (z & ? & ?)%IH. exists z. split; [by right|done].
  - intros [->|Hx]%elem_of_cons; [|apply Hid; by right].
    exists y. split_and!; [by left|done..|]. unfold shrink, entry_volume. cbn. lia.
Qed.

(** The orders behind the books after an order. *)
Lemma spec_add_from o b side x : Forall (λ x, 0 < entry_volume x) (opposite_side (oa_side_ o) b) →
  x ∈ side_list side (spec_add o b) →
  (∃ y, y ∈ side_list side b ∧ y.1 = x.1 ∧ entry_id y = entry_id x ∧
     ro_userId_ y.2 = ro_userId_ x.2 ∧ entry_volume x ≤ entry_volume y) ∨ order_rests o side x.
Proof.
  intros Hpos Hx. unfold spec_add in Hx.
  pose proof (fill_remaining_bounds (accepts (oa_side_ o) (oa_price_ o)) _
    (value (oa_volume_ o)) Hpos) as Hrem. fold (spec_match o b) in Hrem.
  assert (∀ comp l, side = oa_side_ o →
    x ∈ rest_remainder comp o (fr_remaining (spec_match o b)) l → x ∈ l ∨ order_rests o side x)
    as Hrest.
  { intros comp l ->. unfold rest_remainder.
    destruct (Z.ltb_spec 0 (fr_remaining (spec_match o b))) as [Hr|_]; [|by left].
    intros [->|?]%elem_of_rest_at; [right|by left]. split_and!; try done.
    change (fr_remaining (spec_match o b) ≤ value (oa_volume_ o)).
    destruct (Z.leb_spec (value (oa_volume_ o)) 0); [|lia].
    unfold spec_match in Hr. rewrite fill_stop in Hr by done. cbn in Hr. lia. }
  destruct side, (oa_side_ o) eqn:Es; cbn [side_list ab_bids ab_asks] in *;
    first [ apply Hrest in Hx as [?|?]; [left|by right|done]; exists x; split_and!; done || lia
          | unfold spec_match in Hx; rewrite Es in Hx; apply fill_left_from in Hx; by left ].
Qed.

(** Ids and owners of the orders after an add are those of before, or the new one's. *)
Lemma spec_add_elem o b side x : x ∈ side_list side (spec_add o b) →
  (∃ y, y ∈ side_list side b ∧ entry_id y = entry_id x ∧ ro_userId_ y.2 = ro_userId_ x.2) ∨
  (entry_id x = oa_orderId_ o ∧ ro_userId_ x.2 = oa_userId_ o).
Proof.
  intros Hx. unfold spec_add, spec_match in Hx.
  assert (∀ comp n l, x ∈ rest_remainder comp o n l →
    x ∈ l ∨ (entry_id x = oa_orderId_ o ∧ ro_userId_ x.2 = oa_userId_ o)) as Hrest.
  { intros comp n l. unfold rest_remainder. destruct (0 <? n); [|by left].
    intros [->|?]%elem_of_rest_at; [by right|by left]. }
  destruct side, (oa_side_ o); cbn [side_list ab_bids ab_asks opposite_side] in *;
    first [ apply Hrest in Hx as [?|?]; [left; eauto|by right]
          | apply fill_left_elem in Hx as (y & ? & _ & ? & ?); left; eauto ].
Qed.

(** The trades of an order are with the orders behind the opposite side. *)
Lemma spec_trades_between o b cmds tr :
  Forall (λ x, 0 < entry_volume x) (opposite_side (oa_side_ o) b) →
  (∀ x, x ∈ opposite_side (oa_side_ o) b →
     ∃ maker, CmdAdd maker ∈ cmds ∧ oa_ticker_ maker = oa_ticker_ o ∧
       order_rests maker (opposite (oa_side_ o)) x) →
  tr ∈ spec_trades o b → ∃ maker, CmdAdd maker ∈ cmds ∧ trade_between maker o tr.
Proof.
  intros Hpos Hl (f & -> & Hf)%list_elem_of_fmap.
  destruct (fill_bounds _ _ _ f Hpos Hf) as (Hin & [Hv1 Hv2] & Hc & Hle).
  destruct (Hl _ Hin) as (maker & Hm & Ht & Hs & Hp & Hid & Hu & Hmv).
  exists maker. split; [done|]. change (trade_volume (trade_of o f)) with (fill_volume f).
  unfold trade_between. change (trade_volume (trade_of o f)) with (fill_volume f).
  split_and!; try done. lia.
Qed.

(** ** Volume traded under an id *)

(** The volume resting under an id. *)
Definition id_volume id (l : list Entry) : Z :=
  sumZ (λ x, if decide (entry_id x = id) then entry_volume x else 0) l.

Definition resting_volume id b : Z := id_volume id (ab_bids b) + id_volume id (ab_asks b).

(** The volume traded in an instrument under an order id, by maker or taker. *)
Definition side_traded id tr : Z :=
  (if decide (tr_makerOrderId_ tr = id) then trade_volume tr else 0) +
  (if decide (tr_takerOrderId_ tr = id) then trade_volume tr else 0).

(** The volume of a fill whose resting order has the id. *)
Definition maker_volume id (f : Fill) : Z :=
  if decide (entry_id (fill_entry f) = id) then fill_volume f else 0.

(** What is traded under an id leaves the book. *)
Lemma fill_id_volume id crosses l remaining :
  let r := fill crosses l remaining in
  sumZ (maker_volume id) (fr_fills r) + id_volume id (fr_left r) = id_volume id l.
Proof.
  unfold id_volume. cbv zeta. revert remaining.
  induction l as [|x l IH]; intros remaining; cbn [fill]; [done|].
  destruct ((0 <? remaining) && crosses x.1); cbn [fr_fills fr_left]; [|cbn; lia].
  destruct (entry_volume x <=? remaining); cbn [fr_fills fr_left]; rewrite !sumZ_cons.
  - specialize (IH (remaining - entry_volume x)). unfold maker_volume at 1. cbn [fill_entry fill_volume].
    case_decide; lia.
  - unfold maker_volume, shrink. cbn. unfold entry_id, entry_volume in *. cbn. case_decide; lia.
Qed.

Lemma sumZ_side_traded id o (fs : list Fill) :
  sumZ (side_traded id) (trade_of o <$> fs) =
  sumZ (maker_volume id) fs + if decide (oa_orderId_ o = id) then sumZ fill_volume fs else 0.
Proof.
  induction fs as [|f fs IH]; [by case_decide|].
  rewrite fmap_cons, !sumZ_cons, IH. unfold side_traded, maker_volume.
  change (tr_makerOrderId_ (trade_of o f)) with (entry_id (fill_entry f)).
  change (tr_takerOrderId_ (trade_of o f)) with (oa_orderId_ o).
  change (trade_volume (trade_of o f)) with (fill_volume f).
  repeat case_decide; lia.
Qed.

Lemma id_volume_rest id comp o n l : id_volume id (rest_remainder comp o n l) =
  id_volume id l + if decide (oa_orderId_ o = id) then Z.max 0 n else 0.
Proof.
  unfold rest_remainder, id_volume. destruct (Z.ltb_spec 0 n); [|case_decide; lia].
  rewrite (sumZ_Permutation _ _ _ (rest_at_Permutation comp _ _)), sumZ_cons.
  set (x := (oa_price_ o, _)). change (entry_id x) with (oa_orderId_ o).
  change (entry_volume x) with n. case_decide; lia.
Qed.

(** An order: traded and resting volume together grow by the order's, under its id. *)
Lemma spec_add_id_volume id o b :
  Forall (λ x, 0 < entry_volume x) (opposite_side (oa_side_ o) b) →
  sumZ (side_traded id) (spec_trades o b) + resting_volume id (spec_add o b) =
  resting_volume id b + if decide (oa_orderId_ o = id) then order_volume o else 0.
Proof.
  intros Hpos. unfold spec_trades. rewrite sumZ_side_traded.
  set (acc := accepts (oa_side_ o) (oa_price_ o)). set (v := value (oa_volume_ o)).
  set (l := opposite_side (oa_side_ o) b) in *.
  pose proof (fill_id_volume id acc l v) as H1. cbn zeta in H1.
  destruct (fill_conserves acc l v) as [H2 _].
  assert (Z.max 0 (fr_remaining (fill acc l v)) + (v - fr_remaining (fill acc l v)) =
    order_volume o) as H3.
  { unfold order_volume. fold v. destruct (Z.leb_spec v 0).
    - rewrite fill_stop by done. cbn. lia.
    - pose proof (fill_remaining_bounds acc l v Hpos ltac:(lia)). lia. }
  unfold spec_add, spec_match, resting_volume. fold acc l v. unfold l in *. clear l.
  destruct (oa_side_ o); cbn [ab_bids ab_asks opposite_side] in *;
    rewrite id_volume_rest; case_decide; lia.
Qed.

Lemma id_volume_remove id p id' l : Forall (λ x, 0 < entry_volume x) l →
  id_volume id (remove_at p id' l) ≤ id_volume id l.
Proof.
  unfold id_volume, remove_at. induction 1 as [|x l Hx _ IH]; [done|].
  rewrite filter_cons. repeat case_decide; rewrite ?sumZ_cons; repeat case_decide; lia || done.
Qed.

(** A cancel only takes away. *)
Lemma spec_remove_id_volume id loc id' b : (∀ side, Forall (λ x, 0 < entry_volume x) (side_list side b)) →
  resting_volume id (spec_remove loc id' b) ≤ resting_volume id b.
Proof.
  intros Hpos. unfold resting_volume, spec_remove.
  pose proof (id_volume_remove id (ol_price_ loc) id' _ (Hpos Buy)).
  pose proof (id_volume_remove id (ol_price_ loc) id' _ (Hpos Sell)).
  cbn [side_list] in *. destruct (ol_side_ loc); cbn [ab_bids ab_asks]; lia.
Qed.
End Books.

(** ** Commands and runs *)

Section Runs.
Context {Ticker : Type} `{!TickerType Ticker} {Index : Type} `{!OrderIndexType Index}.
Context (msg0 : list byte).
Implicit Types (r : MatchingEngineRouter Index) (t : Ticker) (id : OrderId)
  (cmd : InboundCommand Ticker) (cmds : list (InboundCommand Ticker)) (trs : list (Trade Ticker)).

(** The volume ordered in an instrument under an id, and the volume traded. *)
Definition id_ordered t id cmds : Z :=
  sumZ (λ cmd, match cmd with
    | CmdAdd o => if decide (oa_ticker_ o = t ∧ oa_orderId_ o = id) then order_volume o else 0
    | CmdCancel _ => 0
    end) cmds.

Definition id_traded t id trs : Z :=
  sumZ (λ tr, if decide (tr_ticker_ tr = t) then side_traded id tr else 0) trs.

Lemma id_ordered_mono t id cmds more : id_ordered t id cmds ≤ id_ordered t id (cmds ++ more).
Proof.
  unfold id_ordered. rewrite sumZ_app. assert (0 ≤ id_ordered t id more); [|unfold id_ordered in *; lia].
  apply sumZ_nonneg, Forall_forall. intros [o|c] _; [|done]. unfold order_volume. case_decide; lia.
Qed.

(** What is known of the books and trades of a run of commands. *)
Record provenance cmds r trs : Prop := {
  pv_resting t side x : x ∈ side_list side (book_of r t) →
    ∃ o, CmdAdd o ∈ cmds ∧ oa_ticker_ o = t ∧ order_rests o side x;
  pv_trades : Forall (trade_from cmds) trs;
  pv_volume t id : id_traded t id trs + resting_volume id (book_of r t) ≤ id_ordered t id cmds;
}.

Lemma book_of_positive r t side : router_wf (Ticker:=Ticker) r →
  Forall (λ x, 0 < entry_volume x) (side_list side (book_of r t)).
Proof.
  intros [_ Hall]. unfold book_of. destruct (engine_for r t) as [e|] eqn:He.
  - destruct (Forall_lookup_1 _ _ _ _ Hall He) as [[Hb Ha] _].
    destruct side; [by apply (book_ok_volumes bids_comp)|by apply (book_ok_volumes asks_comp)].
  - destruct side; constructor.
Qed.

(** The books of one instrument after a command. *)
Lemma cmd_effect_resting cmd cmds b b' trs (side : Side) x :
  (∀ side, Forall (λ x, 0 < entry_volume x) (side_list side b)) →
  (∀ side x, x ∈ side_list side b →
    ∃ o, CmdAdd o ∈ cmds ∧ oa_ticker_ o = cmd_ticker cmd ∧ order_rests o side x) →
  cmd_effect cmd b b' trs → x ∈ side_list side b' →
  ∃ o, CmdAdd o ∈ cmds ++ [cmd] ∧ oa_ticker_ o = cmd_ticker cmd ∧ order_rests o side x.
Proof.
  intros Hpos Hb Heff Hx.
  assert (∀ y, y ∈ side_list side b → y.1 = x.1 → entry_id y = entry_id x →
    ro_userId_ y.2 = ro_userId_ x.2 → entry_volume x ≤ entry_volume y →
    ∃ o, CmdAdd o ∈ cmds ++ [cmd] ∧ oa_ticker_ o = cmd_ticker cmd ∧ order_rests o side x) as Hold.
  { intros y Hy E1 E2 E3 Hv. destruct (Hb side y Hy) as (o & Ho & Ht & H1 & H2 & H3 & H4 & H5).
    exists o. split; [apply elem_of_app; by left|]. split; [done|].
    split_and!; [done|congruence..|lia]. }
  destruct Heff as [[-> _]|Heff]; [by eapply (Hold x)|].
  destruct cmd as [o|c].
  - destruct Heff as [-> _]. apply spec_add_from in Hx; [|rewrite opposite_side_list; apply Hpos].
    destruct Hx as [(y & Hy & ? & ? & ? & ?)|Hx]; [by apply (Hold y)|].
    exists o. split; [apply elem_of_app; right; by apply list_elem_of_singleton|done].
  - destruct Heff as (_ & loc & ->). apply (Hold x); [|done..].
    unfold spec_remove in Hx. destruct side, (ol_side_ loc); cbn in *; eauto using remove_at_subset.
Qed.

(** Its trades. *)
Lemma cmd_effect_trades cmd cmds b b' trs :
  (∀ side, Forall (λ x, 0 < entry_volume x) (side_list side b)) →
  (∀ side x, x ∈ side_list side b →
    ∃ o, CmdAdd o ∈ cmds ∧ oa_ticker_ o = cmd_ticker cmd ∧ order_rests o side x) →
  cmd_effect cmd b b' trs → Forall (trade_from (cmds ++ [cmd])) trs.
Proof.
  intros Hpos Hb [[_ ->]|Heff]; [constructor|]. destruct cmd as [o|c]; cycle 1.
  { destruct Heff as [-> _]. constructor. }
  destruct Heff as [_ ->]. apply Forall_forall. intros tr Htr.
  apply (spec_trades_between o b cmds) in Htr as (maker & Hm & Ht).
  - by exists cmds, o, [], maker.
  - rewrite opposite_side_list. apply Hpos.
  - intros x. rewrite opposite_side_list. apply Hb.
Qed.

(** The trades of a command are of its instrument. *)
Lemma cmd_effect_ticker cmd b b' trs : cmd_effect cmd b b' trs →
  Forall (λ tr, tr_ticker_ tr = cmd_ticker cmd) trs.
Proof.
  intros [[_ ->]|H]; [constructor|]. destruct cmd as [o|c].
  - destruct H as [_ ->]. by apply Forall_fmap, Forall_forall.
  - destruct H as [-> _]. constructor.
Qed.

Lemma traded_ticker t t' id trs : Forall (λ tr, tr_ticker_ tr = t') trs →
  id_traded t id trs = if decide (t' = t) then sumZ (side_traded id) trs else 0.
Proof.
  unfold id_traded. induction 1 as [|tr trs Ht _ IH]; [by case_decide|].
  rewrite !sumZ_cons, IH, Ht. by case_decide.
Qed.

Lemma cmd_effect_volume cmd b b' trs id :
  (∀ side, Forall (λ x, 0 < entry_volume x) (side_list side b)) →
  cmd_effect cmd b b' trs →
  sumZ (side_traded id) trs + resting_volume id b' ≤
  resting_volume id b + id_ordered (cmd_ticker cmd) id [cmd].
Proof.
  intros Hpos Heff. pose proof (id_ordered_mono (cmd_ticker cmd) id [] [cmd]) as H0.
  change (id_ordered _ _ []) with 0 in H0. cbn [app] in H0.
  destruct Heff as [[-> ->]|Heff]; [change (sumZ (side_traded id) []) with 0; lia|].
  destruct cmd as [o|c].
  - destruct Heff as [-> ->]. rewrite spec_add_id_volume
      by (rewrite opposite_side_list; apply Hpos).
    unfold id_ordered. rewrite sumZ_cons. cbn [cmd_ticker sumZ foldr].
    repeat case_decide; try tauto; cbn; lia.
  - destruct Heff as (-> & loc & ->).
    pose proof (spec_remove_id_volume id loc (oc_orderId_ c) b Hpos).
    change (sumZ (side_traded id) []) with 0. lia.
Qed.

Lemma provenance_step cmd cmds r trs acts : router_wf (Ticker:=Ticker) r → cmd_fields cmd →
  provenance cmds r trs → ProcessCommand msg0 cmd r = Ok acts →
  provenance (cmds ++ [cmd]) (router_after r acts) (trs ++ tr_of acts).
Proof.
  intros Hwf Hc [P1 P2 P3] HP.
  destruct (ProcessCommand_effect msg0 cmd r acts Hwf Hc HP) as (_ & Heff & Hne).
  pose proof (λ side, book_of_positive r (cmd_ticker cmd) side Hwf) as Hpos. split.
  - intros t side x. destruct (decide (t = cmd_ticker cmd)) as [->|Ht]; [|rewrite Hne by done].
    + apply (cmd_effect_resting cmd cmds (book_of r (cmd_ticker cmd)) _ (tr_of acts)); auto.
    + intros (o & ? & ?)%P1. exists o. split; [apply elem_of_app; by left|done].
  - apply Forall_app. split.
    + eapply Forall_impl; [exact P2|]. intros tr. apply trade_from_app.
    + eapply cmd_effect_trades; eauto.
  - intros t id. specialize (P3 t id). unfold id_traded, id_ordered in *. rewrite !sumZ_app.
    fold (id_traded t id trs) (id_traded t id (tr_of acts)) (id_ordered t id cmds) (id_ordered t id [cmd]) in *.
    rewrite (traded_ticker t _ id _ (cmd_effect_ticker _ _ _ _ Heff)).
    case_decide as Et.
    + subst t. pose proof (cmd_effect_volume cmd _ _ _ id Hpos Heff). lia.
    + rewrite Hne by done. pose proof (id_ordered_mono t id [] [cmd]) as H0.
      change (id_ordered t id []) with 0 in H0. cbn [app] in H0. lia.
Qed.

Lemma seq_run_provenance cmds r mds trs : Forall cmd_fields cmds →
  seq_run msg0 cmds = Ok (r, mds, trs) → provenance cmds r trs.
Proof.
  revert r mds trs. induction cmds as [|cmd cmds IH] using rev_ind; intros r mds trs Hc HR.
  { injection HR as <- <- <-.
    assert (∀ t, book_of (router_init (Ticker:=Ticker) (Index:=Index)) t = mkAbstract [] []) as Hb.
    { intros t. unfold book_of, engine_for, router_init. cbn [engines_].
      destruct (replicate _ _ !! _) as [e|] eqn:E; [|done].
      by apply lookup_replicate in E as [-> _]. }
    split; [|by apply Forall_nil|intros t id; rewrite Hb; change (0 + (0 + 0) ≤ 0); lia].
    intros t side x. rewrite Hb. destruct side; by intros ?%elem_of_nil. }
  apply Forall_app in Hc as [Hc Hc1]. rewrite Forall_singleton in Hc1. rewrite seq_run_snoc in HR.
  apply bind_Ok in HR as ([[r0 mds0] trs0] & HR0 & HS). cbn in HS. inv_ok. simplify_eq.
  apply provenance_step; eauto using seq_run_wf.
Qed.
End Runs.

(** ** Properties *)

(** C19: Every trade comes from two orders.  If the commands the gateway dispatched carry
    64-bit values (as every decoded frame does), then in every reachable state of the
    process each trade that is settled, in the inventory's hands, queued or about to be
    queued is between two orders that clients sent, the maker's before the taker's: it
    names their ids and owners, is in their instrument, with the right side as the taker,
    prints at the maker's price, which is within the taker's limit, and for a positive
    volume that neither order exceeds.  And for every instrument and order id, all the
    trades together trade no more under that id than the orders with that id asked for. *)
Theorem trades_come_from_orders {Ticker Index D Inv Qi Qm Qt} `{!TickerType Ticker}
    `{!OrderIndexType Index} `{!DoubleOps D} `{!InventoryMap Ticker D Inv}
    `{!InboundQueue Ticker Qi} `{!MarketDataQueue Qm} `{!TradeQueue Ticker Qt} {cap : nat}
    `{!SpscQueueLaws cap (InboundCommand Ticker) Qi} `{!SpscQueueLaws cap (list byte) Qm}
    `{!SpscQueueLaws cap (Trade Ticker) Qt} (msg0 : list byte)
    (s : Pipeline Ticker Index Inv Qi Qm Qt) :
  let cmds := gw_dispatched (gatewayThread s) in
  let trs := (in_settled (inventoryThread s)).*2 ++
    inventory_hand (in_pc (inventoryThread s)) ++ q_contents (tradeQueue s) ++
    tr_of (engine_acts (en_pc (matchingThread s))) in
  reachable msg0 s → Forall cmd_fields cmds →
  Forall (trade_from cmds) trs ∧ ∀ t id, id_traded t id trs ≤ id_ordered t id cmds.
Proof.
  intros cmds trs' (I1 & (r & mds & trs & HR & _ & _ & Ht) & _)%process_inv_reachable Hc.
  unfold inbound_inv in I1. fold cmds in I1. change trs' with ((in_settled (inventoryThread s)).*2 ++
    inventory_hand (in_pc (inventoryThread s)) ++ q_contents (tradeQueue s) ++
    tr_of (engine_acts (en_pc (matchingThread s)))). rewrite <-Ht. clear trs'.
  rewrite I1, Forall_app in Hc. destruct Hc as [Hc _].
  destruct (seq_run_provenance msg0 _ _ _ _ Hc HR) as [_ P2 P3]. rewrite I1. split.
  - eapply Forall_impl; [exact P2|]. intros tr. apply trade_from_app.
  - intros t id. etransitivity; [|apply id_ordered_mono]. specialize (P3 t id).
    assert (0 ≤ resting_volume id (book_of r t)); [|lia].
    pose proof (λ side, book_of_positive r t side (seq_run_wf msg0 _ _ _ _ Hc HR)) as Hpos.
    assert (∀ l, Forall (λ x, 0 < entry_volume x) l → 0 ≤ id_volume id l) as Hl.
    { intros l H. apply sumZ_nonneg. eapply Forall_impl; [exact H|]. intros x Hx. cbn in Hx. case_decide; lia. }
    pose proof (Hl _ (Hpos Buy)). pose proof (Hl _ (Hpos Sell)). unfold resting_volume.
    cbn [side_list] in *. lia.
Qed.

Lemma trades_come_from_orders_witness :
  let s := after_moves sample_moves in
  let cmds := gw_dispatched (gatewayThread s) in
  let trs := (in_settled (inventoryThread s)).*2 ++
    inventory_hand (in_pc (inventoryThread s)) ++ q_contents (tradeQueue s) ++
    tr_of (engine_acts (en_pc (matchingThread s))) in
  length trs = 1%nat ∧
  Forall (trade_from cmds) trs ∧ ∀ t id, id_traded t id trs ≤ id_ordered t id cmds.
Proof.
  intros s cmds trs. split; [vm_compute; reflexivity|].
  apply (trades_come_from_orders (cap:=QUEUE_CAPACITY) zeros s sample_moves_reachable).
  unfold s. rewrite sample_dispatched. by apply (bool_decide_unpack _).
Defined.
