(* ===== verification/ListenerSync.v ===== *)
(** * The listener's book is the exchange's

    [agrees]: the listener's entries for an instrument are exactly the orders that rest
    in its engine, with their side, price and remaining volume.  An order and its
    trades, and a cancel from the owner, preserve the agreement for every instrument;
    so a listener that received everything published by the exchange holds the books
    of all engines. *)

From Stdlib Require Import Strings.Byte Sorting.Sorted.
From stdpp Require Import gmap sorting.
From S2P Require Import Prelude Interfaces Double CoreTypes Seqlock FlatMap MatchingEngine BookSpec EngineRefinement EngineSpec EngineInvariant EngineIndex EngineTheorems Router Bytes Wire Feed Listener User Registry Queues Pipeline PipelineInvariant Crash Provenance.

Local Open Scope Z_scope.

(** ** Trades the feed can carry *)

(** Every field of a resting order is a 64-bit value. *)
Definition entry_in_range (x : Entry) : Prop :=
  is_i64 (value (entry_id x)) ∧ is_i64 (value (ro_userId_ x.2)) ∧ is_i64 (value x.1) ∧
  is_i64 (entry_volume x).

Definition trade_in_range {Ticker} (tr : Trade Ticker) : Prop :=
  is_i64 (value (tr_makerId_ tr)) ∧ is_i64 (value (tr_takerId_ tr)) ∧
  is_i64 (value (tr_makerOrderId_ tr)) ∧ is_i64 (value (tr_takerOrderId_ tr)) ∧
  is_i64 (value (tr_executionPrice_ tr)) ∧ is_i64 (value (tr_volume_ tr)).

(** The orders of a book are in range, and of positive volume. *)
Definition book_typed (b : AbstractBook) : Prop :=
  ∀ side, Forall (λ x, entry_in_range x ∧ 0 < entry_volume x) (side_list side b).

Lemma spec_trades_typed {Ticker} (o : OrderAdd Ticker) b : book_typed b → order_in_range o →
  Forall trade_in_range (spec_trades o b).
Proof.
  intros Hb (H1 & H2 & H3 & H4). unfold spec_trades, spec_match. rewrite opposite_side_list.
  pose proof (Hb (opposite (oa_side_ o))) as Hl. set (l := side_list _ _) in *.
  apply Forall_fmap, Forall_forall. intros f Hf.
  assert (Forall (λ x, 0 < entry_volume x) l) as Hpos
    by (eapply Forall_impl; [exact Hl|]; by intros x [_ ?]).
  destruct (fill_bounds _ l _ f Hpos Hf) as (Hin & Hv & _ & _).
  rewrite Forall_forall in Hl. destruct (Hl _ Hin) as ((E1 & E2 & E3 & E4) & _).
  split_and!; [done..|]. change (is_i64 (fill_volume f)). i64.
Qed.

(** A well-formed book gives the ranges of prices and volumes; ids and owners remain. *)
Lemma book_typed_intro {Index} (e : MatchingEngine Index) : books_ok e →
  (∀ side x, x ∈ side_list side (abs e) →
    is_i64 (value (entry_id x)) ∧ is_i64 (value (ro_userId_ x.2))) → book_typed (abs e).
Proof.
  assert (∀ comp (book : Book) x, book_ok comp book → x ∈ flatten book →
    is_i64 (value x.1) ∧ is_i64 (entry_volume x) ∧ 0 < entry_volume x) as Hbook.
  { intros comp book [p ro] [_ Hok] (level & Hl & Hr)%elem_of_flatten.
    rewrite Forall_forall in Hok. destruct (Hok _ Hl) as (Hp & _ & Hro).
    rewrite Forall_forall in Hro. specialize (Hro _ Hr). unfold ro_ok in Hro.
    unfold entry_volume. cbn. split_and!; [done|i64|lia]. }
  intros [Hb Ha] H side. apply Forall_forall. intros x Hx. destruct (H side x Hx).
  assert (is_i64 (value x.1) ∧ is_i64 (entry_volume x) ∧ 0 < entry_volume x) as (? & ? & ?)
    by (destruct side; [by apply (Hbook bids_comp (bids_ e))|by apply (Hbook asks_comp (asks_ e))]).
  by split_and!.
Qed.

Section Agreement.
Context {Ticker : Type} `{!TickerType Ticker} `{!TickerLaws Ticker}.
Implicit Types (o : OrderAdd Ticker) (b : AbstractBook) (x : Entry) (m : OpenOrders) (t : Ticker).

(** The entries of the listener for [t] are the orders of the book [b]. *)
Record agrees t b m : Prop := {
  ag_complete side x : x ∈ side_list side b → m !! entry_key x = Some (shown_as t side x);
  ag_sound k oo : m !! k = Some oo → oo_ticker oo = ticker_str t →
    ∃ side x, x ∈ side_list side b ∧ entry_key x = k;
}.

Lemma ticker_str_inj t1 t2 : ticker_str t1 = ticker_str t2 → t1 = t2.
Proof.
  intros E. apply ss_data_inj. unfold ticker_str in E. revert E.
  apply (list_fmap_eq_inj (byte_to_Z)). intros b1 b2 E.
  by rewrite <-(byte_of_to_Z b1), E, byte_of_to_Z.
Qed.

Lemma agrees_empty t : agrees t (mkAbstract [] []) ∅.
Proof. split; [intros [] x H; by apply elem_of_nil in H|]. intros k oo H. by rewrite lookup_empty in H. Qed.

(** Orders of different instruments have different ids. *)
Lemma agrees_distinct t1 t2 b1 b2 m s1 s2 x1 x2 : agrees t1 b1 m → agrees t2 b2 m →
  x1 ∈ side_list s1 b1 → x2 ∈ side_list s2 b2 → entry_key x1 = entry_key x2 → t1 = t2.
Proof.
  intros H1 H2 Hx1%(ag_complete _ _ _ H1) Hx2%(ag_complete _ _ _ H2) E.
  apply ticker_str_inj. rewrite E, Hx2 in Hx1. by injection Hx1.
Qed.

(** Changing entries that are not those of [t]. *)
Lemma agrees_frame t b m m' : agrees t b m →
  (∀ side x, x ∈ side_list side b → m' !! entry_key x = m !! entry_key x) →
  (∀ k oo, m' !! k = Some oo → oo_ticker oo = ticker_str t → m !! k = Some oo) →
  agrees t b m'.
Proof.
  intros [Hc Hs] H1 H2. split.
  - intros side x Hx. rewrite (H1 side x Hx). auto.
  - intros k oo Hk Ht. eapply Hs; eauto.
Qed.

Lemma spec_add_far_side o b :
  side_list (opposite (oa_side_ o)) (spec_add o b) = fr_left (spec_match o b).
Proof. unfold spec_add. by destruct (oa_side_ o). Qed.

(** The remainder of the order, as it rests. *)
Definition remainder o b : Entry :=
  (oa_price_ o, mkResting (oa_orderId_ o) (oa_userId_ o) (Strong (fr_remaining (spec_match o b)))).

Lemma spec_add_own o b x :
  x ∈ side_list (oa_side_ o) (spec_add o b) ↔
  x ∈ side_list (oa_side_ o) b ∨ (0 < fr_remaining (spec_match o b) ∧ x = remainder o b).
Proof.
  unfold spec_add, remainder. destruct (oa_side_ o); cbn [side_list ab_bids ab_asks];
    unfold rest_remainder; destruct (Z.ltb_spec 0 (fr_remaining (spec_match o b)));
    rewrite ?elem_of_rest_at; intuition lia.
Qed.

Lemma NoDup_keys (l : list Entry) : NoDup (entry_id <$> l) → NoDup (entry_key <$> l).
Proof.
  intros H. assert (entry_key <$> l = value <$> (entry_id <$> l)) as ->
    by (by rewrite <-list_fmap_compose).
  apply NoDup_fmap_2; [|done]. intros id1 id2. apply strong_eq.
Qed.

Lemma elem_of_keys k (l : list Entry) : k ∈ entry_key <$> l ↔ ∃ x, x ∈ l ∧ entry_key x = k.
Proof. rewrite list_elem_of_fmap. naive_solver. Qed.

Lemma NoDup_side b side : NoDup (resting_ids b) → NoDup (entry_id <$> side_list side b).
Proof. intros (H1 & _ & H2)%NoDup_app. by destruct side. Qed.

Lemma elem_of_resting_ids id b :
  id ∈ resting_ids b ↔ ∃ side x, x ∈ side_list side b ∧ entry_id x = id.
Proof.
  unfold resting_ids. rewrite elem_of_app, !list_elem_of_fmap. split.
  - intros [(x & -> & ?)|(x & -> & ?)]; [exists Buy, x|exists Sell, x]; done.
  - intros ([] & x & Hx & <-); [left|right]; eauto.
Qed.

Definition add_events o (trs : list (Trade Ticker)) : list (MarketEvent Ticker) :=
  EvAdd o :: (EvTrade <$> trs).

(** The conditions under which an order is followed. *)
Definition order_followed o b : Prop :=
  NoDup (resting_ids b) ∧ oa_orderId_ o ∉ resting_ids b ∧
  (∀ side, Forall (λ x, 0 < entry_volume x) (side_list side b)) ∧ 0 < value (oa_volume_ o).

(** The listener on the order and its trades. *)
Lemma add_seen o b m : agrees (oa_ticker_ o) b m → order_followed o b →
  let l := side_list (opposite (oa_side_ o)) b in
  let m1 := apply_event (event_seen (EvAdd o)) m in
  fills_seen (oa_ticker_ o) (opposite (oa_side_ o)) (ticker_str (oa_ticker_ o)) (oa_side_ o)
    (value (oa_price_ o)) o l (spec_match o b) m1
    (apply_all (add_events o (spec_trades o b)) m).
Proof.
  intros Hag (Hnd & Hfresh & Hv & Hpos) l m1. unfold add_events, spec_trades.
  rewrite <-list_fmap_compose.
  change (apply_all (EvAdd o :: ?evs) m) with (apply_all evs m1).
  unfold spec_match. rewrite opposite_side_list.
  assert (value (oa_orderId_ o) ∉ entry_key <$> l) as Hkey.
  { intros (x & Hx & E)%elem_of_keys. apply Hfresh, elem_of_resting_ids.
    exists (opposite (oa_side_ o)), x. split; [done|]. by apply strong_eq. }
  apply apply_fills; [by apply NoDup_keys, NoDup_side|done|apply Hv| |].
  - destruct (Z.ltb_spec 0 (value (oa_volume_ o))); [|lia]. apply lookup_insert_eq.
  - intros x Hx. etrans; [apply lookup_insert_ne|by apply (ag_complete _ _ _ Hag)].
    intros E. apply Hkey, elem_of_keys. eauto.
Qed.

(** After the fills, an entry of the list is gone or is what the match left of it. *)
Lemma fills_seen_key crosses t s tk ts tp o l n m m' k :
  fills_seen t s tk ts tp o l (fill crosses l n) m m' → k ∈ entry_key <$> l →
  m' !! k = None ∨
  ∃ y, y ∈ fr_left (fill crosses l n) ∧ entry_key y = k ∧ m' !! k = Some (shown_as t s y).
Proof.
  intros (_ & Hl & Hf & _) (x & Hx & <-)%elem_of_keys.
  pose proof (list_elem_of_fmap_2 entry_id l x Hx) as Hid.
  pose proof (fill_ids crosses l n) as Hi. cbn zeta in Hi.
  rewrite Hi, elem_of_app in Hid. destruct Hid as [Hid|(y & E & Hy)%list_elem_of_fmap].
  - left. by apply (Hf (entry_id x)).
  - right. exists y. assert (entry_key y = entry_key x) as E' by (unfold entry_key; congruence).
    split_and!; [done..|]. rewrite <-E'. auto.
Qed.
(** An order keeps the agreement for its own instrument. *)
Lemma add_agrees_own o b m : agrees (oa_ticker_ o) b m → order_followed o b →
  agrees (oa_ticker_ o) (spec_add o b) (apply_all (add_events o (spec_trades o b)) m).
Proof.
  intros Hag Hfo. pose proof (add_seen o b m Hag Hfo) as Hseen. cbn zeta in Hseen.
  pose proof Hseen as (H1 & H2 & _ & H4). destruct Hfo as (Hnd & Hfresh & _ & _).
  set (m' := apply_all _ m) in *.
  assert (∀ side x, x ∈ side_list side b → entry_key x ≠ value (oa_orderId_ o)) as Hother.
  { intros side x Hx E. apply Hfresh, elem_of_resting_ids. exists side, x.
    split; [done|by apply strong_eq]. }
  split.
  - intros side x Hx. destruct (decide (side = oa_side_ o)) as [->|Hside].
    + apply spec_add_own in Hx as [Hx|[Hr ->]].
      * rewrite H4; [|by eapply Hother|].
        -- etrans; [apply lookup_insert_ne|by apply (ag_complete _ _ _ Hag)].
           intros E. by apply (Hother _ x Hx).
        -- intros (y & Hy & E)%elem_of_keys.
           apply (resting_ids_disjoint (oa_side_ o) b (entry_id x) Hnd).
           ++ by apply list_elem_of_fmap_2.
           ++ rewrite <-(strong_eq _ _ E). by apply list_elem_of_fmap_2.
      * apply Z.ltb_lt in Hr. by rewrite Hr in H1.
    + assert (side = opposite (oa_side_ o)) as -> by (by destruct side, (oa_side_ o)).
      rewrite spec_add_far_side in Hx. by apply H2.
  - intros k oo Hk Ht. destruct (decide (k = value (oa_orderId_ o))) as [->|Hne].
    { rewrite H1 in Hk. destruct (Z.ltb_spec 0 (fr_remaining (spec_match o b))); [|done].
      exists (oa_side_ o), (remainder o b). split; [|done]. apply spec_add_own. by right. }
    destruct (decide (k ∈ entry_key <$> side_list (opposite (oa_side_ o)) b)) as [Hin|Hout].
    + unfold spec_match in Hseen. rewrite opposite_side_list in Hseen.
      destruct (fills_seen_key _ _ _ _ _ _ _ _ _ _ _ _ Hseen Hin) as [E|(y & Hy & E & _)];
        [congruence|].
      exists (opposite (oa_side_ o)), y. split; [|done].
      rewrite spec_add_far_side. unfold spec_match. by rewrite opposite_side_list.
    + rewrite H4 in Hk by done. cbn [apply_event event_seen] in Hk.
      rewrite lookup_insert_ne in Hk by done.
      destruct (ag_sound _ _ _ Hag k oo Hk Ht) as (side & x & Hx & E).
      assert (side = oa_side_ o) as ->.
      { destruct (decide (side = oa_side_ o)); [done|]. destruct Hout.
        assert (side = opposite (oa_side_ o)) as -> by (by destruct side, (oa_side_ o)).
        apply elem_of_keys. eauto. }
      exists (oa_side_ o), x. split; [|done]. apply spec_add_own. by left.
Qed.

(** ... and for every other one. *)
Lemma add_agrees_other o b t2 b2 m : agrees (oa_ticker_ o) b m → order_followed o b →
  agrees t2 b2 m → t2 ≠ oa_ticker_ o → oa_orderId_ o ∉ resting_ids b2 →
  agrees t2 b2 (apply_all (add_events o (spec_trades o b)) m).
Proof.
  intros Hag Hfo Hag2 Hne Hfresh2. pose proof (add_seen o b m Hag Hfo) as Hseen. cbn zeta in Hseen.
  pose proof Hseen as (H1 & H2 & _ & H4). set (m' := apply_all _ m) in *.
  apply (agrees_frame t2 b2 m); [done| |].
  - intros side x Hx. assert (entry_key x ≠ value (oa_orderId_ o)) as Hkey.
    { intros E. apply Hfresh2, elem_of_resting_ids. exists side, x. split; [done|by apply strong_eq]. }
    rewrite H4; [by apply lookup_insert_ne|done|].
    intros (y & Hy & E)%elem_of_keys. apply Hne. symmetry.
    by eapply (agrees_distinct (oa_ticker_ o) t2 b b2 m).
  - intros k oo Hk Ht. destruct (decide (k = value (oa_orderId_ o))) as [->|Hk'].
    { rewrite H1 in Hk. destruct (0 <? _); [|done]. injection Hk as <-. cbn in Ht.
      by apply ticker_str_inj in Ht. }
    destruct (decide (k ∈ entry_key <$> side_list (opposite (oa_side_ o)) b)) as [Hin|Hout].
    + unfold spec_match in Hseen. rewrite opposite_side_list in Hseen.
      destruct (fills_seen_key _ _ _ _ _ _ _ _ _ _ _ _ Hseen Hin) as [E|(y & _ & _ & E)];
        [congruence|]. rewrite Hk in E. injection E as ->. cbn in Ht. by apply ticker_str_inj in Ht.
    + rewrite H4 in Hk by done. cbn [apply_event event_seen] in Hk.
      by rewrite lookup_insert_ne in Hk by done.
Qed.

(** An order the exchange ignores adds an entry for its unlisted ticker. *)
Lemma unlisted_add_agrees o t b m : agrees t b m → t ≠ oa_ticker_ o →
  oa_orderId_ o ∉ resting_ids b → agrees t b (apply_all (add_events o []) m).
Proof.
  intros Hag Hne Hfresh. apply (agrees_frame t b m); [done| |].
  - intros side x Hx. apply lookup_insert_ne. intros E. apply Hfresh, elem_of_resting_ids.
    exists side, x. split; [done|by apply strong_eq].
  - intros k oo Hk Ht. cbn in Hk. rewrite lookup_insert in Hk. case_decide; [|done].
    injection Hk as <-. cbn in Ht. by apply ticker_str_inj in Ht.
Qed.

(** A cancel of an order that does not rest here. *)
Lemma cancel_agrees_absent (c : OrderCancel Ticker) t b m : agrees t b m →
  oc_orderId_ c ∉ resting_ids b → agrees t b (apply_all [EvCancel c] m).
Proof.
  intros Hag Hno. apply (agrees_frame t b m); [done| |].
  - intros side x Hx. apply lookup_delete_ne. intros E. apply Hno, elem_of_resting_ids.
    exists side, x. split; [done|by apply strong_eq].
  - intros k oo Hk _. cbn in Hk. by apply lookup_delete_Some in Hk as [_ ?].
Qed.

(** The orders a cancel leaves. *)
Lemma elem_of_spec_remove loc id b side x : NoDup (resting_ids b) → located b id loc →
  x ∈ side_list side (spec_remove loc id b) ↔ x ∈ side_list side b ∧ entry_id x ≠ id.
Proof.
  intros Hnd Hloc.
  assert (x ∈ side_list side b → entry_id x = id → side = ol_side_ loc ∧ x.1 = ol_price_ loc) as Hx.
  { intros Hin <-. assert (located b (entry_id x) (mkLocation side x.1 (ro_userId_ x.2))) as Hl
      by (by apply (list_elem_of_fmap_2 ekey)).
    by rewrite <-(located_unique b _ _ _ Hnd Hl Hloc). }
  assert (x ∈ side_list side (spec_remove loc id b) ↔ x ∈ side_list side b ∧
    ¬ (side = ol_side_ loc ∧ x.1 = ol_price_ loc ∧ entry_id x = id)) as ->; [|naive_solver].
  unfold spec_remove, remove_at. destruct side, (ol_side_ loc); cbn [side_list ab_bids ab_asks];
    rewrite ?list_elem_of_filter; naive_solver.
Qed.

(** A cancel that the engine carries out. *)
Lemma cancel_agrees_own (c : OrderCancel Ticker) t loc b m : agrees t b m → NoDup (resting_ids b) →
  located b (oc_orderId_ c) loc →
  agrees t (spec_remove loc (oc_orderId_ c) b) (apply_all [EvCancel c] m).
Proof.
  intros Hag Hnd Hloc. split; cbn.
  - intros side x [Hx Hne]%elem_of_spec_remove; [|done..].
    rewrite lookup_delete_ne; [by apply (ag_complete _ _ _ Hag)|].
    intros E. by apply Hne, strong_eq.
  - intros k oo [Hk Hm]%lookup_delete_Some Ht.
    destruct (ag_sound _ _ _ Hag k oo Hm Ht) as (side & x & Hx & <-).
    exists side, x. split; [|done]. apply elem_of_spec_remove; [done..|].
    split; [done|]. intros E. apply Hk. unfold entry_key. by rewrite E.
Qed.
End Agreement.

(** ** Runs of commands *)

Section Sync.
Context {Ticker : Type} `{!TickerType Ticker} `{!TickerLaws Ticker}.
Context {Index : Type} `{!OrderIndexType Index} `{!OrderIndexLaws Index}.
Implicit Types (r : MatchingEngineRouter Index) (e : MatchingEngine Index)
  (cmd : InboundCommand Ticker) (cmds : list (InboundCommand Ticker)) (m : OpenOrders) (t : Ticker).

(** What a participant who follows the rules sends: orders of positive volume under
    new ids, and cancels that name the order's owner and instrument. *)
Definition added_id cmd : option OrderId :=
  match cmd with CmdAdd o => Some (oa_orderId_ o) | CmdCancel _ => None end.

Definition positive_order cmd : Prop :=
  match cmd with CmdAdd o => 0 < value (oa_volume_ o) | CmdCancel _ => True end.

Definition cancels_own (c : OrderCancel Ticker) cmd : Prop :=
  match cmd with
  | CmdAdd o => oa_orderId_ o = oc_orderId_ c →
      oa_userId_ o = oc_userId_ c ∧ oa_ticker_ o = oc_ticker_ c
  | CmdCancel _ => True
  end.

Definition well_behaved cmds : Prop :=
  NoDup (omap added_id cmds) ∧ Forall positive_order cmds ∧
  Forall (λ cmd, match cmd with
    | CmdAdd _ => True
    | CmdCancel c => Forall (cancels_own c) cmds
    end) cmds.

#[export] Instance well_behaved_dec cmds : Decision (well_behaved cmds).
Proof.
  assert (∀ cmd, Decision (positive_order cmd)) by (intros []; cbn; apply _).
  assert (∀ c cmd, Decision (cancels_own c cmd)) by (intros c []; cbn; apply _).
  unfold well_behaved. apply and_dec; [apply _|]. apply and_dec; [apply _|].
  apply Forall_dec. intros []; apply _.
Defined.

Lemma well_behaved_app cmds1 cmds2 : well_behaved (cmds1 ++ cmds2) → well_behaved cmds1.
Proof.
  intros (Hi & [Hp _]%Forall_app & [Hc _]%Forall_app). split_and!; [|done|].
  - rewrite omap_app in Hi. by apply NoDup_app in Hi as (? & _ & _).
  - eapply Forall_impl; [exact Hc|]. intros [o|c]; [done|]. by intros [? _]%Forall_app.
Qed.

(** The events the exchange publishes for a command that causes the trades [trs]. *)
Definition cmd_events cmd (trs : list (Trade Ticker)) : list (MarketEvent Ticker) :=
  match cmd with CmdAdd o => add_events o trs | CmdCancel c => [EvCancel c] end.

(** The resting order [x] of instrument [t] was sent by its owner. *)
Definition origin cmds t (x : Entry) : Prop :=
  ∃ o, CmdAdd o ∈ cmds ∧ oa_orderId_ o = entry_id x ∧ oa_userId_ o = ro_userId_ x.2 ∧
    oa_ticker_ o = t.

(** The listener's book [m] is that of the engines [r], which [cmds] led to. *)
Record in_sync cmds r m : Prop := {
  sy_router : router_ok (Ticker:=Ticker) r;
  sy_index t e : engine_for r t = Some e → index_ok e;
  sy_origin t e side x : engine_for r t = Some e → x ∈ side_list side (abs e) → origin cmds t x;
  sy_book t e : engine_for r t = Some e → agrees t (abs e) m;
}.

Lemma engine_for_init t e : engine_for (router_init (Ticker:=Ticker) (Index:=Index)) t = Some e →
  e = engine_init.
Proof. unfold engine_for. cbn. by intros [-> _]%lookup_replicate. Qed.

Lemma in_sync_init : in_sync [] (router_init (Ticker:=Ticker)) ∅.
Proof.
  split; [apply router_init_ok|..].
  - intros t e ->%engine_for_init. apply engine_init_index.
  - intros t e side x ->%engine_for_init Hx. destruct side; by apply elem_of_nil in Hx.
  - intros t e ->%engine_for_init. apply agrees_empty.
Qed.

(** A new order has the id of no resting one. *)
Lemma in_sync_fresh cmds o r m t e : in_sync cmds r m → well_behaved (cmds ++ [CmdAdd o]) →
  engine_for r t = Some e → oa_orderId_ o ∉ resting_ids (abs e).
Proof.
  intros Hs (Hnd & _ & _) He (side & x & Hx & E)%elem_of_resting_ids.
  destruct (sy_origin _ _ _ Hs t e side x He Hx) as (o' & Hin & Hid & _).
  rewrite omap_app in Hnd. eapply (NoDup_app_disjoint _ _ (oa_orderId_ o) Hnd); [|by left].
  apply list_elem_of_omap. exists (CmdAdd o'). split; [done|]. cbn. congruence.
Qed.

Lemma engine_good_volumes e side : engine_good e →
  Forall (λ x, 0 < entry_volume x) (side_list side (abs e)).
Proof. intros [([Hb Ha] & _) _]. destruct side; by eapply book_ok_volumes. Qed.

Lemma engine_for_good r t e : router_ok (Ticker:=Ticker) r → engine_for r t = Some e → engine_good e.
Proof. intros [_ Hall] He. by eapply Forall_lookup_1 in He. Qed.

Lemma engine_for_in r t e : router_ok (Ticker:=Ticker) r → engine_for r t = Some e →
  t ∈ (INSTRUMENTS : list Ticker).
Proof.
  intros [Hs _] He%lookup_lt_Some. rewrite Hs in He. by apply find_index_lt.
Qed.

Lemma origin_app cmds1 cmds2 t x : origin cmds1 t x → origin (cmds1 ++ cmds2) t x.
Proof. intros (o & Hin & Ho). exists o. split; [apply elem_of_app; by left|done]. Qed.

(** A command that no engine reacts to. *)
Lemma in_sync_same cmds cmd r m m' : in_sync cmds r m →
  (∀ t e, engine_for r t = Some e → agrees t (abs e) m') → in_sync (cmds ++ [cmd]) r m'.
Proof.
  intros Hs Hag. split; [apply Hs|apply Hs| |done].
  intros t e side x He Hx. by eapply origin_app, sy_origin.
Qed.

(** A command that changes one engine. *)
Lemma in_sync_insert cmds cmd r m m' t e e' : in_sync cmds r m → engine_for r t = Some e →
  engine_good e' → index_ok e' →
  (∀ side x, x ∈ side_list side (abs e') → origin (cmds ++ [cmd]) t x) →
  agrees t (abs e') m' →
  (∀ t2 e2, t2 ≠ t → engine_for r t2 = Some e2 → agrees t2 (abs e2) m') →
  in_sync (cmds ++ [cmd]) (mkRouter (<[TickerIndex t := e']> (engines_ r))) m'.
Proof.
  intros Hs He Hg Hi Ho Ha Hother. pose proof (sy_router _ _ _ Hs) as Hr.
  pose proof (engine_for_in r t e Hr He) as Hin.
  pose proof (λ t2, engine_for_insert r t e' t2 Hin (proj1 Hr)) as Hins.
  split.
  - split; [by apply router_sized_insert, Hr|]. apply Forall_insert; [apply Hr|done].
  - intros t2 e2. rewrite Hins. case_decide; [naive_solver|by eapply sy_index].
  - intros t2 e2 side x. rewrite Hins. case_decide as E; [naive_solver|].
    intros He2 Hx. by eapply origin_app, sy_origin.
  - intros t2 e2. rewrite Hins. case_decide as E; naive_solver.
Qed.

(** A command takes the engines from [r] to [r'] and calls the handler on [trs]. *)
Definition runs_as {H} (onTrade : Trade Ticker → H → Outcome H) cmd r r' trs : Prop :=
  match cmd with
  | CmdAdd o => ∀ h, router_OnOrderAdd onTrade o r h =
      (h' ← foldM onTrade trs h; Ok (r', h'))
  | CmdCancel c => router_OnOrderCancel c r = Ok r' ∧ trs = []
  end.

Lemma in_sync_typed cmds r m t e : in_sync cmds r m → Forall command_in_range cmds →
  engine_for r t = Some e → book_typed (abs e).
Proof.
  intros Hs Hc He. destruct (engine_for_good r t e (sy_router _ _ _ Hs) He) as [[Hb _] _].
  apply (book_typed_intro e Hb). intros side x Hx.
  destruct (sy_origin _ _ _ Hs t e side x He Hx) as (o & Hin & <- & <- & _).
  rewrite Forall_forall in Hc. by destruct (Hc _ Hin) as [(? & ? & _ & _) _].
Qed.

(** The trades of an order are events the feed can carry. *)
Lemma spec_trades_in_range o b : book_typed b → command_in_range (CmdAdd o) →
  Forall (λ tr, event_in_range (EvTrade tr)) (spec_trades o b).
Proof.
  intros Hb [Ho Ht]. pose proof (spec_trades_typed o b Hb Ho) as H.
  assert (Forall (λ tr, tr_ticker_ tr = oa_ticker_ o) (spec_trades o b)) as Htk
    by (by apply Forall_fmap, Forall_forall).
  rewrite !Forall_forall in *. intros tr Htr. destruct (H tr Htr) as (? & ? & ? & ? & ? & ?).
  cbn. rewrite (Htk tr Htr). by split_and!.
Qed.

(** An order. *)
Lemma in_sync_add {H} (onTrade : Trade Ticker → H → Outcome H) cmds o r m :
  in_sync cmds r m → cmd_ok (CmdAdd o) → well_behaved (cmds ++ [CmdAdd o]) →
  Forall command_in_range (cmds ++ [CmdAdd o]) →
  ∃ r' trs, runs_as onTrade (CmdAdd o) r r' trs ∧
    Forall (λ tr, event_in_range (EvTrade tr)) trs ∧
    in_sync (cmds ++ [CmdAdd o]) r' (apply_all (cmd_events (CmdAdd o) trs) m).
Proof.
  intros Hs Hc Hwb [Hrange Hro]%Forall_app. pose proof (sy_router _ _ _ Hs) as Hr.
  assert (0 < value (oa_volume_ o)) as Hpos
    by (destruct Hwb as (_ & [_ Hp]%Forall_app & _); exact (proj1 (Forall_singleton _ _) Hp)).
  destruct (decide (oa_ticker_ o ∈ (INSTRUMENTS : list Ticker))) as [Hin|Hno]; cycle 1.
  { exists r, []. split_and!; [|constructor|].
    { intros h. unfold router_OnOrderAdd. rewrite TickerIndex_listed by apply Hr.
      by rewrite bool_decide_eq_false_2. }
    apply (in_sync_same _ _ _ m); [done|]. intros t e He.
    apply unlisted_add_agrees; [by eapply sy_book| |by eapply in_sync_fresh].
    intros ->. by apply Hno, (engine_for_in r (oa_ticker_ o) e). }
  destruct (engine_for_listed r _ (proj1 Hr) Hin) as [e He].
  destruct (engine_for_good r _ e Hr He) as [Hok Hsm]. destruct Hc as [Ho Hp].
  destruct (OnOrderAdd_ok onTrade o e Hok Hsm Ho Hp) as (e' & Hok' & Hsm' & Habs & Hidx & HR).
  pose proof (in_sync_fresh _ _ _ _ _ _ Hs Hwb He) as Hfresh.
  assert (order_followed o (abs e)) as Hfo.
  { split_and!; [by eapply sy_index|done| |done]. intros side. by apply engine_good_volumes. }
  eexists _, (spec_trades o (abs e)).
  split_and!.
  { intros h. rewrite (router_OnOrderAdd_listed _ _ _ _ e), HR by done. by rewrite bind_assoc. }
  { apply spec_trades_in_range; [by eapply in_sync_typed|exact (proj1 (Forall_singleton _ _) Hro)]. }
  eapply in_sync_insert; [done..| | | |].
  - unfold index_ok. rewrite Habs, Hidx. apply add_index_indexes; [by eapply sy_index|done].
  - intros side x. rewrite Habs. intros [(y & Hy & E1 & E2)|[E1 E2]]%spec_add_elem.
    + destruct (sy_origin _ _ _ Hs _ _ _ _ He Hy) as (o' & Hin' & ? & ? & ?).
      exists o'. split_and!; [apply elem_of_app; by left|congruence..].
    + exists o. split_and!; [apply elem_of_app; right; by left|done..].
  - rewrite Habs. apply add_agrees_own; [by eapply sy_book|done].
  - intros t2 e2 Hne He2. apply add_agrees_other; [by eapply sy_book|done|by eapply sy_book|done|].
    by eapply in_sync_fresh.
Qed.

(** The cancelled order, if it rests anywhere, is the sender's and of this instrument. *)
Lemma in_sync_owner cmds c r m t e side x : in_sync cmds r m →
  well_behaved (cmds ++ [CmdCancel c]) → engine_for r t = Some e →
  x ∈ side_list side (abs e) → entry_id x = oc_orderId_ c →
  t = oc_ticker_ c ∧ ro_userId_ x.2 = oc_userId_ c.
Proof.
  intros Hs (_ & _ & [_ Hc]%Forall_app) He Hx E.
  destruct (sy_origin _ _ _ Hs t e side x He Hx) as (o & Hin & Hid & <- & <-).
  pose proof (proj1 (Forall_singleton _ _) Hc) as Hown. cbn in Hown.
  apply Forall_app in Hown as [Hown _]. rewrite Forall_forall in Hown.
  specialize (Hown _ Hin). cbn in Hown. destruct Hown; [congruence|done].
Qed.

(** A cancel. *)
Lemma in_sync_cancel cmds c r m : in_sync cmds r m → well_behaved (cmds ++ [CmdCancel c]) →
  ∃ r', router_OnOrderCancel c r = Ok r' ∧
    in_sync (cmds ++ [CmdCancel c]) r' (apply_all [EvCancel c] m).
Proof.
  intros Hs Hwb. pose proof (sy_router _ _ _ Hs) as Hr.
  assert (∀ t e, t ≠ oc_ticker_ c → engine_for r t = Some e → agrees t (abs e) (apply_all [EvCancel c] m))
    as Hother.
  { intros t e Hne He. apply cancel_agrees_absent; [by eapply sy_book|].
    intros (side & x & Hx & E)%elem_of_resting_ids.
    by destruct (in_sync_owner _ _ _ _ _ _ _ _ Hs Hwb He Hx E). }
  destruct (decide (oc_ticker_ c ∈ (INSTRUMENTS : list Ticker))) as [Hin|Hno]; cycle 1.
  { exists r. split.
    { unfold router_OnOrderCancel. rewrite TickerIndex_listed by apply Hr.
      by rewrite bool_decide_eq_false_2. }
    apply (in_sync_same _ _ _ m); [done|]. intros t e He. apply Hother; [|done].
    intros ->. by apply Hno, (engine_for_in r (oc_ticker_ c) e). }
  destruct (engine_for_listed r _ (proj1 Hr) Hin) as [e He].
  destruct (engine_for_good r _ e Hr He) as [Hok Hsm].
  pose proof (sy_index _ _ _ Hs _ _ He) as [Hnd Hix].
  rewrite (router_OnOrderCancel_listed _ _ e) by done. destruct (um_find (oc_orderId_ c) (orderIndex_ e)) as [loc|] eqn:Ef; cycle 1.
  - unfold OnOrderCancel. rewrite Ef. eexists. split; [done|].
    eapply in_sync_insert; [done..| | |done].
    + intros side x Hx. by eapply origin_app, sy_origin.
    + apply cancel_agrees_absent; [by eapply sy_book|].
      intros (side & x & Hx & E)%elem_of_resting_ids.
      assert (um_find (oc_orderId_ c) (orderIndex_ e) =
        Some (mkLocation side x.1 (ro_userId_ x.2))); [|congruence].
      apply Hix. rewrite <-E. by apply (list_elem_of_fmap_2 ekey).
  - pose proof Ef as Hloc%Hix. pose proof Hloc as Hkey.
    apply list_elem_of_fmap in Hkey as (x & [= E1 E2 E3] & Hx).
    destruct (in_sync_owner _ _ _ _ _ _ _ x Hs Hwb He Hx) as [_ Huser]; [done|].
    destruct (OnOrderCancel_accepted c e loc Hok Ef) as (e' & Hok' & Habs & Hidx & HC);
      [congruence|]. pose proof (spec_remove_small loc (oc_orderId_ c) (abs e) Hsm) as Hsm'.
    rewrite HC, decide_True by by apply prices_small_mid_fits.
    rewrite <-Habs in Hsm'. eexists. split; [done|].
    eapply in_sync_insert; [done..| | | |done].
    + unfold index_ok. rewrite Habs, Hidx. by apply spec_remove_indexes.
    + intros side y. rewrite Habs. intros [Hy _]%elem_of_spec_remove; [|done..].
      by eapply origin_app, sy_origin.
    + rewrite Habs. apply cancel_agrees_own; [by eapply sy_book|done..].
Qed.

Lemma in_sync_step {H} (onTrade : Trade Ticker → H → Outcome H) cmds cmd r m :
  in_sync cmds r m → cmd_ok cmd → well_behaved (cmds ++ [cmd]) →
  Forall command_in_range (cmds ++ [cmd]) →
  ∃ r' trs, runs_as onTrade cmd r r' trs ∧ Forall (λ tr, event_in_range (EvTrade tr)) trs ∧
    in_sync (cmds ++ [cmd]) r' (apply_all (cmd_events cmd trs) m).
Proof.
  destruct cmd as [o|c]; [by apply in_sync_add|]. intros Hs _ Hwb _.
  destruct (in_sync_cancel _ _ _ _ Hs Hwb) as (r' & HR & Hs'). by exists r', [].
Qed.
End Sync.
