(* ===== verification/ListenerView.v ===== *)
(** * What the listener prints

    If the listener's entries are the orders of an engine ([agrees]), the levels it
    computes are the levels of the engine's books and the rows it prints are the books:
    the asks from the worst to the best price, then the bids from the best to the
    worst, each with the volume of its level. *)

From Stdlib Require Import Strings.Byte Sorting.Sorted.
From stdpp Require Import gmap sorting.
From S2P Require Import Prelude Interfaces Double CoreTypes Seqlock FlatMap MatchingEngine BookSpec EngineRefinement EngineSpec EngineInvariant EngineIndex Bytes Wire Feed Listener ListenerSync.

Local Open Scope Z_scope.

(** ** The volume of a level *)

(** The total of a list of (price, volume) pairs at a price, as a dict would hold it. *)
Definition total_at (l : list (Z * Z)) (p : Z) : option Z :=
  match filter (λ pv, pv.1 = p) l with
  | [] => None
  | l' => Some (sumZ snd l')
  end.

Lemma total_at_cons p v l q :
  total_at ((p, v) :: l) q = if decide (p = q) then Some (v + default 0 (total_at l q)) else total_at l q.
Proof.
  unfold total_at. rewrite filter_cons. cbn [fst]. case_decide; [|done].
  cbn. destruct (filter _ l) as [|x l'] eqn:E; cbn; f_equal; lia.
Qed.

Lemma total_at_Permutation l1 l2 q : l1 ≡ₚ l2 → total_at l1 q = total_at l2 q.
Proof.
  intros Hp. unfold total_at. pose proof (filter_Permutation (λ pv : Z * Z, pv.1 = q) _ _ Hp) as H.
  destruct (filter _ l1) as [|x1 l1'].
  - apply Permutation_nil_l in H. by rewrite <-H.
  - destruct (filter _ l2) as [|x2 l2']; [by apply Permutation_nil_r in H|].
    f_equal. by apply sumZ_Permutation.
Qed.

(** The two dicts of [levels], over any list of orders. *)
Definition side_pairs (ticker : pystr) (s : Side) (l : list OpenOrder) : list (Z * Z) :=
  (λ o, (oo_price o, oo_volume o)) <$> filter (λ o, oo_ticker o = ticker ∧ oo_side o = s) l.

Lemma add_volume_lookup p v d q :
  add_volume p v d !! q = if decide (p = q) then Some (default 0 (d !! q) + v) else d !! q.
Proof. unfold add_volume. rewrite lookup_insert. by case_decide; subst. Qed.

Lemma side_pairs_cons ticker s o l :
  side_pairs ticker s (o :: l) =
  if decide (oo_ticker o = ticker ∧ oo_side o = s)
  then (oo_price o, oo_volume o) :: side_pairs ticker s l else side_pairs ticker s l.
Proof. unfold side_pairs. rewrite filter_cons. by case_decide. Qed.

(** The value [d] plus what the list adds at [q]. *)
Definition plus_total (d : option Z) (l : list (Z * Z)) (q : Z) : option Z :=
  match total_at l q with
  | None => d
  | Some v => Some (default 0 d + v)
  end.

Lemma levels_foldl ticker (l : list OpenOrder) acc q :
  (foldl (levels_step ticker) acc l).1 !! q = plus_total (acc.1 !! q) (side_pairs ticker Buy l) q ∧
  (foldl (levels_step ticker) acc l).2 !! q = plus_total (acc.2 !! q) (side_pairs ticker Sell l) q.
Proof.
  revert acc. induction l as [|o l IH]; intros acc; [done|]. cbn [foldl].
  destruct (IH (levels_step ticker acc o)) as [-> ->]. rewrite !side_pairs_cons.
  unfold levels_step. destruct (decide (oo_ticker o = ticker)) as [Et|Et]; cycle 1.
  { by rewrite !decide_False by tauto. }
  destruct (oo_side o) eqn:Es; cbn [fst snd].
  - rewrite decide_True, decide_False by (done || by intros []). split; [|done].
    unfold plus_total. rewrite total_at_cons, add_volume_lookup.
    case_decide; [|done]. destruct (total_at _ q); cbn; f_equal; lia.
  - rewrite decide_False, decide_True by (done || by intros []). split; [done|].
    unfold plus_total. rewrite total_at_cons, add_volume_lookup.
    case_decide; [|done]. destruct (total_at _ q); cbn; f_equal; lia.
Qed.

Definition side_levels (s : Side) (d : gmap Z Z * gmap Z Z) : gmap Z Z :=
  match s with Buy => d.1 | Sell => d.2 end.

Lemma levels_lookup ticker book s q :
  side_levels s (levels ticker book) !! q = total_at (side_pairs ticker s (map_to_list book).*2) q.
Proof.
  destruct (levels_foldl ticker (map_to_list book).*2 (∅, ∅) q) as [H1 H2].
  cbn [fst snd] in H1, H2. unfold levels. destruct s; cbn [side_levels]; [rewrite H1|rewrite H2]; unfold plus_total;
    rewrite lookup_empty; by destruct (total_at _ q).
Qed.

(** ** The levels of an engine's book *)

Definition level_pair (kl : Price * PriceLevel) : Z * Z :=
  (value kl.1, sumZ (λ r, value (ro_volume_ r)) kl.2).

Definition entry_pair (x : Entry) : Z * Z := (value x.1, entry_volume x).

Lemma total_at_app_level p (level : PriceLevel) l q :
  total_at ((entry_pair <$> (pair p <$> level)) ++ l) q =
  if decide (value p = q ∧ level ≠ [])
  then Some (sumZ (λ r, value (ro_volume_ r)) level + default 0 (total_at l q)) else total_at l q.
Proof.
  induction level as [|r level IH]; [by rewrite decide_False by tauto|].
  rewrite !fmap_cons. cbn [app]. change (entry_pair (p, r)) with (value p, value (ro_volume_ r)).
  rewrite total_at_cons, IH. destruct (decide (value p = q)) as [E|E]; cycle 1.
  { by rewrite !decide_False by tauto. }
  rewrite (decide_True (P := value p = q ∧ r :: level ≠ [])) by done. rewrite sumZ_cons.
  case_decide as Hl; cbn [default]; f_equal.
  - cbn [default id]. lia.
  - destruct level; [|by destruct Hl]. cbn [sumZ foldr]. lia.
Qed.

Section BookLevels.
Context (comp : Price → Price → bool) `{!PriceOrder comp}.

Lemma before_ne p (book : Book) : fm_before comp p book → value p ∉ (level_pair <$> book).*1.
Proof.
  intros Hb Hin. apply list_elem_of_fmap in Hin as ([q v] & E & Hin).
  apply list_elem_of_fmap in Hin as ([p' level] & [= -> ->] & Hin). cbn in E.
  unfold fm_before in Hb. rewrite Forall_forall in Hb. specialize (Hb _ Hin). cbn in Hb.
  apply strong_eq in E. subst p'. by rewrite po_irrefl in Hb.
Qed.

Lemma level_pairs_NoDup (book : Book) : fm_sorted comp book → NoDup (level_pair <$> book).*1.
Proof.
  induction book as [|[p level] book IH]; [constructor|]. intros [Hb Hs].
  rewrite !fmap_cons. constructor; [by apply before_ne|auto].
Qed.

(** The volume at a price of the flattened book is that of its level. *)
Lemma total_at_book (book : Book) q v : book_ok comp book →
  total_at (entry_pair <$> flatten book) q = Some v ↔ (q, v) ∈ level_pair <$> book.
Proof.
  revert q v. induction book as [|[p level] book IH]; [intros q v _; cbn; set_solver|].
  intros q v (Hb & (_ & Hne & _) & Hok)%book_ok_cons. specialize (λ q v, IH q v Hok).
  rewrite flatten_cons, fmap_app, total_at_app_level, fmap_cons, elem_of_cons. cbn in Hne.
  assert (∀ w, (value p, w) ∈ level_pair <$> book → False) as Hnew.
  { intros w Hw. apply (before_ne p book Hb). by apply (list_elem_of_fmap_2 fst) in Hw. }
  case_decide as Hq.
  - destruct Hq as [<- _]. destruct (total_at (entry_pair <$> flatten book) (value p)) as [w|] eqn:E.
    { exfalso. by eapply Hnew, IH. }
    cbn. rewrite Z.add_0_r. unfold level_pair at 1. cbn. split; [intros [= <-]; by left|].
    intros [[= ->]|Hw]; [done|by apply Hnew in Hw].
  - rewrite IH. split; [by right|]. intros [[= -> ->]|?]; [by destruct Hq|done].
Qed.
End BookLevels.

(** ** The rows *)

#[local] Instance Z_ge_antisymm : AntiSymm (=) Z.ge.
Proof. intros x y ? ?. lia. Qed.
#[local] Instance Z_ge_trans : Transitive Z.ge.
Proof. intros x y z ? ?. lia. Qed.
#[local] Instance Z_ge_total : Total Z.ge.
Proof. intros x y. lia. Qed.

Lemma sorted_reverse_spec (d : gmap Z Z) (l : list (Z * Z)) :
  StronglySorted Z.ge l.*1 → NoDup l.*1 → (∀ p v, d !! p = Some v ↔ (p, v) ∈ l) →
  sorted_reverse d = l.
Proof.
  intros Hs Hnd Hd. assert (d = list_to_map l) as ->.
  { apply map_eq. intros p. apply option_eq. intros v. rewrite Hd. by apply elem_of_list_to_map. }
  unfold sorted_reverse.
  assert (merge_sort Z.ge (map_to_list (list_to_map l : gmap Z Z)).*1 = l.*1) as ->.
  { apply (StronglySorted_unique Z.ge); [|done|].
    - apply (StronglySorted_merge_sort Z.ge).
    - rewrite merge_sort_Permutation, map_to_list_to_map by done. done. }
  rewrite <-list_fmap_compose. rewrite <-(list_fmap_id l) at 2.
  apply list_fmap_ext. intros i [p v] Hi. cbn. f_equal.
  apply lookup_total_correct, elem_of_list_to_map; [done|]. by eapply list_elem_of_lookup_2.
Qed.

Section Rows.
Context {Ticker : Type} `{!TickerType Ticker} `{!TickerLaws Ticker}.
Context {Index : Type} `{!OrderIndexType Index}.
Implicit Types (b : AbstractBook) (e : MatchingEngine Index) (m : OpenOrders) (t : Ticker).

(** The orders of one side, as the listener holds them. *)
Lemma agrees_side t b m s : agrees t b m → NoDup (resting_ids b) →
  side_pairs (ticker_str t) s (map_to_list m).*2 ≡ₚ entry_pair <$> side_list s b.
Proof.
  intros Hag Hnd. unfold side_pairs.
  rewrite filter_fmap.
  assert (filter (λ kv : Z * OpenOrder, oo_ticker kv.2 = ticker_str t ∧ oo_side kv.2 = s)
      (map_to_list m) ≡ₚ (λ x, (entry_key x, shown_as t s x)) <$> side_list s b) as ->.
  { apply NoDup_Permutation.
    - apply NoDup_filter, NoDup_map_to_list.
    - apply (NoDup_fmap_1 fst). rewrite <-list_fmap_compose. by apply NoDup_keys, NoDup_side.
    - intros [k oo]. rewrite list_elem_of_filter, elem_of_map_to_list, list_elem_of_fmap. split.
      + intros [[Ht Hs] Hm]. destruct (ag_sound _ _ _ Hag k oo Hm Ht) as (s' & x & Hx & <-).
        pose proof (ag_complete _ _ _ Hag _ _ Hx) as E. rewrite Hm in E. injection E as ->.
        cbn in Hs. subst s'. eauto.
      + intros (x & [= -> ->] & Hx). split; [done|]. by apply (ag_complete _ _ _ Hag). }
  by rewrite <-!list_fmap_compose.
Qed.

Lemma agrees_level t e m s p v : agrees t (abs e) m → NoDup (resting_ids (abs e)) → books_ok e →
  side_levels s (levels (ticker_str t) m) !! p = Some v ↔
  (p, v) ∈ level_pair <$> match s with Buy => bids_ e | Sell => asks_ e end.
Proof.
  intros Hag Hnd [Hb Ha]. rewrite levels_lookup, (total_at_Permutation _ _ _ (agrees_side t _ m s Hag Hnd)).
  destruct s; cbn [side_list abs ab_bids ab_asks];
    [by apply (total_at_book bids_comp)|by apply (total_at_book asks_comp)].
Qed.

(** The rows of a book: asks from the worst to the best, then bids from the best. *)
Definition book_rows t e : list Row :=
  RowTicker (ticker_str t) ::
  match bids_ e, asks_ e with
  | [], [] => [RowEmpty]
  | bids, asks =>
      ((λ '(p, v), RowAsk p v) <$> reverse (level_pair <$> asks)) ++
      match bids, asks with _ :: _, _ :: _ => [RowSpread] | _, _ => [] end ++
      ((λ '(p, v), RowBid p v) <$> (level_pair <$> bids))
  end.

Lemma bids_ge (book : Book) : fm_sorted bids_comp book → StronglySorted Z.ge (level_pair <$> book).*1.
Proof.
  induction book as [|[p level] book IH]; [constructor|]. intros [Hb Hs].
  rewrite !fmap_cons. constructor; [auto|]. rewrite !Forall_fmap.
  eapply Forall_impl; [exact Hb|]. intros [q l] H. change (value p >= value q). change (st_gtb p q = true) in H. strong.
  zbool; done || lia.
Qed.

Lemma StronglySorted_snoc {A} (R : A → A → Prop) l x :
  StronglySorted R l → Forall (λ y, R y x) l → StronglySorted R (l ++ [x]).
Proof.
  induction 1 as [|y l Hs IH Hy]; intros Hx; cbn; [by repeat constructor|].
  apply Forall_cons in Hx as [Hyx Hx]. constructor; [auto|].
  apply Forall_app. split; [done|by apply Forall_singleton].
Qed.

Lemma asks_ge (book : Book) :
  fm_sorted asks_comp book → StronglySorted Z.ge (reverse (level_pair <$> book)).*1.
Proof.
  induction book as [|[p level] book IH]; [constructor|]. intros [Hb Hs].
  rewrite fmap_cons, reverse_cons, fmap_app. apply StronglySorted_snoc; [auto|].
  apply Forall_fmap, Forall_reverse, Forall_fmap. eapply Forall_impl; [exact Hb|].
  intros [q l] H. change (value q >= value p). change (st_ltb p q = true) in H. strong.
  zbool; done || lia.
Qed.

Lemma agrees_bids t e m : agrees t (abs e) m → NoDup (resting_ids (abs e)) → books_ok e →
  sorted_reverse (levels (ticker_str t) m).1 = level_pair <$> bids_ e.
Proof.
  intros Hag Hnd Hb. apply sorted_reverse_spec; [apply bids_ge, Hb| |].
  - apply (level_pairs_NoDup bids_comp), Hb.
  - intros p v. by apply (agrees_level t e m Buy).
Qed.

Lemma agrees_asks t e m : agrees t (abs e) m → NoDup (resting_ids (abs e)) → books_ok e →
  sorted_reverse (levels (ticker_str t) m).2 = reverse (level_pair <$> asks_ e).
Proof.
  intros Hag Hnd Hb. apply sorted_reverse_spec; [apply asks_ge, Hb| |].
  - rewrite fmap_reverse, reverse_Permutation. apply (level_pairs_NoDup asks_comp), Hb.
  - intros p v. rewrite elem_of_reverse. by apply (agrees_level t e m Sell).
Qed.

Lemma fmap_nil_iff {A B} (f : A → B) l : f <$> l = [] ↔ l = [].
Proof. split; [apply fmap_nil_inv|by intros ->]. Qed.

(** A dict is empty when its sorted rows are. *)
Lemma sorted_reverse_nil (d : gmap Z Z) : sorted_reverse d = [] ↔ d = ∅.
Proof.
  unfold sorted_reverse. split; [|by intros ->].
  intros H%fmap_nil_inv. apply map_to_list_empty_iff. apply (fmap_nil_inv fst).
  apply Permutation_nil_r. by rewrite <-(merge_sort_Permutation Z.ge), H.
Qed.

(** The rows printed for an instrument are its book. *)
Lemma agrees_snapshot t e m : agrees t (abs e) m → NoDup (resting_ids (abs e)) → books_ok e →
  snapshot_of (ticker_str t) m = book_rows t e.
Proof.
  intros Hag Hnd Hb. pose proof (agrees_bids t e m Hag Hnd Hb) as Hbids.
  pose proof (agrees_asks t e m Hag Hnd Hb) as Hasks. unfold snapshot_of, book_rows.
  destruct (levels (ticker_str t) m) as [bids asks]. cbn [fst snd] in *.
  assert (bids = ∅ ↔ bids_ e = []) as Eb.
  { by rewrite <-sorted_reverse_nil, Hbids, fmap_nil_iff. }
  assert (asks = ∅ ↔ asks_ e = []) as Ea.
  { rewrite <-sorted_reverse_nil, Hasks, <-fmap_reverse, fmap_nil_iff.
    split; [|by intros ->]. intros H. by rewrite <-(reverse_involutive (asks_ e)), H. }
  rewrite Hbids, Hasks. f_equal.
  destruct (bids_ e), (asks_ e); cbn zeta.
  - by rewrite decide_True by naive_solver.
  - by rewrite !decide_False by naive_solver.
  - by rewrite !decide_False by naive_solver.
  - by rewrite decide_False, decide_True by naive_solver.
Qed.
End Rows.
