(* ===== verification/ListenerTheorems.v ===== *)
(** * The listener follows the exchange

    A listener that receives what the exchange publishes holds the exchange's books and
    prints them, as long as participants follow the rules; and what happens when they
    do not. *)

From Stdlib Require Import Strings.Byte Strings.String.
From stdpp Require Import gmap.
From S2P Require Import Prelude Interfaces Double CoreTypes Seqlock FlatMap MatchingEngine BookSpec EngineRefinement EngineSpec EngineInvariant EngineIndex Concrete EngineTheorems Router User Accounting Registry Settlement Bytes Wire Feed Listener Queues Pipeline PipelineInvariant EndToEnd ListenerSync ListenerView PipelineTheorems.

Local Open Scope Z_scope.

Section Runs.
Context {Ticker : Type} `{!TickerType Ticker} `{!TickerLaws Ticker}.
Context {Index : Type} `{!OrderIndexType Index} `{!OrderIndexLaws Index}.
Context (msg0 : list byte) (Hmsg0 : length msg0 = sizeof_WireMarketDataMessage).
Implicit Types (r : MatchingEngineRouter Index) (cmd : InboundCommand Ticker)
  (cmds : list (InboundCommand Ticker)) (m : OpenOrders).

(** The rules, with every field in range and prices within 2^62, so that every mid price
    is defined. *)
Definition followable cmds : Prop :=
  well_behaved cmds ∧ Forall cmd_ok cmds ∧ Forall command_in_range cmds.

(** The matching engine thread publishes the events of the command. *)
Lemma ProcessCommand_events cmd r r' trs : runs_as (push_trade msg0 (Index:=Index)) cmd r r' trs →
  ∃ acts, ProcessCommand msg0 cmd r = Ok acts ∧ router_after r acts = r' ∧
    md_of acts = encode_event msg0 <$> cmd_events cmd trs.
Proof.
  destruct cmd as [o|c]; cbn [runs_as ProcessCommand].
  - intros HR.
    change (λ trade acts, Ok (acts ++ [PushMarketData (EncodeTradeEvent msg0 trade); PushTrade trade]))
      with (push_trade msg0 (Ticker:=Ticker) (Index:=Index)).
    rewrite HR, foldM_push_trade. eexists. split; [done|].
    split; [unfold router_after; by rewrite foldl_app|].
    unfold md_of. rewrite !omap_app. fold (md_of (trade_acts msg0 trs : list (Action Ticker Index))).
    rewrite md_of_trade_acts. cbn. by rewrite app_nil_r.
  - intros [-> ->]. by eexists.
Qed.

(** The listener applies the events it is sent. *)
Lemma foldM_on_datagram (evs : list (MarketEvent Ticker)) m : Forall event_in_range evs →
  foldM on_datagram (encode_event msg0 <$> evs) m = Ok (apply_all evs m).
Proof.
  intros H. revert m. induction H as [|ev evs Hev _ IH]; intros m; [done|]. cbn [fmap list_fmap foldM].
  unfold on_datagram. rewrite decode_encode_event by done. apply IH.
Qed.

Lemma cmd_events_in_range cmd trs : command_in_range cmd →
  Forall (λ tr, event_in_range (EvTrade tr)) trs → Forall event_in_range (cmd_events cmd trs).
Proof.
  intros Hc Ht. destruct cmd as [o|c]; cbn; [|by apply Forall_singleton].
  constructor; [done|]. by apply Forall_fmap.
Qed.

Lemma followable_snoc cmds cmd : followable (cmds ++ [cmd]) →
  followable cmds ∧ cmd_ok cmd ∧ command_in_range cmd.
Proof.
  intros (Hw & [Ho Ho1]%Forall_app & [Hr Hr1]%Forall_app).
  split_and!; [split_and!; [by eapply well_behaved_app|done..]|by apply Forall_singleton..].
Qed.

(** The sequential exchange and a listener that receives everything. *)
Lemma seq_run_in_sync cmds : followable cmds →
  ∃ r mds trs m, seq_run msg0 cmds = Ok (r, mds, trs) ∧ listen mds = Ok m ∧ in_sync cmds r m.
Proof.
  induction cmds as [|cmd cmds IH] using rev_ind; intros Hf.
  { exists (router_init (Ticker:=Ticker)), [], [], ∅. split_and!; [done..|apply in_sync_init]. }
  pose proof (followable_snoc _ _ Hf) as (Hf1 & Hok & Hr). destruct Hf as (Hwb & _ & Hrange).
  destruct (IH Hf1) as (r & mds & trs & m & HR & HL & Hs).
  destruct (in_sync_step (push_trade msg0 (Index:=Index)) cmds cmd r m Hs Hok Hwb Hrange)
    as (r' & new & Hrun & Hnew & Hs').
  destruct (ProcessCommand_events cmd r r' new Hrun) as (acts & HP & <- & Hmd).
  rewrite seq_run_snoc, HR. cbn [mbind Outcome_bind seq_step]. rewrite HP.
  eexists _, _, _, _. split; [done|]. split; [|exact Hs'].
  unfold listen in *. rewrite foldM_app, HL, Hmd. cbn [mbind Outcome_bind].
  by apply foldM_on_datagram, cmd_events_in_range.
Qed.

(** The rows of all books. *)
Definition all_rows r : list Row :=
  (INSTRUMENTS : list Ticker) ≫= λ t,
    match engine_for r t with Some e => book_rows t e | None => [] end.

Lemma py_INSTRUMENTS_str : py_INSTRUMENTS = ticker_str <$> (INSTRUMENTS : list Ticker).
Proof.
  unfold py_INSTRUMENTS, ticker_str.
  transitivity (fmap (M:=list) byte_to_Z <$> map ss_data (INSTRUMENTS : list Ticker)).
  - by rewrite INSTRUMENTS_data.
  - change (map ss_data (INSTRUMENTS : list Ticker)) with (ss_data <$> (INSTRUMENTS : list Ticker)).
    by rewrite <-list_fmap_compose.
Qed.

Lemma in_sync_snapshot cmds r m : in_sync cmds r m → print_snapshot m = all_rows r.
Proof.
  intros Hs. unfold print_snapshot, all_rows. rewrite py_INSTRUMENTS_str, list_fmap_bind.
  pose proof (sy_router _ _ _ Hs) as Hr. apply Forall_bind_ext, Forall_forall.
  intros t Ht. destruct (engine_for_listed r t (proj1 Hr) Ht) as [e He].
  cbn [compose]. rewrite He. apply agrees_snapshot; [by eapply sy_book|by eapply sy_index|].
  by destruct (engine_for_good r t e Hr He) as [[? _] _].
Qed.
End Runs.

(** Everything the process [s] has produced is published: the engine is between commands,
    and the market data queue and the publisher's hands are empty. *)
Definition caught_up {Ticker Index Inv Qi Qm Qt} `{!MarketDataQueue Qm}
    (s : Pipeline Ticker Index Inv Qi Qm Qt) : Prop :=
  engine_acts (en_pc (matchingThread s)) = [] ∧
  publisher_hand (pb_pc (marketDataThread s)) = [] ∧ q_contents (marketDataQueue s) = [].

(** Then a listener that received all of it is in step with the engines. *)
Lemma published_in_sync {Ticker Index D Inv Qi Qm Qt} `{!TickerType Ticker}
    `{!TickerLaws Ticker} `{!OrderIndexType Index} `{!OrderIndexLaws Index}
    `{!DoubleOps D} `{!InventoryMap Ticker D Inv}
    `{!InboundQueue Ticker Qi} `{!MarketDataQueue Qm} `{!TradeQueue Ticker Qt} {cap : nat}
    `{!SpscQueueLaws cap (InboundCommand Ticker) Qi} `{!SpscQueueLaws cap (list byte) Qm}
    `{!SpscQueueLaws cap (Trade Ticker) Qt} (msg0 : list byte)
    (s : Pipeline Ticker Index Inv Qi Qm Qt) :
  length msg0 = sizeof_WireMarketDataMessage → reachable msg0 s → caught_up s →
  followable (en_processed (matchingThread s)) →
  ∃ m, listen (pb_published (marketDataThread s)) = Ok m ∧
    in_sync (en_processed (matchingThread s)) (en_router (matchingThread s)) m.
Proof.
  intros Hlen Hr (Ha & Hp & Hq) Hf.
  destruct (process_inv_reachable msg0 s Hr) as (_ & (r & mds & trs & HR & -> & -> & _) & _).
  destruct (seq_run_in_sync (Index:=Index) msg0 Hlen _ Hf) as (r1 & mds1 & trs1 & m & HR1 & HL & Hs).
  rewrite HR1 in HR. injection HR as -> -> _. rewrite Ha, Hp, Hq in HL. cbn in HL.
  rewrite !app_nil_r in HL. rewrite Ha in Hs. by exists m.
Qed.

(** ** Properties *)

(** C4: The listener shows the exchange's books.  Take any reachable state of the process
    in which everything produced has been published: the engine is between commands and
    the market data queue and the publisher's hands are empty.  If the participants
    followed the rules (orders of positive volume under new ids, cancels that name the
    order's owner and instrument, fields of 64 bits with plain tickers, prices within
    [-2^62, 2^62)), then a listener that received all
    published datagrams decodes every one, its entries for each instrument are exactly
    the resting orders with their side, price and remaining volume, and the snapshot it
    prints is, instrument by instrument, the books of the engines: the asks from the
    worst to the best price, then the bids from the best to the worst, each level with
    its total volume. *)
Theorem listener_shows_the_books {Ticker Index D Inv Qi Qm Qt} `{!TickerType Ticker}
    `{!TickerLaws Ticker} `{!OrderIndexType Index} `{!OrderIndexLaws Index}
    `{!DoubleOps D} `{!InventoryMap Ticker D Inv}
    `{!InboundQueue Ticker Qi} `{!MarketDataQueue Qm} `{!TradeQueue Ticker Qt} {cap : nat}
    `{!SpscQueueLaws cap (InboundCommand Ticker) Qi} `{!SpscQueueLaws cap (list byte) Qm}
    `{!SpscQueueLaws cap (Trade Ticker) Qt} (msg0 : list byte)
    (s : Pipeline Ticker Index Inv Qi Qm Qt) :
  length msg0 = sizeof_WireMarketDataMessage → reachable msg0 s → caught_up s →
  followable (en_processed (matchingThread s)) →
  ∃ m, listen (pb_published (marketDataThread s)) = Ok m ∧
    (∀ (t : Ticker) e, engine_for (en_router (matchingThread s)) t = Some e → agrees t (abs e) m) ∧
    print_snapshot m = all_rows (Ticker:=Ticker) (en_router (matchingThread s)).
Proof.
  intros Hlen Hr Hq Hf. destruct (published_in_sync msg0 s Hlen Hr Hq Hf) as (m & HL & Hs).
  exists m. split; [done|]. split; [apply Hs|by apply (in_sync_snapshot _ _ _ Hs)].
Qed.

(** Two asks at different prices, a bid that takes one of them and a part of the other,
    a bid below, a cancel; everything published. *)
Definition followed_cmds : list (InboundCommand CTicker) :=
  [CmdAdd (add 1 1 AAPL Sell 100 10); CmdAdd (add 2 2 AAPL Sell 101 10);
   CmdAdd (add 3 3 AAPL Buy 101 14); CmdAdd (add 4 4 AAPL Buy 99 5);
   CmdAdd (add 5 5 GOOG Buy 50 1); CmdCancel (cancel 4 4 AAPL)].

Definition followed_moves : list (Move CTicker) :=
  (MvGateway <$> followed_cmds) ++ replicate 40 MvEngine ++ replicate 20 (MvPublisher true).

Lemma GOOG_plain : ticker_plain GOOG.
Proof. split; [|repeat constructor]. by apply (bool_decide_unpack _). Qed.

Lemma followed_cmds_ok : followable followed_cmds.
Proof.
  split_and!; [by apply (bool_decide_unpack _)..|].
  repeat (apply Forall_cons; split);
    [(split_and!; [by apply (bool_decide_unpack _)..|first [apply AAPL_plain|apply GOOG_plain]])..|].
  constructor.
Qed.

Lemma followed_reachable : reachable zeros (after_moves followed_moves) ∧
  summary (after_moves followed_moves) = (MainWaiting, 0, 0, 2)%nat.
Proof. apply run_summary. vm_compute. reflexivity. Qed.

Lemma followed_processed :
  en_processed (matchingThread (after_moves followed_moves)) = followed_cmds.
Proof. vm_compute. reflexivity. Qed.

Lemma listener_shows_the_books_witness :
  let s := after_moves followed_moves in
  (∃ m, listen (pb_published (marketDataThread s)) = Ok m ∧
    (∀ (t : CTicker) e, engine_for (en_router (matchingThread s)) t = Some e → agrees t (abs e) m) ∧
    print_snapshot m = all_rows (Ticker:=CTicker) (en_router (matchingThread s))) ∧
  book_rows AAPL (ok_or engine_init (engine_at (en_router (matchingThread s)) 0)) =
    [RowTicker (ticker_str AAPL); RowAsk 101 6].
Proof.
  intros s. split; [|vm_compute; reflexivity].
  apply (listener_shows_the_books (cap:=QUEUE_CAPACITY) zeros s);
    [reflexivity|apply followed_reachable|split_and!; vm_compute; reflexivity|].
  unfold s. rewrite followed_processed. apply followed_cmds_ok.
Defined.



(** An order without volume stays on the listener's screen.  An order whose volume is
    not positive trades nothing and does not rest, so the books are as before; but it is
    published as an order, and the listener keeps it, at its price, as a resting order
    of the instrument (until somebody sends a cancel for its id). *)
Theorem empty_order_misleads_listener {Ticker Index} `{!TickerType Ticker} `{!TickerLaws Ticker}
    `{!OrderIndexType Index} (msg0 : list byte) (o : OrderAdd Ticker)
    (r : MatchingEngineRouter Index) e m :
  length msg0 = sizeof_WireMarketDataMessage → event_in_range (EvAdd o) →
  engine_for r (oa_ticker_ o) = Some e → engine_good e → price_small (oa_price_ o) →
  value (oa_volume_ o) ≤ 0 →
  ∃ data r' e' m', ProcessCommand msg0 (CmdAdd o) r = Ok [PushMarketData data; Publish r'] ∧
    engine_for r' (oa_ticker_ o) = Some e' ∧ abs e' = abs e ∧
    on_datagram data m = Ok m' ∧
    m' !! value (oa_orderId_ o) = Some (mkOpenOrder (ticker_str (oa_ticker_ o)) (oa_side_ o)
      (value (oa_price_ o)) (value (oa_volume_ o))).
Proof.
  intros Hlen Hev He [Hok Hs] Hp Hv. cbn [ProcessCommand].
  change (λ trade acts, Ok (acts ++ [PushMarketData (EncodeTradeEvent msg0 trade); PushTrade trade]))
    with (push_trade msg0 (Ticker:=Ticker) (Index:=Index)).
  destruct (OnOrderAdd_ok (push_trade msg0 (Index:=Index)) o e Hok Hs (proj1 Hev) Hp)
    as (e' & _ & _ & Habs & _ & HR).
  assert (spec_match o (abs e) = mkFillResult [] [] (opposite_side (oa_side_ o) (abs e))
    (value (oa_volume_ o))) as Hm by (by apply fill_stop).
  rewrite (router_OnOrderAdd_listed _ o r _ e He), HR. unfold spec_trades. rewrite Hm.
  eexists _, _, e', _. split; [done|]. split; [|split].
  - apply list_lookup_insert_eq. by apply lookup_lt_Some in He.
  - rewrite Habs. unfold spec_add, rest_remainder. rewrite Hm. cbn [fr_remaining fr_left].
    destruct (Z.ltb_spec 0 (value (oa_volume_ o))); [lia|]. by destruct (oa_side_ o).
  - unfold on_datagram. change (EncodeOrderAddEvent msg0 o) with (encode_event msg0 (EvAdd o)).
    rewrite (decode_encode_event msg0 (EvAdd o) Hlen Hev). split; [done|]. apply lookup_insert_eq.
Qed.

(** An order for nothing at 100 on an empty book. *)
Lemma empty_order_misleads_listener_witness :
  let o := add 7 1 AAPL Buy 100 0 in
  let r := mkRouter [engine_init (Index:=CIndex)] in
  ∃ data r' e' m', ProcessCommand zeros (CmdAdd o) r = Ok [PushMarketData data; Publish r'] ∧
    engine_for r' AAPL = Some e' ∧ abs e' = mkAbstract [] [] ∧ on_datagram data ∅ = Ok m' ∧
    m' !! 7 = Some (mkOpenOrder (ticker_str AAPL) Buy 100 0).
Proof.
  intros o r. apply (empty_order_misleads_listener zeros o r engine_init ∅).
  - reflexivity.
  - split; [by apply (bool_decide_unpack _)|apply AAPL_plain].
  - vm_compute. reflexivity.
  - split; [apply engine_init_ok|constructor].
  - by apply (bool_decide_unpack _).
  - by apply (bool_decide_unpack _).
Defined.
