(* ===== verification/Startup.v ===== *)
(** * The start of main (exchange/main.cpp)

    Before it constructs anything, main sets up the logger and installs the handler of
    SIGINT and SIGTERM; a signal may arrive at any point.  The threads of Pipeline.v start
    from what is left of this: a request to shut down that came early is not forgotten. *)

From Stdlib Require Import Strings.Byte Strings.String.
From stdpp Require Import gmap.
From S2P Require Import Prelude Interfaces Double CoreTypes Seqlock FlatMap MatchingEngine BookSpec EngineRefinement EngineSpec EngineInvariant EngineIndex Concrete EngineTheorems MidPrice Router User Accounting Registry Settlement Bytes Wire Feed Queues Pipeline PipelineInvariant EndToEnd PipelineTheorems.

Local Open Scope Z_scope.

(** ** The logger *)

(** spdlog::level::level_enum *)
Inductive level_enum :=
  level_trace | level_debug | level_info | level_warn | level_err | level_critical | level_off.

(** spdlog::async_overflow_policy *)
Inductive async_overflow_policy := policy_block | policy_overrun_oldest | policy_discard_new.

Record AsyncLogger := mkLogger {
  lg_name : list byte;
  lg_queue_size : Z;
  lg_threads : Z;
  lg_overflow : async_overflow_policy;
  lg_pattern : list byte;
  lg_level : level_enum;
  lg_flush_on : level_enum;
}.

(** InitLogging: the logger that becomes the default one.  [from_str] is
    spdlog::level::from_str, [envLevel] what getenv found. *)
Definition InitLogging (from_str : list byte → level_enum) (envLevel : option (list byte)) : AsyncLogger :=
  let level := level_info in
  let level := match envLevel with Some s => from_str s | None => level end in
  mkLogger (list_byte_of_string "exchange") 8192 1 policy_block
    (list_byte_of_string "[%H:%M:%S.%e] [%^%l%$] %v") level level_warn.

(** ** Signals during the start *)

Inductive Signal := SIGINT | SIGTERM.

(** std::signal(sig, HandleShutdownSignal), or nothing yet. *)
Inductive Disposition := SIG_DFL | HandlerInstalled.

(** Where main is: the statements it has still to execute. *)
Inductive StartPC := StartLogging | StartSIGINT | StartSIGTERM | StartDone.

Record Startup := mkStartup {
  su_pc : StartPC;
  su_logger : option AsyncLogger;
  su_sigint : Disposition;
  su_sigterm : Disposition;
  su_main : MainThread;
}.

Definition startup_init : Startup :=
  mkStartup StartLogging None SIG_DFL SIG_DFL (mkMainThread MainWaiting false false false).

Definition disposition (sig : Signal) (s : Startup) : Disposition :=
  match sig with SIGINT => su_sigint s | SIGTERM => su_sigterm s end.

Inductive StartMove := StMain | StSignal (sig : Signal).

Section Start.
Context (from_str : list byte → level_enum) (envLevel : option (list byte)).
Implicit Types (s : Startup) (mvs : list StartMove).

(** The next statement of main, or a signal; [None]: the default action of the signal has
    terminated the process. *)
Definition startup_step (mv : StartMove) s : option Startup :=
  match mv with
  | StMain => Some
      match su_pc s with
      | StartLogging => mkStartup StartSIGINT (Some (InitLogging from_str envLevel))
                          (su_sigint s) (su_sigterm s) (su_main s)
      | StartSIGINT => mkStartup StartSIGTERM (su_logger s) HandlerInstalled (su_sigterm s) (su_main s)
      | StartSIGTERM => mkStartup StartDone (su_logger s) (su_sigint s) HandlerInstalled (su_main s)
      | StartDone => s
      end
  | StSignal sig =>
      match disposition sig s with
      | SIG_DFL => None
      | HandlerInstalled => Some (mkStartup (su_pc s) (su_logger s) (su_sigint s) (su_sigterm s)
                                    (HandleShutdownSignal (su_main s)))
      end
  end.

Fixpoint startup_run mvs s : option Startup :=
  match mvs with
  | [] => Some s
  | mv :: mvs' => s' ← startup_step mv s; startup_run mvs' s'
  end.

(** The signals of a run. *)
Definition signals mvs : list Signal :=
  omap (λ mv, match mv with StSignal sig => Some sig | StMain => None end) mvs.

(** Which handlers are installed depends on where main is; main has not done anything else. *)
Definition startup_inv s : Prop :=
  su_sigint s = (match su_pc s with StartLogging | StartSIGINT => SIG_DFL | _ => HandlerInstalled end) ∧
  su_sigterm s = (match su_pc s with StartDone => HandlerInstalled | _ => SIG_DFL end) ∧
  su_logger s = (match su_pc s with StartLogging => None | _ => Some (InitLogging from_str envLevel) end) ∧
  su_main s = mkMainThread MainWaiting (gShutdownRequested (su_main s)) false false.

Lemma startup_step_inv mv s s' : startup_inv s → startup_step mv s = Some s' → startup_inv s'.
Proof.
  destruct s as [pc lg int term mn]. unfold startup_inv. cbn.
  intros (-> & -> & -> & Hm). destruct mv as [|sig]; cbn.
  - intros [= <-]. by destruct pc.
  - destruct sig, pc; cbn; try done; intros [= <-]; cbn; split_and!; try done;
      unfold HandleShutdownSignal; by rewrite Hm.
Qed.

Lemma startup_run_spec mvs s s' : startup_inv s → startup_run mvs s = Some s' →
  startup_inv s' ∧
  gShutdownRequested (su_main s') =
    gShutdownRequested (su_main s) || negb (bool_decide (signals mvs = [])).
Proof.
  revert s. induction mvs as [|mv mvs IH]; intros s Hi; cbn [startup_run].
  { intros [= <-]. split; [done|]. cbn. by rewrite orb_false_r. }
  intros (s1 & H1 & H2)%bind_Some. destruct (IH s1 (startup_step_inv _ _ _ Hi H1) H2) as [Hi' E].
  split; [done|]. rewrite E. destruct mv as [|sig]; cbn in H1 |- *.
  - injection H1 as <-. by destruct (su_pc s).
  - case_match; [done|]. injection H1 as <-. cbn. by rewrite orb_true_r.
Qed.

(** A signal only kills a process that has no handler for it yet. *)
Lemma startup_killed sig s : startup_inv s → startup_step (StSignal sig) s = None →
  match sig with
  | SIGINT => su_pc s = StartLogging ∨ su_pc s = StartSIGINT
  | SIGTERM => su_pc s ≠ StartDone
  end.
Proof.
  destruct s as [pc lg int term mn]. unfold startup_inv. cbn. intros (-> & -> & _ & _).
  destruct sig, pc; cbn; naive_solver.
Qed.
End Start.

(** ** Handing over *)

(** The process main starts, with the request it has already received. *)
Definition hand_over {Ticker Index D Inv Qi Qm Qt} `{!TickerType Ticker} `{!OrderIndexType Index}
    `{!DoubleOps D} `{!InventoryMap Ticker D Inv}
    `{!InboundQueue Ticker Qi} `{!MarketDataQueue Qm} `{!TradeQueue Ticker Qt}
    (s : Startup) : Pipeline Ticker Index Inv Qi Qm Qt :=
  let '(mkPipeline qi qm qt gw en iv pb _) := process_init in
  mkPipeline qi qm qt gw en iv pb (su_main s).

(** A signal during the start is fatal or remembered.  Whenever signals arrive while main
    sets up: if the process survives to the start of its threads, both handlers are
    installed and the logger is set up; it starts in a state that the process can reach,
    and there the shutdown is requested exactly if a signal came. *)
Theorem early_signals_are_remembered {Ticker Index D Inv Qi Qm Qt} `{!TickerType Ticker}
    `{!OrderIndexType Index} `{!DoubleOps D} `{!InventoryMap Ticker D Inv}
    `{!InboundQueue Ticker Qi} `{!MarketDataQueue Qm} `{!TradeQueue Ticker Qt}
    (msg0 : list byte) (from_str : list byte → level_enum) (envLevel : option (list byte))
    (mvs : list StartMove) (s : Startup) :
  startup_run from_str envLevel mvs startup_init = Some s → su_pc s = StartDone →
  let p : Pipeline Ticker Index Inv Qi Qm Qt := hand_over s in
  su_sigint s = HandlerInstalled ∧ su_sigterm s = HandlerInstalled ∧
  su_logger s = Some (InitLogging from_str envLevel) ∧
  reachable msg0 p ∧
  (gShutdownRequested (mainThread p) = true ↔ signals mvs ≠ []).
Proof.
  intros HR Hpc p. destruct (startup_run_spec from_str envLevel mvs startup_init s) as [(Hi & Ht & Hl & Hm) Hreq];
    [by split_and!|done|].
  rewrite Hpc in Hi, Ht, Hl. split_and!; [done..| |].
  - subst p. unfold hand_over. rewrite Hm. destruct (gShutdownRequested (su_main s)).
    + eapply (reachable_step msg0 process_init MvSignal); [constructor|done].
    + apply (reachable_init msg0).
  - change (gShutdownRequested (mainThread p)) with (gShutdownRequested (su_main s)). rewrite Hreq. cbn.
    rewrite negb_true_iff, bool_decide_eq_false. done.
Qed.

(** SIGINT once its handler is there, and SIGTERM too early. *)
Lemma early_signals_are_remembered_witness :
  let int_first := [StMain; StMain; StSignal SIGINT; StMain] in
  (∃ s, startup_run (λ _, level_off) None int_first startup_init = Some s ∧
     lg_level <$> su_logger s = Some level_info ∧
     reachable zeros (hand_over s : CProc) ∧
     gShutdownRequested (mainThread (hand_over s : CProc)) = true) ∧
  startup_run (λ _, level_off) None [StMain; StMain; StSignal SIGTERM; StMain] startup_init = None.
Proof.
  split; [|reflexivity]. eexists. split; [reflexivity|]. split; [reflexivity|].
  pose proof (early_signals_are_remembered (Ticker:=CTicker) (Index:=CIndex) (Inv:=CInv)
    (Qi:=fifo QUEUE_CAPACITY (InboundCommand CTicker)) (Qm:=fifo QUEUE_CAPACITY (list byte))
    (Qt:=fifo QUEUE_CAPACITY (Trade CTicker)) zeros (λ _, level_off) None
    [StMain; StMain; StSignal SIGINT; StMain] _ eq_refl eq_refl) as (_ & _ & _ & Hr & Hq).
  split; [exact Hr|]. apply Hq. discriminate.
Defined.
