(* ===== verification/Generator.v ===== *)
(** * The load generator (tools/dummy_order_generator.py)

    A client that sends random orders and cancels of its own orders, with prices
    computed in double precision.  What is random is an argument: a turn of its loop is
    a function of what it draws, and of how much of its message the socket took before
    the user or an error stopped it.  Every session it can produce is one the exchange
    understands, survives and the listener follows; two sessions one after the other
    are not, because ids start over. *)

From Stdlib Require Import Strings.Byte Strings.String QArith Qabs Lqa.
From Corelib Require Import SpecFloat.
From stdpp Require Import gmap sorting.
From S2P Require Import Prelude Interfaces Double CoreTypes Seqlock FlatMap MatchingEngine BookSpec EngineRefinement EngineSpec EngineInvariant EngineIndex Concrete EngineTheorems Router User Accounting Registry Settlement Decimal Rounding Grid MoneyError Bytes Wire Feed Listener Os Gateway Queues Pipeline PipelineInvariant EndToEnd ListenerSync ListenerView PipelineTheorems ListenerTheorems.

Local Open Scope Z_scope.

(** ** Python's floats *)

(** The nearest integer to [n + r], 0 <= r < 1, where [c] compares [r] with a half. *)
Definition to_even (n : Z) (c : comparison) : Z :=
  match c with
  | Lt => n
  | Gt => n + 1
  | Eq => if Z.even n then n else n + 1
  end.

(** round(x): the nearest integer, halfway cases to the even one.  An infinity or a NaN
    raises an exception. *)
Definition py_round (x : binary64) : Outcome Z :=
  match x with
  | S754_zero _ => Ok 0
  | S754_finite s m e =>
      let m := if s then Z.neg m else Z.pos m in
      if 0 <=? e then Ok (m * 2 ^ e)
      else Ok (to_even (m / 2 ^ (- e)) (2 * (m mod 2 ^ (- e)) ?= 2 ^ (- e)))
  | _ => Throw value_error
  end.

(** random.random(): a multiple of 2^-53 below 1, [k] of them. *)
Definition py_random (k : Z) : binary64 := d_mul (d_of_Z k) (d_div (d_of_Z 1) (d_of_Z (2 ^ 53))).

(** random.uniform(a, b): a + (b - a) * random() *)
Definition py_uniform (a b : binary64) (k : Z) : binary64 :=
  d_add a (d_mul (d_sub b a) (py_random k)).

(** ** The program *)

Definition USER_ID : Z := 0.
Definition SIDE_BUY : Z := 0.
Definition SIDE_SELL : Z := 1.

(** REFERENCE_PRICES, in USD *)
Definition REFERENCE_PRICES : list (pystr * Z) :=
  (λ '(s, usd), (byte_to_Z <$> list_byte_of_string s, usd)) <$>
    [("AAPL", 190); ("GOOG", 140); ("MSFT", 410); ("AMZN", 175)]%string.

(** What a turn of the loop draws: random.random() < args.cancel_probability, the three
    numbers of random.choice, the random.random() of random.uniform(-2.0, 2.0) and
    random.randint(1, 100). *)
Record Draw := mkDraw {
  dr_cancel : bool;
  dr_order : nat;
  dr_ticker : nat;
  dr_side : nat;
  dr_uniform : Z;
  dr_volume : Z;
}.

(** A turn: its draw, and what becomes of its sendall.  [None]: the socket takes the whole
    message.  [Some n]: after n bytes of it the call is interrupted by the user or fails,
    or the turn was interrupted before it (n is 0), and the session is over. *)
Record Turn := mkTurn {
  tn_draw : Draw;
  tn_stopped : option nat;
}.

(** A lookup that raises IndexError or KeyError. *)
Definition or_lookup_error {A} (m : option A) : Outcome A :=
  match m with Some a => Ok a | None => Throw lookup_error end.

(** random.choice(seq) *)
Definition choice {A} (n : nat) (seq : list A) : Outcome A :=
  or_lookup_error (seq !! (n mod length seq)%nat).

(** REFERENCE_PRICES[ticker] *)
Definition reference_price (ticker : pystr) : Outcome binary64 :=
  or_lookup_error ((λ x, d_of_Z x.2.2) <$> list_find (λ x, x.1 = ticker) REFERENCE_PRICES).

(** open_orders: orderId -> ticker; next_order_id *)
Record GeneratorState := mkGenerator {
  open_orders : gmap Z pystr;
  next_order_id : Z;
}.

(** list(open_orders): ids grow, so the order of insertion is theirs. *)
Definition open_ids (g : GeneratorState) : list Z := merge_sort Z.le (map_to_list (open_orders g)).*1.

Definition generator_init : GeneratorState := mkGenerator ∅ 1.

Section Program.
Implicit Types (d : Draw) (g : GeneratorState).

Definition random_order_add (order_id : Z) d : Outcome (list byte * pystr * Z * Z * Z) :=
  ticker ← choice (dr_ticker d) py_INSTRUMENTS;
  side ← choice (dr_side d) [SIDE_BUY; SIDE_SELL];
  reference ← reference_price ticker;
  price ← py_round (d_mul (d_add reference (py_uniform (d_of_Z (-2)) (d_of_Z 2) (dr_uniform d)))
                          (d_of_Z PRICE_MULTIPLIER));
  let volume := dr_volume d in
  message ← encode_order_add order_id USER_ID ticker side price volume;
  Ok (message, ticker, side, price, volume).

(** The body of the loop of main: the message it sends, and the new state.  Side, price and
    volume are only printed. *)
Definition generator_turn d g : Outcome (list byte * GeneratorState) :=
  if bool_decide (open_orders g ≠ ∅) && dr_cancel d then
    order_id ← choice (dr_order d) (open_ids g);
    ticker ← or_lookup_error (open_orders g !! order_id);
    message ← encode_order_cancel order_id USER_ID ticker;
    Ok (message, mkGenerator (delete order_id (open_orders g)) (next_order_id g))
  else
    '(message, ticker, _, _, _) ← random_order_add (next_order_id g) d;
    Ok (message, mkGenerator (<[next_order_id g := ticker]> (open_orders g)) (next_order_id g + 1)).

(** A session: the messages that were sent whole, the bytes of one that was not, the state
    of the generator, and whether it was stopped. *)
Record Session := mkSession {
  sn_frames : list (list byte);
  sn_partial : list byte;
  sn_state : GeneratorState;
  sn_over : bool;
}.

Definition session_step (turn : Turn) (s : Session) : Outcome Session :=
  if sn_over s then Ok s
  else
    '(message, g) ← generator_turn (tn_draw turn) (sn_state s);
    match tn_stopped turn with
    | None => Ok (mkSession (sn_frames s ++ [message]) [] g false)
    | Some n => Ok (mkSession (sn_frames s) (take n message) (sn_state s) true)
    end.

(** main after it is connected, until the duration is over or something stops it. *)
Definition session (turns : list Turn) : Outcome Session :=
  foldM session_step turns (mkSession [] [] generator_init false).

(** What the exchange receives of it. *)
Definition sn_wire (s : Session) : list byte := concat (sn_frames s) ++ sn_partial s.
End Program.

(** ** What it sends *)

(** A draw the random module can make. *)
Definition draw_ok (d : Draw) : Prop :=
  0 ≤ dr_uniform d < 2 ^ 53 ∧ 1 ≤ dr_volume d ≤ 100.

#[export] Instance draw_ok_dec d : Decision (draw_ok d).
Proof. unfold draw_ok. apply _. Defined.

Lemma choice_elem {A} n (seq : list A) : seq ≠ [] → ∃ a, choice n seq = Ok a ∧ a ∈ seq.
Proof.
  intros Hne. unfold choice. destruct (lookup_lt_is_Some_2 seq (n mod length seq)) as [a Ha].
  - apply Nat.mod_upper_bound. by destruct seq.
  - rewrite Ha. exists a. split; [done|]. by eapply list_elem_of_lookup_2.
Qed.

(** Rounding stays between integers. *)
Lemma to_even_between m D lo hi : 0 < D → lo * D ≤ m ≤ hi * D →
  lo ≤ to_even (m / D) (2 * (m mod D) ?= D) ≤ hi.
Proof.
  intros HD [Hl Hh]. assert (lo ≤ m / D) by (apply Z.div_le_lower_bound; lia).
  assert (m / D ≤ hi) by (apply Z.div_le_upper_bound; lia).
  pose proof (Z.div_mod m D ltac:(lia)). pose proof (Z.mod_pos_bound m D HD).
  destruct (Z.compare_spec (2 * (m mod D)) D); cbn; [destruct (Z.even _)|..]; nia.
Qed.

Lemma py_round_between (x : binary64) lo hi : gridded x →
  (inject_Z lo <= F x <= inject_Z hi)%Q → ∃ n, py_round x = Ok n ∧ lo ≤ n ≤ hi.
Proof.
  intros [Hx _]. destruct x as [s| | |s m e]; try by destruct Hx.
  { change (F (S754_zero s)) with (inject_Z 0). rewrite <-!Zle_Qle. intros. exists 0. split; [done|lia]. }
  intros HF. cbn [py_round]. set (z := if s then Z.neg m else Z.pos m).
  assert (F (S754_finite s m e) == inject_Z z * two ^ e)%Q as E.
  { rewrite F_sign. unfold magnitude, z. fold two. destruct s; [|reflexivity].
    change (Z.neg m) with (- Z.pos m). rewrite inject_Z_opp. ring. }
  rewrite E in HF. clear E Hx. clearbody z. destruct (Z.leb_spec 0 e) as [He|He]; eexists; (split; [done|]).
  - rewrite (two_Z e He), <-inject_Z_mult, <-!Zle_Qle in HF. lia.
  - apply to_even_between; [lia|]. assert (two ^ (- e) == inject_Z (2 ^ (- e)))%Q as Ed
      by (apply two_Z; lia).
    assert (two ^ e * two ^ (- e) == 1)%Q as E1
      by (rewrite <-two_plus; replace (e + - e) with 0 by lia; reflexivity).
    pose proof (two_pos (- e)) as Hp. rewrite !Zle_Qle, !inject_Z_mult, <-Ed.
    revert HF E1 Hp. generalize (two ^ e)%Q, (two ^ (- e))%Q. intros a b HF E1 Hp.
    assert (inject_Z z == inject_Z z * a * b)%Q as Ez by (rewrite <-Qmult_assoc, E1; ring).
    rewrite Ez. split; apply Qmult_le_compat_r; (apply HF || lra).
Qed.

(** ** The price *)

Section Price.
Local Open Scope Q_scope.

Lemma int_gridded n : (0 < Z.abs n < 2 ^ 53)%Z → gridded (d_of_Z n) ∧ F (d_of_Z n) == inject_Z n.
Proof.
  intros Hn. destruct (of_Z_spec n) as [[Nn _ _] En]; [lia|lia|]. specialize (En ltac:(lia)).
  split; [|done]. apply normal_gridded; [done|]. rewrite En.
  change (Qabs (inject_Z n)) with (inject_Z (Z.abs n)). apply Qle_trans with (inject_Z 1).
  - discriminate.
  - rewrite <-Zle_Qle. lia.
Qed.

(** A rounding of something of moderate size, with what is needed of it. *)
Lemma rounded_within w x lo hi c : rounded w x → lo <= w <= hi → Qabs w <= inject_Z c →
  gridded x ∧ lo - inject_Z c * (1 # 1000) <= F x <= hi + inject_Z c * (1 # 1000).
Proof.
  intros [Hg He] [Hl Hh] Hc. split; [done|]. pose proof unit_roundoff_small as [Hu0 Hu].
  pose proof (Qabs_nonneg w) as H0.
  assert (unit_roundoff * Qabs w <= inject_Z c * (1 # 1000)) as Hb.
  { generalize dependent (Qabs w). generalize dependent unit_roundoff. intros. nra. }
  apply Qabs_Qle_condition in He. generalize dependent (unit_roundoff * Qabs w). intros. lra.
Qed.

(** The bound all operations stay below. *)
Lemma moderate q c : Qabs q <= inject_Z c → (c <= 2 ^ 52)%Z → Qabs q <= two ^ 1000.
Proof.
  intros Hq Hc. eapply Qle_trans; [exact Hq|]. apply Qle_trans with (two ^ 52); [|by apply two_le].
  rewrite (two_Z 52) by lia. by rewrite <-Zle_Qle.
Qed.

(** random.random() *)
Lemma py_random_band k : (0 <= k < 2 ^ 53)%Z →
  gridded (py_random k) ∧ -(1 # 1000) <= F (py_random k) <= 1001 # 1000.
Proof.
  intros Hk. unfold py_random. rewrite d_mul_comm.
  set (x := d_div (d_of_Z 1) (d_of_Z (2 ^ 53))).
  assert (x = S754_finite false 4503599627370496 (-105)) as Ex by (vm_compute; reflexivity).
  assert (F x == 1 # 9007199254740992) as EF by (rewrite Ex; vm_compute; reflexivity).
  assert (gridded x) as Hx.
  { split; [by rewrite Ex|]. exists (2 ^ 47)%Z. rewrite Ex. vm_compute. reflexivity. }
  assert (0 <= inject_Z k <= 9007199254740992 # 1) as Hkq.
  { change (0 <= inject_Z k <= inject_Z (2 ^ 53)). change 0 with (inject_Z 0).
    rewrite <-!Zle_Qle. lia. }
  assert (Qabs (F x * inject_Z k) <= inject_Z 1) as Hb.
  { rewrite EF. apply Qabs_Qle_condition. change (inject_Z 1) with 1. split; lra. }
  destruct (rounded_within _ _ 0 1 1 (mul_int_rounded x k Hx ltac:(lia) (moderate _ 1 Hb ltac:(lia))))
    as [Hg Hr]; [rewrite EF; lra|done|].
  split; [done|]. change (inject_Z 1) with 1 in Hr. lra.
Qed.

(** random.uniform(-2.0, 2.0) *)
Lemma py_uniform_band k : (0 <= k < 2 ^ 53)%Z →
  let u := py_uniform (d_of_Z (-2)) (d_of_Z 2) k in
  gridded u ∧ -(202 # 100) <= F u <= 203 # 100.
Proof.
  intros Hk u. unfold u, py_uniform. clear u.
  assert (d_sub (d_of_Z 2) (d_of_Z (-2)) = (d_of_Z 4 : binary64)) as -> by (vm_compute; reflexivity).
  rewrite d_mul_comm. destruct (py_random_band k Hk) as [Hg Hr]. generalize dependent (py_random k).
  intros r Hg Hr. assert (Qabs (F r * inject_Z 4) <= inject_Z 5) as Hb.
  { apply Qabs_Qle_condition. change (inject_Z 4) with (4 # 1). change (inject_Z 5) with (5 # 1). lra. }
  destruct (rounded_within _ _ (-(4 # 1000)) (4004 # 1000) 5
    (mul_int_rounded r 4 Hg ltac:(lia) (moderate _ 5 Hb ltac:(lia)))) as [Hg4 H4];
    [change (inject_Z 4) with (4 # 1); lra|done|].
  change (inject_Z 5) with (5 # 1) in H4. generalize dependent (d_mul r (d_of_Z 4)). intros y Hy H4.
  destruct (int_gridded (-2)) as [H2 E2]; [lia|]. change (inject_Z (-2)) with (-2 # 1) in E2.
  assert (Qabs (F (d_of_Z (-2)) + F y) <= inject_Z 3) as Hb2.
  { rewrite E2. apply Qabs_Qle_condition. change (inject_Z 3) with (3 # 1). lra. }
  destruct (rounded_within _ _ (-(201 # 100)) (202 # 100) 3
    (add_rounded _ y H2 Hy (moderate _ 3 Hb2 ltac:(lia)))) as [Hg' H'];
    [rewrite E2; lra|done|]. change (inject_Z 3) with (3 # 1) in H'. split; [done|lra].
Qed.
End Price.

(** The price is within three dollars of the reference. *)
Lemma price_band ref k : 140 ≤ ref ≤ 410 → 0 ≤ k < 2 ^ 53 →
  ∃ p, py_round (d_mul (d_add (d_of_Z ref) (py_uniform (d_of_Z (-2)) (d_of_Z 2) k))
                       (d_of_Z PRICE_MULTIPLIER)) = Ok p ∧
    (ref - 3) * PRICE_MULTIPLIER ≤ p ≤ (ref + 3) * PRICE_MULTIPLIER.
Proof.
  intros Href Hk. destruct (py_uniform_band k Hk) as [Hg Hu].
  generalize dependent (py_uniform (d_of_Z (-2)) (d_of_Z 2) k). intros u Hg Hu.
  destruct (int_gridded ref) as [Hr Er]; [lia|].
  assert (140 <= inject_Z ref <= 410)%Q as Hq
    by (change (inject_Z 140 <= inject_Z ref <= inject_Z 410)%Q; rewrite <-!Zle_Qle; lia).
  assert (Qabs (F (d_of_Z ref) + F u) <= inject_Z 413)%Q as Hb.
  { rewrite Er. apply Qabs_Qle_condition. change (inject_Z 413) with 413%Q. split; lra. }
  destruct (rounded_within _ _ (inject_Z ref - (202 # 100)) (inject_Z ref + (203 # 100)) 413
    (add_rounded _ u Hr Hg (moderate _ 413 Hb ltac:(lia)))) as [Hg1 H1]; [rewrite Er; split; lra|done|].
  change (inject_Z 413) with 413%Q in H1. generalize dependent (d_add (d_of_Z ref) u).
  intros y Hy H1. change PRICE_MULTIPLIER with 1000000.
  assert (Qabs (F y * inject_Z 1000000) <= inject_Z 413000000)%Q as Hb2.
  { apply Qabs_Qle_condition. change (inject_Z 413000000) with 413000000%Q.
    change (inject_Z 1000000) with 1000000%Q. split; lra. }
  destruct (rounded_within _ _ ((inject_Z ref - (245 # 100)) * 1000000)%Q
    ((inject_Z ref + (245 # 100)) * 1000000)%Q 413000000
    (mul_int_rounded y 1000000 Hy ltac:(lia) (moderate _ 413000000 Hb2 ltac:(lia)))) as [Hg2 H2];
    [change (inject_Z 1000000) with 1000000%Q; split; lra|done|].
  apply py_round_between; [done|]. change (inject_Z 413000000) with 413000000%Q in H2.
  unfold Zminus. rewrite !inject_Z_mult, !inject_Z_plus.
  change (inject_Z (- (3))) with (-3)%Q. change (inject_Z 3) with 3%Q.
  change (inject_Z 1000000) with 1000000%Q. split; lra.
Qed.

Lemma reference_price_listed tk : tk ∈ py_INSTRUMENTS →
  ∃ ref, reference_price tk = Ok (d_of_Z ref) ∧ 140 ≤ ref ≤ 410.
Proof.
  intros H. apply (list_elem_of_In) in H. cbn in H.
  destruct H as [<-|[<-|[<-|[<-|[]]]]]; [exists 190|exists 140|exists 410|exists 175];
    (split; [vm_compute; reflexivity|lia]).
Qed.

Section Sent.
Context {Ticker : Type} `{!TickerType Ticker} `{!TickerLaws Ticker}.
Implicit Types (o : OrderAdd Ticker) (cmds : list (InboundCommand Ticker)) (g : GeneratorState)
  (d : Draw).

Lemma listed_plain (t : Ticker) : t ∈ (INSTRUMENTS : list Ticker) → ticker_plain t.
Proof.
  intros Ht. assert (ss_data t ∈ map ss_data (INSTRUMENTS : list Ticker)) as H
    by (by apply (list_elem_of_fmap_2 ss_data)).
  rewrite INSTRUMENTS_data in H. apply list_elem_of_In in H. unfold ticker_plain, ticker_nul_free.
  destruct H as [<-|[<-|[<-|[<-|[]]]]]; (split; [by apply (bool_decide_unpack _)|by repeat constructor]).
Qed.

(** An order of the generator. *)
Definition generated_order o : Prop :=
  oa_userId_ o = Strong USER_ID ∧ oa_ticker_ o ∈ (INSTRUMENTS : list Ticker) ∧
  137 * PRICE_MULTIPLIER ≤ value (oa_price_ o) ≤ 413 * PRICE_MULTIPLIER ∧
  1 ≤ value (oa_volume_ o) ≤ 100.

Lemma generated_in_range o : generated_order o → is_i64 (value (oa_orderId_ o)) →
  order_in_range o ∧ price_small (oa_price_ o) ∧ participant (oa_userId_ o) ∧
  ticker_plain (oa_ticker_ o).
Proof.
  intros (Hu & Ht & Hp & Hv) Hid. unfold order_in_range, participant. rewrite Hu.
  unfold PRICE_MULTIPLIER in Hp. cbn [value].
  split_and!; [i64|done|i64|i64|unfold price_small; lia|done|done|by apply listed_plain].
Qed.

Lemma random_order_add_ok id d : is_i64 id → draw_ok d →
  ∃ o msg, random_order_add id d = Ok (msg, ticker_str (oa_ticker_ o), side_code (oa_side_ o),
      value (oa_price_ o), value (oa_volume_ o)) ∧
    DecodeInboundMessage msg = Ok (CmdAdd o) ∧ length msg = sizeof_InboundWireMessage ∧
    oa_orderId_ o = Strong id ∧ generated_order o.
Proof.
  intros Hid [Hu Hv]. unfold random_order_add.
  destruct (choice_elem (dr_ticker d) py_INSTRUMENTS) as (tk & -> & Htk); [done|].
  destruct (choice_elem (dr_side d) [SIDE_BUY; SIDE_SELL]) as (sd & -> & Hsd); [done|].
  cbn [mbind Outcome_bind]. destruct (reference_price_listed tk Htk) as (ref & -> & Href).
  cbn [mbind Outcome_bind]. destruct (price_band ref _ Href Hu) as (p & -> & Hp). cbn [mbind Outcome_bind].
  rewrite (py_INSTRUMENTS_str (Ticker:=Ticker)) in Htk.
  apply list_elem_of_fmap in Htk as (t & -> & Ht).
  assert (∃ side, sd = side_code side) as [side ->].
  { apply list_elem_of_In in Hsd. destruct Hsd as [<-|[<-|[]]]; [by exists Buy|by exists Sell]. }
  set (o := mkOrderAdd (Strong id) (Strong USER_ID) t side (Strong p) (Strong (dr_volume d))).
  assert (generated_order o) as Ho.
  { unfold PRICE_MULTIPLIER in Hp. unfold generated_order, PRICE_MULTIPLIER. cbn. split_and!; done || lia. }
  destruct (generated_in_range o Ho Hid) as (Hr & _ & _ & Hpl).
  destruct (decode_client_add o Hr Hpl) as (msg & Henc & Hlen & Hdec). cbn [client_encode] in Henc.
  exists o, msg. cbn in Henc. rewrite Henc. by split_and!.
Qed.

(** The commands [cmds] of a session, which led to the state [g]. *)
Record generated cmds g : Prop := {
  gn_ids : omap added_id cmds = Strong <$> seqZ 1 (next_order_id g - 1);
  gn_next : 1 ≤ next_order_id g ≤ Z.of_nat (length cmds) + 1;
  gn_orders o : CmdAdd o ∈ cmds → generated_order o;
  gn_cancels c : CmdCancel c ∈ cmds → oc_userId_ c = Strong USER_ID ∧
    ∃ o, CmdAdd o ∈ cmds ∧ oa_orderId_ o = oc_orderId_ c ∧ oa_ticker_ o = oc_ticker_ c;
  gn_open id tk : open_orders g !! id = Some tk →
    ∃ o, CmdAdd o ∈ cmds ∧ oa_orderId_ o = Strong id ∧ ticker_str (oa_ticker_ o) = tk;
}.

Lemma generated_init : generated [] generator_init.
Proof.
  split; [done|cbn; lia|by intros o ?%elem_of_nil|by intros c ?%elem_of_nil|].
  intros id tk H. cbn in H. by rewrite lookup_empty in H.
Qed.

Lemma generated_id cmds g o : generated cmds g → CmdAdd o ∈ cmds →
  1 ≤ value (oa_orderId_ o) < next_order_id g.
Proof.
  intros Hg Ho. assert (oa_orderId_ o ∈ omap added_id cmds) as H
    by (apply list_elem_of_omap; by exists (CmdAdd o)).
  rewrite (gn_ids _ _ Hg) in H. apply list_elem_of_fmap in H as (z & -> & Hz%elem_of_seqZ).
  cbn. lia.
Qed.

(** A cancel of an open order. *)
Lemma generated_cancel cmds g id tk : generated cmds g → Z.of_nat (length cmds) < i64_max →
  open_orders g !! id = Some tk →
  ∃ c msg, encode_order_cancel id USER_ID tk = Ok msg ∧
    DecodeInboundMessage msg = Ok (CmdCancel c) ∧ length msg = sizeof_InboundWireMessage ∧
    generated (cmds ++ [CmdCancel c]) (mkGenerator (delete id (open_orders g)) (next_order_id g)).
Proof.
  intros Hg Hlen Hop. destruct (gn_open _ _ Hg id tk Hop) as (o & Ho & Hid & <-).
  pose proof (generated_id _ _ _ Hg Ho) as Hv. pose proof (gn_next _ _ Hg) as Hn.
  pose proof (listed_plain _ (proj1 (proj2 (gn_orders _ _ Hg o Ho)))) as Hpl.
  set (c := mkOrderCancel (Strong id) (Strong USER_ID) (oa_ticker_ o)).
  destruct (decode_client_cancel c) as (msg & Henc & Hl & Hdec);
    [cbn; rewrite Hid in Hv; cbn in Hv; i64|done|done|].
  exists c, msg. split_and!; [done..|]. split; cbn [next_order_id open_orders].
  - rewrite omap_app. cbn. by rewrite app_nil_r, (gn_ids _ _ Hg).
  - rewrite length_app. cbn. lia.
  - intros o' [Ho'|[=]%list_elem_of_singleton]%elem_of_app. by eapply gn_orders.
  - intros c' [Hc'|[= ->]%list_elem_of_singleton]%elem_of_app.
    + destruct (gn_cancels _ _ Hg c' Hc') as (? & o' & ? & ? & ?). split; [done|].
      exists o'. split_and!; [apply elem_of_app; by left|done..].
    + split; [done|]. exists o. split_and!; [apply elem_of_app; by left|done..].
  - intros id' tk' [_ H]%lookup_delete_Some.
    destruct (gn_open _ _ Hg id' tk' H) as (o' & ? & ? & ?).
    exists o'. split_and!; [apply elem_of_app; by left|done..].
Qed.

(** A new order. *)
Lemma generated_add cmds g o : generated cmds g → generated_order o →
  oa_orderId_ o = Strong (next_order_id g) →
  generated (cmds ++ [CmdAdd o]) (mkGenerator
    (<[next_order_id g := ticker_str (oa_ticker_ o)]> (open_orders g)) (next_order_id g + 1)).
Proof.
  intros Hg Ho Hid. pose proof (gn_next _ _ Hg) as Hn.
  split; cbn [next_order_id open_orders].
  - rewrite omap_app, (gn_ids _ _ Hg). cbn. rewrite Hid.
    replace (next_order_id g + 1 - 1) with (next_order_id g - 1 + 1) by lia.
    rewrite (seqZ_app 1) by lia. rewrite fmap_app. f_equal.
    replace (1 + (next_order_id g - 1)) with (next_order_id g) by lia. done.
  - rewrite length_app. cbn. lia.
  - intros o' [Ho'|[= ->]%list_elem_of_singleton]%elem_of_app; [by eapply gn_orders|done].
  - intros c [Hc|[=]%list_elem_of_singleton]%elem_of_app.
    destruct (gn_cancels _ _ Hg c Hc) as (? & o' & ? & ? & ?). split; [done|].
    exists o'. split_and!; [apply elem_of_app; by left|done..].
  - intros id tk [[<- <-]|[_ H]]%lookup_insert_Some.
    + exists o. split_and!; [apply elem_of_app; right; by left|done..].
    + destruct (gn_open _ _ Hg id tk H) as (o' & ? & ? & ?).
      exists o'. split_and!; [apply elem_of_app; by left|done..].
Qed.

Lemma generator_turn_ok cmds g d : generated cmds g → Z.of_nat (length cmds) < i64_max →
  draw_ok d →
  ∃ cmd msg g', generator_turn d g = Ok (msg, g') ∧ DecodeInboundMessage msg = Ok cmd ∧
    length msg = sizeof_InboundWireMessage ∧ generated (cmds ++ [cmd]) g'.
Proof.
  intros Hg Hlen Hd. unfold generator_turn. destruct (_ && _) eqn:Hc.
  - apply andb_true_iff in Hc as [Hne%bool_decide_eq_true _].
    pose proof (merge_sort_Permutation Z.le (map_to_list (open_orders g)).*1) as HP.
    destruct (choice_elem (dr_order d) (open_ids g)) as (id & -> & Hid).
    { unfold open_ids. intros E. rewrite E in HP.
      apply Permutation_nil_l, symmetry in HP. by apply fmap_nil_inv, map_to_list_empty_iff in HP. }
    unfold open_ids in Hid. rewrite HP in Hid. apply list_elem_of_fmap in Hid as ([id' tk] & -> & Hop%elem_of_map_to_list). cbn [fst mbind Outcome_bind].
    rewrite Hop. cbn [or_lookup_error mbind Outcome_bind].
    destruct (generated_cancel cmds g id' tk Hg Hlen Hop) as (c & msg & -> & Hdec & Hl & Hg').
    by eexists _, _, _.
  - destruct (random_order_add_ok (next_order_id g) d) as (o & msg & -> & Hdec & Hl & Hid & Ho);
      [pose proof (gn_next _ _ Hg); i64|done|].
    eexists _, _, _. split_and!; [done..|]. by apply generated_add.
Qed.

(** A session: what was sent whole decodes to commands of the generator, and what was sent
    of one more message is part of one that would have been such a command. *)
Record session_inv (n : nat) (s : Session) cmds : Prop := {
  sv_decodes : decodes (sn_frames s) cmds;
  sv_sizes : Forall (λ f, length f = sizeof_InboundWireMessage) (sn_frames s);
  sv_generated : generated cmds (sn_state s);
  sv_partial : (sn_partial s = [] ∧ length cmds ≤ n)%nat ∨
    ∃ msg cmd g', sn_partial s `prefix_of` msg ∧ length msg = sizeof_InboundWireMessage ∧
      DecodeInboundMessage msg = Ok cmd ∧ generated (cmds ++ [cmd]) g' ∧ (S (length cmds) ≤ n)%nat;
  sv_running : sn_over s = false → sn_partial s = [] ∧ (length cmds ≤ n)%nat;
}.

Lemma session_inv_mono n s cmds : session_inv n s cmds → session_inv (S n) s cmds.
Proof.
  intros [H1 H2 H3 H4 H5]. split; [done..| |].
  - destruct H4 as [[? ?]|(msg & cmd & g' & ? & ? & ? & ? & ?)]; [left; split; [done|lia]|].
    right. exists msg, cmd, g'. split_and!; [done..|lia].
  - intros [? ?]%H5. split; [done|lia].
Qed.

Lemma session_step_ok n turn s cmds : session_inv n s cmds → Z.of_nat n < i64_max →
  draw_ok (tn_draw turn) →
  ∃ s' cmds', session_step turn s = Ok s' ∧ session_inv (S n) s' cmds'.
Proof.
  intros Hs Hn Hd. unfold session_step. destruct (sn_over s) eqn:Ho.
  { exists s, cmds. split; [done|by apply session_inv_mono]. }
  destruct (sv_running _ _ _ Hs Ho) as [Hp Hl]. destruct Hs as [H1 H2 H3 _ _].
  destruct (generator_turn_ok cmds (sn_state s) (tn_draw turn) H3 ltac:(lia) Hd)
    as (cmd & msg & g' & -> & Hm & Hml & Hg'). cbn [mbind Outcome_bind].
  destruct (tn_stopped turn) as [k|].
  - eexists _, cmds. split; [done|]. split; cbn; [done..| |done].
    right. exists msg, cmd, g'. split_and!; [apply prefix_take|done..|lia].
  - eexists _, (cmds ++ [cmd]). split; [done|]. split; cbn.
    + apply Forall2_app; [done|]. by constructor.
    + apply Forall_app. split; [done|]. by apply Forall_singleton.
    + done.
    + left. split; [done|]. rewrite length_app. cbn. lia.
    + intros _. split; [done|]. rewrite length_app. cbn. lia.
Qed.

Lemma session_ok (turns : list Turn) : Forall (λ turn, draw_ok (tn_draw turn)) turns →
  Z.of_nat (length turns) ≤ i64_max →
  ∃ s cmds, session turns = Ok s ∧ session_inv (length turns) s cmds.
Proof.
  induction turns as [|turn turns IH] using rev_ind; intros Hd Hlen.
  { eexists _, []. split; [done|]. split; cbn; [constructor|constructor|apply generated_init|by left|done]. }
  apply Forall_app in Hd as [Hd Hd1]. rewrite Forall_singleton in Hd1.
  rewrite length_app, Nat.add_1_r in *.
  destruct (IH Hd ltac:(lia)) as (s & cmds & HS & Hs).
  destruct (session_step_ok _ turn s cmds Hs ltac:(lia) Hd1) as (s' & cmds' & HS' & Hs').
  exists s', cmds'. split; [|done]. unfold session in *. rewrite foldM_app, HS.
  cbn [foldM mbind Outcome_bind]. by rewrite HS'.
Qed.

(** What arrives, cut into frames. *)
Lemma session_received n s cmds : session_inv n s cmds →
  ∃ whole rest cmds' g, Framed (sn_wire s) whole rest ∧ decodes whole cmds' ∧
    generated cmds' g ∧ (length cmds' ≤ n)%nat.
Proof.
  intros [H1 H2 H3 [[Hp Hl]|(msg & cmd & g' & [more Em] & Hml & Hm & Hg & Hl)] _].
  { exists (sn_frames s), [], cmds, (sn_state s). split_and!; [|done..].
    split; [unfold sn_wire; by rewrite Hp|done|cbn; lia]. }
  destruct (decide (length (sn_partial s) < sizeof_InboundWireMessage)%nat) as [Hlt|Hge].
  - exists (sn_frames s), (sn_partial s), cmds, (sn_state s). split_and!; [|done..|lia]. by split.
  - assert (more = []) as ->.
    { apply (f_equal length) in Em. rewrite length_app in Em. destruct more; [done|]. cbn in Em. lia. }
    rewrite app_nil_r in Em. subst msg.
    exists (sn_frames s ++ [sn_partial s]), [], (cmds ++ [cmd]), g'. split_and!.
    + split; [|apply Forall_app; split; [done|by apply Forall_singleton]|cbn; lia].
      unfold sn_wire. rewrite concat_app. cbn [concat]. by rewrite !app_nil_r.
    + apply Forall2_app; [done|]. by constructor.
    + done.
    + rewrite length_app. cbn. lia.
Qed.

(** The id tells which order it is. *)
Lemma added_unique cmds o1 o2 : NoDup (omap added_id cmds) → CmdAdd o1 ∈ cmds → CmdAdd o2 ∈ cmds →
  oa_orderId_ o1 = oa_orderId_ o2 → o1 = o2.
Proof.
  induction cmds as [|cmd cmds IH]; [by intros _ ?%elem_of_nil|].
  assert (∀ o, CmdAdd o ∈ cmds → oa_orderId_ o ∈ omap added_id cmds) as Hin
    by (intros o Ho; apply list_elem_of_omap; by exists (CmdAdd o)).
  destruct cmd as [o|c]; cbn [omap list_omap added_id].
  - intros [Hn Hnd]%NoDup_cons [[= ->]|H1]%elem_of_cons [[= ->]|H2]%elem_of_cons E; [done|..|by apply IH].
    + destruct Hn. rewrite E. by apply Hin.
    + destruct Hn. rewrite <-E. by apply Hin.
  - intros Hnd [[=]|H1]%elem_of_cons [[=]|H2]%elem_of_cons. by apply IH.
Qed.

Lemma generated_NoDup cmds g : generated cmds g → NoDup (omap added_id cmds).
Proof.
  intros Hg. rewrite (gn_ids _ _ Hg). apply NoDup_fmap_2; [|apply NoDup_seqZ].
  by intros z1 z2 [= ->].
Qed.

(** The generator follows the rules. *)
Lemma generated_well_behaved cmds g : generated cmds g → well_behaved cmds.
Proof.
  intros Hg. pose proof (generated_NoDup _ _ Hg) as Hnd. split_and!; [done|..].
  - apply Forall_forall. intros [o|c] H; [|done]. cbn.
    destruct (gn_orders _ _ Hg o H) as (_ & _ & _ & ?). lia.
  - apply Forall_forall. intros [o|c] H; [done|]. apply Forall_forall. intros [o|c'] Ho; [|done].
    intros Hid. destruct (gn_cancels _ _ Hg c H) as (Hu & o' & Ho' & Hid' & Ht).
    assert (o = o') as -> by (apply (added_unique cmds); [done..|congruence]).
    split; [|done]. destruct (gn_orders _ _ Hg o' Ho') as [-> _]. done.
Qed.

Lemma generated_ranges cmds g : generated cmds g → Z.of_nat (length cmds) ≤ i64_max →
  Forall cmd_fit cmds ∧ Forall command_in_range cmds.
Proof.
  intros Hg Hlen. assert (∀ o, CmdAdd o ∈ cmds → is_i64 (value (oa_orderId_ o))) as Hid.
  { intros o Ho. pose proof (generated_id _ _ _ Hg Ho). pose proof (gn_next _ _ Hg). i64. }
  assert (∀ o, CmdAdd o ∈ cmds → order_in_range o ∧ price_small (oa_price_ o) ∧
    participant (oa_userId_ o) ∧ ticker_plain (oa_ticker_ o)) as Hr
    by (intros o Ho; apply generated_in_range; [by eapply gn_orders|by apply Hid]).
  split; apply Forall_forall; intros [o|c] H; cbn; try done.
  - destruct (Hr o H) as (? & ? & ? & _). done.
  - destruct (Hr o H) as (? & _ & _ & ?). done.
  - destruct (gn_cancels _ _ Hg c H) as (-> & o & Ho & <- & <-).
    split_and!; [by apply Hid|done|by apply Hr].
Qed.

Lemma generated_volume cmds g : generated cmds g →
  sumZ cmd_volume cmds ≤ 100 * Z.of_nat (length cmds).
Proof.
  intros Hg. assert (Forall (λ cmd, cmd_volume cmd ≤ 100) cmds) as H.
  { apply Forall_forall. intros [o|c] H; cbn; [|lia].
    destruct (gn_orders _ _ Hg o H) as (_ & _ & _ & ?). unfold order_volume. lia. }
  clear Hg. induction H as [|cmd cmds Hc _ IH]; [done|]. rewrite sumZ_cons. cbn [length]. lia.
Qed.

(** A session is input the listener can follow and the exchange survives. *)
Lemma generated_fit cmds g : generated cmds g → 100 * Z.of_nat (length cmds) ≤ i64_max →
  followable cmds ∧ input_fit cmds.
Proof.
  intros Hg Hlen. destruct (generated_ranges cmds g Hg ltac:(lia)) as [Hf Hr].
  pose proof (generated_volume cmds g Hg). split.
  - split_and!; [by eapply generated_well_behaved| |done].
    eapply Forall_impl; [exact Hf|]. by intros cmd [? _].
  - split; [done|lia].
Qed.

(** Whoever sends anything sends an order, and the first one has id 1. *)
Lemma generated_first cmds g : generated cmds g → cmds ≠ [] → Strong 1 ∈ omap added_id cmds.
Proof.
  intros Hg Hne. assert (∃ o, CmdAdd o ∈ cmds) as [o Ho].
  { destruct cmds as [|[o|c] cmds]; [done|exists o; by left|].
    destruct (gn_cancels _ _ Hg c ltac:(by left)) as (_ & o & Ho & _). by exists o. }
  pose proof (generated_id _ _ _ Hg Ho). rewrite (gn_ids _ _ Hg).
  apply list_elem_of_fmap. exists 1. split; [done|]. apply elem_of_seqZ. lia.
Qed.
End Sent.

Lemma followable_app {Ticker} `{!TickerType Ticker} (cmds1 cmds2 : list (InboundCommand Ticker)) :
  followable (cmds1 ++ cmds2) → followable cmds1.
Proof.
  intros (Hw & [Ho _]%Forall_app & [Hr _]%Forall_app). split_and!; [by eapply well_behaved_app|done..].
Qed.

(** ** Properties *)

(** C15: The exchange copes with the load generator.  Whatever the generator draws (its
    prices computed and rounded in double precision), drawing and encoding never raise.
    Whenever and however it is stopped, by the user or by an error of the socket, even in
    the middle of a message: the bytes that arrived are a sequence of whole frames that
    decode to commands that follow the rules, and an incomplete one.  In every reachable
    state of the process that has dispatched these commands or the first of them, no
    thread has failed; and when all that was produced is published, the listener shows
    the books of the engines.  (Up to 2^63/100 turns of the loop.) *)
Theorem generated_session_is_followed {Ticker Index D Inv Qi Qm Qt} `{!TickerType Ticker}
    `{!TickerLaws Ticker} `{!OrderIndexType Index} `{!OrderIndexLaws Index}
    `{!DoubleOps D} `{!InventoryMap Ticker D Inv} `{!InventoryLaws Ticker D Inv}
    `{!InboundQueue Ticker Qi} `{!MarketDataQueue Qm} `{!TradeQueue Ticker Qt} {cap : nat}
    `{!SpscQueueLaws cap (InboundCommand Ticker) Qi} `{!SpscQueueLaws cap (list byte) Qm}
    `{!SpscQueueLaws cap (Trade Ticker) Qt} (msg0 : list byte) (turns : list Turn) :
  length msg0 = sizeof_WireMarketDataMessage →
  Forall (λ turn, draw_ok (tn_draw turn)) turns → 100 * Z.of_nat (length turns) ≤ i64_max →
  ∃ sn whole rest (cmds : list (InboundCommand Ticker)), session turns = Ok sn ∧
    Framed (sn_wire sn) whole rest ∧ decodes whole cmds ∧ followable cmds ∧
    ∀ s : Pipeline Ticker Index Inv Qi Qm Qt,
      reachable msg0 s → gw_dispatched (gatewayThread s) `prefix_of` cmds →
      (∀ cmd, en_pc (matchingThread s) ≠ EngineCrashed cmd) ∧
      (∀ tr, in_pc (inventoryThread s) ≠ InventoryCrashed tr) ∧
      (caught_up s → ∃ m, listen (pb_published (marketDataThread s)) = Ok m ∧
         print_snapshot m = all_rows (Ticker:=Ticker) (en_router (matchingThread s))).
Proof.
  intros Hmsg Hd Hlen.
  destruct (session_ok (Ticker:=Ticker) turns Hd ltac:(lia)) as (sn & cmds0 & HS & Hsn).
  destruct (session_received _ sn cmds0 Hsn) as (whole & rest & cmds & g & HF & Hdec & Hg & Hl).
  destruct (generated_fit cmds g Hg ltac:(lia)) as [Hfol Hfit].
  exists sn, whole, rest, cmds. split_and!; [done..|]. intros s Hr [more ->].
  apply input_fit_app in Hfit. apply followable_app in Hfol.
  destruct (running_inv_reachable msg0 s Hr Hfit) as (_ & _ & _ & Hc & Hi).
  split_and!; [intros cmd E; by rewrite E in Hc|done|]. intros Hq.
  destruct (process_inv_reachable msg0 s Hr) as (HI & _). unfold inbound_inv in HI.
  rewrite HI in Hfol. apply followable_app in Hfol.
  destruct (published_in_sync msg0 s Hmsg Hr Hq Hfol) as (m & HL & Hs).
  exists m. split; [done|]. by apply (in_sync_snapshot _ _ _ Hs).
Qed.

(** Two orders for AAPL that trade, at 190.50 and 190.25, one for MSFT at 408.50, its
    cancel, and an order of which 20 bytes are sent when the user interrupts. *)
Definition sample_turns : list Turn :=
  (λ d, mkTurn d None) <$>
    [mkDraw false 0 0 0 (5 * 2 ^ 50) 10; mkDraw false 0 0 1 (9 * 2 ^ 49) 4;
     mkDraw false 0 2 0 (2 ^ 50) 7; mkDraw true 2 0 0 0 1].

Definition sample_interrupted : list Turn :=
  sample_turns ++ [mkTurn (mkDraw false 0 1 0 12345678901234 3) (Some 20%nat)].

(** What the session comes to. *)
Definition sample_session : list (InboundCommand CTicker) :=
  [CmdAdd (add 1 0 AAPL Buy 190500000 10); CmdAdd (add 2 0 AAPL Sell 190250000 4);
   CmdAdd (add 3 0 (lit "MSFT") Buy 408500000 7); CmdCancel (cancel 3 0 (lit "MSFT"))].

Example sample_session_decodes :
  (sn ← session sample_interrupted; Ok (map DecodeInboundMessage (sn_frames sn), length (sn_partial sn))) =
    Ok (map Ok sample_session, 20%nat).
Proof. vm_compute. reflexivity. Qed.

Lemma generated_session_is_followed_witness :
  ∃ sn whole rest (cmds : list (InboundCommand CTicker)), session sample_interrupted = Ok sn ∧
    Framed (sn_wire sn) whole rest ∧ decodes whole cmds ∧ followable cmds ∧
    ∀ s : CProc, reachable zeros s → gw_dispatched (gatewayThread s) `prefix_of` cmds →
      (∀ cmd, en_pc (matchingThread s) ≠ EngineCrashed cmd) ∧
      (∀ tr, in_pc (inventoryThread s) ≠ InventoryCrashed tr) ∧
      (caught_up s → ∃ m, listen (pb_published (marketDataThread s)) = Ok m ∧
         print_snapshot m = all_rows (Ticker:=CTicker) (en_router (matchingThread s))).
Proof.
  apply (generated_session_is_followed (cap:=QUEUE_CAPACITY) zeros sample_interrupted).
  - reflexivity.
  - by apply (bool_decide_unpack _).
  - by apply (bool_decide_unpack _).
Defined.

(** Order ids start over with every session: a generator that is started twice (or two of
    them) breaks the rule that ids are new, as soon as each has sent one message. *)
Theorem restarted_generator_reuses_ids {Ticker} `{!TickerType Ticker} `{!TickerLaws Ticker}
    (turns1 turns2 : list Turn) :
  Forall (λ turn, draw_ok (tn_draw turn)) turns1 → Forall (λ turn, draw_ok (tn_draw turn)) turns2 →
  Z.of_nat (length turns1) ≤ i64_max → Z.of_nat (length turns2) ≤ i64_max →
  ∃ sn1 sn2 (cmds1 cmds2 : list (InboundCommand Ticker)),
    session turns1 = Ok sn1 ∧ session turns2 = Ok sn2 ∧
    decodes (sn_frames sn1) cmds1 ∧ decodes (sn_frames sn2) cmds2 ∧
    (cmds1 ≠ [] → cmds2 ≠ [] → ¬ well_behaved (cmds1 ++ cmds2)).
Proof.
  intros H1 H2 L1 L2.
  destruct (session_ok (Ticker:=Ticker) turns1 H1 L1) as (sn1 & cmds1 & S1 & [D1 _ G1 _ _]).
  destruct (session_ok (Ticker:=Ticker) turns2 H2 L2) as (sn2 & cmds2 & S2 & [D2 _ G2 _ _]).
  exists sn1, sn2, cmds1, cmds2. split_and!; [done..|]. intros N1 N2 (Hnd & _ & _).
  rewrite omap_app in Hnd.
  eapply (NoDup_app_disjoint _ _ (Strong 1) Hnd); by eapply generated_first.
Qed.
