(* ===== verification/Shutdown.v ===== *)
(** * The shutdown can always complete

    A rank that some step of some thread always lowers, once a shutdown is requested:
    no state is a dead end, and back-pressure cannot block the threads for good. *)

From Stdlib Require Import Strings.Byte Relations.Relation_Operators Wellfounded.Lexicographic_Product Wellfounded.Inverse_Image.
From stdpp Require Import gmap.
From S2P Require Import Prelude Interfaces Double CoreTypes Seqlock FlatMap MatchingEngine BookSpec EngineRefinement EngineSpec EngineInvariant EngineIndex Concrete EngineTheorems MidPrice Router User Accounting Registry Settlement Bytes Wire Feed Queues Pipeline PipelineInvariant EndToEnd PipelineTheorems.

Local Open Scope nat_scope.

(** ** Ranks *)

Definition main_rank (pc : MainPC) : nat :=
  match pc with
  | MainWaiting => 5 | MainJoinGateway => 4 | MainJoinMatching => 3
  | MainJoinInventory => 2 | MainJoinMarketData => 1 | MainDone => 0
  end.

Definition engine_rank {Ticker Index} (pc : EnginePC Ticker Index) : nat :=
  match pc with
  | EngineRun acts => 3 + length acts | EnginePop => 2 | EngineCheck => 1 | _ => 0
  end.

(** Before the producer has ended a consumer that finds nothing polls again, after
    that it stops. *)
Definition inventory_rank {Ticker} (finished : bool) (pc : InventoryPC Ticker) : nat :=
  match pc with
  | InventoryGot _ => 3
  | InventoryPop => if finished then 2 else 0
  | InventoryCheck => 1
  | _ => 0
  end.

Definition publisher_rank (finished : bool) (pc : PublisherPC) : nat :=
  match pc with
  | PublisherGot _ => 3
  | PublisherPop => if finished then 2 else 0
  | PublisherCheck => 1
  | PublisherDone => 0
  end.

Section Completion.
Context {Ticker : Type} `{!TickerType Ticker} {Index : Type} `{!OrderIndexType Index}.
Context {D : Type} `{!DoubleOps D} {Inv : Type} `{!InventoryMap Ticker D Inv} `{!InventoryLaws Ticker D Inv}.
Context {Qi Qm Qt : Type} `{!InboundQueue Ticker Qi} `{!MarketDataQueue Qm} `{!TradeQueue Ticker Qt}.
Context {cap : nat} `{!SpscQueueLaws cap (InboundCommand Ticker) Qi}.
Context `{!SpscQueueLaws cap (list byte) Qm} `{!SpscQueueLaws cap (Trade Ticker) Qt}.
Context (msg0 : list byte).
Notation Proc := (Pipeline Ticker Index Inv Qi Qm Qt).
Implicit Types (s : Proc).

Definition down_rank s : nat :=
  let finished := matchingEngineFinished (mainThread s) in
  4 * length (q_contents (marketDataQueue s)) + 4 * length (q_contents (tradeQueue s)) +
  inventory_rank finished (in_pc (inventoryThread s)) +
  publisher_rank finished (pb_pc (marketDataThread s)).

Definition rank s : nat * (nat * (nat * nat)) :=
  (2 * main_rank (mn_pc (mainThread s)) + (if gw_exited (gatewayThread s) then 0 else 1),
   (length (q_contents (inboundQueue s)),
    (engine_rank (en_pc (matchingThread s)), down_rank s))).

Definition lower : nat * (nat * (nat * nat)) → nat * (nat * (nat * nat)) → Prop :=
  slexprod _ _ lt (slexprod _ _ lt (slexprod _ _ lt lt)).

Lemma lower_wf : well_founded lower.
Proof. repeat apply wf_slexprod; apply Wf_nat.lt_wf. Qed.

(** A move of the process itself that lowers the rank. *)
Definition progress s : Prop :=
  ∃ mv s', step msg0 mv s = Some s' ∧ lower (rank s') (rank s) ∧
    gw_dispatched (gatewayThread s') = gw_dispatched (gatewayThread s) ∧
    gShutdownRequested (mainThread s') = gShutdownRequested (mainThread s).

Lemma q_full a (q : Qm) : 0 < cap → q_push a q = None → q_contents q ≠ [].
Proof.
  intros Hc Hp E. destruct (q_push_room a q) as (q' & Hq & _); [rewrite E; cbn; lia|congruence].
Qed.

Lemma q_full_trades a (q : Qt) : 0 < cap → q_push a q = None → q_contents q ≠ [].
Proof.
  intros Hc Hp E. destruct (q_push_room a q) as (q' & Hq & _); [rewrite E; cbn; lia|congruence].
Qed.

(** The publisher can always move, and lowers its rank when it has something to do
    or its producer has ended. *)
Lemma publisher_progress s : pb_pc (marketDataThread s) ≠ PublisherDone →
  (q_contents (marketDataQueue s) ≠ [] ∨ matchingEngineFinished (mainThread s) = true) →
  progress s.
Proof.
  destruct s as [qi qm qt gw en iv pb mn]. proj. intros Hpc Hwork. exists (MvPublisher true).
  cbn [step]. unfold PublisherRun. unfold rank, down_rank, lower.
  destruct (pb_pc pb) as [| |m|] eqn:Epc; [|..|done].
  - destruct (q_contents qm) as [|m l] eqn:E.
    + rewrite (q_pop_empty (cap:=cap)) by done. destruct Hwork as [?|Hf]; [done|].
      eexists. split; [done|]. proj. rewrite E, Epc, Hf. split; [|done].
      do 3 apply right_slex. cbn. lia.
    + destruct (q_pop_head (cap:=cap) m l qm E) as (qm' & -> & E').
      eexists. split; [done|]. proj. rewrite E, E', Epc. split; [|done].
      do 3 apply right_slex. cbn. destruct (matchingEngineFinished mn); lia.
  - eexists. split; [done|]. proj. rewrite Epc. split; [|done].
    do 3 apply right_slex. destruct (matchingEngineFinished mn); cbn; lia.
  - eexists. split; [done|]. proj. rewrite Epc. split; [|done].
    do 3 apply right_slex. destruct (matchingEngineFinished mn); cbn; lia.
Qed.

(** So can the inventory, as long as what was matched can be settled. *)
Lemma inventory_progress s : reachable msg0 s → input_fit (gw_dispatched (gatewayThread s)) →
  in_pc (inventoryThread s) ≠ InventoryDone →
  (q_contents (tradeQueue s) ≠ [] ∨ matchingEngineFinished (mainThread s) = true) →
  progress s.
Proof.
  intros Hr Hfit. pose proof (running_inv_reachable msg0 s Hr Hfit) as Hrun.
  pose proof (process_inv_reachable msg0 s Hr) as HI.
  assert (input_fit (en_processed (matchingThread s))) as Hp.
  { destruct HI as (E & _). rewrite E in Hfit. by apply input_fit_app in Hfit. }
  pose proof (λ tr, settle_next msg0 s tr HI Hp Hrun) as Hsettle.
  destruct Hrun as (_ & _ & _ & _ & Hic). clear HI Hp Hr Hfit. revert Hsettle Hic.
  destruct s as [qi qm qt gw en iv pb mn]. proj. intros Hsettle Hic Hpc Hwork.
  exists MvInventory. cbn [step]. unfold RunInventoryThread. unfold rank, down_rank, lower.
  destruct (in_pc iv) as [| |tr| |tr] eqn:Epc; [|..|done|by destruct (Hic tr)].
  - destruct (q_contents qt) as [|tr l] eqn:E.
    + rewrite (q_pop_empty (cap:=cap)) by done. destruct Hwork as [?|Hf]; [done|].
      eexists. split; [done|]. proj. rewrite E, Epc, Hf. split; [|done].
      do 3 apply right_slex. cbn. lia.
    + destruct (q_pop_head (cap:=cap) tr l qt E) as (qt' & -> & E').
      eexists. split; [done|]. proj. rewrite E, E', Epc. split; [|done].
      do 3 apply right_slex. cbn. destruct (matchingEngineFinished mn); lia.
  - eexists. split; [done|]. proj. rewrite Epc. split; [|done].
    do 3 apply right_slex. destruct (matchingEngineFinished mn); cbn; lia.
  - destruct (Hsettle tr eq_refl) as [reg ->].
    eexists. split; [done|]. proj. rewrite Epc. split; [|done].
    do 3 apply right_slex. destruct (matchingEngineFinished mn); cbn; lia.
Qed.

(** The engine moves unless a queue is full, and then its consumer moves. *)
Lemma engine_progress s : 0 < cap → reachable msg0 s →
  input_fit (gw_dispatched (gatewayThread s)) → gatewayFinished (mainThread s) = true →
  en_pc (matchingThread s) ≠ EngineDone → progress s.
Proof.
  intros Hcap Hr Hfit Hflag Hpc.
  destruct (process_inv_reachable msg0 s Hr) as (_ & _ & _ & _ & HS).
  destruct (running_inv_reachable msg0 s Hr Hfit) as (_ & _ & _ & Hcmd & _).
  pose proof (publisher_progress s) as HP. pose proof (inventory_progress s Hr Hfit) as HQ.
  destruct HS as [_ _ S3 S4 S5 _]. clear Hr Hfit. revert Hflag Hpc HP HQ Hcmd S3 S4 S5.
  destruct s as [qi qm qt gw en iv pb mn]. proj. intros Hflag Hpc HP HQ Hcmd S3 S4 S5.
  assert (matchingEngineFinished mn = false) as Hf2.
  { destruct (matchingEngineFinished mn); [|done]. by destruct Hpc, S3. }
  destruct (en_pc en) as [| |[|a acts]| |cmd] eqn:Epc; [..|done|done].
  - exists MvEngine. cbn [step]. unfold RunMatchingEngineThread, rank, lower. rewrite Epc.
    destruct (q_contents qi) as [|cmd l] eqn:E.
    + rewrite (q_pop_empty (cap:=cap)) by done. eexists. split; [done|]. proj.
      rewrite E, Epc. split; [|done]. do 2 apply right_slex. apply left_slex. cbn. lia.
    + destruct (q_pop_head (cap:=cap) cmd l qi E) as (qi' & -> & E').
      destruct (ProcessCommand msg0 cmd (en_router en)); (eexists; split; [done|]); proj;
        rewrite E, E'; (split; [|done]); apply right_slex, left_slex; cbn; lia.
  - exists MvEngine. cbn [step]. unfold RunMatchingEngineThread, rank, lower. rewrite Epc, Hflag.
    eexists. split; [done|]. proj. rewrite Epc. split; [|done].
    do 2 apply right_slex. apply left_slex. cbn. lia.
  - exists MvEngine. cbn [step]. unfold RunMatchingEngineThread, rank, lower. rewrite Epc.
    eexists. split; [done|]. proj. rewrite Epc. split; [|done].
    do 2 apply right_slex. apply left_slex. cbn. lia.
  - destruct (do_action a qm qt (en_router en)) as [[[qm' qt'] r']|] eqn:Ea.
    + exists MvEngine. cbn [step]. unfold RunMatchingEngineThread, rank, lower. rewrite Epc, Ea.
      eexists. split; [done|]. proj. rewrite Epc. split; [|done].
      do 2 apply right_slex. apply left_slex. cbn. lia.
    + destruct a as [m|tr|r']; cbn [do_action] in Ea; [| |done].
      * destruct (q_push m qm) eqn:Eq; [done|]. apply q_full in Eq; [|done].
        apply HP; [|by left]. intros Hd. specialize (S5 Hd). congruence.
      * destruct (q_push tr qt) eqn:Eq; [done|]. apply q_full_trades in Eq; [|done].
        apply HQ; [|by left]. intros Hd. specialize (S4 Hd). congruence.
Qed.

(** Once a shutdown is requested and until main is done, something can progress. *)
Lemma shutdown_progress s : 0 < cap → reachable msg0 s →
  input_fit (gw_dispatched (gatewayThread s)) → gShutdownRequested (mainThread s) = true →
  mn_pc (mainThread s) ≠ MainDone → progress s.
Proof.
  intros Hcap Hr Hfit Hreq Hnd.
  destruct (process_inv_reachable msg0 s Hr) as (_ & _ & _ & _ & [S1 S2 S3 S4 S5 S6]).
  pose proof (engine_progress s Hcap Hr Hfit) as HE.
  pose proof (inventory_progress s Hr Hfit) as HI. pose proof (publisher_progress s) as HP.
  clear Hr Hfit. revert Hreq Hnd S1 S2 S3 S4 S5 S6 HE HI HP.
  destruct s as [qi qm qt gw en iv pb mn]. proj. intros Hreq Hnd S1 S2 S3 S4 S5 S6 HE HI HP.
  assert (∀ mn' (stop : bool), main_step (gw_exited gw) (engine_ended (en_pc en))
      (inventory_ended (in_pc iv)) (publisher_ended (pb_pc pb)) mn = Some (mn', stop) →
    main_rank (mn_pc mn') < main_rank (mn_pc mn) →
    gShutdownRequested mn' = gShutdownRequested mn →
    progress (mkPipeline qi qm qt gw en iv pb mn)) as Hmain.
  { intros mn' stop Hm Hlt Hsr. exists MvMain. cbn [step]. rewrite Hm. eexists. split; [done|].
    unfold rank, lower. proj. split; [|by destruct stop]. apply left_slex.
    destruct stop; cbn; destruct (gw_exited gw); lia. }
  unfold main_step in Hmain. destruct (mn_pc mn) eqn:Epc; [..|done].
  - rewrite Hreq in Hmain. eapply Hmain; [done| |done]. cbn. lia.
  - destruct (gw_exited gw) eqn:Eg; [eapply Hmain; [done| |done]; cbn; lia|].
    exists MvGatewayExit. cbn [step]. unfold gateway_exit. rewrite S6, Eg. eexists. split; [done|].
    unfold rank, lower. proj. rewrite Eg. split; [|done]. apply left_slex. lia.
  - destruct (en_pc en) eqn:Ee; try by apply HE.
    eapply Hmain; [done| |done]. cbn. lia.
  - destruct (in_pc iv) eqn:Ei; try (apply HI; [done|by right]).
    eapply Hmain; [done| |done]. cbn. lia.
  - pose proof (S4 S6) as Hf.
    destruct (pb_pc pb) eqn:Ep; try (apply HP; [done|by right]).
    eapply Hmain; [done| |done]. cbn. lia.
Qed.

Lemma shutdown_run s : 0 < cap → reachable msg0 s →
  input_fit (gw_dispatched (gatewayThread s)) → gShutdownRequested (mainThread s) = true →
  ∃ mvs s', run msg0 mvs s = Some s' ∧ mn_pc (mainThread s') = MainDone ∧
    gw_dispatched (gatewayThread s') = gw_dispatched (gatewayThread s).
Proof.
  intros Hcap. induction (wf_inverse_image _ _ lower rank lower_wf s) as [s _ IH].
  intros Hr Hfit Hreq. destruct (decide (main_rank (mn_pc (mainThread s)) = 0)) as [E|E].
  { exists [], s. split; [done|]. by destruct (mn_pc (mainThread s)). }
  destruct (shutdown_progress s Hcap Hr Hfit Hreq) as (mv & s1 & Hs & Hl & Hd & Hsr).
  { intros H. by rewrite H in E. }
  destruct (IH s1 Hl) as (mvs & s' & Hrun & Hdone & Hd'); [by eapply reachable_step|congruence..|].
  exists (mv :: mvs), s'. cbn. rewrite Hs. cbn. split_and!; [done..|congruence].
Qed.
End Completion.

(** A shutdown can always complete.  In every reachable state in which a shutdown
    was requested, with well-formed input and queues that hold at least one element,
    some continuation of the threads (without any further client input) ends with
    main done: no interleaving leads into a dead end, and the back-pressure of full
    queues cannot block the process for good. *)
Theorem shutdown_can_complete {Ticker Index D Inv Qi Qm Qt} `{!TickerType Ticker}
    `{!OrderIndexType Index} `{!DoubleOps D} `{!InventoryMap Ticker D Inv}
    `{!InventoryLaws Ticker D Inv}
    `{!InboundQueue Ticker Qi} `{!MarketDataQueue Qm} `{!TradeQueue Ticker Qt} {cap : nat}
    `{!SpscQueueLaws cap (InboundCommand Ticker) Qi} `{!SpscQueueLaws cap (list byte) Qm}
    `{!SpscQueueLaws cap (Trade Ticker) Qt} (msg0 : list byte)
    (s : Pipeline Ticker Index Inv Qi Qm Qt) :
  0 < cap → reachable msg0 s → input_fit (gw_dispatched (gatewayThread s)) →
  gShutdownRequested (mainThread s) = true →
  ∃ mvs s', run msg0 mvs s = Some s' ∧ mn_pc (mainThread s') = MainDone ∧
    gw_dispatched (gatewayThread s') = gw_dispatched (gatewayThread s).
Proof. apply shutdown_run. Qed.

(** A shutdown requested in the middle of a trade. *)
Definition busy_moves : list (Move CTicker) := sample_moves ++ [MvSignal].

Lemma busy : reachable zeros (after_moves busy_moves) ∧
  summary (after_moves busy_moves) = (MainWaiting, 0, 2, 0).
Proof. apply run_summary. vm_compute. reflexivity. Qed.

Lemma shutdown_can_complete_witness :
  ∃ mvs s', run zeros mvs (after_moves busy_moves) = Some s' ∧
    mn_pc (mainThread s') = MainDone ∧
    gw_dispatched (gatewayThread s') = gw_dispatched (gatewayThread (after_moves busy_moves)).
Proof.
  apply (shutdown_can_complete (cap:=QUEUE_CAPACITY) zeros (after_moves busy_moves)).
  - apply Nat.lt_0_succ.
  - exact (proj1 busy).
  - assert (gw_dispatched (gatewayThread (after_moves busy_moves)) =
      [CmdAdd (add 1 1 AAPL Sell 100 10); CmdAdd (add 2 2 AAPL Buy 100 4)]) as ->
      by (vm_compute; reflexivity).
    by apply (bool_decide_unpack _).
  - vm_compute. reflexivity.
Defined.
