(* ===== verification/Fairness.v ===== *)
(** * Fair runs

    Infinite runs of a step function under a schedule that gives every role a turn again
    and again; a move that is not possible leaves the state as it is (the thread spins or
    sleeps).  [fair_run_reaches]: if every state that is not yet a goal has a helpful
    role whose moves lower a well-founded measure, and no other move raises the measure
    or changes the helpful role without lowering it, then every fair run reaches a
    goal. *)

From S2P Require Import Prelude.

Section FairRuns.
Context {St Mv Role : Type} (step : Mv → St → option St) (role : Mv → option Role).
Implicit Types (s : St) (mv : Mv) (moves : nat → Mv) (states : nat → St).

Record fair_run moves states : Prop := {
  fr_step n : states (S n) = default (states n) (step (moves n) (states n));
  fr_fair n r : ∃ m, n ≤ m ∧ role (moves m) = Some r;
}.

(** A property that moves preserve holds all along. *)
Lemma fair_run_invariant (P : St → Prop) moves states : fair_run moves states →
  P (states 0) → (∀ s mv s', P s → step mv s = Some s' → P s') → ∀ n, P (states n).
Proof.
  intros Hf H0 Hstep n. induction n as [|n IH]; [done|]. rewrite (fr_step _ _ Hf).
  destruct (step (moves n) (states n)) eqn:E; cbn; eauto.
Qed.

Section Measure.
Context {W : Type} (lt : W → W → Prop) (lt_wf : well_founded lt) (measure : St → W).
Context (helpful : St → Role) (good goal : St → Prop) `{!∀ s, Decision (goal s)}.
Hypothesis no_harm : ∀ s mv s', good s → ¬ goal s → step mv s = Some s' →
  lt (measure s') (measure s) ∨ (measure s' = measure s ∧ helpful s' = helpful s).
Hypothesis helps : ∀ s mv, good s → ¬ goal s → role mv = Some (helpful s) →
  ∃ s', step mv s = Some s' ∧ lt (measure s') (measure s).

(** Until its helpful role has its turn, a run keeps the measure or lowers it. *)
Lemma waits_or_lowers moves states n k : fair_run moves states → (∀ i, good (states i)) →
  (∃ i, goal (states i)) ∨ (∃ i, lt (measure (states i)) (measure (states n))) ∨
  (measure (states (n + k)) = measure (states n) ∧ helpful (states (n + k)) = helpful (states n) ∧
   ¬ goal (states (n + k))).
Proof.
  intros Hf Hg. induction k as [|k [IH|[IH|(Hm & Hh & Hn)]]]; [|by left|by right; left|].
  { rewrite Nat.add_0_r. destruct (decide (goal (states n))); eauto. }
  rewrite Nat.add_succ_r. destruct (decide (goal (states (S (n + k))))) as [|Hn']; [eauto|].
  right. pose proof (fr_step _ _ Hf (n + k)) as E.
  destruct (step (moves (n + k)) (states (n + k))) as [s'|] eqn:Es; cbn in E.
  - destruct (no_harm _ _ _ (Hg _) Hn Es) as [Hlt|[Hm' Hh']].
    + left. exists (S (n + k)). by rewrite E, <-Hm.
    + right. rewrite E in *. split_and!; [congruence..|done].
  - right. by rewrite E.
Qed.

Theorem fair_run_reaches moves states : fair_run moves states → (∀ i, good (states i)) →
  ∃ n, goal (states n).
Proof.
  intros Hf Hg. cut (∀ n : nat, ∃ m, goal (states m)); [intros Hall; by apply (Hall 0)|]. intros n.
  remember (measure (states n)) as w eqn:Ew. revert n Ew.
  induction (lt_wf w) as [w _ IH]. intros n ->.
  destruct (fr_fair _ _ Hf n (helpful (states n))) as (m & Hle & Hrole).
  destruct (waits_or_lowers moves states n (m - n) Hf Hg) as [?|[(i & Hi)|(Hm & Hh & Hn)]];
    [done|by eapply IH|]. replace (n + (m - n)) with m in * by lia.
  rewrite <-Hh in Hrole. destruct (helps _ _ (Hg m) Hn Hrole) as (s' & Es & Hlt).
  apply (IH (measure s') ltac:(by rewrite <-Hm) (S m)). by rewrite (fr_step _ _ Hf), Es.
Qed.
End Measure.
End FairRuns.
