(* ===== verification/ShutdownFair.v ===== *)
(** * Every fair shutdown completes

    Shutdown.v shows that a shutdown can complete.  Here: it does complete, under every
    schedule that keeps giving each thread its turns.  The measure goes through the
    stages in the order main waits for them; only the stage that is being waited for
    counts, so that the polling of the others does not matter. *)

From Stdlib Require Import Strings.Byte Relations.Relation_Operators Wellfounded.Lexicographic_Product.
From stdpp Require Import gmap.
From S2P Require Import Prelude Interfaces Double CoreTypes Seqlock FlatMap MatchingEngine BookSpec EngineRefinement EngineSpec EngineInvariant EngineIndex Concrete EngineTheorems MidPrice Router User Accounting Registry Settlement Bytes Wire Feed Queues Pipeline PipelineInvariant EndToEnd PipelineTheorems Shutdown Fairness.

Local Open Scope nat_scope.

(** The threads as the scheduler sees them; the turns of the gateway that count are those
    in which it looks at running_. *)
Inductive ThreadRole := GatewayRole | EngineRole | InventoryRole | PublisherRole | MainRole.

Definition thread_role {Ticker} (mv : Move Ticker) : option ThreadRole :=
  match mv with
  | MvGateway _ | MvSignal => None
  | MvGatewayExit => Some GatewayRole
  | MvEngine => Some EngineRole
  | MvInventory => Some InventoryRole
  | MvPublisher _ => Some PublisherRole
  | MvMain => Some MainRole
  end.

#[export] Instance MainPC_eq_dec : EqDecision MainPC.
Proof. solve_decision. Defined.

Section FairShutdown.
Context {Ticker : Type} `{!TickerType Ticker} {Index : Type} `{!OrderIndexType Index}.
Context {D : Type} `{!DoubleOps D} {Inv : Type} `{!InventoryMap Ticker D Inv} `{!InventoryLaws Ticker D Inv}.
Context {Qi Qm Qt : Type} `{!InboundQueue Ticker Qi} `{!MarketDataQueue Qm} `{!TradeQueue Ticker Qt}.
Context {cap : nat} `{!SpscQueueLaws cap (InboundCommand Ticker) Qi}.
Context `{!SpscQueueLaws cap (list byte) Qm} `{!SpscQueueLaws cap (Trade Ticker) Qt}.
Context (msg0 : list byte) (Hcap : 0 < cap).
Notation Proc := (Pipeline Ticker Index Inv Qi Qm Qt).
Implicit Types (s : Proc).

(** The consumer the engine waits for, if it stands at a full queue. *)
Definition blocked_on (en : EngineThread Ticker Index) (qm : Qm) (qt : Qt) : option ThreadRole :=
  match en_pc en with
  | EngineRun (PushMarketData m :: _) =>
      match q_push m qm with None => Some PublisherRole | Some _ => None end
  | EngineRun (PushTrade tr :: _) =>
      match q_push tr qt with None => Some InventoryRole | Some _ => None end
  | _ => None
  end.

(** How far a consumer that has work is from popping. *)
Definition inventory_busy (pc : InventoryPC Ticker) : nat :=
  match pc with InventoryPop => 0 | _ => 1 end.
Definition publisher_busy (pc : PublisherPC) : nat :=
  match pc with PublisherPop => 0 | _ => 1 end.

Definition wait_rank s : nat :=
  match blocked_on (matchingThread s) (marketDataQueue s) (tradeQueue s) with
  | Some PublisherRole => 1 + publisher_busy (pb_pc (marketDataThread s))
  | Some _ => 1 + inventory_busy (in_pc (inventoryThread s))
  | None => 0
  end.

Definition fair_rank s : nat * (nat * (nat * nat)) :=
  (2 * main_rank (mn_pc (mainThread s)) + (if gw_exited (gatewayThread s) then 0 else 1),
   match mn_pc (mainThread s) with
   | MainJoinMatching => (length (q_contents (inboundQueue s)),
                          (engine_rank (en_pc (matchingThread s)), wait_rank s))
   | MainJoinInventory => (length (q_contents (tradeQueue s)),
                           (inventory_rank true (in_pc (inventoryThread s)), 0))
   | MainJoinMarketData => (length (q_contents (marketDataQueue s)),
                            (publisher_rank true (pb_pc (marketDataThread s)), 0))
   | _ => (0, (0, 0))
   end).

(** The thread whose turn brings the shutdown forward. *)
Definition helpful s : ThreadRole :=
  match mn_pc (mainThread s) with
  | MainJoinGateway => if gw_exited (gatewayThread s) then MainRole else GatewayRole
  | MainJoinMatching =>
      match en_pc (matchingThread s) with
      | EngineDone => MainRole
      | _ => default EngineRole (blocked_on (matchingThread s) (marketDataQueue s) (tradeQueue s))
      end
  | MainJoinInventory => if inventory_ended (in_pc (inventoryThread s)) then MainRole else InventoryRole
  | MainJoinMarketData => if publisher_ended (pb_pc (marketDataThread s)) then MainRole else PublisherRole
  | _ => MainRole
  end.

(** What is known of the states of the run. *)
Record shutting_down s : Prop := {
  sd_reachable : reachable msg0 s;
  sd_fit : input_fit (gw_dispatched (gatewayThread s));
  sd_requested : gShutdownRequested (mainThread s) = true;
}.

(** ** Room in a queue *)

Lemma push_none_iff {A Q} `{!SpscQueue A Q} `{!SpscQueueLaws cap A Q} (a : A) (q : Q) :
  q_push a q = None ↔ length (q_contents q) = cap.
Proof.
  split; [|apply q_push_full]. intros E. pose proof (q_contents_bound q).
  destruct (decide (length (q_contents q) < cap)) as [H1|]; [|lia].
  destruct (q_push_room a q H1) as (? & ? & _). congruence.
Qed.

(** Popping makes room. *)
Lemma pop_room {A Q} `{!SpscQueue A Q} `{!SpscQueueLaws cap A Q} (a b : A) (q q' : Q) :
  q_pop q = Some (b, q') → is_Some (q_push a q').
Proof.
  intros E%q_pop_Some. pose proof (q_contents_bound q) as Hb. rewrite E in Hb. cbn in Hb.
  destruct (q_push_room a q') as (? & ? & _); [lia|]. eauto.
Qed.

(** ** Moves and the measure *)

(** A move lowers the measure; or it leaves the measure and the helpful thread as they
    are, and is not a move of that thread. *)
Definition harmless (mv : Move Ticker) s s' : Prop :=
  lower (fair_rank s') (fair_rank s) ∨
  (fair_rank s' = fair_rank s ∧ helpful s' = helpful s ∧ thread_role mv ≠ Some (helpful s)).

(** main only moves forward. *)
Lemma main_move s s' : step msg0 MvMain s = Some s' → lower (fair_rank s') (fair_rank s).
Proof.
  destruct s as [qi qm qt gw en iv pb mn]. cbn [step]. intros Hs. inv_step.
  match goal with H : main_step _ _ _ _ _ = Some _ |- _ => rename H into Hm end.
  apply left_slex. proj. unfold main_step in Hm.
  destruct (mn_pc mn) eqn:Epc; try (destruct (gw_exited gw) eqn:Eg);
    repeat (case_match; try done); simplify_eq; cbn; rewrite ?Eg; lia.
Qed.

Lemma gateway_move s s' : step msg0 MvGatewayExit s = Some s' → lower (fair_rank s') (fair_rank s).
Proof.
  destruct s as [qi qm qt gw en iv pb mn]. cbn [step]. unfold gateway_exit. intros Hs.
  destruct (gw_running_ gw), (gw_exited gw) eqn:Eg; cbn in Hs; try done. injection Hs as <-.
  apply left_slex. proj. rewrite Eg. lia.
Qed.

(** ** Turns of the workers *)

(** A turn of a worker takes something from its queue, or brings it nearer to its end. *)
Definition advances (len rank len' rank' : nat) : Prop :=
  len' < len ∨ (len' = len ∧ rank' < rank).

Lemma advances_lower a b len rank len' rank' c c' : a = b → advances len rank len' rank' →
  lower (a, (len', (rank', c'))) (b, (len, (rank, c))).
Proof.
  intros -> [H|[-> H]]; apply right_slex; [by apply left_slex|]. by apply right_slex, left_slex.
Qed.

Lemma engine_turn qi qm qt (en : EngineThread Ticker Index) qi' qm' qt' en' :
  RunMatchingEngineThread msg0 true qi qm qt en = Some (qi', qm', qt', en') →
  advances (length (q_contents qi)) (engine_rank (en_pc en))
    (length (q_contents qi')) (engine_rank (en_pc en')).
Proof.
  unfold RunMatchingEngineThread, advances.
  destruct (en_pc en) as [| |[|a acts]| |cmd] eqn:Epc; try done.
  - destruct (q_pop qi) as [[cmd q]|] eqn:Ep; cycle 1.
    { intros [= <- <- <- <-]. right. cbn. lia. }
    apply q_pop_Some in Ep. rewrite Ep. intros Hs. left.
    destruct (ProcessCommand msg0 cmd (en_router en)); injection Hs as <- <- <- <-; cbn; lia.
  - intros [= <- <- <- <-]. right. cbn. lia.
  - intros [= <- <- <- <-]. right. cbn. lia.
  - intros Hs. inv_step. right. cbn. lia.
Qed.

Lemma inventory_turn router qt (iv : InventoryThread Ticker Index Inv) qt' iv' :
  RunInventoryThread true router qt iv = Some (qt', iv') →
  (∀ tr, in_pc iv' ≠ InventoryCrashed tr) →
  advances (length (q_contents qt)) (inventory_rank true (in_pc iv))
    (length (q_contents qt')) (inventory_rank true (in_pc iv')).
Proof.
  unfold RunInventoryThread, advances. destruct (in_pc iv) as [| |tr| |tr] eqn:Epc; try done.
  - destruct (q_pop qt) as [[tr q]|] eqn:Ep; [apply q_pop_Some in Ep; rewrite Ep|];
      intros [= <- <-] _; [left|right]; cbn; lia.
  - intros [= <- <-] _. right. cbn. lia.
  - destruct (settle_trade router tr (in_registry iv)); intros [= <- <-] Hc;
      [right; cbn; lia|by destruct (Hc tr)..].
Qed.

Lemma publisher_turn ok qm pb (qm' : Qm) pb' : PublisherRun true ok qm pb = Some (qm', pb') →
  advances (length (q_contents qm)) (publisher_rank true (pb_pc pb))
    (length (q_contents qm')) (publisher_rank true (pb_pc pb')).
Proof.
  unfold PublisherRun, advances. destruct (pb_pc pb) as [| |m|] eqn:Epc; try done.
  - destruct (q_pop qm) as [[m q]|] eqn:Ep; [apply q_pop_Some in Ep; rewrite Ep|];
      intros [= <- <-]; [left|right]; cbn; lia.
  - intros [= <- <-]. right. cbn. lia.
  - intros [= <- <-]. right. cbn. lia.
Qed.

(** While the engine waits at a full queue, a turn of its consumer pops, or brings it
    nearer to popping; a turn that pops nothing of a queue changes nothing for the
    engine. *)
Lemma inventory_serves finished router qt (iv : InventoryThread Ticker Index Inv) qt' iv' :
  RunInventoryThread finished router qt iv = Some (qt', iv') →
  (∃ tr, q_pop qt = Some (tr, qt')) ∨
  (qt' = qt ∧ (in_pc iv = InventoryPop → q_contents qt = []) ∧
   (in_pc iv ≠ InventoryPop → (∀ tr, in_pc iv' ≠ InventoryCrashed tr) → in_pc iv' ≠ InventoryDone →
      inventory_busy (in_pc iv') < inventory_busy (in_pc iv))).
Proof.
  unfold RunInventoryThread. destruct (in_pc iv) as [| |tr| |tr] eqn:Epc; try done.
  - destruct (q_pop qt) as [[tr q]|] eqn:Ep; intros [= <- <-]; [left; by exists tr|right].
    split_and!; [done| |done]. intros _. destruct (q_contents qt) as [|a l] eqn:E; [done|].
    destruct (q_pop_head a l qt E) as (? & ? & _). congruence.
  - intros [= <- <-]. right. split_and!; [done..|]. intros _ _ Hd. destruct finished; [done|cbn; lia].
  - destruct (settle_trade router tr (in_registry iv)); intros [= <- <-]; right;
      (split_and!; [done..|]); intros _ Hc _; [cbn; lia|by destruct (Hc tr)..].
Qed.

Lemma publisher_serves finished ok qm pb (qm' : Qm) pb' :
  PublisherRun finished ok qm pb = Some (qm', pb') →
  (∃ m, q_pop qm = Some (m, qm')) ∨
  (qm' = qm ∧ (pb_pc pb = PublisherPop → q_contents qm = []) ∧
   (pb_pc pb ≠ PublisherPop → pb_pc pb' ≠ PublisherDone →
      publisher_busy (pb_pc pb') < publisher_busy (pb_pc pb))).
Proof.
  unfold PublisherRun. destruct (pb_pc pb) as [| |m|] eqn:Epc; try done.
  - destruct (q_pop qm) as [[m q]|] eqn:Ep; intros [= <- <-]; [left; by exists m|right].
    split_and!; [done| |done]. intros _. destruct (q_contents qm) as [|a l] eqn:E; [done|].
    destruct (q_pop_head a l qm E) as (? & ? & _). congruence.
  - intros [= <- <-]. right. split_and!; [done..|]. intros _ Hd. destruct finished; [done|cbn; lia].
  - intros [= <- <-]. right. split_and!; [done..|]. intros _ _. cbn. lia.
Qed.

(** What a turn of the inventory means to an engine that may wait for it. *)
Lemma inventory_waits finished router (en : EngineThread Ticker Index) (qm : Qm) (qt : Qt)
    (iv : InventoryThread Ticker Index Inv) qt' iv' :
  RunInventoryThread finished router qt iv = Some (qt', iv') →
  (∀ tr, in_pc iv' ≠ InventoryCrashed tr) →
  (blocked_on en qm qt ≠ None → in_pc iv' ≠ InventoryDone) →
  match blocked_on en qm qt with
  | Some InventoryRole => blocked_on en qm qt' = None ∨
      (blocked_on en qm qt' = Some InventoryRole ∧
       inventory_busy (in_pc iv') < inventory_busy (in_pc iv))
  | b => blocked_on en qm qt' = b
  end.
Proof.
  intros Hs Hc Hd. revert Hd. unfold blocked_on.
  destruct (en_pc en) as [| |[|[m|tr|r] acts]| |cmd]; try done; [by destruct (q_push m qm)|].
  intros Hd. destruct (inventory_serves _ _ _ _ _ _ Hs) as [[tr' Hp]|(-> & Hemp & Hbusy)].
  { destruct (pop_room tr tr' qt qt' Hp) as [? ->]. destruct (q_push tr qt); auto. }
  destruct (q_push tr qt) as [q|] eqn:E; [done|]. right. split; [done|].
  apply Hbusy; [|done|by apply Hd]. intros Hpop. specialize (Hemp Hpop).
  apply push_none_iff in E. rewrite Hemp in E. cbn in E. lia.
Qed.

Lemma publisher_waits finished ok (en : EngineThread Ticker Index) (qm : Qm) (qt : Qt) pb qm' pb' :
  PublisherRun finished ok qm pb = Some (qm', pb') →
  (blocked_on en qm qt ≠ None → pb_pc pb' ≠ PublisherDone) →
  match blocked_on en qm qt with
  | Some PublisherRole => blocked_on en qm' qt = None ∨
      (blocked_on en qm' qt = Some PublisherRole ∧
       publisher_busy (pb_pc pb') < publisher_busy (pb_pc pb))
  | b => blocked_on en qm' qt = b
  end.
Proof.
  intros Hs Hd. revert Hd. unfold blocked_on.
  destruct (en_pc en) as [| |[|[m|tr|r] acts]| |cmd]; try done; [|by destruct (q_push tr qt)].
  intros Hd. destruct (publisher_serves _ _ _ _ _ _ Hs) as [[m' Hp]|(-> & Hemp & Hbusy)].
  { destruct (pop_room m m' qm qm' Hp) as [? ->]. destruct (q_push m qm); auto. }
  destruct (q_push m qm) as [q|] eqn:E; [done|]. right. split; [done|].
  apply Hbusy; [|by apply Hd]. intros Hpop. specialize (Hemp Hpop).
  apply push_none_iff in E. rewrite Hemp in E. cbn in E. lia.
Qed.

(** Who is waited for is one of the two consumers, and only by a running engine. *)
Lemma blocked_on_cases (en : EngineThread Ticker Index) (qm : Qm) (qt : Qt) : match blocked_on en qm qt with
  | None => True
  | Some r => (r = PublisherRole ∨ r = InventoryRole) ∧ en_pc en ≠ EngineDone
  end.
Proof.
  unfold blocked_on. destruct (en_pc en) as [| |[|[m|tr|r] acts]| |cmd]; try done.
  - destruct (q_push m qm); auto.
  - destruct (q_push tr qt); auto.
Qed.

(** ** Every move *)

(** The invariants of a state of the run. *)
Lemma shutting_down_facts s : shutting_down s →
  stage_inv s ∧ (∀ cmd, en_pc (matchingThread s) ≠ EngineCrashed cmd) ∧
  (∀ tr, in_pc (inventoryThread s) ≠ InventoryCrashed tr).
Proof.
  intros [Hr Hf _]. destruct (process_inv_reachable msg0 s Hr) as (_ & _ & _ & _ & HS).
  destruct (running_inv_reachable msg0 s Hr Hf) as (_ & _ & _ & Hc & Hi).
  split_and!; [done| |done]. intros cmd E. by rewrite E in Hc.
Qed.

Lemma shutting_down_step s mv s' : shutting_down s → step msg0 mv s = Some s' →
  input_fit (gw_dispatched (gatewayThread s')) → shutting_down s'.
Proof.
  intros [Hr Hf Hq] Hs Hf'. split; [by eapply reachable_step|done|].
  destruct s as [qi qm qt gw en iv pb mn]. cbn in Hq.
  destruct mv; cbn in Hs; inv_step; proj; try done.
  match goal with H : main_step _ _ _ _ _ = Some _ |- _ => revert H end.
  unfold main_step. repeat case_match; intros; by simplify_eq.
Qed.

(** Nothing main looks at has changed. *)
Ltac unchanged := right; split_and!; [done|done|try done; by repeat case_match].

(** The engine's turns: main waits for it, or does not look at it yet, or it has ended. *)
Lemma engine_harmless s s' : shutting_down s → step msg0 MvEngine s = Some s' →
  harmless MvEngine s s'.
Proof.
  intros Hsd Hs. destruct (shutting_down_facts s Hsd) as ([_ _ S3 S4 _ S6] & _ & _). clear Hsd.
  destruct s as [qi qm qt gw en iv pb mn]. revert S3 S4 S6. proj. intros S3 S4 S6.
  cbn [step] in Hs. apply bind_Some in Hs as ([[[qi' qm'] qt'] en'] & Ht & [= <-]).
  unfold harmless, fair_rank, helpful. proj.
  assert (en_pc en ≠ EngineDone) as Hnd by (intros E; unfold RunMatchingEngineThread in Ht; by rewrite E in Ht).
  destruct (mn_pc mn); [unchanged..| | | |unchanged]; [|by destruct Hnd; auto..].
  left. apply advances_lower; [done|]. rewrite S6 in Ht. by eapply engine_turn.
Qed.

Lemma wait_rank_eq qi qm qt gw en iv pb mn : wait_rank (mkPipeline qi qm qt gw en iv pb mn) =
  match blocked_on en qm qt with
  | Some PublisherRole => 1 + publisher_busy (pb_pc pb)
  | Some _ => 1 + inventory_busy (in_pc iv)
  | None => 0
  end.
Proof. done. Qed.

Lemma inventory_harmless s s' : shutting_down s → shutting_down s' →
  step msg0 MvInventory s = Some s' → harmless MvInventory s s'.
Proof.
  intros Hsd Hsd' Hs. destruct (shutting_down_facts s Hsd) as ([_ _ S3 S4 _ S6] & _ & _).
  destruct (shutting_down_facts s' Hsd') as ([_ _ S3' S4' _ _] & _ & Hc'). clear Hsd Hsd'.
  destruct s as [qi qm qt gw en iv pb mn]. revert S3 S4 S6. proj. intros S3 S4 S6.
  cbn [step] in Hs. apply bind_Some in Hs as ([qt' iv'] & Ht & [= <-]).
  revert S3' S4' Hc'. unfold harmless, fair_rank, helpful. rewrite !wait_rank_eq. proj. intros S3' S4' Hc'.
  assert (in_pc iv ≠ InventoryDone) as Hnd by (intros E; unfold RunInventoryThread in Ht; by rewrite E in Ht).
  destruct (mn_pc mn); [unchanged..| | |by destruct Hnd|unchanged]; cycle 1.
  { left. apply advances_lower; [done|]. rewrite S6 in Ht. by eapply inventory_turn. }
  pose proof (blocked_on_cases en qm qt) as Hb.
  assert (blocked_on en qm qt ≠ None → in_pc iv' ≠ InventoryDone) as Hd.
  { intros H E. destruct (blocked_on en qm qt); [|done]. destruct Hb as [_ Hb]. auto. }
  pose proof (inventory_waits _ _ en qm _ _ _ _ Ht Hc' Hd) as Hw.
  destruct (blocked_on en qm qt) as [r|]; [|right; rewrite Hw; split_and!; [done|done|by destruct (en_pc en)]].
  destruct Hb as [[-> | ->] _]; [right; rewrite Hw; split_and!; [done|done|by destruct (en_pc en)]|]. left.
  do 3 apply right_slex. destruct Hw as [->|[-> Hlt]]; cbn; lia.
Qed.

Lemma publisher_harmless s s' ok : shutting_down s → shutting_down s' →
  step msg0 (MvPublisher ok) s = Some s' → harmless (MvPublisher ok) s s'.
Proof.
  intros Hsd Hsd' Hs. destruct (shutting_down_facts s Hsd) as ([_ _ S3 S4 S5 S6] & _ & _).
  destruct (shutting_down_facts s' Hsd') as ([_ _ S3' _ S5' _] & _ & _). clear Hsd Hsd'.
  destruct s as [qi qm qt gw en iv pb mn]. revert S3 S4 S5 S6. proj. intros S3 S4 S5 S6.
  cbn [step] in Hs. apply bind_Some in Hs as ([qm' pb'] & Ht & [= <-]).
  revert S3' S5'. unfold harmless, fair_rank, helpful. rewrite !wait_rank_eq. proj. intros S3' S5'.
  assert (pb_pc pb ≠ PublisherDone) as Hnd by (intros E; unfold PublisherRun in Ht; by rewrite E in Ht).
  destruct (mn_pc mn); [unchanged..| |unchanged| |by destruct Hnd, S6]; cycle 1.
  { left. apply advances_lower; [done|]. rewrite (S4 S6) in Ht. by eapply publisher_turn. }
  pose proof (blocked_on_cases en qm qt) as Hb.
  assert (blocked_on en qm qt ≠ None → pb_pc pb' ≠ PublisherDone) as Hd.
  { intros H E. destruct (blocked_on en qm qt); [|done]. destruct Hb as [_ Hb]. auto. }
  pose proof (publisher_waits _ _ en _ qt _ _ _ Ht Hd) as Hw.
  destruct (blocked_on en qm qt) as [r|]; [|right; rewrite Hw; split_and!; [done|done|by destruct (en_pc en)]].
  destruct Hb as [[-> | ->] _]; [|right; rewrite Hw; split_and!; [done|done|by destruct (en_pc en)]]. left.
  do 3 apply right_slex. destruct Hw as [->|[-> Hlt]]; cbn; lia.
Qed.

(** The gateway still takes orders until it looks at running_. *)
Lemma push_harmless s s' cmd : shutting_down s → step msg0 (MvGateway cmd) s = Some s' →
  harmless (MvGateway cmd) s s'.
Proof.
  intros Hsd Hs. destruct (shutting_down_facts s Hsd) as ([S1 S2 S3 S4 _ S6] & _ & _). clear Hsd.
  destruct s as [qi qm qt gw en iv pb mn]. revert S1 S2 S3 S4 S6. proj. intros S1 S2 S3 S4 S6.
  cbn [step] in Hs. apply bind_Some in Hs as ([qi' gw'] & Ht & [= <-]). unfold gateway_push in Ht.
  destruct (gw_exited gw) eqn:Eg; [done|]. apply bind_Some in Ht as (q & _ & [= <- <-]).
  unfold harmless, fair_rank, helpful. proj. rewrite Eg.
  destruct (mn_pc mn); [unchanged..| |unchanged|unchanged|unchanged].
  by specialize (S1 S6).
Qed.

(** ** The helpful thread *)

Lemma harmless_step s mv s' : shutting_down s → step msg0 mv s = Some s' → harmless mv s s'.
Proof.
  intros Hsd Hs. pose proof (λ H, shutting_down_step s mv s' Hsd Hs H) as Hsd'.
  destruct mv as [cmd| | | |ok| |].
  - by eapply push_harmless.
  - left. by apply gateway_move.
  - by apply engine_harmless.
  - apply inventory_harmless; [done| |done]. apply Hsd'. clear Hsd'. destruct Hsd as [_ Hf _].
    destruct s. cbn in Hs. by inv_step.
  - apply publisher_harmless; [done| |done]. apply Hsd'. clear Hsd'. destruct Hsd as [_ Hf _].
    destruct s. cbn in Hs. by inv_step.
  - left. by apply main_move.
  - right. destruct s. cbn in Hs. injection Hs as <-. done.
Qed.

(** When each worker can move. *)
Lemma engine_moves qi qm qt gw en iv pb mn : blocked_on en qm qt = None →
  en_pc en ≠ EngineDone → (∀ cmd, en_pc en ≠ EngineCrashed cmd) →
  is_Some (step msg0 MvEngine (mkPipeline qi qm qt gw en iv pb mn : Proc)).
Proof.
  intros Hb Hd Hc. cbn [step]. unfold RunMatchingEngineThread. unfold blocked_on in Hb.
  destruct (en_pc en) as [| |[|[m|tr|r] acts]| |cmd]; try done; [| | |by destruct (Hc cmd)].
  - destruct (q_pop qi) as [[cmd q]|]; [|done]. by destruct (ProcessCommand msg0 cmd (en_router en)).
  - cbn [do_action]. by destruct (q_push m qm).
  - cbn [do_action]. by destruct (q_push tr qt).
Qed.

Lemma inventory_moves qi qm qt gw en iv pb mn : in_pc iv ≠ InventoryDone →
  (∀ tr, in_pc iv ≠ InventoryCrashed tr) →
  is_Some (step msg0 MvInventory (mkPipeline qi qm qt gw en iv pb mn : Proc)).
Proof.
  intros Hd Hc. cbn [step]. unfold RunInventoryThread.
  destruct (in_pc iv) as [| |tr| |tr]; try done; [| |by destruct (Hc tr)].
  - by destruct (q_pop qt) as [[tr q]|].
  - by destruct (settle_trade (en_router en) tr (in_registry iv)).
Qed.

Lemma publisher_moves qi qm qt gw en iv pb mn ok : pb_pc pb ≠ PublisherDone →
  is_Some (step msg0 (MvPublisher ok) (mkPipeline qi qm qt gw en iv pb mn : Proc)).
Proof.
  intros Hd. cbn [step]. unfold PublisherRun. destruct (pb_pc pb) as [| |m|]; try done.
  by destruct (q_pop qm) as [[m q]|].
Qed.

(** The helpful thread can move. *)
Lemma helpful_moves s mv : shutting_down s → mn_pc (mainThread s) ≠ MainDone →
  thread_role mv = Some (helpful s) → is_Some (step msg0 mv s).
Proof.
  intros Hsd Hnd. destruct (shutting_down_facts s Hsd) as ([_ _ S3 S4 S5 S6] & Hec & Hic).
  pose proof (sd_requested _ Hsd) as Hq. clear Hsd. revert Hnd S3 S4 S5 S6 Hec Hic Hq.
  destruct s as [qi qm qt gw en iv pb mn]. unfold helpful. proj.
  intros Hnd S3 S4 S5 S6 Hec Hic Hq Hr. pose proof (blocked_on_cases en qm qt) as Hb.
  assert (en_pc en ≠ EngineDone → in_pc iv ≠ InventoryDone ∧ pb_pc pb ≠ PublisherDone) as Hrun
    by (intros He; split; intros E; apply He; auto).
  destruct (mn_pc mn) eqn:Em; [..|done].
  - destruct mv; try done. cbn [step]. unfold main_step. by rewrite Em, Hq.
  - destruct (gw_exited gw) eqn:Eg; destruct mv; try done; cbn [step].
    + unfold main_step. by rewrite Em, Eg.
    + unfold gateway_exit. by rewrite S6, Eg.
  - assert (en_pc en = EngineDone ∨ en_pc en ≠ EngineDone ∧
      thread_role mv = Some (default EngineRole (blocked_on en qm qt))) as [Ed|[Ed Hr']].
    { destruct (en_pc en); auto. }
    { rewrite Ed in Hr. destruct mv; try done. cbn [step]. unfold main_step. by rewrite Em, Ed. }
    clear Hr. destruct (Hrun Ed) as [Hi Hp].
    destruct (blocked_on en qm qt) as [r|] eqn:Eb; cbn in Hr'.
    + destruct Hb as [[-> | ->] _]; destruct mv; try done;
        [by apply publisher_moves|by apply inventory_moves].
    + destruct mv; try done. by apply engine_moves.
  - destruct (in_pc iv) eqn:Ei; cbn in Hr; destruct mv; try done;
      try (apply inventory_moves; congruence).
    cbn [step]. unfold main_step. by rewrite Em, Ei.
  - destruct (pb_pc pb) eqn:Ep; cbn in Hr; destruct mv; try done;
      try (apply publisher_moves; congruence).
    cbn [step]. unfold main_step. by rewrite Em, Ep.
Qed.
End FairShutdown.

(** ** Properties *)

(** C10: Every fair shutdown completes.  Take any reachable state in which a shutdown was
    requested, and any infinite schedule from there in which each thread gets turns again
    and again (blocked turns change nothing; the gateway's turns are those in which it
    looks at running_), with whatever input the clients still send and sendto failing as
    it likes.  If all input is well formed (from participants, prices within [-2^62, 2^62),
    the volume ordered in total fits in 64 bits) and the queues hold at least one element,
    main is done after finitely many turns: polling, retries on full queues and the order of
    the joins never keep the process alive for ever. *)
Theorem fair_shutdown_completes {Ticker Index D Inv Qi Qm Qt} `{!TickerType Ticker}
    `{!OrderIndexType Index} `{!DoubleOps D} `{!InventoryMap Ticker D Inv}
    `{!InventoryLaws Ticker D Inv}
    `{!InboundQueue Ticker Qi} `{!MarketDataQueue Qm} `{!TradeQueue Ticker Qt} {cap : nat}
    `{!SpscQueueLaws cap (InboundCommand Ticker) Qi} `{!SpscQueueLaws cap (list byte) Qm}
    `{!SpscQueueLaws cap (Trade Ticker) Qt} (msg0 : list byte)
    (moves : nat → Move Ticker) (states : nat → Pipeline Ticker Index Inv Qi Qm Qt) :
  0 < cap → fair_run (step msg0) thread_role moves states →
  reachable msg0 (states 0) → gShutdownRequested (mainThread (states 0)) = true →
  (∀ n, input_fit (gw_dispatched (gatewayThread (states n)))) →
  ∃ n, mn_pc (mainThread (states n)) = MainDone.
Proof.
  intros Hcap Hrun Hr Hq Hfit.
  assert (∀ n, shutting_down msg0 (states n)) as Hsd.
  { intros n. induction n as [|n IH]; [by split|]. pose proof (fr_step _ _ _ _ Hrun n) as E.
    destruct (step msg0 (moves n) (states n)) eqn:Es; cbn in E; [|by rewrite E].
    rewrite E. eapply shutting_down_step; [done..|]. rewrite <-E. apply Hfit. }
  eapply (fair_run_reaches (step msg0) thread_role lower lower_wf fair_rank helpful
    (shutting_down msg0) (λ s, mn_pc (mainThread s) = MainDone)); [| |done..].
  - intros s mv s' Hs _ Hstep. destruct (harmless_step (cap:=cap) msg0 Hcap s mv s' Hs Hstep)
      as [|(? & ? & _)]; [by left|by right].
  - intros s mv Hs Hnd Hrole. destruct (helpful_moves (cap:=cap) msg0 s mv Hs Hnd Hrole) as [s' Hstep].
    exists s'. split; [done|].
    by destruct (harmless_step (cap:=cap) msg0 Hcap s mv s' Hs Hstep) as [|(_ & _ & ?)].
Qed.

(** Round robin, after a shutdown was requested in the middle of a trade. *)
Definition round_robin (n : nat) : Move CTicker :=
  nth (n mod 5) [MvGatewayExit; MvEngine; MvInventory; MvPublisher true] MvMain.

Fixpoint robin_states (n : nat) : CProc :=
  match n with
  | O => after_moves busy_moves
  | S n' => default (robin_states n') (step zeros (round_robin n') (robin_states n'))
  end.

Lemma robin_fair : fair_run (step zeros) thread_role round_robin robin_states.
Proof.
  split; [done|]. intros n r. unfold round_robin.
  exists ((match r with GatewayRole => 0 | EngineRole => 1 | InventoryRole => 2
           | PublisherRole => 3 | MainRole => 4 end) + n * 5).
  split; [destruct r; lia|]. rewrite Nat.Div0.mod_add. by destruct r.
Qed.

(** Without input, what was dispatched stays. *)
Lemma own_move_dispatched mv (s s' : CProc) : thread_role mv ≠ None → step zeros mv s = Some s' →
  gw_dispatched (gatewayThread s') = gw_dispatched (gatewayThread s).
Proof.
  intros Hr Hs. destruct s as [qi qm qt gw en iv pb mn].
  destruct mv; try done; cbn [step] in Hs; inv_step; proj; try done.
  - match goal with H : gateway_exit _ = Some _ |- _ => revert H end.
    unfold gateway_exit. case_match; [done|]. by intros [= <-].
  - by repeat case_match.
Qed.

Lemma robin_dispatched n : gw_dispatched (gatewayThread (robin_states n)) =
  [CmdAdd (add 1 1 AAPL Sell 100 10); CmdAdd (add 2 2 AAPL Buy 100 4)].
Proof.
  induction n as [|n IH]; [vm_compute; reflexivity|]. cbn [robin_states].
  destruct (step zeros (round_robin n) (robin_states n)) eqn:E; cbn [default from_option id]; [|done].
  rewrite <-IH. eapply own_move_dispatched; [|done]. unfold round_robin.
  by destruct (n mod 5) as [|[|[|[|[|?]]]]].
Qed.

Lemma fair_shutdown_completes_witness : ∃ n, mn_pc (mainThread (robin_states n)) = MainDone.
Proof.
  apply (fair_shutdown_completes (cap:=QUEUE_CAPACITY) zeros round_robin robin_states).
  - apply Nat.lt_0_succ.
  - apply robin_fair.
  - exact (proj1 busy).
  - vm_compute. reflexivity.
  - intros n. rewrite robin_dispatched. by apply (bool_decide_unpack _).
Defined.
