(* ===== verification/Exchange.v ===== *)
(** * The exchange process from start to exit (exchange/main.cpp)

    main() constructs the gateway and the publisher, starts the threads (Pipeline.v),
    joins them, writes the snapshot, and destroys its objects.  This file composes the
    parts: what the final snapshot says, and that the process gives back every
    descriptor it opened. *)

From Stdlib Require Import Strings.Byte Strings.String.
From stdpp Require Import gmap.
From S2P Require Import Prelude Interfaces Double CoreTypes Seqlock FlatMap MatchingEngine BookSpec EngineRefinement EngineSpec EngineInvariant EngineIndex Concrete EngineTheorems MidPrice Router User Accounting Registry Settlement Bytes Wire Feed Os Gateway GatewayTheorems GatewayLifecycle Publisher Queues Pipeline PipelineInvariant EndToEnd PipelineTheorems.

Local Open Scope Z_scope.

Definition GATEWAY_PORT : Z := 9000.
Definition MARKET_DATA_MULTICAST_ADDRESS : list byte := list_byte_of_string "239.1.1.1".
Definition MARKET_DATA_PORT : Z := 30001.

(** How main ends: it returns, an exception leaves it, or an exception leaves the
    gateway's thread and std::terminate is called. *)
Inductive MainResult (K H R : Type) :=
  | MainReturned (k : K) (h : H) (rows : R)
  | MainThrew (k : K) (err : PublisherError)
  | SnapshotThrew (e : exn)
  | Terminated (why : SetupError + exn)
  | MainStuck.
Arguments MainReturned {K H R} _ _ _.
Arguments MainThrew {K H R} _ _.
Arguments SnapshotThrew {K H R} _.
Arguments Terminated {K H R} _.
Arguments MainStuck {K H R}.

Section Main.
Context {Ticker : Type} `{!TickerType Ticker}.
Context {D : Type} `{!DoubleOps D} {Inv : Type} `{!InventoryMap Ticker D Inv}.
Context {Conns : Type} `{!ConnMap Conns} {K : Type} `{!Kernel K}.
Context (inet_pton : list byte → option Z).
Context {H : Type} (push : InboundCommand Ticker → H → Outcome H).

(** main(), as far as the system and the snapshot see it: [rounds] is how long the
    gateway's loop runs until Stop(), [registry] what the inventory thread left, and
    [opens] whether the snapshot file can be opened.  Locals are destroyed in the
    reverse order of their construction.  When the publisher cannot be constructed the
    exception leaves main; whether the gateway is then destroyed is left open by the
    language, and makes no difference here: it holds no descriptor before Run. *)
Definition exchange_main (rounds : nat) (registry : UserRegistry Inv) (opens : bool) (h : H) (k : K)
    : MainResult K H (list (SnapshotRow D Ticker)) :=
  let gateway : GwState Conns K H := Gateway_new GATEWAY_PORT k h in
  let (k, made) := Publisher_new inet_pton true MARKET_DATA_MULTICAST_ADDRESS MARKET_DATA_PORT
                     (gw_kernel gateway) in
  match made with
  | inr err => MainThrew (gw_kernel (Gateway_delete
                 (mkGw (gw_fds gateway) (connections_ gateway) k (gw_out gateway)))) err
  | inl publisher =>
      match Run push rounds (mkGw (gw_fds gateway) (connections_ gateway) k (gw_out gateway)) with
      | RunReturned g =>
          match WriteSnapshot opens registry with
          | Ok rows =>
              let k := Publisher_delete publisher (gw_kernel g) in
              let g := Gateway_delete (mkGw (gw_fds g) (connections_ g) k (gw_out g)) in
              MainReturned (gw_kernel g) (gw_out g) rows
          | Throw e => SnapshotThrew e
          | _ => MainStuck
          end
      | RunSetupThrew _ err => Terminated (inl err)
      | RunLoopThrew e => Terminated (inr e)
      | RunStuck => MainStuck
      end
  end.
End Main.

(** ** The snapshot *)

Section FinalSnapshot.
Context {Ticker : Type} `{!TickerType Ticker}.
Context {D : Type} `{!DoubleOps D} {Inv : Type} `{!InventoryMap Ticker D Inv} `{!InventoryLaws Ticker D Inv}.
Implicit Types (r : UserRegistry Inv) (t : Ticker) (rows : list (SnapshotRow D Ticker)).

(** The position column of the rows of a ticker, added up. *)
Definition rows_position rows t : Z :=
  sumZ (λ row, value (hd_volume_ (row_holding row))) (filter (λ row, row_ticker row = t) rows).

Lemma rows_position_app rows1 rows2 t :
  rows_position (rows1 ++ rows2) t = rows_position rows1 t + rows_position rows2 t.
Proof. unfold rows_position. by rewrite filter_app, sumZ_app. Qed.

(** A list of entries with distinct keys has at most one for a ticker. *)
Lemma entries_at (es : list (Ticker * Holding D)) t : NoDup es.*1 →
  sumZ (λ e, value (hd_volume_ e.2)) (filter (λ e, e.1 = t) es) =
  match filter (λ e, e.1 = t) es with [] => 0 | e :: _ => value (hd_volume_ e.2) end ∧
  (∀ h, (t, h) ∈ es → ∃ l, filter (λ e, e.1 = t) es = (t, h) :: l).
Proof.
  induction es as [|[t' h'] es IH]; [intros _; split; [done|]; by intros h ?%elem_of_nil|].
  rewrite fmap_cons. intros [Hn Hnd]%NoDup_cons. rewrite filter_cons. cbn [fst].
  case_decide as E; cycle 1.
  { destruct (IH Hnd) as [IH1 IH2]. split; [done|].
    intros h [[= -> ->]|Hin]%elem_of_cons; [done|by apply IH2]. }
  subst t'. assert (filter (λ e : Ticker * Holding D, e.1 = t) es = []) as Hnil.
  { destruct (filter _ es) as [|[t2 h2] l] eqn:El; [done|]. destruct Hn.
    assert ((t2, h2) ∈ filter (λ e : Ticker * Holding D, e.1 = t) es) as [Ht Hin]%list_elem_of_filter
      by (rewrite El; by left). cbn in Ht. subst t2. by apply (list_elem_of_fmap_2 fst) in Hin. }
  rewrite Hnil. split; [cbn; lia|].
  intros h [[= ->]|Hin]%elem_of_cons; [eauto|]. destruct Hn.
  by apply (list_elem_of_fmap_2 fst) in Hin.
Qed.

(** The rows of one user add up to the user's position. *)
Lemma user_rows_position (u : User Inv) t :
  rows_position ((λ '(t, h), mkRow (Id u) t h) <$> um_entries (Inventory u)) t =
  value (hd_volume_ (holding_of u t)).
Proof.
  unfold rows_position. rewrite filter_fmap.
  set (es := um_entries (Inventory u)).
  assert (filter (λ x, row_ticker (let '(t0, h) := x in mkRow (Id u) t0 h) = t) es =
    filter (λ e : Ticker * Holding D, e.1 = t) es) as ->.
  { apply list_filter_iff. by intros [t' h]. }
  assert (∀ l, sumZ (λ row, value (hd_volume_ (row_holding row)))
    ((λ '(t0, h), mkRow (Id u) t0 h) <$> l) = sumZ (λ e : Ticker * Holding D, value (hd_volume_ e.2)) l) as ->.
  { induction l as [|[t' h] l IHl]; [done|]. rewrite fmap_cons, !sumZ_cons, IHl. done. }
  destruct (entries_at es t) as [-> Hin]; [apply um_entries_NoDup|]. unfold holding_of.
  destruct (um_find t (us_inventory_ u)) as [h|] eqn:Ef.
  - apply um_entries_find in Ef. destruct (Hin h Ef) as [l ->]. done.
  - destruct (filter _ es) as [|[t' h] l] eqn:El; [done|]. exfalso.
    assert ((t', h) ∈ filter (λ e : Ticker * Holding D, e.1 = t) es) as [E Hel]%list_elem_of_filter
      by (rewrite El; by left). cbn in E. subst t'. apply um_entries_find in Hel. 
    unfold Inventory in Hel. congruence.
Qed.

Lemma snapshot_position r rows t : WriteSnapshot true r = Ok rows →
  rows_position rows t = sumZ (λ u, value (hd_volume_ (holding_of u t))) (users_ r).
Proof.
  intros [= <-]. induction (users_ r) as [|u us IH]; [done|].
  rewrite bind_cons, rows_position_app, user_rows_position, sumZ_cons. by rewrite IH.
Qed.

(** A sum over the users is a sum over the participants. *)
Lemma users_sum r t : registry_sized r →
  sumZ (λ u, value (hd_volume_ (holding_of u t))) (users_ r) = total_position r t.
Proof.
  unfold registry_sized, total_position, participants. intros <-. unfold volume_at, hold.
  generalize (users_ r). intros us.
  assert (∀ pre, sumZ (λ u, value (hd_volume_ (holding_of u t))) us =
    sumZ (λ i, value (hd_volume_ (match (pre ++ us) !! i with Some u => holding_of u t
      | None => holding_init end))) (seq (length pre) (length us))) as Hgen; [|by apply (Hgen [])].
  induction us as [|u us IH]; intros pre; [done|]. cbn [length seq]. rewrite !sumZ_cons.
  rewrite list_lookup_middle by done. f_equal.
  specialize (IH (pre ++ [u])). rewrite length_app, Nat.add_1_r, <-(assoc_L (++)) in IH. apply IH.
Qed.
End FinalSnapshot.

(** Once main has joined every thread, no step changes the registry any more. *)
Lemma registry_frozen {Ticker Index D Inv Qi Qm Qt} `{!TickerType Ticker}
    `{!OrderIndexType Index} `{!DoubleOps D} `{!InventoryMap Ticker D Inv}
    `{!InventoryLaws Ticker D Inv}
    `{!InboundQueue Ticker Qi} `{!MarketDataQueue Qm} `{!TradeQueue Ticker Qt} {cap : nat}
    `{!SpscQueueLaws cap (InboundCommand Ticker) Qi} `{!SpscQueueLaws cap (list byte) Qm}
    `{!SpscQueueLaws cap (Trade Ticker) Qt} (msg0 : list byte)
    (s s' : Pipeline Ticker Index Inv Qi Qm Qt) mv :
  reachable msg0 s → mn_pc (mainThread s) = MainDone → step msg0 mv s = Some s' →
  in_registry (inventoryThread s') = in_registry (inventoryThread s).
Proof.
  intros Hr Hdone Hstep. destruct (process_inv_reachable msg0 s Hr) as (_ & _ & _ & _ & [_ _ _ _ _ S6]).
  rewrite Hdone in S6. destruct S6 as [Hinv _]. destruct s as [qi qm qt gw en iv pb mn].
  destruct mv; simpl in Hstep; inv_step; try done.
  cbn [inventoryThread] in Hinv. unfold RunInventoryThread in *. by rewrite Hinv in *.
Qed.

(** ** Properties *)

(** The final snapshot is stable and balanced.  Once main has joined every thread, no
    step of any thread can change the registry any more, so writing the snapshot without
    a lock races with nothing; the file then holds the accounts after all settled
    trades, and for every instrument the position column of its rows adds up to zero. *)
Theorem final_snapshot_balances {Ticker Index D Inv Qi Qm Qt} `{!TickerType Ticker}
    `{!OrderIndexType Index} `{!DoubleOps D} `{!InventoryMap Ticker D Inv}
    `{!InventoryLaws Ticker D Inv}
    `{!InboundQueue Ticker Qi} `{!MarketDataQueue Qm} `{!TradeQueue Ticker Qt} {cap : nat}
    `{!SpscQueueLaws cap (InboundCommand Ticker) Qi} `{!SpscQueueLaws cap (list byte) Qm}
    `{!SpscQueueLaws cap (Trade Ticker) Qt} (msg0 : list byte)
    (s : Pipeline Ticker Index Inv Qi Qm Qt) :
  reachable msg0 s → mn_pc (mainThread s) = MainDone →
  input_fit (gw_dispatched (gatewayThread s)) →
  (∀ mv s', step msg0 mv s = Some s' →
    in_registry (inventoryThread s') = in_registry (inventoryThread s)) ∧
  ∃ rows, WriteSnapshot true (in_registry (inventoryThread s)) = Ok rows ∧
    (∀ i t, volume_at (in_registry (inventoryThread s)) i t =
       sumZ (λ x, position_change x.2 i t) (in_settled (inventoryThread s))) ∧
    ∀ t, rows_position rows t = 0.
Proof.
  intros Hr Hdone Hin. split; [intros mv s'; by apply registry_frozen|].
  destruct (settled_ok msg0 s Hr Hin) as [Hss Ha].
  destruct (settlement_run (Inv:=Inv) _ Hss) as (r & HR & Hsz & _ & Hp).
  assert (r = in_registry (inventoryThread s)) as -> by congruence.
  eexists. split; [done|]. split; [done|]. intros t.
  rewrite (snapshot_position (in_registry (inventoryThread s)) _ t eq_refl), users_sum by done.
  by eapply total_of_changes.
Qed.

(** A run with a trade, shut down cleanly. *)
Definition trade_then_stop : list (Move CTicker) :=
  [MvGateway (CmdAdd (add 1 1 AAPL Sell 100 10)); MvGateway (CmdAdd (add 2 2 AAPL Buy 100 4))] ++
  replicate 13 MvEngine ++ [MvSignal; MvMain; MvGatewayExit; MvMain; MvEngine; MvMain] ++
  replicate 4 MvInventory ++ replicate 8 (MvPublisher true) ++ [MvMain; MvMain].

Lemma trade_then_stop_done : reachable zeros (after_moves trade_then_stop) ∧
  summary (after_moves trade_then_stop) = (MainDone, 0, 0, 0)%nat.
Proof. apply run_summary. vm_compute. reflexivity. Qed.

Lemma trade_then_stop_fit : input_fit (gw_dispatched (gatewayThread (after_moves trade_then_stop))).
Proof.
  assert (gw_dispatched (gatewayThread (after_moves trade_then_stop)) =
    [CmdAdd (add 1 1 AAPL Sell 100 10); CmdAdd (add 2 2 AAPL Buy 100 4)]) as ->
    by (vm_compute; reflexivity).
  by apply (bool_decide_unpack _).
Qed.

Lemma final_snapshot_balances_witness :
  let s := after_moves trade_then_stop in
  (∀ mv s', step zeros mv s = Some s' →
    in_registry (inventoryThread s') = in_registry (inventoryThread s)) ∧
  (∃ rows, WriteSnapshot true (in_registry (inventoryThread s)) = Ok rows ∧
    (∀ i t, volume_at (in_registry (inventoryThread s)) i t =
       sumZ (λ x, position_change x.2 i t) (in_settled (inventoryThread s))) ∧
    ∀ t, rows_position rows t = 0) ∧
  volume_at (in_registry (inventoryThread s)) 2 AAPL = 4.
Proof.
  intros s. rewrite (assoc and). split; [|vm_compute; reflexivity].
  apply (final_snapshot_balances (cap:=QUEUE_CAPACITY) zeros s).
  - apply trade_then_stop_done.
  - vm_compute. reflexivity.
  - apply trade_then_stop_fit.
Defined.


(** inet_pton on the one address of main. *)
Definition known_address (s : list byte) : option Z :=
  if decide (s = MARKET_DATA_MULTICAST_ADDRESS) then Some (le_value (byte_of_Z <$> [239; 1; 1; 1]))
  else None.

(** One client, which sends one frame and hangs on until the end. *)
Definition one_client : sim :=
  mkSim ∅ [] {[0; 1; 2]} ∅ ∅ 3 true true true
    [mkRound [9] ∅ [4]; mkRound [] {[9 := replicate 50 x00]} [9]].

