(* ===== verification/SnapshotFile.v ===== *)
(** * The file the exchange leaves behind

    Exchange.v shows that the rows of the final snapshot balance, SnapshotText.v that the
    file can be read back.  Together: whoever reads inventory_snapshot.csv after a clean
    shutdown finds the positions of every account, and they add up to zero.  The amounts,
    however, are written with six significant digits. *)

From Stdlib Require Import Strings.Byte Strings.String.
From Stdlib Require Import QArith.
From stdpp Require Import gmap.
From S2P Require Import Prelude Interfaces Double CoreTypes Seqlock FlatMap MatchingEngine BookSpec EngineRefinement EngineSpec EngineInvariant EngineIndex Concrete EngineTheorems MidPrice Router User Accounting Registry Settlement Decimal SnapshotText Bytes Wire Feed Queues Pipeline PipelineInvariant EndToEnd PipelineTheorems Exchange.

Local Open Scope Z_scope.

(** ** What settling touches *)

Section Touched.
Context {D : Type} `{!DoubleOps D} {Ticker : Type} `{!TickerType Ticker}.
Context {Inv : Type} `{!InventoryMap Ticker D Inv} `{!InventoryLaws Ticker D Inv}.
Context {Index : Type} `{!OrderIndexType Index}.
Implicit Types (r : UserRegistry Inv) (t : Ticker) (u : User Inv).

(** Some user has a holding in [t]. *)
Definition touched r t : Prop := Exists (λ u, is_Some (um_find t (Inventory u))) (users_ r).

(** A member function that only touches [t0]. *)
Definition touches_only t0 (f : User Inv → Outcome (User Inv)) : Prop :=
  ∀ u u' t, f u = Ok u' → is_Some (um_find t (Inventory u')) → t = t0 ∨ is_Some (um_find t (Inventory u)).

Lemma on_user_touched t0 f i r r' t : touches_only t0 f → on_user i f r = Ok r' →
  touched r' t → t = t0 ∨ touched r t.
Proof.
  intros Hf. unfold on_user, touched. destruct (users_ r !! i) as [u|] eqn:Eu; [|done].
  intros (u' & HR & [= <-])%bind_Ok. cbn [users_]. rewrite !Exists_exists.
  intros (x & [j Hj]%list_elem_of_lookup & Ht). destruct (decide (j = i)) as [->|Hne]; cycle 1.
  { rewrite list_lookup_insert_ne in Hj by done. right. exists x. split; [|done].
    by eapply list_elem_of_lookup_2. }
  rewrite list_lookup_insert_eq in Hj by (by eapply lookup_lt_Some). injection Hj as <-.
  destruct (Hf u u' t HR Ht) as [|Hu]; [by left|right]. exists u. split; [|done].
  by eapply list_elem_of_lookup_2.
Qed.

Lemma um_set_touches t0 t h u : is_Some (um_find t (um_set t0 h (us_inventory_ u))) →
  t = t0 ∨ is_Some (um_find t (Inventory u)).
Proof. destruct (decide (t = t0)); [by left|]. rewrite um_find_set_ne by done. by right. Qed.

Lemma ApplyFill_touches t0 side price vol : touches_only t0 (ApplyFill t0 side price vol).
Proof. intros u u' t (h & _ & [= <-])%bind_Ok. apply um_set_touches. Qed.

Lemma RefreshUnrealizedPnl_touches t0 mid : touches_only t0 (λ u, Ok (RefreshUnrealizedPnl t0 mid u)).
Proof.
  intros u u' t [= <-]. unfold RefreshUnrealizedPnl. destruct (um_find t0 _); [apply um_set_touches|by right].
Qed.

Lemma settle_trade_touches router (trade : Trade Ticker) r r' t : settle_trade (Index:=Index) router trade r = Ok r' →
  touched r' t → t = tr_ticker_ trade ∨ touched r t.
Proof.
  unfold settle_trade. intros (mk & _ & (tk & _ & (r1 & H1 & (r2 & H2 & (mid & _ & H3)%bind_Ok)%bind_Ok)%bind_Ok)%bind_Ok)%bind_Ok Ht.
  pose proof (λ s p v, ApplyFill_touches (tr_ticker_ trade) s p v) as HA.
  assert (touched r2 t → t = tr_ticker_ trade ∨ touched r t) as H12.
  { intros H. destruct (on_user_touched _ _ _ _ _ t (HA _ _ _) H2 H); [by left|].
    by eapply on_user_touched. }
  destruct mid as [mid|]; [|injection H3 as <-; by apply H12].
  apply bind_Ok in H3 as (r3 & H3 & H4). pose proof (RefreshUnrealizedPnl_touches (tr_ticker_ trade) mid) as HR.
  destruct (on_user_touched _ _ _ _ _ t HR H4 Ht) as [|H]; [by left|].
  destruct (on_user_touched _ _ _ _ _ t HR H3 H); [by left|by apply H12].
Qed.

Lemma settled_touches (ss : list (MatchingEngineRouter Index * Trade Ticker)) r r' t :
  foldM settle_step ss r = Ok r' → touched r' t → touched r t ∨ ∃ s, s ∈ ss ∧ t = tr_ticker_ s.2.
Proof.
  revert r. induction ss as [|s ss IH]; intros r; cbn [foldM]; [intros [= <-]; by left|].
  intros (r1 & H1 & H2)%bind_Ok Ht. destruct (IH r1 H2 Ht) as [Hr1|(x & Hx & ->)].
  - destruct (settle_trade_touches _ _ _ _ _ H1 Hr1); [right; exists s; split; [by left|done]|by left].
  - right. exists x. split; [by right|done].
Qed.

Lemma registry_init_touched t : ¬ touched registry_init t.
Proof.
  unfold touched. rewrite Exists_exists. intros (u & Hu & Ht).
  apply list_elem_of_fmap in Hu as (i & -> & _). cbn in Ht. rewrite um_find_empty in Ht. by destruct Ht.
Qed.

(** Every row is of a touched ticker. *)
Lemma rows_touched r (rows : list (SnapshotRow D Ticker)) row : WriteSnapshot true r = Ok rows →
  row ∈ rows → touched r (row_ticker row).
Proof.
  intros [= <-] (u & (e & -> & He)%list_elem_of_fmap & Hu)%list_elem_of_bind. destruct e as [t h].
  apply Exists_exists. exists u. split; [done|]. apply um_entries_find in He. by eexists.
Qed.
End Touched.

(** ** Reading the file *)

Section ReadFile.
Context {Ticker : Type} `{!TickerType Ticker} `{!TickerLaws Ticker}.
Implicit Types (rows : list (SnapshotRow binary64 Ticker)) (got : list ReadRow).

(** The names of the instruments are made of letters. *)
Lemma instrument_clean (t : Ticker) : t ∈ (INSTRUMENTS : list Ticker) → clean_ticker t.
Proof.
  intros Hin. unfold clean_ticker.
  assert (ss_data t ∈ map ss_data (INSTRUMENTS : list Ticker)) as Hd
    by (by apply (list_elem_of_fmap_2 ss_data) in Hin).
  rewrite INSTRUMENTS_data in Hd.
  assert (Forall (λ l, comma ∉ l ∧ newline ∉ l) (map ss_data (INSTRUMENTS : list Ticker))) as Hall.
  { rewrite INSTRUMENTS_data. by apply (bool_decide_unpack _). }
  rewrite INSTRUMENTS_data, Forall_forall in Hall. by apply Hall.
Qed.

(** The position column of a ticker, as a reader of the file adds it up. *)
Definition file_position got (t : Ticker) : Z :=
  sumZ rr_position (filter (λ row, rr_ticker row = ss_data t) got).

Lemma file_position_rows rows got t : Forall2 row_shown rows got →
  file_position got t = rows_position rows t.
Proof.
  unfold file_position, rows_position.
  induction 1 as [|row g rows got [_ Ht Hp _ _ _] _ IH]; [done|]. rewrite !filter_cons.
  assert (rr_ticker g = ss_data t ↔ row_ticker row = t) as Hiff.
  { rewrite Ht. split; [apply ss_data_inj|by intros ->]. }
  repeat case_decide; [|tauto..|done]. by rewrite !sumZ_cons, IH, Hp.
Qed.
End ReadFile.

(** All rows are of instruments of the exchange. *)
Lemma rows_listed {Ticker Index D Inv Qi Qm Qt} `{!TickerType Ticker}
    `{!OrderIndexType Index} `{!DoubleOps D} `{!InventoryMap Ticker D Inv} `{!InventoryLaws Ticker D Inv}
    `{!InboundQueue Ticker Qi} `{!MarketDataQueue Qm} `{!TradeQueue Ticker Qt} {cap : nat}
    `{!SpscQueueLaws cap (InboundCommand Ticker) Qi} `{!SpscQueueLaws cap (list byte) Qm}
    `{!SpscQueueLaws cap (Trade Ticker) Qt} (msg0 : list byte)
    (s : Pipeline Ticker Index Inv Qi Qm Qt) (rows : list (SnapshotRow D Ticker)) :
  reachable msg0 s → input_fit (gw_dispatched (gatewayThread s)) →
  WriteSnapshot true (in_registry (inventoryThread s)) = Ok rows →
  Forall (λ row, row_ticker row ∈ (INSTRUMENTS : list Ticker)) rows.
Proof.
  intros Hr Hin Erows. destruct (settled_ok msg0 s Hr Hin) as [_ HR].
  apply Forall_forall. intros row Hrow. pose proof (rows_touched _ _ _ Erows Hrow) as Ht.
  destruct (settled_touches _ _ _ _ HR Ht) as [H|(x & Hx & ->)]; [by apply registry_init_touched in H|].
  pose proof (settled_listed msg0 s Hr Hin) as Hl. rewrite Forall_forall in Hl. by apply Hl.
Qed.

(** ** Properties *)

(** C17: The file tells the accounts.  On input that fits (from participants, prices within
    [-2^62, 2^62), the volume ordered in total at most 2^63 - 1), in every state of the process (main
    writes the file in the last one): the snapshot can be written, and reading it back by
    splitting lines and fields yields exactly one row per holding, in order, with the user,
    the ticker and the position as they are, and each amount to within five millionths of
    its value (or as not a number where it is none).  All rows are of instruments of the
    exchange, and for each of them the positions in the file add up to zero.  Once main has
    joined every thread, no step of any thread changes the accounts any more, so writing the
    file without a lock races with nothing. *)
Theorem final_file_reads_back {Ticker Index Inv Qi Qm Qt} `{!TickerType Ticker} `{!TickerLaws Ticker}
    `{!OrderIndexType Index} `{!InventoryMap Ticker binary64 Inv} `{!InventoryLaws Ticker binary64 Inv}
    `{!InboundQueue Ticker Qi} `{!MarketDataQueue Qm} `{!TradeQueue Ticker Qt} {cap : nat}
    `{!SpscQueueLaws cap (InboundCommand Ticker) Qi} `{!SpscQueueLaws cap (list byte) Qm}
    `{!SpscQueueLaws cap (Trade Ticker) Qt} (msg0 : list byte) (nan_sign : bool)
    (s : Pipeline Ticker Index Inv Qi Qm Qt) :
  reachable msg0 s → input_fit (gw_dispatched (gatewayThread s)) →
  ∃ rows text got, WriteSnapshot true (in_registry (inventoryThread s)) = Ok rows ∧
    WriteSnapshot_text nan_sign true (in_registry (inventoryThread s)) = Ok text ∧
    read_snapshot text = Some got ∧ Forall2 row_shown rows got ∧
    Forall (λ row, row_ticker row ∈ (INSTRUMENTS : list Ticker)) rows ∧
    (∀ t : Ticker, file_position got t = 0) ∧
    (mn_pc (mainThread s) = MainDone → ∀ mv s', step msg0 mv s = Some s' →
       in_registry (inventoryThread s') = in_registry (inventoryThread s)).
Proof.
  intros Hr Hin. destruct (settled_ok msg0 s Hr Hin) as [Hss Ha].
  destruct (settlement_run (Inv:=Inv) _ Hss) as (r & HR & Hsz & _ & Hp).
  assert (r = in_registry (inventoryThread s)) as -> by congruence.
  set (reg := in_registry (inventoryThread s)) in *.
  destruct (WriteSnapshot true reg) as [rows| | |] eqn:Erows; [|done..].
  pose proof (rows_listed msg0 s rows Hr Hin Erows) as Hlist.
  destruct (read_snapshot_text nan_sign rows) as (got & Hgot & Hshown).
  { eapply Forall_impl; [exact Hlist|]. intros row. apply instrument_clean. }
  exists rows, (snapshot_text nan_sign rows), got.
  split_and!; [done| |done..| |intros Hdone mv s'; by apply registry_frozen].
  - unfold WriteSnapshot_text. by rewrite Erows.
  - intros t. rewrite (file_position_rows rows got t Hshown).
    rewrite (snapshot_position reg rows t Erows), users_sum by done. by eapply total_of_changes.
Qed.

(** What the run of Exchange.v with one trade leaves: two rows (a short position that is
    worth what it cost has an unrealised P&L of minus zero). *)
Definition two_rows : list byte := list_byte_of_string
"userId,ticker,position,avgCost,realizedPnl,unrealizedPnl
1,AAPL,-4,0.0001,0,-0
2,AAPL,4,0.0001,0,0
".

Lemma final_file_reads_back_witness :
  let s := after_moves trade_then_stop in
  mn_pc (mainThread s) = MainDone ∧
  WriteSnapshot_text false true (in_registry (inventoryThread s)) = Ok two_rows ∧
  ∃ rows text got, WriteSnapshot true (in_registry (inventoryThread s)) = Ok rows ∧
    WriteSnapshot_text false true (in_registry (inventoryThread s)) = Ok text ∧
    read_snapshot text = Some got ∧ Forall2 row_shown rows got ∧
    Forall (λ row, row_ticker row ∈ (INSTRUMENTS : list CTicker)) rows ∧
    (∀ t : CTicker, file_position got t = 0) ∧
    (mn_pc (mainThread s) = MainDone → ∀ mv s', step zeros mv s = Some s' →
       in_registry (inventoryThread s') = in_registry (inventoryThread s)).
Proof.
  intros s. split; [vm_compute; reflexivity|]. split; [vm_compute; reflexivity|].
  apply (final_file_reads_back (cap:=QUEUE_CAPACITY) zeros false s).
  - apply trade_then_stop_done.
  - apply trade_then_stop_fit.
Defined.

(** The file does not tell the amounts to the cent.  Rows that differ only in amounts with
    the same sign and the same six leading digits are written alike; so a realised P&L of
    1,234,566 dollars and one of 1,234,574 dollars cannot be told apart. *)
Theorem snapshot_loses_dollars {Ticker} `{!TickerType Ticker} (nan_sign : bool) (id : UserId) (t : Ticker)
    (vol : Volume) (avg unrealized : USD binary64) :
  let row pnl := mkRow id t (mkHolding vol avg (Strong pnl) unrealized) in
  (∀ sg m1 e1 m2 e2, six_digits (magnitude m1 e1) = six_digits (magnitude m2 e2) →
     row_text nan_sign (row (SpecFloat.S754_finite sg m1 e1)) =
     row_text nan_sign (row (SpecFloat.S754_finite sg m2 e2))) ∧
  row_text nan_sign (row (d_of_Z 1234566)) = row_text nan_sign (row (d_of_Z 1234574)) ∧
  print_double nan_sign (d_of_Z 1234566) = list_byte_of_string "1.23457e+06".
Proof.
  intros row. split; [|split].
  - intros sg m1 e1 m2 e2 E. unfold row_text. cbn [row row_userId row_ticker row_holding hd_realizedPnl_ value].
    unfold print_double at 2 5. cbn. by rewrite E.
  - unfold row_text. cbn [row row_userId row_ticker row_holding hd_realizedPnl_ hd_volume_ hd_avgCost_ hd_unrealizedPnl_ value].
    assert (print_double nan_sign (d_of_Z 1234566) = print_double nan_sign (d_of_Z 1234574)) as ->
      by (vm_compute; reflexivity). reflexivity.
  - vm_compute. reflexivity.
Qed.

Lemma snapshot_loses_dollars_witness :
  let row pnl := mkRow (Strong 7) AAPL (mkHolding (Strong 0) (Strong (d_of_Z 0)) (Strong pnl) (Strong (d_of_Z 0))) in
  row_text false (row (d_of_Z 1234566)) = list_byte_of_string "7,AAPL,0,0,1.23457e+06,0" ++ [newline] ∧
  row_text false (row (d_of_Z 1234566)) = row_text false (row (d_of_Z 1234574)).
Proof.
  intros row. split; [vm_compute; reflexivity|].
  exact (proj1 (proj2 (snapshot_loses_dollars false (Strong 7) AAPL (Strong 0) (Strong (d_of_Z 0)) (Strong (d_of_Z 0))))).
Defined.
