(* ===== verification/WireToFile.v ===== *)
(** * From the wire to the file

    The components put together, with a clean shutdown at the end.  Clients write commands
    to their connections with the codec of the client tools; the gateway cuts the streams
    into commands; the threads match and settle them in whatever interleaving; main writes
    the snapshot.  What comes out, the published feed and the file, is what the sequential
    exchange makes of the clients' commands. *)

From Stdlib Require Import Strings.Byte Strings.String.
From Stdlib Require Import QArith.
From stdpp Require Import gmap.
From S2P Require Import Prelude Interfaces Double CoreTypes Seqlock FlatMap MatchingEngine BookSpec EngineRefinement EngineSpec EngineInvariant EngineIndex Concrete EngineTheorems MidPrice Router User Accounting Registry Settlement Decimal SnapshotText Bytes Wire Feed Listener Queues Os Gateway GatewayTheorems GatewayReplay Pipeline PipelineInvariant EndToEnd PipelineTheorems ListenerSync ListenerView ListenerTheorems Exchange SnapshotFile.

Local Open Scope Z_scope.

(** ** The clients *)

Section Clients.
Context {Ticker : Type} `{!TickerType Ticker} `{!TickerLaws Ticker}.
Implicit Types (fd : Z) (evs : list SysEvent) (r : Replay Ticker) (cmd : InboundCommand Ticker)
  (cmds : list (InboundCommand Ticker)).

(** What a client writes to its connection to send commands, one after the other. *)
Fixpoint session_bytes cmds : Outcome (list byte) :=
  match cmds with
  | [] => Ok []
  | cmd :: cmds' => frame ← client_encode cmd; rest ← session_bytes cmds'; Ok (frame ++ rest)
  end.

Lemma client_encode_decodes cmd : command_in_range cmd →
  ∃ msg, client_encode cmd = Ok msg ∧ length msg = buffer_size ∧ DecodeInboundMessage msg = Ok cmd.
Proof.
  destruct cmd as [o|c]; cbn [command_in_range].
  - intros [Ho Ht]. by apply decode_client_add.
  - intros (Ho & Hu & Ht). by apply decode_client_cancel.
Qed.

(** The gateway's way to cut it yields the commands again. *)
Lemma session_framed cmds : Forall command_in_range cmds →
  ∃ bytes frames, session_bytes cmds = Ok bytes ∧ Framed bytes frames [] ∧ decodes frames cmds.
Proof.
  induction 1 as [|cmd cmds Hc _ (bytes & frames & HB & [EF SF RF] & HD)].
  { exists [], []. split_and!; [done| |constructor]. split; [done|constructor|apply Nat.lt_0_succ]. }
  destruct (client_encode_decodes cmd Hc) as (msg & HE & Hl & Hd).
  exists (msg ++ bytes), (msg :: frames). cbn [session_bytes]. rewrite HE. cbn [mbind Outcome_bind].
  rewrite HB. split_and!; [done| |by constructor].
  split; [|by constructor|done]. cbn [concat]. by rewrite <-(assoc_L (++)), EF.
Qed.

(** The notes [evs] contain a connection that carried the session [cmds], and [r] is where
    the reader of the notes ends: the log entries of that stretch that are from this
    connection are the session, complete and in order. *)
Definition session_dispatched evs r : Prop :=
  ∀ fd before during after cmds, evs = before ++ EvAccepted fd :: during ++ after →
    stays fd during → Forall command_in_range cmds → session_bytes cmds = Ok (received fd during) →
    ∃ r1 r2 log2 log3, replay before replay_init = Ok r1 ∧
      replay (before ++ EvAccepted fd :: during) replay_init = Ok r2 ∧
      rp_log r2 = rp_log r1 ++ log2 ∧ rp_log r = rp_log r2 ++ log3 ∧ sent_by fd log2 = cmds.

Lemma replay_sessions evs r : replay evs replay_init = Ok r → session_dispatched evs r.
Proof.
  intros Hr fd before during after cmds -> Hst Hc HB.
  destruct (session_framed cmds Hc) as (bytes & frames & HB' & HF & HD).
  assert (bytes = received fd during) as -> by congruence.
  replace (before ++ EvAccepted fd :: during ++ after)
    with ((before ++ EvAccepted fd :: during) ++ after) in Hr
    by (by rewrite <-(assoc_L (++))).
  unfold replay in Hr. rewrite foldM_app in Hr. apply bind_Ok in Hr as (r2 & H2 & H3).
  pose proof H2 as H2'. rewrite foldM_app in H2'. apply bind_Ok in H2' as (r1 & H1 & H2').
  cbn in H2'.
  destruct (replay_cut fd [] during _ r2 (Nat.lt_0_succ _) (lookup_insert_eq _ _ _) Hst H2')
    as (frames' & rest & cmds' & HF' & HD' & HL & _).
  destruct (Framed_unique _ _ _ _ _ HF HF') as [<- <-].
  rewrite <-(decodes_unique _ _ _ HD HD') in HL.
  destruct (replay_log _ _ _ H2') as [log2 E2], (replay_log _ _ _ H3) as [log3 E3].
  exists r1, r2, log2, log3. cbn [rp_log] in HL, E2. split_and!; [done..|].
  rewrite E2, sent_by_app in HL. by apply app_inv_head in HL.
Qed.
End Clients.

(** ** One account in the file *)

Section OneAccount.
Context {D : Type} `{!DoubleOps D} {Ticker : Type} `{!TickerType Ticker} `{!TickerLaws Ticker}.
Context {Inv : Type} `{!InventoryMap Ticker D Inv} `{!InventoryLaws Ticker D Inv}.
Implicit Types (reg : UserRegistry Inv) (rows : list (SnapshotRow D Ticker)) (id : UserId) (t : Ticker).

(** The position column of the rows of one user and ticker. *)
Definition account_position rows id t : Z :=
  sumZ (λ row, value (hd_volume_ (row_holding row)))
    (filter (λ row, row_userId row = id ∧ row_ticker row = t) rows).

Lemma account_position_app rows1 rows2 id t :
  account_position (rows1 ++ rows2) id t = account_position rows1 id t + account_position rows2 id t.
Proof. unfold account_position. by rewrite filter_app, sumZ_app. Qed.

Lemma account_position_user (u : User Inv) id t :
  account_position ((λ '(t, h), mkRow (Id u) t h) <$> um_entries (Inventory u)) id t =
  if decide (Id u = id) then value (hd_volume_ (holding_of u t)) else 0.
Proof.
  rewrite <-user_rows_position. unfold account_position, rows_position.
  induction (um_entries (Inventory u)) as [|[t' h] es IH]; [by case_decide|].
  rewrite !fmap_cons, !filter_cons. cbn [row_userId row_ticker].
  destruct (decide (Id u = id)); repeat case_decide; rewrite ?sumZ_cons, ?IH; tauto || done.
Qed.

(** The users from number [k] on. *)
Lemma users_account (us : list (User Inv)) id t k :
  us_id_ <$> us = (λ i, Strong (Z.of_nat i)) <$> seq k (length us) → 0 ≤ value id →
  account_position (us ≫= λ u, (λ '(t, h), mkRow (Id u) t h) <$> um_entries (Inventory u)) id t =
  if decide (k ≤ user_index id)%nat
  then match us !! (user_index id - k)%nat with Some u => value (hd_volume_ (holding_of u t)) | None => 0 end
  else 0.
Proof.
  intros Hus Hid. revert k Hus. induction us as [|u us IH]; intros k; [by case_decide|].
  cbn [length seq]. rewrite !fmap_cons, bind_cons, account_position_app, account_position_user.
  intros [= Hu Hus]. rewrite (IH (S k) Hus). unfold Id, user_index in *. rewrite Hu.
  destruct id as [z]. cbn [value] in *. repeat case_decide; simplify_eq; try lia.
  - replace (Z.to_nat (Z.of_nat k) - k)%nat with O by lia. cbn. lia.
  - replace (Z.to_nat z - k)%nat with (S (Z.to_nat z - S k)) by lia. done.
  - destruct H. f_equal. lia.
Qed.

Lemma snapshot_account reg rows id t : WriteSnapshot true reg = Ok rows →
  user_ids reg = user_ids (registry_init (Inv:=Inv)) → participant id →
  account_position rows id t = volume_at reg (user_index id) t.
Proof.
  intros [= <-] Hids [H0 _]. assert (length (users_ reg) = Z.to_nat MARKET_PARTICIPANT_COUNT) as Hl.
  { rewrite <-(length_fmap us_id_). unfold user_ids in Hids. rewrite Hids, length_fmap.
    apply registry_init_sized. }
  rewrite (users_account (users_ reg) id t 0).
  - case_decide; [|lia]. rewrite Nat.sub_0_r. unfold volume_at, hold. by destruct (users_ reg !! _).
  - rewrite Hl. change (us_id_ <$> users_ reg) with (user_ids reg). rewrite Hids. unfold user_ids, registry_init.
    cbn [users_]. by rewrite <-list_fmap_compose.
  - done.
Qed.
End OneAccount.

Section ReadAccount.
Context {Ticker : Type} `{!TickerType Ticker} `{!TickerLaws Ticker}.
Implicit Types (rows : list (SnapshotRow binary64 Ticker)) (got : list ReadRow).

(** What the file says about one user and ticker. *)
Definition file_account got (id : UserId) (t : Ticker) : Z :=
  sumZ rr_position (filter (λ row, rr_userId row = value id ∧ rr_ticker row = ss_data t) got).

Lemma file_account_rows rows got id t : Forall2 row_shown rows got →
  file_account got id t = account_position rows id t.
Proof.
  unfold file_account, account_position.
  induction 1 as [|row g rows got [Hu Ht Hp _ _ _] _ IH]; [done|]. rewrite !filter_cons.
  assert (rr_userId g = value id ∧ rr_ticker g = ss_data t ↔ row_userId row = id ∧ row_ticker row = t) as Hiff.
  { rewrite Hu, Ht. destruct (row_userId row), id. cbn. split; [|naive_solver].
    intros [-> E]. by apply ss_data_inj in E. }
  repeat case_decide; [|tauto..|done]. by rewrite !sumZ_cons, IH, Hp.
Qed.
End ReadAccount.

(** ** The process *)

Section Whole.
Context {Ticker : Type} `{!TickerType Ticker} `{!TickerLaws Ticker}.
Context {Index : Type} `{!OrderIndexType Index} `{!OrderIndexLaws Index}.
Context {Inv : Type} `{!InventoryMap Ticker binary64 Inv} `{!InventoryLaws Ticker binary64 Inv}.
Context {Qi Qm Qt : Type} `{!InboundQueue Ticker Qi} `{!MarketDataQueue Qm} `{!TradeQueue Ticker Qt}.
Context {cap : nat} `{!SpscQueueLaws cap (InboundCommand Ticker) Qi}.
Context `{!SpscQueueLaws cap (list byte) Qm} `{!SpscQueueLaws cap (Trade Ticker) Qt}.
Context (msg0 : list byte).
Implicit Types (s : Pipeline Ticker Index Inv Qi Qm Qt).

(** A clean end: main has joined every thread, and nothing was left in a queue. *)
Definition cleanly_ended s : Prop :=
  mn_pc (mainThread s) = MainDone ∧ q_contents (inboundQueue s) = [] ∧
  q_contents (marketDataQueue s) = [] ∧ q_contents (tradeQueue s) = [].

(** What came out is what the sequential exchange makes of the commands. *)
Lemma ended_is_sequential s : reachable msg0 s → cleanly_ended s →
  ∃ r, seq_run msg0 (gw_dispatched (gatewayThread s)) =
    Ok (r, pb_published (marketDataThread s), (in_settled (inventoryThread s)).*2).
Proof.
  intros (I1 & (r & mds & trs & HR & _ & Hm & Ht) & _ & _ & [_ _ S3 S4 _ S6])%process_inv_reachable
    (Hd & Q1 & Q2 & Q3).
  rewrite Hd in S6. destruct S6 as [Hi Hp]. pose proof (S3 (S4 Hi)) as He.
  unfold inbound_inv in I1. rewrite He, Q1 in I1. cbn in I1. rewrite app_nil_r in I1.
  rewrite He, Hi, Q3 in Ht. rewrite He, Hp, Q2 in Hm. cbn in Hm, Ht. rewrite app_nil_r in Hm, Ht.
  exists r. by rewrite I1, HR, Hm, Ht.
Qed.

(** The file lists the position of every participant in every instrument. *)
Lemma file_of_state s nan_sign : reachable msg0 s → input_fit (gw_dispatched (gatewayThread s)) →
  ∃ text got, WriteSnapshot_text nan_sign true (in_registry (inventoryThread s)) = Ok text ∧
    read_snapshot text = Some got ∧
    ∀ id (t : Ticker), participant id → file_account got id t =
      sumZ (λ tr, position_change tr (user_index id) t) (in_settled (inventoryThread s)).*2.
Proof.
  intros Hr Hin. destruct (settled_ok msg0 s Hr Hin) as [Hss Ha].
  destruct (settlement_run (Inv:=Inv) _ Hss) as (reg & HR & Hsz & Hids & Hp).
  assert (reg = in_registry (inventoryThread s)) as -> by congruence.
  set (reg := in_registry (inventoryThread s)) in *.
  destruct (WriteSnapshot true reg) as [rows| | |] eqn:Erows; [|done..].
  destruct (read_snapshot_text nan_sign rows) as (got & Hgot & Hshown).
  { eapply Forall_impl; [exact (rows_listed msg0 s rows Hr Hin Erows)|]. intros row. apply instrument_clean. }
  exists (snapshot_text nan_sign rows), got. split_and!; [|done|].
  - unfold WriteSnapshot_text. by rewrite Erows.
  - intros id t Hid. rewrite (file_account_rows rows got id t Hshown).
    rewrite (snapshot_account reg rows id t Erows Hids Hid), Hp. by rewrite sumZ_fmap.
Qed.
End Whole.

(** ** Properties *)

(** C3: From the wire to the file.  Run the gateway's loop over any system, let the process
    execute what it dispatched, in any interleaving, and end cleanly (all threads joined, all
    queues empty).  If the commands are fit (from
    participants, prices within [-2^62, 2^62), total volume below 2^63), then:
    - the reader of the gateway's system calls accounts for every command executed, and each
      session that the client codec wrote to a connection is in there complete, in order and
      nowhere else in the stretch in which the connection was open;
    - the sequential exchange, run on these commands in the order of dispatch, produces
      exactly the published feed and the settled trades;
    - if the participants also followed the rules, a listener that received the feed prints
      the final books of that sequential exchange;
    - the snapshot file can be written and read back, and for every participant and every
      ticker the position in it is the net volume of the participant's trades in that
      sequential run. *)
Theorem sessions_determine_feed_and_file {Ticker Index Inv Qi Qm Qt Conns K} `{!TickerType Ticker}
    `{!TickerLaws Ticker} `{!OrderIndexType Index} `{!OrderIndexLaws Index}
    `{!InventoryMap Ticker binary64 Inv} `{!InventoryLaws Ticker binary64 Inv}
    `{!InboundQueue Ticker Qi} `{!MarketDataQueue Qm} `{!TradeQueue Ticker Qt} {cap : nat}
    `{!SpscQueueLaws cap (InboundCommand Ticker) Qi} `{!SpscQueueLaws cap (list byte) Qm}
    `{!SpscQueueLaws cap (Trade Ticker) Qt} `{!ConnMap Conns} `{!ConnLaws Conns}
    `{!Kernel K} `{!KernelLaws K} (rounds : nat) (msg0 : list byte) (nan_sign : bool)
    (g : GwState Conns K (list (InboundCommand Ticker))) observed
    (s : Pipeline Ticker Index Inv Qi Qm Qt) :
  (∀ fd, um_find fd (connections_ g) = None) → gw_out g = [] →
  EventLoop collect rounds (observe g) = Ok observed →
  length msg0 = sizeof_WireMarketDataMessage → reachable msg0 s → cleanly_ended s →
  gw_dispatched (gatewayThread s) = gw_out observed → input_fit (gw_out observed) →
  ∃ r router trades text got,
    replay (gw_kernel observed).2 replay_init = Ok r ∧ gw_out observed = (rp_log r).*2 ∧
    session_dispatched (gw_kernel observed).2 r ∧
    seq_run msg0 (rp_log r).*2 = Ok (router, pb_published (marketDataThread s), trades) ∧
    trades = (in_settled (inventoryThread s)).*2 ∧
    (followable (rp_log r).*2 → ∃ m, listen (pb_published (marketDataThread s)) = Ok m ∧
       print_snapshot m = all_rows (Ticker:=Ticker) (Index:=Index) router) ∧
    WriteSnapshot_text nan_sign true (in_registry (inventoryThread s)) = Ok text ∧
    read_snapshot text = Some got ∧
    ∀ id (t : Ticker), participant id →
      file_account got id t = sumZ (λ tr, position_change tr (user_index id) t) trades.
Proof.
  intros Hc Ho HE Hlen Hr Hend Hcmds Hfit.
  assert (tracks (observe g) replay_init) as Ht.
  { split; cbn; [intros fd; by rewrite Hc|intros fd conn; by rewrite Hc|done]. }
  destruct (EventLoop_noted rounds (observe g) observed replay_init Ht HE)
    as (evs & r & En & Hev & [_ _ Hout]). cbn in En. subst evs.
  destruct (ended_is_sequential msg0 s Hr Hend) as [router HR].
  rewrite <-Hcmds in Hfit. destruct (file_of_state msg0 s nan_sign Hr Hfit) as (text & got & HT & HG & HA).
  rewrite Hcmds, Hout in HR. exists r, router, (in_settled (inventoryThread s)).*2, text, got.
  split_and!; try done; [by apply replay_sessions|].
  intros Hf. destruct (seq_run_in_sync (Index:=Index) msg0 Hlen _ Hf) as (r1 & mds & trs & m & HR1 & HL & Hs).
  rewrite HR1 in HR. injection HR as <- -> _. exists m. split; [done|]. by apply (in_sync_snapshot _ _ _ Hs).
Qed.

(** Two clients, one order each; the second frame arrives in two pieces, the first in
    between. *)
Definition encoded (cmd : InboundCommand CTicker) : list byte := ok_or [] (client_encode cmd).
Definition seller : list byte := encoded (CmdAdd (add 1 1 AAPL Sell 100 10)).
Definition buyer : list byte := encoded (CmdAdd (add 2 2 AAPL Buy 100 4)).

Definition trading_clients : sim :=
  mkSim ∅ [] {[0; 1; 2; 3; 4]} ∅ ∅ 5 true true true
    [mkRound [7; 8] ∅ [3];
     mkRound [] {[8 := take 30 buyer; 7 := seller]} [8; 7];
     mkRound [] {[8 := drop 30 buyer]} [8]].

Definition trading_gw : CGw := mkGw (mkFds 9000 3 4) ∅ trading_clients [].
Definition trading_end : GwState (gmap Z Connection) (Noted sim) (list (InboundCommand CTicker)) :=
  Eval vm_compute in ok_or (observe trading_gw) (EventLoop collect 3 (observe trading_gw)).

Definition trading_cmds : list (InboundCommand CTicker) :=
  [CmdAdd (add 1 1 AAPL Sell 100 10); CmdAdd (add 2 2 AAPL Buy 100 4)].

Lemma trading_dispatched : gw_out trading_end = trading_cmds.
Proof. vm_compute. reflexivity. Qed.

Lemma trading_followable : followable trading_cmds.
Proof.
  split_and!; [by apply (bool_decide_unpack _)..|].
  repeat (apply Forall_cons; split); [(split_and!; [by apply (bool_decide_unpack _)..|apply AAPL_plain])..|].
  constructor.
Qed.

Lemma trading_parties : participant (Strong 1) ∧ participant (Strong 2).
Proof. by apply (bool_decide_unpack _). Qed.

Lemma sessions_determine_feed_and_file_witness :
  let s := after_moves trade_then_stop in
  ∃ r router trades text got,
    replay (gw_kernel trading_end).2 replay_init = Ok r ∧ gw_out trading_end = (rp_log r).*2 ∧
    (rp_log r).*1 = [7; 8] ∧ seq_run zeros (rp_log r).*2 =
      Ok (router, pb_published (marketDataThread s), trades) ∧
    (∃ r1 r2 log2 log3, replay [EvAccepted 7] replay_init = Ok r1 ∧
       replay (take 5 (gw_kernel trading_end).2) replay_init = Ok r2 ∧
       rp_log r2 = rp_log r1 ++ log2 ∧ rp_log r = rp_log r2 ++ log3 ∧
       sent_by 8 log2 = [CmdAdd (add 2 2 AAPL Buy 100 4)]) ∧
    (∃ m, listen (pb_published (marketDataThread s)) = Ok m ∧
       print_snapshot m = all_rows (Ticker:=CTicker) (Index:=CIndex) router) ∧
    WriteSnapshot_text false true (in_registry (inventoryThread s)) = Ok text ∧
    read_snapshot text = Some got ∧ file_account got (Strong 1) AAPL = -4 ∧
    file_account got (Strong 2) AAPL =
      sumZ (λ tr, position_change tr (user_index (Strong 2)) AAPL) trades.
Proof.
  intros s.
  destruct (sessions_determine_feed_and_file (Conns:=gmap Z Connection) (cap:=QUEUE_CAPACITY) 3 zeros false
    trading_gw trading_end s) as (r & router & trades & text & got & H1 & H2 & H3 & H4 & H5 & H6 & H7 & H8 & H9).
  - intros fd. apply lookup_empty.
  - reflexivity.
  - vm_compute. reflexivity.
  - reflexivity.
  - apply trade_then_stop_done.
  - vm_compute. repeat split.
  - vm_compute. reflexivity.
  - rewrite trading_dispatched. by apply (bool_decide_unpack _).
  - exists r, router, trades, text, got. split; [exact H1|]. split; [exact H2|].
    assert ((rp_log r).*1 = [7; 8]) as Hlog.
    { clear - H1. vm_compute in H1. injection H1 as <-. vm_compute. reflexivity. }
    split; [exact Hlog|]. split; [exact H4|]. split.
    { destruct (H3 8 [EvAccepted 7] (drop 2 (gw_kernel trading_end).2) []
        [CmdAdd (add 2 2 AAPL Buy 100 4)]) as (r1 & r2 & log2 & log3 & HS).
      - rewrite app_nil_r. vm_compute. reflexivity.
      - vm_compute. repeat constructor; discriminate.
      - constructor; [|constructor]. split_and!; [by apply (bool_decide_unpack _)..|apply AAPL_plain].
      - vm_compute. reflexivity.
      - exists r1, r2, log2, log3. exact HS. }
    split; [apply H6; rewrite <-H2, trading_dispatched; exact trading_followable|].
    split; [exact H7|]. split; [exact H8|]. split; [|exact (H9 _ AAPL (proj2 trading_parties))].
    rewrite (H9 (Strong 1) AAPL (proj1 trading_parties)), H5. clear. vm_compute. reflexivity.
Defined.
