(* ===== verification/RepoTests.v ===== *)
(** * The tests of the repository, run on the model (tests/*.cpp)

    Every test function of the repository, statement by statement, with the definitions
    of the model in place of the classes.  They all pass: on these inputs the model does
    what its authors expect of the program. *)

From Stdlib Require Import Strings.Byte Strings.String.
From Corelib Require Import SpecFloat.
From stdpp Require Import gmap.
From S2P Require Import Prelude Interfaces Double CoreTypes Seqlock FlatMap MatchingEngine Concrete Router User Instruments Bytes Wire Queues.

Local Open Scope Z_scope.

(** A test ends with whether its assertions held; it stops at the first that does not. *)
Notation Test := (Outcome bool).
Notation "'assert!' b ; rest" := (if bool_decide b then rest else Ok false)
  (at level 100, rest at level 100, right associativity, only parsing).
Notation passed := (Ok true : Test).

(** ** matching_engine_test.cpp *)

Module EngineTests.
Definition MakeOrder (id user : Z) (side : Side) (price volume : Z) : OrderAdd CTicker :=
  mkOrderAdd (Strong id) (Strong user) AAPL side (Strong price) (Strong volume).

Definition AddOrder (engine : CEngine) (order : OrderAdd CTicker) : Outcome (CEngine * list (Trade CTicker)) :=
  OnOrderAdd collect order engine [].

Definition testRestsWhenNoCross : Test :=
  '(_, trades) ← AddOrder engine_init (MakeOrder 1 1 Buy 100 10);
  assert! trades = []; passed.

Definition testFullFill : Test :=
  '(engine, _) ← AddOrder engine_init (MakeOrder 1 1 Sell 100 10);
  '(_, trades) ← AddOrder engine (MakeOrder 2 2 Buy 100 10);
  assert! length trades = 1%nat;
  assert! tr_makerId_ <$> trades !! 0%nat = Some (Strong 1);
  assert! tr_takerId_ <$> trades !! 0%nat = Some (Strong 2);
  assert! tr_executionPrice_ <$> trades !! 0%nat = Some (Strong 100);
  assert! tr_volume_ <$> trades !! 0%nat = Some (Strong 10);
  assert! tr_takerSide_ <$> trades !! 0%nat = Some Buy; passed.

Definition testPartialFillRestsRemainder : Test :=
  '(engine, _) ← AddOrder engine_init (MakeOrder 1 1 Sell 101 10);
  '(engine, trades) ← AddOrder engine (MakeOrder 2 2 Buy 102 15);
  assert! length trades = 1%nat;
  assert! tr_volume_ <$> trades !! 0%nat = Some (Strong 10);
  assert! tr_executionPrice_ <$> trades !! 0%nat = Some (Strong 101);
  '(_, moreTrades) ← AddOrder engine (MakeOrder 3 3 Sell 102 5);
  assert! length moreTrades = 1%nat;
  assert! tr_makerId_ <$> moreTrades !! 0%nat = Some (Strong 2);
  assert! tr_takerId_ <$> moreTrades !! 0%nat = Some (Strong 3);
  assert! tr_volume_ <$> moreTrades !! 0%nat = Some (Strong 5); passed.

Definition testCancelRemovesRestingOrder : Test :=
  '(engine, _) ← AddOrder engine_init (MakeOrder 1 1 Sell 100 10);
  engine ← OnOrderCancel (cancel 1 1 AAPL) engine;
  '(_, trades) ← AddOrder engine (MakeOrder 2 2 Buy 100 10);
  assert! trades = []; passed.

Definition testCancelIgnoresWrongOwner : Test :=
  '(engine, _) ← AddOrder engine_init (MakeOrder 1 1 Sell 100 10);
  engine ← OnOrderCancel (cancel 1 999 AAPL) engine;
  '(_, trades) ← AddOrder engine (MakeOrder 2 2 Buy 100 10);
  assert! length trades = 1%nat; passed.

Definition testPriceTimePriority : Test :=
  '(engine, _) ← AddOrder engine_init (MakeOrder 1 1 Sell 100 5);
  '(engine, _) ← AddOrder engine (MakeOrder 2 2 Sell 100 5);
  '(_, trades) ← AddOrder engine (MakeOrder 3 3 Buy 100 5);
  assert! length trades = 1%nat;
  assert! tr_makerId_ <$> trades !! 0%nat = Some (Strong 1); passed.

Definition testMidPriceEmptyUntilTwoSidedLiquidity : Test :=
  mid ← MidPrice (engine_init : CEngine);
  assert! mid = None;
  '(engine, _) ← AddOrder engine_init (MakeOrder 1 1 Buy 100 10);
  mid ← MidPrice engine;
  assert! mid = Some (Strong 100);
  '(engine, _) ← AddOrder engine (MakeOrder 2 2 Sell 104 10);
  mid ← MidPrice engine;
  assert! mid = Some (Strong 102); passed.

Definition testMidPriceHoldsLastKnownValueWhenBookEmpties : Test :=
  '(engine, _) ← AddOrder engine_init (MakeOrder 1 1 Buy 100 10);
  '(engine, _) ← AddOrder engine (MakeOrder 2 2 Sell 100 10);
  mid ← MidPrice engine;
  assert! mid = Some (Strong 100); passed.

Definition testOnTradeCalledOnTheSpotForEachFill : Test :=
  '(engine, _) ← AddOrder engine_init (MakeOrder 1 1 Sell 100 5);
  '(engine, _) ← AddOrder engine (MakeOrder 2 2 Sell 100 5);
  '(_, makersSeenInOrder) ← OnOrderAdd (λ trade makers, Ok (makers ++ [tr_makerId_ trade]))
                              (MakeOrder 3 3 Buy 100 10) engine [];
  assert! length makersSeenInOrder = 2%nat;
  assert! makersSeenInOrder !! 0%nat = Some (Strong 1 : UserId);
  assert! makersSeenInOrder !! 1%nat = Some (Strong 2 : UserId); passed.

Definition all : list Test :=
  [testRestsWhenNoCross; testFullFill; testPartialFillRestsRemainder; testCancelRemovesRestingOrder;
   testCancelIgnoresWrongOwner; testPriceTimePriority; testMidPriceEmptyUntilTwoSidedLiquidity;
   testMidPriceHoldsLastKnownValueWhenBookEmpties; testOnTradeCalledOnTheSpotForEachFill].
End EngineTests.

(** ** matching_engine_router_test.cpp *)

Module RouterTests.
Notation CRouter := (MatchingEngineRouter CIndex).
Notation router0 := (router_init (Ticker:=CTicker) : CRouter).

Definition AddOrderRouter (router : CRouter) (order : OrderAdd CTicker) : Outcome (CRouter * list (Trade CTicker)) :=
  router_OnOrderAdd collect order router [].

Definition testOrdersForDifferentTickersNeverCross : Test :=
  '(router, _) ← AddOrderRouter router0 (add 1 1 AAPL Sell 100 10);
  '(_, trades) ← AddOrderRouter router (add 2 2 GOOG Buy 100 10);
  assert! trades = []; passed.

Definition testOrdersForTheSameTickerStillCross : Test :=
  '(router, _) ← AddOrderRouter router0 (add 1 1 AAPL Sell 100 10);
  '(_, trades) ← AddOrderRouter router (add 2 2 AAPL Buy 100 10);
  assert! length trades = 1%nat;
  assert! tr_ticker_ <$> trades !! 0%nat = Some AAPL; passed.

Definition testMidPriceIsIndependentPerTicker : Test :=
  midA ← router_MidPrice router0 AAPL;
  assert! midA = None;
  midG ← router_MidPrice router0 GOOG;
  assert! midG = None;
  '(router, _) ← AddOrderRouter router0 (add 1 1 AAPL Buy 100 10);
  '(router, _) ← AddOrderRouter router (add 2 2 GOOG Buy 500 10);
  midA ← router_MidPrice router AAPL;
  assert! midA = Some (Strong 100);
  midG ← router_MidPrice router GOOG;
  assert! midG = Some (Strong 500); passed.

Definition testCancelRoutesToTheOrderOwnTicker : Test :=
  '(router, _) ← AddOrderRouter router0 (add 1 1 AAPL Sell 100 10);
  router ← router_OnOrderCancel (cancel 1 1 GOOG) router;
  '(_, stillThere) ← AddOrderRouter router (add 2 2 AAPL Buy 100 10);
  assert! length stillThere = 1%nat;
  '(router2, _) ← AddOrderRouter router0 (add 1 1 AAPL Sell 100 10);
  router2 ← router_OnOrderCancel (cancel 1 1 AAPL) router2;
  '(_, gone) ← AddOrderRouter router2 (add 2 2 AAPL Buy 100 10);
  assert! gone = []; passed.

Definition testUnlistedTickerIsSilentlyIgnored : Test :=
  '(router, trades) ← AddOrderRouter router0 (add 1 1 ZZZZ Buy 100 10);
  assert! trades = [];
  mid ← router_MidPrice router ZZZZ;
  assert! mid = None; passed.

Definition all : list Test :=
  [testOrdersForDifferentTickersNeverCross; testOrdersForTheSameTickerStillCross;
   testMidPriceIsIndependentPerTicker; testCancelRoutesToTheOrderOwnTicker;
   testUnlistedTickerIsSilentlyIgnored].
End RouterTests.

(** ** user_test.cpp *)

Module UserTests.
Notation CUser := (User (gmap CTicker (Holding binary64))).

(** The literal 1e-6 is the double nearest to it, and so is the quotient. *)
Definition epsilon : binary64 := d_div (d_of_Z 1) (d_of_Z 1000000).

Definition ApproxEqual (a b : binary64) : bool := SFltb (SFabs (d_sub a b)) epsilon.

(** ToPrice(USD(n)) *)
Definition usd_price (n : Z) : Outcome Price := ToPrice (Strong (d_of_Z n) : USD binary64).

(** user.ApplyFill(ticker, side, ToPrice(USD(n)), Volume(v)) *)
Definition ApplyUsdFill (t : CTicker) (side : Side) (n v : Z) (u : CUser) : Outcome CUser :=
  price ← usd_price n; ApplyFill t side price (Strong v) u.

Definition user1 : CUser := user_new (Strong 1).

Definition testDefaultPositionIsZero : Test :=
  assert! Position user1 AAPL = Strong 0;
  assert! ApproxEqual (value (RealizedPnl user1 AAPL)) (d_of_Z 0) = true;
  assert! ApproxEqual (value (UnrealizedPnl user1 AAPL)) (d_of_Z 0) = true; passed.

Definition testApplyFillAccumulatesSameDirection : Test :=
  user ← ApplyUsdFill AAPL Buy 100 10 user1;
  user ← ApplyUsdFill AAPL Buy 110 10 user;
  assert! Position user AAPL = Strong 20;
  match um_find AAPL (Inventory user) with
  | None => Ok false
  | Some h => assert! ApproxEqual (value (hd_avgCost_ h)) (d_of_Z 105) = true; passed
  end.

Definition testApplyFillCanGoNegative : Test :=
  user ← ApplyUsdFill AAPL Buy 100 10 user1;
  user ← ApplyUsdFill AAPL Sell 100 15 user;
  assert! Position user AAPL = Strong (-5); passed.

Definition testPositionsAreIndependentPerTicker : Test :=
  user ← ApplyUsdFill AAPL Buy 100 10 user1;
  user ← ApplyUsdFill GOOG Buy 140 3 user;
  assert! Position user AAPL = Strong 10;
  assert! Position user GOOG = Strong 3; passed.

Definition testRealizedPnlOnClosingALongPosition : Test :=
  user ← ApplyUsdFill AAPL Buy 100 10 user1;
  user ← ApplyUsdFill AAPL Sell 110 10 user;
  assert! Position user AAPL = Strong 0;
  assert! ApproxEqual (value (RealizedPnl user AAPL)) (d_of_Z 100) = true; passed.

Definition testRealizedPnlOnClosingAShortPosition : Test :=
  user ← ApplyUsdFill AAPL Sell 100 10 user1;
  user ← ApplyUsdFill AAPL Buy 90 10 user;
  assert! Position user AAPL = Strong 0;
  assert! ApproxEqual (value (RealizedPnl user AAPL)) (d_of_Z 100) = true; passed.

Definition testRealizedPnlOnFlipThroughFlat : Test :=
  user ← ApplyUsdFill AAPL Buy 100 10 user1;
  user ← ApplyUsdFill AAPL Sell 110 15 user;
  assert! Position user AAPL = Strong (-5);
  assert! ApproxEqual (value (RealizedPnl user AAPL)) (d_of_Z 100) = true;
  match um_find AAPL (Inventory user) with
  | None => Ok false
  | Some h => assert! ApproxEqual (value (hd_avgCost_ h)) (d_of_Z 110) = true; passed
  end.

Definition testUnrealizedPnlUsesMidPrice : Test :=
  user ← ApplyUsdFill AAPL Buy 100 10 user1;
  mid ← usd_price 107;
  let user := RefreshUnrealizedPnl AAPL mid user in
  assert! ApproxEqual (value (UnrealizedPnl user AAPL)) (d_of_Z 70) = true;
  mid ← usd_price 95;
  let user := RefreshUnrealizedPnl AAPL mid user in
  assert! ApproxEqual (value (UnrealizedPnl user AAPL)) (d_of_Z (-50)) = true; passed.

Definition all : list Test :=
  [testDefaultPositionIsZero; testApplyFillAccumulatesSameDirection; testApplyFillCanGoNegative;
   testPositionsAreIndependentPerTicker; testRealizedPnlOnClosingALongPosition;
   testRealizedPnlOnClosingAShortPosition; testRealizedPnlOnFlipThroughFlat;
   testUnrealizedPnlUsesMidPrice].
End UserTests.

(** ** instruments_test.cpp *)

Module InstrumentTests.
Definition testEquityPnl : Test :=
  price ← UserTests.usd_price 100;
  let e := Instrument_new AAPL price in
  spot ← UserTests.usd_price 105;
  pnl ← CalcPnl spot e;
  five ← UserTests.usd_price 5;
  assert! pnl = five; passed.

Definition testOrderQueueRoundTrip : Test :=
  price ← UserTests.usd_price 100;
  match q_push (mkOrder (Strong 1) (Strong 0) price (Strong 10)) (q_empty : fifo QUEUE_CAPACITY Order) with
  | None => Ok false
  | Some orders =>
      match q_pop orders with
      | None => Ok false
      | Some (out, _) =>
          assert! or_userId_ out = Strong 1;
          assert! or_price_ out = price;
          assert! or_volume_ out = Strong 10; passed
      end
  end.

Definition all : list Test := [testEquityPnl; testOrderQueueRoundTrip].
End InstrumentTests.

(** All tests pass. *)
Theorem repository_tests_pass :
  Forall (λ test, test = passed)
    (EngineTests.all ++ RouterTests.all ++ UserTests.all ++ InstrumentTests.all).
Proof. repeat constructor; vm_compute; reflexivity. Qed.
